(* ===== verification/_CoqProject ===== *)
-Q . S2P
Prelude.v
Float64.v
Common.v
Tasks.v
Region.v
LockTable.v
Prefetching.v
Storage.v
RsError.v
Wal.v
RangeManager.v
GroupCommit.v
Pipeline.v
Resolver.v
Overtaking.v
TxStateStore.v
Coordinator.v
Warden.v
WardenHandler.v
RangeServer.v
RangeTasks.v
RangeClient.v
RangeService.v
MemTable.v
Universe.v
Assignment.v
LateLoad.v
Oracle.v
ClientPool.v
Frontend.v
Statistics.v
ResolverClient.v
WardenPersistence.v
Config.v
Epochs.v
RangeGrpc.v
System.v
AtomicCommit.v
Network.v
TestSupport.v
Histograms.v
Workload.v
WorkloadTx.v
Deployment.v
Startup.v
Monitoring.v
MemTableTests.v
PrefetchingTests.v
WardenTests.v
StorageTests.v
