(* ===== verification/Prelude.v ===== *)
(** * Sangria: a verification development

    Sangria is a distributed transactional key-value store. Clients talk to a
    frontend, which runs a coordinator for every transaction; the key space is
    cut into ranges, each served by a range server; the decision on a
    transaction is a row of the transaction state store; transactions that
    depend on others are committed by the resolver; the warden assigns the
    ranges to the range servers. The data is kept in Cassandra.

    ** How the parts interact

    A client starts, uses and ends transactions through the frontend
    ([src/frontend], file [Frontend]). A transaction ([src/coordinator], file [Coordinator]) buffers its writes,
    reads through the range servers and collects the dependencies they report.
    Its commit prepares every participant range. A range
    ([src/rangeserver/src/range_manager], file [RangeManager]) serialises
    transactions with one lock (file [LockTable]), logs the prepare (file
    [Wal]), and under the pipelined strategies releases the lock before the
    commit, publishing the writes in its pending state: a transaction that reads
    or overwrites them depends on their writer. A transaction without
    dependencies is committed by its coordinator: the decision is stored (file
    [TxStateStore]) and the participants write the changes to the storage (file
    [Storage]) and to the prefetching buffer (file [Prefetching]). One with
    dependencies goes to the resolver ([src/resolver/src/core], file
    [Resolver]), which hands it to group commit (file [GroupCommit]) when its
    dependencies are resolved; group commit sends one commit per range for a
    group of transactions; a coordinator reaches the resolver in its own process
    or over gRPC (file [ResolverClient]). The warden ([src/warden], file [Warden]) gives every
    base range to one of the connected servers and stores the ranges and their
    assignment (file [WardenPersistence]). The key spaces and their base ranges
    are created at the universe ([src/universe], file [Universe]), where the
    oracle (file [Oracle]) looks up the range of a key; the server of a range is
    reached through a pool of clients (file [ClientPool]). A range server (file
    [RangeServer]) learns its ranges from its warden handler (file
    [WardenHandler]), creates a manager for each and runs the requests of its
    clients (file [RangeClient]) on them, which reach it over a network of TCP
    connections (file [Network]); it also answers gRPC calls (file [RangeGrpc]).
    Every service is a process with the one configuration (file [Deployment]),
    which binds its listeners and connects to others when it starts (file
    [Startup]);
    a workload generator drives the whole through the frontend (files
    [Workload], [WorkloadTx]) and a tool looks at the resolver (file
    [Monitoring]).

    ** Files

    - [Prelude]: results of Rust functions ([Ok], [Err] and a panic), the state
      and error monad [M] with [wp], machine integers, hash iteration order
      ([HashOrder]), [oneshot] channels, and the lemmas and tactics all files
      share.
    - [Float64]: the arithmetic and the comparisons of [f64] that the code uses.
    - [Common], [Region]: identifiers, key ranges, conversions; the textual form
      of regions and zones ([src/common]).
    - [Tasks]: asynchronous code as a tree of atomic actions, with the runs in
      which others interrupt it and the run in which nobody does.
    - [LockTable]: the FIFO lock of a range ([lock_table.rs]), refined to an
      abstract queue.
    - [Prefetching]: [prefetching_buffer.rs], with the interleaving of the
      tasks that fetch.
    - [Storage]: the interface [RangeStorage] a range relies on, the statements
      of [storage/cassandra.rs] over the class [Session] of what Cassandra
      documents, the instance [cassandra_storage], and a database in memory.
    - [RsError]: the errors of a range server and their wire form.
    - [Wal]: the interface [RangeWal], the buffered log of [wal/cassandra.rs]
      over the class [WalSession], and its instance.
    - [RangeManager]: [range_manager/impl.rs] over [RangeStorage] and [RangeWal].
    - [GroupCommit]: [core/group_commit.rs].
    - [Pipeline]: a range of [RangeManager] under the pipelined strategy, with the
      commits of the coordinators and of [GroupCommit] interleaved.
    - [Resolver]: [core/resolver.rs] over the interface [GroupCommitter], which
      the instance [group_committer] discharges with the theorems of
      [GroupCommit].
    - [Overtaking]: a run of [Resolver], [GroupCommit] and a range together, in
      which a group overtakes another.
    - [TxStateStore]: [src/tx_state_store].
    - [Coordinator]: [transaction.rs] and [coordinator.rs] over the class
      [Services], about which nothing is assumed.
    - [Warden]: [assignment_computation.rs] and [server.rs] of the warden.
    - [WardenHandler]: [warden_handler.rs] of the range server, its task and its
      connections.
    - [RangeServer]: [server.rs] of the range server over the class [RangeOps],
      of which the managers of [RangeManager] are the instance [manager_ops];
      requests and answers as records of the tables of the schema.
    - [RangeTasks]: the same calls as tasks of [Tasks], over the class [RangeJobs]
      with the instance [manager_jobs]; uninterrupted they are the calls of
      [RangeServer] ([message_job_uninterrupted]).
    - [RangeClient]: the calls of [rangeclient/src/client.rs], run against the
      server of [RangeServer].
    - [RangeService]: which manager of the range server a call touches, and what
      the promises of [RangeManager] are for the calls of [RangeClient].
    - [MemTable]: the versioned cache of [cache/memtabledb.rs] over the class
      [SkipList] of what the crate [skiplist] documents.
    - [Universe]: [src/universe] over the class [UniverseSession].
    - [Assignment]: a range server with its warden handler, with the loop of
      [server.rs] between them and with the tasks of [RangeTasks] that the loop
      and the clients have spawned ([Node]), under the warden of [Warden].
    - [LateLoad]: the same with whole calls, but with the loads cut after the
      check of the assignment.
    - [Oracle]: [range_assignment_oracle.rs] over the interface
      [UniverseService], which the instance [universe_service] discharges with
      the lemmas of [Universe].
    - [ClientPool]: the pool of [coordinator-rangeclient/src/rangeclient.rs] over
      the interface [RangeServers]; the instance [oracle_servers] joins the
      oracle of [Oracle] with the calls of [RangeClient]. Calls that look for a
      client at the same time are tasks on one pool ([Calls]).
    - [Frontend]: [frontend.rs] on the transactions of [Coordinator].
    - [Statistics]: [core/statistics.rs], and what the resolver does with it.
    - [ResolverClient]: the local and the remote client of the resolver and the
      server between them, over the interface [ResolverCore].
    - [WardenPersistence]: [persistence/cassandra.rs] of the warden, on the
      database of [Storage] with two more statements.
    - [Config], [Epochs]: the addresses of [config.rs]; the epoch readers.
    - [RangeGrpc]: the gRPC calls of the range server and the prefetch of its
      client.
    - [System]: the parts together, as [Server::new] of the frontend joins them:
      the instance [services] of [Services] made of the oracle, the pool of
      clients with the range servers, the transaction state store and a
      resolver.
    - [AtomicCommit]: the commit of [Coordinator] on these services, down to the
      managers of the ranges.
    - [Network]: [tcp_fast_network.rs], which the binaries use, with its tasks and
      its clients interleaved, and the loop of the range server on it, which
      spawns the task [RangeTasks.message_job] for every message.
    - [TestSupport]: the epoch supplier and the warden of the tests
      ([src/rangeserver/src/for_testing]); the streams of this warden are read by
      the handler of [WardenHandler].
    - [Histograms]: [labeled_histograms.rs].
    - [Workload]: the key spaces, keys, fake transactions, phases and metrics of
      [src/workload-generator]; [WorkloadTx]: its transactions, run on [Frontend]
      and on [ResolverClient].
    - [Deployment]: the deserialization of [config.rs] with the configurations of
      the repository as syntax trees.
    - [Startup]: the main functions up to the point where the services serve, as
      programs on the listeners of a machine.
    - [Monitoring]: the reports of the resolver and of group commit, and
      [src/monitoring].
    - [MemTableTests], [PrefetchingTests], [WardenTests], [StorageTests]: the unit
      tests of the repository, translated as they are written and evaluated on
      the models, the panics of those that fail included.

    ** Conventions

    A mutex or an [RwLock] that is not held across an await makes what is done
    under it one step; an operation is split into one definition per such step,
    and the interleavings of the steps of all callers are the step relation of
    the file ([step]), over which the invariants are proved by induction. An
    operation that a caller can drop while it waits may stop there. What a hash
    map or a hash set iterates over is any permutation of its elements, given by
    the class [HashOrder] for each call. A [oneshot] channel is a number in a
    store of channels. A call to a third party (Cassandra, another service) is an
    operation of a class, with hypotheses only for what its documentation says;
    every theorem that uses such a class has a witness in which it is
    instantiated by a concrete function. Integers are [Z] with the conversions
    [wrap_u64] and [as_i64] where the code converts; overflow is stated where it
    matters. Log output, tracing and timing are left out.

    ** What the theorems show

    - Atomicity: commits follow two phases whatever the services answer
      ([commit_follows_two_phases], [commit_ok_decides]); a transaction of group
      commit finishes only after all its participants, exactly once
      ([finished_after_all_participants], [collect_total_exactly_once]); a
      decision to commit is permanent ([commit_is_permanent]); what a client of
      the whole is told is what the store says ([reported_decision_is_stored]);
      through coordinator, clients, range server and managers, a transaction
      that has committed is visible at all ranges it wrote and nowhere else
      ([committed_transaction_is_visible]).
    - Order: dependencies are handed over first ([dependencies_handed_over_first]);
      the lock is a FIFO queue ([lock_refines_fifo]); with both, and as long as no
      group of a range overtakes another, a pipelined range is a sequential store
      of the transactions in the order of their prepares
      ([pipelined_range_is_sequential]). Handing over in order does not order the
      commits: a group can overtake another ([later_group_can_overtake]), also
      that of a dependency, and then a write is lost
      ([overtaken_group_loses_write]).
    - A transaction that is prepared and committed at a range is applied, all of
      it and nothing else ([committed_transaction_is_applied]).
    - Isolation: readers see the last pending write and depend on its writer
      ([get_reads_pending_writes], [prepare_publishes_writes]); committing does
      not change what they see ([commit_preserves_reads]).
    - Progress: no wakeup is lost ([no_lost_wakeup], [no_forgotten_group],
      [fifo_handover], [finished_clients_woken], [commit_completes]).
    - Durability and fencing: [batch_upsert_get], [flush_appends],
      [stale_leader_cannot_renew], [load_takes_next_lease].
    - Assignment: every range is assigned once, and evenly
      ([every_range_assigned_once], [assignment_is_balanced]); a range server
      is told exactly what changes ([updates_track_assignment]), has the ranges
      it was told of once it has caught up ([server_has_assigned_ranges]), shares
      none with another server ([servers_share_no_range]), both but for ranges
      that a failed load has taken out of its table and those that a late load has
      left there, and takes a range as the warden declared it
      ([declared_range_is_taken]); a load that is overtaken by the loss of its
      range is not undone ([late_creation_outlives_assignment]).
    - Requests: a call over the network is the call in the server
      ([calls_are_transparent]), and a get reports what the manager answered
      ([get_reports_answers]); a call goes to the host that has the range
      ([client_is_for_host]); the remote resolver does what the local one does
      ([remote_equals_local]); a read-modify-write commits all its writes
      ([read_modify_write_writes_all]), and the frontend counts its clients
      exactly ([open_clients_counted]). [written_value_is_read] evaluates the
      whole: one client writes a value and another reads it.
    - The network: what its connections do to the server is a run of the tasks
      of their messages, each with its own answer
      ([network_interleaves_requests]); an exchange that is not interrupted is the
      call of [RangeClient] ([network_implements_send]); every exchange ends or
      waits in the server ([exchanges_complete]), unless it began before the
      server listened ([early_connection_blocks]).
    - The workload: each key of the generator has a range of its own
      ([each_key_has_its_range]), its transactions increment their keys
      ([rw_transaction_increments]), the fake ones are ordered where they
      conflict ([conflicting_fakes_are_ordered]), and a phase runs what it was
      asked for and ends ([phase_runs_all], [phase_terminates]).
    - The deployment: the services start in exactly the orders in which each
      follows those it connects to, and in none when two of them have one address
      ([services_start_in_order]).
    - Lookup: a key space is served as it was created
      ([created_keyspace_is_served]), and the caches of the oracle do not change
      its answers ([oracle_equals_uncached]).
    - The memory table: reads return the newest version that is old enough
      ([get_newest_version]); its tables form a ring of the expected shape and
      size ([memtables_well_formed], [table_size_bounded]).
    - The theorems on errors describe behaviours that contradict the comments or
      the purpose of the code: an abort that does not withdraw writes, a commit
      that overrides an abort, a failed flush that is acknowledged, two leaders
      of a range, and others; each names the lines it is about in its file.

    ** Bounds

    The resolver's loop over the stack of resolved transactions takes as fuel
    one more than the length of the stack and the number of stored dependents
    together; [register_total] shows that it is enough. The loop of the epoch
    supplier of the tests over its waiters takes their number, and
    [set_epoch_wakes_all_or_none] shows that it is enough. All other loops are
    structural.

    ** Not modelled

    The code that is generated from the messages and the schema (the models have
    their fields as records) and the build scripts that generate it. In the main
    functions, the creation of runtimes, tracing and signal handlers, and what is
    left of a process whose start has failed; the parsing of JSON and of command
    lines, which are libraries; the operating system is a parameter. The unit tests of
    [range_manager/impl.rs] and of [server.rs] of the range server, which use the
    log [in_memory_wal.rs] and the network [udp_fast_network.rs], and the mocks of
    the frontend: all of this is commented out and is not built. In [System] the
    resolver is a parameter, since its tasks run between the steps of its
    callers; what it does is in [Resolver] and [GroupCommit]. The database, the
    crates [skiplist], [uuid], [hex] and [rand] and the power function are
    parameters with their documented behaviour. *)

From stdpp Require Import base tactics list numbers option gmap sets relations strings.

#[global] Set Default Goal Selector "!".

(** ** Results of Rust functions

    A Rust function of type [Result<A, E>] returns [Ok] or [Err]; a failed
    [unwrap], [assert!] or [panic!] unwinds the task that runs it, which is the
    third outcome [Panic]. *)

Inductive result (E A : Type) : Type :=
| Ok (a : A)
| Err (e : E)
| Panic.

Arguments Ok {E A} a.
Arguments Err {E A} e.
Arguments Panic {E A}.

(** A stateful operation: it returns the state it leaves behind on every
    outcome, since neither an early return nor a panic undoes earlier writes
    (and the locks of [tokio] are not poisoned by a panic). *)
Definition M (S E A : Type) : Type := S -> S * result E A.

Definition m_ret {S E A} (a : A) : M S E A := fun s => (s, Ok a).
Definition m_fail {S E A} (e : E) : M S E A := fun s => (s, Err e).
Definition m_panic {S E A} : M S E A := fun s => (s, Panic).
Definition m_get {S E} : M S E S := fun s => (s, Ok s).
Definition m_modify {S E} (f : S -> S) : M S E unit := fun s => (f s, Ok tt).

Definition m_then {S E A B} (m : M S E A) (k : A -> M S E B) : M S E B :=
  fun s =>
    match m s with
    | (s', Ok a) => k a s'
    | (s', Err e) => (s', Err e)
    | (s', Panic) => (s', Panic)
    end.

(** [Option::unwrap] and [assert!] *)
Definition m_unwrap {S E A} (o : option A) : M S E A :=
  match o with Some a => m_ret a | None => m_panic end.

Definition m_assert {S E} (b : bool) : M S E unit :=
  if b then m_ret tt else m_panic.

(** a [for] loop whose body may fail *)
Fixpoint m_for {S E A} (l : list A) (body : A -> M S E unit) : M S E unit :=
  match l with
  | [] => m_ret tt
  | x :: l' => m_then (body x) (fun _ => m_for l' body)
  end.

Declare Scope sangria_scope.
Delimit Scope sangria_scope with sangria.
Notation "'let!' x := m 'in' k" := (m_then m (fun x => k))
  (at level 10, x pattern, m at level 100, k at level 200)
  : sangria_scope.
Notation "m ;;; k" := (m_then m (fun _ => k))
  (at level 199, right associativity) : sangria_scope.

(** ** Machine integers *)

Definition wrap_u64 (z : Z) : Z := (z `mod` 2 ^ 64)%Z.
Definition wrap_u32 (z : Z) : Z := (z `mod` 2 ^ 32)%Z.

(** the two's complement reading of the low 64 bits: [as i64] *)
Definition as_i64 (z : Z) : Z :=
  let w := wrap_u64 z in if (w <? 2 ^ 63)%Z then w else (w - 2 ^ 64)%Z.

(** ** Iteration order of [HashMap] and [HashSet]

    The standard library promises that an iterator yields every element once,
    in an order it does not specify. Each operation that iterates takes the
    order as an argument, so a theorem about the operation holds for every
    order. *)

Class HashOrder : Type := {
  hash_iter {A : Type} `{EqDecision A, !Countable A} : gset A -> list A;
  hash_iter_perm {A : Type} `{EqDecision A, !Countable A} (s : gset A) :
    hash_iter s ≡ₚ elements s
}.

(** iteration over a [HashMap]: the entries in the order of the keys *)
Definition hash_iter_map `{HashOrder} {K V} `{EqDecision K, !Countable K}
    (m : gmap K V) : list (K * V) :=
  omap (fun k => (fun v => (k, v)) <$> m !! k) (hash_iter (dom m)).

(** one admissible order, used by the witnesses *)
Definition element_order : HashOrder := {|
  hash_iter A _ _ s := elements s;
  hash_iter_perm A _ _ s := reflexivity (elements s)
|}.

(** ** [tokio::sync::oneshot] channels

    A channel is named by a number; the store says what became of it. [send]
    consumes the sender, and fails when the receiver was dropped before. *)

Inductive oneshot : Type :=
| ChanOpen        (* both ends alive, nothing sent *)
| ChanSent        (* the value is in the channel *)
| ChanClosed.     (* the receiver was dropped *)

#[global] Instance oneshot_eq_dec : EqDecision oneshot.
Proof. solve_decision. Defined.

Definition chan_fresh (cs : gmap positive oneshot) : positive := fresh (dom cs : gset positive).

(** [oneshot::channel()]: the new channel's name and the store *)
Definition chan_new (cs : gmap positive oneshot) : positive * gmap positive oneshot :=
  let c := chan_fresh cs in (c, <[c := ChanOpen]> cs).

(** [sender.send(())]: the store and whether the value was delivered *)
Definition chan_send (c : positive) (cs : gmap positive oneshot)
    : gmap positive oneshot * bool :=
  match cs !! c with
  | Some ChanOpen => (<[c := ChanSent]> cs, true)
  | _ => (cs, false)
  end.

(** the receiver is dropped (its task was cancelled) before a value arrived *)
Definition chan_drop (c : positive) (cs : gmap positive oneshot)
    : gmap positive oneshot :=
  match cs !! c with
  | Some ChanOpen => <[c := ChanClosed]> cs
  | _ => cs
  end.

(** ** Generic lemmas *)

Create HintDb sangria discriminated.
Create Rewrite HintDb sangria.
#[export] Hint Constants Transparent : sangria.

Lemma hash_iter_elem_of `{HashOrder} {A} `{EqDecision A, !Countable A}
    (s : gset A) (x : A) : x ∈ hash_iter s <-> x ∈ s.
Proof. rewrite hash_iter_perm. apply elem_of_elements. Qed.

Lemma hash_iter_NoDup `{HashOrder} {A} `{EqDecision A, !Countable A}
    (s : gset A) : NoDup (hash_iter s).
Proof. rewrite hash_iter_perm. apply NoDup_elements. Qed.

Lemma hash_iter_length `{HashOrder} {A} `{EqDecision A, !Countable A}
    (s : gset A) : length (hash_iter s) = size s.
Proof. rewrite hash_iter_perm. done. Qed.

Lemma hash_iter_map_elem_of `{HashOrder} {K V} `{EqDecision K, !Countable K}
    (m : gmap K V) k v : (k, v) ∈ hash_iter_map m <-> m !! k = Some v.
Proof.
  unfold hash_iter_map. rewrite list_elem_of_omap. split.
  - intros (k' & _ & E). destruct (m !! k') eqn:E'; naive_solver.
  - intros E. exists k. rewrite hash_iter_elem_of, elem_of_dom, E. eauto.
Qed.

Lemma hash_iter_map_NoDup `{HashOrder} {K V} `{EqDecision K, !Countable K}
    (m : gmap K V) : NoDup (hash_iter_map m).*1.
Proof.
  unfold hash_iter_map.
  assert (Hsub : forall l : list K, NoDup l ->
    NoDup (omap (fun k => (fun v => (k, v)) <$> m !! k) l).*1 /\
    forall k, k ∈ (omap (fun k => (fun v => (k, v)) <$> m !! k) l).*1 -> k ∈ l).
  { induction 1 as [|k l Hk Hnd [IH1 IH2]]; cbn; [split; [constructor|done]|].
    destruct (m !! k) as [v|]; cbn; split; try done.
    - constructor; [|done]. by intros ?%IH2.
    - intros k' [->|?%IH2]%elem_of_cons; [by left|by right].
    - intros k' ?%IH2. by right. }
  apply Hsub, hash_iter_NoDup.
Qed.

Lemma hash_iter_map_perm `{HashOrder} {K V} `{EqDecision K, !Countable K}
    (m : gmap K V) : hash_iter_map m ≡ₚ map_to_list m.
Proof.
  apply NoDup_Permutation.
  - apply (NoDup_fmap_1 fst), hash_iter_map_NoDup.
  - apply NoDup_map_to_list.
  - intros [k v]. by rewrite hash_iter_map_elem_of, elem_of_map_to_list.
Qed.

Lemma hash_iter_to_map `{HashOrder} {K V} `{EqDecision K, !Countable K} (m : gmap K V) :
  list_to_map (hash_iter_map m) = m.
Proof.
  rewrite <- (list_to_map_to_list m) at 2.
  apply list_to_map_proper; [apply hash_iter_map_NoDup|apply hash_iter_map_perm].
Qed.

#[export] Hint Resolve hash_iter_NoDup : sangria.

Lemma chan_fresh_not_in cs : cs !! chan_fresh cs = None.
Proof.
  unfold chan_fresh. apply (not_elem_of_dom (D := gset positive)). apply is_fresh.
Qed.

(** what holds of the state and the result that an operation ends with *)
Definition wp {S E A} (m : M S E A) (Q : S -> result E A -> Prop) (s : S) : Prop :=
  Q (m s).1 (m s).2.
#[global] Arguments wp {S E A} m Q s : simpl never.

Lemma then_ok {S E A B} (m : M S E A) (k : A -> M S E B) s s' a :
  m s = (s', Ok a) -> m_then m k s = k a s'.
Proof. unfold m_then. by intros ->. Qed.

Lemma wp_then {S E A B} (m : M S E A) (k : A -> M S E B) Q s :
  wp m (fun s' r => match r with
                    | Ok a => wp (k a) Q s'
                    | Err e => Q s' (Err e)
                    | Panic => Q s' Panic
                    end) s ->
  wp (m_then m k) Q s.
Proof. unfold wp, m_then. by destruct (m s) as [s' [a|e|]]. Qed.

Lemma wp_mono {S E A} (m : M S E A) (Q Q' : S -> result E A -> Prop) s :
  wp m Q s -> (forall s' r, Q s' r -> Q' s' r) -> wp m Q' s.
Proof. unfold wp. auto. Qed.

Lemma wp_run {S E A} (m : M S E A) Q s s' r : wp m Q s -> m s = (s', r) -> Q s' r.
Proof. unfold wp. intros HQ Hm. by rewrite Hm in HQ. Qed.

(** a list that is extended when a condition holds *)
Lemma elem_of_snoc_if {A} P `{Decision P} (l : list A) x y :
  y ∈ l ++ (if decide P then [x] else []) <-> y ∈ l \/ (P /\ y = x).
Proof. rewrite elem_of_app. case_decide; rewrite ?list_elem_of_singleton, ?elem_of_nil; naive_solver. Qed.

Lemma NoDup_snoc_if {A} P `{Decision P} (l : list A) x :
  x ∉ l -> NoDup l -> NoDup (l ++ if decide P then [x] else []).
Proof.
  intros Hx Hl. case_decide; [|by rewrite app_nil_r]. apply NoDup_app.
  split_and!; [done| |apply NoDup_singleton]. by intros y Hy ->%list_elem_of_singleton.
Qed.

Lemma snoc_if_split {A} P `{Decision P} (l : list A) x l1 y l2 :
  l ++ (if decide P then [x] else []) = l1 ++ y :: l2 ->
  (P /\ l1 = l /\ y = x) \/ exists l2', l = l1 ++ y :: l2'.
Proof.
  case_decide; [|rewrite app_nil_r; eauto]. destruct l2 as [|z l2 _] using rev_ind; intros He.
  - apply app_inj_tail in He as [-> ->]. auto.
  - rewrite app_comm_cons, app_assoc in He. apply app_inj_tail in He as [-> _]. eauto.
Qed.

(** ** Tactics *)

(** split every [match] and [if] of the goal, closing the cases that
    contradict an hypothesis *)
Ltac case_all :=
  repeat (case_match; simplify_eq/=); try done.

(** membership in a concrete list, from membership in its parts *)
(** a number in range is its own two's complement reading *)
Lemma as_i64_small z : (- 2 ^ 63 <= z < 2 ^ 63)%Z -> as_i64 z = z.
Proof.
  intros Hz. unfold as_i64, wrap_u64.
  destruct (Z.le_gt_cases 0 z).
  - rewrite Z.mod_small by lia. by rewrite (proj2 (Z.ltb_lt _ _)) by lia.
  - assert (E : (z `mod` 2 ^ 64 = z + 2 ^ 64)%Z).
    { rewrite <- (Z.mod_small (z + 2 ^ 64) (2 ^ 64)) by lia.
      by rewrite <- Zplus_mod_idemp_r, Z_mod_same_full, Z.add_0_r. }
    rewrite E, (proj2 (Z.ltb_ge _ _)) by lia. lia.
Qed.

(** occurrences of an element *)
Definition count {A} `{EqDecision A} (x : A) (l : list A) : nat :=
  length (filter (fun y => y = x) l).

Lemma count_app {A} `{EqDecision A} (x : A) l1 l2 :
  count x (l1 ++ l2) = count x l1 + count x l2.
Proof. unfold count. by rewrite filter_app, length_app. Qed.

Lemma count_cons {A} `{EqDecision A} (x y : A) l :
  count x (y :: l) = (if decide (y = x) then 1 else 0) + count x l.
Proof. unfold count. rewrite filter_cons. by case_decide. Qed.

Lemma count_nil {A} `{EqDecision A} (x : A) : count x [] = 0.
Proof. done. Qed.

Lemma count_perm {A} `{EqDecision A} (x : A) l1 l2 :
  l1 ≡ₚ l2 -> count x l1 = count x l2.
Proof. unfold count. by intros ->. Qed.

Lemma count_not_in {A} `{EqDecision A} (x : A) l : x ∉ l <-> count x l = 0.
Proof.
  induction l as [|y l IH]; [by rewrite count_nil; split; [|intros _ ?%elem_of_nil]|].
  rewrite not_elem_of_cons, count_cons, IH. case_decide; split; intros; subst;
    naive_solver lia.
Qed.

Lemma count_in {A} `{EqDecision A} (x : A) l : x ∈ l <-> 0 < count x l.
Proof.
  destruct (decide (x ∈ l)) as [Hx|Hx].
  - split; [|done]. intros _. destruct (count x l) eqn:E; [|lia].
    by apply count_not_in in E.
  - split; [done|]. apply count_not_in in Hx. lia.
Qed.

(** the sum of a measure over a map *)
Definition map_sum `{Countable K} {V} (f : V -> nat) (m : gmap K V) : nat :=
  sum_list ((fun kv => f kv.2) <$> map_to_list m).

Lemma map_sum_insert `{Countable K} {V} (f : V -> nat) (m : gmap K V) k v :
  map_sum f (<[k := v]> m) + default 0 (f <$> m !! k) = map_sum f m + f v.
Proof.
  unfold map_sum. assert (Hins : forall m : gmap K V, m !! k = None -> forall v,
    sum_list ((fun kv => f kv.2) <$> map_to_list (<[k := v]> m)) =
    f v + sum_list ((fun kv => f kv.2) <$> map_to_list m)).
  { intros m' Hm v'. by rewrite (map_to_list_insert m' k v' Hm). }
  rewrite <- insert_delete_eq, Hins by apply lookup_delete_eq.
  destruct (m !! k) as [v'|] eqn:E; cbn.
  - rewrite <- (insert_delete_id m k v' E) at 2.
    rewrite Hins by apply lookup_delete_eq. lia.
  - rewrite delete_id by done. lia.
Qed.

(** a relation that decreases a measure under an invariant terminates *)
Lemma sn_measure {A} (R : relation A) (P : A -> Prop) (f : A -> nat) x :
  (forall x y, P x -> R x y -> P y /\ f y < f x) -> P x -> sn R x.
Proof.
  intros Hstep. induction (well_founded_ltof _ f x) as [x _ IH]. intros Hx.
  constructor. intros y Hy. destruct (Hstep x y Hx Hy). by apply IH.
Qed.

Lemma elem_of_rev {A} (x : A) l : x ∈ rev l <-> x ∈ l.
Proof. by rewrite !list_elem_of_In, <- in_rev. Qed.

Lemma elem_of_middle {A} (x y : A) l1 l2 : x ∈ l1 ++ l2 -> x ∈ l1 ++ y :: l2.
Proof. rewrite !elem_of_app, elem_of_cons. tauto. Qed.

Lemma elem_of_middle_eq {A} (x : A) l1 l2 : x ∈ l1 ++ x :: l2.
Proof. rewrite elem_of_app, elem_of_cons. tauto. Qed.

#[export] Hint Resolve elem_of_middle elem_of_middle_eq : sangria.

(** a closed decidable fact, by evaluating its decision procedure *)
Ltac by_decision := refine (bool_decide_unpack _ _); vm_compute; exact I.

Ltac in_list :=
  repeat (rewrite fmap_app || rewrite fmap_cons); simpl;
  rewrite ?elem_of_app, ?elem_of_cons; auto 6 using list_elem_of_fmap_2.
