(* ===== verification/Float64.v ===== *)
(** * [f64]: IEEE binary64 values as the Standard Library's [spec_float]

    What the sources use of [f64]: conversions from and to integers, the
    arithmetic operations and the comparisons, which are false when an operand
    is not a number. *)

From Stdlib Require Import ZArith Floats.SpecFloat.
From stdpp Require Import base tactics numbers.
From S2P Require Import Prelude.

Module Float64.

Abbreviation f64 := spec_float (only parsing).

Definition prec : Z := 53.
Definition emax : Z := 1024.

(** [n as f64] *)
Definition of_Z (z : Z) : f64 := binary_normalize prec emax z 0 false.

Definition zero : f64 := S754_zero false.
Definition add (a b : f64) : f64 := SFadd prec emax a b.
Definition sub (a b : f64) : f64 := SFsub prec emax a b.
Definition mul (a b : f64) : f64 := SFmul prec emax a b.
Definition div (a b : f64) : f64 := SFdiv prec emax a b.
Definition sqrt (a : f64) : f64 := SFsqrt prec emax a.

(** [x as usize] of 64 bits: the fraction is cut off, and what does not fit
    becomes the nearest value that does *)
Definition to_usize (a : f64) : N :=
  match a with
  | S754_finite false m e => N.min (Z.to_N (Z.shiftl (Z.pos m) e)) (2 ^ 64 - 1)
  | S754_infinity false => (2 ^ 64 - 1)%N
  | _ => 0%N
  end.

(** [partial_cmp] *)
Definition partial_cmp (a b : f64) : option comparison := SFcompare a b.

(** [a < b], [a > b], [a <= b], [a >= b] *)
Definition lt (a b : f64) : bool := SFltb a b.
Definition gt (a b : f64) : bool := SFltb b a.
Definition le (a b : f64) : bool := SFleb a b.
Definition ge (a b : f64) : bool := SFleb b a.

Lemma nan_compares_false a :
  lt S754_nan a = false /\ gt S754_nan a = false /\ le S754_nan a = false /\ ge S754_nan a = false.
Proof. unfold lt, gt, le, ge, SFltb, SFleb. by destruct a. Qed.

(** ** Rounding *)

Local Open Scope Z_scope.

(** a positive number of the format, times a power of two that makes it an
    integer *)
Definition scaled (m e : Z) : Z := m * 2 ^ (e + 1074).

Lemma scaled_shift m e k : 0 <= k -> -1074 <= e -> scaled m (e + k) = scaled (m * 2 ^ k) e.
Proof.
  intros Hk He. unfold scaled. replace (e + k + 1074) with (k + (e + 1074)) by lia.
  rewrite Z.pow_add_r by lia. lia.
Qed.

Lemma scaled_le m m' e : m <= m' -> scaled m e <= scaled m' e.
Proof. intros Hm. apply Z.mul_le_mono_nonneg_r; [by apply Z.pow_nonneg|done]. Qed.

Lemma digits_bounds (p : positive) :
  2 ^ (Zdigits2 (Z.pos p) - 1) <= Z.pos p < 2 ^ Zdigits2 (Z.pos p) /\ 0 < Zdigits2 (Z.pos p).
Proof.
  cbn [Zdigits2]. split; [|lia].
  induction p as [p IH|p IH|]; cbn [digits2_pos]; [| |by cbn].
  all: rewrite Pos2Z.inj_succ; replace (Z.succ _ - 1) with (Z.pos (digits2_pos p)) by lia.
  all: rewrite Z.pow_succ_r by lia.
  all: replace (Z.pos (digits2_pos p)) with (1 + (Z.pos (digits2_pos p) - 1)) at 1 by lia.
  all: rewrite Z.pow_add_r by lia; lia.
Qed.

Lemma digits_unique (p : positive) d : 2 ^ (d - 1) <= Z.pos p < 2 ^ d -> 0 < d -> Zdigits2 (Z.pos p) = d.
Proof.
  intros [Hl Hu] Hd. destruct (digits_bounds p) as [[Hl' Hu'] Hd'].
  assert (d - 1 < Zdigits2 (Z.pos p)) by (apply (Z.pow_lt_mono_r_iff 2); lia).
  assert (Zdigits2 (Z.pos p) - 1 < d) by (apply (Z.pow_lt_mono_r_iff 2); lia).
  lia.
Qed.

(** shifting to the right cuts off the low bits *)
Lemma shr_1_m mrs : 0 <= shr_m mrs -> shr_m (shr_1 mrs) = shr_m mrs / 2.
Proof.
  destruct mrs as [[|[p|p|]|p] r s]; cbn; intros Hm; try done; try lia.
  - rewrite Pos2Z.inj_xI. apply (Z.div_unique _ _ _ 1); lia.
  - rewrite Pos2Z.inj_xO, Z.mul_comm, Z.div_mul; lia.
Qed.

Lemma shr_m_iter p mrs :
  0 <= shr_m mrs -> shr_m (SpecFloat.iter_pos shr_1 p mrs) = shr_m mrs / 2 ^ Z.pos p.
Proof.
  revert mrs. induction p as [p IH|p IH|]; intros mrs Hm; cbn [SpecFloat.iter_pos].
  - assert (0 <= shr_m (shr_1 mrs)) by (rewrite shr_1_m by done; apply Z.div_pos; lia).
    assert (0 <= shr_m (SpecFloat.iter_pos shr_1 p (shr_1 mrs)))
      by (rewrite IH by done; apply Z.div_pos; lia).
    rewrite !IH, shr_1_m by done. rewrite !Z.div_div by lia. f_equal.
    replace (Z.pos p~1) with (1 + (Z.pos p + Z.pos p)) by lia. rewrite !Z.pow_add_r by lia. lia.
  - assert (0 <= shr_m (SpecFloat.iter_pos shr_1 p mrs))
      by (rewrite IH by done; apply Z.div_pos; lia).
    rewrite !IH by done. rewrite Z.div_div by lia. f_equal.
    replace (Z.pos p~0) with (Z.pos p + Z.pos p) by lia. by rewrite Z.pow_add_r by lia.
  - by apply shr_1_m.
Qed.

(** the last step of a rounding, when at most one bit is too many *)
Lemma shr_fexp_53 (p : positive) e :
  2 ^ 52 <= Z.pos p <= 2 ^ 53 -> -1074 <= e ->
  exists m e', shr_fexp prec emax (Z.pos p) e loc_Exact = (m, e') /\ e <= e' <= e + 1 /\
    0 < shr_m m /\ scaled (shr_m m) e' = scaled (Z.pos p) e.
Proof.
  intros Hp He. unfold shr_fexp, shr_record_of_loc, fexp, SpecFloat.emin, prec, emax.
  destruct (decide (Z.pos p = 2 ^ 53)) as [Heq|Hne].
  - rewrite (digits_unique p 54) by lia. replace (Z.max _ _ - e) with 1 by lia. cbn [shr].
    eexists _, _. split; [done|]. cbn [SpecFloat.iter_pos]. rewrite shr_1_m by (cbn; lia). cbn [shr_m].
    rewrite Heq. change (2 ^ 53 / 2) with (2 ^ 52). split_and!; [lia..|].
    rewrite scaled_shift by lia. done.
  - rewrite (digits_unique p 53) by lia. replace (Z.max _ _ - e) with 0 by lia. cbn [shr].
    eexists _, _. split; [done|]. cbn [shr_m]. split_and!; lia.
Qed.

(** the rounding of a number that is not too small or too large: at least what is
    left of it, and at most one unit more *)
Lemma round_bounds (p : positive) e :
  let k := Zdigits2 (Z.pos p) - prec in
  0 <= k -> -1074 <= e -> Zdigits2 (Z.pos p) + e < emax ->
  exists m e', binary_round_aux prec emax false (Z.pos p) e loc_Exact = S754_finite false m e' /\
    -1074 <= e' /\
    scaled (Z.pos p / 2 ^ k) (e + k) <= scaled (Z.pos m) e' <= scaled (Z.pos p / 2 ^ k + 1) (e + k).
Proof.
  intros k Hk He Hmax. unfold k, prec, emax in *. clear k.
  destruct (digits_bounds p) as [[Hl Hu] Hd]. set (d := Zdigits2 (Z.pos p)) in *.
  assert (Hq : 2 ^ 52 <= Z.pos p / 2 ^ (d - 53) < 2 ^ 53).
  { replace (d - 1) with (52 + (d - 53)) in Hl by lia. replace d with (53 + (d - 53)) in Hu by lia.
    rewrite Z.pow_add_r in Hl, Hu by lia.
    split; [apply Z.div_le_lower_bound|apply Z.div_lt_upper_bound]; lia. }
  unfold binary_round_aux.
  assert (exists mrs, shr_fexp 53 1024 (Z.pos p) e loc_Exact = (mrs, e + (d - 53)) /\
    shr_m mrs = Z.pos p / 2 ^ (d - 53)) as (mrs & -> & Hm).
  { unfold shr_fexp, shr_record_of_loc, fexp, SpecFloat.emin. fold d.
    replace (Z.max _ _ - e) with (d - 53) by lia. destruct (d - 53) as [|q|q] eqn:E; [| |lia].
    - eexists. cbn [shr]. rewrite Z.add_0_r. split; [done|]. by rewrite Z.div_1_r.
    - eexists. cbn [shr]. split; [done|]. by rewrite shr_m_iter. }
  rewrite Hm. set (q := Z.pos p / 2 ^ (d - 53)) in *.
  set (r := round_nearest_even q (loc_of_shr_record mrs)).
  assert (Hr : q <= r <= q + 1).
  { unfold r, round_nearest_even. destruct (loc_of_shr_record mrs) as [|[]]; try lia.
    destruct (Z.even q); lia. }
  destruct r as [|r'|r'] eqn:Er; [lia| |lia].
  destruct (shr_fexp_53 r' (e + (d - 53))) as (mrs' & e' & E & He' & Hpos & Hs); [lia..|].
  unfold prec, emax in E. rewrite E. destruct (shr_m mrs') as [|m|m]; [lia| |lia].
  rewrite (proj2 (Z.leb_le _ _)) by lia. exists m, e'. split; [done|]. split; [lia|].
  rewrite Hs. split; apply scaled_le; lia.
Qed.

(** integers of at most 53 bits are numbers of the format *)
Lemma of_Z_exact n : 0 < n < 2 ^ 53 ->
  exists m e, of_Z n = S754_finite false m e /\ 2 ^ 52 <= Z.pos m < 2 ^ 53 /\ -53 < e <= 0 /\
    Z.pos m = n * 2 ^ (- e).
Proof.
  intros Hn. destruct n as [|p|p]; [lia| |lia]. destruct (digits_bounds p) as [[Hl Hu] Hd].
  assert (Hd53 : Zdigits2 (Z.pos p) <= 53).
  { assert (Zdigits2 (Z.pos p) - 1 < 53); [|lia]. apply (Z.pow_lt_mono_r_iff 2); lia. }
  unfold of_Z, binary_normalize, binary_round. change (Z.pos (digits2_pos p)) with (Zdigits2 (Z.pos p)).
  set (d := Zdigits2 (Z.pos p)) in *. rewrite Z.add_0_r.
  unfold shl_align, fexp, SpecFloat.emin, prec, emax. rewrite Z.sub_0_r, Z.max_l by lia.
  assert (exists mz, (match d - 53 with Z.neg q => (PosDef.Pos.iter xO p q, d - 53) | _ => (p, 0) end)
            = (mz, d - 53) /\ Z.pos mz = Z.pos p * 2 ^ (53 - d)) as (mz & -> & Hmz).
  { destruct (d - 53) as [|q|q] eqn:E; [| |].
    - exists p. split; [done|]. replace (53 - d) with 0 by lia. lia.
    - lia.
    - eexists. split; [done|]. replace (53 - d) with (Z.pos q) by lia.
      clear. induction q using Pos.peano_ind.
      + change (Z.pos p~0 = Z.pos p * 2). lia.
      + rewrite Pos.iter_succ, Pos2Z.inj_succ, Z.pow_succ_r by lia.
        change (Z.pos (PosDef.Pos.iter xO p q)~0) with (2 * Z.pos (PosDef.Pos.iter xO p q)).
        rewrite IHq. lia. }
  assert (Hb : 2 ^ 52 <= Z.pos mz < 2 ^ 53).
  { rewrite Hmz. replace (2 ^ 52) with (2 ^ (d - 1) * 2 ^ (53 - d))
      by (rewrite <- Z.pow_add_r by lia; f_equal; lia).
    replace (2 ^ 53) with (2 ^ d * 2 ^ (53 - d)) by (rewrite <- Z.pow_add_r by lia; f_equal; lia).
    split; [apply Z.mul_le_mono_nonneg_r|apply Z.mul_lt_mono_pos_r]; lia. }
  exists mz, (d - 53). split; [|split_and!; [lia..|]; by replace (- (d - 53)) with (53 - d) by lia].
  unfold binary_round_aux, shr_fexp, shr_record_of_loc, fexp, SpecFloat.emin.
  rewrite (digits_unique mz 53) by lia. replace (Z.max _ _ - (d - 53)) with 0 by lia. cbn [shr shr_m].
  cbn [loc_of_shr_record round_nearest_even].
  rewrite (digits_unique mz 53) by lia. replace (Z.max _ _ - (d - 53)) with 0 by lia. cbn [shr shr_m].
  by rewrite (proj2 (Z.leb_le _ _)) by lia.
Qed.


(** [as usize] of a finite number *)
Lemma to_usize_scaled m e : -1074 <= e ->
  Z.of_N (to_usize (S754_finite false m e)) = Z.min (scaled (Z.pos m) e / 2 ^ 1074) (2 ^ 64 - 1).
Proof.
  intros He. assert (Hs : Z.shiftl (Z.pos m) e = scaled (Z.pos m) e / 2 ^ 1074).
  { unfold scaled. destruct (decide (0 <= e)).
    - rewrite Z.shiftl_mul_pow2, Z.pow_add_r, Z.mul_assoc, Z.div_mul by lia. done.
    - rewrite <- (Z.opp_involutive e) at 1. rewrite Z.shiftl_opp_r, Z.shiftr_div_pow2 by lia.
      replace (2 ^ 1074) with (2 ^ (- e) * 2 ^ (e + 1074)) by (rewrite <- Z.pow_add_r by lia; f_equal; lia).
      rewrite Z.div_mul_cancel_r; lia. }
  cbn [to_usize]. rewrite N2Z.inj_min, Z2N.id, Hs; [done|].
  rewrite Hs. apply Z.div_pos; [|lia]. unfold scaled. lia.
Qed.

(** the integral part of the product of an integer and a fraction *)
Lemma mul_fraction n mc : 0 < n < 2 ^ 53 -> 2 ^ 52 <= Z.pos mc < 2 ^ 53 ->
  let i := Z.of_N (to_usize (mul (of_Z n) (S754_finite false mc (-53)))) in
  i * 2 ^ 105 <= n * Z.pos mc * (2 ^ 52 + 1) /\ n * Z.pos mc * (2 ^ 52 - 1) < (i + 1) * 2 ^ 105.
Proof.
  intros Hn Hmc. destruct (of_Z_exact n Hn) as (m & e & -> & Hm & He & Hv).
  unfold mul, SFmul. cbn [xorb].
  destruct (digits_bounds (m * mc)) as [[Hl Hu] Hd]. set (d := Zdigits2 (Z.pos (m * mc))) in *.
  assert (Hp : 2 ^ 104 <= Z.pos (m * mc) < 2 ^ 106) by (rewrite Pos2Z.inj_mul; nia).
  assert (Hd' : 105 <= d <= 106).
  { split.
    - assert (104 < d); [|lia]. apply (Z.pow_lt_mono_r_iff 2); lia.
    - assert (d - 1 < 106); [|lia]. apply (Z.pow_lt_mono_r_iff 2); lia. }
  destruct (round_bounds (m * mc) (e + -53)) as (m' & e' & -> & He' & Hlo & Hhi);
    [unfold prec, emax; fold d; lia..|].
  unfold prec in Hlo, Hhi. fold d in Hlo, Hhi. rewrite to_usize_scaled by done.
  rewrite !scaled_shift in Hlo, Hhi by lia. set (V := scaled (Z.pos m') e') in *. unfold scaled in Hlo, Hhi.
  set (P := Z.pos (m * mc)) in *. set (T := 2 ^ (d - 53)) in *. set (S := 2 ^ (e + -53 + 1074)) in *.
  assert (HT : 2 ^ 52 * T <= P).
  { etransitivity; [|exact Hl]. unfold T. rewrite <- Z.pow_add_r by lia. apply Z.pow_le_mono_r; lia. }
  assert (HPS : P * S = n * Z.pos mc * 2 ^ 1021).
  { unfold P, S. rewrite Pos2Z.inj_mul, Hv. replace (e + -53 + 1074) with (e + 1021) by lia.
    replace (2 ^ 1021) with (2 ^ (- e) * 2 ^ (e + 1021)) by (rewrite <- Z.pow_add_r by lia; f_equal; lia).
    lia. }
  assert (HS : 0 < S) by (apply Z.pow_pos_nonneg; lia).
  assert (HT0 : 0 < T) by (apply Z.pow_pos_nonneg; lia).
  pose proof (Z.div_mod P T ltac:(lia)) as Hdm. pose proof (Z.mod_pos_bound P T HT0) as Hmod.
  assert (Hlo' : n * Z.pos mc * 2 ^ 1021 * (2 ^ 52 - 1) < 2 ^ 52 * V).
  { rewrite <- HPS. assert ((P - T) * S < V); [|nia].
    eapply Z.lt_le_trans; [|exact Hlo]. apply Z.mul_lt_mono_pos_r; lia. }
  assert (Hhi' : 2 ^ 52 * V <= n * Z.pos mc * 2 ^ 1021 * (2 ^ 52 + 1)).
  { rewrite <- HPS. assert (V <= (P + T) * S); [|nia].
    etransitivity; [exact Hhi|]. apply Z.mul_le_mono_nonneg_r; lia. }
  change (2 ^ 1074) with (2 ^ 1021 * 2 ^ 53). set (B := 2 ^ 1021) in *.
  assert (HB : 0 < B) by (by vm_compute).
  assert (Hnm : n * Z.pos mc < 2 ^ 106) by nia.
  clearbody V P T S B. clear -Hlo' Hhi' HB Hnm Hn Hmc.
  pose proof (Z.div_mod V (B * 2 ^ 53) ltac:(lia)) as Hq.
  pose proof (Z.mod_pos_bound V (B * 2 ^ 53) ltac:(lia)) as Hqm.
  set (q := V / (B * 2 ^ 53)) in *. set (x := n * Z.pos mc) in *.
  assert (H1 : q * 2 ^ 105 <= x * (2 ^ 52 + 1)).
  { apply (Z.mul_le_mono_pos_r _ _ B HB). lia. }
  assert (H2 : x * (2 ^ 52 - 1) < (q + 1) * 2 ^ 105).
  { apply (Z.mul_lt_mono_pos_r B _ _ HB). lia. }
  rewrite Z.min_l by lia. by split.
Qed.


(** ** The order *)

(** the values that are numbers, as triples in the lexicographic order *)
Definition order_key (a : f64) : option (Z * Z * Z) :=
  match a with
  | S754_nan => None
  | S754_infinity true => Some (-2, 0, 0)
  | S754_finite true m e => Some (-1, - e, - Z.pos m)
  | S754_zero _ => Some (0, 0, 0)
  | S754_finite false m e => Some (1, e, Z.pos m)
  | S754_infinity false => Some (2, 0, 0)
  end.

Definition key_le (k l : Z * Z * Z) : Prop :=
  k.1.1 < l.1.1 \/ k.1.1 = l.1.1 /\ (k.1.2 < l.1.2 \/ k.1.2 = l.1.2 /\ k.2 <= l.2).

Lemma partial_cmp_key a b k l :
  order_key a = Some k -> order_key b = Some l ->
  exists c, partial_cmp a b = Some c /\ (c = Gt <-> ~ key_le k l).
Proof.
  unfold partial_cmp, key_le.
  destruct a as [[]|[]| |[] m e], b as [[]|[]| |[] m' e']; try done; cbn; intros [= <-] [= <-]; cbn;
    eexists; (split; [done|]); try (split; [done|intros H; exfalso; apply H; lia]);
    try (split; [lia|done]).
  all: change (Pos.compare_cont Eq m m') with (m ?= m')%positive.
  all: destruct (Z.compare_spec e e'); cbn; try (destruct (Pos.compare_spec m m'); cbn); split; try done; try lia.
Qed.

Lemma partial_cmp_some a b :
  a <> S754_nan -> b <> S754_nan -> partial_cmp a b <> None.
Proof.
  intros Ha Hb. destruct (order_key a) as [k|] eqn:Ek; [|by destruct a as [|[]| |[]]].
  destruct (order_key b) as [l|] eqn:El; [|by destruct b as [|[]| |[]]].
  destruct (partial_cmp_key a b k l Ek El) as (c & -> & _). done.
Qed.

(** [a] is at most [b] *)
Definition at_most (a b : f64) : Prop := exists c, partial_cmp a b = Some c /\ c <> Gt.

Lemma at_most_key a b :
  at_most a b <-> exists k l, order_key a = Some k /\ order_key b = Some l /\ key_le k l.
Proof.
  assert (forall x : f64, order_key x = None -> x = S754_nan) as Hn by (by intros [|[]| |[]]).
  assert (forall k l, key_le k l \/ ~ key_le k l) as Hdec.
  { intros k l. unfold key_le. lia. }
  split.
  - intros (c & E & Hc). destruct (order_key a) as [k|] eqn:Ek; [|by apply Hn in Ek as ->].
    destruct (order_key b) as [l|] eqn:El; [|apply Hn in El as ->; by destruct a as [|[]| |[]]].
    destruct (partial_cmp_key a b k l Ek El) as (c' & E' & Hk). exists k, l. split_and!; [done..|].
    destruct (Hdec k l); [done|]. rewrite E in E'. injection E' as <-. tauto.
  - intros (k & l & Ek & El & Hkl). destruct (partial_cmp_key a b k l Ek El) as (c & E & Hc).
    exists c. split; [done|tauto].
Qed.

Lemma at_most_trans a b c : at_most a b -> at_most b c -> at_most a c.
Proof.
  rewrite !at_most_key. intros (k & l & ? & Hl & H1) (l' & m & Hl' & ? & H2). rewrite Hl in Hl'.
  injection Hl' as <-. exists k, m. split_and!; [done..|]. unfold key_le in *. lia.
Qed.

Lemma at_most_total a b c : partial_cmp a b = Some c -> at_most a b \/ (c = Gt /\ at_most b a).
Proof.
  intros E. destruct (decide (c = Gt)) as [->|Hc]; [right|left; by exists c].
  split; [done|]. assert (forall x : f64, order_key x = None -> x = S754_nan) as Hn by (by intros [|[]| |[]]).
  destruct (order_key a) as [k|] eqn:Ek; [|by apply Hn in Ek as ->].
  destruct (order_key b) as [l|] eqn:El; [|apply Hn in El as ->; by destruct a as [|[]| |[]]].
  destruct (partial_cmp_key a b k l Ek El) as (c & E' & Hk). rewrite E in E'. injection E' as <-.
  apply at_most_key. exists l, k. split_and!; [done..|]. destruct Hk as [Hk _]. specialize (Hk eq_refl).
  unfold key_le in *. lia.
Qed.

Lemma at_most_refl a : a <> S754_nan -> at_most a a.
Proof.
  intros Ha. apply at_most_key. destruct (order_key a) as [k|] eqn:E; [|by destruct a as [|[]| |[]]].
  exists k, k. split_and!; [done..|]. unfold key_le. lia.
Qed.
End Float64.
