(* ===== verification/Common.v ===== *)
(** * The crate [common]: identifiers, keys and key ranges

    [src/common/src/{key_range,full_range_id,keyspace_id,transaction_info,
    record,constants,config}.rs] and the conversions of
    [src/common/src/util/flatbuf.rs]. A [Uuid] is its 128-bit value, a [Bytes]
    the list of its 8-bit bytes, a [DateTime] or [Duration] a number of
    nanoseconds. *)

From stdpp Require Import base tactics list numbers option gmap sets strings.
From S2P Require Import Prelude.

Abbreviation Uuid := N (only parsing).
Abbreviation Bytes := (list N) (only parsing).

Module Common.

(** ** Byte strings *)

(** [<[u8] as Ord>::cmp], which [Bytes] delegates to: lexicographic *)
Fixpoint bytes_cmp (a b : Bytes) : comparison :=
  match a, b with
  | [], [] => Eq
  | [], _ :: _ => Lt
  | _ :: _, [] => Gt
  | x :: a', y :: b' =>
      match N.compare x y with
      | Eq => bytes_cmp a' b'
      | c => c
      end
  end.

Definition bytes_ltb (a b : Bytes) : bool :=
  match bytes_cmp a b with Lt => true | _ => false end.
Definition bytes_leb (a b : Bytes) : bool :=
  match bytes_cmp a b with Gt => false | _ => true end.

(** the bytes of an ASCII text *)
Definition bytes_of_string (s : string) : Bytes := Ascii.N_of_ascii <$> String.list_ascii_of_string s.

(** ** Identifiers *)

Record KeyspaceId := mkKeyspaceId { keyspace_uuid : Uuid }.

Record FullRangeId := mkFullRangeId {
  keyspace_id : KeyspaceId;
  range_id : Uuid
}.

#[global] Instance KeyspaceId_eq_dec : EqDecision KeyspaceId.
Proof. solve_decision. Defined.
#[global] Instance FullRangeId_eq_dec : EqDecision FullRangeId.
Proof. solve_decision. Defined.
#[global] Instance FullRangeId_countable : Countable FullRangeId.
Proof.
  apply (inj_countable' (fun r => (keyspace_uuid (keyspace_id r), range_id r))
           (fun p => mkFullRangeId (mkKeyspaceId p.1) p.2)).
  by intros [[]].
Defined.

Record TransactionInfo := mkTransactionInfo {
  tx_id : Uuid;
  tx_started : Z;
  tx_overall_timeout : Z
}.

Record Keyspace := mkKeyspace { namespace : string; ks_name : string }.

#[global] Instance Keyspace_eq_dec : EqDecision Keyspace.
Proof. solve_decision. Defined.
#[global] Instance Keyspace_countable : Countable Keyspace.
Proof.
  by refine (inj_countable' (fun k => (namespace k, ks_name k)) (fun p => mkKeyspace p.1 p.2) _);
    intros [].
Defined.

Record KvRecord := mkKvRecord { rec_key : Bytes; rec_val : Bytes }.

Definition INVALID_LEADER_SEQUENCE_NUMBER : Z := (-1)%Z.
Definition UNSET_LEADER_SEQUENCE_NUMBER : Z := 0%Z.

(** ** Configuration choices that change the protocol *)

Inductive CommitStrategy := Traditional | Pipelined | Adaptive.
Inductive Heuristic := OpenClients | LockContention.

#[global] Instance CommitStrategy_eq_dec : EqDecision CommitStrategy.
Proof. solve_decision. Defined.

(** ** Key ranges *)

Record KeyRange := mkKeyRange {
  lower_bound_inclusive : option Bytes;
  upper_bound_exclusive : option Bytes
}.

Definition includes (r : KeyRange) (key : Bytes) : bool :=
  let within_lower :=
    match lower_bound_inclusive r with
    | None => true
    | Some b => bytes_leb b key
    end in
  let within_upper :=
    match upper_bound_exclusive r with
    | None => true
    | Some b => bytes_ltb key b
    end in
  within_lower && within_upper.

Definition all : KeyRange := mkKeyRange None None.
Definition empty : KeyRange := mkKeyRange (Some []) (Some []).

(** [proto::universe::KeyRange]: protobuf has no absent byte string *)
Record ProtoKeyRange := mkProtoKeyRange {
  base_range_uuid : Uuid;
  proto_lower : Bytes;
  proto_upper : Bytes
}.

(** [impl From<&proto::universe::KeyRange> for KeyRange] *)
Definition from_proto (r : ProtoKeyRange) : KeyRange :=
  mkKeyRange (Some (proto_lower r)) (Some (proto_upper r)).

(** ** Uuids on the wire: two 64-bit halves of the little-endian value *)

Record Uuidu128Args := mkUuidu128Args { lower : N; upper : N }.

Section Flatbuf.
(** [Uuid::to_u128_le] and [Uuid::from_u128_le] of the crate [uuid] *)
Variables to_u128_le from_u128_le : Uuid -> N.

Definition serialize_uuid (uuid : Uuid) : Uuidu128Args :=
  let uint128 := to_u128_le uuid in
  {| lower := N.modulo uint128 (2 ^ 64);
     upper := N.modulo (N.shiftr uint128 64) (2 ^ 64) |}.

Definition deserialize_uuid (uuidf : Uuidu128Args) : Uuid :=
  from_u128_le (N.lor (N.shiftl (upper uuidf) 64) (lower uuidf)).

(** the flatbuffer table [RangeId], whose fields are optional *)
Record FbRangeId := mkFbRangeId {
  fb_keyspace_id : option Uuidu128Args;
  fb_range_id : option Uuidu128Args
}.

Definition serialize_range_id (id : FullRangeId) : FbRangeId :=
  {| fb_keyspace_id := Some (serialize_uuid (keyspace_uuid (keyspace_id id)));
     fb_range_id := Some (serialize_uuid (range_id id)) |}.

Definition deserialize_range_id (id : FbRangeId) : option FullRangeId :=
  match fb_keyspace_id id, fb_range_id id with
  | Some k, Some r =>
      Some (mkFullRangeId (mkKeyspaceId (deserialize_uuid k)) (deserialize_uuid r))
  | _, _ => None
  end.
End Flatbuf.

(** ** The order on byte strings *)

Lemma bytes_cmp_refl a : bytes_cmp a a = Eq.
Proof. induction a as [|x a IH]; simpl; [done|]. by rewrite N.compare_refl. Qed.

Lemma bytes_cmp_eq a b : bytes_cmp a b = Eq <-> a = b.
Proof.
  split; [|intros ->; apply bytes_cmp_refl].
  revert b. induction a as [|x a IH]; intros [|y b]; simpl; try done.
  destruct (N.compare_spec x y) as [->| |]; try done.
  intros ?%IH. by subst.
Qed.

Lemma bytes_cmp_antisym a b : bytes_cmp b a = CompOpp (bytes_cmp a b).
Proof.
  revert b. induction a as [|x a IH]; intros [|y b]; simpl; try done.
  rewrite (N.compare_antisym x y). destruct (N.compare x y); simpl; auto.
Qed.

Lemma bytes_cmp_lt_trans a b c :
  bytes_cmp a b = Lt -> bytes_cmp b c = Lt -> bytes_cmp a c = Lt.
Proof.
  revert b c. induction a as [|x a IH]; intros [|y b] [|z c]; simpl; try done.
  destruct (N.compare_spec x y) as [->|Hxy|]; try done;
    destruct (N.compare_spec y z) as [->|Hyz|]; try done.
  - eauto.
  - intros _ _. destruct (N.compare_spec x z); done || lia.
  - intros _ _. destruct (N.compare_spec x z); done || lia.
Qed.

Lemma bytes_leb_ltb a b : bytes_leb a b = negb (bytes_ltb b a).
Proof.
  unfold bytes_leb, bytes_ltb. rewrite (bytes_cmp_antisym a b).
  by destruct (bytes_cmp a b).
Qed.

Lemma bytes_ltb_irrefl a : bytes_ltb a a = false.
Proof. unfold bytes_ltb. by rewrite bytes_cmp_refl. Qed.

Lemma bytes_ltb_nil_r a : bytes_ltb a [] = false.
Proof. by destruct a. Qed.

Lemma bytes_leb_nil_l a : bytes_leb [] a = true.
Proof. by destruct a. Qed.

#[export] Hint Rewrite bytes_cmp_refl bytes_ltb_irrefl bytes_ltb_nil_r
  bytes_leb_nil_l : sangria.

(** ** Key ranges *)

Lemma includes_lower r b key :
  lower_bound_inclusive r = Some b -> includes r key = true -> bytes_leb b key = true.
Proof. unfold includes. intros -> ?. by destruct (bytes_leb b key). Qed.

Lemma includes_upper r b key :
  upper_bound_exclusive r = Some b -> includes r key = true -> bytes_ltb key b = true.
Proof. unfold includes. intros -> ?%andb_true_iff. naive_solver. Qed.

Lemma includes_all key : includes all key = true.
Proof. done. Qed.

Lemma includes_empty key : includes empty key = false.
Proof. unfold includes; simpl. by rewrite bytes_ltb_nil_r, andb_false_r. Qed.

(** ** Wire format *)

Lemma split_halves (u : N) :
  (u < 2 ^ 128)%N ->
  N.lor (N.shiftl (N.modulo (N.shiftr u 64) (2 ^ 64)) 64) (N.modulo u (2 ^ 64)) = u.
Proof.
  intros Hu. rewrite (N.mod_small (N.shiftr u 64)).
  2:{ rewrite N.shiftr_div_pow2. apply N.Div0.div_lt_upper_bound. done. }
  rewrite <- !N.land_ones. apply N.bits_inj. intros i.
  rewrite N.lor_spec, N.land_spec.
  destruct (N.lt_ge_cases i 64) as [Hi|Hi].
  - rewrite N.shiftl_spec_low, N.ones_spec_low by done. by rewrite andb_true_r.
  - rewrite N.shiftl_spec_high', N.shiftr_spec', N.ones_spec_high by done.
    rewrite andb_false_r, orb_false_r. by rewrite N.sub_add.
Qed.

(** A range id survives the trip through the message that carries it. The
    conversions of the crate [uuid] are inverse on 128-bit values. *)
Theorem range_id_roundtrip (to_u128_le from_u128_le : Uuid -> N) (id : FullRangeId)
    (Hto : forall u, (u < 2 ^ 128)%N -> (to_u128_le u < 2 ^ 128)%N)
    (Hinv : forall u, (u < 2 ^ 128)%N -> from_u128_le (to_u128_le u) = u)
    (Hk : (keyspace_uuid (keyspace_id id) < 2 ^ 128)%N)
    (Hr : (range_id id < 2 ^ 128)%N) :
  deserialize_range_id from_u128_le (serialize_range_id to_u128_le id) = Some id.
Proof.
  destruct id as [[k] r]; unfold deserialize_range_id, serialize_range_id, deserialize_uuid;
    cbn in Hk, Hr |- *.
  by rewrite !split_halves, !Hinv by auto.
Qed.

(** A range of the universe service whose bounds are the empty byte
    strings, which is how it describes the whole key space, becomes a
    [KeyRange] that includes no key at all. *)
Theorem default_range_includes_nothing (r : ProtoKeyRange) (key : Bytes) :
  proto_upper r = [] -> includes (from_proto r) key = false.
Proof.
  intros Hu. unfold includes, from_proto; simpl.
  by rewrite Hu, bytes_ltb_nil_r, andb_false_r.
Qed.

(** ** Witnesses: the byte reversal that [to_u128_le] documents *)

Fixpoint le_bytes (n : nat) (u : N) : list N :=
  match n with
  | 0 => []
  | S n' => N.modulo u 256 :: le_bytes n' (N.div u 256)
  end.
Fixpoint le_value (l : list N) : N :=
  match l with
  | [] => 0%N
  | b :: l' => (b + 256 * le_value l')%N
  end.
Definition byte_swap (u : N) : N := le_value (rev (le_bytes 16 u)).

Lemma le_value_bytes n u : (u < 256 ^ N.of_nat n)%N -> le_value (le_bytes n u) = u.
Proof.
  revert u; induction n as [|n IH]; intros u Hu; cbn [le_bytes le_value].
  - simpl in Hu. lia.
  - rewrite Nat2N.inj_succ, N.pow_succ_r' in Hu.
    rewrite IH by (apply N.Div0.div_lt_upper_bound; lia).
    pose proof (N.div_mod u 256). lia.
Qed.

Lemma le_bytes_value l :
  Forall (fun b => (b < 256)%N) l -> le_bytes (length l) (le_value l) = l.
Proof.
  induction 1 as [|b l Hb Hl IH]; [done|]. cbn [length le_bytes le_value].
  replace ((b + 256 * le_value l) mod 256)%N with b.
  2:{ rewrite N.add_comm, N.mul_comm, N.Div0.add_mod, N.Div0.mod_mul, N.add_0_l.
      by rewrite !N.mod_small; rewrite ?N.mod_small. }
  replace ((b + 256 * le_value l) / 256)%N with (le_value l).
  2:{ rewrite N.mul_comm, N.div_add by done. by rewrite N.div_small. }
  by rewrite IH.
Qed.

Lemma le_bytes_bounded n u : Forall (fun b => (b < 256)%N) (le_bytes n u).
Proof.
  revert u; induction n; intros u; constructor; [|done]. by apply N.mod_lt.
Qed.

Lemma le_bytes_length n u : length (le_bytes n u) = n.
Proof. revert u; induction n; intros; simpl; auto. Qed.

Lemma le_value_bound l :
  Forall (fun b => (b < 256)%N) l -> (le_value l < 256 ^ N.of_nat (length l))%N.
Proof.
  induction 1 as [|b l Hb Hl IH]; [done|]. cbn [length le_value].
  rewrite Nat2N.inj_succ, N.pow_succ_r'. lia.
Qed.

Lemma byte_swap_bound u : (byte_swap u < 2 ^ 128)%N.
Proof.
  unfold byte_swap.
  replace (2 ^ 128)%N with (256 ^ N.of_nat (length (rev (le_bytes 16 u))))%N
    by (rewrite length_rev, le_bytes_length; done).
  apply le_value_bound, Forall_rev, le_bytes_bounded.
Qed.

Lemma byte_swap_inv u : (u < 2 ^ 128)%N -> byte_swap (byte_swap u) = u.
Proof.
  intros Hu. unfold byte_swap at 1. unfold byte_swap at 1.
  rewrite <- (le_bytes_length 16 u) at 1. rewrite <- length_rev.
  rewrite le_bytes_value by apply Forall_rev, le_bytes_bounded.
  rewrite rev_involutive. by apply le_value_bytes.
Qed.

Lemma range_id_roundtrip_witness :
  let id := mkFullRangeId (mkKeyspaceId 258) (2 ^ 127 + 5) in
  serialize_uuid byte_swap (range_id id) <> mkUuidu128Args 0 0 /\
  deserialize_range_id byte_swap (serialize_range_id byte_swap id) = Some id.
Proof.
  split; [by vm_compute|].
  apply range_id_roundtrip; [intros; apply byte_swap_bound|apply byte_swap_inv|done|done].
Defined.

Lemma default_range_includes_nothing_witness :
  includes (from_proto (mkProtoKeyRange 1 [] [])) [65%N] = false.
Proof. apply (default_range_includes_nothing (mkProtoKeyRange 1 [] [])). reflexivity. Defined.

End Common.
