(* ===== verification/Tasks.v ===== *)
(** * Tasks that are interrupted

    An [async] function runs from one [await] to the next, and other tasks run in
    between. A task is a tree of actions: an action changes the shared state and
    gives the rest of the task, or waits when the state does not let it go on.
    [run] is what a task does when nobody interrupts it, [plays] what it does when
    its actions are taken in states that others have left. *)

From stdpp Require Import base tactics list option relations.
From S2P Require Import Prelude.

Module Tasks.
Local Open Scope sangria_scope.

Inductive Task (S A : Type) : Type :=
| Done (a : A)
| Act (f : S -> option (S * Task S A)).   (** [None]: it waits *)
#[global] Arguments Done {S A} _.
#[global] Arguments Act {S A} _.

Section Tasks.
Context {S : Type}.

Fixpoint t_bind {A B} (t : Task S A) (k : A -> Task S B) : Task S B :=
  match t with
  | Done a => k a
  | Act f => Act (fun s => match f s with
                           | Some (s', t') => Some (s', t_bind t' k)
                           | None => None
                           end)
  end.

(** one action that does not wait *)
Definition atomically {A} (f : S -> S * A) : Task S A :=
  Act (fun s => Some ((f s).1, Done (f s).2)).
(** a wait until the state has an answer *)
Definition await {A} (f : S -> option A) : Task S A :=
  Act (fun s => match f s with Some a => Some (s, Done a) | None => None end).

(** the task with nobody else around: the state in which it ends or waits *)
Fixpoint run {A} (t : Task S A) (s : S) : S * option A :=
  match t with
  | Done a => (s, Some a)
  | Act f => match f s with Some (s', t') => run t' s' | None => (s, None) end
  end.

(** the task takes the actions [l], each from its first state to its second one *)
Inductive plays {A} : Task S A -> list (S * S) -> Task S A -> Prop :=
| plays_nil t : plays t [] t
| plays_snoc t l f s s' t' :
    plays t l (Act f) -> f s = Some (s', t') -> plays t (l ++ [(s, s')]) t'.

(** the task that is left after an action *)
Definition sub {A} (t' t : Task S A) : Prop :=
  exists f s s', t = Act f /\ f s = Some (s', t').

Definition waits {A} (t : Task S A) (s : S) : Prop := exists f, t = Act f /\ f s = None.

(** every action of the task satisfies [G], whatever the others do *)
Fixpoint always {A} (G : S -> S -> Prop) (t : Task S A) : Prop :=
  match t with
  | Done _ => True
  | Act f => forall s, match f s with Some (s', t') => G s s' /\ always G t' | None => True end
  end.

(** As long as [I] holds when it acts, the task ends only after an action that
    has established [Q]. *)
Fixpoint ensures {A} (I Q : S -> Prop) (t : Task S A) : Prop :=
  match t with
  | Done _ => False
  | Act f => forall s, I s -> match f s with Some (s', t') => Q s' \/ ensures I Q t' | None => True end
  end.

(** ** Lemmas *)

Lemma task_ind {A} (P : Task S A -> Prop) :
  (forall a, P (Done a)) -> (forall f, (forall s s' t, f s = Some (s', t) -> P t) -> P (Act f)) ->
  forall t, P t.
Proof.
  intros Hd Ha. fix IH 1. intros [a|f]; [apply Hd|]. apply Ha. intros s s' t.
  destruct (f s) as [[s1 t1]|]; [|discriminate]. intros E.
  enough (P t1) by (by injection E as _ <-). apply IH.
Qed.

Lemma run_bind {A B} (t : Task S A) (k : A -> Task S B) s :
  run (t_bind t k) s =
  match run t s with (s', Some a) => run (k a) s' | (s', None) => (s', None) end.
Proof.
  revert s. induction t as [a|f IH] using task_ind; intros s; cbn; [done|].
  destruct (f s) as [[s' t']|] eqn:E; [|done]. by eapply IH.
Qed.

Lemma run_atomically {A} (f : S -> S * A) s : run (atomically f) s = ((f s).1, Some (f s).2).
Proof. done. Qed.

Lemma run_await {A} (f : S -> option A) s : run (await f) s = (s, f s).
Proof. cbn. by destruct (f s). Qed.

Lemma sub_wf {A} : well_founded (@sub A).
Proof.
  intros t. induction t as [a|f IH] using task_ind; constructor; intros t' (f' & s & s' & E & Ef);
    [done|]. injection E as <-. by eapply IH.
Qed.

Lemma always_bind {A B} G (t : Task S A) (k : A -> Task S B) :
  always G t -> (forall a, always G (k a)) -> always G (t_bind t k).
Proof.
  intros Ht Hk. revert Ht. induction t as [a|f IH] using task_ind; cbn; [auto|].
  intros Hf s. specialize (Hf s). destruct (f s) as [[s' t']|] eqn:E; [|done].
  destruct Hf as [? ?]. split; [done|]. by eapply IH.
Qed.

Lemma always_atomically {A} G (f : S -> S * A) :
  (forall s, G s (f s).1) -> always G (atomically f).
Proof. intros Hf s. cbn. by split. Qed.

Lemma always_await {A} (G : S -> S -> Prop) (f : S -> option A) :
  (forall s, G s s) -> always G (await f).
Proof. intros Hf s. cbn. by destruct (f s). Qed.

Lemma always_act {A} G f s s' (t : Task S A) : always G (Act f) -> f s = Some (s', t) -> G s s' /\ always G t.
Proof. intros Ha E. specialize (Ha s). by rewrite E in Ha. Qed.

Lemma ensures_bind {A B} I Q (t : Task S A) (k : A -> Task S B) : ensures I Q t -> ensures I Q (t_bind t k).
Proof.
  induction t as [a|f IH] using task_ind; cbn; [done|]. intros Hf s Hs. specialize (Hf s Hs).
  destruct (f s) as [[s' t']|] eqn:E; [|done]. destruct Hf as [?|Ht]; [by left|right].
  by eapply IH.
Qed.

(** an uninterrupted task plays its actions *)
Lemma run_plays {A} (t : Task S A) s s' a :
  run t s = (s', Some a) -> exists l, plays t l (Done a).
Proof.
  enough (forall t0 l, plays t0 l t -> run t s = (s', Some a) -> exists l', plays t0 l' (Done a)) as H.
  { apply (H t []). constructor. }
  intros t0. revert s. induction t as [b|f IH] using task_ind; intros s l Hp; cbn.
  - intros [= _ <-]. by exists l.
  - destruct (f s) as [[s1 t1]|] eqn:E; [|done]. apply (IH _ _ _ E _ (l ++ [(s, s1)])). by econstructor.
Qed.

(** ** Pools of tasks *)

(** one task of the pool has taken an action *)
Definition pool_sub {A} (p' p : list (Task S A)) : Prop :=
  exists l1 t t' l2, p = l1 ++ t :: l2 /\ p' = l1 ++ t' :: l2 /\ sub t' t.

Lemma pool_wf {A} : well_founded (@pool_sub A).
Proof.
  intros p. induction p as [|t p IHp].
  { constructor. intros p' (l1 & t & t' & l2 & E & _). by destruct l1. }
  revert p IHp. induction (sub_wf t) as [t _ IHt]. intros p IHp.
  induction IHp as [p Hp IH]. constructor. intros p' ([|t0 l1] & t1 & t1' & l2 & E & -> & Hs).
  - injection E as <- <-. apply IHt; [done|]. by constructor.
  - injection E as <- ->. cbn. apply IH. by exists l1, t1, t1', l2.
Qed.

End Tasks.

(** a relation terminates that decreases a number, or keeps it and decreases
    something well-founded *)
Lemma sn_lexicographic {A B} (R : relation A) (P : A -> Prop) (f : A -> nat) (lt : relation B) (g : A -> B) x :
  well_founded lt ->
  (forall x y, P x -> R x y -> P y /\ (f y < f x \/ (f y = f x /\ lt (g y) (g x)))) -> P x -> sn R x.
Proof.
  intros Hwf Hstep. induction (well_founded_ltof _ f x) as [x _ IHf].
  remember (g x) as b eqn:Eb. revert x IHf Eb. induction (Hwf b) as [b _ IHb]. intros x IHf -> Hx.
  constructor. intros y Hy. destruct (Hstep x y Hx Hy) as [Hp [Hlt|[Ef Hg]]]; [by apply IHf|].
  apply (IHb (g y) Hg y); [|done..]. intros z Hz. apply IHf. unfold ltof in *. lia.
Qed.

(** ** Tasks that can fail *)

Section Jobs.
Context {S E : Type}.

Definition Job (A : Type) : Type := Task S (result E A).

Definition j_ret {A} (a : A) : Job A := Done (Ok a).
Definition j_fail {A} (e : E) : Job A := Done (Err e).
Definition j_panic {A} : Job A := Done Panic.
Definition j_then {A B} (m : Job A) (k : A -> Job B) : Job B :=
  t_bind m (fun r => match r with Ok a => k a | Err e => Done (Err e) | Panic => Done Panic end).
Definition j_modify (f : S -> S) : Job unit := atomically (fun s => (f s, Ok tt)).

Lemma run_then {A B} (m : Job A) (k : A -> Job B) s :
  run (j_then m k) s =
  match run m s with
  | (s', Some (Ok a)) => run (k a) s'
  | (s', Some (Err e)) => (s', Some (Err e))
  | (s', Some Panic) => (s', Some Panic)
  | (s', None) => (s', None)
  end.
Proof. unfold j_then. rewrite run_bind. by destruct (run m s) as [s' [[]|]]. Qed.

Lemma always_then {A B} G (m : Job A) (k : A -> Job B) :
  always G m -> (forall a, always G (k a)) -> always G (j_then m k).
Proof. intros Hm Hk. apply always_bind; [done|]. by intros [a|e|]; [apply Hk|..]. Qed.
End Jobs.
#[global] Arguments Job : clear implicits.

End Tasks.

Notation "'let^' x := m 'in' k" := (Tasks.j_then m (fun x => k))
  (at level 10, x pattern, m at level 100, k at level 200)
  : sangria_scope.
Notation "m ^;; k" := (Tasks.j_then m (fun _ => k))
  (at level 199, right associativity) : sangria_scope.
