(* ===== verification/Region.v ===== *)
(** * Regions and zones: [src/common/src/region.rs]

    The textual form of clouds, regions and zones, which is also their
    serialised form, and the conversion to the messages of the universe
    service. A [String] is the sequence of its bytes; the separators are ASCII. *)

From stdpp Require Import base tactics list option countable strings.
From S2P Require Import Prelude.

Module Region.
Local Open Scope string_scope.

Inductive Cloud := Aws | Azure | Gcp | CloudOther (s : string).

Record Region := mkRegion { cloud : option Cloud; region_name : string }.
Record Zone := mkZone { region : Region; zone_name : string }.

#[global] Instance Cloud_eq_dec : EqDecision Cloud.
Proof. solve_decision. Defined.
#[global] Instance Region_eq_dec : EqDecision Region.
Proof. solve_decision. Defined.
#[global] Instance Zone_eq_dec : EqDecision Zone.
Proof. solve_decision. Defined.

#[global] Instance Cloud_countable : Countable Cloud.
Proof.
  refine (inj_countable' (fun c => match c with
                                   | Aws => inl 0 | Azure => inl 1 | Gcp => inl 2
                                   | CloudOther s => inr s
                                   end)
            (fun x => match x with
                      | inl 0 => Aws | inl 1 => Azure | inl _ => Gcp
                      | inr s => CloudOther s
                      end) _).
  by intros [].
Defined.
#[global] Instance Zone_countable : Countable Zone.
Proof.
  refine (inj_countable' (fun z => (cloud (region z), region_name (region z), zone_name z))
            (fun p => mkZone (mkRegion p.1.1 p.1.2) p.2) _).
  by intros [[]].
Defined.

(** ** The messages of the universe service *)

Inductive PublicCloud := ProtoAws | ProtoAzure | ProtoGcp.
Inductive ProtoCloud := ProtoPublic (c : PublicCloud) | ProtoOther (s : string).
Record ProtoRegion := mkProtoRegion { proto_cloud : option ProtoCloud; proto_region_name : string }.
Record ProtoZone := mkProtoZone { proto_region : option ProtoRegion; proto_zone_name : string }.

Definition region_into_proto (val : Region) : ProtoRegion :=
  mkProtoRegion
    ((fun c => match c with
               | Aws => ProtoPublic ProtoAws
               | Azure => ProtoPublic ProtoAzure
               | Gcp => ProtoPublic ProtoGcp
               | CloudOther s => ProtoOther s
               end) <$> cloud val)
    (region_name val).

Definition zone_into_proto (val : Zone) : ProtoZone :=
  mkProtoZone (Some (region_into_proto (region val))) (zone_name val).

(** ** Text *)

(** [str::split] with a separator of one byte: always one piece at least *)
Fixpoint split (sep : Ascii.ascii) (s : string) : list string :=
  match s with
  | EmptyString => [""]
  | String a s' =>
      if decide (a = sep) then "" :: split sep s'
      else match split sep s' with
           | [] => [String a ""]
           | p :: ps => String a p :: ps
           end
  end.

Definition colon : Ascii.ascii := Ascii.ascii_of_nat 58.
Definition slash : Ascii.ascii := Ascii.ascii_of_nat 47.

Definition cloud_to_string (c : Cloud) : string :=
  match c with
  | Aws => "aws"
  | Azure => "azure"
  | Gcp => "gcp"
  | CloudOther s => s
  end.

Definition cloud_from_str (s : string) : Cloud :=
  if decide (s = "aws") then Aws
  else if decide (s = "azure") then Azure
  else if decide (s = "gcp") then Gcp
  else CloudOther s.

Definition region_to_string (r : Region) : string :=
  match cloud r with
  | None => region_name r
  | Some c => cloud_to_string c +:+ String colon (region_name r)
  end.

(** the payload of the error is the message *)
Definition region_from_str (s : string) : result string Region :=
  match split colon s with
  | [_] => Ok (mkRegion None s)
  | [c; name] => Ok (mkRegion (Some (cloud_from_str c)) name)
  | _ => Err "invalid region string"
  end.

Definition zone_to_string (z : Zone) : string :=
  region_to_string (region z) +:+ String slash (zone_name z).

Definition zone_from_str (s : string) : result string Zone :=
  match split slash s with
  | [r; name] =>
      match region_from_str r with
      | Ok region => Ok (mkZone region name)
      | Err e => Err e
      | Panic => Panic
      end
  | _ => Err "Invalid zone string"
  end.

(** the visitors of the deserialisers unwrap the result of the parser *)
Definition visit_region (s : string) : result string Region :=
  match region_from_str s with Ok r => Ok r | _ => Panic end.
Definition visit_zone (s : string) : result string Zone :=
  match zone_from_str s with Ok z => Ok z | _ => Panic end.

(** ** Lemmas *)

(** a byte occurs in a string *)
Fixpoint occurs (a : Ascii.ascii) (s : string) : bool :=
  match s with
  | EmptyString => false
  | String b s' => bool_decide (b = a) || occurs a s'
  end.

Lemma occurs_app a s t : occurs a (s +:+ t) = occurs a s || occurs a t.
Proof. induction s as [|b s IH]; simpl; [done|]. rewrite IH. by destruct (bool_decide (b = a)). Qed.

Lemma split_cons sep a s :
  split sep (String a s) =
  if decide (a = sep) then "" :: split sep s
  else match split sep s with
       | [] => [String a ""]
       | p :: ps => String a p :: ps
       end.
Proof. done. Qed.

Lemma occurs_cons a b s : occurs a (String b s) = false -> b <> a /\ occurs a s = false.
Proof. cbn [occurs]. rewrite orb_false_iff, bool_decide_eq_false. done. Qed.

Lemma split_none sep s : occurs sep s = false -> split sep s = [s].
Proof.
  induction s as [|b s IH]; [done|]. intros [Hb Ho]%occurs_cons.
  by rewrite split_cons, decide_False, IH.
Qed.

Lemma append_cons a s t : String a s +:+ t = String a (s +:+ t).
Proof. done. Qed.

Lemma split_app sep s t : occurs sep s = false -> split sep (s +:+ String sep t) = s :: split sep t.
Proof.
  induction s as [|b s IH].
  - intros _. change ("" +:+ String sep t) with (String sep t). by rewrite split_cons, decide_True.
  - intros [Hb Ho]%occurs_cons. by rewrite append_cons, split_cons, decide_False, IH.
Qed.

(** the pieces joined by the separator are the string, and do not contain it *)
Lemma split_join sep s :
  exists p ps, split sep s = p :: ps /\ s = foldl (fun acc q => acc +:+ String sep q) p ps /\
  Forall (fun q => occurs sep q = false) (p :: ps).
Proof.
  induction s as [|b s (p & ps & Hs & Heq & Hf)].
  { exists "", []. repeat split. by repeat constructor. }
  assert (Hcons : forall l a q, String a (foldl (fun acc q => acc +:+ String sep q) q l) =
            foldl (fun acc q => acc +:+ String sep q) (String a q) l).
  { induction l as [|x l IHl]; intros a q; [done|]. cbn [foldl]. by rewrite append_cons, <- IHl. }
  rewrite split_cons. destruct (decide (b = sep)) as [->|Hne].
  - exists "", (split sep s). split; [done|]. rewrite Hs. split; [|by constructor].
    rewrite Heq at 1. cbn [foldl]. change ("" +:+ String sep p) with (String sep p). apply Hcons.
  - rewrite Hs. exists (String b p), ps. split; [done|]. split; [by rewrite Heq, Hcons|].
    apply Forall_cons in Hf as [Hp Hps]. constructor; [|done]. cbn [occurs].
    by rewrite bool_decide_eq_false_2.
Qed.

Lemma cloud_print_parse s : cloud_to_string (cloud_from_str s) = s.
Proof. unfold cloud_from_str. by repeat case_decide. Qed.

Lemma region_print_parse s r : region_from_str s = Ok r -> region_to_string r = s.
Proof.
  unfold region_from_str. destruct (split_join colon s) as (p & ps & -> & Heq & _).
  destruct ps as [|q [|]]; intros [= <-]; unfold region_to_string; cbn; [done|].
  rewrite cloud_print_parse. by rewrite Heq.
Qed.

(** a cloud that is not one of the named ones under another constructor *)
Definition canonical (c : Cloud) : bool := bool_decide (cloud_from_str (cloud_to_string c) = c).

(** no separator inside a component *)
Definition plain_region (r : Region) : bool :=
  negb (occurs colon (region_name r)) && negb (occurs slash (region_name r)) &&
  match cloud r with
  | None => true
  | Some c => canonical c && negb (occurs colon (cloud_to_string c)) &&
              negb (occurs slash (cloud_to_string c))
  end.

Lemma region_parse_print r : plain_region r = true -> region_from_str (region_to_string r) = Ok r.
Proof.
  destruct r as [[c|] n]; unfold plain_region, region_from_str, region_to_string; cbn;
    rewrite !andb_true_iff, !negb_true_iff.
  - intros [[Hn _] [[Hc Ho] _]]. rewrite split_app, split_none by done.
    unfold canonical in Hc. apply bool_decide_eq_true in Hc. by rewrite Hc.
  - intros [[Hn _] _]. by rewrite split_none.
Qed.

Lemma region_no_slash r : plain_region r = true -> occurs slash (region_to_string r) = false.
Proof.
  destruct r as [[c|] n]; unfold plain_region, region_to_string; cbn;
    rewrite !andb_true_iff, !negb_true_iff; [|tauto].
  intros [[_ Hn] [_ Hc]]. rewrite occurs_app, Hc. cbn. by rewrite Hn.
Qed.

(** ** Properties *)

(** The textual form of a zone, which is what is stored in configurations and
    messages, round trips. A zone whose names do not contain the separators and
    whose cloud is named canonically is parsed back from its text; and whatever
    text is accepted is the text of the zone it denotes. *)
Theorem zone_text_roundtrip z s :
  (plain_region (region z) = true -> occurs slash (zone_name z) = false ->
   zone_from_str (zone_to_string z) = Ok z) /\
  (zone_from_str s = Ok z -> zone_to_string z = s).
Proof.
  split.
  - intros Hr Hz. unfold zone_from_str, zone_to_string.
    rewrite split_app, split_none, region_parse_print by (done || by apply region_no_slash).
    by destruct z.
  - unfold zone_from_str. destruct (split_join slash s) as (p & ps & -> & Heq & _).
    destruct ps as [|q [|]]; [done| |done].
    destruct (region_from_str p) as [r|e|] eqn:Hr; [|done..]. intros [= <-].
    unfold zone_to_string. cbn. rewrite (region_print_parse p r Hr). by rewrite Heq.
Qed.

Lemma zone_text_roundtrip_witness :
  zone_from_str (zone_to_string (mkZone (mkRegion (Some Aws) "us-east") "a")) =
  Ok (mkZone (mkRegion (Some Aws) "us-east") "a").
Proof.
  destruct (zone_text_roundtrip (mkZone (mkRegion (Some Aws) "us-east") "a") "") as [Hz _].
  apply Hz; vm_compute; reflexivity.
Defined.

End Region.
