(* ===== verification/LockTable.v ===== *)
(** * The range lock: [src/rangeserver/src/range_manager/lock_table.rs]

    One lock guards the whole range. [State] is the struct behind the
    [RwLock]; a method takes that lock for its whole body, so a method is one
    atomic step. The receivers that callers wait on are channels of the store
    [chans], which the environment can close (a waiting task is dropped). *)

From stdpp Require Import base tactics list numbers option gmap sets.
From S2P Require Import Prelude Common.

Module LockTable.
Import Common.

(** ** State *)

Record CurrentLockHolder := mkCurrentLockHolder {
  holder_transaction : TransactionInfo;
  when_acquired : Z;
  when_requested : Z
}.

Record LockRequest := mkLockRequest {
  request_transaction : TransactionInfo;
  sender : positive;
  request_when_requested : Z
}.

Record State := mkState {
  current_holder : option CurrentLockHolder;
  waiting_for_release : list LockRequest;
  waiting_to_acquire : list LockRequest;
  soft_released : gset Uuid;
  chans : gmap positive oneshot
}.

Definition new : State := {|
  current_holder := None;
  waiting_for_release := [];
  waiting_to_acquire := [];
  soft_released := ∅;
  chans := ∅
|}.

Definition set_chans (cs : gmap positive oneshot) (st : State) : State := {|
  current_holder := current_holder st;
  waiting_for_release := waiting_for_release st;
  waiting_to_acquire := waiting_to_acquire st;
  soft_released := soft_released st;
  chans := cs
|}.

Definition set_holder (h : option CurrentLockHolder) (st : State) : State := {|
  current_holder := h;
  waiting_for_release := waiting_for_release st;
  waiting_to_acquire := waiting_to_acquire st;
  soft_released := soft_released st;
  chans := chans st
|}.

(** ** Operations *)

Definition get_num_waiters_and_pending (st : State) : nat :=
  length (waiting_to_acquire st) + size (soft_released st).

Definition get_current_holder_id (st : State) : option Uuid :=
  (fun h => tx_id (holder_transaction h)) <$> current_holder st.

Definition is_currently_holding (tx_ids : list Uuid) (st : State) : bool :=
  match current_holder st with
  | None => false
  | Some current => bool_decide (tx_id (holder_transaction current) ∈ tx_ids)
  end.

(** returns the receiver; it is ready at once when nobody holds the lock *)
Definition maybe_wait_for_current_holder (tx : TransactionInfo) (now : Z)
    (st : State) : State * positive :=
  let (c, cs) := chan_new (chans st) in
  match current_holder st with
  | None => (set_chans (chan_send c cs).1 st, c)
  | Some _ =>
      ({| current_holder := current_holder st;
          waiting_for_release :=
            waiting_for_release st ++ [mkLockRequest tx c now];
          waiting_to_acquire := waiting_to_acquire st;
          soft_released := soft_released st;
          chans := cs |}, c)
  end.

(** [now] and [now'] are the two readings of the clock; the result is always
    [Ok], the wait-die check that could fail is commented out *)
Definition acquire (tx : TransactionInfo) (now now' : Z) (st : State)
    : State * positive :=
  let (c, cs) := chan_new (chans st) in
  match current_holder st with
  | None =>
      ({| current_holder := Some (mkCurrentLockHolder tx now now);
          waiting_for_release := waiting_for_release st;
          waiting_to_acquire := waiting_to_acquire st;
          soft_released := soft_released st;
          chans := (chan_send c cs).1 |}, c)
  | Some holder =>
      if decide (tx_id (holder_transaction holder) = tx_id tx) then
        (set_chans (chan_send c cs).1 st, c)
      else
        ({| current_holder := current_holder st;
            waiting_for_release := waiting_for_release st;
            waiting_to_acquire :=
              waiting_to_acquire st ++ [mkLockRequest tx c now'];
            soft_released := soft_released st;
            chans := cs |}, c)
  end.

(** the [while] loop of [release]: pop, send, [unwrap]. The result is the
    queue left, the channels, and whether every [send] succeeded. *)
Fixpoint notify_all (q : list LockRequest) (cs : gmap positive oneshot)
    : list LockRequest * gmap positive oneshot * bool :=
  match q with
  | [] => ([], cs, true)
  | req :: q' =>
      let (cs', ok) := chan_send (sender req) cs in
      if ok then notify_all q' cs' else (q', cs', false)
  end.

(** [release]: the state left behind and whether the call returned (a failed
    [unwrap] unwinds, with the writes made so far in place) *)
Definition release (mark_as_violatable : option bool) (now : Z) (st : State)
    : State * bool :=
  let released_holder := get_current_holder_id st in
  let soft :=
    match mark_as_violatable, released_holder with
    | Some true, Some h => {[h]} ∪ soft_released st
    | _, _ => soft_released st
    end in
  let '(wfr, cs, ok) := notify_all (waiting_for_release st) (chans st) in
  if ok then
    match waiting_to_acquire st with
    | [] =>
        ({| current_holder := None; waiting_for_release := wfr;
            waiting_to_acquire := []; soft_released := soft; chans := cs |}, true)
    | req :: q' =>
        let (cs', ok') := chan_send (sender req) cs in
        ({| current_holder :=
              Some (mkCurrentLockHolder (request_transaction req) now
                      (request_when_requested req));
            waiting_for_release := wfr;
            waiting_to_acquire := q'; soft_released := soft; chans := cs' |}, ok')
    end
  else
    ({| current_holder := None; waiting_for_release := wfr;
        waiting_to_acquire := waiting_to_acquire st; soft_released := soft;
        chans := cs |}, false).

Definition soft_release (now : Z) (st : State) : State * bool :=
  release (Some true) now st.

Definition clean_soft_released (tx_ids : list Uuid) (st : State) : State := {|
  current_holder := current_holder st;
  waiting_for_release := waiting_for_release st;
  waiting_to_acquire := waiting_to_acquire st;
  soft_released := filter (fun t => t ∉ tx_ids) (soft_released st);
  chans := chans st
|}.

(** ** The transition system

    The callers and the environment: a task that waits on a receiver can be
    dropped at any time. *)

Inductive event :=
| EvAcquire (tx : TransactionInfo) (now now' : Z)
| EvWait (tx : TransactionInfo) (now : Z)
| EvRelease (mark : option bool) (now : Z)
| EvClean (tx_ids : list Uuid)
| EvDrop (c : positive).

Definition apply_event (ev : event) (st : State) : State :=
  match ev with
  | EvAcquire tx now now' => (acquire tx now now' st).1
  | EvWait tx now => (maybe_wait_for_current_holder tx now st).1
  | EvRelease mark now => (release mark now st).1
  | EvClean ids => clean_soft_released ids st
  | EvDrop c => set_chans (chan_drop c (chans st)) st
  end.

(** no receiver of a queued request has been dropped *)
Definition receivers_alive (st : State) : Prop :=
  forall req, req ∈ waiting_for_release st ++ waiting_to_acquire st ->
    chans st !! sender req = Some ChanOpen.

(** an event of a run in which no task is dropped while it waits *)
Definition orderly (ev : event) (st : State) : Prop :=
  match ev with
  | EvDrop c => c ∉ (sender <$> waiting_for_release st ++ waiting_to_acquire st)
  | _ => True
  end.

Fixpoint run (evs : list event) (st : State) : State :=
  match evs with
  | [] => st
  | ev :: evs' => run evs' (apply_event ev st)
  end.

Fixpoint orderly_run (evs : list event) (st : State) : Prop :=
  match evs with
  | [] => True
  | ev :: evs' => orderly ev st /\ orderly_run evs' (apply_event ev st)
  end.

Definition is_release (ev : event) : bool :=
  match ev with EvRelease _ _ => true | _ => false end.

Definition releases (evs : list event) : nat :=
  length (List.filter is_release evs).

Inductive reachable : State -> Prop :=
| reachable_new : reachable new
| reachable_step st ev :
    reachable st -> orderly ev st -> reachable (apply_event ev st).

(** ** Specification: a queue of transactions whose head holds the lock *)

Definition queue (st : State) : list Uuid :=
  option_list (get_current_holder_id st) ++
  ((fun r => tx_id (request_transaction r)) <$> waiting_to_acquire st).

Definition spec_acquire (t : Uuid) (q : list Uuid) : list Uuid :=
  match q with
  | h :: _ => if decide (h = t) then q else q ++ [t]
  | [] => [t]
  end.

Definition spec_step (ev : event) (q : list Uuid) : list Uuid :=
  match ev with
  | EvAcquire tx _ _ => spec_acquire (tx_id tx) q
  | EvRelease _ _ => tail q
  | _ => q
  end.

(** the invariant: a free lock has no queue, and the queued requests wait on
    distinct open channels *)
Record wf (st : State) : Prop := {
  wf_free : current_holder st = None ->
    waiting_for_release st = [] /\ waiting_to_acquire st = [];
  wf_alive : receivers_alive st;
  wf_distinct :
    NoDup (sender <$> waiting_for_release st ++ waiting_to_acquire st)
}.

(** ** Lemmas *)

Lemma chan_new_spec cs c cs' :
  chan_new cs = (c, cs') ->
  cs !! c = None /\ cs' !! c = Some ChanOpen /\
  (forall d, d <> c -> cs' !! d = cs !! d).
Proof.
  unfold chan_new. intros [= <- <-].
  split; [apply chan_fresh_not_in|].
  split; [apply lookup_insert_eq|]. intros d Hd. by rewrite lookup_insert_ne.
Qed.

Lemma chan_send_open c cs :
  cs !! c = Some ChanOpen -> chan_send c cs = (<[c := ChanSent]> cs, true).
Proof. unfold chan_send. by intros ->. Qed.

Lemma chan_send_other c d cs : c <> d -> (chan_send c cs).1 !! d = cs !! d.
Proof. intros. unfold chan_send. case_all. by rewrite lookup_insert_ne. Qed.

(** a channel that holds a value keeps it *)
Lemma chan_send_sent c d cs :
  cs !! d = Some ChanSent -> (chan_send c cs).1 !! d = Some ChanSent.
Proof.
  intros. unfold chan_send. case_all.
  destruct (decide (c = d)) as [->|]; [by rewrite lookup_insert_eq|].
  by rewrite lookup_insert_ne.
Qed.

(** the broadcast of [release] reaches every waiter *)
Lemma notify_all_alive q cs :
  NoDup (sender <$> q) ->
  (forall req, req ∈ q -> cs !! sender req = Some ChanOpen) ->
  exists cs', notify_all q cs = ([], cs', true) /\
    (forall req, req ∈ q -> cs' !! sender req = Some ChanSent) /\
    (forall d, d ∉ (sender <$> q) -> cs' !! d = cs !! d).
Proof.
  revert cs. induction q as [|req q IH]; intros cs Hnd Hopen; simpl.
  { exists cs. set_solver. }
  apply NoDup_cons in Hnd as [Hni Hnd].
  rewrite chan_send_open by (apply Hopen; in_list).
  destruct (IH (<[sender req := ChanSent]> cs)) as (cs' & E & Hsent & Hoth); [done| |].
  { intros r Hr. rewrite lookup_insert_ne; [apply Hopen; in_list|].
    intros Heq. apply Hni. rewrite Heq. by apply list_elem_of_fmap_2. }
  exists cs'. split; [done|]. split.
  - intros r [->|Hr]%elem_of_cons; [|by apply Hsent].
    rewrite Hoth by done. apply lookup_insert_eq.
  - intros d Hd. rewrite ?fmap_cons, not_elem_of_cons in Hd.
    rewrite Hoth by naive_solver. rewrite lookup_insert_ne; naive_solver.
Qed.

Lemma sender_ne_fresh st c cs' req :
  wf st -> chan_new (chans st) = (c, cs') ->
  req ∈ waiting_for_release st ++ waiting_to_acquire st -> sender req <> c.
Proof.
  intros Hwf Hnew Hr Heq. apply chan_new_spec in Hnew as (Hc & _).
  apply (wf_alive st Hwf) in Hr. congruence.
Qed.

(** [release] in a well-formed state never unwinds; what it does *)
Lemma release_wf mark now st :
  wf st ->
  exists cs, release mark now st =
    ({| current_holder :=
          (fun req => mkCurrentLockHolder (request_transaction req) now
                        (request_when_requested req)) <$> head (waiting_to_acquire st);
        waiting_for_release := [];
        waiting_to_acquire := tail (waiting_to_acquire st);
        soft_released :=
          match mark, get_current_holder_id st with
          | Some true, Some h => {[h]} ∪ soft_released st
          | _, _ => soft_released st
          end;
        chans := cs |}, true) /\
    (forall req, req ∈ waiting_for_release st -> cs !! sender req = Some ChanSent) /\
    (forall req, head (waiting_to_acquire st) = Some req ->
       cs !! sender req = Some ChanSent) /\
    (forall d, d ∉ (sender <$> waiting_for_release st) ->
       (forall req, head (waiting_to_acquire st) = Some req -> sender req <> d) ->
       cs !! d = chans st !! d).
Proof.
  intros [Hfree Halive Hnd].
  rewrite fmap_app, NoDup_app in Hnd. destruct Hnd as (Hnd1 & Hdisj & Hnd2).
  destruct (notify_all_alive (waiting_for_release st) (chans st)) as
    (cs & E & Hsent & Hoth); [done|intros; apply Halive; in_list|].
  unfold release. rewrite E.
  destruct (waiting_to_acquire st) as [|req q] eqn:Eq; simpl in *.
  { exists cs. naive_solver. }
  assert (Hni : sender req ∉ (sender <$> waiting_for_release st)).
  { intros Hin. apply (Hdisj _ Hin). in_list. }
  rewrite chan_send_open.
  2:{ rewrite Hoth by done. apply Halive. rewrite Eq. in_list. }
  exists (<[sender req := ChanSent]> cs). split; [done|]. split_and!.
  - intros r Hr. destruct (decide (sender req = sender r)) as [->|];
      [apply lookup_insert_eq|]. rewrite lookup_insert_ne; auto.
  - intros r [= <-]. apply lookup_insert_eq.
  - intros d Hd Hne. rewrite lookup_insert_ne by naive_solver. by apply Hoth.
Qed.

(** ** The invariant is inductive, operation by operation *)

Lemma acquire_wf tx now now' st : wf st -> wf (acquire tx now now' st).1.
Proof.
  intros Hwf. pose proof Hwf as [Hfree Halive Hnd].
  unfold acquire. destruct (chan_new (chans st)) as [c cs] eqn:Ec.
  pose proof (chan_new_spec _ _ _ Ec) as (Hc & Hopen & Hoth).
  destruct (current_holder st) as [h|] eqn:Eh; [case_decide|]; simpl.
  - split; simpl; [by rewrite Eh| |done]. intros r Hr; simpl in *.
    rewrite chan_send_other by (intros ->; by eapply sender_ne_fresh).
    rewrite Hoth; eauto using sender_ne_fresh.
  - split; simpl; [by intros E| |].
    + intros r; simpl. rewrite app_assoc. intros [Hr|Hr]%elem_of_app; simpl in *.
      * rewrite Hoth; eauto using sender_ne_fresh.
      * apply list_elem_of_singleton in Hr as ->. done.
    + rewrite app_assoc, fmap_app, NoDup_app. split_and!; [done| |apply NoDup_singleton].
      intros d (r & -> & Hr)%list_elem_of_fmap Hd. simpl in Hd.
      apply list_elem_of_singleton in Hd. by eapply sender_ne_fresh.
  - destruct (Hfree eq_refl) as [Hw1 Hw2].
    split; simpl; [done|intros r; simpl; by rewrite Hw1, Hw2; intros []%not_elem_of_nil|].
    rewrite Hw1, Hw2. constructor.
Qed.

Lemma wait_wf tx now st : wf st -> wf (maybe_wait_for_current_holder tx now st).1.
Proof.
  intros Hwf. pose proof Hwf as [Hfree Halive Hnd].
  unfold maybe_wait_for_current_holder.
  destruct (chan_new (chans st)) as [c cs] eqn:Ec.
  pose proof (chan_new_spec _ _ _ Ec) as (Hc & Hopen & Hoth).
  destruct (current_holder st) as [h|] eqn:Eh; simpl.
  - split; simpl; [by intros E| |].
    + intros r; simpl. rewrite <- app_assoc.
      intros [Hr|[Hr|Hr]%elem_of_app]%elem_of_app; simpl in *.
      * rewrite Hoth; [apply Halive; in_list|eapply sender_ne_fresh; [done..|in_list]].
      * apply list_elem_of_singleton in Hr as ->. done.
      * rewrite Hoth; [apply Halive; in_list|eapply sender_ne_fresh; [done..|in_list]].
    + rewrite <- app_assoc, (Permutation_app_comm [_]), app_assoc.
      rewrite fmap_app, NoDup_app. split_and!; [done| |apply NoDup_singleton].
      intros d (r & -> & Hr)%list_elem_of_fmap Hd. simpl in Hd.
      apply list_elem_of_singleton in Hd. by eapply sender_ne_fresh.
  - destruct (Hfree eq_refl) as [Hw1 Hw2].
    split; simpl; [by rewrite Hw1, Hw2| |rewrite Hw1, Hw2; constructor].
    intros r; simpl. rewrite Hw1, Hw2. by intros []%not_elem_of_nil.
Qed.

Lemma release_preserves_wf mark now st : wf st -> wf (release mark now st).1.
Proof.
  intros Hwf. pose proof Hwf as [Hfree Halive Hnd].
  destruct (release_wf mark now st Hwf) as (cs & -> & _ & _ & Hoth). simpl.
  destruct (waiting_to_acquire st) as [|req q] eqn:Eq; simpl in *.
  { split; simpl; [done|by intros r []%not_elem_of_nil|constructor]. }
  rewrite fmap_app, NoDup_app in Hnd. destruct Hnd as (Hnd1 & Hdisj & Hnd2).
  apply NoDup_cons in Hnd2 as [Hni Hnd2].
  split; simpl; [done| |done].
  intros r Hr; simpl in *. rewrite Hoth.
  - apply Halive. rewrite Eq. in_list.
  - intros Hin. apply (Hdisj _ Hin). in_list.
  - intros ? [= <-] E. apply Hni. rewrite E. by apply list_elem_of_fmap_2.
Qed.

Lemma apply_event_wf ev st : wf st -> orderly ev st -> wf (apply_event ev st).
Proof.
  intros Hwf Hord. destruct ev; simpl in *;
    [by apply acquire_wf|by apply wait_wf|by apply release_preserves_wf|..].
  - destruct Hwf. split; done.
  - destruct Hwf as [Hfree Halive Hnd].
    split; simpl; [done| |done]. intros r Hr; simpl in *.
    unfold chan_drop. case_all; [|auto..].
    rewrite lookup_insert_ne; [auto|]. intros ->. apply Hord. by apply list_elem_of_fmap_2.
Qed.

Lemma wf_new : wf new.
Proof. split; simpl; [done| |constructor]. by intros r []%not_elem_of_nil. Qed.

Lemma reachable_wf st : reachable st -> wf st.
Proof. induction 1; eauto using wf_new, apply_event_wf. Qed.

Lemma run_wf evs st : wf st -> orderly_run evs st -> wf (run evs st).
Proof.
  revert st. induction evs as [|ev evs IH]; intros st Hwf; simpl; [done|].
  intros [? ?]. eauto using apply_event_wf.
Qed.
#[export] Hint Resolve wf_new apply_event_wf reachable_wf run_wf : sangria.

(** a channel that holds its value keeps it through every event *)
Lemma apply_event_sent ev st c :
  wf st -> chans st !! c = Some ChanSent -> chans (apply_event ev st) !! c = Some ChanSent.
Proof.
  intros Hwf Hc.
  assert (Hne : forall req, req ∈ waiting_for_release st ++ waiting_to_acquire st ->
                  sender req <> c).
  { intros req Hr%(wf_alive st Hwf) <-. congruence. }
  destruct ev as [tx now now'|tx now|mark now|ids|d]; simpl; [| | |done|].
  - unfold acquire. destruct (chan_new (chans st)) as [c' cs] eqn:Ec.
    pose proof (chan_new_spec _ _ _ Ec) as (Hc' & _ & Hoth).
    assert (cs !! c = Some ChanSent) by (rewrite Hoth; congruence).
    destruct (current_holder st); [case_decide|]; simpl; auto using chan_send_sent.
  - unfold maybe_wait_for_current_holder.
    destruct (chan_new (chans st)) as [c' cs] eqn:Ec.
    pose proof (chan_new_spec _ _ _ Ec) as (Hc' & _ & Hoth).
    assert (cs !! c = Some ChanSent) by (rewrite Hoth; congruence).
    destruct (current_holder st); simpl; auto using chan_send_sent.
  - destruct (release_wf mark now st Hwf) as (cs & -> & _ & _ & Hoth). simpl.
    rewrite Hoth; [done| |].
    + intros (r & -> & Hr)%list_elem_of_fmap. apply (Hne r); [in_list|done].
    + intros r Hr. apply Hne. destruct (waiting_to_acquire st); simplify_eq/=. in_list.
  - unfold chan_drop. case_all. rewrite lookup_insert_ne; congruence.
Qed.

(** only [release] shortens the queue, and only at its head *)
Lemma apply_event_waiting ev st i req :
  wf st -> is_release ev = false ->
  waiting_to_acquire st !! i = Some req ->
  waiting_to_acquire (apply_event ev st) !! i = Some req.
Proof.
  intros Hwf Hev Hi. destruct ev as [tx now now'|tx now|mark now|ids|d]; simpl in *; try done.
  - unfold acquire. destruct (chan_new (chans st)) as [c' cs].
    destruct (current_holder st); [case_decide|]; simpl; [done| |done].
    by apply lookup_app_l_Some.
  - unfold maybe_wait_for_current_holder. destruct (chan_new (chans st)) as [c' cs].
    by destruct (current_holder st).
Qed.

Lemma run_waiting evs st i req :
  wf st -> orderly_run evs st -> releases evs <= i ->
  waiting_to_acquire st !! i = Some req ->
  waiting_to_acquire (run evs st) !! (i - releases evs) = Some req.
Proof.
  revert st i. induction evs as [|ev evs IH]; intros st i Hwf Hord Hle Hi; simpl in *.
  { by rewrite Nat.sub_0_r. }
  destruct Hord as [Ho Hord]. unfold releases in *; simpl in *.
  destruct (is_release ev) eqn:Eev; simpl in *.
  - destruct i as [|i]; [lia|]. simpl. apply IH; [eauto with sangria|done|lia|].
    destruct ev; simplify_eq/=.
    destruct (release_wf mark now st Hwf) as (cs & -> & _). simpl.
    by rewrite lookup_tail.
  - apply IH; [eauto with sangria|done|lia|]. by apply apply_event_waiting.
Qed.

Lemma acquire_queue tx now now' st :
  queue (acquire tx now now' st).1 = spec_acquire (tx_id tx) (queue st) \/
  (current_holder st = None /\ waiting_to_acquire st <> []).
Proof.
  unfold acquire, queue, get_current_holder_id, spec_acquire.
  destruct (chan_new (chans st)) as [c cs].
  destruct (current_holder st) as [h|] eqn:Eh; simpl.
  - left. case_decide; simpl; rewrite ?Eh; simpl; [done|]. by rewrite fmap_app.
  - destruct (waiting_to_acquire st); simpl; naive_solver.
Qed.

(** ** Properties *)

(** C14: the lock table implements a first-in first-out lock. In every
    reachable state, every operation acts on the queue (holder first, then the
    waiters in the order they will be served) as the specification does:
    [acquire] appends the transaction unless it already holds the lock,
    [release] removes the head and hands the lock to the next, the other
    operations leave the queue alone. *)
Theorem lock_refines_fifo st ev :
  reachable st -> orderly ev st ->
  queue (apply_event ev st) = spec_step ev (queue st).
Proof.
  intros Hr Hord. apply reachable_wf in Hr.
  destruct ev as [tx now now'|tx now|mark now|ids|d]; simpl; [| | |done..].
  - destruct (acquire_queue tx now now' st) as [|[E1 E2]]; [done|].
    by destruct (wf_free st Hr E1).
  - unfold maybe_wait_for_current_holder, queue, get_current_holder_id.
    destruct (chan_new (chans st)). by destruct (current_holder st) eqn:E; simpl; rewrite ?E.
  - destruct (release_wf mark now st Hr) as (cs & -> & _).
    unfold queue, get_current_holder_id; simpl.
    destruct (current_holder st) eqn:Eh; simpl.
    + by destruct (waiting_to_acquire st).
    + by destruct (wf_free st Hr Eh) as [_ ->].
Qed.

(** No waiter is lost or overtaken. The request at position [i] of the
    queue keeps its place through any events of other transactions, and once
    [i] releases have happened the next release returns normally, makes that
    transaction the holder and completes the receiver its task waits on. *)
Theorem fifo_handover st i req evs mark now :
  reachable st -> waiting_to_acquire st !! i = Some req ->
  orderly_run evs st -> releases evs = i ->
  let '(st', returned) := release mark now (run evs st) in
  returned = true /\
  get_current_holder_id st' = Some (tx_id (request_transaction req)) /\
  chans st' !! sender req = Some ChanSent.
Proof.
  intros Hr Hi Hord Hn. apply reachable_wf in Hr.
  pose proof (run_waiting evs st i req Hr Hord ltac:(lia) Hi) as Hw.
  replace (i - releases evs) with 0 in Hw by lia.
  destruct (release_wf mark now (run evs st)) as (cs & -> & _ & Hsent & _);
    [eauto with sangria|].
  destruct (waiting_to_acquire (run evs st)); simplify_eq/=. eauto.
Qed.

(** Dropping a waiting task wedges the lock. If the task of the first
    waiter is dropped (its request is cancelled) before the holder releases,
    the release unwinds on the failed [send], and it has already installed the
    dropped transaction as the holder: the lock stays held by a transaction no
    task will release. *)
Theorem dropped_waiter_keeps_lock st req q mark now :
  reachable st -> waiting_to_acquire st = req :: q ->
  let '(st', returned) :=
    release mark now (apply_event (EvDrop (sender req)) st) in
  returned = false /\
  get_current_holder_id st' = Some (tx_id (request_transaction req)) /\
  waiting_to_acquire st' = q.
Proof.
  intros Hr Hq. apply reachable_wf in Hr as [Hfree Halive Hnd].
  rewrite Hq, fmap_app, NoDup_app in Hnd. destruct Hnd as (Hnd1 & Hdisj & _).
  assert (Hopen : chans st !! sender req = Some ChanOpen).
  { apply Halive. rewrite Hq. in_list. }
  assert (Hne : forall r, r ∈ waiting_for_release st -> sender r <> sender req).
  { intros r Hin E. apply (Hdisj (sender r)); [by apply list_elem_of_fmap_2|].
    rewrite E. in_list. }
  unfold apply_event, chan_drop. rewrite Hopen. unfold release; simpl.
  destruct (notify_all_alive (waiting_for_release st)
              (<[sender req := ChanClosed]> (chans st))) as (cs & -> & _ & Hoth); [done| |].
  { intros r Hin. rewrite lookup_insert_ne by (intros E; by apply (Hne r Hin)).
    apply Halive. in_list. }
  rewrite Hq. unfold chan_send. rewrite Hoth.
  - by rewrite lookup_insert_eq.
  - intros (r & E & Hin)%list_elem_of_fmap. by apply (Hne r Hin).
Qed.

(** ** Witnesses *)

Definition sample_tx (n : Uuid) : TransactionInfo := mkTransactionInfo n 0 0.

(** transaction 1 holds the lock, 2 and 3 wait for it in this order *)
Definition sample_state : State :=
  run [EvAcquire (sample_tx 1) 0 0; EvAcquire (sample_tx 2) 1 1;
       EvAcquire (sample_tx 3) 2 2] new.

Lemma sample_state_reachable : reachable sample_state.
Proof.
  apply (reachable_step _ (EvAcquire (sample_tx 3) 2 2)); [|done].
  apply (reachable_step _ (EvAcquire (sample_tx 2) 1 1)); [|done].
  apply (reachable_step _ (EvAcquire (sample_tx 1) 0 0)); [|done].
  apply reachable_new.
Qed.

Lemma lock_refines_fifo_witness :
  queue sample_state = [1; 2; 3]%N /\
  queue (apply_event (EvRelease None 5) sample_state) = [2; 3]%N.
Proof.
  split; [by vm_compute|].
  rewrite (lock_refines_fifo sample_state (EvRelease None 5));
    [by vm_compute|apply sample_state_reachable|done].
Defined.

Lemma fifo_handover_witness :
  let '(st', returned) := release None 9 (run [EvRelease (Some true) 5] sample_state) in
  returned = true /\ get_current_holder_id st' = Some 3%N /\
  chans st' !! 3%positive = Some ChanSent.
Proof.
  apply (fifo_handover sample_state 1 (mkLockRequest (sample_tx 3) 3 2)
           [EvRelease (Some true) 5] None 9);
    [apply sample_state_reachable|by vm_compute|done|done].
Defined.

Lemma dropped_waiter_keeps_lock_witness :
  let '(st', returned) :=
    release None 5 (apply_event (EvDrop 2) sample_state) in
  returned = false /\ get_current_holder_id st' = Some 2%N /\
  waiting_to_acquire st' = [mkLockRequest (sample_tx 3) 3 2].
Proof.
  apply (dropped_waiter_keeps_lock sample_state (mkLockRequest (sample_tx 2) 2 1)
           [mkLockRequest (sample_tx 3) 3 2] None 5);
    [apply sample_state_reachable|by vm_compute].
Defined.

End LockTable.
