(* ===== verification/Prefetching.v ===== *)
(** * The prefetching buffer: [src/rangeserver/src/prefetching_buffer.rs]

    [State] is the struct behind the [Mutex]. A method holds the mutex for its
    whole body and is one step, except [process_prefetch_request], which drops
    it to wait for another task's fetch: its first critical section is
    [request_begin], the wait is [request_observe] and the critical section
    after a failed fetch is [request_retry]. The tasks that run [prefetch] of
    [src/rangeserver/src/range_manager/impl.rs] are interleaved by [step]. *)

From stdpp Require Import base tactics list numbers option gmap sets.
From S2P Require Import Prelude Common.

Module Prefetching.
Import Common.

Inductive KeyState :=
| Fetched
| Loading (n : N)
| Requested (n : N).

#[global] Instance KeyState_eq_dec : EqDecision KeyState.
Proof. solve_decision. Defined.

(** a [tokio::sync::watch] channel: the last value sent and the number of
    sends since it was created *)
Record watch := mkWatch { watch_value : KeyState; watch_version : nat }.

(** [sender.send(v)]: the receiver kept in the watcher map is never dropped,
    so the send always succeeds *)
Definition watch_send (v : KeyState) (w : watch) : watch :=
  mkWatch v (S (watch_version w)).

Record State := mkState {
  prefetch_store : gmap Bytes Bytes;
  key_state : gmap Bytes KeyState;
  transaction_keys : gmap Uuid (gset Bytes);
  key_transactions : gmap Bytes (gset Uuid);
  (** the version the stored receiver has seen; the receiver and the sender
      of a key are created together *)
  key_state_watcher : gmap Bytes nat;
  key_state_sender : gmap Bytes watch;
  fetch_sequence_number : N
}.

Definition new : State := mkState ∅ ∅ ∅ ∅ ∅ ∅ 0.

(** field updates *)
Definition set_store (m : gmap Bytes Bytes) (st : State) : State :=
  mkState m (key_state st) (transaction_keys st) (key_transactions st)
    (key_state_watcher st) (key_state_sender st) (fetch_sequence_number st).
Definition set_key_state (m : gmap Bytes KeyState) (st : State) : State :=
  mkState (prefetch_store st) m (transaction_keys st) (key_transactions st)
    (key_state_watcher st) (key_state_sender st) (fetch_sequence_number st).
Definition set_requests (tk : gmap Uuid (gset Bytes)) (kt : gmap Bytes (gset Uuid))
    (st : State) : State :=
  mkState (prefetch_store st) (key_state st) tk kt
    (key_state_watcher st) (key_state_sender st) (fetch_sequence_number st).
Definition set_senders (m : gmap Bytes watch) (st : State) : State :=
  mkState (prefetch_store st) (key_state st) (transaction_keys st)
    (key_transactions st) (key_state_watcher st) m (fetch_sequence_number st).
Definition set_sequence (n : N) (st : State) : State :=
  mkState (prefetch_store st) (key_state st) (transaction_keys st)
    (key_transactions st) (key_state_watcher st) (key_state_sender st) n.

(** ** Operations *)

Definition get_from_buffer (key : Bytes) (st : State) : option Bytes :=
  prefetch_store st !! key.

Definition add_to_transaction_keys (tk : gmap Uuid (gset Bytes))
    (transaction_id : Uuid) (key : Bytes) : gmap Uuid (gset Bytes) :=
  match tk !! transaction_id with
  | Some s => <[transaction_id := {[key]} ∪ s]> tk
  | None => <[transaction_id := {[key]}]> tk
  end.

Definition add_to_key_transactions (kt : gmap Bytes (gset Uuid))
    (transaction_id : Uuid) (key : Bytes) : gmap Bytes (gset Uuid) :=
  match kt !! key with
  | Some s => <[key := {[transaction_id]} ∪ s]> kt
  | None => <[key := {[transaction_id]}]> kt
  end.

(** [fetch_sequence_number += 1] on a [u64] *)
Definition seq_succ (n : N) : N := ((n + 1) mod 2 ^ 64)%N.

(** [false] is the error of a key that was never requested; the insertion has
    happened by then *)
Definition change_keystate_to_loading (key : Bytes) (n : N) (st : State)
    : State * bool :=
  let st1 := set_key_state (<[key := Loading n]> (key_state st)) st in
  match key_state st !! key with
  | None => (st1, false)
  | Some _ =>
      match key_state_watcher st1 !! key with
      | Some _ => (st1, true)
      | None =>
          (mkState (prefetch_store st1) (key_state st1) (transaction_keys st1)
             (key_transactions st1)
             (<[key := 0]> (key_state_watcher st1))
             (<[key := mkWatch (Loading n) 0]> (key_state_sender st1))
             (fetch_sequence_number st1), true)
      end
  end.

(** what the first critical section of [process_prefetch_request] decides *)
Inductive begin_result :=
| Return (k : KeyState)   (* the call returns *)
| Wait (n : N)            (* the call waits for the fetch numbered [n] *)
| BeginPanic.

Definition request_begin (transaction_id : Uuid) (key : Bytes) (st : State)
    : State * begin_result :=
  let st1 := set_requests (add_to_transaction_keys (transaction_keys st) transaction_id key)
               (add_to_key_transactions (key_transactions st) transaction_id key) st in
  (* entry(key).or_insert_with(...) *)
  let st2 :=
    match key_state st1 !! key with
    | Some _ => st1
    | None =>
        let n := seq_succ (fetch_sequence_number st1) in
        set_sequence n (set_key_state (<[key := Requested n]> (key_state st1)) st1)
    end in
  match key_state st2 !! key with
  | Some Fetched => (st2, Return Fetched)
  | Some (Loading n) => (st2, Wait n)
  | Some (Requested n) =>
      let (st3, ok) := change_keystate_to_loading key n st2 in
      (st3, if ok then Return (Requested n) else BeginPanic)
  | None => (st2, BeginPanic)
  end.

(** A waiting call clones the stored receiver, awaits [changed()], which is
    ready when the channel's version is not the one the clone has seen, and
    borrows the value. [None] is "still pending". *)
Inductive observation :=
| ObsReturn (k : KeyState)
| ObsRetry.

Definition request_observe (key : Bytes) (n : N) (st : State) : option observation :=
  match key_state_watcher st !! key, key_state_sender st !! key with
  | Some seen, Some w =>
      if decide (watch_version w = seen) then None
      else if decide (watch_value w = Fetched) then Some (ObsReturn Fetched)
      else Some ObsRetry
  | _, _ => Some (ObsReturn (Loading n))
  end.

(** the fetch failed: lock again and take it over; the boolean is false when
    the [unwrap] panics *)
Definition request_retry (key : Bytes) (n : N) (st : State) : State * begin_result :=
  let (st', ok) := change_keystate_to_loading key n st in
  (st', if ok then Return (Requested n) else BeginPanic).

Definition notify (key : Bytes) (v : KeyState) (st : State) : State :=
  match key_state_sender st !! key with
  | Some w => set_senders (<[key := watch_send v w]> (key_state_sender st)) st
  | None => st
  end.

Definition fetch_complete (key : Bytes) (value : option Bytes)
    (fetch_sequence_number : N) (st : State) : State :=
  match key_state st !! key with
  | Some (Loading n) =>
      if decide (n = fetch_sequence_number) then
        let st1 :=
          match value with
          | Some data => set_store (<[key := data]> (prefetch_store st)) st
          | None => st
          end in
        let st2 := set_key_state (<[key := Fetched]> (key_state st1)) st1 in
        notify key Fetched st2
      else st
  | _ => st
  end.

Definition fetch_failed (key : Bytes) (fetch_sequence_number : N) (st : State)
    : State :=
  match key_state st !! key with
  | Some (Loading n) =>
      if decide (n = fetch_sequence_number) then
        let st1 :=
          set_key_state (<[key := Requested fetch_sequence_number]> (key_state st)) st in
        notify key (Requested fetch_sequence_number) st1
      else st
  | _ => st
  end.

Definition evict_key (key : Bytes) (st : State) : State :=
  set_key_state (delete key (key_state st))
    (set_store (delete key (prefetch_store st)) st).

Definition remove_from_key_transactions (kt : gmap Bytes (gset Uuid))
    (transaction_id : Uuid) (key : Bytes) : gmap Bytes (gset Uuid) :=
  match kt !! key with
  | Some s =>
      let s' := s ∖ {[transaction_id]} in
      if decide (s' = ∅) then delete key kt else <[key := s']> kt
  | None => kt
  end.

(** the body of the loop of [process_transaction_complete] *)
Definition complete_key (transaction_id : Uuid) (st : State) (key : Bytes) : State :=
  let kt := remove_from_key_transactions (key_transactions st) transaction_id key in
  let st1 := set_requests (transaction_keys st) kt st in
  match kt !! key with
  | Some _ => st1
  | None => evict_key key st1
  end.

(** a [BTreeSet] iterates in key order; the loop's result does not depend on
    it, [elements] is one order *)
Definition process_transaction_complete (transaction_id : Uuid) (st : State)
    : State :=
  let st1 :=
    match transaction_keys st !! transaction_id with
    | Some keys => foldl (complete_key transaction_id) st (elements keys)
    | None => st
    end in
  set_requests (delete transaction_id (transaction_keys st1)) (key_transactions st1) st1.

Definition upsert (key value : Bytes) (st : State) : State :=
  set_store (<[key := value]> (prefetch_store st)) st.

Definition buffer_delete (key : Bytes) (st : State) : State :=
  match key_state st !! key with
  | None => st
  | Some ks =>
      let st1 := set_store (delete key (prefetch_store st)) st in
      match ks with
      | Loading _ =>
          notify key Fetched
            (set_key_state (<[key := Fetched]> (key_state st1)) st1)
      | _ => st1
      end
  end.

(** ** Tasks running [prefetch] *)

Inductive task :=
| Waiting (key : Bytes) (n : N)    (* in [receiver.changed().await] *)
| Retrying (key : Bytes) (n : N)   (* saw a failed fetch, about to lock *)
| Fetching (key : Bytes) (n : N).  (* in [prefetch_get] *)

Definition task_key (t : task) : Bytes :=
  match t with Waiting k _ | Retrying k _ | Fetching k _ => k end.
Definition task_seq (t : task) : N :=
  match t with Waiting _ n | Retrying _ n | Fetching _ n => n end.

Definition after_begin (key : Bytes) (r : begin_result) : list task :=
  match r with
  | Return (Requested n) => [Fetching key n]
  | Wait n => [Waiting key n]
  | Return _ | BeginPanic => []
  end.

(** Any interleaving of the critical sections of the buffer's callers. The
    value of [prefetch_get] is the storage's: any [option Bytes]. A caller may
    also be cancelled at an await. *)
Inductive step : State * list task -> State * list task -> Prop :=
| step_begin st ts t k :
    step (st, ts) ((request_begin t k st).1,
                   after_begin k (request_begin t k st).2 ++ ts)
| step_observe_return st ts1 ts2 k n r :
    request_observe k n st = Some (ObsReturn r) ->
    step (st, ts1 ++ Waiting k n :: ts2) (st, ts1 ++ ts2)
| step_observe_retry st ts1 ts2 k n :
    request_observe k n st = Some ObsRetry ->
    step (st, ts1 ++ Waiting k n :: ts2) (st, ts1 ++ Retrying k n :: ts2)
| step_retry st ts1 ts2 k n :
    step (st, ts1 ++ Retrying k n :: ts2)
         ((request_retry k n st).1,
          after_begin k (request_retry k n st).2 ++ ts1 ++ ts2)
| step_complete st ts1 ts2 k n v :
    step (st, ts1 ++ Fetching k n :: ts2) (fetch_complete k v n st, ts1 ++ ts2)
| step_failed st ts1 ts2 k n :
    step (st, ts1 ++ Fetching k n :: ts2) (fetch_failed k n st, ts1 ++ ts2)
| step_cancel st ts1 ts2 t : step (st, ts1 ++ t :: ts2) (st, ts1 ++ ts2)
| step_done st ts t : step (st, ts) (process_transaction_complete t st, ts)
| step_upsert st ts k v : step (st, ts) (upsert k v st, ts)
| step_delete st ts k : step (st, ts) (buffer_delete k st, ts).

(** ** Invariants *)

Definition keys_of (st : State) (t : Uuid) : gset Bytes :=
  default ∅ (transaction_keys st !! t).
Definition requesters (st : State) (k : Bytes) : gset Uuid :=
  default ∅ (key_transactions st !! k).

(** The two request tables are inverse relations, and a key with no
    requester has no entry. *)
Record tables_ok (st : State) : Prop := {
  tables_inverse : forall t k, k ∈ keys_of st t <-> t ∈ requesters st k;
  tables_nonempty : forall k s, key_transactions st !! k = Some s -> s ≠ ∅
}.

(** A sequence number in use: by the state of a key or by a running task. *)
Inductive in_use : State * list task -> Bytes -> N -> Prop :=
| use_loading st ts k n : key_state st !! k = Some (Loading n) -> in_use (st, ts) k n
| use_requested st ts k n : key_state st !! k = Some (Requested n) -> in_use (st, ts) k n
| use_task st ts t : t ∈ ts -> in_use (st, ts) (task_key t) (task_seq t).

(** After at most [b] steps the numbers in use are at most the counter,
    which is at most [b], and no number is used for two keys. *)
Record numbers_ok (b : nat) (c : State * list task) : Prop := {
  numbers_bound : (fetch_sequence_number c.1 <= N.of_nat b)%N;
  numbers_used : forall k n, in_use c k n -> (n <= fetch_sequence_number c.1)%N;
  numbers_inj : forall k k' n, in_use c k n -> in_use c k' n -> k = k'
}.

(** The channel of a key that is being loaded, or that a task works on,
    exists. *)
Record channels_ok (c : State * list task) : Prop := {
  channels_paired : forall k,
    is_Some (key_state_watcher c.1 !! k) <-> is_Some (key_state_sender c.1 !! k);
  channels_loading : forall k n, key_state c.1 !! k = Some (Loading n) ->
    is_Some (key_state_sender c.1 !! k);
  channels_task : forall t, t ∈ c.2 -> is_Some (key_state_sender c.1 !! task_key t)
}.

(** [s] without [t], as [remove_from_key_transactions] leaves it *)
Definition without (t : Uuid) (o : option (gset Uuid)) : option (gset Uuid) :=
  s ← o; if decide (s ∖ {[t]} = ∅) then None else Some (s ∖ {[t]}).

(** ** Completing a transaction *)

Lemma remove_lookup kt t k k' :
  remove_from_key_transactions kt t k !! k' =
  if decide (k' = k) then without t (kt !! k) else kt !! k'.
Proof.
  unfold remove_from_key_transactions, without.
  destruct (kt !! k) as [s|] eqn:E; simpl.
  - case_decide; case_decide; subst;
      by rewrite ?lookup_delete_eq, ?lookup_delete_ne, ?lookup_insert_eq, ?lookup_insert_ne.
  - by case_decide; subst.
Qed.

(** projections of the field updates *)
Ltac fields :=
  cbn [set_store set_key_state set_requests set_senders set_sequence evict_key
       prefetch_store key_state transaction_keys key_transactions
       key_state_watcher key_state_sender fetch_sequence_number fst snd] in *.

(** the body of the loop, at one key *)
Lemma complete_key_lookup t st k k' :
  let st' := complete_key t st k in
  let gone := k' = k /\ without t (key_transactions st !! k) = None in
  key_transactions st' !! k' =
    (if decide (k' = k) then without t (key_transactions st !! k)
     else key_transactions st !! k') /\
  prefetch_store st' !! k' = (if decide gone then None else prefetch_store st !! k') /\
  key_state st' !! k' = (if decide gone then None else key_state st !! k').
Proof.
  intros st' gone; unfold st', complete_key. rewrite remove_lookup.
  rewrite (decide_True (P := k = k)) by done.
  destruct (without _ _) eqn:E; fields; rewrite remove_lookup, E.
  - by rewrite !(decide_False (P := gone)) by (unfold gone; naive_solver).
  - destruct (decide (k' = k)) as [->|].
    + by rewrite !lookup_delete_eq, !(decide_True (P := gone)).
    + by rewrite !lookup_delete_ne, !(decide_False (P := gone)) by (unfold gone; naive_solver).
Qed.

Lemma complete_key_frame t st k :
  let st' := complete_key t st k in
  transaction_keys st' = transaction_keys st /\
  key_state_watcher st' = key_state_watcher st /\
  key_state_sender st' = key_state_sender st /\
  fetch_sequence_number st' = fetch_sequence_number st.
Proof. unfold complete_key; cbv zeta; by case_match. Qed.

Lemma complete_keys_frame t ks st :
  let st' := foldl (complete_key t) st ks in
  transaction_keys st' = transaction_keys st /\
  key_state_watcher st' = key_state_watcher st /\
  key_state_sender st' = key_state_sender st /\
  fetch_sequence_number st' = fetch_sequence_number st.
Proof.
  revert st; induction ks as [|k ks IH]; intros st; [done|]; simpl.
  destruct (IH (complete_key t st k)) as (-> & -> & -> & ->).
  apply complete_key_frame.
Qed.

Lemma complete_keys_lookup t ks st k' :
  NoDup ks ->
  let st' := foldl (complete_key t) st ks in
  let gone := k' ∈ ks /\ without t (key_transactions st !! k') = None in
  key_transactions st' !! k' =
    (if decide (k' ∈ ks) then without t (key_transactions st !! k')
     else key_transactions st !! k') /\
  prefetch_store st' !! k' = (if decide gone then None else prefetch_store st !! k') /\
  key_state st' !! k' = (if decide gone then None else key_state st !! k').
Proof.
  revert st; induction ks as [|k ks IH]; intros st Hnd; simpl.
  - done.
  - apply NoDup_cons in Hnd as [Hk Hnd].
    specialize (IH (complete_key t st k) Hnd); simpl in IH.
    destruct IH as (-> & -> & ->).
    destruct (complete_key_lookup t st k k') as (-> & -> & ->).
    destruct (decide (k' = k)) as [->|Hne].
    + rewrite (decide_False (P := k ∈ ks)), (decide_True (P := k ∈ k :: ks)) by
        (done || by left).
      rewrite !(decide_False (P := k ∈ ks /\ _)) by naive_solver.
      split_and!; [done|..]; apply decide_ext; rewrite elem_of_cons; naive_solver.
    + rewrite !(decide_False (P := k' = k /\ _)) by naive_solver.
      split_and!; apply decide_ext; rewrite elem_of_cons; naive_solver.
Qed.

(** ** What each operation leaves alone *)

Lemma change_frame k n st :
  let st' := (change_keystate_to_loading k n st).1 in
  transaction_keys st' = transaction_keys st /\
  key_transactions st' = key_transactions st /\
  prefetch_store st' = prefetch_store st /\
  fetch_sequence_number st' = fetch_sequence_number st /\
  key_state st' = <[k := Loading n]> (key_state st).
Proof. unfold change_keystate_to_loading; by repeat case_match. Qed.

(** the state of the key after the [or_insert_with] *)
Definition begun (key : Bytes) (st : State) : KeyState :=
  default (Requested (seq_succ (fetch_sequence_number st))) (key_state st !! key).

Lemma begin_frame t k st :
  let st' := (request_begin t k st).1 in
  transaction_keys st' = add_to_transaction_keys (transaction_keys st) t k /\
  key_transactions st' = add_to_key_transactions (key_transactions st) t k /\
  prefetch_store st' = prefetch_store st /\
  fetch_sequence_number st' =
    match key_state st !! k with
    | Some _ => fetch_sequence_number st
    | None => seq_succ (fetch_sequence_number st)
    end /\
  (request_begin t k st).2 =
    match begun k st with
    | Fetched => Return Fetched
    | Loading n => Wait n
    | Requested n => Return (Requested n)
    end /\
  key_state st' =
    match begun k st with
    | Requested n =>
        match key_state st !! k with
        | Some _ => <[k := Loading n]> (key_state st)
        | None => <[k := Loading n]> (<[k := Requested n]> (key_state st))
        end
    | _ => key_state st
    end.
Proof.
  unfold request_begin, begun, change_keystate_to_loading; fields.
  destruct (key_state st !! k) as [[]|] eqn:E; fields; rewrite ?E; fields;
    rewrite ?lookup_insert_eq; simpl; repeat case_match; simplify_eq/=;
    rewrite ?lookup_insert_eq in *; simplify_eq/=; fields; split_and!; try done.
Qed.

Lemma notify_frame k v st :
  let st' := notify k v st in
  transaction_keys st' = transaction_keys st /\
  key_transactions st' = key_transactions st /\
  prefetch_store st' = prefetch_store st /\
  fetch_sequence_number st' = fetch_sequence_number st /\
  key_state_watcher st' = key_state_watcher st /\
  key_state st' = key_state st.
Proof. unfold notify; by case_match. Qed.

(** ** Preservation of the invariants *)

Lemma tables_ok_frame st st' :
  transaction_keys st' = transaction_keys st ->
  key_transactions st' = key_transactions st ->
  tables_ok st -> tables_ok st'.
Proof.
  intros Ht Hk [Hinv Hne]; constructor.
  - intros t k. specialize (Hinv t k). unfold keys_of, requesters in *.
    by rewrite Ht, Hk.
  - by rewrite Hk.
Qed.

Lemma add_keys_elem tk t k t' k' :
  k' ∈ default ∅ (add_to_transaction_keys tk t k !! t') <->
  (t' = t /\ k' = k) \/ k' ∈ default ∅ (tk !! t').
Proof.
  unfold add_to_transaction_keys.
  destruct (decide (t' = t)) as [->|].
  - destruct (tk !! t) eqn:E; rewrite lookup_insert_eq; simpl; set_solver.
  - destruct (tk !! t) eqn:E; rewrite lookup_insert_ne by done; naive_solver.
Qed.

Lemma add_requesters_elem kt t k t' k' :
  t' ∈ default ∅ (add_to_key_transactions kt t k !! k') <->
  (t' = t /\ k' = k) \/ t' ∈ default ∅ (kt !! k').
Proof.
  unfold add_to_key_transactions.
  destruct (decide (k' = k)) as [->|].
  - destruct (kt !! k) eqn:E; rewrite lookup_insert_eq; simpl; set_solver.
  - destruct (kt !! k) eqn:E; rewrite lookup_insert_ne by done; naive_solver.
Qed.

Lemma add_requesters_nonempty kt t k k' s :
  (forall k s, kt !! k = Some s -> s ≠ ∅) ->
  add_to_key_transactions kt t k !! k' = Some s -> s ≠ ∅.
Proof.
  intros Hne. unfold add_to_key_transactions.
  destruct (decide (k' = k)) as [->|]; [|case_match; rewrite lookup_insert_ne by done; eauto].
  case_match; rewrite lookup_insert_eq; intros [= <-]; set_solver.
Qed.

Lemma begin_tables_ok t k st : tables_ok st -> tables_ok (request_begin t k st).1.
Proof.
  intros [Hinv Hne]. destruct (begin_frame t k st) as (Ht & Hk & _).
  constructor.
  - intros t' k'; specialize (Hinv t' k'). unfold keys_of, requesters in *.
    rewrite Ht, Hk, add_keys_elem, add_requesters_elem. tauto.
  - intros k' s. rewrite Hk. by apply add_requesters_nonempty.
Qed.

Lemma without_elem t o t' :
  t' ∈ default ∅ (without t o) <-> t' ∈ default ∅ o /\ t' ≠ t.
Proof.
  unfold without. destruct o as [s|]; simpl; [|set_solver].
  case_decide as E; simpl; [|set_solver].
  split; [set_solver|]. intros [? ?].
  assert (t' ∈ s ∖ {[t]}) by set_solver. set_solver.
Qed.

Lemma done_tables t st :
  let st' := process_transaction_complete t st in
  let gone k := k ∈ keys_of st t /\ without t (key_transactions st !! k) = None in
  transaction_keys st' = delete t (transaction_keys st) /\
  forall k,
    key_transactions st' !! k =
      (if decide (k ∈ keys_of st t) then without t (key_transactions st !! k)
       else key_transactions st !! k) /\
    prefetch_store st' !! k = (if decide (gone k) then None else prefetch_store st !! k) /\
    key_state st' !! k = (if decide (gone k) then None else key_state st !! k).
Proof.
  unfold process_transaction_complete, keys_of; cbv zeta; fields.
  destruct (transaction_keys st !! t) as [keys|]; cbn [default from_option id].
  - destruct (complete_keys_frame t (elements keys) st) as (-> & _).
    split; [done|]; intros k.
    destruct (complete_keys_lookup t (elements keys) st k (NoDup_elements keys))
      as (-> & -> & ->).
    split_and!; apply decide_ext; by rewrite elem_of_elements.
  - split; [done|]; intros k.
    by rewrite !decide_False by set_solver.
Qed.

Lemma done_tables_ok t st : tables_ok st -> tables_ok (process_transaction_complete t st).
Proof.
  intros [Hinv Hne]. destruct (done_tables t st) as (Ht & Hk).
  constructor.
  - intros t' k; pose proof (Hinv t' k) as Htk; pose proof (Hinv t k) as H'.
    destruct (Hk k) as (Hk' & _). unfold keys_of, requesters in *. rewrite Ht, Hk'.
    destruct (decide (t' = t)) as [->|].
    + rewrite lookup_delete_eq; simpl.
      case_decide; [rewrite without_elem|]; set_solver.
    + rewrite lookup_delete_ne by done.
      case_decide; [rewrite without_elem|]; naive_solver.
  - intros k s. destruct (Hk k) as (-> & _). case_decide; [|by apply Hne].
    unfold without. destruct (_ !! k); simpl; [|done]. case_decide; [done|]. by intros [= <-].
Qed.

(** Steps that hand out no number and start no load. *)
Record quiet (st st' : State) : Prop := {
  quiet_seq : fetch_sequence_number st' = fetch_sequence_number st;
  quiet_watcher : key_state_watcher st' = key_state_watcher st;
  quiet_sender : forall k,
    is_Some (key_state_sender st' !! k) <-> is_Some (key_state_sender st !! k);
  quiet_loading : forall k n, key_state st' !! k = Some (Loading n) ->
    key_state st !! k = Some (Loading n);
  quiet_requested : forall k n, key_state st' !! k = Some (Requested n) ->
    key_state st !! k = Some (Requested n) \/ key_state st !! k = Some (Loading n)
}.

Lemma quiet_store m st : quiet st (set_store m st).
Proof. constructor; naive_solver. Qed.

#[local] Instance quiet_refl : Reflexive quiet.
Proof. intros st; constructor; naive_solver. Qed.

#[local] Instance quiet_trans : Transitive quiet.
Proof.
  intros st1 st2 st3 [] []; constructor; [congruence|congruence|naive_solver..].
Qed.

Lemma quiet_notify k v st : quiet st (notify k v st).
Proof.
  unfold notify. destruct (key_state_sender st !! k) eqn:E; [|reflexivity].
  constructor; fields; try naive_solver.
  intros k'. rewrite lookup_insert_is_Some. destruct (decide (k = k')); naive_solver.
Qed.

Lemma quiet_set_state k v n st :
  key_state st !! k = Some (Loading n) -> v = Fetched \/ v = Requested n ->
  quiet st (set_key_state (<[k := v]> (key_state st)) st).
Proof.
  intros Hk Hv; constructor; fields; try done.
  - intros k' m. destruct (decide (k = k')) as [->|].
    + rewrite lookup_insert_eq. naive_solver.
    + by rewrite lookup_insert_ne.
  - intros k' m. destruct (decide (k = k')) as [->|].
    + rewrite lookup_insert_eq. naive_solver.
    + rewrite lookup_insert_ne by done; auto.
Qed.

Lemma quiet_complete k v n st : quiet st (fetch_complete k v n st).
Proof.
  unfold fetch_complete. destruct (_ !! k) as [[|m|]|] eqn:E; try reflexivity.
  case_decide; [|reflexivity]. cbv zeta.
  etransitivity; [|apply quiet_notify].
  destruct v; (etransitivity; [|eapply quiet_set_state; [exact E|by left]]);
    [apply quiet_store|reflexivity].
Qed.

Lemma quiet_failed k n st : quiet st (fetch_failed k n st).
Proof.
  unfold fetch_failed. destruct (_ !! k) as [[|m|]|] eqn:E; try reflexivity.
  case_decide; [subst|reflexivity]. cbv zeta.
  etransitivity; [|apply quiet_notify].
  eapply quiet_set_state; [exact E|by right].
Qed.

Lemma quiet_delete k st : quiet st (buffer_delete k st).
Proof.
  unfold buffer_delete. destruct (_ !! k) as [[|m|]|] eqn:E; try apply quiet_store;
    [|reflexivity].
  etransitivity; [|apply quiet_notify].
  etransitivity; [apply (quiet_store (delete k (prefetch_store st)))|].
  eapply quiet_set_state; [exact E|by left].
Qed.

Lemma quiet_done t st : quiet st (process_transaction_complete t st).
Proof.
  unfold process_transaction_complete.
  destruct (transaction_keys st !! t) as [keys|]; [|constructor; naive_solver].
  destruct (complete_keys_frame t (elements keys) st) as (_ & Hw & Hs & Hn).
  pose proof (fun k => complete_keys_lookup t (elements keys) st k (NoDup_elements keys)) as Hl.
  constructor; fields; rewrite ?Hn, ?Hw, ?Hs; try done.
  - intros k n. destruct (Hl k) as (_ & _ & ->). by case_decide.
  - intros k n. destruct (Hl k) as (_ & _ & ->). case_decide; [done|auto].
Qed.

(** the tables under the same steps *)
Lemma complete_tables k v n st : tables_ok st -> tables_ok (fetch_complete k v n st).
Proof.
  apply tables_ok_frame; unfold fetch_complete, notify; by repeat case_match.
Qed.

Lemma failed_tables k n st : tables_ok st -> tables_ok (fetch_failed k n st).
Proof. apply tables_ok_frame; unfold fetch_failed, notify; by repeat case_match. Qed.

Lemma delete_tables k st : tables_ok st -> tables_ok (buffer_delete k st).
Proof. apply tables_ok_frame; unfold buffer_delete, notify; by repeat case_match. Qed.

Lemma retry_eq k n st :
  (request_retry k n st).1 = (change_keystate_to_loading k n st).1.
Proof. unfold request_retry. by destruct (change_keystate_to_loading k n st). Qed.

Lemma retry_tables k n st : tables_ok st -> tables_ok (request_retry k n st).1.
Proof.
  rewrite retry_eq. destruct (change_frame k n st) as (? & ? & _).
  by apply tables_ok_frame.
Qed.

Lemma step_tables c c' : step c c' -> tables_ok c.1 -> tables_ok c'.1.
Proof.
  destruct 1; simpl;
    eauto using begin_tables_ok, retry_tables, complete_tables, failed_tables,
      done_tables_ok, delete_tables.
  by apply tables_ok_frame.
Qed.

Lemma uses_tasks st ts ts' :
  (forall t, t ∈ ts' -> exists t', t' ∈ ts /\ task_key t' = task_key t /\ task_seq t' = task_seq t) ->
  forall k n, in_use (st, ts') k n -> in_use (st, ts) k n.
Proof.
  intros Hts k n; inversion 1; subst; [by constructor|by constructor|].
  destruct (Hts t) as (t' & ? & <- & <-); [done|]. by apply use_task.
Qed.

Lemma quiet_uses st st' ts :
  quiet st st' -> forall k n, in_use (st', ts) k n -> in_use (st, ts) k n.
Proof.
  intros Hq k n; inversion 1; subst.
  - by apply use_loading, (quiet_loading _ _ Hq).
  - edestruct (quiet_requested _ _ Hq) as [?|?]; [done|by apply use_requested|by apply use_loading].
  - by apply use_task.
Qed.

(** the key whose state is read by [request_begin] uses its number *)
Lemma begun_in_use k n st ts :
  begun k st = Requested n \/ begun k st = Loading n ->
  in_use (st, ts) k n \/
  (key_state st !! k = None /\ n = seq_succ (fetch_sequence_number st)).
Proof.
  unfold begun. destruct (key_state st !! k) as [[|m|m]|] eqn:E; simpl; intros [[=]|[=]];
    subst; eauto using use_loading, use_requested.
Qed.

Lemma begin_uses t k st ts k' n :
  in_use ((request_begin t k st).1, after_begin k (request_begin t k st).2 ++ ts) k' n ->
  in_use (st, ts) k' n \/
  (k' = k /\ key_state st !! k = None /\ n = seq_succ (fetch_sequence_number st)).
Proof.
  destruct (begin_frame t k st) as (_ & _ & _ & _ & Hr & Hk).
  assert (Hstate : forall v, key_state (request_begin t k st).1 !! k' = Some v ->
            key_state st !! k' = Some v \/
            (k' = k /\ exists m, v = Loading m /\ begun k st = Requested m)).
  { intros v. rewrite Hk. destruct (begun k st) as [|m|m]; [auto..|].
    destruct (decide (k' = k)) as [->|].
    - case_match; rewrite lookup_insert_eq; intros [= <-]; eauto.
    - case_match; rewrite !lookup_insert_ne by done; auto. }
  intros Hu; inversion Hu as [? ? ? ? Hst|? ? ? ? Hst|? ? ? Hin]; subst.
  - destruct (Hstate _ Hst) as [?|(-> & m & [= ->] & Hm)]; [left; by apply use_loading|].
    destruct (begun_in_use k m st ts) as [?|[? ?]]; auto.
  - destruct (Hstate _ Hst) as [?|(-> & m & [=] & Hm)]. left; by apply use_requested.
  - rewrite Hr in *. destruct (begun k st) as [|m|m] eqn:Eb; simpl in *.
    + left; by apply use_task.
    + apply elem_of_cons in Hin as [->|?]; [|left; by apply use_task]; simpl.
      destruct (begun_in_use k m st ts) as [?|[? ?]]; auto.
    + apply elem_of_cons in Hin as [->|?]; [|left; by apply use_task]; simpl.
      destruct (begun_in_use k m st ts) as [?|[? ?]]; auto.
Qed.

Lemma retry_uses k n st ts1 ts2 k' n' :
  in_use ((request_retry k n st).1,
          after_begin k (request_retry k n st).2 ++ ts1 ++ ts2) k' n' ->
  in_use (st, ts1 ++ Retrying k n :: ts2) k' n'.
Proof.
  assert (Ht : in_use (st, ts1 ++ Retrying k n :: ts2) k n).
  { apply (use_task _ _ (Retrying k n)). in_list. }
  destruct (change_frame k n st) as (_ & _ & _ & _ & Hk).
  rewrite retry_eq.
  inversion 1; subst.
  - rewrite Hk in *. destruct (decide (k' = k)) as [->|].
    + rewrite lookup_insert_eq in *. by simplify_eq.
    + rewrite lookup_insert_ne in * by done. by apply use_loading.
  - rewrite Hk in *. destruct (decide (k' = k)) as [->|].
    + rewrite lookup_insert_eq in *. by simplify_eq.
    + rewrite lookup_insert_ne in * by done. by apply use_requested.
  - assert (t = Fetching k n \/ t ∈ ts1 ++ ts2) as [->|?].
    { unfold request_retry in *. destruct (change_keystate_to_loading k n st) as [? []]; simpl in *.
      - match goal with H : _ ∈ _ :: _ |- _ => apply elem_of_cons in H end. tauto.
      - auto. }
    + done.
    + by apply use_task, elem_of_middle.
Qed.

Lemma numbers_quiet b c c' :
  fetch_sequence_number c'.1 = fetch_sequence_number c.1 ->
  (forall k n, in_use c' k n -> in_use c k n) ->
  numbers_ok b c -> numbers_ok (S b) c'.
Proof.
  intros Hs Hu [Hb Hl Hi]; constructor; rewrite ?Hs; [lia|eauto..].
Qed.

Lemma seq_succ_small n : (n < 2 ^ 64 - 1)%N -> seq_succ n = (n + 1)%N.
Proof. intros; unfold seq_succ. apply N.mod_small. lia. Qed.

Lemma numbers_begin b t k st ts :
  (N.of_nat b < 2 ^ 64 - 1)%N ->
  numbers_ok b (st, ts) ->
  numbers_ok (S b) ((request_begin t k st).1, after_begin k (request_begin t k st).2 ++ ts).
Proof.
  intros Hsmall [Hb Hl Hi]; simpl in *.
  destruct (begin_frame t k st) as (_ & _ & _ & Hs & _).
  assert (Hsucc : seq_succ (fetch_sequence_number st) = (fetch_sequence_number st + 1)%N).
  { apply seq_succ_small. lia. }
  rewrite Hsucc in Hs. constructor; simpl.
  - rewrite Hs. case_match; lia.
  - intros k' n [Hu|(-> & E & ->)]%begin_uses.
    + apply Hl in Hu. rewrite Hs. case_match; lia.
    + rewrite Hs, E, Hsucc. lia.
  - intros k1 k2 n [H1|(-> & E1 & ->)]%begin_uses [H2|(-> & E2 & E)]%begin_uses; eauto.
    + apply Hl in H1. lia.
    + apply Hl in H2. lia.
Qed.

Lemma step_numbers b c c' :
  (N.of_nat b < 2 ^ 64 - 1)%N -> step c c' -> numbers_ok b c -> numbers_ok (S b) c'.
Proof.
  intros Hb Hstep; destruct Hstep; try (by apply numbers_begin);
    apply numbers_quiet; cbn [fst]; try reflexivity;
    try (by apply quiet_seq; auto using quiet_complete, quiet_failed, quiet_done, quiet_delete).
  - apply uses_tasks; intros t Ht; eauto with sangria.
  - apply uses_tasks; intros t Ht.
    apply elem_of_app in Ht as [?|[->|?]%elem_of_cons];
      [exists t|exists (Waiting k n)|exists t]; rewrite elem_of_app, elem_of_cons; auto.
  - destruct (change_frame k n st) as (_ & _ & _ & Hs & _). by rewrite retry_eq.
  - apply retry_uses.
  - intros k' m Hu. apply (quiet_uses st) in Hu; [|apply quiet_complete].
    revert Hu; apply uses_tasks; eauto with sangria.
  - intros k' m Hu. apply (quiet_uses st) in Hu; [|apply quiet_failed].
    revert Hu; apply uses_tasks; eauto with sangria.
  - apply uses_tasks; eauto with sangria.
  - apply quiet_uses, quiet_done.
  - apply quiet_uses, quiet_store.
  - apply quiet_uses, quiet_delete.
Qed.

Lemma channels_quiet st st' ts ts' :
  quiet st st' ->
  (forall t, t ∈ ts' -> exists t', t' ∈ ts /\ task_key t' = task_key t) ->
  channels_ok (st, ts) -> channels_ok (st', ts').
Proof.
  intros Hq Hts [Hp Hl Ht]; simpl in *; constructor; simpl.
  - intros k. by rewrite (quiet_watcher _ _ Hq), (quiet_sender _ _ Hq).
  - intros k n ?%(quiet_loading _ _ Hq). rewrite (quiet_sender _ _ Hq). eauto.
  - intros t (t' & ? & <-)%Hts. rewrite (quiet_sender _ _ Hq). eauto.
Qed.

(** [change_keystate_to_loading] of a known key, or of a key with a channel *)
Lemma channels_change k n st ts :
  is_Some (key_state st !! k) \/ is_Some (key_state_sender st !! k) ->
  channels_ok (st, ts) ->
  channels_ok ((change_keystate_to_loading k n st).1, Fetching k n :: ts).
Proof.
  intros Hk [Hp Hl Ht]; simpl in *.
  assert (Hsnd : forall k', is_Some (key_state_sender (change_keystate_to_loading k n st).1 !! k')
            <-> is_Some (key_state_sender st !! k') \/ k' = k).
  { intros k'. unfold change_keystate_to_loading; fields.
    destruct (key_state st !! k), (key_state_watcher st !! k) eqn:Ew; fields.
    - split; [auto|]. intros [?| ->]; [done|]. apply Hp; by eexists.
    - rewrite lookup_insert_is_Some'. naive_solver.
    - split; [auto|]. intros [?| ->]; [done|]. apply Hp; by eexists.
    - split; [auto|]. intros [?| ->]; [done|]. destruct Hk as [[]|Hs]; done. }
  constructor; simpl.
  - intros k'; specialize (Hp k'). unfold change_keystate_to_loading; fields.
    case_match; [|done]. case_match; [done|]. fields.
    by rewrite !lookup_insert_is_Some', Hp.
  - intros k' m. rewrite Hsnd.
    destruct (change_frame k n st) as (_ & _ & _ & _ & ->).
    destruct (decide (k' = k)) as [->|]; [auto|].
    rewrite lookup_insert_ne by done. eauto.
  - intros t. rewrite Hsnd. intros [->|?]%elem_of_cons; [by right|left; eauto].
Qed.

Lemma channels_retry k n st ts1 ts2 :
  channels_ok (st, ts1 ++ Retrying k n :: ts2) ->
  channels_ok ((request_retry k n st).1,
               after_begin k (request_retry k n st).2 ++ ts1 ++ ts2).
Proof.
  intros Hc.
  assert (Hk : is_Some (key_state_sender st !! k)).
  { apply (channels_task _ Hc (Retrying k n)); cbn; auto with sangria. }
  assert (Hc' : channels_ok (st, ts1 ++ ts2)).
  { revert Hc. apply channels_quiet; [reflexivity|]. eauto with sangria. }
  apply (channels_change k n) in Hc' as [Hp Hl Ht]; [|by right].
  rewrite retry_eq. constructor; [done..|]. cbn [snd] in *.
  unfold request_retry. destruct (change_keystate_to_loading k n st) as [? []]; simpl; [done|].
  intros t ?. apply Ht. by right.
Qed.

Lemma channels_begin t k st ts :
  channels_ok (st, ts) ->
  channels_ok ((request_begin t k st).1, after_begin k (request_begin t k st).2 ++ ts).
Proof.
  intros Hc. unfold request_begin; cbv zeta.
  set (st1 := set_requests _ _ st).
  assert (Hc1 : channels_ok (st1, ts)) by (destruct Hc; by constructor).
  clearbody st1. clear Hc st.
  destruct (key_state st1 !! k) as [[|n|n]|] eqn:E; rewrite ?E.
  - done.
  - simpl. destruct Hc1 as [Hp Hl Ht]; constructor; simpl; [done..|].
    intros t' [->|?]%elem_of_cons; [|by apply Ht]. by apply (Hl _ n).
  - apply (channels_change k n) in Hc1; [|left; by eexists].
    unfold change_keystate_to_loading in *; fields. rewrite E in *.
    by destruct (key_state_watcher st1 !! k).
  - set (n := seq_succ _). set (st2 := set_sequence _ _).
    assert (E2 : key_state st2 !! k = Some (Requested n)) by apply lookup_insert_eq.
    assert (Hc2 : channels_ok (st2, ts)).
    { destruct Hc1 as [Hp Hl Ht]; constructor; [done| |done].
      intros k' m. unfold st2; fields. destruct (decide (k' = k)) as [->|].
      - by rewrite lookup_insert_eq.
      - rewrite lookup_insert_ne by done. apply Hl. }
    apply (channels_change k n) in Hc2; [|left; by eexists]. rewrite E2.
    unfold change_keystate_to_loading in *; cbv zeta in *; rewrite E2 in *.
    by destruct (key_state_watcher _ !! k).
Qed.

Lemma step_channels c c' : step c c' -> channels_ok c -> channels_ok c'.
Proof.
  destruct 1; try apply channels_begin; try apply channels_retry;
    apply channels_quiet; eauto using quiet_complete, quiet_failed, quiet_done,
      quiet_store, quiet_delete with sangria; try reflexivity.
  intros t Ht. apply elem_of_app in Ht as [?|[->|?]%elem_of_cons];
    [exists t|exists (Waiting k n)|exists t]; rewrite elem_of_app, elem_of_cons; auto.
Qed.

Lemma new_tables : tables_ok new.
Proof.
  constructor.
  - intros t k. unfold keys_of, requesters; simpl. rewrite !lookup_empty. set_solver.
  - intros k s. simpl. by rewrite lookup_empty.
Qed.

Lemma new_channels : channels_ok (new, []).
Proof.
  constructor; simpl;
    [intros k; rewrite !lookup_empty; by split; intros []|intros k n; by rewrite lookup_empty
    |by intros t ?%elem_of_nil].
Qed.

Lemma new_numbers : numbers_ok 0 (new, []).
Proof.
  assert (Hn : forall k n, ~ in_use (new, []) k n).
  { intros k n; inversion 1; subst; simpl in *;
      by rewrite ?lookup_empty, ?elem_of_nil in *. }
  constructor; simpl; [lia|..]; intros; by edestruct Hn.
Qed.

Lemma steps_numbers b c :
  nsteps step b (new, []) c -> (N.of_nat b < 2 ^ 64)%N -> numbers_ok b c.
Proof.
  revert c; induction b as [|b IH]; intros c Hs Hb.
  - inversion Hs; subst. apply new_numbers.
  - apply nsteps_inv_r in Hs as (c' & Hs & Hlast).
    apply (step_numbers b c'); [lia|done|]. apply IH; [done|lia].
Qed.

Lemma steps_tables c : rtc step (new, []) c -> tables_ok c.1.
Proof.
  revert c; apply (rtc_ind_r (fun c => tables_ok c.1)); [apply new_tables|].
  eauto using step_tables.
Qed.

Lemma steps_channels c : rtc step (new, []) c -> channels_ok c.
Proof.
  revert c; apply rtc_ind_r; [apply new_channels|]. eauto using step_channels.
Qed.

(** ** Properties *)

(** In every interleaving of prefetching tasks, of transactions that
    complete, of writes and of deletes, the table of the keys a transaction
    requested and the table of the transactions that requested a key are
    inverse relations, and no key with an empty requester set is kept. *)
Theorem request_tables_inverse st ts :
  rtc step (new, []) (st, ts) ->
  (forall t k, k ∈ keys_of st t <-> t ∈ requesters st k) /\
  (forall k, key_transactions st !! k <> Some ∅).
Proof.
  intros [Hinv Hne]%steps_tables; split; [done|].
  intros k Hk. by apply (Hne k ∅).
Qed.

(** When a transaction completes in a reachable state, exactly the keys
    that only it had requested are evicted, value and fetch state; the keys
    another transaction still requests keep both, and the transaction is in
    neither table any more. *)
Theorem complete_evicts_unrequested st ts t k :
  rtc step (new, []) (st, ts) ->
  let st' := process_transaction_complete t st in
  let evicted := requesters st k = {[t]} in
  get_from_buffer k st' = (if decide evicted then None else get_from_buffer k st) /\
  key_state st' !! k = (if decide evicted then None else key_state st !! k) /\
  keys_of st' t = ∅ /\
  requesters st' k = requesters st k ∖ {[t]}.
Proof.
  intros Hok%steps_tables st' evicted. cbn [fst] in Hok.
  assert (Hev : evicted <-> k ∈ keys_of st t /\ without t (key_transactions st !! k) = None).
  { unfold evicted. rewrite (tables_inverse _ Hok). unfold requesters, without.
    destruct (key_transactions st !! k) as [s|]; simpl; [|set_solver].
    case_decide; split; [set_solver| |set_solver|naive_solver].
    intros [? _]. apply set_eq. intros x; split; [|set_solver].
    destruct (decide (x = t)); set_solver. }
  destruct (done_tables t st) as (Ht & Hk).
  destruct (Hk k) as (Hkt & Hs & Hst). split_and!.
  - unfold get_from_buffer, st'. rewrite Hs. by apply decide_ext.
  - unfold st'. rewrite Hst. by apply decide_ext.
  - unfold keys_of, st'. by rewrite Ht, lookup_delete_eq.
  - apply set_eq; intros x. unfold requesters, st'. rewrite Hkt.
    rewrite elem_of_difference, elem_of_singleton.
    destruct (decide (k ∈ keys_of st t)) as [|Hd]; [by rewrite without_elem|].
    split; [|tauto]. intros Hx; split; [done|]. intros ->. by apply Hd, (tables_inverse _ Hok).
Qed.

(** A fetch that outlives the eviction of its key cannot corrupt a later
    one. In every run shorter than 2^64 steps, when a key that is not in the
    buffer is requested, the completion or the failure of any fetch of that
    key that is still running leaves the buffer as it is. *)
Theorem stale_fetch_ignored b st ts t k m v :
  nsteps step b (new, []) (st, ts) -> (N.of_nat b < 2 ^ 64 - 1)%N ->
  Fetching k m ∈ ts -> key_state st !! k = None ->
  let st' := (request_begin t k st).1 in
  fetch_complete k v m st' = st' /\ fetch_failed k m st' = st'.
Proof.
  intros Hs Hb Hin Hnone st'.
  destruct (steps_numbers b (st, ts) Hs) as [Hbound Hused _]; [lia|]. cbn [fst] in *.
  assert (Hm : (m <= fetch_sequence_number st)%N)
    by (by apply (Hused k), (use_task _ _ (Fetching k m))).
  assert (Hk : key_state st' !! k = Some (Loading (fetch_sequence_number st + 1)%N)).
  { destruct (begin_frame t k st) as (_ & _ & _ & _ & _ & Hk). unfold st'.
    rewrite Hk. unfold begun. rewrite Hnone; simpl.
    rewrite lookup_insert_eq, seq_succ_small; [done|lia]. }
  unfold fetch_complete, fetch_failed. rewrite Hk.
  by rewrite !decide_False by lia.
Qed.

(** A task that waits for another task's fetch is never told that the
    key is still loading: the outcome that [prefetch] reports as
    "Something is wrong" does not occur. *)
Theorem waiter_never_sees_loading st ts k n r :
  rtc step (new, []) (st, ts) -> Waiting k n ∈ ts ->
  request_observe k n st = Some (ObsReturn r) -> r = Fetched.
Proof.
  intros [Hp _ Ht]%steps_channels Hin. cbn [fst snd] in *.
  destruct (Ht _ Hin) as [w Hw]. simpl in Hw.
  destruct (proj2 (Hp k)) as [seen Hseen]; [by eexists|].
  unfold request_observe. rewrite Hseen, Hw.
  case_decide; [done|]. case_decide; by intros [= <-].
Qed.

(** Requesting a key that is not in the buffer, fetching it and reading
    it gives the fetched value; a second request finds it fetched. *)
Theorem prefetch_roundtrip t t' k v st :
  key_state st !! k = None ->
  let '(st1, r) := request_begin t k st in
  exists n, r = Return (Requested n) /\
    get_from_buffer k (fetch_complete k (Some v) n st1) = Some v /\
    (request_begin t' k (fetch_complete k (Some v) n st1)).2 = Return Fetched.
Proof.
  intros Hnone. destruct (request_begin t k st) as [st1 r] eqn:E.
  destruct (begin_frame t k st) as (_ & _ & _ & _ & Hr & Hk).
  rewrite E in *; simpl in *. unfold begun in *. rewrite Hnone in *; simpl in *.
  set (n := seq_succ _) in *. exists n; split; [done|].
  assert (Hc : fetch_complete k (Some v) n st1 =
    notify k Fetched (set_key_state (<[k := Fetched]> (key_state st1))
      (set_store (<[k := v]> (prefetch_store st1)) st1))).
  { unfold fetch_complete; rewrite Hk, lookup_insert_eq, decide_True by done.
    fields. by rewrite Hk. }
  destruct (notify_frame k Fetched (set_key_state (<[k := Fetched]> (key_state st1))
      (set_store (<[k := v]> (prefetch_store st1)) st1))) as (_ & _ & Hs & _ & _ & Hks).
  rewrite <- Hc in Hs, Hks. split.
  - unfold get_from_buffer. rewrite Hs. apply lookup_insert_eq.
  - destruct (begin_frame t' k (fetch_complete k (Some v) n st1)) as (_ & _ & _ & _ & -> & _).
    unfold begun. rewrite Hks; simpl. by rewrite lookup_insert_eq.
Qed.

(** The buffer can serve a value older than one written to it. A write
    that arrives while the key is being fetched is overwritten when the fetch
    completes, and a delete of a key that no prefetch requested leaves the
    value of an earlier write in place. *)
Theorem buffer_serves_stale_values t k v_old v_new st :
  key_state st !! k = None ->
  (let '(st1, r) := request_begin t k st in
   exists n, r = Return (Requested n) /\
     get_from_buffer k (fetch_complete k (Some v_old) n (upsert k v_new st1)) = Some v_old) /\
  get_from_buffer k (buffer_delete k (upsert k v_old st)) = Some v_old.
Proof.
  intros Hnone; split.
  - destruct (request_begin t k st) as [st1 r] eqn:E.
    destruct (begin_frame t k st) as (_ & _ & _ & _ & Hr & Hk).
    rewrite E in *; simpl in *. unfold begun in *. rewrite Hnone in *; simpl in *.
    set (n := seq_succ _) in *. exists n; split; [done|].
    unfold fetch_complete; simpl. rewrite Hk, lookup_insert_eq, decide_True by done.
    unfold get_from_buffer.
    match goal with |- context [notify k Fetched ?s] =>
      destruct (notify_frame k Fetched s) as (_ & _ & -> & _) end.
    apply lookup_insert_eq.
  - unfold buffer_delete, get_from_buffer; simpl. rewrite Hnone; simpl. apply lookup_insert_eq.
Qed.

(** ** Witnesses: a run in which transaction 1 requests a key, loses it to an
    eviction while its fetch is running, and transaction 2 requests it again. *)

Definition sample_key : Bytes := [7%N].
Definition sample_begun : State := (request_begin 1 sample_key new).1.
Definition sample_waiting : State := (request_begin 2 sample_key sample_begun).1.
Definition sample_evicted : State := process_transaction_complete 1 sample_begun.

Lemma sample_begun_steps :
  nsteps step 1 (new, []) (sample_begun, [Fetching sample_key 1%N]).
Proof.
  eapply nsteps_l; [|constructor]. exact (step_begin new [] 1 sample_key).
Qed.

Lemma sample_waiting_steps :
  rtc step (new, []) (sample_waiting, [Waiting sample_key 1%N; Fetching sample_key 1%N]).
Proof.
  eapply rtc_r; [eapply rtc_nsteps_2, sample_begun_steps|].
  exact (step_begin sample_begun [Fetching sample_key 1%N] 2 sample_key).
Qed.

Lemma sample_evicted_steps :
  nsteps step 2 (new, []) (sample_evicted, [Fetching sample_key 1%N]).
Proof.
  eapply nsteps_r; [apply sample_begun_steps|]. apply step_done.
Qed.

Lemma request_tables_inverse_witness :
  (forall t k, k ∈ keys_of sample_waiting t <-> t ∈ requesters sample_waiting k) /\
  (forall k, key_transactions sample_waiting !! k <> Some ∅).
Proof. exact (request_tables_inverse _ _ sample_waiting_steps). Defined.

Lemma complete_evicts_unrequested_witness :
  key_state (process_transaction_complete 1 sample_begun) !! sample_key = None /\
  key_state (process_transaction_complete 1 sample_waiting) !! sample_key =
    Some (Loading 1).
Proof.
  split.
  - destruct (complete_evicts_unrequested _ _ 1%N sample_key
      (rtc_nsteps_2 _ _ _ sample_begun_steps)) as (_ & -> & _). vm_compute. reflexivity.
  - destruct (complete_evicts_unrequested _ _ 1%N sample_key sample_waiting_steps)
      as (_ & -> & _). vm_compute. reflexivity.
Defined.

Lemma stale_fetch_ignored_witness :
  let st' := (request_begin 2 sample_key sample_evicted).1 in
  key_state st' !! sample_key = Some (Loading 2) /\
  fetch_complete sample_key (Some [9%N]) 1 st' = st' /\ fetch_failed sample_key 1 st' = st'.
Proof.
  split; [vm_compute; reflexivity|].
  apply (stale_fetch_ignored 2 sample_evicted [Fetching sample_key 1%N]).
  - apply sample_evicted_steps.
  - vm_compute; reflexivity.
  - left.
  - vm_compute; reflexivity.
Defined.

Lemma waiter_never_sees_loading_witness :
  let st' := fetch_complete sample_key (Some [9%N]) 1 sample_waiting in
  exists r, request_observe sample_key 1 st' = Some (ObsReturn r) /\ r = Fetched.
Proof.
  eexists; split; [vm_compute; reflexivity|].
  apply (waiter_never_sees_loading
           (fetch_complete sample_key (Some [9%N]) 1 sample_waiting)
           [Waiting sample_key 1%N] sample_key 1%N).
  - eapply rtc_r; [apply sample_waiting_steps|].
    apply (step_complete sample_waiting [Waiting sample_key 1%N] [] sample_key 1%N).
  - left.
  - vm_compute; reflexivity.
Defined.

Lemma prefetch_roundtrip_witness :
  let '(st1, r) := request_begin 1 sample_key new in
  exists n, r = Return (Requested n) /\
    get_from_buffer sample_key (fetch_complete sample_key (Some [9%N]) n st1) = Some [9%N] /\
    (request_begin 2 sample_key (fetch_complete sample_key (Some [9%N]) n st1)).2 = Return Fetched.
Proof. apply (prefetch_roundtrip 1 2 sample_key [9%N] new). reflexivity. Defined.

Lemma buffer_serves_stale_values_witness :
  (let '(st1, r) := request_begin 1 sample_key new in
   exists n, r = Return (Requested n) /\
     get_from_buffer sample_key
       (fetch_complete sample_key (Some [1%N]) n (upsert sample_key [2%N] st1)) = Some [1%N]) /\
  get_from_buffer sample_key (buffer_delete sample_key (upsert sample_key [1%N] new)) = Some [1%N].
Proof. apply (buffer_serves_stale_values 1 sample_key [1%N] [2%N] new). reflexivity. Defined.

End Prefetching.
