(* ===== verification/Storage.v ===== *)
(** * The storage layer of a range: [src/rangeserver/src/storage.rs] and
      [src/rangeserver/src/storage/cassandra.rs]

    [RangeStorage] is the trait [Storage] as the range manager uses it, with
    its laws. [Cassandra] implements it on a database that is a parameter: the
    class [Session] has one operation per CQL statement of the file and states
    what the CQL reference promises of it. *)

From stdpp Require Import base tactics list numbers option gmap sets.
From S2P Require Import Prelude Common.

Module Storage.
Import Common.

(** ** [storage.rs], [key_version.rs] *)

Record KeyVersion := mkKeyVersion { epoch : Z; version_counter : Z }.

Record RangeInfo := mkRangeInfo {
  info_id : Uuid;
  key_range : KeyRange;
  leader_sequence_number : Z;
  epoch_lease : Z * Z
}.

Inductive Error := Timeout | RangeDoesNotExist | RangeOwnershipLost | InternalError.

#[global] Instance Error_eq_dec : EqDecision Error.
Proof. solve_decision. Defined.

Abbreviation Changes := (gmap Bytes (option Bytes)) (only parsing).

(** The trait, with laws for the operations that read and write records:
    [st_content] is the value a read of a key returns, [st_newest] the epoch of
    its newest version. *)
Class RangeStorage (S : Type) : Type := {
  st_get : FullRangeId -> Bytes -> S -> result Error (option Bytes);
  st_batch_upsert : HashOrder -> FullRangeId -> Changes -> KeyVersion -> S ->
    S * result Error unit;
  st_take_ownership : FullRangeId -> S -> S * result Error RangeInfo;
  st_renew_epoch_lease : FullRangeId -> Z * Z -> Z -> S -> S * result Error unit;
  st_content : S -> FullRangeId -> Bytes -> option Bytes;
  st_newest : S -> FullRangeId -> Bytes -> option Z;
  st_get_ok r k s v : st_get r k s = Ok v -> v = st_content s r k;
  st_get_no_panic r k s : st_get r k s <> Panic;
  st_upsert_content order r ch ver s s' k :
    st_batch_upsert order r ch ver s = (s', Ok tt) ->
    from_option (fun e => (e <= as_i64 (epoch ver))%Z) True (st_newest s r k) ->
    st_content s' r k = default (st_content s r k) (ch !! k);
  st_upsert_newest order r ch ver s s' k :
    st_batch_upsert order r ch ver s = (s', Ok tt) ->
    from_option (fun e => (e <= as_i64 (epoch ver))%Z) True (st_newest s r k) ->
    from_option (fun e => (e <= as_i64 (epoch ver))%Z) True (st_newest s' r k)
}.

(** ** The tables of [schema.cql] *)

Record CqlEpochRange := mkCqlEpochRange {
  lower_bound_inclusive : Z;
  upper_bound_inclusive : Z
}.

Record CqlRangeLease := mkCqlRangeLease {
  lease_range_id : Uuid;
  lease_epochs : CqlEpochRange;
  key_lower_bound_inclusive : option Bytes;
  key_upper_bound_exclusive : option Bytes;
  lease_leader : Z;
  safe_snapshot_epochs : CqlEpochRange
}.

Record CqlVal := mkCqlVal { value : option Bytes; is_tombstone : bool }.

Definition lease_key_range (l : CqlRangeLease) : KeyRange :=
  mkKeyRange (key_lower_bound_inclusive l) (key_upper_bound_exclusive l).

Definition set_leader (n : Z) (l : CqlRangeLease) : CqlRangeLease :=
  mkCqlRangeLease (lease_range_id l) (lease_epochs l) (key_lower_bound_inclusive l)
    (key_upper_bound_exclusive l) n (safe_snapshot_epochs l).
Definition set_epochs (e : CqlEpochRange) (l : CqlRangeLease) : CqlRangeLease :=
  mkCqlRangeLease (lease_range_id l) e (key_lower_bound_inclusive l)
    (key_upper_bound_exclusive l) (lease_leader l) (safe_snapshot_epochs l).

(** the values a statement is executed with *)
Inductive CqlValue :=
| CqlUuid (u : Uuid)
| CqlBlob (b : Bytes)
| CqlBigint (z : Z)
| CqlBoolean (b : bool)
| CqlUnset.

(** the versions of a key, clustered by descending epoch: a write replaces the
    row with its epoch *)
Fixpoint put_version (e : Z) (v : CqlVal) (l : list (Z * CqlVal)) : list (Z * CqlVal) :=
  match l with
  | [] => [(e, v)]
  | (e', v') :: l' =>
      if (e' <? e)%Z then (e, v) :: l
      else if (e' =? e)%Z then (e, v) :: l'
      else (e', v') :: put_version e v l'
  end.

Inductive QueryError := TimeoutError | WriteTimeout | OtherError.

Definition scylla_query_error_to_persistence_error (qe : QueryError) : Error :=
  match qe with
  | TimeoutError | WriteTimeout => Timeout
  | OtherError => InternalError
  end.

(** The database. An operation that answers [Ok] has had the effect of its
    statement on the tables; one that answers [Err] may have had it or not. A
    statement executed with the wrong number of values is rejected, and the
    answer to a [SELECT] has rows, if only an empty list of them. *)
Class Session (DB : Type) : Type := {
  leases : DB -> gmap Uuid CqlRangeLease;
  versions : DB -> Uuid * Bytes -> list (Z * CqlVal);
  (* GET_RANGE_LEASE_QUERY, ACQUIRE_RANGE_LEASE_QUERY, RENEW_EPOCH_LEASE_QUERY *)
  select_lease : Uuid -> DB -> result QueryError (option (list CqlRangeLease));
  update_leader_if : Z -> Uuid -> Z -> DB -> DB * result QueryError unit;
  update_epochs_if : CqlEpochRange -> Uuid -> Z -> DB -> DB * result QueryError unit;
  (* UPSERT_QUERY, alone or as the statements of a batch, and GET_QUERY *)
  insert_records : list (list CqlValue) -> DB -> DB * result QueryError unit;
  select_record : Uuid -> Bytes -> DB -> result QueryError (option (list CqlVal));
  select_lease_ok r db rows :
    select_lease r db = Ok rows -> rows = Some (option_list (leases db !! r));
  update_leader_ok n r p db db' :
    update_leader_if n r p db = (db', Ok tt) ->
    leases db' = alter (fun l => if (lease_leader l =? p)%Z then set_leader n l else l) r (leases db) /\
    versions db' = versions db;
  update_epochs_ok e r p db db' :
    update_epochs_if e r p db = (db', Ok tt) ->
    leases db' = alter (fun l => if (lease_leader l =? p)%Z then set_epochs e l else l) r (leases db) /\
    versions db' = versions db;
  insert_records_arity rows db :
    Exists (fun vs => length vs <> 5) rows ->
    exists e, insert_records rows db = (db, Err e);
  insert_records_ok rows db db' r k :
    insert_records rows db = (db', Ok tt) ->
    leases db' = leases db /\
    versions db' (r, k) =
      foldl (fun l vs =>
        match vs with
        | [CqlUuid r'; CqlBlob k'; CqlBlob v; CqlBigint e; CqlBoolean t] =>
            if decide ((r', k') = (r, k)) then put_version e (mkCqlVal (Some v) t) l else l
        | _ => l
        end) (versions db (r, k)) rows;
  select_record_ok r k db rows :
    select_record r k db = Ok rows -> rows = Some ((take 1 (versions db (r, k))).*2);
  queries_no_panic : (forall r db, select_lease r db <> Panic) /\
    (forall n r p db, (update_leader_if n r p db).2 <> Panic) /\
    (forall e r p db, (update_epochs_if e r p db).2 <> Panic) /\
    (forall rows db, (insert_records rows db).2 <> Panic) /\
    (forall r k db, select_record r k db <> Panic)
}.

(** ** [impl Storage for Cassandra] *)

Section Cassandra.
Context `{Session DB}.

Definition map_query_err {A} (r : result QueryError A) : result Error A :=
  match r with
  | Ok a => Ok a
  | Err e => Err (scylla_query_error_to_persistence_error e)
  | Panic => Panic
  end.

Definition get_range_lease (r : FullRangeId) (db : DB) : result Error CqlRangeLease :=
  match map_query_err (select_lease (range_id r) db) with
  | Ok None => Err RangeDoesNotExist
  | Ok (Some [row]) => Ok row
  | Ok (Some _) => Panic   (* found multiple ranges with the same id! *)
  | Err e => Err e
  | Panic => Panic
  end.

(** [take_ownership_and_load_range] issues three statements, between which
    other servers may issue theirs: *)

(** the first read, with the number to acquire the range with *)
Definition take_begin (r : FullRangeId) (db : DB) : result Error Z :=
  match get_range_lease r db with
  | Ok l => Ok (lease_leader l)
  | Err e => Err e
  | Panic => Panic
  end.

(** the conditional update; whether it was applied is not looked at *)
Definition take_acquire (r : FullRangeId) (prev : Z) (db : DB) : DB * result Error unit :=
  let (db', res) := update_leader_if (as_i64 (prev + 1)) (range_id r) prev db in
  (db', map_query_err res).

(** the second read and the comparison *)
Definition take_check (r : FullRangeId) (prev : Z) (db : DB) : result Error RangeInfo :=
  match get_range_lease r db with
  | Ok l =>
      if (lease_leader l =? as_i64 (prev + 1))%Z then
        Ok (mkRangeInfo (range_id r) (lease_key_range l) (wrap_u64 (as_i64 (prev + 1)))
              (wrap_u64 (lower_bound_inclusive (lease_epochs l)),
               wrap_u64 (upper_bound_inclusive (lease_epochs l))))
      else Err RangeOwnershipLost
  | Err e => Err e
  | Panic => Panic
  end.

Definition take_ownership_and_load_range (r : FullRangeId) (db : DB)
    : DB * result Error RangeInfo :=
  match take_begin r db with
  | Ok prev =>
      match take_acquire r prev db with
      | (db', Ok _) => (db', take_check r prev db')
      | (db', Err e) => (db', Err e)
      | (db', Panic) => (db', Panic)
      end
  | Err e => (db, Err e)
  | Panic => (db, Panic)
  end.

Definition renew_epoch_lease (r : FullRangeId) (lease : Z * Z) (leader : Z) (db : DB)
    : DB * result Error unit :=
  match update_epochs_if (mkCqlEpochRange (as_i64 lease.1) (as_i64 lease.2))
          (range_id r) (as_i64 leader) db with
  | (db', Ok _) =>
      (db', match get_range_lease r db' with
            | Ok l => if (lease_leader l =? as_i64 leader)%Z then Ok tt
                      else Err RangeOwnershipLost
            | Err e => Err e
            | Panic => Panic
            end)
  | (db', Err e) => (db', Err (scylla_query_error_to_persistence_error e))
  | (db', Panic) => (db', Panic)
  end.

Definition insert_args (r : FullRangeId) (ver : KeyVersion) (key val : Bytes) : list CqlValue :=
  [CqlUuid (range_id r); CqlBlob key; CqlBlob val; CqlBigint (as_i64 (epoch ver)); CqlBoolean false].

Definition delete_args (r : FullRangeId) (ver : KeyVersion) (key : Bytes) : list CqlValue :=
  [CqlUuid (range_id r); CqlBlob key; CqlUnset; CqlBigint (as_i64 (epoch ver)); CqlBoolean true;
   CqlBigint (as_i64 (version_counter ver))].

Definition run_inserts (rows : list (list CqlValue)) (db : DB) : DB * result Error unit :=
  let (db', res) := insert_records rows db in (db', map_query_err res).

Definition upsert (r : FullRangeId) (key val : Bytes) (ver : KeyVersion) (db : DB)
    : DB * result Error unit := run_inserts [insert_args r ver key val] db.

Definition delete (r : FullRangeId) (key : Bytes) (ver : KeyVersion) (db : DB)
    : DB * result Error unit := run_inserts [delete_args r ver key] db.

(** the loop over the changes: the arguments of the two batches *)
Fixpoint batch_args (r : FullRangeId) (ver : KeyVersion) (changes : list (Bytes * option Bytes))
    (ins del : list (list CqlValue)) : list (list CqlValue) * list (list CqlValue) :=
  match changes with
  | [] => (ins, del)
  | (key, Some val) :: rest => batch_args r ver rest (ins ++ [insert_args r ver key val]) del
  | (key, None) :: rest => batch_args r ver rest ins (del ++ [delete_args r ver key])
  end.

(** a batch of one insert is sent as a plain query, which is the same
    statement *)
Definition batch_upsert (order : HashOrder) (r : FullRangeId) (changes : Changes)
    (ver : KeyVersion) (db : DB) : DB * result Error unit :=
  let (ins, del) := batch_args r ver (hash_iter_map changes) [] [] in
  let (db1, res1) :=
    match ins with
    | [] => (db, Ok tt)
    | [args] => run_inserts [args] db
    | _ => run_inserts ins db
    end in
  match res1 with
  | Ok _ =>
      match del with
      | [] => (db1, Ok tt)
      | _ => run_inserts del db1
      end
  | _ => (db1, res1)
  end.

Definition get (r : FullRangeId) (key : Bytes) (db : DB) : result Error (option Bytes) :=
  match map_query_err (select_record (range_id r) key db) with
  | Ok None => Ok None
  | Ok (Some []) => Ok None
  | Ok (Some [row]) => if is_tombstone row then Ok None else Ok (value row)
  | Ok (Some _) => Panic   (* found multiple rows with the same id! *)
  | Err e => Err e
  | Panic => Panic
  end.

(** what a read returns *)
Definition content (db : DB) (r : FullRangeId) (key : Bytes) : option Bytes :=
  match versions db (range_id r, key) with
  | (_, row) :: _ => if is_tombstone row then None else value row
  | [] => None
  end.

Definition newest (db : DB) (r : FullRangeId) (key : Bytes) : option Z :=
  fst <$> head (versions db (range_id r, key)).

(** ** Reads *)

Lemma get_range_lease_ok r db l :
  get_range_lease r db = Ok l -> leases db !! range_id r = Some l.
Proof.
  unfold get_range_lease, map_query_err.
  destruct (select_lease (range_id r) db) as [rows| |] eqn:E; [|done..].
  apply select_lease_ok in E as ->. by destruct (leases db !! range_id r) as [l'|]; intros [= <-].
Qed.

Lemma get_content r k db v : get r k db = Ok v -> v = content db r k.
Proof.
  unfold get, content, map_query_err.
  destruct (select_record (range_id r) k db) as [rows| |] eqn:E; [|done..].
  apply select_record_ok in E as ->.
  destruct (versions db (range_id r, k)) as [|[e row] l]; cbn; [by intros [= <-]|].
  rewrite take_0. cbn. destruct (is_tombstone row); by intros [= <-].
Qed.

Lemma get_not_panic r k db : get r k db <> Panic.
Proof.
  unfold get, map_query_err.
  destruct (select_record (range_id r) k db) as [rows| |] eqn:E; [|done|].
  - apply select_record_ok in E as ->.
    destruct (versions db (range_id r, k)) as [|[e row] l]; cbn; [done|].
    rewrite take_0. cbn. by destruct (is_tombstone row).
  - by apply queries_no_panic in E.
Qed.

(** ** Batches *)

Lemma put_version_newest e v l :
  from_option (fun e' => (e' <= e)%Z) True (fst <$> head l) ->
  head (put_version e v l) = Some (e, v).
Proof.
  destruct l as [|[e' v'] l]; cbn; [done|]. intros He.
  destruct (Z.ltb_spec e' e); [done|]. destruct (Z.eqb_spec e' e); [done|]. lia.
Qed.

Definition puts (changes : list (Bytes * option Bytes)) : list (Bytes * Bytes) :=
  omap (fun kv => (fun v => (kv.1, v)) <$> kv.2) changes.

Lemma batch_args_spec r ver changes ins del :
  batch_args r ver changes ins del =
  (ins ++ ((fun kv => insert_args r ver kv.1 kv.2) <$> puts changes),
   del ++ (delete_args r ver <$> (filter (fun kv => kv.2 = None) changes).*1)).
Proof.
  revert ins del; induction changes as [|[k [v|]] changes IH]; intros ins del.
  - cbn. by rewrite !app_nil_r.
  - cbn [batch_args]. rewrite IH, filter_cons, decide_False by done. cbn. by rewrite <- app_assoc.
  - cbn [batch_args]. rewrite IH, filter_cons, decide_True by done. cbn. by rewrite <- app_assoc.
Qed.

Lemma run_inserts_ok rows db db' :
  run_inserts rows db = (db', Ok tt) -> insert_records rows db = (db', Ok tt).
Proof.
  unfold run_inserts, map_query_err. destruct (insert_records rows db) as [db1 [[]| |]];
    by intros [= <-].
Qed.

Lemma run_deletes_fail r ver keys db :
  keys <> [] -> exists e, run_inserts (delete_args r ver <$> keys) db = (db, Err e).
Proof.
  intros Hk. destruct (insert_records_arity (delete_args r ver <$> keys) db) as [e He].
  - destruct keys as [|k keys]; [done|]. by left.
  - exists (scylla_query_error_to_persistence_error e). unfold run_inserts. by rewrite He.
Qed.

(** a batch of puts on distinct keys, seen from one key *)
Lemma puts_versions r ver l k vs :
  NoDup l.*1 ->
  foldl (fun l vs =>
      match vs with
      | [CqlUuid r'; CqlBlob k'; CqlBlob v; CqlBigint e; CqlBoolean t] =>
          if decide ((r', k') = (range_id r, k)) then put_version e (mkCqlVal (Some v) t) l else l
      | _ => l
      end) vs ((fun kv => insert_args r ver kv.1 kv.2) <$> l) =
  match list_to_map (M := gmap Bytes Bytes) l !! k with
  | Some v => put_version (as_i64 (epoch ver)) (mkCqlVal (Some v) false) vs
  | None => vs
  end.
Proof.
  revert vs; induction l as [|[k' v] l IH]; intros vs Hnd; [done|].
  rewrite fmap_cons, NoDup_cons in Hnd. destruct Hnd as [Hk Hnd].
  cbn [fmap list_fmap foldl insert_args fst snd list_to_map foldr uncurry].
  rewrite IH by done. destruct (decide (k' = k)) as [->|Hne].
  - rewrite decide_True by done. cbn. rewrite lookup_insert_eq.
    by rewrite (not_elem_of_list_to_map_1 l k Hk).
  - rewrite decide_False by congruence. cbn. by rewrite lookup_insert_ne.
Qed.

Lemma puts_NoDup l : NoDup l.*1 -> NoDup (puts l).*1.
Proof.
  unfold puts. induction l as [|[k [v|]] l IH]; cbn; [done|..]; intros [Hk Hnd]%NoDup_cons.
  - constructor; [|auto]. intros Hin. apply Hk.
    apply list_elem_of_fmap in Hin as ([k' v'] & -> & Hin). apply list_elem_of_omap in Hin as ([k2 [v2|]] & Hin & [= <- <-]).
    by apply (list_elem_of_fmap_2 fst) in Hin.
  - auto.
Qed.

Lemma puts_lookup `{HashOrder} (changes : Changes) k :
  list_to_map (M := gmap Bytes Bytes) (puts (hash_iter_map changes)) !! k =
  (o ← changes !! k; o).
Proof.
  apply option_eq. intros v. rewrite <- elem_of_list_to_map.
  2:{ apply puts_NoDup, hash_iter_map_NoDup. }
  unfold puts. rewrite list_elem_of_omap. split.
  - intros ([k' [v'|]] & Hin & [= <- <-]). apply hash_iter_map_elem_of in Hin. cbn in *.
    by rewrite Hin.
  - destruct (changes !! k) as [[v'|]|] eqn:E; cbn; [|done..]. intros [= <-].
    exists (k, Some v'). split; [|done]. by apply hash_iter_map_elem_of.
Qed.

Lemma batch_upsert_ok (order : HashOrder) r changes ver db db' k :
  batch_upsert order r changes ver db = (db', Ok tt) ->
  (forall k', changes !! k' <> Some None) /\
  versions db' (range_id r, k) =
    match changes !! k with
    | Some (Some v) => put_version (as_i64 (epoch ver)) (mkCqlVal (Some v) false)
                         (versions db (range_id r, k))
    | _ => versions db (range_id r, k)
    end.
Proof.
  unfold batch_upsert. rewrite batch_args_spec, !app_nil_l.
  set (ins := _ <$> puts _). remember (filter _ _) as del eqn:Hdel.
  assert (Hins : exists res db1, (match ins with
      | [] => (db, Ok tt) | [args] => run_inserts [args] db | _ => run_inserts ins db end) = (db1, res) /\
      (res = Ok tt -> insert_records ins db = (db1, Ok tt) \/ (ins = [] /\ db1 = db))).
  { destruct ins as [|a [|b ins']]; [eexists _, _; split; [done|auto]|..];
      destruct (run_inserts _ db) as [db1 res] eqn:Er; eexists _, _; (split; [done|]);
      intros ->; left; by apply run_inserts_ok. }
  destruct Hins as (res & db1 & -> & Hok). destruct res as [[]| |]; [|done..].
  specialize (Hok eq_refl).
  destruct del as [|d del']; cbn [fmap list_fmap].
  2:{ destruct (run_deletes_fail r ver (d :: del').*1 db1) as [e He]; [done|].
      cbn in He. rewrite He. done. }
  intros [= <-].
  assert (Hnone : forall k', changes !! k' <> Some None).
  { intros k' Hk'. apply (elem_of_nil (k', @None Bytes)). rewrite Hdel.
    apply list_elem_of_filter. split; [done|]. by apply hash_iter_map_elem_of. }
  split; [done|].
  assert (Hlook : list_to_map (M := gmap Bytes Bytes) (puts (hash_iter_map changes)) !! k =
            (o ← changes !! k; o)) by apply puts_lookup.
  destruct Hok as [Hok|[Hnil ->]].
  - destruct (insert_records_ok _ _ _ (range_id r) k Hok) as [_ ->]. unfold ins.
    rewrite puts_versions by apply puts_NoDup, hash_iter_map_NoDup. rewrite Hlook.
    by destruct (changes !! k) as [[v|]|].
  - apply fmap_nil_inv in Hnil. rewrite Hnil in Hlook. cbn in Hlook.
    by destruct (changes !! k) as [[v|]|].
Qed.

#[refine] Instance cassandra_storage : RangeStorage DB := {|
  st_get := get;
  st_batch_upsert := batch_upsert;
  st_take_ownership := take_ownership_and_load_range;
  st_renew_epoch_lease := renew_epoch_lease;
  st_content := content;
  st_newest := newest
|}.
Proof.
  - apply get_content.
  - apply get_not_panic.
  - intros order r ch ver s s' k Hok Hnew.
    destruct (batch_upsert_ok order r ch ver s s' k Hok) as [Hn Hv].
    unfold content. rewrite Hv. destruct (ch !! k) as [[v|]|] eqn:E; [|by destruct (Hn k)|done].
    apply (put_version_newest _ (mkCqlVal (Some v) false)) in Hnew.
    destruct (put_version _ _ _) as [|[e row] l]; [done|]. by injection Hnew as -> ->.
  - intros order r ch ver s s' k Hok Hnew.
    destruct (batch_upsert_ok order r ch ver s s' k Hok) as [Hn Hv].
    unfold newest in *. rewrite Hv. destruct (ch !! k) as [[v|]|] eqn:E; [|done..].
    rewrite (put_version_newest _ _ _ Hnew). cbn. lia.
Defined.

(** ** Properties *)

(** Fencing. When the range belongs to another leader, a renewal with an
    old leader sequence number does not succeed, and a renewal whose
    statements were executed leaves the lease as it is. *)
Theorem stale_leader_cannot_renew r lease leader db db' res l :
  leases db !! range_id r = Some l -> lease_leader l <> as_i64 leader ->
  renew_epoch_lease r lease leader db = (db', res) ->
  res <> Ok tt /\ (res = Err RangeOwnershipLost -> leases db' = leases db).
Proof.
  intros Hl Hne. unfold renew_epoch_lease.
  destruct (update_epochs_if _ _ _ db) as [db1 [[]|e|]] eqn:Eu.
  - apply update_epochs_ok in Eu as [Hlease _].
    assert (Hsame : leases db1 = leases db).
    { rewrite Hlease. apply map_eq. intros r'. destruct (decide (range_id r = r')) as [<-|].
      - rewrite lookup_alter_eq, Hl; cbn. by destruct (Z.eqb_spec (lease_leader l) (as_i64 leader)).
      - by rewrite lookup_alter_ne. }
    destruct (get_range_lease r db1) as [l'|e|] eqn:Eg.
    + apply get_range_lease_ok in Eg. rewrite Hsame, Hl in Eg. injection Eg as <-.
      destruct (Z.eqb_spec (lease_leader l) (as_i64 leader)); [done|]. by intros [= <- <-].
    + intros [= <- <-]. done.
    + intros [= <- <-]. done.
  - intros [= <- <-]. split; [done|]. by destruct e.
  - intros [= <- <-]. done.
Qed.

(** Taking ownership of a range that no other server is taking: when it
    succeeds the leader sequence number has gone up by one, nothing else of
    the lease has changed, and the caller gets the current key range and
    epoch lease. *)
Theorem take_ownership_effect r db db' info l :
  leases db !! range_id r = Some l -> (- 2 ^ 63 <= lease_leader l < 2 ^ 63 - 1)%Z ->
  take_ownership_and_load_range r db = (db', Ok info) ->
  leases db' !! range_id r = Some (set_leader (lease_leader l + 1) l) /\
  leader_sequence_number info = wrap_u64 (lease_leader l + 1) /\
  key_range info = lease_key_range l /\
  epoch_lease info = (wrap_u64 (lower_bound_inclusive (lease_epochs l)),
                      wrap_u64 (upper_bound_inclusive (lease_epochs l))).
Proof.
  intros Hl Hb. unfold take_ownership_and_load_range, take_begin.
  destruct (get_range_lease r db) as [l'|e|] eqn:Eg; [|done..].
  apply get_range_lease_ok in Eg. rewrite Hl in Eg. injection Eg as <-.
  unfold take_acquire. destruct (update_leader_if _ _ _ db) as [db1 [[]|e|]] eqn:Eu; cbn; [|done..].
  apply update_leader_ok in Eu as [Hlease _].
  rewrite as_i64_small in * by lia.
  unfold take_check. destruct (get_range_lease r db1) as [l1|e|] eqn:Eg1; [|done..].
  apply get_range_lease_ok in Eg1. rewrite as_i64_small by lia.
  assert (Hl1 : leases db1 !! range_id r = Some (set_leader (lease_leader l + 1) l)).
  { rewrite Hlease, lookup_alter_eq, Hl; cbn. by rewrite Z.eqb_refl. }
  rewrite Hl1 in Eg1. injection Eg1 as <-. cbn. rewrite Z.eqb_refl.
  by intros [= <- <-].
Qed.

(** Two servers that take a range at the same time can both become its
    leader. Both read the same number, both issue the conditional update, of
    which only the first is applied, and the second read of both finds the
    number they were going to write: both succeed with the same leader
    sequence number. *)
Theorem concurrent_takes_both_succeed r db db1 db2 prev rows :
  (- 2 ^ 63 <= prev < 2 ^ 63 - 1)%Z ->
  take_begin r db = Ok prev ->
  take_acquire r prev db = (db1, Ok tt) ->
  take_acquire r prev db1 = (db2, Ok tt) ->
  select_lease (range_id r) db2 = Ok rows ->
  exists info, take_check r prev db2 = Ok info /\
    leader_sequence_number info = wrap_u64 (prev + 1).
Proof.
  intros Hb Hbegin Ha1 Ha2 Hsel. unfold take_begin in Hbegin.
  destruct (get_range_lease r db) as [l|e|] eqn:Eg; [|done..]. injection Hbegin as <-.
  apply get_range_lease_ok in Eg.
  assert (Hacq : forall d d', take_acquire r (lease_leader l) d = (d', Ok tt) ->
    leases d' = alter (fun l' => if (lease_leader l' =? lease_leader l)%Z
                                 then set_leader (lease_leader l + 1) l' else l')
                  (range_id r) (leases d)).
  { intros d d'. unfold take_acquire. rewrite as_i64_small by lia.
    destruct (update_leader_if _ _ _ d) as [d1 [[]| |]] eqn:E; cbn; [|done..].
    intros [= <-]. by apply update_leader_ok in E as [-> _]. }
  apply Hacq in Ha1, Ha2.
  assert (Hl2 : leases db2 !! range_id r = Some (set_leader (lease_leader l + 1) l)).
  { rewrite Ha2, lookup_alter_eq, Ha1, lookup_alter_eq, Eg. cbn. rewrite Z.eqb_refl. cbn.
    by rewrite (proj2 (Z.eqb_neq _ _)) by lia. }
  unfold take_check, get_range_lease. rewrite Hsel. apply select_lease_ok in Hsel as ->.
  rewrite Hl2. cbn. rewrite as_i64_small, Z.eqb_refl by lia. eauto.
Qed.

(** C35: a batch of writes that was acknowledged is what the following reads
    return, as long as it is not older than the versions it replaces; keys it
    does not mention keep their value. *)
Theorem batch_upsert_get (order : HashOrder) r changes ver db db' k v :
  batch_upsert order r changes ver db = (db', Ok tt) ->
  from_option (fun e => (e <= as_i64 (epoch ver))%Z) True (newest db r k) ->
  get r k db' = Ok v -> v = default (content db r k) (changes !! k).
Proof.
  intros Hb Hn Hg%get_content. rewrite Hg.
  exact (st_upsert_content order r changes ver db db' k Hb Hn).
Qed.

(** Deletes cannot be stored. A batch with a delete, and a single delete,
    bind six values to a statement with five placeholders; they are never
    acknowledged. *)
Theorem deletes_are_rejected (order : HashOrder) r changes ver db k :
  (changes !! k = Some None -> (batch_upsert order r changes ver db).2 <> Ok tt) /\
  (delete r k ver db).2 <> Ok tt.
Proof.
  split.
  - intros Hk. destruct (batch_upsert order r changes ver db) as [db' res] eqn:E; cbn.
    intros ->. by destruct (batch_upsert_ok order r changes ver db db' k E) as [Hn _], (Hn k).
  - unfold delete. destruct (run_deletes_fail r ver [k] db) as [e He]; [done|].
    cbn in He. by rewrite He.
Qed.
End Cassandra.

(** ** Witnesses: tables in memory *)

Record Tables := mkTables {
  t_leases : gmap Uuid CqlRangeLease;
  t_versions : gmap (Uuid * Bytes) (list (Z * CqlVal))
}.

Definition put_row (t : gmap (Uuid * Bytes) (list (Z * CqlVal))) (vs : list CqlValue)
    : gmap (Uuid * Bytes) (list (Z * CqlVal)) :=
  match vs with
  | [CqlUuid r; CqlBlob k; CqlBlob v; CqlBigint e; CqlBoolean ts] =>
      <[(r, k) := put_version e (mkCqlVal (Some v) ts) (default [] (t !! (r, k)))]> t
  | _ => t
  end.

Lemma put_row_lookup rows t r k :
  default [] (foldl put_row t rows !! (r, k)) =
  foldl (fun l vs =>
    match vs with
    | [CqlUuid r'; CqlBlob k'; CqlBlob v; CqlBigint e; CqlBoolean t] =>
        if decide ((r', k') = (r, k)) then put_version e (mkCqlVal (Some v) t) l else l
    | _ => l
    end) (default [] (t !! (r, k))) rows.
Proof.
  revert t; induction rows as [|vs rows IH]; intros t; [done|]. cbn [foldl]. rewrite IH.
  f_equal. unfold put_row. repeat case_match; try done; subst.
  - match goal with H : (_, _) = (_, _) |- _ => injection H as -> -> end.
    by rewrite lookup_insert_eq.
  - by rewrite lookup_insert_ne.
Qed.

#[refine] Instance tables_session : Session Tables := {|
  leases := t_leases;
  versions t rk := default [] (t_versions t !! rk);
  select_lease r t := Ok (Some (option_list (t_leases t !! r)));
  update_leader_if n r p t :=
    (mkTables (alter (fun l => if (lease_leader l =? p)%Z then set_leader n l else l) r (t_leases t))
       (t_versions t), Ok tt);
  update_epochs_if e r p t :=
    (mkTables (alter (fun l => if (lease_leader l =? p)%Z then set_epochs e l else l) r (t_leases t))
       (t_versions t), Ok tt);
  insert_records rows t :=
    if decide (Exists (fun vs => length vs <> 5) rows) then (t, Err OtherError)
    else (mkTables (t_leases t) (foldl put_row (t_versions t) rows), Ok tt);
  select_record r k t := Ok (Some ((take 1 (default [] (t_versions t !! (r, k)))).*2))
|}.
Proof.
  - by intros r db rows [= <-].
  - by intros n r p db db' [= <-].
  - by intros n r p db db' [= <-].
  - intros rows db Hex. rewrite decide_True by done. eauto.
  - intros rows db db' r k. case_decide; [done|]. intros [= <-]. split; [done|]. apply put_row_lookup.
  - by intros r k db rows [= <-].
  - split_and!; try done. intros rows db. by case_decide.
Defined.

Definition sample_range : FullRangeId := mkFullRangeId (mkKeyspaceId 1) 2.
Definition sample_lease : CqlRangeLease :=
  mkCqlRangeLease 2 (mkCqlEpochRange 0 5) None None 7 (mkCqlEpochRange 0 0).
Definition sample_db : Tables := mkTables {[2%N := sample_lease]} ∅.
Definition sample_taken : Tables := (take_acquire sample_range 7 sample_db).1.

Lemma stale_leader_cannot_renew_witness :
  (renew_epoch_lease sample_range (6, 9)%Z 7 sample_taken).2 <> Ok tt.
Proof.
  destruct (renew_epoch_lease sample_range (6, 9)%Z 7 sample_taken) as [db' res] eqn:E.
  apply (stale_leader_cannot_renew sample_range (6, 9)%Z 7 sample_taken db' res (set_leader 8 sample_lease));
    [vm_compute; reflexivity|vm_compute; discriminate|exact E].
Defined.

Lemma take_ownership_effect_witness :
  leases (take_ownership_and_load_range sample_range sample_db).1 !! 2%N =
    Some (set_leader 8 sample_lease).
Proof.
  destruct (take_ownership_and_load_range sample_range sample_db) as [db' res] eqn:E.
  destruct res as [info|e|]; [|by vm_compute in E..].
  destruct (take_ownership_effect sample_range sample_db db' info sample_lease) as [Hl _];
    [vm_compute; reflexivity|cbn; lia|exact E|exact Hl].
Defined.

Lemma concurrent_takes_both_succeed_witness :
  exists info, take_check sample_range 7 (take_acquire sample_range 7 sample_taken).1 = Ok info /\
    leader_sequence_number info = wrap_u64 8.
Proof.
  apply (concurrent_takes_both_succeed sample_range sample_db sample_taken _ 7
           (Some [set_leader 8 sample_lease])); [lia|vm_compute; reflexivity..].
Defined.

Definition sample_changes : Changes := {[ [1%N] := Some [65%N] ]}.

Lemma batch_upsert_get_witness :
  exists v, get sample_range [1%N]
      (batch_upsert element_order sample_range sample_changes (mkKeyVersion 0 0) sample_db).1 = Ok v /\
    v = Some [65%N].
Proof.
  eexists. split; [vm_compute; reflexivity|].
  apply (batch_upsert_get element_order sample_range sample_changes (mkKeyVersion 0 0) sample_db
           (batch_upsert element_order sample_range sample_changes (mkKeyVersion 0 0) sample_db).1 [1%N]);
    [vm_compute; reflexivity|exact I|vm_compute; reflexivity].
Defined.

Lemma deletes_are_rejected_witness :
  (batch_upsert element_order sample_range {[ [1%N] := None ]} (mkKeyVersion 0 0) sample_db).2 <> Ok tt.
Proof.
  destruct (deletes_are_rejected element_order sample_range {[ [1%N] := None ]}
    (mkKeyVersion 0 0) sample_db [1%N]) as [Hb _]. apply Hb. vm_compute. reflexivity.
Defined.

End Storage.
