(* ===== verification/RsError.v ===== *)
(** * Errors of the range server: [src/rangeserver/src/error.rs],
      [src/rangeserver/src/transaction_abort_reason.rs] and the error type of
      [src/rangeserver/src/wal.rs] *)

From stdpp Require Import base tactics.
From S2P Require Import Prelude Common Storage.

Module RsError.

Inductive TransactionAbortReason := WaitDie | TransactionLockLost | Other.

(** what an internal error carries: an error of the storage or of the log, whose
    own payload, an error of the driver, nobody looks at; or [std::fmt::Error] *)
Inductive Cause := StorageCause (e : Storage.Error) | WalCause | FmtError.

Inductive Error :=
| InvalidRequestFormat
| RangeDoesNotExist
| RangeIsNotLoaded
| KeyIsOutOfRange
| RangeOwnershipLost
| Timeout
| ConnectionClosed
| UnknownTransaction
| CacheIsFull
| PrefetchError
| TransactionAborted (reason : TransactionAbortReason)
| InternalError (cause : Cause).

Inductive WalError := NotSynced | WalTimeout | WalInternal.

Definition from_storage_error (e : Storage.Error) : Error :=
  match e with
  | Storage.RangeDoesNotExist => RangeDoesNotExist
  | Storage.RangeOwnershipLost => RangeOwnershipLost
  | Storage.Timeout => Timeout
  | Storage.InternalError => InternalError (StorageCause e)
  end.

Definition from_wal_error (e : WalError) : Error :=
  match e with
  | WalTimeout => Timeout
  | NotSynced => RangeOwnershipLost
  | WalInternal => InternalError WalCause
  end.

(** the statuses of the wire format; [StatusOther] is any value the schema
    does not name *)
Inductive Status :=
| StatusOk | StatusInvalidRequestFormat | StatusRangeDoesNotExist
| StatusRangeIsNotLoaded | StatusKeyIsOutOfRange | StatusRangeOwnershipLost
| StatusTimeout | StatusUnknownTransaction | StatusTransactionAborted
| StatusCacheIsFull | StatusPrefetchError | StatusInternalError | StatusOther.

Definition to_flatbuf_status (e : Error) : Status :=
  match e with
  | InvalidRequestFormat => StatusInvalidRequestFormat
  | RangeDoesNotExist => StatusRangeDoesNotExist
  | RangeIsNotLoaded => StatusRangeIsNotLoaded
  | KeyIsOutOfRange => StatusKeyIsOutOfRange
  | RangeOwnershipLost => StatusRangeOwnershipLost
  | Timeout => StatusTimeout
  | UnknownTransaction => StatusUnknownTransaction
  | TransactionAborted _ => StatusTransactionAborted
  | CacheIsFull => StatusCacheIsFull
  | InternalError _ => StatusInternalError
  | ConnectionClosed => StatusInternalError
  | PrefetchError => StatusPrefetchError
  end.

Definition from_flatbuf_status (s : Status) : result Error unit :=
  match s with
  | StatusOk => Ok tt
  | StatusInvalidRequestFormat => Err InvalidRequestFormat
  | StatusRangeDoesNotExist => Err RangeDoesNotExist
  | StatusRangeIsNotLoaded => Err RangeIsNotLoaded
  | StatusKeyIsOutOfRange => Err KeyIsOutOfRange
  | StatusRangeOwnershipLost => Err RangeOwnershipLost
  | StatusTimeout => Err Timeout
  | StatusUnknownTransaction => Err UnknownTransaction
  | StatusCacheIsFull => Err CacheIsFull
  | StatusTransactionAborted => Err (TransactionAborted Other)
  | StatusInternalError => Err (InternalError FmtError)
  | StatusPrefetchError => Err PrefetchError
  | StatusOther => Err (InternalError FmtError)
  end.

(** the error a client sees for an error of the server *)
Definition seen_by_client (e : Error) : Error :=
  match e with
  | TransactionAborted _ => TransactionAborted Other
  | ConnectionClosed | InternalError _ => InternalError FmtError
  | e => e
  end.

(** An error never turns into a success on the wire; what is lost are the reason
    of an abort, the cause of an internal error and the distinction of a closed
    connection. *)
Lemma status_roundtrip e : from_flatbuf_status (to_flatbuf_status e) = Err (seen_by_client e).
Proof. by destruct e. Qed.

End RsError.
