(* ===== verification/Wal.v ===== *)
(** * The write-ahead log: [src/rangeserver/src/wal.rs] and
      [src/rangeserver/src/wal/cassandra.rs]

    [RangeWal] is the trait [Wal] as the range manager uses it. [CassandraWal]
    buffers entries and writes them to the table [wal] of a database that is a
    parameter: the class [WalSession] has one operation per CQL statement and
    states what the CQL reference promises of it. *)

From stdpp Require Import base tactics list numbers option gmap sets.
From S2P Require Import Prelude Common Storage RsError.

Module Wal.
Import Common RsError.

(** the flatbuffer enum [Entry] *)
Inductive Entry := Prepare | Commit | Abort.

#[global] Instance Entry_eq_dec : EqDecision Entry.
Proof. solve_decision. Defined.

(** The trait: appending gives a receiver, flushing answers receivers. *)
Class RangeWal (W : Type) : Type := {
  wal_sync : W -> W * result WalError unit;
  wal_append : Entry -> Bytes -> W -> W * result WalError positive;
  wal_flush : W -> W;
  wal_answer : positive -> W -> option (result WalError unit)
}.

(** ** The table [wal]: one metadata row and the entries by offset *)

Record LogEntry := mkLogEntry { entry_type : Entry; bytes : Bytes }.
Record WalRow := mkWalRow { content : LogEntry; write_id : Uuid }.
Record MetaRow := mkMetaRow { meta_first_offset : option Z; meta_next_offset : Z }.

Definition scylla_query_error_to_wal_error (qe : Storage.QueryError) : WalError :=
  match qe with
  | Storage.TimeoutError | Storage.WriteTimeout => WalTimeout
  | Storage.OtherError => WalInternal
  end.

(** one row per argument tuple of the batch of [APPEND_ENTRY_QUERY]s *)
Definition insert_rows (args : list (Z * WalRow)) (m : gmap Z WalRow) : gmap Z WalRow :=
  foldl (fun m '(o, row) => <[o := row]> m) m args.

Class WalSession (DB : Type) : Type := {
  wal_meta : DB -> gmap Uuid MetaRow;
  wal_rows : DB -> Uuid -> gmap Z WalRow;
  (* SYNC_WAL_QUERY, INIT_METADATA_QUERY *)
  select_meta : Uuid -> DB -> result Storage.QueryError (option (list MetaRow));
  init_meta : Uuid -> DB -> DB * result Storage.QueryError unit;
  (* a batch of APPEND_ENTRY_QUERY, UPDATE_METADATA_QUERY, RETRIEVE_LOG_ENTRY *)
  append_rows : Uuid -> list (Z * WalRow) -> DB -> DB * result Storage.QueryError unit;
  update_meta_if : MetaRow -> Uuid -> Z -> DB -> DB * result Storage.QueryError unit;
  select_row : Uuid -> Z -> Uuid -> DB -> result Storage.QueryError (option (list WalRow));
  (* the batch of UPDATE_FIRST_OFFSET_QUERY and TRIM_LOG_QUERY *)
  trim_if : Z -> Uuid -> Z -> DB -> DB * result Storage.QueryError unit;
  select_meta_ok w db rows :
    select_meta w db = Ok rows -> rows = Some (option_list (wal_meta db !! w));
  init_meta_ok w db db' :
    init_meta w db = (db', Ok tt) ->
    wal_meta db' = <[w := mkMetaRow None 0]> (wal_meta db) /\ wal_rows db' = wal_rows db;
  append_rows_ok w args db db' :
    append_rows w args db = (db', Ok tt) ->
    wal_meta db' = wal_meta db /\
    wal_rows db' w = insert_rows args (wal_rows db w) /\
    forall w', w' <> w -> wal_rows db' w' = wal_rows db w';
  update_meta_ok m w n db db' :
    update_meta_if m w n db = (db', Ok tt) ->
    wal_meta db' = alter (fun m' => if (meta_next_offset m' =? n)%Z then m else m') w (wal_meta db) /\
    wal_rows db' = wal_rows db;
  select_row_ok w o i db rows :
    select_row w o i db = Ok rows ->
    rows = Some (filter (fun row => write_id row = i) (option_list (wal_rows db w !! o)));
  trim_ok o w f db db' :
    trim_if o w f db = (db', Ok tt) ->
    if decide ((m ← wal_meta db !! w; meta_first_offset m) = Some f) then
      wal_meta db' = alter (fun m => mkMetaRow (Some o) (meta_next_offset m)) w (wal_meta db) /\
      wal_rows db' w = filter (fun '(o', _) => (o <= o')%Z) (wal_rows db w)
    else wal_meta db' = wal_meta db /\ wal_rows db' w = wal_rows db w
}.

(** ** State *)

Record BufferedEntry := mkBufferedEntry {
  buffered : LogEntry;
  completion_sender : positive
}.

Record LogState := mkLogState { first_offset : option Z; next_offset : Z }.

Inductive State := NotSynced | Synced (log : LogState).

(** [answers] is what was sent on the completion channels *)
Record CassandraWal (DB : Type) := mkCassandraWal {
  session : DB;
  wal_id : Uuid;
  state : State;
  buffer : list BufferedEntry;
  last_flush : Z;
  answers : gmap positive (option (result WalError unit));
  buffer_capacity : nat;
  flush_interval : Z
}.
Arguments mkCassandraWal {DB} _ _ _ _ _ _ _ _.
Arguments session {DB} _.
Arguments wal_id {DB} _.
Arguments state {DB} _.
Arguments buffer {DB} _.
Arguments last_flush {DB} _.
Arguments answers {DB} _.
Arguments buffer_capacity {DB} _.
Arguments flush_interval {DB} _.

Definition new {DB} (session : DB) (capacity : nat) (interval : Z) (wal_id : Uuid) (now : Z)
    : CassandraWal DB :=
  mkCassandraWal session wal_id NotSynced [] now ∅ capacity interval.

(** ** Operations *)

Section Operations.
Context `{WalSession DB}.

Definition set_state (st : State) (w : CassandraWal DB) : CassandraWal DB :=
  mkCassandraWal (session w) (wal_id w) st (buffer w) (last_flush w) (answers w)
    (buffer_capacity w) (flush_interval w).
Definition set_session (db : DB) (w : CassandraWal DB) : CassandraWal DB :=
  mkCassandraWal db (wal_id w) (state w) (buffer w) (last_flush w) (answers w)
    (buffer_capacity w) (flush_interval w).

(** the loop that gives the entries their offsets; [ids] are the random write
    ids *)
Fixpoint number_entries (entries : list BufferedEntry) (ids : list Uuid) (log : LogState)
    : LogState * list (Z * WalRow) :=
  match entries, ids with
  | e :: entries', i :: ids' =>
      let offset := next_offset log in
      let log' := mkLogState (Some (default offset (first_offset log)))
                    (as_i64 (next_offset log + 1)) in
      let '(log'', rows) := number_entries entries' ids' log' in
      (log'', (offset, mkWalRow (buffered e) i) :: rows)
  | _, _ => (log, [])
  end.

(** [flush_entries_to_database]. The log state is updated in place before the
    statements run, so a failing statement leaves it advanced. *)
Definition flush_entries_to_database (entries : list BufferedEntry) (ids : list Uuid)
    (w : CassandraWal DB) : CassandraWal DB * result WalError unit :=
  match state w with
  | NotSynced => (w, Err RsError.NotSynced)
  | Synced log =>
      let '(log', rows) := number_entries entries ids log in
      let w1 := set_state (Synced log') w in
      match rows with
      | [] => (w1, Panic)   (* offsets[0] *)
      | (offset0, row0) :: _ =>
          match append_rows (wal_id w) rows (session w) with
          | (db1, Ok _) =>
              match update_meta_if (mkMetaRow (first_offset log') (next_offset log'))
                      (wal_id w) offset0 db1 with
              | (db2, Ok _) =>
                  let w2 := set_session db2 w1 in
                  match select_row (wal_id w) offset0 (write_id row0) db2 with
                  | Ok (Some [_]) => (w2, Ok tt)
                  | Ok _ => (set_state NotSynced w2, Err RsError.NotSynced)
                  | Err e => (w2, Err (scylla_query_error_to_wal_error e))
                  | Panic => (w2, Panic)
                  end
              | (db2, Err e) => (set_session db2 w1, Err (scylla_query_error_to_wal_error e))
              | (db2, Panic) => (set_session db2 w1, Panic)
              end
          | (db1, Err e) => (set_session db1 w1, Err (scylla_query_error_to_wal_error e))
          | (db1, Panic) => (set_session db1 w1, Panic)
          end
      end
  end.

(** [flush_buffer_inner]: the result of the flush is not used, every waiting
    caller is told [Ok(())] *)
Definition flush_buffer_inner (ids : list Uuid) (now : Z) (w : CassandraWal DB)
    : CassandraWal DB :=
  match buffer w with
  | [] => w
  | entries =>
      let w0 := mkCassandraWal (session w) (wal_id w) (state w) [] now (answers w)
                  (buffer_capacity w) (flush_interval w) in
      match flush_entries_to_database entries ids w0 with
      | (w1, Panic) => w1
      | (w1, flush_result) =>
          mkCassandraWal (session w1) (wal_id w1) (state w1) (buffer w1) (last_flush w1)
            (foldl (fun a e => <[completion_sender e := Some (Ok tt)]> a) (answers w1) entries)
            (buffer_capacity w1) (flush_interval w1)
      end
  end.

Definition flush_buffer (ids : list Uuid) (now : Z) (w : CassandraWal DB)
    : CassandraWal DB * result WalError unit := (flush_buffer_inner ids now w, Ok tt).

(** the condition of the background task *)
Definition should_flush (now : Z) (w : CassandraWal DB) : bool :=
  (buffer_capacity w <=? length (buffer w))%nat || (flush_interval w <=? now - last_flush w)%Z.

(** one round of [flush_task] *)
Definition flush_task_round (ids : list Uuid) (now : Z) (w : CassandraWal DB)
    : CassandraWal DB :=
  if should_flush now w then flush_buffer_inner ids now w else w.

(** [append_entry]: the receiver, and whether a flush is spawned *)
Definition append_entry (entry_type : Entry) (entry : Bytes) (w : CassandraWal DB)
    : CassandraWal DB * positive * bool :=
  let c := fresh (dom (answers w)) in
  let entries := buffer w ++ [mkBufferedEntry (mkLogEntry entry_type entry) c] in
  (mkCassandraWal (session w) (wal_id w) (state w) entries (last_flush w)
     (<[c := None]> (answers w)) (buffer_capacity w) (flush_interval w),
   c, (buffer_capacity w <=? length entries)%nat).

Definition append_prepare := append_entry Prepare.
Definition append_commit := append_entry Commit.
Definition append_abort := append_entry Abort.

Definition sync (w : CassandraWal DB) : CassandraWal DB * result WalError unit :=
  let w0 := set_state NotSynced w in
  match select_meta (wal_id w) (session w) with
  | Ok None => (w0, Err RsError.NotSynced)
  | Ok (Some []) =>
      match init_meta (wal_id w) (session w) with
      | (db1, Ok _) => (set_state (Synced (mkLogState None 0)) (set_session db1 w0), Ok tt)
      | (db1, Err e) => (set_session db1 w0, Err (scylla_query_error_to_wal_error e))
      | (db1, Panic) => (set_session db1 w0, Panic)
      end
  | Ok (Some [m]) =>
      (set_state (Synced (mkLogState (meta_first_offset m) (meta_next_offset m))) w0, Ok tt)
  | Ok (Some _) => (w0, Panic)
  | Err e => (w0, Err (scylla_query_error_to_wal_error e))
  | Panic => (w0, Panic)
  end.

Definition get_first_offset (w : CassandraWal DB) : result WalError (option Z) :=
  match state w with
  | NotSynced => Err RsError.NotSynced
  | Synced log => Ok (wrap_u64 <$> first_offset log)
  end.

Definition get_next_offset (w : CassandraWal DB) : result WalError Z :=
  match state w with
  | NotSynced => Err RsError.NotSynced
  | Synced log => Ok (wrap_u64 (next_offset log))
  end.

Definition trim_before_offset (offset : Z) (w : CassandraWal DB)
    : CassandraWal DB * result WalError unit :=
  match get_first_offset w with
  | Ok None => (w, Ok tt)
  | Ok (Some f) =>
      if (offset <? f)%Z then (w, Ok tt)
      else
        match trim_if (as_i64 offset) (wal_id w) (as_i64 f) (session w) with
        | (db1, Ok _) => sync (set_session db1 w)
        | (db1, Err e) => (set_session db1 w, Err (scylla_query_error_to_wal_error e))
        | (db1, Panic) => (set_session db1 w, Panic)
        end
  | Err e => (w, Err e)
  | Panic => (w, Panic)
  end.

(** ** Lemmas *)

Lemma number_entries_spec entries ids log log' rows :
  length ids = length entries -> (0 <= next_offset log)%Z ->
  (next_offset log + Z.of_nat (length entries) < 2 ^ 63)%Z ->
  number_entries entries ids log = (log', rows) ->
  next_offset log' = (next_offset log + Z.of_nat (length entries))%Z /\
  length rows = length entries /\
  forall i e x, entries !! i = Some e -> ids !! i = Some x ->
    rows !! i = Some ((next_offset log + Z.of_nat i)%Z, mkWalRow (buffered e) x).
Proof.
  revert ids log log' rows; induction entries as [|e entries IH];
    intros [|x ids] log log' rows Hlen Hpos Hb; cbn; try done.
  { intros [= <- <-]. split_and!; [lia|done|done]. }
  destruct (number_entries entries ids _) as [log2 rows2] eqn:E. intros [= <- <-].
  cbn in Hlen, Hb. apply IH in E as (Hn & Hl & Hr); cbn in *;
    rewrite ?as_i64_small in * by lia; try lia.
  split_and!; [lia|lia|]. intros [|i] e' x' He Hx; simpl in *.
  - simplify_eq. by rewrite Z.add_0_r.
  - rewrite (Hr i e' x') by done. do 2 f_equal. lia.
Qed.

Lemma insert_rows_lookup rows m o n :
  (forall i p, rows !! i = Some p -> p.1 = (n + Z.of_nat i)%Z) ->
  insert_rows rows m !! o =
    if decide (n <= o < n + Z.of_nat (length rows))%Z
    then snd <$> rows !! Z.to_nat (o - n) else m !! o.
Proof.
  unfold insert_rows. revert m n; induction rows as [|[o' row] rows IH]; intros m n Hr; cbn [foldl length].
  - rewrite decide_False by lia. done.
  - rewrite (IH _ (n + 1)%Z).
    2:{ intros i p Hi. rewrite (Hr (S i) p) by done. lia. }
    assert (Ho' : o' = n) by (specialize (Hr 0 _ eq_refl); cbn in Hr; lia). subst o'.
    destruct (decide (o = n)) as [->|Hne].
    + rewrite decide_False, decide_True by lia. rewrite Z.sub_diag. cbn. by rewrite lookup_insert_eq.
    + destruct (decide (n + 1 <= o < n + 1 + Z.of_nat (length rows))%Z) as [Hin|Hin].
      * rewrite decide_True by lia.
        replace (Z.to_nat (o - n)) with (S (Z.to_nat (o - (n + 1)))) by lia. done.
      * rewrite decide_False by lia. by rewrite lookup_insert_ne.
Qed.

(** what a flush whose statements all ran does to the table *)
Lemma flush_rows entries ids w w' log :
  state w = Synced log -> length ids = length entries -> (0 <= next_offset log)%Z ->
  (next_offset log + Z.of_nat (length entries) < 2 ^ 63)%Z ->
  flush_entries_to_database entries ids w = (w', Ok tt) ->
  exists log' rows,
    number_entries entries ids log = (log', rows) /\ state w' = Synced log' /\
    wal_id w' = wal_id w /\
    wal_rows (session w') (wal_id w) = insert_rows rows (wal_rows (session w) (wal_id w)) /\
    wal_meta (session w') =
      alter (fun m => if (meta_next_offset m =? next_offset log)%Z
                      then mkMetaRow (first_offset log') (next_offset log') else m)
        (wal_id w) (wal_meta (session w)).
Proof.
  intros Hst Hlen Hpos Hb. unfold flush_entries_to_database. rewrite Hst.
  destruct (number_entries entries ids log) as [log' rows] eqn:En.
  pose proof (number_entries_spec _ _ _ _ _ Hlen Hpos Hb En) as (_ & Hrl & Hr).
  destruct rows as [|[o0 row0] rows]; [done|].
  destruct (append_rows _ _ _) as [db1 [[]| |]] eqn:Ea; [|done..].
  destruct (update_meta_if _ _ _ _) as [db2 [[]| |]] eqn:Eu; [|done..].
  destruct (select_row _ _ _ _) as [[[|? []]|]| |] eqn:Es; try done.
  intros [= <-]. exists log', ((o0, row0) :: rows).
  apply append_rows_ok in Ea as (Hm1 & Hr1 & _). apply update_meta_ok in Eu as (Hm2 & Hr2).
  assert (Ho : o0 = next_offset log).
  { destruct entries as [|e entries], ids as [|x ids]; cbn in *; try lia.
    specialize (Hr 0 e x eq_refl eq_refl). cbn in Hr. injection Hr as ->. lia. }
  split_and!; try done; cbn; [by rewrite Hr2, Hr1|by rewrite Hm2, Hm1, Ho].
Qed.

(** ** Properties *)

(** A flush by the only writer of the log appends. When it reports
    success, the buffered entries are in the table at the next offsets, in
    order, every other row is as before, and the metadata row agrees with the
    state in memory, so that a later [sync] resumes after them. *)
Theorem flush_appends entries ids w w' log :
  state w = Synced log -> length ids = length entries -> (0 <= next_offset log)%Z ->
  (next_offset log + Z.of_nat (length entries) < 2 ^ 63)%Z ->
  wal_meta (session w) !! wal_id w = Some (mkMetaRow (first_offset log) (next_offset log)) ->
  flush_entries_to_database entries ids w = (w', Ok tt) ->
  (forall i e x, entries !! i = Some e -> ids !! i = Some x ->
     wal_rows (session w') (wal_id w) !! (next_offset log + Z.of_nat i)%Z =
       Some (mkWalRow (buffered e) x)) /\
  (forall o, (o < next_offset log \/ next_offset log + Z.of_nat (length entries) <= o)%Z ->
     wal_rows (session w') (wal_id w) !! o = wal_rows (session w) (wal_id w) !! o) /\
  (forall w'' , sync w' = (w'', Ok tt) -> state w'' = state w').
Proof.
  intros Hst Hlen Hpos Hb Hmeta Hf.
  destruct (flush_rows _ _ _ _ _ Hst Hlen Hpos Hb Hf)
    as (log' & rows & En & Hst' & Hid & Hrows & Hm).
  pose proof (number_entries_spec _ _ _ _ _ Hlen Hpos Hb En) as (Hn & Hrl & Hr).
  assert (Hpos' : forall i p, rows !! i = Some p -> p.1 = (next_offset log + Z.of_nat i)%Z).
  { intros i p Hi. assert (Hlt : i < length entries) by (rewrite <- Hrl; by eapply lookup_lt_Some).
    destruct (lookup_lt_is_Some_2 entries i Hlt) as [e He].
    destruct (lookup_lt_is_Some_2 ids i) as [x Hx]; [lia|].
    rewrite (Hr i e x He Hx) in Hi. by injection Hi as <-. }
  rewrite Hrows. split_and!.
  - intros i e x He Hx. rewrite (insert_rows_lookup rows _ _ _ Hpos').
    assert (i < length entries) by (by eapply lookup_lt_Some).
    rewrite decide_True by lia. replace (Z.to_nat _) with i by lia. by rewrite (Hr i e x He Hx).
  - intros o Ho. rewrite (insert_rows_lookup rows _ _ _ Hpos'). by rewrite decide_False by lia.
  - intros w''. unfold sync. rewrite Hid.
    destruct (select_meta _ _) as [res| |] eqn:Es; [|done..].
    apply select_meta_ok in Es as ->. rewrite Hm, lookup_alter_eq, Hmeta. cbn.
    rewrite Z.eqb_refl. intros [= <-]. cbn. rewrite Hst'. by destruct log'.
Qed.

Lemma answers_after entries (a : gmap positive (option (result WalError unit))) e :
  e ∈ entries ->
  foldl (fun a e => <[completion_sender e := Some (Ok tt)]> a) a entries !! completion_sender e =
    Some (Some (@Ok WalError unit tt)).
Proof.
  assert (Hkeep : forall l (a : gmap positive (option (result WalError unit))),
    a !! completion_sender e = Some (Some (Ok tt)) ->
    foldl (fun a e => <[completion_sender e := Some (Ok tt)]> a) a l !! completion_sender e =
      Some (Some (@Ok WalError unit tt))).
  { induction l as [|e' l IH]; intros a' Ha; [done|]. cbn. apply IH.
    destruct (decide (completion_sender e' = completion_sender e)) as [->|].
    - apply lookup_insert_eq.
    - by rewrite lookup_insert_ne. }
  revert a; induction entries as [|e' l IH]; intros a Hin; [by apply elem_of_nil in Hin|].
  cbn. apply elem_of_cons in Hin as [->|Hin]; [|by apply IH]. apply Hkeep, lookup_insert_eq.
Qed.

(** A flush that fails is acknowledged as if it had succeeded. With the
    log out of sync nothing is written, the buffer is emptied, and every
    caller whose entry was in it is told [Ok]. *)
Theorem failed_flush_is_acknowledged ids now w :
  state w = NotSynced ->
  let w' := flush_buffer_inner ids now w in
  session w' = session w /\ buffer w' = [] /\
  (flush_entries_to_database (buffer w) ids w).2 = Err RsError.NotSynced /\
  forall e, e ∈ buffer w -> answers w' !! completion_sender e = Some (Some (Ok tt)).
Proof.
  intros Hst w'. unfold w', flush_buffer_inner, flush_entries_to_database. rewrite Hst.
  destruct (buffer w) as [|e0 entries] eqn:Eb.
  - split_and!; [done..|]. by intros e ?%elem_of_nil.
  - cbn [state session buffer answers]. split_and!; [done..|]. intros e He.
    by apply (answers_after (e0 :: entries)).
Qed.

(** The log is not fenced. A second server that still believes it owns
    the log, at the same next offset, writes over an entry that was
    acknowledged to the first one, and its own check succeeds: the conditional
    update of the metadata does not guard the entries. *)
Theorem stale_writer_overwrites_log wa wb wa' log ea eb xa xb db1 db2 rows :
  state wa = Synced log -> state wb = Synced log -> wal_id wb = wal_id wa ->
  (0 <= next_offset log < 2 ^ 63 - 1)%Z ->
  flush_entries_to_database [ea] [xa] wa = (wa', Ok tt) ->
  append_rows (wal_id wa) [(next_offset log, mkWalRow (buffered eb) xb)] (session wa') = (db1, Ok tt) ->
  update_meta_if (mkMetaRow (Some (default (next_offset log) (first_offset log)))
    (next_offset log + 1)) (wal_id wa) (next_offset log) db1 = (db2, Ok tt) ->
  select_row (wal_id wa) (next_offset log) xb db2 = Ok rows ->
  exists wb', flush_entries_to_database [eb] [xb] (set_session (session wa') wb) = (wb', Ok tt) /\
    wal_rows (session wa') (wal_id wa) !! next_offset log = Some (mkWalRow (buffered ea) xa) /\
    wal_rows (session wb') (wal_id wa) !! next_offset log = Some (mkWalRow (buffered eb) xb).
Proof.
  intros Hsa Hsb Hid Hb Hfa Happ Hupd Hsel.
  assert (Ha : wal_rows (session wa') (wal_id wa) !! next_offset log = Some (mkWalRow (buffered ea) xa)).
  { destruct (flush_rows [ea] [xa] wa wa' log Hsa) as (log' & rs & En & _ & _ & -> & _);
      [done|lia|cbn; lia|done|]. cbn in En. injection En as _ <-. apply lookup_insert_eq. }
  pose proof (append_rows_ok _ _ _ _ Happ) as (_ & Hr1 & _).
  pose proof (update_meta_ok _ _ _ _ _ Hupd) as (_ & Hr2).
  assert (Hrow : wal_rows db2 (wal_id wa) !! next_offset log = Some (mkWalRow (buffered eb) xb)).
  { rewrite Hr2, Hr1. apply lookup_insert_eq. }
  unfold flush_entries_to_database. cbn [state set_session session wal_id number_entries].
  rewrite Hsb, Hid, as_i64_small by lia. rewrite Happ. cbn [first_offset next_offset].
  rewrite Hupd. cbn [write_id]. rewrite Hsel. apply select_row_ok in Hsel as ->.
  rewrite Hrow. change (option_list (Some (mkWalRow (buffered eb) xb))) with [mkWalRow (buffered eb) xb].
  rewrite filter_cons, decide_True by done. cbn. eauto.
Qed.
End Operations.

(** ** The trait, and a database in memory *)

#[global] Instance cassandra_wal `{WalSession DB} (ids : list Uuid) (now : Z)
    : RangeWal (CassandraWal DB) := {|
  wal_sync := sync;
  wal_append t b w := let '(w', c, _) := append_entry t b w in (w', Ok c);
  wal_flush := flush_buffer_inner ids now;
  wal_answer c w := mjoin (answers w !! c)
|}.

Record Table := mkTable {
  t_meta : gmap Uuid MetaRow;
  t_rows : gmap Uuid (gmap Z WalRow)
}.

Definition table_rows (t : Table) (w : Uuid) : gmap Z WalRow := default ∅ (t_rows t !! w).

#[refine] Instance table_session : WalSession Table := {|
  wal_meta := t_meta;
  wal_rows := table_rows;
  select_meta w t := Ok (Some (option_list (t_meta t !! w)));
  init_meta w t := (mkTable (<[w := mkMetaRow None 0]> (t_meta t)) (t_rows t), Ok tt);
  append_rows w args t :=
    (mkTable (t_meta t) (<[w := insert_rows args (table_rows t w)]> (t_rows t)), Ok tt);
  update_meta_if m w n t :=
    (mkTable (alter (fun m' => if (meta_next_offset m' =? n)%Z then m else m') w (t_meta t))
       (t_rows t), Ok tt);
  select_row w o i t :=
    Ok (Some (filter (fun row => write_id row = i) (option_list (table_rows t w !! o))));
  trim_if o w f t :=
    if decide ((m ← t_meta t !! w; meta_first_offset m) = Some f) then
      (mkTable (alter (fun m => mkMetaRow (Some o) (meta_next_offset m)) w (t_meta t))
         (<[w := filter (fun '(o', _) => (o <= o')%Z) (table_rows t w)]> (t_rows t)), Ok tt)
    else (t, Ok tt)
|}.
Proof.
  - by intros w db rows [= <-].
  - by intros w db db' [= <-].
  - intros w args db db' [= <-]. unfold table_rows; cbn. rewrite lookup_insert_eq.
    split_and!; [done..|]. intros w' Hw'. by rewrite lookup_insert_ne.
  - by intros m w n db db' [= <-].
  - by intros w o i db rows [= <-].
  - intros o w f db db'. case_decide; intros [= <-]; [|done].
    unfold table_rows; cbn. by rewrite lookup_insert_eq.
Defined.

(** ** Witnesses *)

Definition sample_log : LogState := mkLogState (Some 0%Z) 3.
Definition sample_table : Table := mkTable {[5%N := mkMetaRow (Some 0%Z) 3]} ∅.
Definition sample_entry (b : N) : BufferedEntry := mkBufferedEntry (mkLogEntry Prepare [b]) 1.
Definition sample_wal (st : State) (es : list BufferedEntry) : CassandraWal Table :=
  mkCassandraWal sample_table 5 st es 0 ∅ 8 10.

Lemma flush_appends_witness :
  wal_rows (session (flush_entries_to_database [sample_entry 1; sample_entry 2] [10%N; 11%N]
    (sample_wal (Synced sample_log) [])).1) 5 !! 4%Z =
  Some (mkWalRow (buffered (sample_entry 2)) 11).
Proof.
  destruct (flush_entries_to_database [sample_entry 1; sample_entry 2] [10%N; 11%N]
    (sample_wal (Synced sample_log) [])) as [w' res] eqn:E.
  destruct (flush_appends [sample_entry 1; sample_entry 2] [10%N; 11%N]
    (sample_wal (Synced sample_log) []) w' sample_log) as (Hrows & _);
    [reflexivity|reflexivity|cbn; lia|cbn; lia|reflexivity| |].
  - assert (res = Ok tt) as <- by (vm_compute in E; by injection E as _ <-). exact E.
  - exact (Hrows 1 (sample_entry 2) 11%N eq_refl eq_refl).
Defined.

Lemma failed_flush_is_acknowledged_witness :
  answers (flush_buffer_inner [10%N] 0 (sample_wal NotSynced [sample_entry 1])) !! 1%positive =
  Some (Some (Ok tt)).
Proof.
  destruct (failed_flush_is_acknowledged [10%N] 0 (sample_wal NotSynced [sample_entry 1]) eq_refl)
    as (_ & _ & _ & Hans).
  apply (Hans (sample_entry 1)). left.
Defined.

Lemma stale_writer_overwrites_log_witness :
  exists wb', wal_rows (session wb' : Table) 5 !! 3%Z = Some (mkWalRow (buffered (sample_entry 2)) 11).
Proof.
  destruct (stale_writer_overwrites_log (sample_wal (Synced sample_log) [])
    (sample_wal (Synced sample_log) [])
    (flush_entries_to_database [sample_entry 1] [10%N] (sample_wal (Synced sample_log) [])).1
    sample_log (sample_entry 1) (sample_entry 2) 10 11
    (append_rows 5 [(3%Z, mkWalRow (buffered (sample_entry 2)) 11)]
       (session (flush_entries_to_database [sample_entry 1] [10%N] (sample_wal (Synced sample_log) [])).1)).1
    (update_meta_if (mkMetaRow (Some 0%Z) 4) 5 3 (append_rows 5 [(3%Z, mkWalRow (buffered (sample_entry 2)) 11)]
       (session (flush_entries_to_database [sample_entry 1] [10%N] (sample_wal (Synced sample_log) [])).1)).1).1
    (Some [mkWalRow (buffered (sample_entry 2)) 11])) as (wb' & _ & _ & Hrow);
    [reflexivity|reflexivity|reflexivity|cbn; lia|vm_compute; reflexivity..|].
  exists wb'. exact Hrow.
Defined.

End Wal.
