(* ===== verification/RangeManager.v ===== *)
(** * The range manager: [src/rangeserver/src/range_manager/impl.rs] and
      [src/rangeserver/src/range_manager.rs]

    One [RangeManager] serves the reads and the two phases of commit of a
    range. Its storage and its log are reached through [RangeStorage] and
    [RangeWal]. An operation that waits is split where it waits: [get] and
    [prepare] at the range lock, [prepare], [commit] and [abort] at the log;
    [commit] also between the write to the storage and the update of the
    pending state, which are separate critical sections. The read lock on the
    state is held by an operation from its beginning to its end, so the range
    stays loaded. *)

From Stdlib Require Import Floats.SpecFloat.
From stdpp Require Import base tactics list numbers option gmap sets.
From S2P Require Import Prelude Float64 Common LockTable Prefetching Storage RsError Wal.

Module RangeManager.
Import Common RsError.

(** ** State *)

(** a prepare record: the keys to change and their new value *)
Abbreviation Changes := (gmap Bytes (option Bytes)) (only parsing).

Record PendingState := mkPendingState {
  pending_prepare_records : gmap Uuid Changes;
  (** key -> the last transaction that has updated it *)
  pending_commit_table : gmap Bytes Uuid
}.

Record LoadedState := mkLoadedState {
  range_info : Storage.RangeInfo;
  highest_known_epoch : Z;
  lock_table : LockTable.State;
  pending_state : PendingState
}.

Inductive State :=
| NotLoaded
| Loading
| Loaded (st : LoadedState)
| Unloaded.

(** requests, as far as the operations read them; [_buf] is the message *)
Record PrepareRequest := mkPrepareRequest {
  req_puts : option (list (Bytes * Bytes));
  req_deletes : option (list Bytes);
  has_reads : bool;
  resolver_average_load : spec_float;
  num_open_clients : Z;
  prepare_buf : Bytes
}.
Record CommitRequest := mkCommitRequest { commit_epoch : Z; commit_vid : Z; commit_buf : Bytes }.
Record AbortRequest := mkAbortRequest { abort_buf : Bytes }.

Record GetResult := mkGetResult {
  val : option Bytes;
  get_leader_sequence_number : Z;
  get_dependencies : list Uuid
}.

Record PrepareResult := mkPrepareResult {
  prepare_highest_known_epoch : Z;
  prepare_epoch_lease : Z * Z;
  dependencies : list Uuid;
  released_lock_early : bool
}.

Record RangeManager (Sto Log : Type) := mkRangeManager {
  range_id : FullRangeId;
  commit_strategy : CommitStrategy;
  heuristic : Heuristic;
  storage : Sto;
  wal : Log;
  state : State;
  (** receivers subscribed to the broadcast of the load, and what was sent to them *)
  load_subscribers : nat;
  load_result : option (result Error unit);
  prefetching_buffer : Prefetching.State
}.
Arguments mkRangeManager {Sto Log} _ _ _ _ _ _ _ _ _.
Arguments range_id {Sto Log} _.
Arguments commit_strategy {Sto Log} _.
Arguments heuristic {Sto Log} _.
Arguments storage {Sto Log} _.
Arguments wal {Sto Log} _.
Arguments state {Sto Log} _.
Arguments load_subscribers {Sto Log} _.
Arguments load_result {Sto Log} _.
Arguments prefetching_buffer {Sto Log} _.

Section Operations.
Context `{Storage.RangeStorage Sto, Wal.RangeWal Log}.

Definition new (id : FullRangeId) (cs : CommitStrategy) (h : Heuristic) (s : Sto) (w : Log)
    : RangeManager Sto Log :=
  mkRangeManager id cs h s w NotLoaded 0 None Prefetching.new.

Definition set_state (st : State) (rm : RangeManager Sto Log) : RangeManager Sto Log :=
  mkRangeManager (range_id rm) (commit_strategy rm) (heuristic rm) (storage rm) (wal rm) st
    (load_subscribers rm) (load_result rm) (prefetching_buffer rm).
Definition set_storage (s : Sto) (rm : RangeManager Sto Log) : RangeManager Sto Log :=
  mkRangeManager (range_id rm) (commit_strategy rm) (heuristic rm) s (wal rm) (state rm)
    (load_subscribers rm) (load_result rm) (prefetching_buffer rm).
Definition set_wal (w : Log) (rm : RangeManager Sto Log) : RangeManager Sto Log :=
  mkRangeManager (range_id rm) (commit_strategy rm) (heuristic rm) (storage rm) w (state rm)
    (load_subscribers rm) (load_result rm) (prefetching_buffer rm).
Definition set_buffer (b : Prefetching.State) (rm : RangeManager Sto Log) : RangeManager Sto Log :=
  mkRangeManager (range_id rm) (commit_strategy rm) (heuristic rm) (storage rm) (wal rm) (state rm)
    (load_subscribers rm) (load_result rm) b.
Definition set_subscribers (n : nat) (rm : RangeManager Sto Log) : RangeManager Sto Log :=
  mkRangeManager (range_id rm) (commit_strategy rm) (heuristic rm) (storage rm) (wal rm) (state rm)
    n (load_result rm) (prefetching_buffer rm).
Definition set_result (r : result Error unit) (rm : RangeManager Sto Log) : RangeManager Sto Log :=
  mkRangeManager (range_id rm) (commit_strategy rm) (heuristic rm) (storage rm) (wal rm) (state rm)
    (load_subscribers rm) (Some r) (prefetching_buffer rm).
Definition set_lock_table (lt : LockTable.State) (st : LoadedState) : LoadedState :=
  mkLoadedState (range_info st) (highest_known_epoch st) lt (pending_state st).
Definition set_pending (p : PendingState) (st : LoadedState) : LoadedState :=
  mkLoadedState (range_info st) (highest_known_epoch st) (lock_table st) p.

(** ** Loading *)

Inductive load_begun :=
| LoadReturn (r : result Error unit)
| LoadWait                (* subscribed to the load that is running *)
| LoadRun.                (* this call loads the range *)

Definition load_begin (rm : RangeManager Sto Log) : RangeManager Sto Log * load_begun :=
  match state rm with
  | Loaded _ => (rm, LoadReturn (Ok tt))
  | Loading => (set_subscribers (load_subscribers rm + 1) rm, LoadWait)
  | NotLoaded => (set_subscribers 0 (set_state Loading rm), LoadRun)
  | Unloaded => (rm, LoadReturn (Err RangeIsNotLoaded))
  end.

(** [num_epochs_per_lease]: [None] is the [unwrap] on a zero epoch duration *)
Definition num_epochs_per_lease (epoch_duration_nanos : Z) : option Z :=
  if (epoch_duration_nanos =? 0)%Z then None
  else Some (Z.max 1 (2000000000 / epoch_duration_nanos)).

(** the lease that follows the lease [old], with the epoch read as 0 *)
Definition next_lease (old : Z * Z) (n : Z) : Z * Z :=
  let lower := Z.max 1 (wrap_u64 (old.2 + 1)) in
  (lower, wrap_u64 (lower + n)).

Definition load_inner (epoch_duration_nanos : Z) (rm : RangeManager Sto Log)
    : RangeManager Sto Log * result Error LoadedState :=
  match num_epochs_per_lease epoch_duration_nanos with
  | None => (rm, Panic)
  | Some n =>
      match Storage.st_take_ownership (range_id rm) (storage rm) with
      | (s1, Ok info) =>
          let lease := next_lease (Storage.epoch_lease info) n in
          match Storage.st_renew_epoch_lease (range_id rm) lease
                  (Storage.leader_sequence_number info) s1 with
          | (s2, Ok _) =>
              let info' := Storage.mkRangeInfo (Storage.info_id info) (Storage.key_range info)
                             (Storage.leader_sequence_number info) lease in
              match Wal.wal_sync (wal rm) with
              | (w', Ok _) =>
                  (set_wal w' (set_storage s2 rm),
                   Ok (mkLoadedState info' 1 LockTable.new (mkPendingState ∅ ∅)))
              | (w', Err e) => (set_wal w' (set_storage s2 rm), Err (from_wal_error e))
              | (w', Panic) => (set_wal w' (set_storage s2 rm), Panic)
              end
          | (s2, Err e) => (set_storage s2 rm, Err (from_storage_error e))
          | (s2, Panic) => (set_storage s2 rm, Panic)
          end
      | (s1, Err e) => (set_storage s1 rm, Err (from_storage_error e))
      | (s1, Panic) => (set_storage s1 rm, Panic)
      end
  end.

(** the end of [load]; a send with no subscriber fails, and only the send of
    an error is unwrapped *)
Definition load_finish (res : result Error LoadedState) (rm : RangeManager Sto Log)
    : RangeManager Sto Log * result Error unit :=
  match res with
  | Err e =>
      if decide (load_subscribers rm = 0) then (set_state Unloaded rm, Panic)
      else (set_result (Err e) (set_state Unloaded rm), Err e)
  | Ok st =>
      (if decide (load_subscribers rm = 0) then set_state (Loaded st) rm
       else set_result (Ok tt) (set_state (Loaded st) rm), Ok tt)
  | Panic => (rm, Panic)
  end.

Definition unload (rm : RangeManager Sto Log) : RangeManager Sto Log := set_state Unloaded rm.

Definition is_unloaded (rm : RangeManager Sto Log) : bool :=
  match state rm with Unloaded => true | _ => false end.

(** ** [get] *)

(** up to the wait for the range lock: the receiver to wait on *)
Definition get_begin (tx : TransactionInfo) (now now' : Z) (key : Bytes)
    (rm : RangeManager Sto Log) : RangeManager Sto Log * result Error positive :=
  match state rm with
  | Loaded st =>
      if includes (Storage.key_range (range_info st)) key then
        let (lt, c) := LockTable.acquire tx now now' (lock_table st) in
        (set_state (Loaded (set_lock_table lt st)) rm, Ok c)
      else (rm, Err KeyIsOutOfRange)
  | _ => (rm, Err RangeIsNotLoaded)
  end.

(** with the lock *)
Definition get_locked (key : Bytes) (rm : RangeManager Sto Log) : result Error GetResult :=
  match state rm with
  | Loaded st =>
      let get_result v deps :=
        mkGetResult v (as_i64 (Storage.leader_sequence_number (range_info st))) deps in
      let dependency :=
        if decide (commit_strategy rm = Traditional) then None
        else pending_commit_table (pending_state st) !! key in
      match dependency with
      | Some dep =>
          match pending_prepare_records (pending_state st) !! dep with
          | None => Panic
          | Some changes =>
              match changes !! key with
              | Some v => Ok (get_result v [dep])
              | None => Panic   (* Key not found in pending_prepare_records *)
              end
          end
      | None =>
          match Prefetching.get_from_buffer key (prefetching_buffer rm) with
          | Some v => Ok (get_result (Some v) [])
          | None =>
              match Storage.st_get (range_id rm) key (storage rm) with
              | Ok v => Ok (get_result v [])
              | Err e => Err (from_storage_error e)
              | Panic => Panic
              end
          end
      end
  | _ => Err RangeIsNotLoaded
  end.

(** whether the receiver of an acquire is ready *)
Definition lock_granted (c : positive) (rm : RangeManager Sto Log) : bool :=
  match state rm with
  | Loaded st => bool_decide (LockTable.chans (lock_table st) !! c = Some ChanSent)
  | _ => false
  end.

(** [get] when the lock is granted at once; [None] is a call that waits *)
Definition get (tx : TransactionInfo) (now now' : Z) (key : Bytes) (rm : RangeManager Sto Log)
    : RangeManager Sto Log * option (result Error GetResult) :=
  match get_begin tx now now' key rm with
  | (rm', Ok c) => (rm', if lock_granted c rm' then Some (get_locked key rm') else None)
  | (rm', Err e) => (rm', Some (Err e))
  | (rm', Panic) => (rm', Some Panic)
  end.

(** ** [prepare] *)

(** the loops that build the prepare record *)
Fixpoint record_puts (range : KeyRange) (puts : list (Bytes * Bytes)) (changes : Changes)
    : result Error Changes :=
  match puts with
  | [] => Ok changes
  | (k, v) :: puts' =>
      if includes range k then record_puts range puts' (<[k := Some v]> changes)
      else Err KeyIsOutOfRange
  end.

Fixpoint record_deletes (range : KeyRange) (dels : list Bytes) (changes : Changes)
    : result Error Changes :=
  match dels with
  | [] => Ok changes
  | k :: dels' =>
      if includes range k then record_deletes range dels' (<[k := None]> changes)
      else Err KeyIsOutOfRange
  end.

Definition prepare_record (range : KeyRange) (req : PrepareRequest) : result Error Changes :=
  match record_puts range (default [] (req_puts req)) ∅ with
  | Ok changes => record_deletes range (default [] (req_deletes req)) changes
  | r => r
  end.

Definition has_writes (req : PrepareRequest) : bool :=
  match default [] (req_puts req), default [] (req_deletes req) with
  | [], [] => false
  | _, _ => true
  end.

Inductive prepare_begun :=
| ReadOnly (r : PrepareResult)
| WaitLock (c : positive) (changes : Changes).

(** up to the wait for the range lock *)
Definition prepare_begin (tx : TransactionInfo) (now now' : Z) (req : PrepareRequest)
    (rm : RangeManager Sto Log) : RangeManager Sto Log * result Error prepare_begun :=
  match state rm with
  | Loaded st =>
      let holding := LockTable.is_currently_holding [tx_id tx] (lock_table st) in
      if has_writes req then
        match prepare_record (Storage.key_range (range_info st)) req with
        | Ok changes =>
            if has_reads req && negb holding then
              (rm, Err (TransactionAborted TransactionLockLost))
            else
              let (lt, c) := LockTable.acquire tx now now' (lock_table st) in
              (set_state (Loaded (set_lock_table lt st)) rm, Ok (WaitLock c changes))
        | Err e => (rm, Err e)
        | Panic => (rm, Panic)
        end
      else
        let res := mkPrepareResult (highest_known_epoch st)
                     (Storage.epoch_lease (range_info st)) [] false in
        if has_reads req then
          if holding then
            let (lt, ok) := LockTable.release None now (lock_table st) in
            (set_state (Loaded (set_lock_table lt st)) rm, if ok then Ok (ReadOnly res) else Panic)
          else (rm, Err (TransactionAborted TransactionLockLost))
        else (rm, Ok (ReadOnly res))
  | _ => (rm, Err RangeIsNotLoaded)
  end.

(** [contention] is the reading of [get_num_waiters_and_pending] *)
Definition do_early_lock_release (rm : RangeManager Sto Log) (contention : nat)
    (load : spec_float) (open_clients : Z) : bool :=
  let f := Float64.of_Z in
  let decide_by proxy high low :=
    if Float64.ge load (f 5000%Z) then false
    else if Float64.le (f 200%Z) load && Float64.lt load (f 5000%Z) then Float64.gt proxy (f high)
    else if Float64.le (f 50%Z) load && Float64.lt load (f 200%Z) then Float64.gt proxy (f low)
    else true in
  match commit_strategy rm with
  | Pipelined => true
  | Traditional => false
  | Adaptive =>
      match heuristic rm with
      | OpenClients => decide_by (f open_clients) 100%Z 50%Z
      | LockContention => decide_by (f (Z.of_nat contention)) 40%Z 20%Z
      end
  end.

(** the loop over [early_lock_release_per_key] *)
Fixpoint update_pending (tx : Uuid) (flags : list (Bytes * bool)) (pct : gmap Bytes Uuid)
    (deps : gset Uuid) : gmap Bytes Uuid * gset Uuid :=
  match flags with
  | [] => (pct, deps)
  | (key, early) :: flags' =>
      let deps' := match pct !! key with Some d => {[d]} ∪ deps | None => deps end in
      let pct' := if early : bool then <[key := tx]> pct else delete key pct in
      update_pending tx flags' pct' deps'
  end.

(** With the lock, up to the wait for the log: the result and the receiver.
    [contention key] is the contention read when the decision for [key] is
    made; the readings of different keys are made at different times. *)
Definition prepare_locked `{HashOrder} (tx : TransactionInfo) (now : Z) (req : PrepareRequest)
    (changes : Changes) (contention : Bytes -> nat) (rm : RangeManager Sto Log)
    : RangeManager Sto Log * result Error (PrepareResult * positive) :=
  match state rm with
  | Loaded st =>
      let early key := do_early_lock_release rm (contention key)
                         (resolver_average_load req) (num_open_clients req) in
      let flags := (fun key => (key, early key)) <$> hash_iter (dom changes) in
      let records := <[tx_id tx := changes]> (pending_prepare_records (pending_state st)) in
      let '(pct, deps) :=
        if decide (commit_strategy rm = Traditional)
        then (pending_commit_table (pending_state st), ∅)
        else update_pending (tx_id tx) flags (pending_commit_table (pending_state st)) ∅ in
      let st1 := set_pending (mkPendingState records pct) st in
      match Wal.wal_append Wal.Prepare (prepare_buf req) (wal rm) with
      | (w, Ok receiver) =>
          let rm1 := set_wal w rm in
          let res released := mkPrepareResult 0 (Storage.epoch_lease (range_info st))
                                (hash_iter deps) released in
          match flags with
          | [] => (set_state (Loaded st1) rm1, Panic)
          | (_, true) :: _ =>
              let (lt, ok) := LockTable.soft_release now (lock_table st1) in
              (set_state (Loaded (set_lock_table lt st1)) rm1,
               if ok then Ok (res true, receiver) else Panic)
          | (_, false) :: _ => (set_state (Loaded st1) rm1, Ok (res false, receiver))
          end
      | (w, Err e) => (set_state (Loaded st1) (set_wal w rm), Err (from_wal_error e))
      | (w, Panic) => (set_state (Loaded st1) (set_wal w rm), Panic)
      end
  | _ => (rm, Err RangeIsNotLoaded)
  end.

(** flushing in the background and [receiver.await.unwrap().unwrap()]; [None]
    is a receiver that has no answer yet *)
Definition await_log (receiver : positive) (rm : RangeManager Sto Log)
    : RangeManager Sto Log * option (result Error unit) :=
  let w := Wal.wal_flush (wal rm) in
  (set_wal w rm,
   match Wal.wal_answer receiver w with
   | Some (Ok _) => Some (Ok tt)
   | Some _ => Some Panic
   | None => None
   end).

(** [prepare] when the lock is granted and the log answers at once; [None] is
    a call that waits *)
Definition prepare `{HashOrder} (tx : TransactionInfo) (now now' : Z) (req : PrepareRequest)
    (contention : Bytes -> nat) (rm : RangeManager Sto Log)
    : RangeManager Sto Log * option (result Error PrepareResult) :=
  match prepare_begin tx now now' req rm with
  | (rm1, Ok (ReadOnly r)) => (rm1, Some (Ok r))
  | (rm1, Ok (WaitLock c changes)) =>
      if lock_granted c rm1 then
        match prepare_locked tx now req changes contention rm1 with
        | (rm2, Ok (r, receiver)) =>
            match await_log receiver rm2 with
            | (rm3, Some (Ok _)) => (rm3, Some (Ok r))
            | (rm3, Some _) => (rm3, Some Panic)
            | (rm3, None) => (rm3, None)
            end
        | (rm2, Err e) => (rm2, Some (Err e))
        | (rm2, Panic) => (rm2, Some Panic)
        end
      else (rm1, None)
  | (rm1, Err e) => (rm1, Some (Err e))
  | (rm1, Panic) => (rm1, Some Panic)
  end.

(** ** [abort] *)

Definition abort (tx : TransactionInfo) (now : Z) (req : AbortRequest) (rm : RangeManager Sto Log)
    : RangeManager Sto Log * option (result Error unit) :=
  match state rm with
  | Loaded st =>
      if LockTable.is_currently_holding [tx_id tx] (lock_table st) then
        match Wal.wal_append Wal.Abort (abort_buf req) (wal rm) with
        | (w, Ok receiver) =>
            match await_log receiver (set_wal w rm) with
            | (rm1, Some (Ok _)) =>
                let (lt, ok) := LockTable.release None now (lock_table st) in
                (set_state (Loaded (set_lock_table lt st)) rm1,
                 Some (if ok then Ok tt else Panic))
            | (rm1, r) => (rm1, r)
            end
        | (w, Err e) => (set_wal w rm, Some (Err (from_wal_error e)))
        | (w, Panic) => (set_wal w rm, Some Panic)
        end
      else (rm, Some (Ok tt))
  | _ => (rm, Some (Err RangeIsNotLoaded))
  end.

(** ** [commit] *)

(** collecting the prepare records; [None] is the panic on a missing one *)
Fixpoint collect_records (txs : list Uuid) (records : gmap Uuid Changes)
    : option (list (Uuid * Changes)) :=
  match txs with
  | [] => Some []
  | tx :: txs' =>
      match records !! tx with
      | Some changes => ((tx, changes) ::.) <$> collect_records txs' records
      | None => None
      end
  end.

(** the loop over the transactions, in order: every key with its last value
    and the last transaction that wrote it *)
Fixpoint merge_changes (rs : list (Uuid * Changes)) (all_changes : Changes)
    (last_tx_per_key : gmap Bytes Uuid) : Changes * gmap Bytes Uuid :=
  match rs with
  | [] => (all_changes, last_tx_per_key)
  | (tx, changes) :: rs' =>
      merge_changes rs' (changes ∪ all_changes) ((const tx <$> changes) ∪ last_tx_per_key)
  end.

(** writing a change to the prefetching buffer *)
Definition buffer_change (b : Prefetching.State) (kv : Bytes * option Bytes) : Prefetching.State :=
  match kv with
  | (key, Some v) => Prefetching.upsert key v b
  | (key, None) => Prefetching.buffer_delete key b
  end.

(** after the log has answered: the writes to storage and buffer. The result
    is what the rest of [commit] needs. *)
Definition commit_apply `{HashOrder} (txs : list Uuid) (req : CommitRequest)
    (rm : RangeManager Sto Log) : RangeManager Sto Log * result Error (gmap Bytes Uuid) :=
  match state rm with
  | Loaded st =>
      match collect_records txs (pending_prepare_records (pending_state st)) with
      | None => (rm, Panic)
      | Some rs =>
          let '(all_changes, last) := merge_changes rs ∅ ∅ in
          let version := Storage.mkKeyVersion (commit_epoch req) (wrap_u64 (commit_vid req)) in
          if decide (all_changes = ∅) then (rm, Ok last)
          else
            match Storage.st_batch_upsert _ (range_id rm) all_changes version (storage rm) with
            | (s, Ok _) =>
                (set_buffer (foldl buffer_change (prefetching_buffer rm) (hash_iter_map all_changes))
                   (set_storage s rm), Ok last)
            | (s, Err e) => (set_storage s rm, Err (from_storage_error e))
            | (s, Panic) => (set_storage s rm, Panic)
            end
      end
  | _ => (rm, Err RangeIsNotLoaded)
  end.

(** the loop over [last_tx_per_key] *)
Definition clear_pending (last : list (Bytes * Uuid)) (pct : gmap Bytes Uuid) : gmap Bytes Uuid :=
  foldl (fun pct '(key, tx) => if decide (pct !! key = Some tx) then delete key pct else pct)
    pct last.

(** the update of the pending state, and the release of the lock *)
Definition commit_clear `{HashOrder} (txs : list Uuid) (last : gmap Bytes Uuid) (now : Z)
    (rm : RangeManager Sto Log) : RangeManager Sto Log * result Error unit :=
  match state rm with
  | Loaded st =>
      let p := pending_state st in
      let pct := if decide (commit_strategy rm = Traditional) then pending_commit_table p
                 else clear_pending (hash_iter_map last) (pending_commit_table p) in
      let records := foldl (fun m tx => delete tx m) (pending_prepare_records p) txs in
      let '(lt, ok) :=
        match LockTable.get_current_holder_id (lock_table st) with
        | Some h => if decide (h ∈ txs) then LockTable.release None now (lock_table st)
                    else (lock_table st, true)
        | None => (lock_table st, true)
        end in
      let lt' := if ok : bool then LockTable.clean_soft_released txs lt else lt in
      (set_state (Loaded (set_lock_table lt' (set_pending (mkPendingState records pct) st))) rm,
       if ok then Ok tt else Panic)
  | _ => (rm, Err RangeIsNotLoaded)
  end.

Definition commit `{HashOrder} (txs : list Uuid) (req : CommitRequest) (now : Z)
    (rm : RangeManager Sto Log) : RangeManager Sto Log * option (result Error unit) :=
  match state rm with
  | Loaded _ =>
      match Wal.wal_append Wal.Commit (commit_buf req) (wal rm) with
      | (w, Ok receiver) =>
          match await_log receiver (set_wal w rm) with
          | (rm1, Some (Ok _)) =>
              match commit_apply txs req rm1 with
              | (rm2, Ok last) =>
                  let (rm3, r) := commit_clear txs last now rm2 in (rm3, Some r)
              | (rm2, Err e) => (rm2, Some (Err e))
              | (rm2, Panic) => (rm2, Some Panic)
              end
          | (rm1, r) => (rm1, r)
          end
      | (w, Err e) => (set_wal w rm, Some (Err (from_wal_error e)))
      | (w, Panic) => (set_wal w rm, Some Panic)
      end
  | _ => (rm, Some (Err RangeIsNotLoaded))
  end.

(** ** [prefetch] *)

Definition prefetch_get (key : Bytes) (rm : RangeManager Sto Log) : result Error (option Bytes) :=
  match Storage.st_get (range_id rm) key (storage rm) with
  | Ok v => Ok v
  | Err e => Err (from_storage_error e)
  | Panic => Panic
  end.

(** the critical sections of the buffer at the two ends of the fetch *)
Definition prefetch_begin (tx : Uuid) (key : Bytes) (rm : RangeManager Sto Log)
    : RangeManager Sto Log * Prefetching.begin_result :=
  let (b, r) := Prefetching.request_begin tx key (prefetching_buffer rm) in (set_buffer b rm, r).

Definition prefetch_end (key : Bytes) (n : N) (fetched : result Error (option Bytes))
    (rm : RangeManager Sto Log) : RangeManager Sto Log * result Error unit :=
  match fetched with
  | Ok v => (set_buffer (Prefetching.fetch_complete key v n (prefetching_buffer rm)) rm, Ok tt)
  | Err _ => (set_buffer (Prefetching.fetch_failed key n (prefetching_buffer rm)) rm,
              Err PrefetchError)
  | Panic => (rm, Panic)
  end.

(** ** The renewal task: one round of [renew_epoch_lease_task] *)

(** the lease to ask for; [None] is a round that only sleeps *)
Definition renew_request (n : Z) (rm : RangeManager Sto Log) : option ((Z * Z) * (Z * Z) * Z) :=
  match state rm with
  | Loaded st =>
      let old := Storage.epoch_lease (range_info st) in
      if (2 * n <? old.2)%Z then None
      else Some (old, next_lease old n, Storage.leader_sequence_number (range_info st))
  | _ => None
  end.

(** [HighestKnownEpoch::maybe_update] *)
Definition maybe_update (new_epoch v : Z) : Z := Z.max v new_epoch.

(** the update after the storage has granted the lease; the panic is the
    assertion that nobody else has changed the lease *)
Definition renew_finish (old lease : Z * Z) (rm : RangeManager Sto Log)
    : RangeManager Sto Log * result Error unit :=
  match state rm with
  | Loaded st =>
      let info := range_info st in
      if decide (Storage.epoch_lease info = old) then
        let lease' := if (lease.1 - old.2 =? 1)%Z then (old.1, lease.2) else lease in
        (set_state (Loaded (mkLoadedState
           (Storage.mkRangeInfo (Storage.info_id info) (Storage.key_range info)
              (Storage.leader_sequence_number info) lease')
           (maybe_update 1 (highest_known_epoch st)) (lock_table st) (pending_state st))) rm, Ok tt)
      else (rm, Panic)
  | _ => (rm, Err RangeIsNotLoaded)
  end.

Definition renew_epoch_lease_round (n : Z) (rm : RangeManager Sto Log)
    : RangeManager Sto Log * result Error unit :=
  match renew_request n rm with
  | None => (rm, Ok tt)
  | Some (old, lease, leader) =>
      match Storage.st_renew_epoch_lease (range_id rm) lease leader (storage rm) with
      | (s, Ok _) => renew_finish old lease (set_storage s rm)
      | (s, Err e) => (set_storage s rm, Err (from_storage_error e))
      | (s, Panic) => (set_storage s rm, Panic)
      end
  end.

(** ** What a range shows *)

(** the committed value of a key *)
Definition stored (rm : RangeManager Sto Log) (k : Bytes) : option Bytes :=
  match Prefetching.get_from_buffer k (prefetching_buffer rm) with
  | Some v => Some v
  | None => Storage.st_content (storage rm) (range_id rm) k
  end.

(** the transaction a reader of the key depends on *)
Definition pending_writer (rm : RangeManager Sto Log) (k : Bytes) : option Uuid :=
  match state rm with
  | Loaded st => if decide (commit_strategy rm = Traditional) then None
                 else pending_commit_table (pending_state st) !! k
  | _ => None
  end.

Definition record_of (rm : RangeManager Sto Log) (tx : Uuid) : option Changes :=
  match state rm with
  | Loaded st => pending_prepare_records (pending_state st) !! tx
  | _ => None
  end.

(** the value a transaction that gets the lock reads, by the pending state;
    [follows] relates it to what has happened *)
Definition view (rm : RangeManager Sto Log) (k : Bytes) : option Bytes :=
  match pending_writer rm k with
  | Some tx => default None (ch ← record_of rm tx; ch !! k)
  | None => stored rm k
  end.

(** every entry of the pending commit table has its prepare record *)
Definition wf (rm : RangeManager Sto Log) : Prop :=
  forall k tx, pending_writer rm k = Some tx ->
  exists ch v, record_of rm tx = Some ch /\ ch !! k = Some v.

(** the last of the transactions that writes a key, and what it writes *)
Definition last_write (rs : list (Uuid * Changes)) (k : Bytes) : option (Uuid * option Bytes) :=
  foldl (fun acc '(tx, ch) => match ch !! k with Some v => Some (tx, v) | None => acc end) None rs.

(** a commit of [rs] does not leave out or reorder what is pending: the
    pending writer of a key is the last of them to write it *)
Definition in_order (rs : list (Uuid * Changes)) (rm : RangeManager Sto Log) : Prop :=
  forall k tx, pending_writer rm k = Some tx -> tx ∈ rs.*1 ->
  fst <$> last_write rs k = Some tx.

(** ** Interleavings *)

(** the decision for a key *)
Definition early_release (rm : RangeManager Sto Log) (req : PrepareRequest)
    (contention : Bytes -> nat) (k : Bytes) : bool :=
  do_early_lock_release rm (contention k) (resolver_average_load req) (num_open_clients req).

(** What has happened to a range, for its readers: a transaction has prepared, and
    has released the lock on some keys before its commit; a commit has ended; the
    range has been loaded or unloaded. *)
Inductive Event :=
| Prepared (tx : Uuid) (changes : Changes) (released : Bytes -> bool)
| Committed (txs : list Uuid)
| Restarted.

(** The last transaction that has written the key, and what it wrote: if it has
    released the lock on the key early and is not committed. *)
Definition last_released (log : list Event) (k : Bytes) : option (Uuid * option Bytes) :=
  foldl (fun acc e => match e with
    | Prepared tx changes released =>
        match changes !! k with
        | Some v => if released k then Some (tx, v) else None
        | None => acc
        end
    | Committed txs => match acc with
                       | Some (tx, v) => if decide (tx ∈ txs) then None else Some (tx, v)
                       | None => None
                       end
    | Restarted => None
    end) None log.

(** The range manager, the commits that are between their write to the storage and
    their update of the pending state (the transactions and the last writers they
    collected), and what has happened so far. *)
Definition Running : Type :=
  RangeManager Sto Log * list (list Uuid * gmap Bytes Uuid) * list Event.

(** A commit is of transactions whose records are in the order of their writes, and
    a transaction prepares once. Loading and unloading take the write lock on the
    state, so no commit is running. *)
Inductive step : Running -> Running -> Prop :=
| step_load_begin rm log : step (rm, [], log) ((load_begin rm).1, [], log)
| step_load rm d rm1 r log :
    state rm <> NotLoaded -> load_inner d rm = (rm1, r) ->
    step (rm, [], log)
      ((load_finish r rm1).1, [], match r with Panic => log | _ => log ++ [Restarted] end)
| step_unload rm log : step (rm, [], log) (unload rm, [], log ++ [Restarted])
| step_get rm ap tx now now' key log : step (rm, ap, log) ((get_begin tx now now' key rm).1, ap, log)
| step_prepare_begin rm ap tx now now' req log :
    step (rm, ap, log) ((prepare_begin tx now now' req rm).1, ap, log)
| step_prepare rm ap order tx now req changes contention st log :
    state rm = Loaded st ->
    record_of rm (tx_id tx) = None -> (forall txs last, (txs, last) ∈ ap -> tx_id tx ∉ txs) ->
    step (rm, ap, log)
      ((prepare_locked (H1 := order) tx now req changes contention rm).1, ap,
       log ++ [Prepared (tx_id tx) changes (early_release rm req contention)])
| step_log rm ap w log : step (rm, ap, log) (set_wal w rm, ap, log)
| step_buffer rm ap b log : step (rm, ap, log) (set_buffer b rm, ap, log)
| step_abort rm ap tx now req log : step (rm, ap, log) ((abort tx now req rm).1, ap, log)
| step_apply rm ap order txs req rm1 last log :
    commit_apply (H1 := order) txs req rm = (rm1, Ok last) ->
    (forall st rs, state rm = Loaded st ->
     collect_records txs (pending_prepare_records (pending_state st)) = Some rs -> in_order rs rm) ->
    step (rm, ap, log) (rm1, (txs, last) :: ap, log)
| step_apply_failed rm ap order txs req rm1 e log :
    commit_apply (H1 := order) txs req rm = (rm1, Err e) -> step (rm, ap, log) (rm1, ap, log)
| step_clear rm ap1 ap2 order txs last now log :
    step (rm, ap1 ++ (txs, last) :: ap2, log)
         ((commit_clear (H1 := order) txs last now rm).1, ap1 ++ ap2, log ++ [Committed txs])
| step_renew rm ap n log : step (rm, ap, log) ((renew_epoch_lease_round n rm).1, ap, log).

(** ** Lemmas *)

Lemma last_write_acc rs k acc :
  foldl (fun acc '(tx, ch) => match ch !! k with Some v => Some (tx, v) | None => acc end) acc rs =
  match last_write rs k with Some p => Some p | None => acc end.
Proof.
  unfold last_write. revert acc; induction rs as [|[tx ch] rs IH]; intros acc; [done|]. cbn.
  rewrite IH, (IH (match _ with Some v => _ | None => None end)).
  destruct (foldl _ None rs); [done|]. by destruct (ch !! k).
Qed.

Lemma last_write_cons tx ch rs k :
  last_write ((tx, ch) :: rs) k =
  match last_write rs k with
  | Some p => Some p
  | None => (fun v => (tx, v)) <$> ch !! k
  end.
Proof. unfold last_write at 1. cbn. rewrite last_write_acc. by destruct (ch !! k). Qed.

Lemma last_write_in rs k tx v : last_write rs k = Some (tx, v) ->
  exists ch, (tx, ch) ∈ rs /\ ch !! k = Some v.
Proof.
  induction rs as [|[tx' ch'] rs IH]; [done|]. rewrite last_write_cons.
  destruct (last_write rs k) as [p|].
  - intros [= ->]. destruct IH as (ch & ? & ?); [done|]. exists ch. split; [by right|done].
  - destruct (ch' !! k) as [v'|] eqn:E; cbn; [|done]. intros [= <- <-]. exists ch'. split; [by left|done].
Qed.

Lemma last_write_some rs k tx ch v :
  (tx, ch) ∈ rs -> ch !! k = Some v -> is_Some (last_write rs k).
Proof.
  induction rs as [|[tx' ch'] rs IH]; [by intros ?%elem_of_nil|].
  intros Hin Hk. rewrite last_write_cons. destruct (last_write rs k) as [p|] eqn:E; [by eexists|].
  apply elem_of_cons in Hin as [[= <- <-]|Hin].
  - rewrite Hk. by eexists.
  - by destruct (IH Hin Hk).
Qed.

Lemma merge_changes_spec rs a l a' l' k :
  merge_changes rs a l = (a', l') ->
  a' !! k = match last_write rs k with Some (_, v) => Some v | None => a !! k end /\
  l' !! k = match last_write rs k with Some (tx, _) => Some tx | None => l !! k end.
Proof.
  revert a l; induction rs as [|[tx ch] rs IH]; intros a l; cbn [merge_changes].
  - by intros [= <- <-].
  - intros [-> ->]%IH. rewrite last_write_cons. destruct (last_write rs k) as [[t v]|]; [done|].
    rewrite !lookup_union, lookup_fmap. destruct (ch !! k), (a !! k), (l !! k); done.
Qed.

Lemma collect_records_spec txs records rs :
  collect_records txs records = Some rs ->
  rs.*1 = txs /\ forall tx ch, (tx, ch) ∈ rs -> records !! tx = Some ch.
Proof.
  revert rs; induction txs as [|tx txs IH]; intros rs; cbn [collect_records].
  - intros [= <-]. split; [done|]. by intros tx ch ?%elem_of_nil.
  - destruct (records !! tx) as [ch|] eqn:E; [|done].
    destruct (collect_records txs records) as [rs'|] eqn:Er; cbn; [|done]. intros [= <-].
    destruct (IH rs' eq_refl) as [<- Hin]. split; [done|].
    intros tx' ch' [[= -> ->]|?]%elem_of_cons; [done|by apply Hin].
Qed.

Lemma clear_pending_list last pct k :
  NoDup last.*1 ->
  clear_pending last pct !! k =
  match pct !! k with
  | Some tx => if decide (list_to_map (M := gmap Bytes Uuid) last !! k = Some tx)
               then None else Some tx
  | None => None
  end.
Proof.
  unfold clear_pending. revert pct; induction last as [|[k' tx'] last IH]; intros pct Hnd.
  { cbn. destruct (pct !! k); [|done]. by rewrite decide_False. }
  rewrite fmap_cons, NoDup_cons in Hnd. destruct Hnd as [Hk Hnd]. cbn [foldl list_to_map foldr].
  rewrite IH by done. cbn. destruct (decide (k' = k)) as [->|Hne].
  - rewrite lookup_insert_eq, (not_elem_of_list_to_map_1 last k Hk).
    case_decide as E; [by rewrite lookup_delete_eq, E, decide_True|].
    destruct (pct !! k) as [t|] eqn:Ek; [|done]. by rewrite !decide_False by congruence.
  - rewrite lookup_insert_ne by done. case_decide; [|done]. by rewrite lookup_delete_ne.
Qed.

Lemma clear_pending_spec `{HashOrder} (last : gmap Bytes Uuid) pct k :
  clear_pending (hash_iter_map last) pct !! k =
  match pct !! k with
  | Some tx => if decide (last !! k = Some tx) then None else Some tx
  | None => None
  end.
Proof.
  rewrite clear_pending_list by apply hash_iter_map_NoDup. by rewrite hash_iter_to_map.
Qed.

Lemma delete_records (txs : list Uuid) (m : gmap Uuid Changes) tx :
  foldl (fun m tx => delete tx m) m txs !! tx = if decide (tx ∈ txs) then None else m !! tx.
Proof.
  revert m; induction txs as [|t txs IH]; intros m; cbn [foldl].
  - by rewrite decide_False by (apply not_elem_of_nil).
  - rewrite IH. destruct (decide (tx = t)) as [->|Hne].
    + rewrite lookup_delete_eq, (decide_True (P := t ∈ t :: txs)) by (by left). by case_decide.
    + rewrite lookup_delete_ne by done. apply decide_ext. rewrite elem_of_cons. naive_solver.
Qed.

(** the buffer after a batch of puts *)
Lemma buffer_puts l b k :
  NoDup l.*1 -> (forall k', (k', None) ∉ l) ->
  Prefetching.get_from_buffer k (foldl buffer_change b l) =
  match list_to_map (M := gmap Bytes (option Bytes)) l !! k with
  | Some v => v
  | None => Prefetching.get_from_buffer k b
  end.
Proof.
  revert b; induction l as [|[k' v] l IH]; intros b Hnd Hput; [done|].
  rewrite fmap_cons, NoDup_cons in Hnd. destruct Hnd as [Hk Hnd]. cbn [foldl].
  rewrite IH; [|done|intros k2 Hk2; apply (Hput k2); by right].
  destruct v as [v|]; [|by destruct (Hput k'); left]. cbn.
  destruct (decide (k' = k)) as [->|Hne].
  - rewrite lookup_insert_eq, (not_elem_of_list_to_map_1 l k Hk). apply lookup_insert_eq.
  - rewrite lookup_insert_ne by done. destruct (list_to_map l !! k); [done|].
    by apply lookup_insert_ne.
Qed.

Lemma update_pending_spec tx flags pct deps pct' deps' :
  update_pending tx flags pct deps = (pct', deps') -> NoDup flags.*1 ->
  (forall k, pct' !! k =
    match list_to_map (M := gmap Bytes bool) flags !! k with
    | Some true => Some tx
    | Some false => None
    | None => pct !! k
    end) /\
  (forall d, d ∈ deps' <-> d ∈ deps \/ exists k, k ∈ flags.*1 /\ pct !! k = Some d).
Proof.
  revert pct deps; induction flags as [|[k0 e] flags IH]; intros pct deps; cbn [update_pending].
  { intros [= <- <-] _. split; [done|]. intros d. cbn. setoid_rewrite elem_of_nil. naive_solver. }
  intros Hu Hnd. rewrite fmap_cons, NoDup_cons in Hnd. destruct Hnd as [Hk Hnd].
  apply IH in Hu as [Hp Hd]; [|done]. split.
  - intros k. rewrite Hp. cbn. destruct (decide (k0 = k)) as [->|Hne].
    + rewrite lookup_insert_eq, (not_elem_of_list_to_map_1 flags k Hk).
      destruct e; [apply lookup_insert_eq|apply lookup_delete_eq].
    + rewrite lookup_insert_ne by done. destruct (list_to_map flags !! k); [done|].
      destruct e; [by apply lookup_insert_ne|by apply lookup_delete_ne].
  - intros d. rewrite Hd.
    assert (Hsame : forall k, k ∈ flags.*1 ->
      (if e then <[k0:=tx]> pct else delete k0 pct) !! k = pct !! k).
    { intros k Hin. assert (k0 <> k) by (by intros ->).
      destruct e; [by apply lookup_insert_ne|by apply lookup_delete_ne]. }
    rewrite fmap_cons. setoid_rewrite elem_of_cons.
    destruct (pct !! k0) as [d0|] eqn:E0; cbn.
    + rewrite elem_of_union, elem_of_singleton. split.
      * intros [[->|?]|(k & Hin & Hk')]; [right; eauto|by left|].
        rewrite Hsame in Hk' by done. eauto.
      * intros [?|(k & [->|Hin] & Hk')]; [auto|left; left; congruence|].
        right. exists k. by rewrite Hsame.
    + split.
      * intros [?|(k & Hin & Hk')]; [by left|]. rewrite Hsame in Hk' by done. eauto.
      * intros [?|(k & [->|Hin] & Hk')]; [auto|congruence|]. right. exists k. by rewrite Hsame.
Qed.

(** *** The pending state through the operations *)

Definition pending (rm : RangeManager Sto Log) : option PendingState :=
  match state rm with Loaded st => Some (pending_state st) | _ => None end.

Definition same_pending (rm rm' : RangeManager Sto Log) : Prop :=
  commit_strategy rm' = commit_strategy rm /\ pending rm' = pending rm.

Lemma same_pending_reads rm rm' : same_pending rm rm' ->
  (forall k, pending_writer rm' k = pending_writer rm k) /\
  (forall tx, record_of rm' tx = record_of rm tx).
Proof.
  unfold same_pending, pending, pending_writer, record_of. intros [-> Hp].
  destruct (state rm'), (state rm); try done; injection Hp as ->; done.
Qed.

Lemma same_pending_wf rm rm' : same_pending rm rm' -> wf rm -> wf rm'.
Proof.
  intros (Hw & Hr)%same_pending_reads Hwf k tx. rewrite Hw, Hr. apply Hwf.
Qed.

Ltac same := unfold same_pending, pending, set_wal, set_buffer, set_storage, set_state;
  cbn [state commit_strategy]; repeat (case_match; cbn [state commit_strategy fst snd] in * );
  simplify_eq/=; done.

Lemma load_begin_pending rm : same_pending rm (load_begin rm).1.
Proof. unfold load_begin, set_subscribers. same. Qed.

Lemma get_begin_pending tx now now' key rm :
  same_pending rm (get_begin tx now now' key rm).1.
Proof. unfold get_begin. same. Qed.

Lemma prepare_begin_pending tx now now' req rm :
  same_pending rm (prepare_begin tx now now' req rm).1.
Proof. unfold prepare_begin. same. Qed.

Lemma abort_pending tx now req rm : same_pending rm (abort tx now req rm).1.
Proof. unfold abort, await_log. same. Qed.

Lemma apply_pending `{HashOrder} txs req rm : same_pending rm (commit_apply txs req rm).1.
Proof. unfold commit_apply. same. Qed.

Lemma renew_pending n rm : same_pending rm (renew_epoch_lease_round n rm).1.
Proof. unfold renew_epoch_lease_round, renew_finish. same. Qed.

Lemma load_inner_new d rm rm' st : load_inner d rm = (rm', Ok st) ->
  pending_state st = mkPendingState ∅ ∅.
Proof. unfold load_inner. repeat case_match; intros; simplify_eq; done. Qed.

Lemma load_inner_frame d rm rm' r : load_inner d rm = (rm', r) ->
  state rm' = state rm /\ commit_strategy rm' = commit_strategy rm.
Proof. unfold load_inner. repeat case_match; intros; simplify_eq; done. Qed.

(** a range that has just been loaded, or could not be, has no pending writes *)
Lemma finish_new d rm rm' r k : load_inner d rm = (rm', r) -> r <> Panic ->
  pending_writer (load_finish r rm').1 k = None.
Proof.
  intros Hl Hr. unfold load_finish, pending_writer. destruct r as [st|e|]; [|by case_decide|done].
  case_decide; cbn; rewrite (load_inner_new _ _ _ _ Hl); by case_decide.
Qed.

(** [commit_clear] in one equation *)
Lemma clear_state `{HashOrder} txs last now rm st : state rm = Loaded st ->
  exists lt, (commit_clear txs last now rm).1 =
  set_state (Loaded (set_lock_table lt (set_pending (mkPendingState
    (foldl (fun m tx => delete tx m) (pending_prepare_records (pending_state st)) txs)
    (if decide (commit_strategy rm = Traditional)
     then pending_commit_table (pending_state st)
     else clear_pending (hash_iter_map last) (pending_commit_table (pending_state st)))) st))) rm.
Proof.
  unfold commit_clear. intros ->.
  destruct (match LockTable.get_current_holder_id (lock_table st) with Some _ => _ | None => _ end).
  by eexists.
Qed.

Lemma clear_reads `{HashOrder} txs last now rm k :
  pending_writer (commit_clear txs last now rm).1 k =
  match pending_writer rm k with
  | Some tx => if decide (last !! k = Some tx) then None else Some tx
  | None => None
  end.
Proof.
  destruct (state rm) as [| |st|] eqn:E;
    [unfold commit_clear, pending_writer; by rewrite E; cbn; rewrite E..| |
     unfold commit_clear, pending_writer; by rewrite E; cbn; rewrite E].
  destruct (clear_state txs last now rm st E) as [lt ->].
  unfold pending_writer. rewrite E. cbn. case_decide; [done|]. apply clear_pending_spec.
Qed.

Lemma clear_records `{HashOrder} txs last now rm tx :
  is_Some (pending rm) ->
  record_of (commit_clear txs last now rm).1 tx =
  if decide (tx ∈ txs) then None else record_of rm tx.
Proof.
  unfold pending. destruct (state rm) as [| |st|] eqn:E; [by intros []..| |by intros []]. intros _.
  destruct (clear_state txs last now rm st E) as [lt ->].
  unfold record_of. rewrite E. cbn. apply delete_records.
Qed.

Lemma early_flags `{HashOrder} (changes : Changes) (early : Bytes -> bool) :
  let flags := (fun key => (key, early key)) <$> hash_iter (dom changes) in
  flags.*1 = hash_iter (dom changes) /\ NoDup flags.*1 /\
  forall k, list_to_map (M := gmap Bytes bool) flags !! k =
            if decide (is_Some (changes !! k)) then Some (early k) else None.
Proof.
  intros flags.
  assert (Hf : flags.*1 = hash_iter (dom changes)).
  { unfold flags. rewrite <- list_fmap_compose. apply list_fmap_id. }
  assert (Hnd : NoDup flags.*1) by (rewrite Hf; apply hash_iter_NoDup).
  split_and!; [done..|]. intros k. case_decide as Hk.
  - apply elem_of_list_to_map_1; [done|]. apply list_elem_of_fmap. exists k. split; [done|].
    by apply hash_iter_elem_of, elem_of_dom.
  - apply not_elem_of_list_to_map_1. rewrite Hf, hash_iter_elem_of. by rewrite elem_of_dom.
Qed.

(** the pending state after a prepare that has the lock, whatever its result *)
Lemma prepare_reads `{HashOrder} tx now req changes contention rm st k :
  state rm = Loaded st ->
  let rm' := (prepare_locked tx now req changes contention rm).1 in
  (pending_writer rm' k =
   if decide (is_Some (changes !! k) /\ commit_strategy rm <> Traditional)
   then if early_release rm req contention k then Some (tx_id tx) else None
   else pending_writer rm k) /\
  (forall t, record_of rm' t = if decide (t = tx_id tx) then Some changes else record_of rm t).
Proof.
  intros Hst rm'.
  destruct (early_flags changes (early_release rm req contention)) as (Hf & Hnd & Hl).
  assert (exists st', rm'.(state) = Loaded st' /\ commit_strategy rm' = commit_strategy rm /\
    pending_prepare_records (pending_state st') =
      <[tx_id tx := changes]> (pending_prepare_records (pending_state st)) /\
    pending_commit_table (pending_state st') =
      if decide (commit_strategy rm = Traditional) then pending_commit_table (pending_state st)
      else (update_pending (tx_id tx)
              ((fun key => (key, early_release rm req contention key)) <$> hash_iter (dom changes))
              (pending_commit_table (pending_state st)) ∅).1) as (st' & Hs' & Hc' & Hr' & Hp').
  { subst rm'. unfold prepare_locked, early_release. rewrite Hst.
    destruct (if decide (commit_strategy rm = Traditional) then _ else _) as [pct deps] eqn:Hu.
    assert (pct = if decide (commit_strategy rm = Traditional)
                  then pending_commit_table (pending_state st) else (update_pending (tx_id tx)
              ((fun key => (key, early_release rm req contention key)) <$> hash_iter (dom changes))
              (pending_commit_table (pending_state st)) ∅).1) as Hpct.
    { unfold early_release. case_decide; [by simplify_eq|]. by rewrite Hu. }
    unfold early_release in Hpct. rewrite <- Hpct. clear.
    destruct (Wal.wal_append _ _ _) as [w [c|e|]];
      [destruct (_ <$> hash_iter _) as [|[? []] ?]; [|destruct (LockTable.soft_release _ _)|]|..];
      by eexists. }
  split.
  - unfold pending_writer. rewrite Hs', Hc', Hst, Hp'.
    destruct (decide (commit_strategy rm = Traditional)) as [Ht|Ht].
    + rewrite decide_False by naive_solver. done.
    + destruct (update_pending _ _ _ _) as [pct' deps'] eqn:Hu.
      apply update_pending_spec in Hu as [-> _]; [|done]. rewrite Hl.
      destruct (decide (is_Some (changes !! k))).
      * rewrite decide_True by done. by destruct (early_release _ _ _ k).
      * rewrite decide_False by naive_solver. done.
  - intros t. unfold record_of. rewrite Hs', Hst, Hr'. destruct (decide (t = tx_id tx)) as [->|Hne].
    + apply lookup_insert_eq.
    + by apply lookup_insert_ne.
Qed.

(** the invariant of the interleavings: the records of the pending entries
    are there, and a running commit will clear the entries of its records *)
Definition inv (c : RangeManager Sto Log * list (list Uuid * gmap Bytes Uuid)) : Prop :=
  wf c.1 /\ forall txs last k tx, (txs, last) ∈ c.2 ->
            pending_writer c.1 k = Some tx -> tx ∈ txs -> last !! k = Some tx.

Lemma inv_same rm rm' ap : same_pending rm rm' -> inv (rm, ap) -> inv (rm', ap).
Proof.
  intros Hs [Hwf Hap]. split; cbn in *; [by eapply same_pending_wf|].
  destruct (same_pending_reads _ _ Hs) as [Hw _]. setoid_rewrite Hw. exact Hap.
Qed.

Lemma inv_empty rm : (forall k, pending_writer rm k = None) -> inv (rm, []).
Proof.
  intros Hn. split; cbn.
  - intros k tx. by rewrite Hn.
  - by intros txs last k tx ?%elem_of_nil.
Qed.

Lemma inv_prepare `{HashOrder} rm ap tx now req changes contention :
  record_of rm (tx_id tx) = None -> (forall txs last, (txs, last) ∈ ap -> tx_id tx ∉ txs) ->
  inv (rm, ap) -> inv ((prepare_locked tx now req changes contention rm).1, ap).
Proof.
  intros Hrec Hap [Hwf Hin]. cbn in *.
  destruct (state rm) as [| |st|] eqn:Hst;
    [unfold prepare_locked; rewrite Hst; by split..| |unfold prepare_locked; rewrite Hst; by split].
  pose proof (fun k => prepare_reads tx now req changes contention rm st k Hst) as Hp.
  cbv zeta in Hp. split; cbn.
  - intros k t. destruct (Hp k) as [-> Hr]. rewrite Hr.
    destruct (decide (is_Some (changes !! k) /\ _)) as [Hk|Hk].
    + destruct (early_release _ _ _ k); [|done]. intros [= <-]. rewrite decide_True by done.
      destruct Hk as [[v Hv] _]. eauto.
    + intros Hw. destruct (Hwf _ _ Hw) as (ch & v & Hch & Hv).
      rewrite decide_False by congruence. eauto.
  - intros txs last k t Hl. destruct (Hp k) as [-> _].
    destruct (decide (is_Some (changes !! k) /\ _)) as [Hk|Hk].
    + destruct (early_release _ _ _ k); [|done]. intros [= <-] Ht. by destruct (Hap _ _ Hl).
    + by apply Hin.
Qed.

Lemma commit_apply_last `{HashOrder} txs req rm rm1 last :
  commit_apply txs req rm = (rm1, Ok last) ->
  exists st rs, state rm = Loaded st /\
  collect_records txs (pending_prepare_records (pending_state st)) = Some rs /\
  last = (merge_changes rs ∅ ∅).2.
Proof.
  unfold commit_apply. destruct (state rm) as [| |st|]; try done.
  destruct (collect_records _ _) as [rs|] eqn:Hc; [|done].
  destruct (merge_changes rs ∅ ∅) as [all l] eqn:Hm. intros Hr.
  exists st, rs. rewrite Hc, Hm. split_and!; [done..|]. cbn.
  case_decide; [by simplify_eq|]. by destruct (Storage.st_batch_upsert _ _ _ _ _) as [? [[]| |]]; simplify_eq.
Qed.

(** the last writers that a commit collects *)
Lemma commit_last_spec rs k :
  (merge_changes rs ∅ ∅).2 !! k = fst <$> last_write rs k.
Proof.
  destruct (merge_changes rs ∅ ∅) as [a l] eqn:E.
  destruct (merge_changes_spec _ _ _ _ _ k E) as [_ Hl]. cbn. rewrite Hl.
  by destruct (last_write rs k) as [[]|].
Qed.

Lemma inv_apply `{HashOrder} rm ap txs req rm1 last :
  commit_apply txs req rm = (rm1, Ok last) ->
  (forall st rs, state rm = Loaded st ->
   collect_records txs (pending_prepare_records (pending_state st)) = Some rs -> in_order rs rm) ->
  inv (rm, ap) -> inv (rm1, (txs, last) :: ap).
Proof.
  intros Ha Hord Hinv. pose proof (apply_pending txs req rm) as Hs. rewrite Ha in Hs. cbn in Hs.
  destruct (inv_same _ _ _ Hs Hinv) as [Hwf Hin]. split; [done|]. cbn in *.
  destruct (same_pending_reads _ _ Hs) as [Hw _].
  intros txs' last' k tx [[= -> ->]|Hl]%elem_of_cons; [|by apply Hin].
  destruct (commit_apply_last _ _ _ _ _ Ha) as (st & rs & Hst & Hc & ->).
  rewrite Hw, commit_last_spec. intros Hpw Htx. apply (Hord st rs Hst Hc k tx Hpw).
  destruct (collect_records_spec _ _ _ Hc) as [-> _]. done.
Qed.

Lemma inv_clear `{HashOrder} rm ap1 ap2 txs last now :
  inv (rm, ap1 ++ (txs, last) :: ap2) -> inv ((commit_clear txs last now rm).1, ap1 ++ ap2).
Proof.
  intros [Hwf Hin]. cbn in *. split; cbn.
  - intros k tx. rewrite clear_reads. destruct (pending_writer rm k) as [t|] eqn:Hw; [|done].
    case_decide as Hl; [done|]. intros [= ->]. destruct (Hwf _ _ Hw) as (ch & v & Hch & Hv).
    exists ch, v. split; [|done]. rewrite clear_records, decide_False; [done| |].
    + intros Ht. destruct Hl. eapply Hin; [|done..]. apply elem_of_middle_eq.
    + unfold pending. unfold record_of in Hch. by destruct (state rm).
  - intros txs' last' k tx Hl. rewrite clear_reads. destruct (pending_writer rm k) as [t|] eqn:Hw; [|done].
    case_decide; [done|]. intros [= ->]. apply (Hin txs' last' k tx); [|done].
    by apply elem_of_middle.
Qed.

Lemma inv_step c c' : step c c' -> inv c.1 -> inv c'.1.
Proof.
  destruct 1; cbn [fst].
  - apply inv_same, load_begin_pending.
  - intros Hinv.
    assert (Hs : same_pending rm rm1) by
      (destruct (load_inner_frame _ _ _ _ H2) as [E1 E2]; unfold same_pending, pending; by rewrite E1).
    destruct r; [| |by eapply inv_same]; apply inv_empty; intros k; by apply (finish_new d rm).
  - intros _. by apply inv_empty.
  - apply inv_same, get_begin_pending.
  - apply inv_same, prepare_begin_pending.
  - by apply inv_prepare.
  - by apply inv_same.
  - by apply inv_same.
  - apply inv_same, abort_pending.
  - by eapply inv_apply.
  - apply inv_same. pose proof (apply_pending txs req rm) as Hs. by rewrite H1 in Hs.
  - apply inv_clear.
  - apply inv_same, renew_pending.
Qed.

Lemma inv_reachable id cs h s w c : rtc step (new id cs h s w, [], []) c -> inv c.1.
Proof.
  revert c. apply rtc_ind_r; [by apply inv_empty|]. intros c c' _ Hs Hi. by eapply inv_step.
Qed.

(** the pending state is what the history says *)
Record follows (c : Running) : Prop := {
  f_writer k : match last_released c.2 k with
               | Some (tx, v) => pending_writer c.1.1 k = Some tx /\
                                 exists ch, record_of c.1.1 tx = Some ch /\ ch !! k = Some v
               | None => pending_writer c.1.1 k = None
               end;
  f_last txs last k tx : (txs, last) ∈ c.1.2 -> last !! k = Some tx -> tx ∈ txs
}.

Lemma last_released_snoc log e k :
  last_released (log ++ [e]) k =
  match e with
  | Prepared tx changes released =>
      match changes !! k with
      | Some v => if released k then Some (tx, v) else None
      | None => last_released log k
      end
  | Committed txs => match last_released log k with
                     | Some (tx, v) => if decide (tx ∈ txs) then None else Some (tx, v)
                     | None => None
                     end
  | Restarted => None
  end.
Proof. unfold last_released. by rewrite foldl_app. Qed.

Lemma follows_same rm rm' ap log : same_pending rm rm' -> follows (rm, ap, log) -> follows (rm', ap, log).
Proof.
  intros [Hw Hr]%same_pending_reads [Hf Hl]. constructor; cbn [fst snd] in *; [|done].
  intros k. specialize (Hf k). rewrite Hw.
  destruct (last_released log k) as [[tx v]|]; [|exact Hf]. by rewrite Hr.
Qed.

Lemma follows_restart rm log : (forall k, pending_writer rm k = None) -> follows (rm, [], log ++ [Restarted]).
Proof.
  intros Hn. constructor; cbn [fst snd].
  - intros k. by rewrite last_released_snoc.
  - by intros txs last k tx ?%elem_of_nil.
Qed.

Lemma follows_prepare `{HashOrder} rm ap tx now req changes contention st log :
  state rm = Loaded st -> record_of rm (tx_id tx) = None -> follows (rm, ap, log) ->
  follows ((prepare_locked tx now req changes contention rm).1, ap,
    log ++ [Prepared (tx_id tx) changes (early_release rm req contention)]).
Proof.
  intros Hst Hnew [Hf Hl]. constructor; cbn [fst snd] in *; [|done]. intros k. rewrite last_released_snoc.
  destruct (prepare_reads tx now req changes contention rm st k Hst) as [-> Hr].
  destruct (changes !! k) as [v|] eqn:Hk.
  - destruct (decide (commit_strategy rm = Traditional)) as [Ht|Ht].
    + rewrite decide_False by naive_solver. unfold early_release, do_early_lock_release. rewrite Ht.
      unfold pending_writer. by rewrite Hst, decide_True.
    + rewrite decide_True by (split; [by eexists|done]). destruct (early_release _ _ _ k); [|done].
      split; [done|]. exists changes. by rewrite Hr, decide_True.
  - rewrite decide_False by (intros [[]]; done). specialize (Hf k).
    destruct (last_released log k) as [[t v]|]; [|done]. destruct Hf as (Hw & ch & Hch & Hv).
    split; [done|]. exists ch. rewrite Hr, decide_False by congruence. done.
Qed.

Lemma follows_apply `{HashOrder} rm ap txs req rm1 last log :
  commit_apply txs req rm = (rm1, Ok last) -> follows (rm, ap, log) ->
  follows (rm1, (txs, last) :: ap, log).
Proof.
  intros Ha Hfw. pose proof (apply_pending txs req rm) as Hs. rewrite Ha in Hs. cbn in Hs.
  apply (follows_same _ _ _ _ Hs) in Hfw as [Hf Hl]. constructor; cbn [fst snd] in *; [done|].
  destruct (commit_apply_last _ _ _ _ _ Ha) as (st & rs & Hst & Hc & ->).
  destruct (collect_records_spec _ _ _ Hc) as [Hids _].
  intros txs' last' k tx [[= -> ->]|Hin]%elem_of_cons; [|by eapply Hl].
  rewrite commit_last_spec, <- Hids. destruct (last_write rs k) as [[t v]|] eqn:E; [|done].
  intros [= <-]. apply last_write_in in E as (ch & Hin & _). by apply (list_elem_of_fmap_2 fst) in Hin.
Qed.

Lemma follows_clear `{HashOrder} rm ap1 ap2 txs last now log :
  inv (rm, ap1 ++ (txs, last) :: ap2) -> follows (rm, ap1 ++ (txs, last) :: ap2, log) ->
  follows ((commit_clear txs last now rm).1, ap1 ++ ap2, log ++ [Committed txs]).
Proof.
  intros [Hwf Hin] [Hf Hl]. cbn [fst snd] in *. assert (Hm : (txs, last) ∈ ap1 ++ (txs, last) :: ap2) by apply elem_of_middle_eq.
  constructor; cbn [fst snd].
  - intros k. rewrite clear_reads, last_released_snoc. specialize (Hf k).
    destruct (last_released log k) as [[t v]|]; [|by rewrite Hf].
    destruct Hf as (Hw & ch & Hch & Hv). rewrite Hw.
    destruct (decide (t ∈ txs)) as [Ht|Ht].
    + by rewrite decide_True by (by eapply Hin).
    + rewrite decide_False by (intros ?; by eapply Ht, Hl). split; [done|]. exists ch.
      rewrite clear_records, decide_False; [done..|].
      unfold pending, record_of in *. by destruct (state rm).
  - intros txs' last' k tx Hx. eapply Hl. by apply elem_of_middle.
Qed.

Lemma follows_step c c' : step c c' -> inv c.1 -> follows c -> follows c'.
Proof.
  destruct 1; cbn [fst]; intros Hinv; try (by apply follows_same).
  - apply follows_same, load_begin_pending.
  - destruct (load_inner_frame _ _ _ _ H2) as [E1 E2].
    destruct r; [intros _; apply follows_restart; intros k; by apply (finish_new d rm)..|].
    apply follows_same. unfold same_pending, pending. cbn. by rewrite E1.
  - intros _. by apply follows_restart.
  - apply follows_same, get_begin_pending.
  - apply follows_same, prepare_begin_pending.
  - by eapply follows_prepare.
  - apply follows_same, abort_pending.
  - by eapply follows_apply.
  - apply follows_same. pose proof (apply_pending txs req rm) as Hs. by rewrite H1 in Hs.
  - by apply follows_clear.
  - apply follows_same, renew_pending.
Qed.

Lemma follows_reachable id cs h s w c : rtc step (new id cs h s w, [], []) c -> follows c.
Proof.
  revert c. apply (rtc_ind_r (fun c => follows c) (new id cs h s w, [], [])).
  - constructor; [done|]. by intros txs last k tx ?%elem_of_nil.
  - intros c c' Hr Hs Hf. eapply follows_step; [done| |done]. by eapply inv_reachable.
Qed.

(** what a read that has the range lock returns *)
Lemma get_locked_view rm st key :
  wf rm -> state rm = Loaded st ->
  match get_locked key rm with
  | Ok r => val r = view rm key /\ get_dependencies r = option_list (pending_writer rm key)
  | Err e => pending_writer rm key = None /\
             exists e', Storage.st_get (range_id rm) key (storage rm) = Err e' /\
                        e = from_storage_error e'
  | Panic => False
  end.
Proof.
  intros Hwf Hst. specialize (Hwf key). unfold get_locked.
  unfold view, pending_writer, record_of in *. rewrite Hst in *.
  destruct (if decide (commit_strategy rm = Traditional) then None else _) as [dep|].
  { destruct (Hwf dep eq_refl) as (ch & v & -> & Hv). by rewrite Hv; cbn; rewrite Hv. }
  unfold stored. destruct (Prefetching.get_from_buffer _ _); [done|].
  destruct (Storage.st_get _ _ _) as [v|e|] eqn:Hg; cbn.
  - by rewrite (Storage.st_get_ok _ _ _ _ Hg).
  - eauto.
  - by apply Storage.st_get_no_panic in Hg.
Qed.

(** ** Properties *)


Lemma prepare_storage `{HashOrder} tx now req changes contention rm :
  let rm' := (prepare_locked tx now req changes contention rm).1 in
  range_id rm' = range_id rm /\ storage rm' = storage rm /\
  prefetching_buffer rm' = prefetching_buffer rm.
Proof.
  unfold prepare_locked. destruct (state rm) as [| |st|]; try done.
  destruct (if decide _ then _ else _) as [pct deps].
  destruct (Wal.wal_append _ _ _) as [w [c|e|]]; try done.
  destruct (_ <$> hash_iter _) as [|[? []] ?]; try done. by destruct (LockTable.soft_release _ _).
Qed.

Lemma prepare_stored `{HashOrder} tx now req changes contention rm k :
  stored (prepare_locked tx now req changes contention rm).1 k = stored rm k.
Proof.
  destruct (prepare_storage tx now req changes contention rm) as (Hi & Hs & Hb).
  unfold stored. by rewrite Hi, Hs, Hb.
Qed.

Lemma prepare_result `{HashOrder} tx now req changes contention rm st rm' r c :
  state rm = Loaded st -> commit_strategy rm <> Traditional ->
  prepare_locked tx now req changes contention rm = (rm', Ok (r, c)) ->
  (forall d, d ∈ dependencies r <-> exists k, is_Some (changes !! k) /\ pending_writer rm k = Some d) /\
  (released_lock_early r = true -> exists k, is_Some (changes !! k) /\ early_release rm req contention k = true) /\
  (released_lock_early r = false ->
   (exists st', state rm' = Loaded st' /\ lock_table st' = lock_table st) /\
   exists k, is_Some (changes !! k) /\ early_release rm req contention k = false).
Proof.
  intros Hst Hcs.
  assert (Hpw : forall k, pending_writer rm k = pending_commit_table (pending_state st) !! k)
    by (intros k; unfold pending_writer; by rewrite Hst, (decide_False _ _ Hcs)).
  setoid_rewrite Hpw. unfold prepare_locked. rewrite Hst, (decide_False _ _ Hcs).
  destruct (early_flags changes (early_release rm req contention)) as (Hf & Hnd & Hl).
  change (fun key => (key, do_early_lock_release rm (contention key) (resolver_average_load req)
    (num_open_clients req))) with (fun key => (key, early_release rm req contention key)).
  destruct (update_pending _ _ _ _) as [pct deps] eqn:Hu.
  apply update_pending_spec in Hu as [_ Hd]; [|done].
  assert (Hd' : forall d, d ∈ hash_iter deps <-> exists k, is_Some (changes !! k) /\
            pending_commit_table (pending_state st) !! k = Some d).
  { intros d. rewrite hash_iter_elem_of, Hd, Hf. setoid_rewrite hash_iter_elem_of.
    setoid_rewrite elem_of_dom. set_solver. }
  assert (Hk : forall k e, (k, e) ∈ ((fun key => (key, early_release rm req contention key)) <$>
              hash_iter (dom changes)) -> is_Some (changes !! k) /\ early_release rm req contention k = e).
  { intros k e (k' & [= -> ->] & Hx%hash_iter_elem_of)%list_elem_of_fmap. by rewrite <- elem_of_dom. }
  destruct (Wal.wal_append _ _ _) as [w [c'|e|]]; try done.
  destruct (_ <$> hash_iter (dom changes)) as [|[k0 [|]] fl]; [done|..].
  - destruct (LockTable.soft_release _ _) as [lt []]; [|done]. intros [= <- <- <-]. cbn.
    split; [done|]. split; [|done]. intros _. exists k0. apply Hk. by left.
  - intros [= <- <- <-]. cbn. split; [done|]. split; [done|]. intros _. split; [by eexists|].
    exists k0. apply Hk. by left.
Qed.

(** C19: what a prepare publishes. With the lock granted and one decision for
    all keys, a prepare of a new transaction reports exactly the pending
    writers of the keys it writes. If it releases the lock early, the next
    reader sees its writes and depends on it; otherwise it keeps the lock, and
    its keys have no pending writer. Other keys are as before. *)
Theorem prepare_publishes_writes `{HashOrder} tx now req changes contention rm st rm' r c :
  state rm = Loaded st -> commit_strategy rm <> Traditional -> wf rm ->
  record_of rm (tx_id tx) = None ->
  (forall k k', early_release rm req contention k = early_release rm req contention k') ->
  prepare_locked tx now req changes contention rm = (rm', Ok (r, c)) ->
  (forall d, d ∈ dependencies r <->
             exists k, is_Some (changes !! k) /\ pending_writer rm k = Some d) /\
  (forall k, if released_lock_early r then
      view rm' k = default (view rm k) (changes !! k) /\
      (is_Some (changes !! k) -> pending_writer rm' k = Some (tx_id tx))
    else
      (is_Some (changes !! k) -> pending_writer rm' k = None)) /\
  (forall k, changes !! k = None ->
     pending_writer rm' k = pending_writer rm k /\ view rm' k = view rm k) /\
  (released_lock_early r = false ->
   exists st', state rm' = Loaded st' /\ lock_table st' = lock_table st).
Proof.
  intros Hst Hcs Hwf Hnew Hsame Hp.
  destruct (prepare_result _ _ _ _ _ _ _ _ _ _ Hst Hcs Hp) as (Hd & Ht & Hf).
  pose proof (fun k => prepare_reads tx now req changes contention rm st k Hst) as Hr.
  cbv zeta in Hr. rewrite Hp in Hr. cbn in Hr.
  assert (Hold : forall k, changes !! k = None ->
            pending_writer rm' k = pending_writer rm k /\ view rm' k = view rm k).
  { intros k Hk. destruct (Hr k) as [Hw Hrec]. rewrite decide_False in Hw
      by (rewrite Hk; intros [[]]; done).
    split; [done|]. unfold view. rewrite Hw. destruct (pending_writer rm k) as [t|] eqn:Hpw.
    - rewrite Hrec, decide_False; [done|]. intros ->. destruct (Hwf _ _ Hpw) as (? & ? & ? & _).
      congruence.
    - pose proof (prepare_stored tx now req changes contention rm k) as Hs. by rewrite Hp in Hs. }
  split_and!; [done| |done|intros Hno; by destruct (Hf Hno) as [? _]].
  intros k. destruct (released_lock_early r).
  - destruct (Ht eq_refl) as (k0 & _ & He). destruct (changes !! k) as [v|] eqn:Hk.
    + destruct (Hr k) as [Hw Hrec]. rewrite decide_True, (Hsame k k0), He in Hw
        by (rewrite Hk; split; [by eexists|done]).
      unfold view. rewrite Hw, Hrec, decide_True by done. cbn. by rewrite Hk.
    + split; [by apply Hold|by intros []].
  - destruct (Hf eq_refl) as (_ & k0 & _ & He). intros Hk. destruct (Hr k) as [Hw _].
    by rewrite decide_True, (Hsame k k0), He in Hw.
Qed.

(** the storage's newest version of every key is not after the commit *)
Definition newest_before (rm : RangeManager Sto Log) (e : Z) : Prop :=
  forall k, from_option (fun n => (n <= as_i64 e)%Z) True
              (Storage.st_newest (storage rm) (range_id rm) k).

Lemma apply_stored `{HashOrder} txs req rm st rs rm1 last k :
  state rm = Loaded st ->
  collect_records txs (pending_prepare_records (pending_state st)) = Some rs ->
  (forall k tx, last_write rs k <> Some (tx, None)) -> newest_before rm (commit_epoch req) ->
  commit_apply txs req rm = (rm1, Ok last) ->
  stored rm1 k = default (stored rm k) (snd <$> last_write rs k).
Proof.
  intros Hst Hc Hput Hnew. unfold commit_apply. rewrite Hst, Hc.
  destruct (merge_changes rs ∅ ∅) as [all l] eqn:Hm.
  assert (Hall : forall k, all !! k = snd <$> last_write rs k).
  { intros k'. destruct (merge_changes_spec _ _ _ _ _ k' Hm) as [-> _].
    by destruct (last_write rs k') as [[]|]. }
  case_decide as He.
  { intros [= <- <-]. rewrite <- Hall, He. done. }
  destruct (Storage.st_batch_upsert _ _ _ _ _) as [s [[]| |]] eqn:Hb; try done.
  intros [= <- <-]. unfold stored. cbn.
  rewrite buffer_puts, hash_iter_to_map, <- Hall; [|apply hash_iter_map_NoDup|].
  - rewrite (Storage.st_upsert_content _ _ _ _ _ _ k Hb (Hnew k)).
    destruct (all !! k) as [[v|]|] eqn:Hk; [done| |done].
    rewrite Hall in Hk. destruct (last_write rs k) as [[t v]|] eqn:Hw; [|done].
    cbn in Hk. simplify_eq. by destruct (Hput k t).
  - intros k' Hk'%hash_iter_map_elem_of. rewrite Hall in Hk'.
    destruct (last_write rs k') as [[t v]|] eqn:Hw; [|done]. cbn in Hk'. simplify_eq.
    by destruct (Hput k' t).
Qed.

Lemma clear_stored `{HashOrder} txs last now rm k :
  stored (commit_clear txs last now rm).1 k = stored rm k.
Proof.
  destruct (state rm) as [| |st|] eqn:E; [unfold commit_clear; by rewrite E..| |
    unfold commit_clear; by rewrite E].
  by destruct (clear_state txs last now rm st E) as [lt ->].
Qed.

(** an entry of the pending table is cleared when its transaction is committed *)
Lemma cleared_writers `{HashOrder} txs req rm st rs rm1 last k tx :
  state rm = Loaded st ->
  collect_records txs (pending_prepare_records (pending_state st)) = Some rs ->
  in_order rs rm -> commit_apply txs req rm = (rm1, Ok last) ->
  pending_writer rm k = Some tx -> last !! k = Some tx <-> tx ∈ txs.
Proof.
  intros Hst Hc Hord Ha Hpw. destruct (collect_records_spec _ _ _ Hc) as [Htx _].
  destruct (commit_apply_last _ _ _ _ _ Ha) as (st' & rs' & Hst' & Hc' & ->).
  assert (rs' = rs) as -> by congruence.
  rewrite commit_last_spec. split; [|by rewrite <- Htx; apply Hord].
  destruct (last_write rs k) as [[t v]|] eqn:Hlw; [|done]. intros [= ->].
  destruct (last_write_in _ _ _ _ Hlw) as (ch & Hin & _). rewrite <- Htx.
  apply list_elem_of_fmap. by exists (tx, ch).
Qed.

Lemma commit_reads `{HashOrder} txs req now rm st rs rm1 last k :
  state rm = Loaded st -> wf rm ->
  collect_records txs (pending_prepare_records (pending_state st)) = Some rs ->
  in_order rs rm -> (forall k tx, last_write rs k <> Some (tx, None)) ->
  newest_before rm (commit_epoch req) ->
  commit_apply txs req rm = (rm1, Ok last) ->
  let rm2 := (commit_clear txs last now rm1).1 in
  let expected := match pending_writer rm k with
                  | Some _ => view rm k
                  | None => default (view rm k) (snd <$> last_write rs k)
                  end in
  view rm1 k = expected /\ view rm2 k = expected /\
  stored rm2 k = default (stored rm k) (snd <$> last_write rs k) /\
  pending_writer rm2 k = (tx ← pending_writer rm k; if decide (tx ∈ txs) then None else Some tx) /\
  wf rm2 /\ (forall tx, tx ∈ txs -> record_of rm2 tx = None).
Proof.
  intros Hst Hwf Hc Hord Hput Hnew Ha rm2 expected.
  pose proof (apply_pending txs req rm) as Hsp. rewrite Ha in Hsp. cbn in Hsp.
  destruct (same_pending_reads _ _ Hsp) as [Hw Hr].
  pose proof (apply_stored txs req rm st rs rm1 last k Hst Hc Hput Hnew Ha) as Hs.
  assert (Hinv : inv (rm1, [(txs, last)])).
  { eapply inv_apply; [exact Ha| |split; [done|]; by intros ? ? ? ? ?%elem_of_nil].
    intros st' rs' Hst' Hc'. by assert (rs' = rs) as -> by congruence. }
  pose proof (inv_clear rm1 [] [] txs last now Hinv) as [Hwf2 _].
  destruct (collect_records_spec _ _ _ Hc) as [Htx Hrs].
  assert (Hp2 : pending_writer rm2 k =
            (tx ← pending_writer rm k; if decide (tx ∈ txs) then None else Some tx)).
  { unfold rm2. rewrite clear_reads, Hw. destruct (pending_writer rm k) as [t|] eqn:Hpw; [|done].
    apply decide_ext. by eapply cleared_writers. }
  assert (Hrec2 : forall tx, record_of rm2 tx = if decide (tx ∈ txs) then None else record_of rm tx).
  { intros tx. unfold rm2. rewrite clear_records, Hr; [done|].
    destruct Hsp as [_ ->]. unfold pending. by rewrite Hst. }
  assert (Hst2 : stored rm2 k = stored rm1 k) by apply clear_stored.
  split_and!; [| |by rewrite Hst2|done|done|by intros tx Ht; rewrite Hrec2, decide_True].
  - unfold expected, view. rewrite Hw. destruct (pending_writer rm k) as [t|]; [by rewrite Hr|done].
  - unfold expected, view. rewrite Hp2, Hst2. destruct (pending_writer rm k) as [t|] eqn:Hpw; cbn;
      [|done].
    destruct (decide (t ∈ txs)) as [Ht|Ht]; [|by rewrite Hrec2, decide_False].
    rewrite Hs. pose proof (Hord k t Hpw) as Hl. rewrite Htx in Hl. specialize (Hl Ht).
    destruct (last_write rs k) as [[t' v]|] eqn:Hlw; [|done]. cbn in Hl. simplify_eq. cbn.
    destruct (last_write_in _ _ _ _ Hlw) as (ch & Hin & Hv). unfold record_of. rewrite Hst.
    rewrite (Hrs _ _ Hin). cbn. by rewrite Hv.
Qed.

(** A commit moves writes from the pending state to the storage without
    changing what readers see. When a batch of puts commits in the order of its
    writes and at an epoch not before the versions in the storage, the stored
    value of every key becomes the last write of the batch. A reader of a key
    with a pending writer reads the same value before the commit, between its
    write to the storage and its update of the pending state, and after; a
    reader of any other key sees the last write of the batch from the write to
    the storage on. At the end the transactions of the batch have no records
    and no reader depends on them. *)
Theorem commit_preserves_reads `{HashOrder} txs req now rm st rs rm1 last k :
  state rm = Loaded st -> wf rm ->
  collect_records txs (pending_prepare_records (pending_state st)) = Some rs ->
  in_order rs rm -> (forall k tx, last_write rs k <> Some (tx, None)) ->
  newest_before rm (commit_epoch req) ->
  commit_apply txs req rm = (rm1, Ok last) ->
  let rm2 := (commit_clear txs last now rm1).1 in
  let expected := match pending_writer rm k with
                  | Some _ => view rm k
                  | None => default (view rm k) (snd <$> last_write rs k)
                  end in
  view rm1 k = expected /\ view rm2 k = expected /\
  stored rm2 k = default (stored rm k) (snd <$> last_write rs k) /\
  pending_writer rm2 k = (tx ← pending_writer rm k; if decide (tx ∈ txs) then None else Some tx) /\
  wf rm2 /\ (forall tx, tx ∈ txs -> record_of rm2 tx = None).
Proof. apply commit_reads. Qed.

(** the parts of a range manager that a reader sees *)
Definition same_view (rm rm' : RangeManager Sto Log) : Prop :=
  same_pending rm rm' /\ range_id rm' = range_id rm /\ storage rm' = storage rm /\
  prefetching_buffer rm' = prefetching_buffer rm.

Lemma same_view_reads rm rm' : same_view rm rm' ->
  (forall k, view rm' k = view rm k) /\ (forall k, stored rm' k = stored rm k) /\
  (forall k, pending_writer rm' k = pending_writer rm k) /\
  (forall tx, record_of rm' tx = record_of rm tx) /\
  (forall e, newest_before rm e -> newest_before rm' e).
Proof.
  intros (Hp & Hi & Hs & Hb). destruct (same_pending_reads _ _ Hp) as [Hw Hr].
  assert (Hst : forall k, stored rm' k = stored rm k) by (intros k; unfold stored; by rewrite Hi, Hs, Hb).
  split_and!; [|done..|].
  - intros k. unfold view. rewrite Hw, Hst. by destruct (pending_writer rm k); [rewrite Hr|].
  - unfold newest_before. by rewrite Hi, Hs.
Qed.

Lemma prepare_begin_view tx now now' req rm : same_view rm (prepare_begin tx now now' req rm).1.
Proof.
  split; [apply prepare_begin_pending|]. unfold prepare_begin. repeat (case_match; try done).
Qed.

(** the state in which a prepare that has written ends *)
Lemma prepare_done `{HashOrder} tx now now' req contention rm st changes rm1 r :
  state rm = Loaded st -> has_writes req = true ->
  prepare_record (Storage.key_range (range_info st)) req = Ok changes ->
  prepare tx now now' req contention rm = (rm1, Some (Ok r)) ->
  exists rm0 st0 c, same_view rm rm0 /\ state rm0 = Loaded st0 /\
    (prepare_locked tx now req changes contention rm0).2 = Ok (r, c) /\
    same_view (prepare_locked tx now req changes contention rm0).1 rm1.
Proof.
  intros Hst Hw Hc. unfold prepare.
  pose proof (prepare_begin_view tx now now' req rm) as Hv.
  destruct (prepare_begin tx now now' req rm) as [rm0 [[r0|c0 ch]|e|]] eqn:E; try done.
  { unfold prepare_begin in E. rewrite Hst, Hw, Hc in E. repeat (case_match; simplify_eq/=). }
  assert (ch = changes /\ exists st0, state rm0 = Loaded st0) as [-> [st0 Hst0]].
  { unfold prepare_begin in E. rewrite Hst, Hw, Hc in E. repeat (case_match; simplify_eq/=; eauto). }
  destruct (lock_granted c0 rm0); [|done].
  destruct (prepare_locked _ _ _ _ _ _) as [rm2 [[r2 c]|e|]] eqn:El; try done.
  unfold await_log. destruct (Wal.wal_answer _ _) as [[[]|?|]|]; intros [= <- <-].
  exists rm0, st0, c. rewrite El. by split_and!.
Qed.

Lemma prepare_read_only `{HashOrder} tx now now' req contention rm rm1 r :
  prepare tx now now' req contention rm = (rm1, Some (Ok r)) -> has_writes req = false ->
  same_view rm rm1.
Proof.
  intros Hp Hw. pose proof (prepare_begin_view tx now now' req rm) as Hv. unfold prepare in Hp.
  destruct (prepare_begin tx now now' req rm) as [rm0 [[r0|c0 ch]|e|]] eqn:E; try done.
  - by injection Hp as <- _.
  - unfold prepare_begin in E. rewrite Hw in E. repeat (case_match; simplify_eq/=).
Qed.

(** the phases of a commit that succeeds *)
Lemma commit_done `{HashOrder} txs req now rm rm' :
  commit txs req now rm = (rm', Some (Ok tt)) ->
  exists rm1 rm2 last, same_view rm rm1 /\ commit_apply txs req rm1 = (rm2, Ok last) /\
    rm' = (commit_clear txs last now rm2).1.
Proof.
  unfold commit. destruct (state rm) as [| |st|]; try done.
  destruct (Wal.wal_append _ _ _) as [w [c|e|]]; try done.
  unfold await_log. destruct (Wal.wal_answer _ _) as [[[]|?|]|]; try done.
  destruct (commit_apply txs req _) as [rm2 [last|e|]] eqn:Ea; try done.
  destruct (commit_clear txs last now rm2) as [rm3 r] eqn:Ec. intros [= <- ->].
  eexists _, rm2, last. split_and!; [|exact Ea|by rewrite Ec]. by split_and!.
Qed.

(** what a prepare that has written leaves, early release or not *)
Lemma prepare_leaves `{HashOrder} tx now now' req contention rm st changes rm1 r :
  state rm = Loaded st -> wf rm -> record_of rm (tx_id tx) = None -> has_writes req = true ->
  prepare_record (Storage.key_range (range_info st)) req = Ok changes ->
  prepare tx now now' req contention rm = (rm1, Some (Ok r)) ->
  wf rm1 /\ record_of rm1 (tx_id tx) = Some changes /\
  (forall e, newest_before rm e -> newest_before rm1 e) /\
  forall k, stored rm1 k = stored rm k /\
    match changes !! k with
    | Some _ => pending_writer rm1 k = Some (tx_id tx) \/ pending_writer rm1 k = None
    | None => pending_writer rm1 k = pending_writer rm k /\ view rm1 k = view rm k
    end.
Proof.
  intros Hst Hwf Hnew Hw Hc Hp.
  destruct (prepare_done _ _ _ _ _ _ _ _ _ _ Hst Hw Hc Hp) as (rm0 & st0 & c & Hv0 & Hst0 & Hl & Hv1).
  destruct (same_view_reads _ _ Hv0) as (Hview0 & Hs0 & Hw0 & Hr0 & Hn0).
  destruct (same_view_reads _ _ Hv1) as (Hview1 & Hs1 & Hw1 & Hr1 & Hn1).
  assert (Hwf0 : wf rm0) by (by eapply same_pending_wf; [apply Hv0|]).
  set (rmp := (prepare_locked tx now req changes contention rm0).1) in *.
  assert (Hreads := fun k => prepare_reads tx now req changes contention rm0 st0 k Hst0).
  assert (Hstored := prepare_stored tx now req changes contention rm0).
  fold rmp in Hreads, Hstored. cbv zeta in Hreads. fold rmp in Hreads.
  assert (Hwfp : inv (rmp, [])).
  { apply inv_prepare; [by rewrite Hr0|by intros ? ? ?%elem_of_nil|].
    split; [done|]. by intros ? ? ? ? ?%elem_of_nil. }
  split_and!.
  - eapply same_pending_wf; [apply Hv1|]. apply Hwfp.
  - rewrite Hr1. destruct (Hreads []) as [_ ->]. by rewrite decide_True.
  - intros e He. apply Hn1. apply Hn0 in He. unfold newest_before.
    destruct (prepare_storage tx now req changes contention rm0) as (Hi & Hs & _).
    fold rmp in Hi, Hs. by rewrite Hi, Hs.
  - intros k. rewrite Hs1, Hstored, Hs0. split; [done|]. destruct (Hreads k) as [Hpw Hrec].
    rewrite Hw1, Hpw. destruct (changes !! k) as [v|] eqn:Ek.
    + destruct (decide _) as [_|Hn]; [destruct (early_release _ _ _ _); auto|].
      right. unfold pending_writer. rewrite Hst0. rewrite decide_True; [done|].
      destruct (decide (commit_strategy rm0 = Traditional)); [done|]. destruct Hn. eauto.
    + rewrite decide_False by (intros [[]]; done). rewrite Hw0. split; [done|].
      rewrite Hview1, <- Hview0. unfold view. rewrite Hpw.
      rewrite decide_False by (intros [[]]; done).
      destruct (pending_writer rm0 k) as [t|] eqn:Et; [|apply Hstored].
      rewrite Hrec, decide_False; [done|]. intros ->.
      destruct (Hwf0 _ _ Et) as (? & ? & Hx & _). rewrite Hr0 in Hx. congruence.
Qed.

Lemma commit_ok_loaded `{HashOrder} txs creq now rm rm2 :
  commit txs creq now rm = (rm2, Some (Ok tt)) -> exists st2, state rm2 = Loaded st2.
Proof.
  intros (rmc & rma & last & _ & Ha & ->)%commit_done.
  destruct (commit_apply_last _ _ _ _ _ Ha) as (stc & rs & Hstc & _).
  pose proof (apply_pending txs creq rmc) as [_ Hp]. rewrite Ha in Hp. unfold pending in Hp.
  cbn in Hp. rewrite Hstc in Hp. destruct (state rma) as [| |sta|] eqn:E; try done.
  destruct (clear_state txs last now rma sta E) as [lt ->]. by eexists.
Qed.

Lemma commit_needs_record `{HashOrder} id creq now rm rm2 :
  commit [id] creq now rm = (rm2, Some (Ok tt)) -> record_of rm id <> None.
Proof.
  intros Hcm Hno. destruct (commit_done _ _ _ _ _ Hcm) as (rmc & rma & last & Hv & Ha & _).
  destruct (same_view_reads _ _ Hv) as (_ & _ & _ & Hr & _).
  destruct (commit_apply_last _ _ _ _ _ Ha) as (stc & rs & Hstc & Hcr & _).
  specialize (Hr id). rewrite Hno in Hr. unfold record_of in Hr. rewrite Hstc in Hr.
  cbn in Hcr. by rewrite Hr in Hcr.
Qed.

(** the commit of one transaction *)
Lemma commit_one `{HashOrder} id creq now rm changes rm2 :
  wf rm -> record_of rm id = Some changes -> (forall k, changes !! k <> Some None) ->
  newest_before rm (commit_epoch creq) -> commit [id] creq now rm = (rm2, Some (Ok tt)) ->
  wf rm2 /\ record_of rm2 id = None /\ (exists st2, state rm2 = Loaded st2) /\
  forall k, stored rm2 k = default (stored rm k) (changes !! k) /\
    view rm2 k = (match pending_writer rm k with
                  | Some _ => view rm k
                  | None => default (view rm k) (changes !! k)
                  end) /\
    pending_writer rm2 k = (t ← pending_writer rm k; if decide (t ∈ [id]) then None else Some t).
Proof.
  intros Hwf Hrec Hput Hn Hcm.
  destruct (commit_done _ _ _ _ _ Hcm) as (rmc & rma & last & Hv & Ha & ->).
  destruct (same_view_reads _ _ Hv) as (Hview & Hs & Hw & Hr & Hnb).
  destruct (commit_apply_last _ _ _ _ _ Ha) as (stc & rs & Hstc & Hcr & _).
  assert (rs = [(id, changes)]) as ->.
  { specialize (Hr id). rewrite Hrec in Hr. unfold record_of in Hr. rewrite Hstc in Hr.
    cbn in Hcr. rewrite Hr in Hcr. by injection Hcr as <-. }
  assert (Hlw : forall k, last_write [(id, changes)] k = pair id <$> changes !! k)
    by (intros k'; unfold last_write; cbn; by destruct (changes !! k')).
  assert (Hwfc : wf rmc) by (by eapply same_pending_wf; [apply Hv|]).
  assert (Hord : in_order [(id, changes)] rmc).
  { intros k' t Hpw Ht. cbn in Ht. apply list_elem_of_singleton in Ht as ->. rewrite Hlw.
    destruct (Hwfc _ _ Hpw) as (ch & v & Hch & Hv').
    rewrite Hr, Hrec in Hch. injection Hch as <-. by rewrite Hv'. }
  assert (Hlast : forall k t, last_write [(id, changes)] k <> Some (t, None)).
  { intros k' t. rewrite Hlw. specialize (Hput k'). destruct (changes !! k'); cbn; congruence. }
  pose proof (fun k => commit_reads [id] creq now rmc stc _ rma last k Hstc Hwfc Hcr Hord Hlast
    (Hnb _ Hn) Ha) as Hc.
  cbv zeta in Hc. destruct (Hc []) as (_ & _ & _ & _ & Hwf2 & Hrec2).
  split_and!; [done|apply Hrec2; by left|by eapply commit_ok_loaded|].
  intros k. destruct (Hc k) as (_ & -> & -> & -> & _). rewrite Hlw, Hw, Hview, Hs.
  split_and!; [by destruct (changes !! k)|by destruct (pending_writer rm k), (changes !! k)|done].
Qed.

(** the record of a prepare that only puts *)
Lemma record_puts_lookup range puts ch ch' k :
  NoDup puts.*1 -> record_puts range puts ch = Ok ch' ->
  ch' !! k = match (list_to_map puts : gmap Bytes Bytes) !! k with Some v => Some (Some v) | None => ch !! k end.
Proof.
  revert ch; induction puts as [|[k' v] puts IH]; intros ch; cbn; [by intros _ [= <-]|].
  intros [Hk Hnd]%NoDup_cons. destruct (includes range k'); [|done]. intros ->%IH; [|done].
  destruct (decide (k' = k)) as [->|Hne].
  - by rewrite !lookup_insert_eq, not_elem_of_list_to_map_1.
  - by rewrite !lookup_insert_ne.
Qed.

(** the views of a transaction that is prepared and then committed *)
Lemma prepare_then_commit `{HashOrder} tx now now' now2 req creq contention rm st changes rm1 r rm2 :
  state rm = Loaded st -> wf rm -> record_of rm (tx_id tx) = None -> has_writes req = true ->
  prepare_record (Storage.key_range (range_info st)) req = Ok changes ->
  (forall k, changes !! k <> Some None) -> newest_before rm (commit_epoch creq) ->
  prepare tx now now' req contention rm = (rm1, Some (Ok r)) ->
  commit [tx_id tx] creq now2 rm1 = (rm2, Some (Ok tt)) ->
  wf rm2 /\ record_of rm2 (tx_id tx) = None /\ (exists st2, state rm2 = Loaded st2) /\
  forall k, view rm2 k = default (view rm k) (changes !! k).
Proof.
  intros Hst Hwf Hnew Hhw Hc Hput Hn Hp Hcm.
  destruct (prepare_leaves _ _ _ _ _ _ _ _ _ _ Hst Hwf Hnew Hhw Hc Hp) as (Hwf1 & Hrec & Hnb1 & Hk).
  destruct (commit_one _ _ _ _ _ _ Hwf1 Hrec Hput (Hnb1 _ Hn) Hcm) as (Hwf2 & Hrec2 & Hst2 & Hk2).
  split_and!; [done..|]. intros k. specialize (Hk k) as [Hs1 Hk1]. specialize (Hk2 k) as (_ & -> & _).
  destruct (changes !! k) as [v|] eqn:Ek.
  - destruct Hk1 as [Hpw|Hpw]; rewrite Hpw; [|done]. unfold view. rewrite Hpw, Hrec. cbn.
    by rewrite Ek.
  - destruct Hk1 as [_ ->]. by destruct (pending_writer rm1 k).
Qed.

(** C7: A transaction that is prepared and then committed is applied, all of it and
    nothing else. Whatever the strategy and the decisions about the lock are, when
    [prepare] of a new transaction and the [commit] after it succeed, every key it
    puts reads as the value it put and every other key as before; nobody depends
    on it any more, the dependencies on the other transactions for the other keys
    are as before, and its record is gone. A read fails only when the storage does. *)
Theorem committed_transaction_is_applied `{HashOrder} tx now now' now2 req creq contention rm st changes
    rm1 r rm2 k :
  state rm = Loaded st -> wf rm -> record_of rm (tx_id tx) = None ->
  prepare_record (Storage.key_range (range_info st)) req = Ok changes ->
  (forall k, changes !! k <> Some None) -> newest_before rm (commit_epoch creq) ->
  prepare tx now now' req contention rm = (rm1, Some (Ok r)) ->
  commit [tx_id tx] creq now2 rm1 = (rm2, Some (Ok tt)) ->
  view rm2 k = default (view rm k) (changes !! k) /\
  stored rm2 k = default (stored rm k) (changes !! k) /\
  pending_writer rm2 k = (match changes !! k with Some _ => None | None => pending_writer rm k end) /\
  wf rm2 /\ record_of rm2 (tx_id tx) = None /\
  match get_locked k rm2 with
  | Ok g => val g = default (view rm k) (changes !! k)
  | Err _ => exists e, Storage.st_get (range_id rm2) k (storage rm2) = Err e
  | Panic => False
  end.
Proof.
  intros Hst Hwf Hnew Hc Hput Hn Hp Hcm.
  destruct (has_writes req) eqn:Hhw; cycle 1.
  { apply prepare_read_only in Hp; [|done]. destruct (same_view_reads _ _ Hp) as (_ & _ & _ & Hr & _).
    by apply commit_needs_record in Hcm as []; rewrite Hr. }
  destruct (prepare_leaves _ _ _ _ _ _ _ _ _ _ Hst Hwf Hnew Hhw Hc Hp) as (Hwf1 & Hrec & Hnb1 & Hk).
  destruct (commit_one _ _ _ _ _ _ Hwf1 Hrec Hput (Hnb1 _ Hn) Hcm) as (Hwf2 & Hrec2 & [st2 Hst2] & Hk2).
  specialize (Hk k) as [Hs1 Hk1]. specialize (Hk2 k) as (Hs2 & Hv2 & Hw2).
  pose proof (get_locked_view rm2 st2 k Hwf2 Hst2) as Hg.
  destruct (prepare_then_commit _ _ _ _ _ _ _ _ _ _ _ _ _ Hst Hwf Hnew Hhw Hc Hput Hn Hp Hcm)
    as (_ & _ & _ & Hview). specialize (Hview k).
  split_and!; [done|by rewrite Hs2, Hs1| |done..|].
  - rewrite Hw2. destruct (changes !! k).
    + destruct Hk1 as [-> | ->]; [|done]. cbn. by rewrite decide_True by left.
    + destruct Hk1 as [-> _]. destruct (pending_writer rm k) as [t|] eqn:Et; [|done]. cbn.
      rewrite decide_False; [done|]. intros ->%list_elem_of_singleton.
      destruct (Hwf _ _ Et) as (? & ? & ? & _). congruence.
  - rewrite <- Hview. destruct (get_locked k rm2) as [g|e|]; [by destruct Hg| |done].
    destruct Hg as (_ & e' & ? & _). eauto.
Qed.

(** C40: an abort does not withdraw early released writes. Under the pipelined
    strategy, after a transaction has prepared and has been aborted, the
    abort reporting success, readers still see its writes and depend on it. *)
Theorem aborted_writes_stay_visible `{HashOrder} tx now now' req areq changes contention rm st rm1
    r c rm2 k v :
  state rm = Loaded st -> commit_strategy rm = Pipelined ->
  prepare_locked tx now req changes contention rm = (rm1, Ok (r, c)) ->
  abort tx now' areq rm1 = (rm2, Some (Ok tt)) -> changes !! k = Some v ->
  view rm2 k = v /\ pending_writer rm2 k = Some (tx_id tx).
Proof.
  intros Hst Hcs Hp Ha Hk.
  destruct (prepare_reads tx now req changes contention rm st k Hst) as [Hw Hr].
  rewrite Hp in Hw, Hr. cbn in Hw, Hr. rewrite decide_True in Hw
    by (rewrite Hk, Hcs; split; [by eexists|done]).
  unfold early_release, do_early_lock_release in Hw. rewrite Hcs in Hw.
  pose proof (abort_pending tx now' areq rm1) as Hs. rewrite Ha in Hs. cbn in Hs.
  destruct (same_pending_reads _ _ Hs) as [Hw' Hr'].
  unfold view. rewrite Hw', Hw, Hr', Hr, decide_True by done. cbn. by rewrite Hk.
Qed.

(** A range takes the lease after the one it finds. A successful load owns
    the range with the leader sequence number the storage gave it, leases the
    epochs from the one after the stored lease, for two seconds of epochs and at
    least one, has no pending writes and a free lock. *)
Theorem load_takes_next_lease d rm rm1 st :
  load_inner d rm = (rm1, Ok st) -> (0 < d)%Z ->
  exists s1 info n, Storage.st_take_ownership (range_id rm) (storage rm) = (s1, Ok info) /\
  Storage.leader_sequence_number (range_info st) = Storage.leader_sequence_number info /\
  Storage.key_range (range_info st) = Storage.key_range info /\
  n = Z.max 1 (2000000000 / d) /\
  ((0 <= (Storage.epoch_lease info).2)%Z ->
   ((Storage.epoch_lease info).2 + 1 + n < 2 ^ 64)%Z ->
   Storage.epoch_lease (range_info st) =
     ((Storage.epoch_lease info).2 + 1, (Storage.epoch_lease info).2 + 1 + n)%Z) /\
  Storage.st_renew_epoch_lease (range_id rm) (Storage.epoch_lease (range_info st))
    (Storage.leader_sequence_number info) s1 = (storage rm1, Ok tt) /\
  (Wal.wal_sync (wal rm)).1 = wal rm1 /\
  pending_state st = mkPendingState ∅ ∅ /\ LockTable.current_holder (lock_table st) = None.
Proof.
  intros Hl Hd. unfold load_inner, num_epochs_per_lease in Hl.
  destruct (d =? 0)%Z eqn:Ed; [lia|].
  destruct (Storage.st_take_ownership _ _) as [s1 [info|e|]]; [|done..].
  destruct (Storage.st_renew_epoch_lease _ _ _ _) as [s2 [[]|e|]] eqn:Hr; [|done..].
  destruct (Wal.wal_sync _) as [w' [[]|e|]]; [|done..].
  injection Hl as <- <-. eexists s1, info, _. cbn. split_and!; try done.
  intros H1 H2. unfold next_lease, wrap_u64.
  assert (0 <= 2000000000 / d)%Z by (apply Z.div_pos; lia).
  rewrite !Z.mod_small by (try rewrite Z.mod_small; lia).
  f_equal; lia.
Qed.

(** A failed load that nobody else waits for panics. A load of a range that
    has not been loaded, during which nobody subscribes to its result, does not
    return the error of the storage or the log: it panics, and the range is
    unloaded. *)
Theorem failed_load_panics d rm rm1 rm2 e :
  state rm = NotLoaded ->
  load_begin rm = (rm1, LoadRun) -> load_inner d rm1 = (rm2, Err e) ->
  let (rm3, r) := load_finish (Err e) rm2 in
  r = Panic /\ state rm3 = Unloaded /\ (load_begin rm3).2 = LoadReturn (Err RangeIsNotLoaded).
Proof.
  intros Hst. unfold load_begin. rewrite Hst. intros [= <-] Hl.
  assert (Hn : load_subscribers rm2 = 0).
  { unfold load_inner in Hl. repeat case_match; simplify_eq; done. }
  unfold load_finish. cbn. by rewrite Hn.
Qed.

(** A prepared write can be hidden from its readers. The contention is read
    once per key, and the decisions can differ. When the lock is released early
    but the decision for a written key was to keep it, the next reader of that
    key sees the committed value and no dependency, although the transaction has
    prepared. *)
Theorem mixed_decision_hides_write `{HashOrder} tx now req changes contention rm st rm' r c k :
  state rm = Loaded st -> commit_strategy rm <> Traditional ->
  prepare_locked tx now req changes contention rm = (rm', Ok (r, c)) ->
  is_Some (changes !! k) -> early_release rm req contention k = false ->
  pending_writer rm' k = None /\ view rm' k = stored rm k.
Proof.
  intros Hst Hcs Hp Hk He.
  destruct (prepare_reads tx now req changes contention rm st k Hst) as [Hw _].
  rewrite Hp, decide_True, He in Hw by done. cbn in Hw. split; [done|].
  unfold view. rewrite Hw. pose proof (prepare_stored tx now req changes contention rm k) as Hs.
  by rewrite Hp in Hs.
Qed.

(** A commit cannot be retried. The trait requires commits to be idempotent
    and safe to retry; after a commit has finished, committing the same
    transactions again panics, whatever the new request. *)
Theorem retried_commit_panics `{HashOrder} txs last now req rm st rm' :
  state rm = Loaded st -> txs <> [] -> commit_clear txs last now rm = (rm', Ok tt) ->
  (commit_apply txs req rm').2 = Panic.
Proof.
  intros Hst Hne Hc. destruct (clear_state txs last now rm st Hst) as [lt Heq].
  rewrite Hc in Heq. cbn in Heq. subst rm'. unfold commit_apply. cbn.
  destruct txs as [|tx txs]; [done|]. cbn [collect_records].
  rewrite (delete_records (tx :: txs)), decide_True by (by left). done.
Qed.

End Operations.

(** ** Witnesses: a range in a database in memory *)

#[local] Instance sample_storage : Storage.RangeStorage Storage.Tables :=
  Storage.cassandra_storage (H := Storage.tables_session).
#[local] Instance sample_log : Wal.RangeWal (Wal.CassandraWal Wal.Table) :=
  Wal.cassandra_wal (H := Wal.table_session) [10%N; 11%N; 12%N] 0.

Definition Sample := RangeManager Storage.Tables (Wal.CassandraWal Wal.Table).

Definition sample_new (cs : CommitStrategy) (h : Heuristic) : Sample :=
  new Storage.sample_range cs h Storage.sample_db (Wal.sample_wal Wal.NotSynced []).
Definition run_load (rm : Sample) : Sample :=
  let (rm1, r) := load_inner 1000000000 (load_begin rm).1 in (load_finish r rm1).1.
Definition loaded_of (rm : Sample) : LoadedState :=
  match state rm with
  | Loaded st => st
  | _ => mkLoadedState (Storage.mkRangeInfo 0 (mkKeyRange None None) 0 (0, 0)%Z) 0 LockTable.new
           (mkPendingState ∅ ∅)
  end.

Definition sample_tx : TransactionInfo := mkTransactionInfo 9 0 1000.
Definition sample_load : spec_float := Float64.of_Z 60.
Definition sample_req : PrepareRequest :=
  mkPrepareRequest (Some [([1%N], [65%N]); ([2%N], [66%N])]) None false sample_load 0 [1%N].
Definition sample_changes : Changes := {[ [1%N] := Some [65%N]; [2%N] := Some [66%N] ]}.
(** 21 transactions are waiting when the decision for the one key is made
    and 20 when that for the other is *)
Definition sample_contention (k : Bytes) : nat := if decide (k = [2%N]) then 21 else 20.

(** loaded, and waiting for the lock of a prepare *)
Definition sample_locked (cs : CommitStrategy) (h : Heuristic) : Sample :=
  (prepare_begin sample_tx 0 0 sample_req (run_load (sample_new cs h))).1.
Definition sample_prepared (cs : CommitStrategy) (h : Heuristic) : Sample :=
  (prepare_locked (H1 := element_order) sample_tx 0 sample_req sample_changes sample_contention
     (sample_locked cs h)).1.
Definition sample_commit : CommitRequest := mkCommitRequest 3 4 [2%N].

Definition sample_history (cs : CommitStrategy) (h : Heuristic) : list Event :=
  match (load_inner 1000000000 (load_begin (sample_new cs h)).1).2 with Panic => [] | _ => [Restarted] end.

Lemma sample_loaded_steps cs h :
  rtc step (sample_new cs h, [], []) (sample_locked cs h, [], sample_history cs h).
Proof.
  eapply rtc_l; [apply step_load_begin|]. eapply rtc_l.
  { apply (step_load _ 1000000000
      (load_inner 1000000000 (load_begin (sample_new cs h)).1).1
      (load_inner 1000000000 (load_begin (sample_new cs h)).1).2); [done|]. by destruct load_inner. }
  eapply rtc_l; [apply (step_prepare_begin _ _ sample_tx 0 0 sample_req)|].
  unfold sample_locked, sample_history, run_load. destruct (load_inner _ _) as [? []]; apply rtc_refl.
Qed.

Lemma sample_prepared_steps cs h :
  state (sample_locked cs h) = Loaded (loaded_of (sample_locked cs h)) ->
  record_of (sample_locked cs h) 9%N = None ->
  rtc step (sample_new cs h, [], []) (sample_prepared cs h, [],
    sample_history cs h ++ [Prepared 9 sample_changes (early_release (sample_locked cs h) sample_req sample_contention)]).
Proof.
  intros Hst Hnew. eapply rtc_r; [apply (sample_loaded_steps cs h)|].
  refine (step_prepare (sample_locked cs h) [] element_order sample_tx 0 sample_req sample_changes
    sample_contention _ _ Hst Hnew _). by intros ? ? ?%elem_of_nil.
Qed.

Lemma sample_prepared_wf cs h :
  state (sample_locked cs h) = Loaded (loaded_of (sample_locked cs h)) ->
  record_of (sample_locked cs h) 9%N = None -> wf (sample_prepared cs h).
Proof.
  intros Hst Hnew. pose proof (sample_prepared_steps cs h Hst Hnew) as [Hwf _]%inv_reachable. exact Hwf.
Qed.


Lemma prepare_publishes_writes_witness :
  view (sample_prepared Pipelined OpenClients) [2%N] = Some [66%N] /\
  pending_writer (sample_prepared Pipelined OpenClients) [2%N] = Some 9%N.
Proof.
  destruct (prepare_publishes_writes (H1 := element_order) sample_tx 0 sample_req sample_changes
    sample_contention (sample_locked Pipelined OpenClients)
    (loaded_of (sample_locked Pipelined OpenClients)) (sample_prepared Pipelined OpenClients)
    (mkPrepareResult 0 (6, 8)%Z [] true) 1) as (_ & Hv & _);
    [vm_compute; reflexivity|done|intros k t; vm_compute; discriminate|vm_compute; reflexivity
    |reflexivity|vm_compute; reflexivity|].
  destruct (Hv [2%N]) as [Hv1 Hv2]. split; [exact Hv1|]. apply Hv2. by eexists.
Defined.

Definition sample_records : list (Uuid * Changes) := [(9%N, sample_changes)].

Lemma sample_change_put k v : sample_changes !! k = Some v -> v <> None.
Proof.
  unfold sample_changes. intros [[_ <-]|[_ [_ <-]%lookup_singleton_Some]]%lookup_insert_Some;
    discriminate.
Qed.

Lemma commit_preserves_reads_witness :
  exists rm1 last,
    commit_apply (H1 := element_order) [9%N] sample_commit (sample_prepared Pipelined OpenClients)
      = (rm1, Ok last) /\
    stored (commit_clear (H1 := element_order) [9%N] last 0 rm1).1 [1%N] = Some [65%N].
Proof.
  destruct (commit_apply (H1 := element_order) [9%N] sample_commit
    (sample_prepared Pipelined OpenClients)) as [rm1 [last|e|]] eqn:E; [|by vm_compute in E..].
  exists rm1, last. split; [done|].
  assert (Hlw : forall k, last_write sample_records k = (fun v => (9%N, v)) <$> sample_changes !! k)
    by (intros k; unfold last_write; cbn [sample_records foldl]; by destruct (sample_changes !! k)).
  destruct (commit_preserves_reads (H1 := element_order) [9%N] sample_commit 0
    (sample_prepared Pipelined OpenClients) (loaded_of (sample_prepared Pipelined OpenClients))
    sample_records rm1 last [1%N]) as (_ & _ & Hs & _);
    [vm_compute; reflexivity| |vm_compute; reflexivity| | | |exact E|].
  - apply sample_prepared_wf; vm_compute; reflexivity.
  - intros k tx Hpw _.
    assert (Hp : pending_writer (sample_prepared Pipelined OpenClients) k =
             (const 9%N <$> sample_changes) !! k) by reflexivity.
    rewrite Hlw. rewrite Hp, lookup_fmap in Hpw. by destruct (sample_changes !! k).
  - intros k tx. rewrite Hlw. destruct (sample_changes !! k) as [v|] eqn:Ek; [|done].
    apply sample_change_put in Ek. cbn. congruence.
  - intros k. exact I.
  - exact Hs.
Defined.

Definition sample_loaded : Sample := run_load (sample_new Pipelined OpenClients).
Definition sample_tx_prepared :=
  prepare (H1 := element_order) sample_tx 0 0 sample_req sample_contention sample_loaded.
Definition sample_tx_committed :=
  commit (H1 := element_order) [9%N] sample_commit 0 sample_tx_prepared.1.

Lemma committed_transaction_is_applied_witness :
  view sample_tx_committed.1 [2%N] = Some [66%N] /\
  match get_locked [2%N] sample_tx_committed.1 with
  | Ok g => val g = Some [66%N]
  | Err _ => exists e, Storage.st_get (range_id sample_tx_committed.1) [2%N]
                         (storage sample_tx_committed.1) = Err e
  | Panic => False
  end.
Proof.
  destruct (committed_transaction_is_applied (H1 := element_order) sample_tx 0 0 0 sample_req
    sample_commit sample_contention sample_loaded (loaded_of sample_loaded) sample_changes
    sample_tx_prepared.1 (mkPrepareResult 0 (6, 8)%Z [] true) sample_tx_committed.1 [2%N])
    as (Hv & _ & _ & _ & _ & Hg);
    [vm_compute; reflexivity|intros k t; vm_compute; discriminate|vm_compute; reflexivity
    |vm_compute; reflexivity| |intros k; exact I|vm_compute; reflexivity|vm_compute; reflexivity|].
  - intros k Hk%sample_change_put. by apply Hk.
  - split; [exact Hv|exact Hg].
Defined.

Lemma aborted_writes_stay_visible_witness :
  let rm2 := (abort sample_tx 0 (mkAbortRequest [3%N]) (sample_prepared Pipelined OpenClients)).1 in
  view rm2 [1%N] = Some [65%N] /\ pending_writer rm2 [1%N] = Some 9%N.
Proof.
  apply (aborted_writes_stay_visible (H1 := element_order) sample_tx 0 0 sample_req
    (mkAbortRequest [3%N]) sample_changes sample_contention (sample_locked Pipelined OpenClients)
    (loaded_of (sample_locked Pipelined OpenClients)) (sample_prepared Pipelined OpenClients)
    (mkPrepareResult 0 (6, 8)%Z [] true) 1); vm_compute; reflexivity.
Defined.

Lemma load_takes_next_lease_witness :
  Storage.epoch_lease (range_info (loaded_of (run_load (sample_new Pipelined OpenClients)))) = (6, 8)%Z.
Proof.
  destruct (load_takes_next_lease 1000000000 (load_begin (sample_new Pipelined OpenClients)).1
    (load_inner 1000000000 (load_begin (sample_new Pipelined OpenClients)).1).1
    (loaded_of (run_load (sample_new Pipelined OpenClients))))
    as (s1 & info & n & Ht & _ & _ & -> & Hl & _); [vm_compute; reflexivity|lia|].
  assert (Storage.epoch_lease info = (0, 5)%Z) as Hi by (vm_compute in Ht; by injection Ht as _ <-).
  rewrite Hi in Hl. apply Hl; [cbn; lia|vm_compute; reflexivity].
Defined.

(** a storage that cannot be reached *)
#[refine] Instance unreachable_storage : Storage.RangeStorage unit := {|
  Storage.st_get _ _ _ := Err Storage.Timeout;
  Storage.st_batch_upsert _ _ _ _ s := (s, Err Storage.Timeout);
  Storage.st_take_ownership _ s := (s, Err Storage.Timeout);
  Storage.st_renew_epoch_lease _ _ _ s := (s, Err Storage.Timeout);
  Storage.st_content _ _ _ := None;
  Storage.st_newest _ _ _ := None
|}.
Proof. all: done. Defined.

Definition sample_unreachable : RangeManager unit (Wal.CassandraWal Wal.Table) :=
  new Storage.sample_range Pipelined OpenClients tt (Wal.sample_wal Wal.NotSynced []).

Lemma failed_load_panics_witness :
  (load_finish (Err Timeout) (load_begin sample_unreachable).1).2 = Panic.
Proof.
  pose proof (failed_load_panics 1000000000 sample_unreachable (load_begin sample_unreachable).1
    (load_begin sample_unreachable).1 Timeout eq_refl eq_refl eq_refl) as Hf.
  destruct (load_finish _ _) as [rm3 r]. apply Hf.
Defined.

(** the lock is released on the decision for the other key *)
Lemma mixed_decision_hides_write_witness :
  LockTable.current_holder (lock_table (loaded_of (sample_prepared Adaptive LockContention))) = None /\
  pending_writer (sample_prepared Adaptive LockContention) [1%N] = None /\
  view (sample_prepared Adaptive LockContention) [1%N] =
    stored (sample_locked Adaptive LockContention) [1%N].
Proof.
  split; [vm_compute; reflexivity|].
  apply (mixed_decision_hides_write (H1 := element_order) sample_tx 0 sample_req sample_changes
    sample_contention (sample_locked Adaptive LockContention)
    (loaded_of (sample_locked Adaptive LockContention)) (sample_prepared Adaptive LockContention)
    (mkPrepareResult 0 (6, 8)%Z [] true) 1 [1%N]);
    [vm_compute; reflexivity|done|vm_compute; reflexivity|by eexists|vm_compute; reflexivity].
Defined.

Lemma retried_commit_panics_witness :
  (commit_apply (H1 := element_order) [9%N] sample_commit
     (commit_clear (H1 := element_order) [9%N] {[ [1%N] := 9%N ]} 0
        (sample_prepared Pipelined OpenClients)).1).2 = Panic.
Proof.
  apply (retried_commit_panics (H1 := element_order) [9%N] {[ [1%N] := 9%N ]} 0 sample_commit
    (sample_prepared Pipelined OpenClients) (loaded_of (sample_prepared Pipelined OpenClients)));
    [vm_compute; reflexivity|done|vm_compute; reflexivity].
Defined.

End RangeManager.
