(* ===== verification/GroupCommit.v ===== *)
(** * Group commit: [src/resolver/src/core/group_commit.rs]

    Every participant range has a group of transactions that are ready to
    commit. [add_transactions] fills the groups, [commit] sends every non-empty
    group to its range in a task of its own and reports the transactions all
    of whose groups have been sent. The struct's fields have a lock each, so
    the operations are split at their critical sections; [step] interleaves
    them. The range client and the transaction state store are reached through
    their answers, which are arguments. *)

From stdpp Require Import base tactics list numbers option gmap sets.
From S2P Require Import Prelude Common.

Module GroupCommit.
Import Common.

(** [participant_range_info.rs] *)
Record ParticipantRangeInfo := mkParticipantRangeInfo {
  participant_range : FullRangeId;
  has_writes : bool
}.

(** [TransactionInfo] of [core/resolver.rs] *)
Record TransactionInfo := mkTransactionInfo {
  txn_id : Uuid;
  num_dependencies : nat;
  dependents : gset Uuid;
  participant_ranges_info : list ParticipantRangeInfo;
  fake : bool
}.

Definition default_info (id : Uuid) (fake : bool) : TransactionInfo :=
  mkTransactionInfo id 0 ∅ [] fake.

Abbreviation Groups := (gmap FullRangeId (list TransactionInfo)) (only parsing).

Record State := mkState {
  group_per_participant : Groups;
  num_pending_participant_commits_per_transaction : gmap Uuid nat;
  non_empty_groups : gset FullRangeId;
  (** number of groups committed, by size *)
  committed_group_sizes : gmap nat nat;
  returned_transactions : list TransactionInfo
}.

Definition new : State := mkState ∅ ∅ ∅ ∅ [].

Definition get_stats (st : State) : State * gmap nat nat :=
  (mkState (group_per_participant st)
     (num_pending_participant_commits_per_transaction st)
     (non_empty_groups st) ∅ (returned_transactions st),
   committed_group_sizes st).

Definition set_groups (g : Groups) (st : State) : State :=
  mkState g (num_pending_participant_commits_per_transaction st)
    (non_empty_groups st) (committed_group_sizes st) (returned_transactions st).
Definition set_pending (n : gmap Uuid nat) (st : State) : State :=
  mkState (group_per_participant st) n
    (non_empty_groups st) (committed_group_sizes st) (returned_transactions st).
Definition set_non_empty (s : gset FullRangeId) (st : State) : State :=
  mkState (group_per_participant st) (num_pending_participant_commits_per_transaction st)
    s (committed_group_sizes st) (returned_transactions st).
Definition set_returned (l : list TransactionInfo) (st : State) : State :=
  mkState (group_per_participant st) (num_pending_participant_commits_per_transaction st)
    (non_empty_groups st) (committed_group_sizes st) l.

(** ** [add_transactions] *)

(** [entry(r).or_insert_with(Vec::new).push(tx)] *)
Definition push_group (g : Groups) (r : FullRangeId) (tx : TransactionInfo) : Groups :=
  <[r := default [] (g !! r) ++ [tx]]> g.

(** the inner loop: the participants a transaction wrote to *)
Fixpoint group_participants (tx : TransactionInfo) (ps : list ParticipantRangeInfo)
    (g : Groups) (n : nat) : Groups * nat :=
  match ps with
  | [] => (g, n)
  | p :: ps' =>
      if has_writes p
      then group_participants tx ps' (push_group g (participant_range p) tx) (S n)
      else group_participants tx ps' g n
  end.

(** the outer loop *)
Fixpoint group_transactions (txs : list TransactionInfo) (g : Groups) (n : gmap Uuid nat)
    : Groups * gmap Uuid nat :=
  match txs with
  | [] => (g, n)
  | tx :: txs' =>
      let '(g', c) := group_participants tx (participant_ranges_info tx) g 0 in
      group_transactions txs' g' (<[txn_id tx := c]> n)
  end.

Definition maybe_insert_new_participant_ranges (ranges : list FullRangeId) (st : State)
    : State :=
  let participants_to_insert :=
    filter (fun r => group_per_participant st !! r = None) ranges in
  set_groups
    (foldl (fun g r => match g !! r with Some _ => g | None => <[r := []]> g end)
       (group_per_participant st) participants_to_insert) st.

(** the update of the pending counts *)
Definition insert_pending (m : gmap Uuid nat) (st : State) : State :=
  set_pending (m ∪ num_pending_participant_commits_per_transaction st) st.

(** one of the spawned tasks that extend a group; [None] is its panic *)
Definition extend_group (r : FullRangeId) (txs : list TransactionInfo) (st : State)
    : option State :=
  match group_per_participant st !! r with
  | Some g => Some (set_groups (<[r := g ++ txs]> (group_per_participant st)) st)
  | None => None
  end.

Definition mark_non_empty (ranges : list FullRangeId) (st : State) : State :=
  set_non_empty (list_to_set ranges ∪ non_empty_groups st) st.

(** [add_transactions] when nothing interleaves with it. A spawned task that
    panics is only observed by [join_next], which drops the error. *)
Definition add_transactions `{HashOrder} (transactions : list TransactionInfo)
    (st : State) : State :=
  let '(tmp_group, tmp_pending) := group_transactions transactions ∅ ∅ in
  let groups := hash_iter_map tmp_group in
  let st1 := maybe_insert_new_participant_ranges (groups.*1) st in
  let st2 := insert_pending tmp_pending st1 in
  let st3 := foldl (fun s '(r, txs) => default s (extend_group r txs s)) st2 groups in
  mark_non_empty (groups.*1) st3.

(** ** [commit] *)

(** the first part of a commit task: take the group and unmark the range *)
Definition take_group (r : FullRangeId) (st : State)
    : option (State * list TransactionInfo) :=
  match group_per_participant st !! r with
  | Some txs =>
      Some (set_non_empty (non_empty_groups st ∖ {[r]})
              (set_groups (<[r := []]> (group_per_participant st)) st), txs)
  | None => None
  end.

(** what group commit does to others, with their answers: the store is asked to
    commit transactions, a range is asked to commit them; and, for the log of a
    run, the transactions that were handed over *)
Inductive Event :=
| Added (txs : list TransactionInfo)
| TryBatchCommit (ids : list Uuid) (ok : bool)
| CommitTransactions (r : FullRangeId) (ids : list Uuid) (ok : bool).

(** the rest of it: [store_ok] and [range_ok] are the answers of
    [try_batch_commit_transactions] and of [commit_transactions]. The calls it
    makes, and the state it leaves; [None] is a panic of the task. The flag of
    the first transaction decides for the whole group. *)
Definition deliver_group (r : FullRangeId) (txs : list TransactionInfo) (store_ok range_ok : bool)
    (st : State) : list Event * option State :=
  match txs with
  | [] => ([], Some st)
  | tx :: _ =>
      if fake tx then
        ([], Some (set_returned (returned_transactions st ++ txs) st))
      else
        let tx_ids_vec := txn_id <$> txs in
        if store_ok then
          if range_ok then
            ([TryBatchCommit tx_ids_vec true; CommitTransactions r tx_ids_vec true],
             Some (mkState (group_per_participant st)
                     (num_pending_participant_commits_per_transaction st)
                     (non_empty_groups st)
                     (<[length txs := S (default 0 (committed_group_sizes st !! length txs))]>
                        (committed_group_sizes st))
                     (returned_transactions st ++ txs)))
          else ([TryBatchCommit tx_ids_vec true; CommitTransactions r tx_ids_vec false], None)
        else ([TryBatchCommit tx_ids_vec false], None)
  end.

(** [std::mem::take] of the returned transactions *)
Definition take_returned (st : State) : State * list TransactionInfo :=
  (set_returned [] st, returned_transactions st).

(** the last loop; [None] is its assertion failing or the subtraction
    underflowing *)
Fixpoint collect (returned : list TransactionInfo) (pending : gmap Uuid nat)
    (finished : list TransactionInfo)
    : option (gmap Uuid nat * list TransactionInfo) :=
  match returned with
  | [] => Some (pending, finished)
  | tx :: returned' =>
      match pending !! txn_id tx with
      | None | Some 0 => None
      | Some 1 => collect returned' (delete (txn_id tx) pending) (finished ++ [tx])
      | Some (S n) => collect returned' (<[txn_id tx := n]> pending) finished
      end
  end.

(** the tasks of [commit], run one after the other; [None] is the [unwrap] of
    a range that has no group *)
Fixpoint run_tasks (answer : FullRangeId -> bool * bool) (ranges : list FullRangeId)
    (st : State) : option State :=
  match ranges with
  | [] => Some st
  | r :: ranges' =>
      match take_group r st with
      | Some (st', txs) =>
          run_tasks answer ranges'
            (default st' (deliver_group r txs (answer r).1 (answer r).2 st').2)
      | None => None
      end
  end.

(** [commit] when nothing interleaves with it *)
Definition commit `{HashOrder} (answer : FullRangeId -> bool * bool) (st : State)
    : State * result unit (list TransactionInfo) :=
  match run_tasks answer (hash_iter (non_empty_groups st)) st with
  | None => (st, Panic)
  | Some st1 =>
      let (st2, returned) := take_returned st1 in
      match collect returned (num_pending_participant_commits_per_transaction st2) [] with
      | Some (pending, finished) => (set_pending pending st2, Ok finished)
      | None => (st2, Panic)
      end
  end.

(** ** The interleavings *)

(** a running [add_transactions]; the caller holds the resolver's state lock,
    so there is at most one *)
Record Adding := mkAdding {
  to_count : option (gmap Uuid nat);
  to_extend : list (FullRangeId * list TransactionInfo);
  to_mark : list FullRangeId
}.

Record Config := mkConfig {
  state : State;
  adding : option Adding;
  (** commit tasks between taking a group and the end *)
  tasks : list (FullRangeId * list TransactionInfo);
  (** [commit] calls between taking the returned transactions and the loop *)
  collecting : list (list TransactionInfo);
  (** what has happened so far: copies handed over to [add_transactions],
      copies of tasks that have ended, copies of tasks that panicked, and the
      transactions reported as finished *)
  added : list (FullRangeId * Uuid);
  ended : list (FullRangeId * Uuid);
  lost : list (FullRangeId * Uuid);
  finished : list Uuid;
  (** the calls of [add_transactions] and the calls to the store and the ranges *)
  events : list Event
}.

Definition init : Config := mkConfig new None [] [] [] [] [] [] [].

Definition copies (r : FullRangeId) (txs : list TransactionInfo)
    : list (FullRangeId * Uuid) := (fun tx => (r, txn_id tx)) <$> txs.

(** the copies of a transaction that [add_transactions] makes *)
Definition tx_copies (tx : TransactionInfo) : list (FullRangeId * Uuid) :=
  (fun p => (participant_range p, txn_id tx)) <$>
    filter (fun p => has_writes p = true) (participant_ranges_info tx).

Inductive step : Config -> Config -> Prop :=
| step_add st ts cs a d l f evs txs g n gs :
    (* a transaction with writes is added once *)
    NoDup (txn_id <$> txs) ->
    (forall tx, tx ∈ txs -> tx_copies tx <> [] /\ txn_id tx ∉ a.*2) ->
    group_transactions txs ∅ ∅ = (g, n) ->
    gs ≡ₚ map_to_list g ->
    step (mkConfig st None ts cs a d l f evs)
      (mkConfig (maybe_insert_new_participant_ranges (gs.*1) st)
         (Some (mkAdding (Some n) gs (gs.*1)))
         ts cs (a ++ (txs ≫= tx_copies)) d l f (evs ++ [Added txs]))
| step_count st ts cs a d l f evs n ext mk :
    step (mkConfig st (Some (mkAdding (Some n) ext mk)) ts cs a d l f evs)
      (mkConfig (insert_pending n st) (Some (mkAdding None ext mk)) ts cs a d l f evs)
| step_extend st ts cs a d l f evs ext1 ext2 mk r txs st' :
    extend_group r txs st = Some st' ->
    step (mkConfig st (Some (mkAdding None (ext1 ++ (r, txs) :: ext2) mk)) ts cs a d l f evs)
      (mkConfig st' (Some (mkAdding None (ext1 ++ ext2) mk)) ts cs a d l f evs)
| step_mark st ts cs a d l f evs mk :
    step (mkConfig st (Some (mkAdding None [] mk)) ts cs a d l f evs)
      (mkConfig (mark_non_empty mk st) None ts cs a d l f evs)
| step_take st ad ts cs a d l f evs r st' txs :
    take_group r st = Some (st', txs) ->
    step (mkConfig st ad ts cs a d l f evs)
      (mkConfig st' ad ((r, txs) :: ts) cs a d l f evs)
| step_deliver st ad ts1 ts2 cs a d l f evs r txs s_ok r_ok ev st' :
    deliver_group r txs s_ok r_ok st = (ev, Some st') ->
    step (mkConfig st ad (ts1 ++ (r, txs) :: ts2) cs a d l f evs)
      (mkConfig st' ad (ts1 ++ ts2) cs a (d ++ copies r txs) l f (evs ++ ev))
| step_lose st ad ts1 ts2 cs a d l f evs r txs s_ok r_ok ev :
    (* the task panics, or it is dropped after some of its calls *)
    ev `prefix_of` (deliver_group r txs s_ok r_ok st).1 ->
    step (mkConfig st ad (ts1 ++ (r, txs) :: ts2) cs a d l f evs)
      (mkConfig st ad (ts1 ++ ts2) cs a d (l ++ copies r txs) f (evs ++ ev))
| step_take_returned st ad ts cs a d l f evs :
    step (mkConfig st ad ts cs a d l f evs)
      (mkConfig (take_returned st).1 ad ts ((take_returned st).2 :: cs) a d l f evs)
| step_collect st ad ts cs1 cs2 a d l f evs rs n done :
    collect rs (num_pending_participant_commits_per_transaction st) [] = Some (n, done) ->
    step (mkConfig st ad ts (cs1 ++ rs :: cs2) a d l f evs)
      (mkConfig (set_pending n st) ad ts (cs1 ++ cs2) a d l (f ++ (txn_id <$> done)) evs)
| step_stats st ad ts cs a d l f evs :
    step (mkConfig st ad ts cs a d l f evs)
      (mkConfig (get_stats st).1 ad ts cs a d l f evs).

Definition reachable (c : Config) : Prop := rtc step init c.

(** ** Invariant *)

Definition flat (l : list (FullRangeId * list TransactionInfo)) : list (FullRangeId * Uuid) :=
  l ≫= fun '(r, txs) => copies r txs.

Definition extending (c : Config) : list (FullRangeId * list TransactionInfo) :=
  from_option to_extend [] (adding c).
Definition marking (c : Config) : list FullRangeId :=
  from_option to_mark [] (adding c).
Definition counting (c : Config) : gmap Uuid nat :=
  default ∅ (a ← adding c; to_count a).

(** copies that have left [add_transactions] *)
Definition out (c : Config) : list (FullRangeId * Uuid) :=
  flat (map_to_list (group_per_participant (state c))) ++ flat (tasks c) ++
  lost c ++ ended c.

(** transactions sent and not yet counted *)
Definition uncounted (c : Config) : list Uuid :=
  txn_id <$> (returned_transactions (state c) ++ concat (collecting c)).

(** participants still missing, counting the update that is being applied *)
Definition missing (c : Config) (id : Uuid) : nat :=
  default 0 ((counting c ∪ num_pending_participant_commits_per_transaction (state c)) !! id).

Record inv (c : Config) : Prop := {
  inv_copies : added c ≡ₚ flat (extending c) ++ out c;
  inv_missing : forall id,
    missing c id + count id (ended c).*2 =
    count id (added c).*2 + count id (uncounted c);
  inv_counting : forall id, is_Some (counting c !! id) -> id ∉ (out c).*2;
  inv_uncounted : forall id, id ∈ uncounted c -> id ∈ (ended c).*2;
  inv_finished : forall id, id ∈ finished c <-> id ∈ (added c).*2 /\ missing c id = 0;
  inv_once : NoDup (finished c);
  inv_extending : forall r, r ∈ (extending c).*1 ->
    is_Some (group_per_participant (state c) !! r) /\ r ∈ marking c;
  inv_marked : forall r txs, group_per_participant (state c) !! r = Some txs ->
    txs <> [] -> r ∈ non_empty_groups (state c) \/ r ∈ marking c;
  inv_groups : forall r, r ∈ non_empty_groups (state c) \/ r ∈ marking c ->
    is_Some (group_per_participant (state c) !! r)
}.

(** ** Lemmas on the groups *)

Lemma flat_app l1 l2 : flat (l1 ++ l2) = flat l1 ++ flat l2.
Proof. apply bind_app. Qed.

Lemma flat_cons r txs l : flat ((r, txs) :: l) = copies r txs ++ flat l.
Proof. done. Qed.

Lemma flat_perm l1 l2 : l1 ≡ₚ l2 -> flat l1 ≡ₚ flat l2.
Proof. unfold flat. by intros ->. Qed.

Lemma copies_app r l1 l2 : copies r (l1 ++ l2) = copies r l1 ++ copies r l2.
Proof. apply fmap_app. Qed.

Lemma copies_ids r txs : (copies r txs).*2 = txn_id <$> txs.
Proof. unfold copies. rewrite <- list_fmap_compose. done. Qed.

Lemma flat_insert g r txs txs' :
  default [] (g !! r) = txs ->
  flat (map_to_list (<[r := txs']> g)) ++ copies r txs ≡ₚ
  flat (map_to_list g) ++ copies r txs'.
Proof.
  intros <-. rewrite <- insert_delete_eq.
  rewrite (flat_perm _ _ (map_to_list_insert (delete r g) r txs' (lookup_delete_eq g r))).
  rewrite flat_cons. destruct (g !! r) as [txs|] eqn:E; simpl.
  - rewrite <- (flat_perm _ _ (map_to_list_delete g r txs E)), flat_cons.
    rewrite (Permutation_app_comm (copies r txs')), <- app_assoc.
    rewrite (Permutation_app_comm (copies r txs)).
    rewrite <- !app_assoc. f_equiv. apply Permutation_app_comm.
  - rewrite delete_id by done. rewrite app_nil_r. apply Permutation_app_comm.
Qed.

(** entries of a group map: what [push_group] adds *)
Lemma flat_push g r tx :
  flat (map_to_list (push_group g r tx)) ≡ₚ flat (map_to_list g) ++ [(r, txn_id tx)].
Proof.
  unfold push_group.
  pose proof (flat_insert g r _ (default [] (g !! r) ++ [tx]) eq_refl) as H.
  rewrite copies_app, app_assoc in H.
  apply (Permutation_app_inv_r (copies r (default [] (g !! r)))).
  rewrite H. rewrite <- !app_assoc. f_equiv. apply Permutation_app_comm.
Qed.

Lemma group_participants_spec tx ps g n g' n' :
  group_participants tx ps g n = (g', n') ->
  let new := (fun p => (participant_range p, txn_id tx)) <$>
               filter (fun p => has_writes p = true) ps in
  flat (map_to_list g') ≡ₚ flat (map_to_list g) ++ new /\ n' = n + length new.
Proof.
  revert g n; induction ps as [|p ps IH]; intros g n; simpl.
  - intros [= <- <-]. rewrite app_nil_r. split; [done|lia].
  - rewrite filter_cons. destruct (has_writes p) eqn:Ep; intros [Hg Hn]%IH.
    + rewrite decide_True, fmap_cons by done. rewrite Hg, flat_push, <- app_assoc. split; [done|].
      rewrite Hn. cbn [length]. lia.
    + by rewrite decide_False by done.
Qed.

Lemma tx_copies_ids tx id :
  count id (tx_copies tx).*2 = if decide (txn_id tx = id) then length (tx_copies tx) else 0.
Proof.
  unfold tx_copies. induction (filter _ _) as [|p ps IH]; [by case_decide|].
  cbn [fmap list_fmap length snd]. rewrite count_cons, IH. by repeat case_decide.
Qed.

Lemma group_transactions_spec txs g n g' n' :
  group_transactions txs g n = (g', n') ->
  NoDup (txn_id <$> txs) ->
  (forall tx, tx ∈ txs -> n !! txn_id tx = None) ->
  flat (map_to_list g') ≡ₚ flat (map_to_list g) ++ (txs ≫= tx_copies) /\
  (forall id, default 0 (n' !! id) = default 0 (n !! id) + count id (txs ≫= tx_copies).*2) /\
  (forall id, is_Some (n' !! id) <-> is_Some (n !! id) \/ id ∈ txn_id <$> txs).
Proof.
  revert g n; induction txs as [|tx txs IH]; intros g n; cbn [group_transactions].
  - intros [= <- <-] _ _; simpl. rewrite app_nil_r. setoid_rewrite elem_of_nil.
    split_and!; [done| |naive_solver]. intros id. rewrite count_nil; lia.
  - destruct (group_participants _ _ _ _) as [g1 c] eqn:Ep. intros Hrest Hnd Hfresh.
    rewrite fmap_cons, NoDup_cons in Hnd. destruct Hnd as [Hnew Hnd].
    apply group_participants_spec in Ep as [Hg1 Hc].
    apply IH in Hrest as (Hg & Hn & Hd); [|done|].
    2:{ intros tx' Htx'. rewrite lookup_insert_ne.
        - apply Hfresh. by right.
        - intros E. apply Hnew. rewrite E. by apply list_elem_of_fmap_2. }
    cbn [mbind list_bind]. fold (tx_copies tx) in *. split_and!.
    + rewrite Hg, Hg1, <- app_assoc. done.
    + intros id. rewrite Hn, fmap_app, count_app, tx_copies_ids.
      destruct (decide (txn_id tx = id)) as [<-|].
      * rewrite lookup_insert_eq, (Hfresh tx) by (by left).
        cbn [default from_option id]. rewrite Hc. unfold tx_copies. lia.
      * rewrite lookup_insert_ne by done; lia.
    + intros id. rewrite Hd, lookup_insert_is_Some, fmap_cons, elem_of_cons.
      destruct (decide (txn_id tx = id)); naive_solver.
Qed.

Lemma maybe_insert_spec ranges st :
  let st' := maybe_insert_new_participant_ranges ranges st in
  (forall r, group_per_participant st' !! r =
    match group_per_participant st !! r with
    | Some txs => Some txs
    | None => if decide (r ∈ ranges) then Some [] else None
    end) /\
  flat (map_to_list (group_per_participant st')) ≡ₚ
    flat (map_to_list (group_per_participant st)).
Proof.
  unfold maybe_insert_new_participant_ranges; cbn [set_groups group_per_participant].
  set (g := group_per_participant st) in *.
  set (l := filter (fun r => g !! r = None) ranges).
  assert (Hl : forall r, r ∈ l <-> g !! r = None /\ r ∈ ranges) 
    by (intros r; unfold l; by rewrite list_elem_of_filter).
  assert (Hfold : forall l g0,
    let g' := foldl (fun g r => match g !! r with Some _ => g | None => <[r:=[]]> g end) g0 l in
    (forall r, g' !! r = match g0 !! r with Some txs => Some txs
                         | None => if decide (r ∈ l) then Some [] else None end) /\
    flat (map_to_list g') ≡ₚ flat (map_to_list g0)).
  { clear. induction l as [|r0 l IH]; intros g0; simpl.
    - split; [|done]. intros r. by destruct (g0 !! r).
    - destruct (g0 !! r0) as [txs0|] eqn:E0.
      + destruct (IH g0) as [H1 H2]. split; [|done]. intros r. rewrite H1.
        destruct (g0 !! r) eqn:E; [done|]. apply decide_ext. rewrite elem_of_cons. naive_solver.
      + destruct (IH (<[r0:=[]]> g0)) as [H1 H2]. split.
        * intros r. rewrite H1. destruct (decide (r = r0)) as [->|].
          -- rewrite lookup_insert_eq, E0, decide_True by (by left). done.
          -- rewrite lookup_insert_ne by done. destruct (g0 !! r); [done|].
             apply decide_ext. rewrite elem_of_cons. naive_solver.
        * rewrite H2. pose proof (flat_insert g0 r0 [] []) as H. rewrite E0 in H.
          specialize (H eq_refl). by rewrite !app_nil_r in H. }
  destruct (Hfold l g) as [H1 H2]. split; [|done].
  intros r. rewrite H1. destruct (g !! r) eqn:E; [done|].
  apply decide_ext. rewrite Hl. naive_solver.
Qed.

(** the last loop of [commit], when the counts cover what it collects *)
Lemma collect_spec rs n fin :
  (forall id, count id (txn_id <$> rs) <= default 0 (n !! id)) ->
  exists n' done, collect rs n fin = Some (n', fin ++ done) /\
    (forall id, default 0 (n' !! id) + count id (txn_id <$> rs) = default 0 (n !! id)) /\
    (forall id, id ∈ txn_id <$> done <-> id ∈ txn_id <$> rs /\ default 0 (n' !! id) = 0) /\
    NoDup (txn_id <$> done).
Proof.
  revert n fin; induction rs as [|tx rs IH]; intros n fin Hle.
  - exists n, []. rewrite app_nil_r, fmap_nil. split_and!; [done|..].
    + intros id. rewrite count_nil. lia.
    + intros id. cbn. rewrite elem_of_nil. tauto.
    + constructor.
  - assert (Hle' : forall id m, m = pred (default 0 (n !! txn_id tx)) ->
      count id (txn_id <$> rs) <= if decide (txn_id tx = id) then m else default 0 (n !! id)).
    { intros id m ->. specialize (Hle id). rewrite fmap_cons, count_cons in Hle.
      case_decide; subst; lia. }
    specialize (Hle (txn_id tx)) as Hpos.
    rewrite fmap_cons, count_cons, decide_True in Hpos by done.
    cbn [collect]. destruct (n !! txn_id tx) as [[|[|k]]|] eqn:E; cbn in Hpos; try lia.
    + destruct (IH (delete (txn_id tx) n) (fin ++ [tx])) as (n' & dn & -> & Hn & Hd & Hnd).
      { intros id. rewrite (Hle' id 0) by done. destruct (decide (txn_id tx = id)) as [<-|].
        - lia.
        - by rewrite lookup_delete_ne. }
      exists n', (tx :: dn). rewrite <- app_assoc; split_and!; [done|..].
      * intros id. rewrite fmap_cons, count_cons. specialize (Hn id).
        destruct (decide (txn_id tx = id)) as [<-|].
        -- rewrite lookup_delete_eq in Hn. rewrite E. cbn in *. lia.
        -- rewrite lookup_delete_ne in Hn by done. lia.
      * intros id. rewrite !fmap_cons, !elem_of_cons, Hd.
        assert (default 0 (n' !! txn_id tx) = 0).
        { specialize (Hn (txn_id tx)). rewrite lookup_delete_eq in Hn. cbn in Hn. lia. }
        naive_solver.
      * rewrite fmap_cons. constructor; [|done]. intros (Hin & Hz)%Hd.
        specialize (Hn (txn_id tx)). rewrite lookup_delete_eq in Hn.
        apply count_in in Hin. cbn in Hn. lia.
    + destruct (IH (<[txn_id tx := S k]> n) fin) as (n' & dn & -> & Hn & Hd & Hnd).
      { intros id. rewrite (Hle' id (S k)) by done. destruct (decide (txn_id tx = id)) as [<-|].
        - rewrite lookup_insert_eq. done.
        - by rewrite lookup_insert_ne. }
      exists n', dn. split_and!; [done| | |done].
      * intros id. rewrite fmap_cons, count_cons. specialize (Hn id).
        destruct (decide (txn_id tx = id)) as [<-|].
        -- rewrite lookup_insert_eq in Hn. rewrite E. cbn in *. lia.
        -- rewrite lookup_insert_ne in Hn by done. lia.
      * intros id. rewrite Hd, fmap_cons, elem_of_cons. split; [tauto|].
        intros [[->|?] Hz]; [|done]. split; [|done]. apply count_in.
        specialize (Hn (txn_id tx)). rewrite lookup_insert_eq in Hn. cbn in Hn. lia.
Qed.

Lemma missing_union (m n : gmap Uuid nat) id :
  default 0 ((m ∪ n) !! id) =
  match m !! id with Some k => k | None => default 0 (n !! id) end.
Proof. rewrite lookup_union. by destruct (m !! id), (n !! id). Qed.

Lemma count_ids_perm (l1 l2 : list (FullRangeId * Uuid)) id :
  l1 ≡ₚ l2 -> count id l1.*2 = count id l2.*2.
Proof. intros H. apply count_perm. by rewrite H. Qed.

Lemma ids_perm (l1 l2 : list (FullRangeId * Uuid)) id :
  l1 ≡ₚ l2 -> id ∈ l1.*2 <-> id ∈ l2.*2.
Proof. intros H. by rewrite H. Qed.

(** projections of a configuration *)
Ltac config :=
  unfold out, uncounted, missing, counting, extending, marking in *;
  cbn [state adding tasks collecting added ended lost finished
       to_count to_extend to_mark from_option default Datatypes.id mbind option_bind
       set_groups set_pending set_non_empty set_returned
       group_per_participant num_pending_participant_commits_per_transaction
       non_empty_groups returned_transactions fst snd concat flat] in *.

Lemma inv_init : inv init.
Proof.
  constructor; try done.
  - intros id [? Hid]. cbn in Hid. by rewrite lookup_empty in Hid.
  - intros id. cbn. rewrite elem_of_nil. tauto.
  - constructor.
  - by intros r ?%elem_of_nil.
  - by intros r [?|?%elem_of_nil].
Qed.

Lemma copy_ids tx txs : tx ∈ txs -> tx_copies tx <> [] -> txn_id tx ∈ (txs ≫= tx_copies).*2.
Proof.
  intros Htx Hne. destruct (tx_copies tx) as [|p ps] eqn:Ep; [done|].
  assert (Hp : p ∈ tx_copies tx) by (rewrite Ep; by left).
  apply list_elem_of_fmap. exists p. split.
  - apply list_elem_of_fmap in Hp as (? & -> & _). done.
  - apply list_elem_of_bind. by exists tx.
Qed.

Lemma add_inv st ts cs a d l f evs evs' txs g n gs :
  NoDup (txn_id <$> txs) ->
  (forall tx, tx ∈ txs -> tx_copies tx <> [] /\ txn_id tx ∉ a.*2) ->
  group_transactions txs ∅ ∅ = (g, n) -> gs ≡ₚ map_to_list g ->
  inv (mkConfig st None ts cs a d l f evs) ->
  inv (mkConfig (maybe_insert_new_participant_ranges (gs.*1) st)
         (Some (mkAdding (Some n) gs (gs.*1)))
         ts cs (a ++ (txs ≫= tx_copies)) d l f evs').
Proof.
  intros Hnd Hfresh Hg Hgs [Hcp Hms Hct Hun Hfin Honce Hext Hmk Hgr].
  apply group_transactions_spec in Hg as (Hflat & Hn & Hdom); [|done|done].
  destruct (maybe_insert_spec (gs.*1) st) as [Hlook Hsame].
  rewrite map_to_list_empty, <- (flat_perm _ _ Hgs) in Hflat. simpl in Hflat.
  assert (Hnew : forall id, is_Some (n !! id) -> id ∉ a.*2).
  { intros id [[? ?]|Hid]%Hdom; [done|].
    apply list_elem_of_fmap in Hid as (tx & -> & Htx). by apply Hfresh. }
  assert (Hdel : forall id, id ∉ a.*2 -> count id d.*2 = 0).
  { intros id Hid. apply count_not_in. intros Hd. apply Hid.
    rewrite (ids_perm _ _ _ Hcp). config. rewrite !fmap_app, !elem_of_app. auto. }
  config. constructor; config; try done.
  - rewrite Hsame, Hflat, Hcp, app_nil_l. apply Permutation_app_comm.
  - intros id. rewrite missing_union, fmap_app, count_app. specialize (Hms id).
    unfold maybe_insert_new_participant_ranges; config.
    rewrite lookup_union, lookup_empty, (left_id None _) in Hms.
    specialize (Hn id). rewrite lookup_empty in Hn; cbn in Hn.
    destruct (n !! id) as [k|] eqn:E; cbn in Hn; [|lia].
    assert (Hid : id ∉ a.*2) by (apply Hnew; by eexists).
    rewrite (Hdel id Hid). apply count_not_in in Hid.
    destruct (decide (id ∈ txn_id <$> (returned_transactions st ++ concat cs))) as [Hu|Hu].
    + apply Hun, count_in in Hu. rewrite (Hdel id) in Hu by (by apply count_not_in). lia.
    + apply count_not_in in Hu. lia.
  - intros id Hid%Hnew Hin. apply Hid. rewrite (ids_perm _ _ _ Hcp).
    rewrite !fmap_app, !elem_of_app in *. rewrite (ids_perm _ _ id Hsame) in Hin. tauto.
  - intros id. rewrite Hfin, fmap_app, elem_of_app, !missing_union, lookup_empty.
    specialize (Hn id). rewrite lookup_empty in Hn; cbn in Hn.
    destruct (n !! id) as [k|] eqn:E.
    + assert (Hid : id ∉ a.*2) by (apply Hnew; by eexists).
      assert (0 < k); [|naive_solver lia].
      destruct (proj1 (Hdom id)) as [[? ?]|Hin]; [by eexists|done|].
      cbn in Hn. rewrite Hn. apply count_in.
      apply list_elem_of_fmap in Hin as (tx & -> & Htx). by apply copy_ids, Hfresh.
    + unfold maybe_insert_new_participant_ranges; config.
      split; [naive_solver|]. intros [[?|Hin] Hz]; [done|].
      apply count_in in Hin. cbn in Hn. lia.
  - intros r Hr. split; [|done]. rewrite Hlook. destruct (_ !! r); [done|].
    by rewrite decide_True.
  - intros r txs'. rewrite Hlook. destruct (group_per_participant st !! r) eqn:E.
    + intros [= <-] Hne. destruct (Hmk r _ E Hne) as [|?%elem_of_nil]; [by left|done].
    + case_decide; intros [= <-]; done.
  - intros r Hr. rewrite Hlook. destruct (_ !! r) eqn:E; [done|].
    destruct Hr as [Hr|Hr]; [|by rewrite decide_True].
    destruct (Hgr r) as [? ?]; [by left|]. congruence.
Qed.

Lemma count_inv st ts cs a d l f evs n ext mk :
  inv (mkConfig st (Some (mkAdding (Some n) ext mk)) ts cs a d l f evs) ->
  inv (mkConfig (insert_pending n st) (Some (mkAdding None ext mk)) ts cs a d l f evs).
Proof.
  intros [Hcp Hms Hct Hun Hfin Honce Hext Hmk Hgr].
  unfold insert_pending. constructor; config; try done.
  - intros id. by rewrite (left_id_L ∅ (∪)).
  - intros id [? Hid]. by rewrite lookup_empty in Hid.
  - intros id. by rewrite (left_id_L ∅ (∪)).
Qed.

Lemma extend_inv st ts cs a d l f evs ext1 ext2 mk r txs st' :
  extend_group r txs st = Some st' ->
  inv (mkConfig st (Some (mkAdding None (ext1 ++ (r, txs) :: ext2) mk)) ts cs a d l f evs) ->
  inv (mkConfig st' (Some (mkAdding None (ext1 ++ ext2) mk)) ts cs a d l f evs).
Proof.
  intros He [Hcp Hms Hct Hun Hfin Honce Hext Hmk Hgr].
  unfold extend_group in He. destruct (_ !! r) as [old|] eqn:E; [|done].
  injection He as <-. constructor; config; try done.
  - assert (Hg : flat (map_to_list (<[r := old ++ txs]> (group_per_participant st))) ≡ₚ
                 copies r txs ++ flat (map_to_list (group_per_participant st))).
    { pose proof (flat_insert (group_per_participant st) r old (old ++ txs)) as H.
      rewrite E in H. specialize (H eq_refl). rewrite copies_app in H.
      apply (Permutation_app_inv_r (copies r old)). rewrite H.
      rewrite (Permutation_app_comm (copies r old)), app_assoc. f_equiv.
      apply Permutation_app_comm. }
    rewrite Hg, Hcp, !flat_app, flat_cons, <- !app_assoc. f_equiv.
    rewrite !app_assoc. do 4 f_equiv. apply Permutation_app_comm.
  - intros id [? Hid]. by rewrite lookup_empty in Hid.
  - intros r' Hr'. destruct (Hext r') as [Hs Hm].
    { revert Hr'. rewrite !fmap_app, fmap_cons, !elem_of_app, elem_of_cons. tauto. }
    split; [|done]. rewrite lookup_insert_is_Some'. by right.
  - intros r' txs'. destruct (decide (r = r')) as [<-|].
    + intros _ _. right. apply Hext. rewrite fmap_app, fmap_cons, elem_of_app, elem_of_cons. auto.
    + rewrite lookup_insert_ne by done. apply Hmk.
  - intros r' Hr'. rewrite lookup_insert_is_Some'. right. by apply Hgr.
Qed.

Lemma mark_inv st ts cs a d l f evs mk :
  inv (mkConfig st (Some (mkAdding None [] mk)) ts cs a d l f evs) ->
  inv (mkConfig (mark_non_empty mk st) None ts cs a d l f evs).
Proof.
  intros [Hcp Hms Hct Hun Hfin Honce Hext Hmk Hgr].
  unfold mark_non_empty. constructor; config; try done.
  - by intros r ?%elem_of_nil.
  - intros r txs E Hne. left. rewrite elem_of_union, elem_of_list_to_set.
    destruct (Hmk r txs E Hne); auto.
  - intros r [Hr|?%elem_of_nil]; [|done].
    rewrite elem_of_union, elem_of_list_to_set in Hr. apply Hgr. tauto.
Qed.

(** steps that only move copies out of the groups, to the tasks and on *)
Lemma take_inv st ad ts cs a d l f evs r st' txs :
  take_group r st = Some (st', txs) ->
  inv (mkConfig st ad ts cs a d l f evs) ->
  inv (mkConfig st' ad ((r, txs) :: ts) cs a d l f evs).
Proof.
  intros Ht [Hcp Hms Hct Hun Hfin Honce Hext Hmk Hgr].
  unfold take_group in Ht. destruct (_ !! r) as [old|] eqn:E; [|done].
  injection Ht as <- <-.
  assert (Hg : flat (map_to_list (group_per_participant st)) ≡ₚ
               flat (map_to_list (<[r := []]> (group_per_participant st))) ++ copies r old).
  { pose proof (flat_insert (group_per_participant st) r old []) as H.
    rewrite E in H. specialize (H eq_refl). by rewrite app_nil_r in H. }
  assert (Ho : out (mkConfig st ad ts cs a d l f evs) ≡ₚ
    out (mkConfig (set_non_empty (non_empty_groups st ∖ {[r]})
        (set_groups (<[r := []]> (group_per_participant st)) st))
        ad ((r, old) :: ts) cs a d l f evs)).
  { config. rewrite Hg, flat_cons, <- !app_assoc. done. }
  constructor; try done.
  - cbn [added] in *. rewrite <- Ho. apply Hcp.
  - intros id Hid. rewrite <- (ids_perm _ _ id Ho). by apply Hct.
  - config. intros r' Hr'. destruct (Hext r' Hr'). split; [|done].
    rewrite lookup_insert_is_Some'. by right.
  - config. intros r' txs'. destruct (decide (r = r')) as [<-|].
    + rewrite lookup_insert_eq. by intros [= <-].
    + rewrite lookup_insert_ne by done. intros Hl Hne.
      destruct (Hmk r' txs' Hl Hne); [left|by right]. set_solver.
  - config. intros r' Hr'. rewrite lookup_insert_is_Some'. right. apply Hgr. set_solver.
Qed.

Lemma deliver_spec r txs s_ok r_ok st ev st' :
  deliver_group r txs s_ok r_ok st = (ev, Some st') ->
  group_per_participant st' = group_per_participant st /\
  num_pending_participant_commits_per_transaction st' =
    num_pending_participant_commits_per_transaction st /\
  non_empty_groups st' = non_empty_groups st /\
  returned_transactions st' = returned_transactions st ++ txs.
Proof.
  unfold deliver_group. destruct txs as [|tx txs]; [intros [= <- <-]; by rewrite app_nil_r|].
  destruct (fake tx); [by intros [= <- <-]|].
  destruct s_ok, r_ok; by try intros [= <- <-].
Qed.

Lemma task_out (A ts1 ts2 : list (FullRangeId * list TransactionInfo)) r txs B C :
  flat A ++ flat (ts1 ++ (r, txs) :: ts2) ++ B ++ C ≡ₚ
  flat A ++ flat (ts1 ++ ts2) ++ B ++ C ++ copies r txs.
Proof.
  rewrite !flat_app, flat_cons, <- !app_assoc. do 2 f_equiv.
  rewrite (Permutation_app_comm (copies r txs)), <- !app_assoc. done.
Qed.

Lemma deliver_inv st ad ts1 ts2 cs a d l f evs evs' r txs s_ok r_ok ev st' :
  deliver_group r txs s_ok r_ok st = (ev, Some st') ->
  inv (mkConfig st ad (ts1 ++ (r, txs) :: ts2) cs a d l f evs) ->
  inv (mkConfig st' ad (ts1 ++ ts2) cs a (d ++ copies r txs) l f evs').
Proof.
  intros (Eg & En & Ee & Er)%deliver_spec [Hcp Hms Hct Hun Hfin Honce Hext Hmk Hgr].
  constructor; config; rewrite ?Eg, ?En, ?Ee, ?Er; try done.
  - rewrite Hcp, task_out. done.
  - intros id. specialize (Hms id).
    rewrite !fmap_app, !count_app in *. rewrite copies_ids. lia.
  - intros id Hid. rewrite <- (ids_perm _ _ id (task_out _ _ _ _ _ _ _)). by apply Hct.
  - intros id. specialize (Hun id). rewrite !fmap_app, !elem_of_app in *.
    rewrite copies_ids. tauto.
Qed.

Lemma lose_inv st ad ts1 ts2 cs a d l f evs evs' r txs :
  inv (mkConfig st ad (ts1 ++ (r, txs) :: ts2) cs a d l f evs) ->
  inv (mkConfig st ad (ts1 ++ ts2) cs a d (l ++ copies r txs) f evs').
Proof.
  intros [Hcp Hms Hct Hun Hfin Honce Hext Hmk Hgr].
  assert (Ho : out (mkConfig st ad (ts1 ++ (r, txs) :: ts2) cs a d l f evs) ≡ₚ
               out (mkConfig st ad (ts1 ++ ts2) cs a d (l ++ copies r txs) f evs')).
  { config. rewrite task_out, <- !app_assoc. do 3 f_equiv. apply Permutation_app_comm. }
  constructor; try done.
  - cbn [added] in *. rewrite <- Ho. apply Hcp.
  - intros id Hid. rewrite <- (ids_perm _ _ id Ho). by apply Hct.
Qed.

Lemma take_returned_inv st ad ts cs a d l f evs :
  inv (mkConfig st ad ts cs a d l f evs) ->
  inv (mkConfig (take_returned st).1 ad ts ((take_returned st).2 :: cs) a d l f evs).
Proof.
  intros [Hcp Hms Hct Hun Hfin Honce Hext Hmk Hgr].
  unfold take_returned. constructor; config; done.
Qed.

(** what the counts say of a [commit] call that is about to collect *)
Lemma collect_covered st ad ts cs1 rs cs2 a d l f evs id :
  inv (mkConfig st ad ts (cs1 ++ rs :: cs2) a d l f evs) ->
  count id (txn_id <$> rs) <=
    default 0 (num_pending_participant_commits_per_transaction st !! id) /\
  (id ∈ txn_id <$> rs -> counting (mkConfig st ad ts (cs1 ++ rs :: cs2) a d l f evs) !! id = None).
Proof.
  intros [Hcp Hms Hct Hun _ _ _ _ _].
  destruct (decide (id ∈ txn_id <$> rs)) as [Hin|Hin].
  2:{ split; [|done]. apply count_not_in in Hin. lia. }
  assert (Hunc : id ∈ uncounted (mkConfig st ad ts (cs1 ++ rs :: cs2) a d l f evs)).
  { config. rewrite concat_app, concat_cons, !fmap_app, !elem_of_app. auto. }
  assert (Hnone : counting (mkConfig st ad ts (cs1 ++ rs :: cs2) a d l f evs) !! id = None).
  { apply eq_None_not_Some. intros Hs%Hct. apply Hs. apply Hun in Hunc. config.
    rewrite !fmap_app, !elem_of_app. auto. }
  split; [|done]. specialize (Hms id). apply (count_ids_perm _ _ id) in Hcp.
  unfold missing in Hms. rewrite missing_union, Hnone in Hms. config.
  rewrite concat_app, concat_cons in Hms. rewrite !fmap_app, !count_app in *. lia.
Qed.

Lemma collect_inv st ad ts cs1 cs2 a d l f evs rs n dn :
  collect rs (num_pending_participant_commits_per_transaction st) [] = Some (n, dn) ->
  inv (mkConfig st ad ts (cs1 ++ rs :: cs2) a d l f evs) ->
  inv (mkConfig (set_pending n st) ad ts (cs1 ++ cs2) a d l (f ++ (txn_id <$> dn)) evs).
Proof.
  intros Hc Hinv.
  pose proof (fun id => collect_covered _ _ _ _ _ _ _ _ _ _ _ id Hinv) as Hcov.
  destruct (collect_spec rs (num_pending_participant_commits_per_transaction st) [])
    as (n' & dn' & Hc' & Hn & Hd & Hnd); [apply Hcov|].
  rewrite Hc in Hc'. injection Hc' as <- <-. cbn [app] in *.
  destruct Hinv as [Hcp Hms Hct Hun Hfin Honce Hext Hmk Hgr].
  assert (Hmiss : forall id, missing (mkConfig (set_pending n st) ad ts (cs1 ++ cs2) a d l
                     (f ++ (txn_id <$> dn)) evs) id + count id (txn_id <$> rs) =
                  missing (mkConfig st ad ts (cs1 ++ rs :: cs2) a d l f evs) id).
  { intros id. unfold missing. rewrite !missing_union. destruct (Hcov id) as [_ Hno].
    unfold counting in *; cbn [adding state set_pending
      num_pending_participant_commits_per_transaction] in *.
    destruct (default ∅ _ !! id) eqn:E; [|by rewrite <- Hn].
    assert (id ∉ txn_id <$> rs) as ->%count_not_in; [|lia].
    intros Hin%Hno. congruence. }
  assert (Hmiss' : forall id, id ∈ txn_id <$> rs ->
            missing (mkConfig (set_pending n st) ad ts (cs1 ++ cs2) a d l
              (f ++ (txn_id <$> dn)) evs) id = default 0 (n !! id)).
  { intros id Hin. destruct (Hcov id) as [_ Hno]. unfold missing.
    rewrite missing_union. unfold counting in *; cbn [adding] in *. by rewrite Hno. }
  constructor; try done; cbn [finished added ended].
  - intros id. specialize (Hms id). rewrite <- Hmiss in Hms. config.
    rewrite concat_app, concat_cons in Hms. rewrite concat_app.
    rewrite !fmap_app, !count_app in *. lia.
  - intros id Hid. apply Hun. config. rewrite concat_app, concat_cons. rewrite concat_app in Hid.
    rewrite !fmap_app, !elem_of_app in *. tauto.
  - intros id. rewrite elem_of_app, Hfin, Hd. cbn [added] in *. specialize (Hmiss id).
    destruct (decide (id ∈ txn_id <$> rs)) as [Hin|Hin].
    + rewrite (Hmiss' id Hin) in *. pose proof Hin as Hpos. apply count_in in Hpos.
      assert (id ∈ a.*2); [|naive_solver lia].
      rewrite (ids_perm _ _ id Hcp). config. rewrite !fmap_app, !elem_of_app.
      do 4 right. apply Hun. rewrite concat_app, concat_cons, !fmap_app, !elem_of_app. auto.
    + pose proof Hin as Hz. apply count_not_in in Hz. rewrite Hz, Nat.add_0_r in Hmiss.
      rewrite Hmiss. tauto.
  - apply NoDup_app. split_and!; [done| |done]. intros id [_ Hz]%Hfin [Hin _]%Hd.
    specialize (Hmiss id). apply count_in in Hin. lia.
Qed.

Lemma stats_inv st ad ts cs a d l f evs :
  inv (mkConfig st ad ts cs a d l f evs) -> inv (mkConfig (get_stats st).1 ad ts cs a d l f evs).
Proof. intros []; by constructor. Qed.

Lemma step_inv c c' : step c c' -> inv c -> inv c'.
Proof.
  destruct 1; eauto using add_inv, count_inv, extend_inv, mark_inv, take_inv,
    deliver_inv, lose_inv, take_returned_inv, collect_inv, stats_inv.
Qed.

Lemma reachable_inv c : reachable c -> inv c.
Proof. revert c; apply rtc_ind_r; [apply inv_init|]. eauto using step_inv. Qed.

(** ** Acknowledgements *)

(** the transaction was handed over with writes at the range *)
Definition handed_over (evs : list Event) (r : FullRangeId) (tx : TransactionInfo) : Prop :=
  exists txs, Added txs ∈ evs /\ tx ∈ txs /\ (r, txn_id tx) ∈ tx_copies tx.

(** the store and then the range have been asked to commit the transaction, and
    both have said that they have *)
Definition acknowledged (evs : list Event) (r : FullRangeId) (id : Uuid) : Prop :=
  exists ids e1 e2 e3, id ∈ ids /\
    evs = e1 ++ TryBatchCommit ids true :: e2 ++ CommitTransactions r ids true :: e3.

(** a fake transaction was handed over at the range *)
Definition faked (evs : list Event) (r : FullRangeId) : Prop :=
  exists tx, handed_over evs r tx /\ fake tx = true.

(** the groups of a configuration, wherever they are *)
Definition groups (c : Config) : list (FullRangeId * list TransactionInfo) :=
  extending c ++ map_to_list (group_per_participant (state c)) ++ tasks c.

Record ack_inv (c : Config) : Prop := {
  ack_groups r txs tx : (r, txs) ∈ groups c -> tx ∈ txs -> handed_over (events c) r tx;
  ack_ended r id : (r, id) ∈ ended c -> faked (events c) r \/ acknowledged (events c) r id
}.

Lemma handed_over_app evs ev r tx : handed_over evs r tx -> handed_over (evs ++ ev) r tx.
Proof. intros (txs & Hin & ?). exists txs. rewrite elem_of_app. auto. Qed.

Lemma ended_app evs ev r id :
  faked evs r \/ acknowledged evs r id -> faked (evs ++ ev) r \/ acknowledged (evs ++ ev) r id.
Proof.
  intros [(tx & Htx & Hf)|(ids & e1 & e2 & e3 & Hid & ->)]; [left|right].
  - exists tx. split; [by apply handed_over_app|done].
  - exists ids, e1, e2, (e3 ++ ev). split; [done|].
    repeat (rewrite <- ?app_assoc; cbn; f_equal).
Qed.

(** what the two loops of [add_transactions] put into the groups *)
Definition from (txs : list TransactionInfo) (g : Groups) : Prop :=
  forall r l tx, g !! r = Some l -> tx ∈ l -> tx ∈ txs /\ (r, txn_id tx) ∈ tx_copies tx.

Lemma group_participants_from all tx ps g n :
  tx ∈ all -> (forall p, p ∈ ps -> p ∈ participant_ranges_info tx) ->
  from all g -> from all (group_participants tx ps g n).1.
Proof.
  intros Htx. revert g n; induction ps as [|p ps IH]; intros g n Hps Hg; cbn; [done|].
  assert (Hps' : forall q, q ∈ ps -> q ∈ participant_ranges_info tx) by (intros q ?; apply Hps; by right).
  destruct (has_writes p) eqn:Ep; [|by apply IH]. apply IH; [done|].
  intros r l t. unfold push_group. rewrite lookup_insert_Some. intros [[<- <-]|[_ Hl]]; [|by apply Hg].
  rewrite elem_of_app, list_elem_of_singleton. intros [Ht| ->].
  - destruct (g !! participant_range p) as [old|] eqn:Eo; [by eapply Hg|by apply elem_of_nil in Ht].
  - split; [done|]. unfold tx_copies. apply list_elem_of_fmap. exists p. split; [done|].
    apply list_elem_of_filter. split; [done|]. apply Hps. by left.
Qed.

Lemma group_transactions_from all txs g n :
  (forall tx, tx ∈ txs -> tx ∈ all) -> from all g -> from all (group_transactions txs g n).1.
Proof.
  revert g n; induction txs as [|tx txs IH]; intros g n Hall Hg; cbn; [done|].
  pose proof (group_participants_from all tx (participant_ranges_info tx) g 0
    (Hall tx ltac:(by left)) (fun p Hp => Hp) Hg) as Hp.
  destruct (group_participants _ _ _ _) as [g' c]. apply IH; [|done].
  intros t Ht. apply Hall. by right.
Qed.

(** a step that moves groups about *)
Lemma ack_move c c' ev :
  events c' = events c ++ ev -> ended c' = ended c ->
  (forall r txs tx, (r, txs) ∈ groups c' -> tx ∈ txs ->
     (exists txs', (r, txs') ∈ groups c /\ tx ∈ txs') \/ handed_over (events c') r tx) ->
  ack_inv c -> ack_inv c'.
Proof.
  intros He Hd Hg [Hgr Hen]. constructor.
  - intros r txs tx Hin Htx. destruct (Hg r txs tx Hin Htx) as [(txs' & ? & ?)|]; [|done].
    rewrite He. by eapply handed_over_app, Hgr.
  - intros r id. rewrite Hd, He. intros ?%Hen. by apply ended_app.
Qed.

(** a group whose task ends has been acknowledged *)
Lemma deliver_acknowledged r txs s_ok r_ok st ev st' evs tx :
  deliver_group r txs s_ok r_ok st = (ev, Some st') -> tx ∈ txs ->
  (forall t, t ∈ txs -> handed_over evs r t) ->
  faked (evs ++ ev) r \/ acknowledged (evs ++ ev) r (txn_id tx).
Proof.
  unfold deliver_group. intros Hd Htx Hall. destruct txs as [|t0 txs0]; [by apply elem_of_nil in Htx|].
  destruct (fake t0) eqn:Ef.
  - left. exists t0. split; [|done]. apply handed_over_app, Hall. by left.
  - destruct s_ok, r_ok; simplify_eq. right. eexists (txn_id <$> t0 :: txs0), evs, [], [].
    split; [by apply list_elem_of_fmap_2|done].
Qed.

Ltac groups_config :=
  unfold groups, extending; cbn [state adding tasks events ended from_option to_extend];
  setoid_rewrite elem_of_app; setoid_rewrite elem_of_app; setoid_rewrite elem_of_map_to_list.

Lemma ack_add st ts cs a d l f evs txs g n gs a' :
  group_transactions txs ∅ ∅ = (g, n) -> gs ≡ₚ map_to_list g ->
  ack_inv (mkConfig st None ts cs a d l f evs) ->
  ack_inv (mkConfig (maybe_insert_new_participant_ranges (gs.*1) st)
    (Some (mkAdding (Some n) gs (gs.*1))) ts cs a' d l f (evs ++ [Added txs])).
Proof.
  intros Hg Hgs. apply (ack_move _ _ [Added txs]); [done..|].
  pose proof (group_transactions_from txs txs ∅ ∅ (fun _ H => H)
    ltac:(intros r l' t; by rewrite lookup_empty)) as Hf. rewrite Hg in Hf. cbn in Hf.
  destruct (maybe_insert_spec (gs.*1) st) as [Hl _].
  groups_config. intros r txs' tx [Hin|[Hin|Hin]] Htx; [right|left|left; eauto].
  - rewrite Hgs, elem_of_map_to_list in Hin. destruct (Hf _ _ _ Hin Htx). exists txs.
    rewrite elem_of_app, list_elem_of_singleton. auto.
  - rewrite Hl in Hin. destruct (group_per_participant st !! r) as [old|] eqn:E; simplify_eq; [eauto|].
    case_decide; simplify_eq. by apply elem_of_nil in Htx.
Qed.

Lemma ack_extend st ts cs a d l f evs ext1 ext2 mk r txs st' :
  extend_group r txs st = Some st' ->
  ack_inv (mkConfig st (Some (mkAdding None (ext1 ++ (r, txs) :: ext2) mk)) ts cs a d l f evs) ->
  ack_inv (mkConfig st' (Some (mkAdding None (ext1 ++ ext2) mk)) ts cs a d l f evs).
Proof.
  unfold extend_group. destruct (_ !! r) as [old|] eqn:E; intros [= <-].
  apply (ack_move _ _ []); [by rewrite app_nil_r|done|]. groups_config.
  intros r' txs' tx [Hin|[Hin|Hin]] Htx; left; [| |by eauto].
  - exists txs'. rewrite ?elem_of_app, ?elem_of_cons in *. naive_solver.
  - cbn in Hin. apply lookup_insert_Some in Hin as [[<- <-]|[_ Hin]]; [|by eauto].
    apply elem_of_app in Htx as [Htx|Htx]; [by eauto|]. exists txs.
    rewrite ?elem_of_app, ?elem_of_cons. auto.
Qed.

Lemma ack_take st ad ts cs a d l f evs r st' txs :
  take_group r st = Some (st', txs) ->
  ack_inv (mkConfig st ad ts cs a d l f evs) -> ack_inv (mkConfig st' ad ((r, txs) :: ts) cs a d l f evs).
Proof.
  unfold take_group. destruct (_ !! r) as [old|] eqn:E; intros [= <- <-].
  apply (ack_move _ _ []); [by rewrite app_nil_r|done|]. groups_config.
  intros r' txs' tx [Hin|[Hin|Hin]] Htx; left; [by eauto| |].
  - cbn in Hin. apply lookup_insert_Some in Hin as [[<- <-]|[_ Hin]]; [by apply elem_of_nil in Htx|eauto].
  - apply elem_of_cons in Hin as [[= <- <-]|Hin]; eauto.
Qed.

Lemma ack_task_out st st' ad ts1 ts2 cs a d d' l l' f evs ev r txs :
  group_per_participant st' = group_per_participant st ->
  (forall r' id, (r', id) ∈ d' -> (r', id) ∈ d \/ (exists tx, tx ∈ txs /\ r' = r /\ id = txn_id tx /\
     (faked (evs ++ ev) r \/ acknowledged (evs ++ ev) r id))) ->
  ack_inv (mkConfig st ad (ts1 ++ (r, txs) :: ts2) cs a d l f evs) ->
  ack_inv (mkConfig st' ad (ts1 ++ ts2) cs a d' l' f (evs ++ ev)).
Proof.
  intros Hg Hd [Hgr Hen]. constructor.
  - revert Hgr. groups_config. rewrite Hg. intros Hgr r' txs' tx Hin Htx.
    apply handed_over_app, (Hgr r' txs' tx); [|done].
    destruct Hin as [?|[?|[?|?]%elem_of_app]]; [auto|auto|..]; do 2 right;
      rewrite ?elem_of_app, ?elem_of_cons; auto.
  - cbn. intros r' id [Hin|(tx & _ & -> & -> & ?)]%Hd; [|done]. apply ended_app. by apply Hen.
Qed.

Lemma ack_same st st' ad ad' ts cs cs' a d l f f' evs :
  group_per_participant st' = group_per_participant st ->
  from_option to_extend [] ad' = from_option to_extend [] ad ->
  ack_inv (mkConfig st ad ts cs a d l f evs) -> ack_inv (mkConfig st' ad' ts cs' a d l f' evs).
Proof.
  intros Hg Ha. apply (ack_move _ _ []); [by rewrite app_nil_r|done|].
  unfold groups, extending. cbn. rewrite Hg, Ha. eauto.
Qed.

Lemma ack_step c c' : step c c' -> ack_inv c -> ack_inv c'.
Proof.
  destruct 1; eauto using ack_add, ack_extend, ack_take; try (by apply ack_same); intros Hack.
  - eapply ack_task_out; [by eapply deliver_spec| |done]. intros r' id.
    rewrite elem_of_app. intros [?|(tx & Hp & Htx)%list_elem_of_fmap]; [by left|right].
    injection Hp as -> ->. exists tx. split_and!; [done..|].
    eapply deliver_acknowledged; [done|done|]. intros t Ht.
    eapply (ack_groups _ Hack); [|done]. unfold groups. cbn. rewrite !elem_of_app, elem_of_cons. auto.
  - eapply ack_task_out; [done| |done]. auto.
Qed.

Lemma reachable_ack c : reachable c -> ack_inv c.
Proof.
  revert c; apply rtc_ind_r; [|eauto using ack_step].
  constructor; [|by intros ? ? ?%elem_of_nil]. intros r txs tx. groups_config. cbn.
  rewrite lookup_empty, !elem_of_nil. naive_solver.
Qed.

(** ** The operations without interleaving are runs *)

Lemma extend_run gs st ts cs a d l f evs mk :
  (forall r, r ∈ gs.*1 -> is_Some (group_per_participant st !! r)) ->
  rtc step (mkConfig st (Some (mkAdding None gs mk)) ts cs a d l f evs)
    (mkConfig (foldl (fun s '(r, txs) => default s (extend_group r txs s)) st gs)
       (Some (mkAdding None [] mk)) ts cs a d l f evs).
Proof.
  revert st; induction gs as [|[r txs] gs IH]; intros st Hs; [constructor|].
  destruct (Hs r) as [old Hold]; [by left|].
  assert (He : extend_group r txs st =
    Some (set_groups (<[r := old ++ txs]> (group_per_participant st)) st)).
  { unfold extend_group. by rewrite Hold. }
  cbn [foldl]. rewrite He. cbn [default from_option Datatypes.id].
  eapply rtc_l; [by apply (step_extend _ _ _ _ _ _ _ _ [] gs)|].
  apply IH. intros r' Hr'. cbn. rewrite lookup_insert_is_Some'. right. apply Hs. by right.
Qed.

Lemma add_transactions_run `{HashOrder} txs st ts cs a d l f evs :
  NoDup (txn_id <$> txs) ->
  (forall tx, tx ∈ txs -> tx_copies tx <> [] /\ txn_id tx ∉ a.*2) ->
  rtc step (mkConfig st None ts cs a d l f evs)
    (mkConfig (add_transactions txs st) None ts cs (a ++ (txs ≫= tx_copies)) d l f (evs ++ [Added txs])).
Proof.
  intros Hnd Hfresh. unfold add_transactions.
  destruct (group_transactions txs ∅ ∅) as [g n] eqn:Eg.
  eapply rtc_l; [by eapply (step_add _ _ _ _ _ _ _ _ _ g n), hash_iter_map_perm|].
  eapply rtc_l; [apply step_count|].
  eapply rtc_r; [apply extend_run|apply step_mark].
  intros r Hr. unfold insert_pending; cbn.
  destruct (maybe_insert_spec ((hash_iter_map g).*1) st) as [Hl _]. rewrite Hl.
  destruct (_ !! r); [done|]. by rewrite decide_True.
Qed.

Lemma run_tasks_run answer rs st cs a d l f evs :
  (forall r, answer r = (true, true)) ->
  (forall r, r ∈ rs -> is_Some (group_per_participant st !! r)) ->
  exists st' d' evs', run_tasks answer rs st = Some st' /\
    rtc step (mkConfig st None [] cs a d l f evs) (mkConfig st' None [] cs a d' l f evs') /\
    (forall r, group_per_participant st' !! r =
      if decide (r ∈ rs) then Some [] else group_per_participant st !! r).
Proof.
  intros Hok. revert st d evs; induction rs as [|r rs IH]; intros st d evs Hs; cbn [run_tasks].
  - exists st, d, evs. split_and!; [done|constructor|done].
  - destruct (Hs r) as [old Hold]; [by left|].
    destruct (take_group r st) as [[st1 txs]|] eqn:Et; [|by unfold take_group in Et; rewrite Hold in Et].
    rewrite (Hok r); cbn [fst snd].
    assert (exists ev st2, deliver_group r txs true true st1 = (ev, Some st2)) as (ev & st2 & Ed).
    { unfold deliver_group. destruct txs; [by do 2 eexists|]. case_match; by do 2 eexists. }
    rewrite Ed; cbn [default from_option Datatypes.id snd].
    pose proof (deliver_spec _ _ _ _ _ _ _ Ed) as (Eg & _).
    assert (Hg : group_per_participant st2 = <[r := []]> (group_per_participant st)).
    { rewrite Eg. unfold take_group in Et. rewrite Hold in Et. by injection Et as <- _. }
    destruct (IH st2 (d ++ copies r txs) (evs ++ ev)) as (st' & d' & evs' & Hr & Hrun & Hl).
    { intros r' Hr'. rewrite Hg, lookup_insert_is_Some'. right. apply Hs. by right. }
    exists st', d', evs'. split_and!; [done| |].
    + eapply rtc_l; [by apply step_take|].
      eapply rtc_l; [eapply (step_deliver _ _ [] []); exact Ed|]. done.
    + intros r'. rewrite Hl, Hg. destruct (decide (r = r')) as [<-|].
      * rewrite lookup_insert_eq, (decide_True (P := r ∈ r :: rs)) by (by left). by case_decide.
      * rewrite lookup_insert_ne by done. apply decide_ext. rewrite elem_of_cons. naive_solver.
Qed.

(** ** Properties *)

(** C5: atomic commit. In every interleaving of additions, commit tasks that
    succeed or fail and collecting calls, when a transaction is reported as
    finished, the transaction state store and then every range it wrote to have
    been asked to commit it and have answered that they have. The exception is
    a range at which a fake transaction of the load generator was handed over:
    a group with a fake one in front is reported without asking anybody. *)
Theorem finished_after_all_participants c r id :
  reachable c -> id ∈ finished c -> (r, id) ∈ added c ->
  (forall txs tx, Added txs ∈ events c -> tx ∈ txs -> (r, txn_id tx) ∈ tx_copies tx -> fake tx = false) ->
  acknowledged (events c) r id.
Proof.
  intros Hreach Hf Hadd Hreal.
  destruct (ack_ended _ (reachable_ack _ Hreach) r id) as [(tx & (txs & ? & ? & ?) & Hfk)|];
    [|by rewrite (Hreal txs tx) in Hfk|done].
  apply reachable_inv in Hreach as [Hcp Hms _ _ Hfin _ _ _ _]. apply Hfin in Hf as [_ Hz].
  specialize (Hms id). rewrite Hz in Hms.
  pose proof (count_ids_perm _ _ id Hcp) as Hcnt. unfold out in Hcnt.
  rewrite !fmap_app, !count_app in Hcnt.
  rewrite Hcp in Hadd. unfold out in Hadd. rewrite !elem_of_app in Hadd.
  assert (Hno : forall l : list (FullRangeId * Uuid), count id l.*2 = 0 -> (r, id) ∉ l).
  { intros l Hl Hin. apply count_not_in in Hl. apply Hl.
    exact (list_elem_of_fmap_2 snd l (r, id) Hin). }
  destruct Hadd as [Hi|[Hi|[Hi|[Hi|Hi]]]]; [..|done];
    apply Hno in Hi; done || lia.
Qed.

(** C16: the last loop of [commit] never fails its assertion and never
    underflows a count, and no transaction is reported as finished twice. *)
Theorem collect_total_exactly_once c rs :
  reachable c -> rs ∈ collecting c ->
  exists n done,
    collect rs (num_pending_participant_commits_per_transaction (state c)) [] =
      Some (n, done) /\
    NoDup (finished c ++ (txn_id <$> done)).
Proof.
  intros Hinv%reachable_inv Hrs.
  destruct c as [st ad ts cs a d l f evs]; cbn [collecting state finished] in *.
  apply list_elem_of_split in Hrs as (cs1 & cs2 & ->).
  destruct (collect_spec rs (num_pending_participant_commits_per_transaction st) [])
    as (n & dn & Hc & _).
  { intros id. by destruct (collect_covered _ _ _ _ _ _ _ _ _ _ _ id Hinv). }
  exists n, dn. split; [done|].
  exact (inv_once _ (collect_inv _ _ _ _ _ _ _ _ _ _ _ _ _ Hc Hinv)).
Qed.

(** No transaction is forgotten in a group: when no addition is running,
    a range whose group is not empty is marked for the next commit, and every
    marked range has a group. *)
Theorem no_forgotten_group c r :
  reachable c -> adding c = None ->
  (r ∈ non_empty_groups (state c) -> is_Some (group_per_participant (state c) !! r)) /\
  (forall tx txs, group_per_participant (state c) !! r = Some txs -> tx ∈ txs ->
   r ∈ non_empty_groups (state c)).
Proof.
  intros [_ _ _ _ _ _ _ Hmk Hgr]%reachable_inv Hadd.
  unfold marking in *. rewrite Hadd in *; cbn in *. split; [eauto|].
  intros tx txs Hl Hin. destruct (Hmk r txs Hl) as [?|?%elem_of_nil]; [|done|done].
  intros ->. by apply elem_of_nil in Hin.
Qed.

Lemma flat_empty (g : Groups) :
  (forall r txs, g !! r = Some txs -> txs = []) -> flat (map_to_list g) = [].
Proof.
  intros Hg. assert (Hl : forall r txs, (r, txs) ∈ map_to_list g -> txs = []).
  { intros r txs. rewrite elem_of_map_to_list. apply Hg. }
  induction (map_to_list g) as [|[r txs] l IH]; [done|].
  rewrite flat_cons, (Hl r txs) by (by left). apply IH. intros r' txs' ?.
  apply (Hl r'). by right.
Qed.

(** C33: when no other call is running and every range and the transaction
    state store answer, one [commit] returns, and every transaction that was
    added and of which no task has panicked has been reported as finished, by
    it or by an earlier call. *)
Theorem commit_completes `{HashOrder} answer st a d l f evs :
  reachable (mkConfig st None [] [] a d l f evs) ->
  (forall r, answer r = (true, true)) ->
  exists st' fin, commit answer st = (st', Ok fin) /\
    forall id, id ∈ a.*2 -> id ∉ l.*2 -> id ∈ f \/ id ∈ txn_id <$> fin.
Proof.
  intros Hreach Hok. pose proof (reachable_inv _ Hreach) as [_ _ _ _ _ _ _ Hmk Hgr].
  unfold marking in *; cbn in Hmk, Hgr.
  destruct (run_tasks_run answer (hash_iter (non_empty_groups st)) st [] a d l f evs)
    as (st1 & d1 & evs1 & Htasks & Hrun & Hlook); [done| |].
  { intros r Hr%hash_iter_elem_of. apply Hgr. by left. }
  unfold commit. rewrite Htasks. cbn [take_returned fst snd set_returned
    num_pending_participant_commits_per_transaction].
  assert (Hreach2 : reachable (mkConfig (take_returned st1).1 None []
                      ([] ++ (take_returned st1).2 :: []) a d1 l f evs1)).
  { eapply rtc_r; [etransitivity; [exact Hreach|exact Hrun]|]. apply step_take_returned. }
  destruct (collect_spec (returned_transactions st1)
      (num_pending_participant_commits_per_transaction st1) []) as (n & dn & Hc & _).
  { intros id. by destruct (collect_covered _ _ _ _ _ _ _ _ _ _ _ id (reachable_inv _ Hreach2)). }
  rewrite Hc. cbn [app] in *. eexists _, dn. split; [done|]. intros id Hid Hlost.
  assert (Hreach3 : reachable (mkConfig (set_pending n (take_returned st1).1) None [] []
                      a d1 l (f ++ (txn_id <$> dn)) evs1)).
  { eapply rtc_r; [exact Hreach2|].
    apply (step_collect (take_returned st1).1 None [] [] [] a d1 l f evs1 _ n dn). exact Hc. }
  apply reachable_inv in Hreach3 as [Hcp Hms _ _ Hfin _ _ _ _].
  assert (Hempty : flat (map_to_list (group_per_participant st1)) = []).
  { apply flat_empty. intros r txs. rewrite Hlook. case_decide as Hr; [by intros [= <-]|].
    intros Hl. destruct (decide (txs = [])) as [|Hne]; [done|].
    destruct (Hmk r txs Hl Hne) as [Hm|?%elem_of_nil]; [|done].
    by apply hash_iter_elem_of in Hm. }
  rewrite <- elem_of_app. apply Hfin. split; [done|].
  specialize (Hms id). apply (count_ids_perm _ _ id) in Hcp.
  unfold take_returned in *. config. rewrite Hempty in Hcp. cbn [fmap list_fmap app flat] in *.
  cbn [list_bind app] in Hcp. rewrite fmap_app, count_app in Hcp. apply count_not_in in Hlost.
  unfold uncounted in Hms; cbn in Hms. cbn in Hms |- *. unfold count in *. cbn in *. lia.
Qed.

(** ** A group can be overtaken *)

Definition sample_range : FullRangeId := mkFullRangeId (mkKeyspaceId 1) 2.
Definition sample_tx (n : Uuid) : TransactionInfo :=
  mkTransactionInfo n 0 ∅ [mkParticipantRangeInfo sample_range true] false.

(** the state after adding the transactions [ids] to [st] *)
Definition sample_add (ids : list Uuid) (st : State) : State :=
  add_transactions (H := element_order) (sample_tx <$> ids) st.

Lemma sample_add_run ids st ts cs a d l f evs :
  NoDup ids -> (forall id, id ∈ ids -> id ∉ a.*2) ->
  rtc step (mkConfig st None ts cs a d l f evs)
    (mkConfig (sample_add ids st) None ts cs (a ++ ((sample_tx <$> ids) ≫= tx_copies)) d l f
      (evs ++ [Added (sample_tx <$> ids)])).
Proof.
  intros Hnd Hf. apply add_transactions_run.
  - by rewrite <- list_fmap_compose, list_fmap_id.
  - intros tx (id & -> & Hid)%list_elem_of_fmap. split; [done|by apply Hf].
Qed.

(** The ranges need not see the transactions in the order in which they
    became ready. Transaction 2 is added to the group of a range after
    transaction 1, which it may depend on, and its task reaches the range
    first: the order of the acknowledged commits is not the order of the
    additions. *)
Theorem later_group_can_overtake :
  exists c, reachable c /\
    added c = [(sample_range, 1%N); (sample_range, 2%N)] /\
    ended c = [(sample_range, 2%N); (sample_range, 1%N)].
Proof.
  eexists. split.
  - unfold reachable. etransitivity; [apply (sample_add_run [1%N])|].
    { apply NoDup_singleton. } { intros id _ ?%elem_of_nil; done. }
    eapply rtc_l; [eapply (step_take _ _ _ _ _ _ _ _ _ sample_range); reflexivity|].
    etransitivity; [apply (sample_add_run [2%N])|].
    { apply NoDup_singleton. }
    { intros id ->%list_elem_of_singleton. by_decision. }
    eapply rtc_l; [eapply (step_take _ _ _ _ _ _ _ _ _ sample_range); reflexivity|].
    eapply rtc_l; [eapply (step_deliver _ _ [] _ _ _ _ _ _ _ _ _ true true); reflexivity|].
    eapply rtc_l; [eapply (step_deliver _ _ [] [] _ _ _ _ _ _ _ _ true true); reflexivity|].
    constructor.
  - split; reflexivity.
Qed.

(** ** Witnesses *)

(** transactions 1 and 2 added *)
Definition sample_copies : list (FullRangeId * Uuid) := [(sample_range, 1%N); (sample_range, 2%N)].
Definition sample_added : list Event := [Added [sample_tx 1; sample_tx 2]].

Lemma sample_taken_reachable :
  reachable (mkConfig (sample_add [1%N; 2%N] new) None [] [] sample_copies [] [] [] sample_added).
Proof.
  apply (sample_add_run [1%N; 2%N] new [] [] [] [] [] [] []).
  - by_decision.
  - by intros id _ ?%elem_of_nil.
Qed.

(** the states of a commit call on it, up to the report *)
Definition sample_sent : State :=
  (default (new, []) (take_group sample_range (sample_add [1%N; 2%N] new))).1.
Definition sample_calls : list Event :=
  [TryBatchCommit [1%N; 2%N] true; CommitTransactions sample_range [1%N; 2%N] true].
Definition sample_delivered : State :=
  default sample_sent (deliver_group sample_range [sample_tx 1; sample_tx 2] true true sample_sent).2.

Lemma sample_delivered_reachable :
  reachable (mkConfig sample_delivered None [] [] sample_copies sample_copies [] []
    (sample_added ++ sample_calls)).
Proof.
  eapply rtc_r; [eapply rtc_r; [apply sample_taken_reachable|]|].
  - eapply (step_take _ _ _ _ _ _ _ _ _ sample_range sample_sent [sample_tx 1; sample_tx 2]).
    vm_compute. reflexivity.
  - apply (step_deliver _ None [] [] [] _ [] [] [] sample_added sample_range
              [sample_tx 1; sample_tx 2] true true). vm_compute. reflexivity.
Qed.

Lemma sample_collecting_reachable :
  reachable (mkConfig (take_returned sample_delivered).1 None []
    ([] ++ [sample_tx 1; sample_tx 2] :: []) sample_copies sample_copies [] []
    (sample_added ++ sample_calls)).
Proof.
  eapply rtc_r; [apply sample_delivered_reachable|]. apply step_take_returned.
Qed.

Lemma finished_after_all_participants_witness :
  exists c, reachable c /\ 2%N ∈ finished c /\ acknowledged (events c) sample_range 2.
Proof.
  assert (Hr : reachable (mkConfig (set_pending ∅ (take_returned sample_delivered).1) None [] ([] ++ [])
    sample_copies sample_copies [] ([] ++ [1%N; 2%N]) (sample_added ++ sample_calls))).
  { eapply rtc_r; [apply sample_collecting_reachable|].
    apply (step_collect _ _ _ [] [] _ _ _ _ _ [sample_tx 1; sample_tx 2] ∅ [sample_tx 1; sample_tx 2]).
    vm_compute. reflexivity. }
  eexists. split; [exact Hr|]. split; [cbn; right; left|].
  apply (finished_after_all_participants _ sample_range 2 Hr); [cbn; right; left|cbn; right; left|].
  intros txs tx Hin Htx _. unfold sample_added, sample_calls in Hin. cbn in Hin.
  rewrite !elem_of_cons, elem_of_nil in Hin.
  destruct Hin as [[= ->]|[?|[?|[]]]]; [|done|done].
  rewrite !elem_of_cons, elem_of_nil in Htx. by destruct Htx as [->|[->|[]]].
Defined.

Lemma collect_total_exactly_once_witness :
  exists n done,
    collect [sample_tx 1; sample_tx 2]
      (num_pending_participant_commits_per_transaction sample_delivered) [] = Some (n, done) /\
    NoDup ([] ++ (txn_id <$> done)).
Proof.
  apply (collect_total_exactly_once _ [sample_tx 1; sample_tx 2] sample_collecting_reachable).
  left.
Defined.

Lemma no_forgotten_group_witness :
  sample_range ∈ non_empty_groups (sample_add [1%N; 2%N] new).
Proof.
  destruct (no_forgotten_group _ sample_range sample_taken_reachable eq_refl) as [_ Hm].
  apply (Hm (sample_tx 1) [sample_tx 1; sample_tx 2]); [vm_compute; reflexivity|left].
Defined.

Lemma commit_completes_witness :
  exists st' fin,
    commit (H := element_order) (fun _ => (true, true)) (sample_add [1%N; 2%N] new) =
      (st', Ok fin) /\
    forall id, id ∈ [1%N; 2%N] -> id ∉ (@nil Uuid) -> id ∈ (@nil Uuid) \/ id ∈ txn_id <$> fin.
Proof.
  by apply (commit_completes (H := element_order) _ _ _ _ _ _ _ sample_taken_reachable).
Defined.

End GroupCommit.
