(* ===== verification/Pipeline.v ===== *)
(** * A pipelined range: [RangeManager.v] under [GroupCommit.v]

    Under the pipelined strategy a range shows the writes of a transaction as
    soon as it has prepared; the commit comes later, from the coordinator when
    the transaction depends on no other, and otherwise in a group of
    transactions from the resolver. The range manager needs the commits of a
    group in the order of their writes; here this order is derived from what the
    resolver promises, that a transaction is handed over after those it depends
    on, and from the queues of group commit. *)

From Stdlib Require Import Floats.SpecFloat.
From stdpp Require Import base tactics list numbers option gmap sets relations strings.
From S2P Require Import Prelude Float64 Common Storage RsError Wal LockTable RangeManager GroupCommit.

Module Pipeline.
Import Common.

(** ** The order of writes *)

Notation Changes := RangeManager.Changes.

Section Order.
(** the transactions in the order in which they prepared, which of them are not
    committed, and what they depend on *)
Context (order : list (Uuid * Changes)) (live : Uuid -> Prop) (deps : Uuid -> gset Uuid).

Definition last_writer (o : list (Uuid * Changes)) (k : Bytes) : option Uuid :=
  fst <$> RangeManager.last_write o k.

(** [t] has written a key of [t'] before it *)
Definition before (t t' : Uuid) : Prop :=
  exists o1 ch' o2 ch k, order = o1 ++ (t', ch') :: o2 /\ (t, ch) ∈ o1 /\
    is_Some (ch !! k) /\ is_Some (ch' !! k).

(** a transaction depends on the last writer of each of its keys *)
Definition chained : Prop :=
  forall o1 t' ch' o2 k u, order = o1 ++ (t', ch') :: o2 -> is_Some (ch' !! k) ->
    last_writer o1 k = Some u -> live u -> u ∈ deps t'.

(** the commits follow the writes *)
Definition commits_follow : Prop := forall t t', before t t' -> live t -> live t'.

(** a transaction is handed over after those it depends on *)
Definition handed_first (handed : list Uuid) : Prop :=
  forall l1 t l2 d, handed = l1 ++ t :: l2 -> d ∈ deps t -> live d -> d ∈ l1.

Lemma last_write_split (o : list (Uuid * Changes)) k t v :
  RangeManager.last_write o k = Some (t, v) ->
  exists o1 ch o2, o = o1 ++ (t, ch) :: o2 /\ ch !! k = Some v /\
    forall t' ch', (t', ch') ∈ o2 -> ch' !! k = None.
Proof.
  induction o as [|[t0 ch0] o IH]; [done|]. rewrite RangeManager.last_write_cons.
  destruct (RangeManager.last_write o k) as [p|] eqn:E.
  - intros [= ->]. destruct (IH eq_refl) as (o1 & ch & o2 & -> & ? & ?). by exists ((t0, ch0) :: o1), ch, o2.
  - destruct (ch0 !! k) as [v0|] eqn:E0; cbn; [|done]. intros [= <- <-]. exists [], ch0, o.
    split_and!; [done..|]. intros t' ch' Hin. destruct (ch' !! k) eqn:Ek; [|done].
    destruct (RangeManager.last_write_some o k t' ch' _ Hin Ek). congruence.
Qed.

Lemma last_writer_some o k t ch :
  (t, ch) ∈ o -> is_Some (ch !! k) -> exists u, last_writer o k = Some u.
Proof.
  intros Hin [v Hv]. destruct (RangeManager.last_write_some o k t ch v Hin Hv) as [[u w] Hw].
  exists u. unfold last_writer. by rewrite Hw.
Qed.

(** the last writer of a key is the transaction itself or comes after it *)
Lemma last_writer_before o k t ch u :
  (t, ch) ∈ o -> is_Some (ch !! k) -> last_writer o k = Some u ->
  u = t \/ exists o1 chu o2, o = o1 ++ (u, chu) :: o2 /\ (t, ch) ∈ o1 /\ is_Some (chu !! k).
Proof.
  unfold last_writer. intros Hin [v Hv] Hl.
  destruct (RangeManager.last_write o k) as [[u' w]|] eqn:E; [|done]. injection Hl as ->.
  destruct (last_write_split o k u w E) as (o1 & chu & o2 & -> & Hu & Hno).
  apply elem_of_app in Hin as [Hin|[[= <- <-]|Hin]%elem_of_cons].
  - right. exists o1, chu, o2. split_and!; [done..|by eexists].
  - by left.
  - rewrite (Hno _ _ Hin) in Hv. done.
Qed.

Context (Hchain : chained) (Hfollow : commits_follow).

(** a transaction that comes after a live one depends on a live one, which is
    the last to write one of its keys *)
Lemma before_depends t t' :
  before t t' -> live t ->
  exists u, live u /\ u ∈ deps t' /\ (u = t \/ before t u) /\
    exists o1 ch' o2, order = o1 ++ (t', ch') :: o2 /\ u ∈ o1.*1.
Proof.
  intros (o1 & ch' & o2 & ch & k & Ho & Hin & Hk & Hk') Hl.
  destruct (last_writer_some o1 k t ch Hin Hk) as [u Hu].
  assert (Hor : u = t \/ before t u).
  { destruct (last_writer_before o1 k t ch u Hin Hk Hu) as [->|(p1 & chu & p2 & -> & Hp & Hku)]; [by left|].
    right. exists p1, chu, (p2 ++ (t', ch') :: o2), ch, k. by rewrite <- app_assoc in Ho. }
  assert (Hlu : live u) by (destruct Hor as [->|Hb]; [done|by apply (Hfollow t)]).
  exists u. split_and!; [done|by eapply Hchain|done|]. exists o1, ch', o2. split; [done|].
  unfold last_writer in Hu. destruct (RangeManager.last_write o1 k) as [[u' v]|] eqn:E; [|done].
  injection Hu as ->. apply RangeManager.last_write_in in E as (chu & Hc & _).
  by apply (list_elem_of_fmap_2 fst) in Hc.
Qed.

(** what is handed over follows the writes *)
Lemma handed_follows handed t t' l1 l2 :
  NoDup order.*1 -> handed_first handed -> before t t' -> live t -> handed = l1 ++ t' :: l2 -> t ∈ l1.
Proof.
  intros Hnd Hfirst Hb Hl.
  assert (exists n, forall o1 ch' o2, order = o1 ++ (t', ch') :: o2 -> length o1 <= n) as [n Hn].
  { exists (length order). intros o1 ch' o2 ->. rewrite length_app. cbn. lia. }
  revert t' l1 l2 Hb Hn. induction n as [n IH] using lt_wf_ind. intros t' l1 l2 Hb Hn Hh.
  destruct (before_depends t t' Hb Hl) as (u & Hlu & Hd & Hor & o1 & ch' & o2 & Ho & Hu).
  pose proof (Hfirst l1 t' l2 u Hh Hd Hlu) as Hin. destruct Hor as [->|Hbu]; [done|].
  apply list_elem_of_split in Hin as (m1 & m2 & ->). apply elem_of_app. left.
  destruct n as [|n'].
  { specialize (Hn _ _ _ Ho). destruct o1; [by apply elem_of_nil in Hu|cbn in Hn; lia]. }
  apply (IH n' ltac:(lia) u m1 (m2 ++ t' :: l2) Hbu); [|by rewrite <- app_assoc in Hh].
  intros p1 chu p2 Hp. specialize (Hn _ _ _ Ho).
  (* [u] comes before [t'] *)
  assert (Hlt : length p1 < length o1); [|lia].
  apply list_elem_of_fmap in Hu as ([u' cu] & -> & Hu). apply list_elem_of_lookup in Hu as [i Hi].
  assert (i = length p1) as ->.
  { eapply NoDup_lookup; [exact Hnd|..].
    - rewrite list_lookup_fmap, Ho, lookup_app_l, Hi; [done|]. by eapply lookup_lt_Some.
    - rewrite list_lookup_fmap, Hp, list_lookup_middle by done. done. }
  by eapply lookup_lt_Some.
Qed.

End Order.
(** *** One more transaction *)

Lemma last_write_snoc (o : list (Uuid * Changes)) t ch k :
  RangeManager.last_write (o ++ [(t, ch)]) k = match ch !! k with Some v => Some (t, v) | None => RangeManager.last_write o k end.
Proof. unfold RangeManager.last_write. rewrite foldl_app. cbn. by destruct (ch !! k). Qed.

Lemma last_writer_in (o : list (Uuid * Changes)) k u : last_writer o k = Some u -> u ∈ o.*1.
Proof.
  unfold last_writer. destruct (RangeManager.last_write o k) as [[u' v]|] eqn:E; [|done]. intros [= ->].
  apply RangeManager.last_write_in in E as (ch & Hin & _). by apply (list_elem_of_fmap_2 fst) in Hin.
Qed.

(** splitting a list that has grown *)
Lemma snoc_split {A} (o o1 o2 : list A) x y :
  o ++ [x] = o1 ++ y :: o2 -> (o2 = [] /\ o1 = o /\ y = x) \/ exists o3, o2 = o3 ++ [x] /\ o = o1 ++ y :: o3.
Proof.
  destruct o2 as [|z o2 _] using rev_ind.
  - intros [-> [= ->]]%app_inj_tail. by left.
  - rewrite app_comm_cons, app_assoc. intros [-> ->]%app_inj_tail. right. by exists o2.
Qed.

Section Prepare.
Context (order : list (Uuid * Changes)) (live live' : Uuid -> Prop) (deps deps' : Uuid -> gset Uuid).
Context (t : Uuid) (ch : Changes).
Context (Hnew : t ∉ order.*1) (Hlive : forall u, u ∈ order.*1 -> live' u <-> live u).
Context (Hdeps : forall u, u <> t -> deps' u = deps u).

Lemma last_writer_snoc k :
  last_writer (order ++ [(t, ch)]) k =
  match ch !! k with Some _ => Some t | None => last_writer order k end.
Proof. unfold last_writer. rewrite last_write_snoc. by destruct (ch !! k). Qed.

Lemma chained_snoc :
  chained order live deps ->
  (forall k u, is_Some (ch !! k) -> last_writer order k = Some u -> live u -> u ∈ deps' t) ->
  chained (order ++ [(t, ch)]) live' deps'.
Proof.
  intros Hchain Ht o1 t' ch' o2 k u Ho Hk Hu Hl.
  apply snoc_split in Ho as [(-> & -> & [= -> ->])|(o3 & -> & Ho)].
  - apply (Ht k); [done..|]. apply Hlive; [by eapply last_writer_in|done].
  - assert (Hin : u ∈ order.*1).
    { rewrite Ho, fmap_app. apply elem_of_app. left. by eapply last_writer_in. }
    rewrite Hdeps; [by eapply Hchain; [..|apply Hlive]|]. intros ->. apply Hnew.
    rewrite Ho, fmap_app, fmap_cons. apply elem_of_app. right. by left.
Qed.

Lemma follow_snoc :
  commits_follow order live -> live' t -> commits_follow (order ++ [(t, ch)]) live'.
Proof.
  intros Hfollow Hlt x y (o1 & ch' & o2 & chx & k & Ho & Hin & Hk1 & Hk2) Hlx.
  apply snoc_split in Ho as [(-> & -> & [= -> ->])|(o3 & -> & Ho)]; [done|].
  assert (x ∈ order.*1 /\ y ∈ order.*1) as [Hx Hy].
  { apply (list_elem_of_fmap_2 fst) in Hin. rewrite Ho, fmap_app, fmap_cons, !elem_of_app, !elem_of_cons.
    cbn in *. tauto. }
  apply Hlive; [done|]. apply (Hfollow x); [by exists o1, ch', o3, chx, k|by apply Hlive].
Qed.

Lemma first_snoc handed :
  handed_first live deps handed -> (forall u d, d ∈ deps u -> d ∈ order.*1) -> t ∉ handed ->
  handed_first live' deps' handed.
Proof.
  intros Hfirst Hd Hnh l1 u l2 d Hh Hdu Hld. assert (u <> t).
  { intros ->. apply Hnh. rewrite Hh. apply elem_of_app. right. by left. }
  rewrite Hdeps in Hdu by done. eapply Hfirst; [exact Hh|done|]. apply Hlive; [by eapply Hd|done].
Qed.
End Prepare.

(** ** The queue of a range in group commit *)

Section Queue.
Context (r : FullRangeId).
Import GroupCommit.

Definition at_range {A} (l : list (FullRangeId * A)) : list A := (filter (fun p => p.1 = r) l).*2.
#[local] Arguments at_range : simpl never.

(** the transactions that were handed over for the range, and those whose commit
    whose tasks have ended *)
Definition handed (g : Config) : list Uuid := at_range (added g).
Definition ended_at (g : Config) : list Uuid := at_range (ended g).

(** the groups that commit tasks have taken and not delivered *)
Definition in_flight (g : Config) : list (list TransactionInfo) := at_range (tasks g).

Definition queue (g : Config) : list TransactionInfo :=
  concat (in_flight g) ++ default [] (group_per_participant (state g) !! r) ++
  concat (at_range (extending g)).

(** No group of the range overtakes another, no task of it has panicked, and
    nobody is handed over twice. *)
Definition calm (g : Config) : Prop :=
  length (in_flight g) <= 1 /\ at_range (lost g) = [] /\ NoDup (handed g).

(** what is handed over comes out in the same order *)
Definition fifo (g : Config) : Prop :=
  handed g = ended_at g ++ (txn_id <$> queue g) /\ NoDup (extending g).*1.

Lemma at_range_nil {A} : at_range (A := A) [] = [].
Proof. done. Qed.

Lemma at_range_app {A} (l1 l2 : list (FullRangeId * A)) : at_range (l1 ++ l2) = at_range l1 ++ at_range l2.
Proof. unfold at_range. by rewrite filter_app, fmap_app. Qed.

Lemma at_range_cons {A} r' (a : A) l :
  at_range ((r', a) :: l) = if decide (r' = r) then a :: at_range l else at_range l.
Proof. unfold at_range. rewrite filter_cons. cbn. by case_decide. Qed.

Lemma at_range_copies r' txs : at_range (copies r' txs) = if decide (r' = r) then txn_id <$> txs else [].
Proof.
  unfold copies. induction txs as [|tx txs IH]; [by case_decide|]. rewrite fmap_cons, at_range_cons, IH.
  by case_decide.
Qed.

Lemma at_range_none {A} (l : list (FullRangeId * A)) : r ∉ l.*1 -> at_range l = [].
Proof.
  induction l as [|[r' a] l IH]; [done|]. cbn. rewrite not_elem_of_cons, at_range_cons. intros [Hne Hl].
  rewrite decide_False by congruence. auto.
Qed.

(** a map has one group for the range *)
Lemma at_range_map (m : Groups) l :
  l ≡ₚ map_to_list m -> concat (at_range l) = default [] (m !! r).
Proof.
  intros Hl. assert (Hnd : NoDup l.*1) by (rewrite Hl; apply NoDup_fst_map_to_list).
  destruct (m !! r) as [txs|] eqn:E; cbn.
  - assert (Hin : (r, txs) ∈ l) by (rewrite Hl; by apply elem_of_map_to_list).
    apply list_elem_of_split in Hin as (l1 & l2 & ->). rewrite fmap_app, fmap_cons in Hnd. cbn in Hnd.
    apply NoDup_app in Hnd as (_ & Hd1 & Hd2). apply NoDup_cons in Hd2 as [Hd2 _].
    rewrite at_range_app, at_range_cons, decide_True, at_range_none, at_range_none by
      (done || (intros Hin; apply (Hd1 r Hin); by left)). cbn. by rewrite app_nil_r.
  - rewrite at_range_none; [done|]. rewrite Hl. intros ([r' txs] & -> & Hin)%list_elem_of_fmap.
    apply elem_of_map_to_list in Hin. cbn in E. congruence.
Qed.

(** what [add_transactions] puts in the groups *)
Lemma group_participants_at tx ps g n g' n' :
  group_participants tx ps g n = (g', n') ->
  txn_id <$> default [] (g' !! r) = (txn_id <$> default [] (g !! r)) ++
    at_range ((fun p => (participant_range p, txn_id tx)) <$> filter (fun p => has_writes p = true) ps).
Proof.
  revert g n; induction ps as [|p ps IH]; intros g n; cbn [group_participants].
  { intros [= <- _]. by rewrite app_nil_r. }
  rewrite filter_cons. destruct (has_writes p) eqn:E; [|by apply IH].
  intros ->%IH. rewrite decide_True by done. cbn [fmap list_fmap]. rewrite at_range_cons. unfold push_group.
  case_decide as Hr.
  - rewrite Hr, lookup_insert_eq. cbn. by rewrite fmap_app, <- app_assoc.
  - by rewrite lookup_insert_ne.
Qed.

Lemma group_transactions_at txs g n g' n' :
  group_transactions txs g n = (g', n') ->
  txn_id <$> default [] (g' !! r) = (txn_id <$> default [] (g !! r)) ++ at_range (txs ≫= tx_copies).
Proof.
  revert g n; induction txs as [|tx txs IH]; intros g n; cbn [group_transactions].
  { intros [= <- _]. by rewrite app_nil_r. }
  destruct (group_participants tx _ g 0) as [g1 c] eqn:E. intros ->%IH.
  rewrite (group_participants_at _ _ _ _ _ _ E), bind_cons, at_range_app, <- app_assoc. done.
Qed.

Lemma insert_ranges_at ranges st :
  default [] (group_per_participant (maybe_insert_new_participant_ranges ranges st) !! r) =
  default [] (group_per_participant st !! r).
Proof.
  unfold maybe_insert_new_participant_ranges. cbn.
  generalize (filter (fun r => group_per_participant st !! r = None) ranges).
  generalize (group_per_participant st). intros g l. revert g.
  induction l as [|r' l IH]; intros g; [done|]. cbn. rewrite IH.
  destruct (g !! r') eqn:E; [done|]. destruct (decide (r' = r)) as [->|Hne].
  - by rewrite lookup_insert_eq, E.
  - by rewrite lookup_insert_ne.
Qed.

#[local] Ltac config :=
  cbn [added ended tasks state extending adding from_option to_extend lost
    group_per_participant set_groups set_non_empty] in *.

Lemma fifo_init : fifo init.
Proof. split; [done|constructor]. Qed.

Lemma fifo_add st ts cs a d l f evs evs' txs g n gs :
  group_transactions txs ∅ ∅ = (g, n) -> gs ≡ₚ map_to_list g ->
  fifo (mkConfig st None ts cs a d l f evs) ->
  fifo (mkConfig (maybe_insert_new_participant_ranges (gs.*1) st) (Some (mkAdding (Some n) gs (gs.*1)))
         ts cs (a ++ (txs ≫= tx_copies)) d l f evs').
Proof.
  intros Hg Hgs [Hf _]. split.
  - unfold handed, ended_at, queue, in_flight in *. config. rewrite at_range_nil in Hf. cbn [concat] in Hf.
    rewrite app_nil_r in Hf. rewrite at_range_app, Hf, insert_ranges_at, (at_range_map g gs Hgs), !fmap_app.
    pose proof (group_transactions_at _ _ _ _ _ Hg) as Ht. rewrite lookup_empty in Ht. cbn in Ht.
    by rewrite Ht, <- !app_assoc.
  - cbn. rewrite Hgs. apply NoDup_fst_map_to_list.
Qed.

Lemma fifo_extend st ts cs a d l f evs ext1 ext2 mk r' txs st' :
  extend_group r' txs st = Some st' ->
  fifo (mkConfig st (Some (mkAdding None (ext1 ++ (r', txs) :: ext2) mk)) ts cs a d l f evs) ->
  fifo (mkConfig st' (Some (mkAdding None (ext1 ++ ext2) mk)) ts cs a d l f evs).
Proof.
  unfold extend_group. destruct (group_per_participant st !! r') as [g|] eqn:E; [|done].
  intros [= <-] [Hf Hnd]. cbn in Hnd. rewrite fmap_app, fmap_cons in Hnd.
  apply NoDup_app in Hnd as (Hn1 & Hn12 & [Hn2 Hn2']%NoDup_cons). cbn in Hn2. split.
  - unfold handed, ended_at, queue, in_flight in *. config. rewrite Hf, at_range_app, at_range_cons, at_range_app.
    case_decide as Hr.
    + subst r'. rewrite (at_range_none ext1), (at_range_none ext2) by
        (done || (intros Hin; apply (Hn12 r Hin); by left)).
      rewrite lookup_insert_eq, E. cbn. by rewrite !app_nil_r.
    + by rewrite lookup_insert_ne.
  - cbn. rewrite fmap_app. apply NoDup_app. split_and!; [done| |done].
    intros x Hx Hx'. apply (Hn12 x Hx). by right.
Qed.

Lemma in_flight_middle st ad ts1 ts2 cs a d l f evs r' txs :
  in_flight (mkConfig st ad (ts1 ++ (r', txs) :: ts2) cs a d l f evs) =
  at_range ts1 ++ (if decide (r' = r) then [txs] else []) ++ at_range ts2.
Proof. unfold in_flight. cbn. rewrite at_range_app, at_range_cons. by case_decide. Qed.

(** a task that ends, delivered or not *)
Lemma fifo_task_ends st st' ad ts1 ts2 cs a d d' l l' f evs evs' r' txs :
  group_per_participant st' = group_per_participant st ->
  calm (mkConfig st ad (ts1 ++ (r', txs) :: ts2) cs a d l f evs) ->
  at_range d' = at_range d ++ (if decide (r' = r) then txn_id <$> txs else []) ->
  fifo (mkConfig st ad (ts1 ++ (r', txs) :: ts2) cs a d l f evs) ->
  fifo (mkConfig st' ad (ts1 ++ ts2) cs a d' l' f evs').
Proof.
  intros Hg [Hlen _] Hd [Hf Hnd]. rewrite in_flight_middle in Hlen. split; [|done].
  unfold handed, ended_at, queue in *. rewrite in_flight_middle in Hf. unfold in_flight. config.
  rewrite Hf, Hd, at_range_app, Hg. case_decide as Hr; [|by rewrite app_nil_r].
  rewrite !length_app in Hlen. cbn in Hlen.
  assert (at_range ts1 = []) as -> by (apply nil_length_inv; lia).
  assert (at_range ts2 = []) as -> by (apply nil_length_inv; lia).
  cbn. by rewrite app_nil_r, !fmap_app, <- !app_assoc.
Qed.

Lemma fifo_take st ad ts cs a d l f evs r' st' txs :
  take_group r' st = Some (st', txs) ->
  calm (mkConfig st' ad ((r', txs) :: ts) cs a d l f evs) ->
  fifo (mkConfig st ad ts cs a d l f evs) -> fifo (mkConfig st' ad ((r', txs) :: ts) cs a d l f evs).
Proof.
  unfold take_group. destruct (group_per_participant st !! r') as [g|] eqn:E; [|done].
  intros [= <- <-] [Hlen _] [Hf Hnd]. split; [|done].
  unfold handed, ended_at, queue, in_flight in *. config. rewrite Hf, at_range_cons in *.
  case_decide as Hr.
  - subst r'. cbn in Hlen. assert (at_range ts = []) as -> by (apply nil_length_inv; lia).
    rewrite lookup_insert_eq, E. cbn. by rewrite app_nil_r.
  - by rewrite lookup_insert_ne.
Qed.

(** a step keeps the order, and does not both hand over and deliver *)
Lemma fifo_step g g' :
  step g g' -> calm g -> calm g' -> fifo g ->
  fifo g' /\ (exists new, handed g' = handed g ++ new) /\
  (handed g' = handed g \/ ended_at g' = ended_at g).
Proof.
  intros Hs Hc Hc' Hf.
  assert (Hsame : handed g' = handed g -> fifo g' ->
    fifo g' /\ (exists new, handed g' = handed g ++ new) /\
    (handed g' = handed g \/ ended_at g' = ended_at g)).
  { intros Hh Hf'. split_and!; [done|exists []; by rewrite app_nil_r|by left]. }
  destruct Hs as [st ts cs a d l f evs txs g n gs _ _ Hg Hgs| | | |st ad ts cs a d l f evs r' st' txs Ht
    |st ad ts1 ts2 cs a d l f evs r' txs s_ok r_ok ev st' Hd|st ad ts1 ts2 cs a d l f evs r' txs s_ok r_ok ev _| | |].
  - split_and!; [by eapply fifo_add| |by right]. unfold handed. cbn. rewrite at_range_app. by eexists.
  - by apply Hsame.
  - apply Hsame; [done|]. by eapply fifo_extend.
  - by apply Hsame.
  - apply Hsame; [done|]. by eapply fifo_take.
  - apply Hsame; [done|]. eapply fifo_task_ends; [|exact Hc| |exact Hf].
    + by destruct (deliver_spec _ _ _ _ _ _ _ Hd) as (? & _).
    + by rewrite at_range_app, at_range_copies.
  - apply Hsame; [done|]. eapply fifo_task_ends; [done|exact Hc| |exact Hf].
    destruct Hc' as (_ & Hl & _). cbn in Hl. rewrite at_range_app, at_range_copies in Hl.
    apply app_eq_nil in Hl as [_ ->]. by rewrite app_nil_r.
  - by apply Hsame.
  - by apply Hsame.
  - by apply Hsame.
Qed.

End Queue.

(** ** Prepares and commits of a pipelined range *)

Section Pipelined.
Context `{Storage.RangeStorage Sto, Wal.RangeWal Log}.
Notation Manager := (RangeManager.RangeManager Sto Log).
Import RangeManager.

Lemma prepare_locked_strategy `{HashOrder} tx now req changes contention (rm : Manager) :
  commit_strategy (prepare_locked tx now req changes contention rm).1 = commit_strategy rm.
Proof. unfold prepare_locked. repeat case_match; done. Qed.

(** the decision of the pipelined strategy is always to release the lock *)
Lemma prepare_pipelined `{HashOrder} tx now now' req contention (rm : Manager) st changes rm' res :
  state rm = Loaded st -> commit_strategy rm = Pipelined -> has_writes req = true ->
  prepare_record (Storage.key_range (range_info st)) req = Ok changes ->
  prepare tx now now' req contention rm = (rm', Some (Ok res)) ->
  commit_strategy rm' = Pipelined /\
  (forall k, pending_writer rm' k = match changes !! k with Some _ => Some (tx_id tx) | None => pending_writer rm k end) /\
  (forall t, record_of rm' t = if decide (t = tx_id tx) then Some changes else record_of rm t) /\
  (forall d, d ∈ dependencies res <-> exists k, is_Some (changes !! k) /\ pending_writer rm k = Some d).
Proof.
  intros Hst Hcs Hw Hc Hp.
  destruct (prepare_done _ _ _ _ _ _ _ _ _ _ Hst Hw Hc Hp) as (rm0 & st0 & c & Hv0 & Hst0 & Hl & Hv1).
  destruct (same_view_reads _ _ Hv0) as (_ & _ & Hw0 & Hr0 & _).
  destruct (same_view_reads _ _ Hv1) as (_ & _ & Hw1 & Hr1 & _).
  assert (Hcs0 : commit_strategy rm0 = Pipelined) by (destruct Hv0 as [[-> _] _]; done).
  assert (Hreads := fun k => prepare_reads tx now req changes contention rm0 st0 k Hst0).
  assert (He : forall k, early_release rm0 req contention k = true).
  { intros k. unfold early_release, do_early_lock_release. by rewrite Hcs0. }
  destruct (prepare_locked tx now req changes contention rm0) as [rmp rr] eqn:El. cbn in Hl, Hv1, Hw1, Hr1, Hreads.
  subst rr. split_and!.
  - destruct Hv1 as [[-> _] _]. pose proof (prepare_locked_strategy tx now req changes contention rm0) as Hs.
    by rewrite El, Hcs0 in Hs.
  - intros k. rewrite Hw1. destruct (Hreads k) as [-> _]. rewrite He. destruct (changes !! k) as [v|].
    + rewrite decide_True; [done|]. split; [by eexists|congruence].
    + rewrite decide_False by (intros [[]]; done). apply Hw0.
  - intros t. rewrite Hr1. destruct (Hreads []) as [_ ->]. by rewrite Hr0.
  - assert (Hne : commit_strategy rm0 <> Traditional) by congruence.
    destruct (prepare_result _ _ _ _ _ _ _ _ _ _ Hst0 Hne El) as [Hd _].
    intros d. rewrite Hd. by setoid_rewrite Hw0.
Qed.

Lemma apply_newest `{HashOrder} txs req (rm rm1 : Manager) last :
  newest_before rm (commit_epoch req) -> commit_apply txs req rm = (rm1, Ok last) ->
  newest_before rm1 (commit_epoch req).
Proof.
  intros Hn. unfold commit_apply. destruct (state rm) as [| |st|]; try done.
  destruct (collect_records _ _) as [rs|]; [|done]. destruct (merge_changes _ _ _) as [all l].
  case_decide; [by intros [= <- _]|].
  destruct (Storage.st_batch_upsert _ _ _ _ _) as [s [[]| |]] eqn:Hb; try done.
  intros [= <- <-] k. exact (Storage.st_upsert_newest _ _ _ _ _ _ k Hb (Hn k)).
Qed.

(** the commit of a batch in the order of its writes *)
Lemma commit_batch `{HashOrder} txs req now (rm rm2 : Manager) :
  wf rm -> newest_before rm (commit_epoch req) ->
  (forall t ch k, record_of rm t = Some ch -> ch !! k <> Some None) ->
  (forall rs, rs.*1 = txs -> (forall t ch, (t, ch) ∈ rs -> record_of rm t = Some ch) -> in_order rs rm) ->
  commit txs req now rm = (rm2, Some (Ok tt)) ->
  commit_strategy rm2 = commit_strategy rm /\ wf rm2 /\ newest_before rm2 (commit_epoch req) /\
  (forall t, record_of rm2 t = if decide (t ∈ txs) then None else record_of rm t) /\
  exists rs, rs.*1 = txs /\ (forall t ch, (t, ch) ∈ rs -> record_of rm t = Some ch) /\
  forall k, pending_writer rm2 k = (t ← pending_writer rm k; if decide (t ∈ txs) then None else Some t) /\
    view rm2 k = match pending_writer rm k with
                 | Some _ => view rm k
                 | None => default (view rm k) (snd <$> last_write rs k)
                 end.
Proof.
  intros Hwf Hn Hput Hord Hcm.
  destruct (commit_done _ _ _ _ _ Hcm) as (rmc & rma & last & Hv & Ha & ->).
  destruct (same_view_reads _ _ Hv) as (Hview & _ & Hw & Hr & Hnb). destruct Hv as [Hsp _].
  destruct (commit_apply_last _ _ _ _ _ Ha) as (stc & rs & Hstc & Hcr & _).
  destruct (collect_records_spec _ _ _ Hcr) as [Hids Hrec].
  assert (Hrs : forall t ch, (t, ch) ∈ rs -> record_of rm t = Some ch).
  { intros t ch Hin. rewrite <- Hr. unfold record_of. rewrite Hstc. by apply Hrec. }
  assert (Hordc : in_order rs rmc).
  { intros k t. rewrite Hw. by apply Hord. }
  assert (Hlast : forall k t, last_write rs k <> Some (t, None)).
  { intros k t (ch & Hin & Hk)%last_write_in. by apply (Hput t ch k); [apply Hrs|]. }
  pose proof (fun k => commit_reads txs req now rmc stc rs rma last k Hstc (same_pending_wf _ _ Hsp Hwf)
    Hcr Hordc Hlast (Hnb _ Hn) Ha) as Hc. cbv zeta in Hc.
  pose proof (apply_pending txs req rmc) as Hspa. rewrite Ha in Hspa. cbn in Hspa.
  assert (Hsta : exists sta, state rma = Loaded sta).
  { destruct Hspa as [_ Hp]. unfold pending in Hp. rewrite Hstc in Hp.
    destruct (state rma); try done. by eexists. }
  destruct Hsta as [sta Hsta]. destruct (clear_state txs last now rma sta Hsta) as [lt Hclear].
  split_and!.
  - rewrite Hclear. cbn. destruct Hspa as [-> _]. by destruct Hsp as [-> _].
  - apply (Hc []).
  - rewrite Hclear. exact (apply_newest txs req rmc rma last (Hnb _ Hn) Ha).
  - intros t. rewrite clear_records by (unfold pending; rewrite Hsta; by eexists).
    destruct (same_pending_reads _ _ Hspa) as [_ Hra]. by rewrite Hra, Hr.
  - exists rs. split_and!; [done..|]. intros k. destruct (Hc k) as (_ & -> & _ & -> & _).
    by rewrite Hw, Hview.
Qed.

(** one transaction alone is in order *)
Lemma single_in_order (rm : Manager) id rs :
  wf rm -> rs.*1 = [id] -> (forall t ch, (t, ch) ∈ rs -> record_of rm t = Some ch) -> in_order rs rm.
Proof.
  intros Hwf Hids Hrs k t Hw Ht. rewrite Hids in Ht. apply list_elem_of_singleton in Ht as ->.
  destruct rs as [|[id' ch] [|]]; simplify_eq/=. destruct (Hwf k id Hw) as (ch' & v & Hr & Hv).
  rewrite (Hrs id ch) in Hr by (by left). injection Hr as <-. unfold last_write. cbn. by rewrite Hv.
Qed.

(** ** The range and its commits, interleaved *)

Context (r : FullRangeId).

Record Pipe := mkPipe {
  group : GroupCommit.Config;
  range : Manager;
  order : list (Uuid * Changes);     (** the transactions that have prepared, in their order *)
  deps : gmap Uuid (gset Uuid)       (** what the range has reported as their dependencies *)
}.

Definition live (p : Pipe) (t : Uuid) : Prop := is_Some (record_of (range p) t).
Definition deps_of (p : Pipe) (t : Uuid) : gset Uuid := default ∅ (deps p !! t).
Definition set_range (rm : Manager) (p : Pipe) : Pipe := mkPipe (group p) rm (order p) (deps p).

(** The steps. A transaction prepares once and puts. It is committed by its
    coordinator only when the range has reported no dependency, and otherwise it
    is handed to group commit; this, after those it depends on, is what the
    resolver promises. Group commit runs on its own, and when a task of it
    delivers a group to the range, the range commits it. Every commit carries
    the epoch 0 ([transaction.rs:292], [group_commit.rs:299]). *)
Inductive pipe_step : Pipe -> Pipe -> Prop :=
| step_get p tx now now' key : pipe_step p (set_range (get tx now now' key (range p)).1 p)
| step_read_only p (o : HashOrder) tx now now' req contention rm' res :
    has_writes req = false ->
    prepare tx now now' req contention (range p) = (rm', Some (Ok res)) -> pipe_step p (set_range rm' p)
| step_abort p tx now req : pipe_step p (set_range (abort tx now req (range p)).1 p)
| step_prepare p (o : HashOrder) tx now now' req contention st changes rm' res :
    tx_id tx ∉ (order p).*1 -> tx_id tx ∉ handed r (group p) ->
    state (range p) = Loaded st -> has_writes req = true ->
    prepare_record (Storage.key_range (range_info st)) req = Ok changes ->
    (forall k, changes !! k <> Some None) ->
    prepare tx now now' req contention (range p) = (rm', Some (Ok res)) ->
    pipe_step p (mkPipe (group p) rm' (order p ++ [(tx_id tx, changes)])
              (<[tx_id tx := list_to_set (dependencies res)]> (deps p)))
| step_commit p (o : HashOrder) id req now rm' :
    deps_of p id = ∅ -> commit_epoch req = 0%Z ->
    commit [id] req now (range p) = (rm', Some (Ok tt)) -> pipe_step p (set_range rm' p)
| step_group p g' :
    GroupCommit.step (group p) g' -> calm r g' -> ended_at r g' = ended_at r (group p) ->
    handed_first (live p) (deps_of p) (handed r g') ->
    pipe_step p (mkPipe g' (range p) (order p) (deps p))
| step_deliver p (o : HashOrder) g' ids req now rm' :
    GroupCommit.step (group p) g' -> calm r g' ->
    ended_at r g' = ended_at r (group p) ++ ids -> ids <> [] -> commit_epoch req = 0%Z ->
    commit ids req now (range p) = (rm', Some (Ok tt)) ->
    pipe_step p (mkPipe g' rm' (order p) (deps p)).

(** ** The invariant *)

(** what the range has shown before the transactions *)
Context (base : Bytes -> option Bytes).

(** the effect of the transactions, one after the other *)
Definition replay (o : list (Uuid * Changes)) (k : Bytes) : option Bytes :=
  default (base k) (snd <$> last_write o k).

Record pipe_ok (p : Pipe) : Prop := {
  p_strategy : commit_strategy (range p) = Pipelined;
  p_wf : wf (range p);
  p_newest : newest_before (range p) 0;
  p_view k : view (range p) k = replay (order p) k;
  p_once : NoDup (order p).*1;
  p_records t ch : record_of (range p) t = Some ch -> (t, ch) ∈ order p;
  p_puts t ch k : (t, ch) ∈ order p -> ch !! k <> Some None;
  p_last k t : pending_writer (range p) k = Some t -> last_writer (order p) k = Some t;
  p_pending k u : last_writer (order p) k = Some u -> live p u -> pending_writer (range p) k = Some u;
  p_deps t d : d ∈ deps_of p t -> d ∈ (order p).*1;
  p_chained : chained (order p) (live p) (deps_of p);
  p_follow : commits_follow (order p) (live p);
  p_first : handed_first (live p) (deps_of p) (handed r (group p));
  p_fifo : fifo r (group p);
  p_calm : calm r (group p);
  p_done t : t ∈ ended_at r (group p) -> ~ live p t
}.

(** a step that changes neither what is pending nor what is stored *)
Lemma ok_same p rm' : same_view (range p) rm' -> pipe_ok p -> pipe_ok (set_range rm' p).
Proof.
  intros Hv Hok. destruct (same_view_reads _ _ Hv) as (Hview & Hs & Hw & Hr & Hn).
  destruct Hv as [[Hcs Hp] _]. assert (Hl : forall t, live (set_range rm' p) t <-> live p t).
  { intros t. unfold live. cbn. by rewrite Hr. }
  destruct Hok. constructor; cbn [range set_range group order deps]; try done; try (setoid_rewrite Hr; done).
  - by rewrite Hcs.
  - by eapply same_pending_wf.
  - by apply Hn.
  - intros k. by rewrite Hview.
  - intros k t. rewrite Hw. auto.
  - intros k u Hu Hlu. rewrite Hw. apply p_pending0; [done|by apply Hl].
  - intros o1 t' ch' o2 k u Ho Hk Hu Hlu. by eapply p_chained0; [..|apply Hl].
  - intros t t' Hb Hlt. by apply Hl, (p_follow0 t), Hl.
  - intros l1 t l2 d Hh Hd Hld. by eapply p_first0; [..|apply Hl].
  - intros t Ht Hlt. by apply (p_done0 t), Hl.
Qed.

(** no live transaction has written a key that has no pending writer *)
Lemma unpended p k t ch :
  pipe_ok p -> pending_writer (range p) k = None -> record_of (range p) t = Some ch -> ch !! k = None.
Proof.
  intros Hok Hw Hr. apply eq_None_not_Some. intros Hk.
  pose proof (p_records _ Hok _ _ Hr) as Hin.
  destruct (last_writer_some _ _ _ _ Hin Hk) as [u Hu].
  assert (Hlu : live p u); [|by rewrite (p_pending _ Hok k u Hu Hlu) in Hw].
  destruct (last_writer_before _ _ _ _ _ Hin Hk Hu) as [->|(o1 & chu & o2 & Ho & Ht & Hku)].
  - unfold live. rewrite Hr. by eexists.
  - apply (p_follow _ Hok t); [by exists o1, chu, o2, ch, k|]. unfold live. rewrite Hr. by eexists.
Qed.

(** a transaction that is overwritten comes before the last writer *)
Lemma overwritten_before p k t ch u :
  pipe_ok p -> record_of (range p) t = Some ch -> is_Some (ch !! k) ->
  last_writer (order p) k = Some u -> u = t \/ before (order p) t u.
Proof.
  intros Hok Hr Hk Hu. pose proof (p_records _ Hok _ _ Hr) as Hin.
  destruct (last_writer_before _ _ _ _ _ Hin Hk Hu) as [->|(o1 & chu & o2 & Ho & Ht & Hku)]; [by left|right].
  by exists o1, chu, o2, ch, k.
Qed.

(** the groups that group commit delivers are in the order of their writes *)
Lemma delivered_in_order p ids rest rs :
  pipe_ok p -> handed r (group p) = ended_at r (group p) ++ ids ++ rest -> rs.*1 = ids ->
  (forall t ch, (t, ch) ∈ rs -> record_of (range p) t = Some ch) -> in_order rs (range p).
Proof.
  intros Hok Hh Hids Hrs k t Hw Ht.
  destruct (p_wf _ Hok k t Hw) as (cht & vt & Hrt & Hkt).
  assert (Hin : (t, cht) ∈ rs).
  { apply list_elem_of_fmap in Ht as ([t' ch'] & -> & Hin). cbn [fst] in *.
    assert (ch' = cht) as <- by (apply Hrs in Hin; congruence). done. }
  destruct (last_write_some rs k t cht vt Hin Hkt) as [[u v] Hu]. rewrite Hu. cbn. f_equal.
  destruct (last_write_split rs k u v Hu) as (a & chu & b & -> & Hku & Hno).
  apply elem_of_app in Hin as [Hin|[[= <- _]|Hin]%elem_of_cons]; [|done|by rewrite (Hno _ _ Hin) in Hkt].
  assert (Hru : record_of (range p) u = Some chu) by (apply Hrs, elem_of_app; right; by left).
  assert (Hlu : live p u) by (unfold live; rewrite Hru; by eexists).
  destruct (overwritten_before p k u chu t Hok Hru (mk_is_Some _ _ Hku) (p_last _ Hok k t Hw)) as [->|Hb];
    [done|exfalso].
  apply list_elem_of_split in Hin as (a1 & a2 & ->).
  subst ids. rewrite !fmap_app, !fmap_cons in Hh. cbn [fst] in Hh.
  assert (Hsplit : handed r (group p) = (ended_at r (group p) ++ a1.*1) ++ t :: (a2.*1 ++ u :: b.*1 ++ rest)).
  { rewrite Hh. by rewrite <- ?app_assoc, <- ?app_comm_cons, <- ?app_assoc, <- ?app_comm_cons. }
  pose proof (handed_follows _ _ _ (p_chained _ Hok) (p_follow _ Hok) _ u t _ _ (p_once _ Hok)
    (p_first _ Hok) Hb Hlu Hsplit) as Hbefore.
  destruct (p_calm _ Hok) as (_ & _ & Hnd). rewrite Hsplit in Hnd.
  apply NoDup_app in Hnd as (_ & Hdis & _). apply (Hdis u Hbefore). right. apply elem_of_app. right. by left.
Qed.

(** a commit of [ids], of which every one comes after live ones of [ids] only *)
Lemma ok_commit `{HashOrder} p g' ids req now rm' :
  pipe_ok p -> commit_epoch req = 0%Z ->
  (forall rs, rs.*1 = ids -> (forall t ch, (t, ch) ∈ rs -> record_of (range p) t = Some ch) ->
     in_order rs (range p)) ->
  (forall t t', before (order p) t t' -> live p t -> t' ∈ ids -> t ∈ ids) ->
  commit ids req now (range p) = (rm', Some (Ok tt)) ->
  fifo r g' -> calm r g' -> handed r g' = handed r (group p) ->
  (forall t, t ∈ ended_at r g' -> t ∈ ended_at r (group p) \/ t ∈ ids) ->
  pipe_ok (mkPipe g' rm' (order p) (deps p)).
Proof.
  intros Hok Hreq Hord Hclosed Hcm Hfifo Hcalm Hh Hack.
  assert (Hputs : forall t ch k, record_of (range p) t = Some ch -> ch !! k <> Some None).
  { intros t ch k Hr. eapply (p_puts _ Hok), (p_records _ Hok), Hr. }
  assert (Hn : newest_before (range p) (commit_epoch req)) by (rewrite Hreq; apply Hok).
  destruct (commit_batch ids req now (range p) rm' (p_wf _ Hok) Hn Hputs Hord Hcm)
    as (Hcs & Hwf & Hn' & Hrec & rs & Hids & Hrs & Hk).
  assert (Hl : forall t, live (mkPipe g' rm' (order p) (deps p)) t <-> live p t /\ t ∉ ids).
  { intros t. unfold live. cbn. rewrite Hrec. case_decide as Ht; [|tauto].
    split; [by intros []|by intros [_ Hn0]]. }
  constructor; cbn [range group order deps]; try apply Hok; try done.
  - rewrite Hcs. apply Hok.
  - by rewrite Hreq in Hn'.
  - intros k. destruct (Hk k) as [_ ->]. rewrite <- (p_view _ Hok k).
    destruct (pending_writer (range p) k) as [t|] eqn:Hw; [done|].
    destruct (last_write rs k) as [[t v]|] eqn:Hlw; [|done].
    apply last_write_in in Hlw as (ch & Hin & Hv). by rewrite (unpended p k t ch Hok Hw (Hrs _ _ Hin)) in Hv.
  - intros t ch. rewrite Hrec. case_decide; [done|]. apply Hok.
  - intros k t. destruct (Hk k) as [-> _]. destruct (pending_writer (range p) k) as [t'|] eqn:Hw; [|done].
    cbn. case_decide; [done|]. intros [= ->]. by apply Hok.
  - intros k u Hu [Hlu Hni]%Hl. destruct (Hk k) as [-> _]. rewrite (p_pending _ Hok k u Hu Hlu). cbn.
    by rewrite decide_False.
  - intros o1 t' ch' o2 k u Ho Hk' Hu [Hlu _]%Hl. by eapply (p_chained _ Hok).
  - intros t t' Hb [Hlt Hni]%Hl. apply Hl. split; [by apply (p_follow _ Hok t)|].
    intros Hin. by apply Hni, (Hclosed t t').
  - rewrite Hh. intros l1 t l2 d Hl1 Hd [Hld _]%Hl. by eapply (p_first _ Hok).
  - intros t Ht [Hlt Hni]%Hl. destruct (Hack t Ht) as [Ht'|]; [by apply (p_done _ Hok t)|done].
Qed.

Lemma ok_deliver `{HashOrder} p g' ids req now rm' :
  pipe_ok p -> GroupCommit.step (group p) g' -> calm r g' ->
  ended_at r g' = ended_at r (group p) ++ ids -> ids <> [] -> commit_epoch req = 0%Z ->
  commit ids req now (range p) = (rm', Some (Ok tt)) -> pipe_ok (mkPipe g' rm' (order p) (deps p)).
Proof.
  intros Hok Hs Hcalm Hack Hne Hreq Hcm.
  destruct (fifo_step r _ _ Hs (p_calm _ Hok) Hcalm (p_fifo _ Hok)) as (Hfifo & _ & [Hh|Ha]); cycle 1.
  { rewrite Ha in Hack. destruct Hne. by apply (app_inv_head (ended_at r (group p))); rewrite app_nil_r. }
  assert (Hsplit : handed r (group p) = ended_at r (group p) ++ ids ++ (GroupCommit.txn_id <$> queue r g')).
  { rewrite <- Hh. destruct Hfifo as [-> _]. by rewrite Hack, <- app_assoc. }
  apply (ok_commit p g' ids req now rm' Hok Hreq); try done.
  - intros rs Hids Hrs. by eapply delivered_in_order.
  - intros t t' Hb Hl Hin. apply list_elem_of_split in Hin as (i1 & i2 & ->).
    pose proof (handed_follows _ _ _ (p_chained _ Hok) (p_follow _ Hok) _ t t'
      (ended_at r (group p) ++ i1) (i2 ++ (GroupCommit.txn_id <$> queue r g')) (p_once _ Hok)
      (p_first _ Hok) Hb Hl) as Hbefore.
    apply elem_of_app. left. apply elem_of_app in Hbefore as [Hd|]; [by destruct (p_done _ Hok t Hd)|done|].
    rewrite Hsplit. by rewrite <- ?app_assoc, <- ?app_comm_cons.
  - intros t. rewrite Hack. by intros ?%elem_of_app.
Qed.

(** a commit by the coordinator *)
Lemma ok_coordinator `{HashOrder} p id req now rm' :
  pipe_ok p -> deps_of p id = ∅ -> commit_epoch req = 0%Z ->
  commit [id] req now (range p) = (rm', Some (Ok tt)) -> pipe_ok (set_range rm' p).
Proof.
  intros Hok Hd Hreq Hcm. apply (ok_commit p (group p) [id] req now rm' Hok Hreq); try apply Hok; try done; [| |auto].
  - intros rs Hids Hrs. apply (single_in_order (range p) id rs (p_wf _ Hok) Hids Hrs).
  - intros t t' Hb Hl ->%list_elem_of_singleton. exfalso.
    destruct (before_depends _ _ _ (p_chained _ Hok) (p_follow _ Hok) t id Hb Hl) as (u & _ & Hu & _).
    rewrite Hd in Hu. by apply not_elem_of_empty in Hu.
Qed.

Lemma ok_prepare `{HashOrder} p tx now now' req contention st changes rm' res :
  pipe_ok p -> tx_id tx ∉ (order p).*1 -> tx_id tx ∉ handed r (group p) ->
  state (range p) = Loaded st -> has_writes req = true ->
  prepare_record (Storage.key_range (range_info st)) req = Ok changes ->
  (forall k, changes !! k <> Some None) ->
  prepare tx now now' req contention (range p) = (rm', Some (Ok res)) ->
  pipe_ok (mkPipe (group p) rm' (order p ++ [(tx_id tx, changes)])
              (<[tx_id tx := list_to_set (dependencies res)]> (deps p))).
Proof.
  intros Hok Hnew Hnh Hst Hw Hc Hput Hp.
  destruct (prepare_pipelined _ _ _ _ _ _ _ _ _ _ Hst (p_strategy _ Hok) Hw Hc Hp) as (Hcs & Hpw & Hrec & Hdep).
  assert (Hrnew : record_of (range p) (tx_id tx) = None).
  { destruct (record_of (range p) (tx_id tx)) as [ch|] eqn:E; [|done]. destruct Hnew.
    apply (p_records _ Hok) in E. by apply (list_elem_of_fmap_2 fst) in E. }
  destruct (prepare_leaves _ _ _ _ _ _ _ _ _ _ Hst (p_wf _ Hok) Hrnew Hw Hc Hp) as (Hwf & Hrt & Hn & Hk).
  set (p' := mkPipe _ _ _ _).
  assert (Hl : forall t, t ∈ (order p).*1 -> live p' t <-> live p t).
  { intros t Ht. unfold live. cbn. rewrite Hrec, decide_False; [done|congruence]. }
  assert (Hd : forall t, t <> tx_id tx -> deps_of p' t = deps_of p t).
  { intros t Ht. unfold deps_of. cbn. by rewrite lookup_insert_ne. }
  assert (Hpend : forall k d, pending_writer (range p) k = Some d -> d ∈ (order p).*1).
  { intros k d Hk'. by eapply last_writer_in, (p_last _ Hok). }
  constructor; try apply Hok; cbn [range group order deps p']; try done.
  - by apply Hn, Hok.
  - intros k. unfold replay. rewrite last_write_snoc. destruct (Hk k) as [_ Hv]. specialize (Hpw k).
    destruct (changes !! k) as [v|] eqn:E.
    + unfold view. rewrite Hpw, Hrt. cbn. by rewrite E.
    + destruct Hv as [_ ->]. apply Hok.
  - rewrite fmap_app. apply NoDup_app. split_and!; [apply Hok| |apply NoDup_singleton].
    intros t Ht ->%list_elem_of_singleton. done.
  - intros t ch. rewrite Hrec. case_decide as Ht.
    + subst t. intros [= <-]. apply elem_of_app. right. by left.
    + intros Hr. apply elem_of_app. left. by apply Hok.
  - intros t ch k [Hin|[= -> ->]%list_elem_of_singleton]%elem_of_app; [by eapply (p_puts _ Hok)|done].
  - intros k t. rewrite last_writer_snoc, Hpw. destruct (changes !! k); [done|]. apply Hok.
  - intros k u. rewrite last_writer_snoc, Hpw. destruct (changes !! k); [done|]. intros Hu Hlu.
    apply (p_pending _ Hok); [done|]. apply Hl; [|done]. by eapply last_writer_in.
  - intros t d Hd'. rewrite fmap_app, elem_of_app. left. unfold deps_of in Hd'. cbn in Hd'.
    destruct (decide (t = tx_id tx)) as [->|Hne].
    + rewrite lookup_insert_eq in Hd'. cbn in Hd'. apply elem_of_list_to_set, Hdep in Hd' as (k & _ & Hk').
      by eapply Hpend.
    + rewrite lookup_insert_ne in Hd' by done. by eapply (p_deps _ Hok t).
  - eapply chained_snoc; [done|exact Hl|exact Hd|apply Hok|]. intros k u Hk' Hu Hlu.
    unfold deps_of. cbn. rewrite lookup_insert_eq. cbn. apply elem_of_list_to_set, Hdep.
    exists k. split; [done|]. by apply (p_pending _ Hok).
  - eapply follow_snoc; [exact Hl|apply Hok|]. unfold live. cbn. by rewrite Hrt.
  - eapply first_snoc; [exact Hl|exact Hd|apply Hok|apply Hok|done].
  - intros t Ht Hlt. assert (Hth : t ∈ handed r (group p)).
    { destruct (p_fifo _ Hok) as [-> _]. apply elem_of_app. by left. }
    apply (p_done _ Hok t Ht). unfold live in *. cbn in Hlt. rewrite Hrec, decide_False in Hlt; [done|congruence].
Qed.

Lemma get_same tx now now' key (rm : Manager) : same_view rm (get tx now now' key rm).1.
Proof.
  assert (Hv : same_view rm (get_begin tx now now' key rm).1).
  { split; [apply get_begin_pending|]. unfold get_begin. repeat (case_match; try done). }
  unfold get. by destruct (get_begin tx now now' key rm) as [rm1 [c|e|]].
Qed.

Lemma abort_same tx now req (rm : Manager) : same_view rm (abort tx now req rm).1.
Proof.
  split; [apply abort_pending|]. unfold abort, await_log. repeat (case_match; try done).
Qed.

Lemma ok_step p p' : pipe_step p p' -> pipe_ok p -> pipe_ok p'.
Proof.
  destruct 1 as [p tx now now' key|p o tx now now' req contention rm' res Hw Hp|p tx now req
    |p o tx now now' req contention st changes rm' res Hn Hnh Hst Hw Hc Hput Hp
    |p o id req now rm' Hd Hreq Hcm|p g' Hs Hcalm Hack Hfirst
    |p o g' ids req now rm' Hs Hcalm Hack Hne Hreq Hcm]; intros Hok.
  - apply ok_same; [apply get_same|done].
  - apply ok_same; [by eapply prepare_read_only|done].
  - apply ok_same; [apply abort_same|done].
  - by eapply ok_prepare.
  - by eapply ok_coordinator.
  - destruct (fifo_step r _ _ Hs (p_calm _ Hok) Hcalm (p_fifo _ Hok)) as (Hfifo & _).
    destruct Hok. constructor; try done. cbn. by rewrite Hack.
  - by eapply ok_deliver.
Qed.

End Pipelined.

(** ** Property *)

Section Property.
Context `{Storage.RangeStorage Sto, Wal.RangeWal Log}.
Import RangeManager.

(** a range on which no transaction has prepared *)
Definition start (rm : RangeManager Sto Log) : Pipe := mkPipe GroupCommit.init rm [] ∅.

Lemma ok_start r (rm : RangeManager Sto Log) :
  commit_strategy rm = Pipelined -> (forall t, record_of rm t = None) ->
  (forall k, pending_writer rm k = None) -> newest_before rm 0 -> pipe_ok r (view rm) (start rm).
Proof.
  intros Hcs Hr Hw Hn.
  assert (Hl : forall t, ~ live (start rm) t) by (intros t; unfold live; cbn; rewrite Hr; by intros []).
  constructor; cbn; try done.
  - intros k t. by rewrite Hw.
  - constructor.
  - intros t ch. by rewrite Hr.
  - by intros ? ? ? ?%elem_of_nil.
  - intros k t. by rewrite Hw.
  - intros o1 t' ch' o2 k u Ho. by destruct o1.
  - intros t t' _ Hlt. by destruct (Hl t).
  - apply fifo_init.
  - split; [cbn; lia|]. split; [done|constructor].
Qed.

Lemma ok_reachable r (rm : RangeManager Sto Log) p :
  commit_strategy rm = Pipelined -> (forall t, record_of rm t = None) ->
  (forall k, pending_writer rm k = None) -> newest_before rm 0 -> rtc (pipe_step r) (start rm) p ->
  pipe_ok r (view rm) p.
Proof.
  intros Hcs Hr Hw Hn Hsteps. pose proof (ok_start r rm Hcs Hr Hw Hn) as Hok. clear Hcs Hr Hw Hn.
  induction Hsteps as [|p1 p2 p3 Hs _ IH]; [done|]. by apply IH, (ok_step r _ p1).
Qed.

(** C3: A pipelined range is a sequential store. From a range without transactions,
    while transactions prepare, read, abort and commit, alone or in the groups of
    group commit, every key shows what the transactions have written that have
    prepared so far, one after the other in the order of their prepares: commits
    do not change what is read, whenever they come. Each group that is delivered
    is in the order of its writes, which is what the range manager needs of it,
    and when no transaction is left to commit, the same values are stored. This
    holds as long as transactions are handed over after those they depend on, no
    group of the range overtakes another, and no task of it panics. *)
Theorem pipelined_range_is_sequential r (rm : RangeManager Sto Log) p :
  commit_strategy rm = Pipelined -> (forall t, record_of rm t = None) ->
  (forall k, pending_writer rm k = None) -> newest_before rm 0 -> rtc (pipe_step r) (start rm) p ->
  (forall k, view (range p) k = replay (view rm) (order p) k) /\
  (forall k g, get_locked k (range p) = Ok g -> val g = replay (view rm) (order p) k) /\
  (forall g' ids rs, GroupCommit.step (group p) g' -> calm r g' ->
     ended_at r g' = ended_at r (group p) ++ ids -> ids <> [] -> rs.*1 = ids ->
     (forall t ch, (t, ch) ∈ rs -> record_of (range p) t = Some ch) -> in_order rs (range p)) /\
  ((forall t, ~ live p t) -> forall k, stored (range p) k = replay (view rm) (order p) k).
Proof.
  intros Hcs Hr Hw Hn Hsteps.
  pose proof (ok_reachable r rm p Hcs Hr Hw Hn Hsteps) as Hok.
  split_and!; [apply Hok|..].
  - intros k g Hg. destruct (state (range p)) as [| |st|] eqn:Est;
      try (by unfold get_locked in Hg; rewrite Est in Hg).
    pose proof (get_locked_view _ st k (p_wf _ _ _ Hok) Est) as Hv. rewrite Hg in Hv.
    destruct Hv as [-> _]. apply Hok.
  - intros g' ids rs Hs Hcalm Hack Hne Hids Hrs.
    destruct (fifo_step r _ _ Hs (p_calm _ _ _ Hok) Hcalm (p_fifo _ _ _ Hok)) as (Hfifo & _ & [Hh|Ha]); cycle 1.
    { rewrite Ha in Hack. destruct Hne. apply (app_inv_head (ended_at r (group p))). by rewrite app_nil_r. }
    eapply (delivered_in_order r _ p ids (GroupCommit.txn_id <$> queue r g') rs Hok); [|done..].
    rewrite <- Hh. destruct Hfifo as [-> _]. by rewrite Hack, <- app_assoc.
  - intros Hl k. rewrite <- (p_view _ _ _ Hok k). unfold view.
    destruct (pending_writer (range p) k) as [t|] eqn:Et; [|done].
    destruct (p_wf _ _ _ Hok k t Et) as (ch & v & Hrec & _). destruct (Hl t). unfold live. rewrite Hrec. by eexists.
Qed.

(** two commits of a key, the later writer first *)
Lemma overtaken_commit `{HashOrder} (rm rm1 rm2 : RangeManager Sto Log) t1 t2 ch1 ch2 k v1 v2 req now :
  wf rm -> newest_before rm (commit_epoch req) ->
  (forall t ch k, record_of rm t = Some ch -> ch !! k <> Some None) -> t1 <> t2 ->
  record_of rm t1 = Some ch1 -> ch1 !! k = Some (Some v1) ->
  record_of rm t2 = Some ch2 -> ch2 !! k = Some (Some v2) -> pending_writer rm k = Some t2 ->
  commit [t2] req now rm = (rm1, Some (Ok tt)) -> commit [t1] req now rm1 = (rm2, Some (Ok tt)) ->
  view rm k = Some v2 /\ view rm1 k = Some v2 /\ view rm2 k = Some v1 /\ stored rm2 k = Some v1.
Proof.
  intros Hwf Hn Hput Hne Hr1 Hk1 Hr2 Hk2 Hw Hc2 Hc1.
  assert (Hone : forall (rm : RangeManager Sto Log) t, wf rm -> forall rs, rs.*1 = [t] ->
    (forall t ch, (t, ch) ∈ rs -> record_of rm t = Some ch) -> in_order rs rm)
    by (intros ? ? ? ?; by apply single_in_order).
  destruct (commit_batch [t2] req now rm rm1 Hwf Hn Hput (Hone rm t2 Hwf) Hc2)
    as (_ & Hwf1 & Hn1 & Hrec1 & rs0 & _ & _ & Hv1).
  destruct (Hv1 k) as [Hw1 Hvk1]. rewrite Hw in Hw1, Hvk1. cbn in Hw1.
  rewrite decide_True in Hw1 by (by left).
  assert (Hput1 : forall t ch k, record_of rm1 t = Some ch -> ch !! k <> Some None).
  { intros t ch k'. rewrite Hrec1. case_decide; [done|]. apply Hput. }
  destruct (commit_batch [t1] req now rm1 rm2 Hwf1 Hn1 Hput1 (Hone rm1 t1 Hwf1) Hc1)
    as (_ & _ & _ & _ & rs & Hids & Hrs & Hv2).
  destruct (Hv2 k) as [Hw2 Hvk2]. rewrite Hw1 in Hw2, Hvk2. cbn in Hw2.
  destruct rs as [|[u ch] [|]]; try done. injection Hids as ->.
  assert (ch = ch1) as ->.
  { specialize (Hrs t1 ch ltac:(by left)). rewrite Hrec1, decide_False in Hrs by (by rewrite list_elem_of_singleton).
    congruence. }
  assert (Hvk : view rm k = Some v2) by (unfold view; rewrite Hw, Hr2; cbn; by rewrite Hk2).
  assert (Hlast : view rm2 k = Some v1) by (rewrite Hvk2; unfold last_write; cbn; by rewrite Hk1).
  split_and!; [done|by rewrite Hvk1|done|]. unfold view in Hlast. by rewrite Hw2 in Hlast.
Qed.

(** A commit that overtakes another loses a write. On a pipelined range two
    transactions have prepared a write of a key, and the one of them that is the
    last in the order of the prepares commits first, as the groups of group commit
    can. Both commits succeed, and in the end the range shows and stores the value
    of the other transaction, which the order says was overwritten. *)
Theorem overtaken_write_is_lost `{HashOrder} r (rm rm1 rm2 : RangeManager Sto Log) p t1 t2 ch1 ch2 k v1 v2 req now :
  commit_strategy rm = Pipelined -> (forall t, record_of rm t = None) ->
  (forall k, pending_writer rm k = None) -> newest_before rm 0 -> rtc (pipe_step r) (start rm) p ->
  record_of (range p) t1 = Some ch1 -> ch1 !! k = Some (Some v1) ->
  record_of (range p) t2 = Some ch2 -> ch2 !! k = Some (Some v2) ->
  last_writer (order p) k = Some t2 -> t1 <> t2 -> commit_epoch req = 0%Z ->
  commit [t2] req now (range p) = (rm1, Some (Ok tt)) -> commit [t1] req now rm1 = (rm2, Some (Ok tt)) ->
  replay (view rm) (order p) k = Some v2 /\
  view rm1 k = Some v2 /\ view rm2 k = Some v1 /\ stored rm2 k = Some v1.
Proof.
  intros Hcs Hr Hw Hn Hsteps Hr1 Hk1 Hr2 Hk2 Hl Hne He Hc2 Hc1.
  pose proof (ok_reachable r rm p Hcs Hr Hw Hn Hsteps) as Hok.
  rewrite <- (p_view _ _ _ Hok k).
  eapply (overtaken_commit (range p) rm1 rm2 t1 t2 ch1 ch2); try done.
  - apply Hok.
  - rewrite He. apply Hok.
  - intros t ch k' Ht. eapply (p_puts _ _ _ Hok). by eapply Hok.
  - apply (p_pending _ _ _ Hok); [done|]. by exists ch2.
Qed.
End Property.

(** ** Witnesses: two transactions that write the same key *)

#[local] Existing Instance RangeManager.sample_storage.
#[local] Existing Instance RangeManager.sample_log.
#[local] Existing Instance element_order.

Import RangeManager.

Definition second_tx : TransactionInfo := mkTransactionInfo 10 0 1000.
Definition second_req : PrepareRequest :=
  mkPrepareRequest (Some [([1%N], [67%N])]) None false sample_load 0 [1%N].
Definition second_changes : Changes := {[ [1%N] := Some [67%N] ]}.
Definition second_prepared := prepare second_tx 0 0 second_req sample_contention sample_tx_prepared.1.

(** the commits of the coordinator and of group commit *)
Definition now_commit : CommitRequest := mkCommitRequest 0 0 [].
Definition first_committed := commit [9%N] now_commit 0 second_prepared.1.
Definition both_committed := commit [10%N] now_commit 0 first_committed.1.

(** the same commits the other way round *)
Definition second_committed := commit [10%N] now_commit 0 second_prepared.1.
Definition overtaken := commit [9%N] now_commit 0 second_committed.1.

Definition result_of (c : Sample * option (result RsError.Error PrepareResult)) : PrepareResult :=
  match c.2 with Some (Ok res) => res | _ => mkPrepareResult 0 (0, 0)%Z [] false end.

Definition at_first : Pipe :=
  mkPipe GroupCommit.init sample_tx_prepared.1 [(9%N, sample_changes)]
    (<[9%N := list_to_set (dependencies (result_of sample_tx_prepared))]> ∅).
Definition at_both : Pipe :=
  mkPipe GroupCommit.init second_prepared.1 [(9%N, sample_changes); (10%N, second_changes)]
    (<[10%N := list_to_set (dependencies (result_of second_prepared))]> (deps at_first)).

Lemma both_prepared : rtc (pipe_step Storage.sample_range) (start sample_loaded) at_both.
Proof.
  apply (rtc_l _ _ at_first), rtc_once.
  - apply (Pipeline.step_prepare _ (start sample_loaded) _ sample_tx 0 0 sample_req sample_contention
      (loaded_of sample_loaded) sample_changes _ (result_of sample_tx_prepared)).
    1-2: by_decision.
    4: by intros k Hk%sample_change_put.
    all: vm_compute; reflexivity.
  - apply (Pipeline.step_prepare _ at_first _ second_tx 0 0 second_req sample_contention
      (loaded_of sample_tx_prepared.1) second_changes _ (result_of second_prepared)).
    1-2: by_decision.
    4: by unfold second_changes; intros k [_ [=]]%lookup_singleton_Some.
    all: vm_compute; reflexivity.
Qed.

Lemma overtaken_write_is_lost_witness :
  view second_prepared.1 [1%N] = Some [67%N] /\ view second_committed.1 [1%N] = Some [67%N] /\
  view overtaken.1 [1%N] = Some [65%N].
Proof.
  destruct (overtaken_write_is_lost Storage.sample_range sample_loaded second_committed.1 overtaken.1 at_both
    9%N 10%N sample_changes second_changes [1%N] [65%N] [67%N] now_commit 0) as (Hv & Hv1 & Hv2 & _);
    [| | |intros k; exact I|apply both_prepared|..|split_and!; [|exact Hv1|exact Hv2]].
  9: done.
  all: vm_compute; reflexivity.
Defined.

(** group commit on the second transaction, when the first is committed *)
Lemma group_step (rm : Sample) o dd g g' :
  dd !! 10%N = Some {[9%N]} -> record_of rm 9%N = None ->
  GroupCommit.step g g' -> calm Storage.sample_range g' ->
  ended_at Storage.sample_range g = [] -> ended_at Storage.sample_range g' = [] ->
  handed Storage.sample_range g' = [10%N] ->
  pipe_step Storage.sample_range (mkPipe g rm o dd) (mkPipe g' rm o dd).
Proof.
  intros Hdd Hrec Hs Hc Ha Ha' Hh. apply (step_group _ (mkPipe g rm o dd) g' Hs Hc); [by rewrite Ha'|].
  rewrite Hh. intros [|? [|]] t l2 d; [|done..]. intros [= <- <-]. unfold deps_of, live. cbn. rewrite Hdd. cbn.
  intros ->%elem_of_singleton. rewrite Hrec. by intros [].
Qed.

Definition last_tx : GroupCommit.TransactionInfo := GroupCommit.sample_tx 10.
#[local] Notation copy := (Storage.sample_range, 10%N) (only parsing).
#[local] Notation adding := (Storage.sample_range, [last_tx]) (only parsing).

(** its states: added, counted, in the group, taken and delivered *)
Definition g_new := GroupCommit.maybe_insert_new_participant_ranges [Storage.sample_range] GroupCommit.new.
Definition g_counted := GroupCommit.insert_pending {[10%N := 1%nat]} g_new.
Definition g_extended := default g_counted (GroupCommit.extend_group Storage.sample_range [last_tx] g_counted).
Definition g_marked := GroupCommit.mark_non_empty [Storage.sample_range] g_extended.
Definition g_taken := default g_marked (fst <$> GroupCommit.take_group Storage.sample_range g_marked).
Definition g_delivered := default g_taken (GroupCommit.deliver_group Storage.sample_range [last_tx] true true g_taken).2.

Definition g_calls := (GroupCommit.deliver_group Storage.sample_range [last_tx] true true g_taken).1.

(** a configuration of the run, nothing delivered *)
Definition g_config st ad ts : GroupCommit.Config := GroupCommit.mkConfig st ad ts [] [copy] [] [] []
  [GroupCommit.Added [last_tx]].

Definition at_group (g : GroupCommit.Config) : Pipe :=
  mkPipe g first_committed.1 (order at_both) (deps at_both).

Lemma group_run st ad ts g :
  GroupCommit.step g (g_config st ad ts) -> length ts <= 1 -> ended_at Storage.sample_range g = [] ->
  pipe_step Storage.sample_range (at_group g) (at_group (g_config st ad ts)).
Proof.
  intros Hs Hlen Ha. apply group_step; [vm_compute; reflexivity|vm_compute; reflexivity|exact Hs|
    |exact Ha|vm_compute; reflexivity|vm_compute; reflexivity].
  split_and!; [|vm_compute; reflexivity|by_decision].
  unfold in_flight, at_range. cbn. rewrite length_fmap. etransitivity; [apply length_filter|exact Hlen].
Qed.

Lemma up_to_delivery : rtc (pipe_step Storage.sample_range) (start sample_loaded)
  (at_group (g_config g_taken None [adding])).
Proof.
  etransitivity; [apply both_prepared|].
  apply (rtc_l _ _ (at_group GroupCommit.init)).
  { apply (Pipeline.step_commit _ at_both _ 9%N now_commit 0); vm_compute; reflexivity. }
  apply (rtc_l _ _ (at_group (g_config g_new
    (Some (GroupCommit.mkAdding (Some {[10%N := 1%nat]}) [adding] [Storage.sample_range])) []))).
  { apply group_run; [|cbn; lia|done].
    apply (GroupCommit.step_add GroupCommit.new [] [] [] [] [] [] [] [last_tx] {[Storage.sample_range := [last_tx]]}
      {[10%N := 1%nat]} [adding]); [by_decision| |vm_compute; reflexivity|by rewrite map_to_list_singleton].
    intros tx ->%list_elem_of_singleton. split; [by_decision|by intros ?%elem_of_nil]. }
  apply (rtc_l _ _ (at_group (g_config g_counted
    (Some (GroupCommit.mkAdding None [adding] [Storage.sample_range])) []))).
  { apply group_run; [apply GroupCommit.step_count|cbn; lia|done]. }
  apply (rtc_l _ _ (at_group (g_config g_extended
    (Some (GroupCommit.mkAdding None [] [Storage.sample_range])) []))).
  { apply group_run; [|cbn; lia|done].
    apply (GroupCommit.step_extend g_counted [] [] [copy] [] [] [] _ [] []). vm_compute; reflexivity. }
  apply (rtc_l _ _ (at_group (g_config g_marked None []))).
  { apply group_run; [apply GroupCommit.step_mark|cbn; lia|done]. }
  apply rtc_once, group_run; [|cbn; lia|done].
  apply GroupCommit.step_take. vm_compute; reflexivity.
Qed.

Lemma pipelined_range_is_sequential_witness :
  view both_committed.1 [1%N] = Some [67%N] /\ stored both_committed.1 [1%N] = Some [67%N] /\
  view both_committed.1 [2%N] = Some [66%N].
Proof.
  destruct (pipelined_range_is_sequential Storage.sample_range sample_loaded
    (mkPipe (GroupCommit.mkConfig g_delivered None [] [] [copy] [copy] [] [] (GroupCommit.Added [last_tx] :: g_calls))
       both_committed.1 (order at_both) (deps at_both))) as (Hv & _ & _ & Hs).
  - vm_compute; reflexivity.
  - intros t. vm_compute. reflexivity.
  - intros k. vm_compute. reflexivity.
  - intros k. exact I.
  - eapply rtc_r; [apply up_to_delivery|].
    eapply (Pipeline.step_deliver _ (at_group _) _ _ [10%N] now_commit 0).
    + apply (GroupCommit.step_deliver g_taken None [] [] [] [copy] [] [] [] [GroupCommit.Added [last_tx]] Storage.sample_range [last_tx] true true).
      vm_compute; reflexivity.
    + split_and!; by_decision.
    + by_decision.
    + done.
    + reflexivity.
    + vm_compute; reflexivity.
  - split_and!.
    + etransitivity; [exact (Hv [1%N])|vm_compute; reflexivity].
    + etransitivity; [apply Hs|vm_compute; reflexivity].
      intros t [ch Ht]. vm_compute in Ht. discriminate Ht.
    + etransitivity; [exact (Hv [2%N])|vm_compute; reflexivity].
Defined.

End Pipeline.
