(* ===== verification/Resolver.v ===== *)
(** * The resolver: [src/resolver/src/core/resolver.rs]

    The resolver holds a transaction back until the transactions it depends
    on are resolved, hands it over to group commit and wakes its client.
    [commit] and [register_committed_transactions] run with the state lock
    held and are one step each. Group commit is reached through the interface
    [GroupCommitter], which [GroupCommit] implements. *)

From stdpp Require Import base tactics list numbers option gmap sets.
From S2P Require Import Prelude Common GroupCommit.

Module Resolver.
Import Common GroupCommit.GroupCommit.

Record State := mkState {
  info_per_transaction : gmap Uuid TransactionInfo;
  resolved_transactions : gset Uuid
}.

Definition new : State := mkState ∅ ∅.

Definition set_num_dependencies (n : nat) (i : TransactionInfo) : TransactionInfo :=
  mkTransactionInfo (txn_id i) n (dependents i) (participant_ranges_info i) (fake i).
Definition set_dependents (s : gset Uuid) (i : TransactionInfo) : TransactionInfo :=
  mkTransactionInfo (txn_id i) (num_dependencies i) s (participant_ranges_info i) (fake i).
Definition set_participants (ps : list ParticipantRangeInfo) (i : TransactionInfo)
    : TransactionInfo :=
  mkTransactionInfo (txn_id i) (num_dependencies i) (dependents i) ps (fake i).

(** ** [commit] *)

(** [entry(id).or_insert(default)] *)
Definition entry (id : Uuid) (fake : bool) (info : gmap Uuid TransactionInfo)
    : TransactionInfo :=
  default (default_info id fake) (info !! id).

(** the loop over the dependencies *)
Fixpoint add_dependencies (transaction_id : Uuid) (fake : bool)
    (resolved : gset Uuid) (dependencies : list Uuid)
    (info : gmap Uuid TransactionInfo) (num_pending_dependencies : nat)
    : gmap Uuid TransactionInfo * nat :=
  match dependencies with
  | [] => (info, num_pending_dependencies)
  | dependency :: rest =>
      if decide (dependency ∈ resolved) then
        add_dependencies transaction_id fake resolved rest info num_pending_dependencies
      else
        let e := entry dependency fake info in
        add_dependencies transaction_id fake resolved rest
          (<[dependency := set_dependents ({[transaction_id]} ∪ dependents e) e]> info)
          (S num_pending_dependencies)
  end.

(** The critical section of [commit]: the new state and, when the transaction
    has no pending dependency, what it hands over to group commit. [None] is
    the early return of a transaction that wrote nothing. *)
Definition commit `{HashOrder} (transaction_id : Uuid) (dependencies : gset Uuid)
    (ranges : list ParticipantRangeInfo) (fake : bool) (st : State)
    : option (State * list TransactionInfo) :=
  if forallb (fun p => negb (has_writes p)) ranges then None
  else
    let '(info, n) :=
      add_dependencies transaction_id fake (resolved_transactions st)
        (hash_iter dependencies) (info_per_transaction st) 0 in
    let e := set_participants ranges
               (set_num_dependencies n (entry transaction_id fake info)) in
    Some (mkState (<[transaction_id := e]> info) (resolved_transactions st),
          if decide (n = 0) then [e] else []).

(** ** [register_committed_transactions] *)

(** the loop over the dependents of a resolved transaction; [None] is the
    [unwrap] or the assertion failing. The stack's top is its head. *)
Fixpoint resolve_dependents (ds : list Uuid) (info : gmap Uuid TransactionInfo)
    (ready : list TransactionInfo) (stack : list Uuid)
    : option (gmap Uuid TransactionInfo * list TransactionInfo * list Uuid) :=
  match ds with
  | [] => Some (info, ready, stack)
  | dependent :: ds' =>
      match info !! dependent with
      | None => None
      | Some i =>
          match num_dependencies i with
          | 0 => None
          | S n =>
              let i' := set_num_dependencies n i in
              let info' := <[dependent := i']> info in
              if decide (n = 0)
              then resolve_dependents ds' info' (ready ++ [i']) (dependent :: stack)
              else resolve_dependents ds' info' ready stack
          end
      end
  end.

Inductive loop_result :=
| OutOfFuel
| LoopPanic
| Done (info : gmap Uuid TransactionInfo) (ready : list TransactionInfo).

(** the [while] loop; every round uses one unit of fuel *)
Fixpoint resolve_loop `{HashOrder} (fuel : nat) (stack : list Uuid)
    (info : gmap Uuid TransactionInfo) (ready : list TransactionInfo) : loop_result :=
  match fuel with
  | 0 => OutOfFuel
  | S fuel' =>
      match stack with
      | [] => Done info ready
      | transaction_id :: stack' =>
          match info !! transaction_id with
          | None => resolve_loop fuel' stack' info ready
          | Some i =>
              match resolve_dependents (hash_iter (dependents i))
                      (<[transaction_id := set_dependents ∅ i]> info) ready stack' with
              | None => LoopPanic
              | Some (info', ready', stack'') => resolve_loop fuel' stack'' info' ready'
              end
          end
      end
  end.

(** the number of dependents stored: with the size of the stack, a bound on
    the rounds of the loop *)
Definition stored_dependents (info : gmap Uuid TransactionInfo) : nat :=
  map_sum (fun i => size (dependents i)) info.

Definition register_committed_transactions `{HashOrder} (transaction_ids : list Uuid)
    (st : State) : option (State * list TransactionInfo) :=
  let resolved := list_to_set transaction_ids ∪ resolved_transactions st in
  let fuel := S (length transaction_ids + stored_dependents (info_per_transaction st)) in
  match resolve_loop fuel (rev transaction_ids) (info_per_transaction st) [] with
  | Done info ready => Some (mkState info resolved, ready)
  | OutOfFuel | LoopPanic => None
  end.

(** ** [trigger_commit] *)

(** waking the clients of the finished transactions. Both [unwrap]s can
    panic: [false], with what was done before. *)
Fixpoint notify_finished (finished : list Uuid) (waiting : gmap Uuid positive)
    (chans : gmap positive oneshot) : gmap Uuid positive * gmap positive oneshot * bool :=
  match finished with
  | [] => (waiting, chans, true)
  | id :: finished' =>
      match waiting !! id with
      | None => (waiting, chans, false)
      | Some c =>
          let waiting' := delete id waiting in
          let (chans', sent) := chan_send c chans in
          if sent then notify_finished finished' waiting' chans'
          else (waiting', chans', false)
      end
  end.

(** ** What the resolver needs of group commit *)

Class GroupCommitter (G : Type) : Type := {
  gc_ok : G -> Prop;
  gc_init : G;
  (** the transactions handed over and those reported as finished *)
  gc_added : G -> list Uuid;
  gc_finished : G -> list Uuid;
  (** [add_transactions] starts, a [commit] call returns, anything else *)
  gc_add : list TransactionInfo -> G -> G -> Prop;
  gc_finish : list TransactionInfo -> G -> G -> Prop;
  gc_internal : G -> G -> Prop;
  gc_init_ok : gc_ok gc_init;
  gc_init_added : gc_added gc_init = [];
  gc_init_finished : gc_finished gc_init = [];
  (** a transaction with writes may be handed over once *)
  gc_add_ok txs g g' :
    gc_ok g -> gc_add txs g g' ->
    NoDup (txn_id <$> txs) ->
    (forall tx, tx ∈ txs -> tx_copies tx <> [] /\ txn_id tx ∉ gc_added g) ->
    gc_ok g' /\ gc_finished g' = gc_finished g /\
    forall id, id ∈ gc_added g' <-> id ∈ gc_added g \/ id ∈ txn_id <$> txs;
  (** a transaction is reported once, and only if it was handed over *)
  gc_finish_ok txs g g' :
    gc_ok g -> gc_finish txs g g' ->
    gc_ok g' /\ gc_added g' = gc_added g /\
    gc_finished g' = gc_finished g ++ (txn_id <$> txs) /\
    NoDup (gc_finished g') /\
    forall id, id ∈ txn_id <$> txs -> id ∈ gc_added g;
  gc_internal_ok g g' :
    gc_ok g -> gc_internal g g' ->
    gc_ok g' /\ gc_added g' = gc_added g /\ gc_finished g' = gc_finished g
}.

(** ** The system *)

Record Config (G : Type) := mkConfig {
  rstate : State;
  waiting_transactions : gmap Uuid positive;
  chans : gmap positive oneshot;
  gc : G;
  (** spawned calls of [register_committed_transactions] *)
  registering : list (list Uuid);
  (** what has happened so far: the dependencies of the transactions whose
      commit was requested, the order in which transactions were handed over
      to group commit, and the transactions registered from outside *)
  called : gmap Uuid (gset Uuid);
  enqueued : list Uuid;
  external : gset Uuid
}.
Arguments mkConfig {G} _ _ _ _ _ _ _ _.
Arguments rstate {G} _.
Arguments waiting_transactions {G} _.
Arguments chans {G} _.
Arguments gc {G} _.
Arguments registering {G} _.
Arguments called {G} _.
Arguments enqueued {G} _.
Arguments external {G} _.

Definition init `{GroupCommitter G} : Config G :=
  mkConfig new ∅ ∅ gc_init [] ∅ [] ∅.

(** handing over: [add_transactions] is only called with work to do *)
Definition hand_over `{GroupCommitter G} (txs : list TransactionInfo) (g g' : G) : Prop :=
  match txs with [] => g' = g | _ => gc_add txs g g' end.

Inductive step `{GroupCommitter G} : Config G -> Config G -> Prop :=
| step_commit (order : HashOrder) st w cs g rg cl en ex id deps ranges fk st' ready g' :
    (* transaction ids are fresh *)
    cl !! id = None ->
    commit id deps ranges fk st = Some (st', ready) ->
    hand_over ready g g' ->
    step (mkConfig st w cs g rg cl en ex)
      (mkConfig st' (<[id := (chan_new cs).1]> w) (chan_new cs).2 g' rg
         (<[id := deps]> cl) (en ++ (txn_id <$> ready)) ex)
| step_register (order : HashOrder) st w cs g rg1 rg2 cl en ex ids st' ready g' :
    register_committed_transactions ids st = Some (st', ready) ->
    hand_over ready g g' ->
    step (mkConfig st w cs g (rg1 ++ ids :: rg2) cl en ex)
      (mkConfig st' w cs g' (rg1 ++ rg2) cl (en ++ (txn_id <$> ready)) ex)
| step_trigger st w cs g rg cl en ex fin w' cs' g' :
    gc_finish fin g g' ->
    notify_finished (txn_id <$> fin) w cs = (w', cs', true) ->
    step (mkConfig st w cs g rg cl en ex)
      (mkConfig st w' cs' g'
         (if decide (fin = []) then rg else (txn_id <$> fin) :: rg) cl en ex)
| step_trigger_panic st w cs g rg cl en ex fin w' cs' g' :
    gc_finish fin g g' ->
    notify_finished (txn_id <$> fin) w cs = (w', cs', false) ->
    step (mkConfig st w cs g rg cl en ex) (mkConfig st w' cs' g' rg cl en ex)
| step_external st w cs g rg cl en ex ids :
    (* a coordinator registers transactions that committed without the resolver *)
    step (mkConfig st w cs g rg cl en ex)
      (mkConfig st w cs g (ids :: rg) cl en (list_to_set ids ∪ ex))
| step_internal st w cs g rg cl en ex g' :
    gc_internal g g' ->
    step (mkConfig st w cs g rg cl en ex) (mkConfig st w cs g' rg cl en ex)
| step_cancel st w cs g rg cl en ex c :
    step (mkConfig st w cs g rg cl en ex) (mkConfig st w (chan_drop c cs) g rg cl en ex).

Definition reachable `{GroupCommitter G} (c : Config G) : Prop := rtc step init c.

(** ** The dependency graph *)

(** [d] is stored as a transaction [t] waits for *)
Definition blocks (info : gmap Uuid TransactionInfo) (d t : Uuid) : Prop :=
  exists i, info !! d = Some i /\ t ∈ dependents i.

Definition blockers (info : gmap Uuid TransactionInfo) (t : Uuid) : gset Uuid :=
  dom (filter (fun kv => t ∈ dependents kv.2) info).

(** What holds of the graph between two operations ([rem] and [stack] empty)
    and inside [register_committed_transactions]: [rem] are the dependents
    whose count is still to be decremented, [stack] the transactions still to
    be looked at, [en] the transactions handed over so far. *)
Record graph_inv (cl : gmap Uuid (gset Uuid)) (res ext : gset Uuid) (en rem stack : list Uuid)
    (info : gmap Uuid TransactionInfo) : Prop := {
  g_id t i : info !! t = Some i -> txn_id i = t;
  g_num t i : info !! t = Some i ->
    num_dependencies i = size (blockers info t) + (if decide (t ∈ rem) then 1 else 0);
  g_blocks d t : blocks info d t ->
    exists deps, cl !! t = Some deps /\ d ∈ deps /\ (d ∈ res -> d ∈ stack);
  g_called t : is_Some (cl !! t) -> exists i, info !! t = Some i /\ tx_copies i <> [];
  g_ready t : t ∈ en <-> is_Some (cl !! t) /\ blockers info t = ∅ /\ t ∉ rem;
  g_once : NoDup en;
  g_order l1 t l2 deps d : en = l1 ++ t :: l2 -> cl !! t = Some deps -> d ∈ deps ->
    d ∈ l1 \/ d ∈ ext;
  g_deps t deps d : cl !! t = Some deps -> d ∈ deps ->
    blocks info d t \/ d ∈ ext \/ d ∈ en;
  g_stack d : d ∈ stack -> d ∈ ext \/ d ∈ en;
  g_rem t : t ∈ rem -> is_Some (cl !! t);
  g_rem_once : NoDup rem
}.

Lemma elem_of_blockers info d t : d ∈ blockers info t <-> blocks info d t.
Proof.
  unfold blockers, blocks. rewrite elem_of_dom. split.
  - intros [i Hi]. apply map_lookup_filter_Some in Hi. eauto.
  - intros (i & Hi & Ht). exists i. by apply map_lookup_filter_Some.
Qed.

Lemma blocks_insert info d i d' t :
  blocks (<[d := i]> info) d' t <-> (d' = d /\ t ∈ dependents i) \/ (d' <> d /\ blocks info d' t).
Proof.
  unfold blocks. destruct (decide (d' = d)) as [->|].
  - rewrite lookup_insert_eq. naive_solver.
  - rewrite lookup_insert_ne by done. naive_solver.
Qed.

(** updates that keep the dependents keep the graph *)
Lemma blockers_same info t i i' t' :
  info !! t = Some i -> dependents i' = dependents i ->
  blockers (<[t := i']> info) t' = blockers info t'.
Proof.
  intros Hi Hd. apply set_eq. intros d. rewrite !elem_of_blockers, blocks_insert, Hd.
  unfold blocks. destruct (decide (d = t)) as [->|]; naive_solver.
Qed.

Lemma stored_insert info t i :
  stored_dependents (<[t := i]> info) + default 0 ((fun i => size (dependents i)) <$> info !! t) =
  stored_dependents info + size (dependents i).
Proof. apply (map_sum_insert (fun i => size (dependents i))). Qed.

Lemma stored_same info t i i' :
  info !! t = Some i -> dependents i' = dependents i ->
  stored_dependents (<[t := i']> info) = stored_dependents info.
Proof.
  intros Hi Hd. pose proof (stored_insert info t i') as H.
  rewrite Hi, Hd in H. cbn in H. lia.
Qed.

(** ** The [while] loop *)

Lemma pop_unknown cl res ext en stack info d :
  info !! d = None ->
  graph_inv cl res ext en [] (d :: stack) info -> graph_inv cl res ext en [] stack info.
Proof.
  intros Hd [Hid Hnum Hbl Hcl Hrd Hon Hor Hdp Hst Hrm Hrn]; constructor; try done.
  - intros d' t Hb. destruct (Hbl d' t Hb) as (deps & ? & ? & Hin). exists deps.
    split_and!; [done..|]. intros Hr%Hin. apply elem_of_cons in Hr as [->|]; [|done].
    destruct Hb as (i & ? & _). congruence.
  - intros d' Hd'. apply Hst. by right.
Qed.

Lemma blockers_taken info d i t :
  info !! d = Some i ->
  blockers (<[d := set_dependents ∅ i]> info) t = blockers info t ∖ {[d]}.
Proof.
  intros Hi. apply set_eq. intros d'.
  rewrite elem_of_difference, !elem_of_blockers, blocks_insert, elem_of_singleton; cbn.
  set_solver.
Qed.

(** taking the dependents out of a resolved transaction *)
Lemma pop_known `{HashOrder} cl res ext en stack info d i :
  info !! d = Some i ->
  graph_inv cl res ext en [] (d :: stack) info ->
  graph_inv cl res ext en (hash_iter (dependents i)) stack
    (<[d := set_dependents ∅ i]> info).
Proof.
  intros Hi [Hid Hnum Hbl Hcl Hrd Hon Hor Hdp Hst Hrm Hrn].
  assert (Hb' : forall d' t, blocks (<[d := set_dependents ∅ i]> info) d' t ->
                  d' <> d /\ blocks info d' t).
  { intros d' t. rewrite blocks_insert; cbn. set_solver. }
  assert (Hdin : forall t, t ∈ dependents i <-> d ∈ blockers info t).
  { intros t. rewrite elem_of_blockers. unfold blocks. naive_solver. }
  constructor.
  - intros t j. destruct (decide (d = t)) as [<-|]; [|rewrite lookup_insert_ne by done; eauto].
    rewrite lookup_insert_eq. intros [= <-]. exact (Hid d i Hi).
  - intros t j Hj. rewrite (blockers_taken _ _ _ _ Hi).
    assert (Hn : num_dependencies j = size (blockers info t)).
    { destruct (decide (d = t)) as [<-|].
      - rewrite lookup_insert_eq in Hj. injection Hj as <-. cbn. rewrite (Hnum d i Hi).
        rewrite decide_False by (apply not_elem_of_nil). lia.
      - rewrite lookup_insert_ne in Hj by done. rewrite (Hnum t j Hj).
        rewrite decide_False by (apply not_elem_of_nil). lia. }
    rewrite Hn. case_decide as Ht; rewrite hash_iter_elem_of, Hdin in Ht.
    + rewrite size_difference by set_solver. rewrite size_singleton.
      assert (size (blockers info t) <> 0); [|lia].
      apply size_non_empty_iff. set_solver.
    + rewrite difference_disjoint by set_solver. lia.
  - intros d' t [Hne Hb]%Hb'. destruct (Hbl d' t Hb) as (deps & ? & ? & Hin). exists deps.
    split_and!; [done..|]. intros Hr%Hin. by apply elem_of_cons in Hr as [->|].
  - intros t (j & Hj & Hc)%Hcl. destruct (decide (d = t)) as [<-|].
    + exists (set_dependents ∅ i). rewrite lookup_insert_eq. split; [done|]. naive_solver.
    + exists j. by rewrite lookup_insert_ne.
  - intros t. rewrite Hrd, (blockers_taken _ _ _ _ Hi), hash_iter_elem_of, Hdin.
    split; [set_solver|]. intros (? & Hb & Hn).
    split_and!; [done| |apply not_elem_of_nil]. clear -Hb Hn. set_solver.
  - done.
  - done.
  - intros t deps d' Hc Hd'. rewrite blocks_insert; cbn.
    destruct (decide (d' = d)) as [->|].
    + right. apply Hst. by left.
    + destruct (Hdp t deps d' Hc Hd'); auto.
  - intros d' Hd'. apply Hst. by right.
  - intros t Ht%hash_iter_elem_of. destruct (Hbl d t) as (deps & ? & _); [|by eexists].
    by exists i.
  - apply hash_iter_NoDup.
Qed.

(** one dependent's count goes down *)
Lemma decrement cl res ext en t rem stack info i :
  info !! t = Some i ->
  graph_inv cl res ext en (t :: rem) stack info ->
  let n := size (blockers info t) in
  let info' := <[t := set_num_dependencies n i]> info in
  num_dependencies i = S n /\
  graph_inv cl res ext (en ++ if decide (n = 0) then [t] else []) rem
    (if decide (n = 0) then t :: stack else stack) info'.
Proof.
  intros Hi [Hid Hnum Hbl Hcl Hrd Hon Hor Hdp Hst Hrm Hrn] n info'.
  apply NoDup_cons in Hrn as [Hnt Hrn].
  assert (Hb : forall t', blockers info' t' = blockers info t').
  { intros t'. by apply (blockers_same info t i). }
  assert (Hbk : forall d t', blocks info' d t' <-> blocks info d t').
  { intros d t'. by rewrite <- !elem_of_blockers, Hb. }
  assert (Hne : t ∉ en) by (intros [_ [_ Hr]]%Hrd; apply Hr; by left).
  assert (Hzero : n = 0 <-> blockers info t = ∅) by (unfold n; by rewrite size_empty_iff, leibniz_equiv_iff).
  split; [rewrite (Hnum t i Hi), decide_True by (by left); lia|].
  constructor.
  - intros t' j. unfold info'. destruct (decide (t = t')) as [<-|];
      [|rewrite lookup_insert_ne by done; eauto].
    rewrite lookup_insert_eq. intros [= <-]. exact (Hid t i Hi).
  - intros t' j. rewrite Hb. unfold info'. destruct (decide (t = t')) as [<-|].
    + rewrite lookup_insert_eq. intros [= <-]. rewrite decide_False by done. cbn. lia.
    + rewrite lookup_insert_ne by done. intros Hj. rewrite (Hnum t' j Hj). f_equal.
      apply decide_ext. rewrite elem_of_cons. naive_solver.
  - intros d t' (deps & ? & ? & Hin)%Hbk%Hbl. exists deps. split_and!; [done..|].
    intros Hr%Hin. case_decide; [by right|done].
  - intros t' (j & Hj & Hc)%Hcl. unfold info'. destruct (decide (t = t')) as [<-|].
    + rewrite lookup_insert_eq. eexists; split; [done|]. naive_solver.
    + rewrite lookup_insert_ne by done. eauto.
  - intros t'. rewrite elem_of_snoc_if, Hb, Hrd, elem_of_cons, Hzero. split.
    + intros [(? & ? & ?)|[? ->]]; [naive_solver|]. split_and!; [|done..]. apply Hrm. by left.
    + intros (? & ? & ?). destruct (decide (t' = t)) as [->|]; [by right|]. left. naive_solver.
  - by apply NoDup_snoc_if.
  - intros l1 t' l2 deps d [(Hz & -> & ->)|[l2' He]]%snoc_if_split Hc Hd; [|eauto].
    destruct (Hdp t deps d Hc Hd) as [Hblk|[?|?]]; [|by right|by left].
    apply elem_of_blockers in Hblk. apply Hzero in Hz. set_solver.
  - intros t' deps d Hc Hd. rewrite Hbk, elem_of_app.
    destruct (Hdp t' deps d Hc Hd) as [?|[?|?]]; auto.
  - intros d Hd. rewrite elem_of_app. case_decide.
    + apply elem_of_cons in Hd as [->|Hd]; [right; right; by left|].
      destruct (Hst d Hd); auto.
    + destruct (Hst d Hd); auto.
  - intros t' Ht'. apply Hrm. by right.
  - done.
Qed.

Definition committable (txs : list TransactionInfo) : Prop :=
  forall tx, tx ∈ txs -> tx_copies tx <> [].

Lemma resolve_dependents_spec cl res ext en rem info ready stack :
  graph_inv cl res ext (en ++ (txn_id <$> ready)) rem stack info -> committable ready ->
  exists info' ready' stack',
    resolve_dependents rem info ready stack = Some (info', ready', stack') /\
    graph_inv cl res ext (en ++ (txn_id <$> ready')) [] stack' info' /\ committable ready' /\
    length stack' <= length stack + length rem /\
    stored_dependents info' = stored_dependents info.
Proof.
  revert info ready stack; induction rem as [|t rem IH]; intros info ready stack Hg Hr.
  - exists info, ready, stack. split_and!; [done..|cbn; lia|done].
  - destruct (g_called _ _ _ _ _ _ _ Hg t) as (i & Hi & Hc).
    { apply (g_rem _ _ _ _ _ _ _ Hg). by left. }
    pose proof (g_id _ _ _ _ _ _ _ Hg t i Hi) as Hid.
    destruct (decrement _ _ _ _ _ _ _ _ _ Hi Hg) as [Hn Hg'].
    set (n := size (blockers info t)) in *.
    cbn [resolve_dependents]. rewrite Hi, Hn.
    assert (Hst : stored_dependents (<[t := set_num_dependencies n i]> info) =
                  stored_dependents info) by (by apply (stored_same info t i)).
    destruct (decide (n = 0)) as [Hz|Hz].
    + destruct (IH (<[t := set_num_dependencies n i]> info)
                  (ready ++ [set_num_dependencies n i]) (t :: stack))
        as (info' & ready' & stack' & ? & ? & ? & Hlen & Hs).
      { rewrite fmap_app, app_assoc. cbn. by rewrite Hid. }
      { intros tx [?| ->%list_elem_of_singleton]%elem_of_app; [by apply Hr|]. done. }
      exists info', ready', stack'. split_and!; [done..|cbn in *; lia|congruence].
    + rewrite app_nil_r in Hg'.
      destruct (IH _ ready stack Hg' Hr) as (info' & ready' & stack' & ? & ? & ? & Hlen & Hs).
      exists info', ready', stack'. split_and!; [done..|cbn in *; lia|congruence].
Qed.

(** The loop terminates within its bound, does not panic, and leaves the graph
    without unresolved work. *)
Lemma resolve_loop_spec `{HashOrder} cl res ext en fuel stack info ready :
  graph_inv cl res ext (en ++ (txn_id <$> ready)) [] stack info -> committable ready ->
  length stack + stored_dependents info < fuel ->
  exists info' ready',
    resolve_loop fuel stack info ready = Done info' ready' /\
    graph_inv cl res ext (en ++ (txn_id <$> ready')) [] [] info' /\ committable ready'.
Proof.
  revert stack info ready; induction fuel as [|fuel IH]; intros stack info ready Hg Hr Hf; [lia|].
  destruct stack as [|d stack]; cbn [resolve_loop].
  { exists info, ready. done. }
  destruct (info !! d) as [i|] eqn:Hi.
  - pose proof (pop_known _ _ _ _ _ _ _ _ Hi Hg) as Hg'.
    destruct (resolve_dependents_spec _ _ _ _ _ _ _ _ Hg' Hr)
      as (info' & ready' & stack' & -> & Hg2 & Hr2 & Hlen & Hs).
    apply IH; [done..|].
    rewrite hash_iter_length in Hlen.
    pose proof (stored_insert info d (set_dependents ∅ i)) as Hst. rewrite Hi in Hst.
    cbn in Hst. rewrite size_empty in Hst. cbn in Hf. lia.
  - apply IH; [by eapply pop_unknown|done|]. cbn in Hf. lia.
Qed.

Lemma register_spec `{HashOrder} cl ext en st ids :
  graph_inv cl (resolved_transactions st) ext en [] [] (info_per_transaction st) ->
  (forall d, d ∈ ids -> d ∈ ext \/ d ∈ en) ->
  exists st' ready, register_committed_transactions ids st = Some (st', ready) /\
    resolved_transactions st' = list_to_set ids ∪ resolved_transactions st /\
    graph_inv cl (resolved_transactions st') ext (en ++ (txn_id <$> ready)) [] []
      (info_per_transaction st') /\ committable ready.
Proof.
  intros Hg Hids. unfold register_committed_transactions.
  set (res := list_to_set ids ∪ resolved_transactions st).
  destruct (resolve_loop_spec cl res ext en
      (S (length ids + stored_dependents (info_per_transaction st))) (rev ids)
      (info_per_transaction st) []) as (info' & ready & -> & Hg' & Hr).
  - cbn. rewrite app_nil_r. destruct Hg as [Hid Hnum Hbl Hcl Hrd Hon Hor Hdp Hst Hrm Hrn].
    constructor; try done.
    + intros d t (deps & ? & ? & Hin)%Hbl. exists deps. split_and!; [done..|].
      unfold res. rewrite elem_of_union, elem_of_list_to_set. intros [?|Hr].
      * by apply elem_of_rev.
      * by apply Hin, elem_of_nil in Hr.
    + intros d Hd. apply Hids. by apply elem_of_rev.
  - by intros tx ?%elem_of_nil.
  - rewrite length_rev. lia.
  - eexists _, ready. split_and!; [done|done| |done]. done.
Qed.

(** ** [commit] *)

(** the same transaction, up to its dependents *)
Record same_tx (i i' : TransactionInfo) : Prop := {
  same_id : txn_id i' = txn_id i;
  same_num : num_dependencies i' = num_dependencies i;
  same_ranges : participant_ranges_info i' = participant_ranges_info i
}.

#[local] Instance same_tx_refl : Reflexive same_tx.
Proof. by intros i. Qed.
#[local] Instance same_tx_trans : Transitive same_tx.
Proof. intros i j k [] []; constructor; congruence. Qed.

Definition unresolved (res : gset Uuid) (ds : list Uuid) : list Uuid :=
  filter (fun d => d ∉ res) ds.

Lemma entry_dependents d fk info t :
  t ∈ dependents (entry d fk info) <-> blocks info d t.
Proof. unfold entry, blocks. destruct (info !! d); cbn; [naive_solver|set_solver]. Qed.

Lemma add_dependencies_spec t fk res ds info n info' n' :
  add_dependencies t fk res ds info n = (info', n') ->
  n' = n + length (unresolved res ds) /\
  (forall d t', blocks info' d t' <-> blocks info d t' \/ (t' = t /\ d ∈ unresolved res ds)) /\
  (forall d i', info' !! d = Some i' -> same_tx (entry d fk info) i') /\
  (forall d, is_Some (info !! d) -> is_Some (info' !! d)).
Proof.
  revert info n; induction ds as [|d ds IH]; intros info n; cbn [add_dependencies].
  - intros [= <- <-]. unfold unresolved; cbn. split_and!; [lia| | |done].
    + intros d t'. rewrite elem_of_nil. naive_solver.
    + intros d i' Hd. unfold entry. by rewrite Hd.
  - unfold unresolved; rewrite filter_cons. case_decide as Hres.
    { intros (-> & Hb & Hs & Hk)%IH. rewrite decide_False by naive_solver. done. }
    rewrite decide_True by done. set (e := entry d fk info).
    intros (-> & Hb & Hs & Hk)%IH. split_and!.
    + cbn. fold (unresolved res ds). lia.
    + intros d' t'. rewrite Hb, blocks_insert, elem_of_cons. cbn [set_dependents dependents].
      rewrite elem_of_union, elem_of_singleton. fold (unresolved res ds).
      unfold e. rewrite entry_dependents. clear.
      destruct (decide (d' = d)) as [->|]; naive_solver.
    + intros d' i' Hi'. transitivity (entry d' fk
        (<[d := set_dependents ({[t]} ∪ dependents e) e]> info)); [|by apply Hs].
      unfold entry at 2. destruct (decide (d = d')) as [<-|].
      * rewrite lookup_insert_eq. cbn. by constructor.
      * by rewrite lookup_insert_ne.
    + intros d' Hd'. apply Hk. rewrite lookup_insert_is_Some'. by right.
Qed.

Lemma entry_blocks t fk info e d t' :
  dependents e = dependents (entry t fk info) ->
  blocks (<[t := e]> info) d t' <-> blocks info d t'.
Proof.
  intros He. rewrite blocks_insert, He, entry_dependents.
  destruct (decide (d = t)) as [->|]; naive_solver.
Qed.

Lemma has_copies (i : TransactionInfo) :
  forallb (fun p => negb (has_writes p)) (participant_ranges_info i) = false ->
  tx_copies i <> [].
Proof.
  unfold tx_copies. intros Hf He. apply fmap_nil_inv in He.
  revert Hf He. induction (participant_ranges_info i) as [|p ps IH]; [done|].
  rewrite filter_cons. cbn [forallb].
  destruct (has_writes p); cbn [negb andb]; [by rewrite decide_True|by rewrite decide_False].
Qed.

Lemma tx_copies_same i i' : same_tx i i' -> tx_copies i' = tx_copies i.
Proof. intros [Hi _ Hr]. unfold tx_copies. by rewrite Hi, Hr. Qed.

(** a transaction joins the graph *)
(** the entries of the other transactions, in a graph that one transaction joins *)
Lemma entry_joined cl res ext en info0 t' fk i :
  graph_inv cl res ext en [] [] info0 -> same_tx (entry t' fk info0) i ->
  txn_id i = t' /\ num_dependencies i = size (blockers info0 t').
Proof.
  intros Hg [-> -> _]. unfold entry. destruct (info0 !! t') as [i0|] eqn:E; cbn.
  - rewrite (g_id _ _ _ _ _ _ _ Hg t' i0 E), (g_num _ _ _ _ _ _ _ Hg t' i0 E).
    rewrite decide_False by apply not_elem_of_nil. split; [done|lia].
  - split; [done|]. symmetry. apply size_empty_iff, elem_of_equiv_empty. intros d.
    rewrite elem_of_blockers. intros (dp & Hc & _)%(g_blocks _ _ _ _ _ _ _ Hg).
    destruct (g_called _ _ _ _ _ _ _ Hg t') as (i1 & ? & _); [by eexists|]. congruence.
Qed.

Lemma graph_join cl res ext en info0 info t deps e :
  cl !! t = None ->
  (forall d, d ∈ res -> d ∈ ext \/ d ∈ en) ->
  graph_inv cl res ext en [] [] info0 ->
  info !! t = Some e -> txn_id e = t -> tx_copies e <> [] ->
  num_dependencies e = size (blockers info t) ->
  (forall d t', blocks info d t' <-> blocks info0 d t' \/ (t' = t /\ d ∈ deps /\ d ∉ res)) ->
  (forall t' i, t' <> t -> info !! t' = Some i ->
     exists fk, same_tx (entry t' fk info0) i) ->
  (forall t', is_Some (info0 !! t') -> is_Some (info !! t')) ->
  graph_inv (<[t := deps]> cl) res ext
    (en ++ if decide (num_dependencies e = 0) then [t] else []) [] [] info.
Proof.
  intros Hnew Hres Hg He Heid Hec Hen Hb Hs Hk.
  pose proof (fun t' fk i => entry_joined _ _ _ _ _ t' fk i Hg) as Hentry.
  destruct Hg as [_ _ Hbl Hcl Hrd Hon Hor Hdp _ _ _].
  assert (Hbt : forall d, ~ blocks info0 d t).
  { intros d (dp & Hc & _)%Hbl. congruence. }
  assert (Hten : t ∉ en) by (intros [[? ?] _]%Hrd; congruence).
  assert (Hblk : forall t', t' <> t -> blockers info t' = blockers info0 t').
  { intros t' Ht. apply set_eq. intros d. rewrite !elem_of_blockers, Hb. clear -Ht. naive_solver. }
  assert (Hzero : num_dependencies e = 0 <-> blockers info t = ∅).
  { rewrite Hen, size_empty_iff. apply leibniz_equiv_iff. }
  assert (Hold : forall t' i, t' <> t -> info !! t' = Some i ->
            txn_id i = t' /\ num_dependencies i = size (blockers info0 t')).
  { intros t' i Hne Hi. destruct (Hs t' i Hne Hi) as [fk Hsame]. by apply (Hentry t' fk). }
  constructor.
  - intros t' i Hi. destruct (decide (t' = t)) as [->|Hne]; [congruence|]. by apply Hold.
  - intros t' i Hi. rewrite decide_False by apply not_elem_of_nil. rewrite Nat.add_0_r.
    destruct (decide (t' = t)) as [->|Hne]; [congruence|]. rewrite Hblk by done. by apply Hold.
  - intros d t' [Hb'|(-> & Hd & Hr)]%Hb; [|exists deps; by rewrite lookup_insert_eq].
    destruct (decide (t' = t)) as [->|Hne]; [by edestruct Hbt|].
    rewrite lookup_insert_ne by done. apply (Hbl d t' Hb').
  - intros t' Hc. destruct (decide (t' = t)) as [->|Hne]; [eauto|].
    rewrite lookup_insert_ne in Hc by done. destruct (Hcl t' Hc) as (i0 & Hi0 & Hc0).
    destruct (Hk t') as [i Hi]; [by eexists|]. exists i. split; [done|].
    destruct (Hs t' i Hne Hi) as [fk Hsame]. rewrite (tx_copies_same _ _ Hsame).
    unfold entry. by rewrite Hi0.
  - intros t'. rewrite elem_of_snoc_if, Hrd. destruct (decide (t' = t)) as [->|Hne].
    + rewrite lookup_insert_eq, <- Hzero, Hnew.
      pose proof (@is_Some_None (gset Uuid)). assert (is_Some (Some deps)) by eauto.
      pose proof (not_elem_of_nil t). tauto.
    + rewrite lookup_insert_ne, Hblk by done. tauto.
  - by apply NoDup_snoc_if.
  - intros l1 t' l2 dp d [(Hz & -> & ->)|[l2' Hl]]%snoc_if_split Hc Hd.
    + rewrite lookup_insert_eq in Hc. injection Hc as ->.
      destruct (decide (d ∈ res)) as [?%Hres|Hr]; [tauto|].
      apply Hzero in Hz. assert (Hd' : d ∈ blockers info t); [|set_solver].
      apply elem_of_blockers, Hb. auto.
    + rewrite lookup_insert_ne in Hc; [eauto|]. intros <-. apply Hten. rewrite Hl. apply elem_of_middle_eq.
  - intros t' dp d Hc Hd. rewrite Hb, elem_of_app. destruct (decide (t' = t)) as [->|Hne].
    + rewrite lookup_insert_eq in Hc. injection Hc as ->.
      destruct (decide (d ∈ res)) as [Hr|Hr]; [apply Hres in Hr|]; tauto.
    + rewrite lookup_insert_ne in Hc by done. destruct (Hdp t' dp d Hc Hd); tauto.
  - by intros d ?%elem_of_nil.
  - by intros d ?%elem_of_nil.
  - constructor.
Qed.

Lemma commit_spec `{HashOrder} cl ext en st t deps ranges fk st' ready :
  commit t deps ranges fk st = Some (st', ready) ->
  cl !! t = None ->
  (forall d, d ∈ resolved_transactions st -> d ∈ ext \/ d ∈ en) ->
  graph_inv cl (resolved_transactions st) ext en [] [] (info_per_transaction st) ->
  resolved_transactions st' = resolved_transactions st /\
  graph_inv (<[t := deps]> cl) (resolved_transactions st) ext (en ++ (txn_id <$> ready)) [] []
    (info_per_transaction st') /\ committable ready.
Proof.
  unfold commit. destruct (forallb _ ranges) eqn:Hw; [done|].
  destruct (add_dependencies _ _ _ _ _ _) as [info n] eqn:Ha.
  intros [= <- <-] Hnew Hres Hg. cbn [resolved_transactions info_per_transaction].
  set (res := resolved_transactions st) in *. set (info0 := info_per_transaction st) in *.
  apply add_dependencies_spec in Ha as (Hn & Hb & Hs & Hk). rewrite Nat.add_0_l in Hn.
  set (un := unresolved res (hash_iter deps)) in *.
  set (e := set_participants ranges (set_num_dependencies n (entry t fk info))).
  assert (Hun : forall d, d ∈ un <-> d ∈ deps /\ d ∉ res).
  { intros d. unfold un, unresolved. rewrite list_elem_of_filter, hash_iter_elem_of. tauto. }
  assert (Hb' : forall d t', blocks (<[t := e]> info) d t' <->
                  blocks info0 d t' \/ (t' = t /\ d ∈ deps /\ d ∉ res)).
  { intros d t'. by rewrite (entry_blocks t fk), Hb, Hun. }
  assert (Hblt : blockers (<[t := e]> info) t = list_to_set un).
  { apply set_eq. intros d. rewrite elem_of_blockers, Hb', elem_of_list_to_set, Hun.
    split; [|tauto]. intros [Hbt|?]; [|tauto].
    destruct (g_blocks _ _ _ _ _ _ _ Hg d t Hbt) as (? & ? & _). congruence. }
  assert (Hec : tx_copies e <> []) by (by apply has_copies).
  assert (Heid : txn_id e = t).
  { unfold e, entry; cbn. destruct (info !! t) as [i|] eqn:Ei; [|done]. cbn.
    destruct (Hs t i Ei) as [-> _ _]. unfold entry.
    destruct (info0 !! t) eqn:E0; [|done]. by apply (g_id _ _ _ _ _ _ _ Hg). }
  split; [done|]. split.
  - replace (txn_id <$> (if decide (n = 0) then [e] else []))
      with (if decide (num_dependencies e = 0) then [t] else []).
    2:{ cbn. case_decide; [|done]. by rewrite <- Heid. }
    apply (graph_join cl res ext en info0); try done.
    + apply lookup_insert_eq.
    + rewrite Hblt, size_list_to_set; [done|]. apply NoDup_filter, hash_iter_NoDup.
    + intros t' i Hne. rewrite lookup_insert_ne by done. eauto.
    + intros t' Ht'. rewrite lookup_insert_is_Some'. right. by apply Hk.
  - intros tx. case_decide; [|by intros ?%elem_of_nil]. by intros ->%list_elem_of_singleton.
Qed.

(** ** The system invariant *)

(** every waiting client has a channel of its own that was not used *)
Record clients_ok (w : gmap Uuid positive) (cs : gmap positive oneshot) : Prop := {
  clients_inj t t' c : w !! t = Some c -> w !! t' = Some c -> t = t';
  clients_unsent t c : w !! t = Some c ->
    cs !! c = Some ChanOpen \/ cs !! c = Some ChanClosed
}.

Lemma clients_delete w cs t c o :
  w !! t = Some c -> clients_ok w cs -> clients_ok (delete t w) (<[c := o]> cs).
Proof.
  intros Ht [Hinj Hun]; constructor.
  - intros t1 t2 c' [_ H1]%lookup_delete_Some [_ H2]%lookup_delete_Some. eauto.
  - intros t' c' [Hne Hc]%lookup_delete_Some. rewrite lookup_insert_ne; [eauto|].
    intros ->. by apply Hne, (Hinj t t' c').
Qed.

Lemma notify_spec fin w cs w' cs' b :
  notify_finished fin w cs = (w', cs', b) -> clients_ok w cs ->
  clients_ok w' cs' /\ forall t, t ∉ fin -> w' !! t = w !! t.
Proof.
  revert w cs; induction fin as [|id fin IH]; intros w cs; cbn [notify_finished].
  { by intros [= <- <- <-]. }
  destruct (w !! id) as [c|] eqn:Ew; [|by intros [= <- <- <-]].
  intros Hn Hok. pose proof (clients_unsent _ _ Hok id c Ew) as Hc. unfold chan_send in Hn.
  assert (Hd : forall t, t ∉ id :: fin -> delete id w !! t = w !! t).
  { intros t [? _]%not_elem_of_cons. by rewrite lookup_delete_ne. }
  destruct Hc as [Hc|Hc]; rewrite Hc in Hn.
  - apply IH in Hn as [? Hw]; [|by apply clients_delete]. split; [done|].
    intros t Ht. rewrite Hw, Hd; [done..|]. by apply not_elem_of_cons in Ht as [_ ?].
  - injection Hn as <- <- <-. split; [|done].
    replace cs with (<[c := ChanClosed]> cs) by (by apply insert_id). by apply clients_delete.
Qed.

(** when every client still waits, each of them is woken *)
Lemma notify_all_woken fin w cs :
  clients_ok w cs -> NoDup fin ->
  (forall t, t ∈ fin -> exists c, w !! t = Some c /\ cs !! c = Some ChanOpen) ->
  exists w' cs', notify_finished fin w cs = (w', cs', true) /\
    (forall c, cs !! c = Some ChanSent -> cs' !! c = Some ChanSent) /\
    (forall t c, t ∈ fin -> w !! t = Some c -> cs' !! c = Some ChanSent).
Proof.
  revert w cs; induction fin as [|id fin IH]; intros w cs Hok Hnd Hal; cbn [notify_finished].
  { exists w, cs. split_and!; [done..|]. by intros ? ? ?%elem_of_nil. }
  apply NoDup_cons in Hnd as [Hni Hnd].
  destruct (Hal id) as (c & Hc & Ho); [by left|]. rewrite Hc. unfold chan_send. rewrite Ho.
  destruct (IH (delete id w) (<[c := ChanSent]> cs)) as (w' & cs' & Hn & Hkeep & Hsent).
  - by apply clients_delete.
  - done.
  - intros t Ht. destruct (Hal t) as (c' & Hc' & Ho'); [by right|].
    assert (t <> id) by (by intros ->). exists c'.
    rewrite lookup_delete_ne by done. split; [done|]. rewrite lookup_insert_ne; [done|].
    intros ->. by apply H, (clients_inj _ _ Hok t id c').
  - exists w', cs'. split_and!; [done| |].
    + intros c' Hs. apply Hkeep. destruct (decide (c = c')) as [<-|].
      * apply lookup_insert_eq.
      * by rewrite lookup_insert_ne.
    + intros t c' Ht Hw. apply elem_of_cons in Ht as [->|Ht].
      * rewrite Hc in Hw. injection Hw as <-. apply Hkeep, lookup_insert_eq.
      * apply (Hsent t); [done|]. rewrite lookup_delete_ne; [done|]. by intros ->.
Qed.

Lemma graph_external cl res ext ext' en info :
  ext ⊆ ext' -> graph_inv cl res ext en [] [] info -> graph_inv cl res ext' en [] [] info.
Proof.
  intros Hsub [Hid Hnum Hbl Hcl Hrd Hon Hor Hdp Hst Hrm Hrn]; constructor; try done.
  - intros l1 t l2 deps d Hl Hc Hd. destruct (Hor l1 t l2 deps d Hl Hc Hd); auto.
  - intros t deps d Hc Hd. destruct (Hdp t deps d Hc Hd) as [?|[?|?]]; auto.
  - by intros d ?%elem_of_nil.
Qed.

Section System.
Context `{GroupCommitter G}.

Record inv (c : Config G) : Prop := {
  inv_gc : gc_ok (gc c);
  inv_added id : id ∈ gc_added (gc c) <-> id ∈ enqueued c;
  inv_graph : graph_inv (called c) (resolved_transactions (rstate c)) (external c)
                (enqueued c) [] [] (info_per_transaction (rstate c));
  inv_resolved d : d ∈ resolved_transactions (rstate c) -> d ∈ external c \/ d ∈ enqueued c;
  inv_registering ids d : ids ∈ registering c -> d ∈ ids -> d ∈ external c \/ d ∈ enqueued c;
  inv_finished id : id ∈ gc_finished (gc c) -> id ∈ enqueued c;
  inv_waiting t : is_Some (called c !! t) -> t ∉ gc_finished (gc c) ->
    is_Some (waiting_transactions c !! t);
  inv_clients : clients_ok (waiting_transactions c) (chans c)
}.

Lemma hand_over_ok txs g g' en :
  gc_ok g -> (forall id, id ∈ gc_added g <-> id ∈ en) ->
  NoDup (en ++ (txn_id <$> txs)) -> committable txs -> hand_over txs g g' ->
  gc_ok g' /\ gc_finished g' = gc_finished g /\
  forall id, id ∈ gc_added g' <-> id ∈ en ++ (txn_id <$> txs).
Proof.
  intros Hok Hen (_ & Hdis & Hnd)%NoDup_app Hc. unfold hand_over. destruct txs as [|tx txs].
  - intros ->. rewrite app_nil_r. done.
  - intros Hadd. destruct (gc_add_ok _ _ _ Hok Hadd Hnd) as (? & ? & Hadded).
    { intros tx' Htx'. split; [by apply Hc|]. rewrite Hen. intros Hx.
      apply (Hdis _ Hx). by apply list_elem_of_fmap_2. }
    split_and!; [done..|]. intros id. by rewrite Hadded, elem_of_app, Hen.
Qed.

Lemma init_inv : inv init.
Proof.
  constructor; cbn.
  - apply gc_init_ok.
  - intros id. by rewrite gc_init_added.
  - constructor; try done; try (by intros ? ?%elem_of_nil); try constructor.
    + intros d t (i & Hi & _). by rewrite lookup_empty in Hi.
    + intros t [? Hi]. by rewrite lookup_empty in Hi.
    + by intros ?%elem_of_nil.
    + intros [[? Hi] _]. by rewrite lookup_empty in Hi.
  - set_solver.
  - by intros ids d ?%elem_of_nil.
  - intros id. by rewrite gc_init_finished.
  - intros t [? Hi]. by rewrite lookup_empty in Hi.
  - by constructor.
Qed.

Lemma commit_inv (order : HashOrder) st w cs g rg cl en ex id deps ranges fk st' ready g' :
  cl !! id = None -> commit id deps ranges fk st = Some (st', ready) -> hand_over ready g g' ->
  inv (mkConfig st w cs g rg cl en ex) ->
  inv (mkConfig st' (<[id := (chan_new cs).1]> w) (chan_new cs).2 g' rg
         (<[id := deps]> cl) (en ++ (txn_id <$> ready)) ex).
Proof.
  intros Hnew Hc Hh [Hgc Hadd Hg Hres Hreg Hfin Hw [Hinj Hun]]; cbn in *.
  destruct (commit_spec cl ex en _ _ _ _ _ _ _ Hc Hnew Hres Hg) as (Er & Hg' & Hcm).
  destruct (hand_over_ok ready g g' en Hgc Hadd (g_once _ _ _ _ _ _ _ Hg') Hcm Hh)
    as (? & Hf & ?).
  assert (Hfresh : cs !! chan_fresh cs = None) by apply chan_fresh_not_in.
  assert (Hnc : forall t c, w !! t = Some c -> c <> chan_fresh cs).
  { intros t c Hc' ->. destruct (Hun t _ Hc'); congruence. }
  constructor; cbn; rewrite ?Er, ?Hf; try done.
  - intros d Hd%Hres. rewrite elem_of_app. tauto.
  - intros ids d Hi Hd. rewrite elem_of_app. destruct (Hreg ids d Hi Hd); tauto.
  - intros t Ht. rewrite elem_of_app. left. by apply Hfin.
  - intros t Ht Hnf. destruct (decide (t = id)) as [->|Hne].
    + rewrite lookup_insert_eq. by eexists.
    + rewrite lookup_insert_ne in Ht by done. rewrite lookup_insert_ne by done. by apply Hw.
  - constructor.
    + intros t t' c. rewrite !lookup_insert_Some. naive_solver.
    + intros t c [[-> <-]|[Hne Ht]]%lookup_insert_Some.
      * rewrite lookup_insert_eq. by left.
      * rewrite lookup_insert_ne; [by eapply Hun|]. apply not_eq_sym. by eapply Hnc.
Qed.

Lemma register_inv (order : HashOrder) st w cs g rg1 rg2 cl en ex ids st' ready g' :
  register_committed_transactions ids st = Some (st', ready) -> hand_over ready g g' ->
  inv (mkConfig st w cs g (rg1 ++ ids :: rg2) cl en ex) ->
  inv (mkConfig st' w cs g' (rg1 ++ rg2) cl (en ++ (txn_id <$> ready)) ex).
Proof.
  intros Hr Hh [Hgc Hadd Hg Hres Hreg Hfin Hw Hcl]; cbn in *.
  destruct (register_spec cl ex en st ids Hg) as (st1 & ready1 & Hr' & Er & Hg' & Hcm).
  { intros d. apply Hreg, elem_of_middle_eq. }
  rewrite Hr in Hr'. injection Hr' as <- <-.
  destruct (hand_over_ok ready g g' en Hgc Hadd (g_once _ _ _ _ _ _ _ Hg') Hcm Hh)
    as (? & Hf & ?).
  constructor; cbn; rewrite ?Hf; try done.
  - intros d. rewrite Er, elem_of_union, elem_of_list_to_set, elem_of_app. intros [Hd|Hd%Hres].
    + destruct (Hreg ids d) as [?|?]; [apply elem_of_middle_eq|done|tauto..].
    + tauto.
  - intros ids' d Hi Hd. rewrite elem_of_app.
    destruct (Hreg ids' d); [by apply elem_of_middle|done|tauto..].
  - intros t Ht. rewrite elem_of_app. left. by apply Hfin.
Qed.
Lemma trigger_inv st w cs g rg rg' cl en ex fin w' cs' g' b :
  gc_finish fin g g' -> notify_finished (txn_id <$> fin) w cs = (w', cs', b) ->
  rg' = rg \/ rg' = (txn_id <$> fin) :: rg ->
  inv (mkConfig st w cs g rg cl en ex) -> inv (mkConfig st w' cs' g' rg' cl en ex).
Proof.
  intros Hf Hn Hrg [Hgc Hadd Hg Hres Hreg Hfin Hw Hcl]; cbn in *.
  destruct (gc_finish_ok _ _ _ Hgc Hf) as (? & Ea & Ef & _ & Hin).
  destruct (notify_spec _ _ _ _ _ _ Hn Hcl) as [? Hkeep].
  constructor; cbn; rewrite ?Ea, ?Ef; try done.
  - intros ids d Hi Hd. destruct Hrg as [->| ->]; [eauto|].
    apply elem_of_cons in Hi as [->|Hi]; [|eauto]. right. by apply Hadd, Hin.
  - intros id [?|?]%elem_of_app; [by apply Hfin|]. by apply Hadd, Hin.
  - intros t Ht [Hnf Hnt]%not_elem_of_app. rewrite Hkeep by done. by apply Hw.
Qed.

Lemma external_inv st w cs g rg cl en ex ids :
  inv (mkConfig st w cs g rg cl en ex) ->
  inv (mkConfig st w cs g (ids :: rg) cl en (list_to_set ids ∪ ex)).
Proof.
  intros [Hgc Hadd Hg Hres Hreg Hfin Hw Hcl]; cbn in *.
  assert (Hsub : ex ⊆ list_to_set ids ∪ ex) by apply union_subseteq_r.
  constructor; cbn; try done.
  - by apply (graph_external _ _ ex).
  - intros d [?|?]%Hres; auto.
  - intros ids' d [->|Hi]%elem_of_cons Hd.
    + left. rewrite elem_of_union, elem_of_list_to_set. by left.
    + destruct (Hreg ids' d Hi Hd); auto.
Qed.

Lemma internal_inv st w cs g rg cl en ex g' :
  gc_internal g g' ->
  inv (mkConfig st w cs g rg cl en ex) -> inv (mkConfig st w cs g' rg cl en ex).
Proof.
  intros Hi [Hgc Hadd Hg Hres Hreg Hfin Hw Hcl]; cbn in *.
  destruct (gc_internal_ok _ _ Hgc Hi) as (? & Ea & Ef).
  constructor; cbn; rewrite ?Ea, ?Ef; done.
Qed.

Lemma cancel_inv st w cs g rg cl en ex c :
  inv (mkConfig st w cs g rg cl en ex) -> inv (mkConfig st w (chan_drop c cs) g rg cl en ex).
Proof.
  intros [Hgc Hadd Hg Hres Hreg Hfin Hw [Hinj Hun]]; cbn in *.
  constructor; try done. cbn. constructor; [done|]. intros t c' Hc'.
  unfold chan_drop. destruct (cs !! c) as [[]|] eqn:E; [|by eauto..].
  destruct (decide (c = c')) as [<-|].
  - rewrite lookup_insert_eq. by right.
  - rewrite lookup_insert_ne by done. eauto.
Qed.

Lemma resolver_step_inv c c' : step c c' -> inv c -> inv c'.
Proof.
  destruct 1; eauto using commit_inv, register_inv, external_inv, internal_inv, cancel_inv.
  - eapply trigger_inv; [done..|]. case_decide; auto.
  - eapply trigger_inv; [done..|]. auto.
Qed.

Lemma resolver_reachable_inv c : reachable c -> inv c.
Proof. revert c; apply rtc_ind_r; [apply init_inv|]. eauto using resolver_step_inv. Qed.

(** ** Properties *)

(** C34: a call of [register_committed_transactions] in a reachable state
    terminates within the rounds its bound allows, and neither the lookup of a
    dependent nor the assertion on its count fails. *)
Theorem register_total (order : HashOrder) c ids :
  reachable c -> ids ∈ registering c ->
  exists st' ready, register_committed_transactions ids (rstate c) = Some (st', ready).
Proof.
  intros Hinv%resolver_reachable_inv Hids.
  destruct (register_spec _ _ _ (rstate c) ids (inv_graph _ Hinv)) as (st' & ready & Hr & _).
  - intros d. by apply (inv_registering _ Hinv).
  - eauto.
Qed.

(** C4: transactions are handed over to group commit after the transactions
    they depend on. Whatever operations are interleaved, every dependency of
    a handed over transaction was handed over before it, unless it was
    registered from outside, and no transaction is handed over twice. *)
Theorem dependencies_handed_over_first c l1 t l2 deps d :
  reachable c -> enqueued c = l1 ++ t :: l2 -> called c !! t = Some deps -> d ∈ deps ->
  (d ∈ l1 \/ d ∈ external c) /\ t ∉ l1 ++ l2.
Proof.
  intros Hinv%resolver_reachable_inv He Hc Hd. pose proof (inv_graph _ Hinv) as Hg. split.
  - exact (g_order _ _ _ _ _ _ _ Hg l1 t l2 deps d He Hc Hd).
  - pose proof (g_once _ _ _ _ _ _ _ Hg) as Hnd. rewrite He, <- Permutation_middle in Hnd.
    by apply NoDup_cons in Hnd as [? _].
Qed.

(** C13: no wakeup is lost. A transaction whose commit was requested and whose
    dependencies have all been registered as resolved has been handed over to
    group commit; one that has not been handed over waits for a dependency
    that is stored with it and is not resolved. *)
Theorem no_lost_wakeup c t deps :
  reachable c -> called c !! t = Some deps ->
  (deps ⊆ resolved_transactions (rstate c) -> t ∈ enqueued c) /\
  (t ∉ enqueued c -> exists d, d ∈ deps /\ d ∉ resolved_transactions (rstate c) /\
     blocks (info_per_transaction (rstate c)) d t).
Proof.
  intros Hinv%resolver_reachable_inv Hc. pose proof (inv_graph _ Hinv) as Hg.
  assert (Hblk : t ∉ enqueued c -> exists d, d ∈ deps /\ d ∉ resolved_transactions (rstate c) /\
             blocks (info_per_transaction (rstate c)) d t).
  { intros Hne. destruct (set_choose_or_empty (blockers (info_per_transaction (rstate c)) t))
      as [[d Hd]|He].
    - apply elem_of_blockers in Hd. exists d.
      destruct (g_blocks _ _ _ _ _ _ _ Hg d t Hd) as (dp & Hc' & Hin & Hr).
      rewrite Hc in Hc'. injection Hc' as <-. split_and!; [done| |done].
      by intros ?%Hr%elem_of_nil.
    - destruct Hne. apply (g_ready _ _ _ _ _ _ _ Hg). split_and!;
        [by eexists|by apply leibniz_equiv|apply not_elem_of_nil]. }
  split; [|done]. intros Hsub. destruct (decide (t ∈ enqueued c)) as [|Hne]; [done|].
  destruct (Hblk Hne) as (d & Hd & Hr & _). by apply Hsub in Hd.
Qed.

(** When group commit reports finished transactions whose clients still
    wait, each of those clients is woken and the transactions are queued to be
    registered. *)
Theorem finished_clients_woken c fin g' :
  reachable c -> gc_finish fin (gc c) g' ->
  (forall t ch, t ∈ txn_id <$> fin -> waiting_transactions c !! t = Some ch ->
     chans c !! ch <> Some ChanClosed) ->
  exists c', step c c' /\
    (forall t, t ∈ txn_id <$> fin -> exists ch,
       waiting_transactions c !! t = Some ch /\ chans c' !! ch = Some ChanSent) /\
    (fin <> [] -> (txn_id <$> fin) ∈ registering c').
Proof.
  intros Hinv%resolver_reachable_inv Hf Hal. destruct (gc_finish_ok _ _ _ (inv_gc _ Hinv) Hf)
    as (_ & _ & Ef & Hnd & Hin).
  rewrite Ef in Hnd. apply NoDup_app in Hnd as (_ & Hdis & Hnd).
  assert (Hwait : forall t, t ∈ txn_id <$> fin -> exists ch,
            waiting_transactions c !! t = Some ch /\ chans c !! ch = Some ChanOpen).
  { intros t Ht. destruct (inv_waiting _ Hinv t) as [ch Hch].
    - apply (g_ready _ _ _ _ _ _ _ (inv_graph _ Hinv)). by apply (inv_added _ Hinv), Hin.
    - intros Hx. by apply (Hdis t).
    - exists ch. split; [done|].
      destruct (clients_unsent _ _ (inv_clients _ Hinv) t ch Hch); [done|]. by destruct (Hal t ch). }
  destruct (notify_all_woken (txn_id <$> fin) _ _ (inv_clients _ Hinv) Hnd Hwait)
    as (w' & cs' & Hn & _ & Hsent).
  destruct c as [st w cs g rg cl en ex]; cbn in *.
  eexists. split; [by eapply step_trigger|]. cbn. split.
  - intros t Ht. destruct (Hwait t Ht) as (ch & Hch & _). eauto.
  - intros Hne. rewrite decide_False by done. by left.
Qed.

(** A client that gives up takes its whole batch down. If the client of
    the first transaction of a finished batch was cancelled, the call that
    should wake the clients panics: no client of the batch is woken and none
    of its transactions is queued to be registered, so the transactions that
    depend on them keep waiting. *)
Theorem cancelled_client_stalls_batch c tx fin g' ch :
  gc_finish (tx :: fin) (gc c) g' ->
  waiting_transactions c !! txn_id tx = Some ch -> chans c !! ch = Some ChanClosed ->
  exists c', step c c' /\ chans c' = chans c /\ registering c' = registering c /\
    rstate c' = rstate c /\ gc c' = g'.
Proof.
  intros Hf Hw Hc. destruct c as [st w cs g rg cl en ex]; cbn in *.
  eexists. split; [eapply step_trigger_panic; [exact Hf|]|done].
  cbn. rewrite Hw. unfold chan_send. by rewrite Hc.
Qed.
End System.

(** ** Group commit implements the interface *)

Lemma copies_of_ids txs id :
  (forall tx, tx ∈ txs -> tx_copies tx <> []) ->
  id ∈ (txs ≫= tx_copies).*2 <-> id ∈ txn_id <$> txs.
Proof.
  intros Hc. rewrite !list_elem_of_fmap. split.
  - intros (p & -> & Hp). apply list_elem_of_bind in Hp as (tx & Hp & Htx).
    apply list_elem_of_fmap in Hp as (? & -> & _). eauto.
  - intros (tx & -> & Htx). destruct (tx_copies tx) as [|p ps] eqn:E; [by destruct (Hc tx)|].
    assert (Hp : p ∈ tx_copies tx) by (rewrite E; by left).
    exists p. split; [by apply list_elem_of_fmap in Hp as (? & -> & _)|].
    apply list_elem_of_bind. eauto.
Qed.

#[refine] Instance group_committer : GroupCommitter GroupCommit.Config := {|
  gc_ok := GroupCommit.reachable;
  gc_init := GroupCommit.init;
  gc_added c := (added c).*2;
  gc_finished := finished;
  gc_add txs c c' := GroupCommit.step c c' /\ added c' = added c ++ (txs ≫= tx_copies) /\
                     finished c' = finished c;
  gc_finish txs c c' := GroupCommit.step c c' /\ added c' = added c /\
                        finished c' = finished c ++ (txn_id <$> txs);
  gc_internal c c' := GroupCommit.step c c' /\ added c' = added c /\ finished c' = finished c
|}.
Proof.
  - constructor.
  - done.
  - done.
  - intros txs g g' Hok (Hs & Ha & Hf) Hnd Hc. split_and!; [by eapply rtc_r|done|].
    intros id. rewrite Ha, fmap_app, elem_of_app, copies_of_ids; [done|].
    intros tx Htx. by apply Hc.
  - intros txs g g' Hok (Hs & Ha & Hf). assert (Hok' : GroupCommit.reachable g') by (by eapply rtc_r).
    pose proof (GroupCommit.reachable_inv _ Hok') as Hi.
    split_and!; [done..|by rewrite Ha|done|apply (inv_once _ Hi)|].
    intros id Hid. rewrite <- Ha. apply (GroupCommit.inv_finished _ Hi). rewrite Hf, elem_of_app. auto.
  - intros g g' Hok (Hs & Ha & Hf). split_and!; [by eapply rtc_r|by rewrite Ha|done].
Defined.

(** ** Witnesses: transaction 2 depends on transaction 1 *)

Definition sample_ranges : list ParticipantRangeInfo :=
  [mkParticipantRangeInfo sample_range true].

Definition sample_commit (t : Uuid) (deps : gset Uuid) (st : State) : State :=
  match commit (H := element_order) t deps sample_ranges false st with
  | Some (st', _) => st'
  | None => st
  end.
Definition sample_st : State := sample_commit 2 {[1%N]} (sample_commit 1 ∅ new).

(** the clients' channels after both commits *)
Definition sample_cs1 : gmap positive oneshot := (chan_new ∅).2.
Definition sample_w : gmap Uuid positive :=
  <[2%N := (chan_new sample_cs1).1]> (<[1%N := (chan_new ∅).1]> ∅).
Definition sample_cs : gmap positive oneshot := (chan_new sample_cs1).2.
Definition sample_called : gmap Uuid (gset Uuid) := <[2%N := {[1%N]}]> (<[1%N := ∅]> ∅).

Lemma internal_run st w cs g rg cl en ex (g' : GroupCommit.Config) :
  rtc gc_internal g g' ->
  rtc step (mkConfig st w cs g rg cl en ex) (mkConfig st w cs g' rg cl en ex).
Proof.
  induction 1; [constructor|]. eapply rtc_l; [by apply step_internal|done].
Qed.

(** group commit from the addition of transaction 1 to the return of the call
    that finishes it *)
Lemma sample_gc_run :
  exists g1 g2 g3, gc_add [sample_tx 1] GroupCommit.init g1 /\ rtc gc_internal g1 g2 /\
    gc_finish [sample_tx 1] g2 g3 /\ adding g3 = None.
Proof.
  assert (Hi : forall c c' : GroupCommit.Config, GroupCommit.step c c' ->
    added c' = added c -> finished c' = finished c -> gc_internal c c') by done.
  eexists _, _, _. split; [split_and!|split; [|split; [split_and!|]]].
  - eapply (GroupCommit.step_add _ _ _ _ _ _ _ _ [sample_tx 1]);
      [apply NoDup_singleton| |reflexivity|reflexivity].
    intros tx ->%list_elem_of_singleton. split; [done|]. apply not_elem_of_nil.
  - reflexivity.
  - reflexivity.
  - eapply rtc_l; [apply Hi; [apply step_count|reflexivity|reflexivity]|].
    eapply rtc_l.
    { apply Hi; [eapply (step_extend _ _ _ _ _ _ _ _ [] []); reflexivity|reflexivity|reflexivity]. }
    eapply rtc_l; [apply Hi; [apply step_mark|reflexivity|reflexivity]|].
    eapply rtc_l.
    { apply Hi; [eapply (step_take _ _ _ _ _ _ _ _ _ sample_range); reflexivity
                |reflexivity|reflexivity]. }
    eapply rtc_l.
    { apply Hi; [eapply (step_deliver _ _ [] [] _ _ _ _ _ _ _ _ true true); reflexivity
                |reflexivity|reflexivity]. }
    eapply rtc_l; [apply Hi; [apply step_take_returned|reflexivity|reflexivity]|].
    constructor.
  - eapply (step_collect _ _ _ [] []). vm_compute. reflexivity.
  - reflexivity.
  - reflexivity.
  - reflexivity.
Qed.

(** both commits requested, transaction 1 about to be reported *)
Lemma sample_requested :
  exists g g', reachable (mkConfig sample_st sample_w sample_cs g [] sample_called [1%N] ∅) /\
    gc_finish [sample_tx 1] g g' /\ adding g' = None.
Proof.
  destruct sample_gc_run as (g1 & g2 & g3 & Hadd & Hint & Hfin & Hnone).
  exists g2, g3. split_and!; [|done..].
  eapply rtc_l; [|eapply rtc_l; [|apply internal_run, Hint]].
  - apply (step_commit element_order new ∅ ∅ GroupCommit.init [] ∅ [] ∅ 1%N ∅ sample_ranges false
             (sample_commit 1 ∅ new) [sample_tx 1] g1);
      [reflexivity|vm_compute; reflexivity|exact Hadd].
  - apply (step_commit element_order (sample_commit 1 ∅ new) (<[1%N := (chan_new ∅).1]> ∅)
             sample_cs1 g1 [] (<[1%N := ∅]> ∅) [1%N] ∅ 2%N {[1%N]} sample_ranges false
             sample_st [] g1);
      [reflexivity|vm_compute; reflexivity|reflexivity].
Qed.

(** transaction 1 reported, its client woken, its registration spawned *)
Lemma sample_registering :
  exists g w cs, reachable (mkConfig sample_st w cs g [[1%N]] sample_called [1%N] ∅) /\
    adding g = None.
Proof.
  destruct sample_requested as (g & g' & Hr & Hf & Hnone).
  eexists g', _, _. split; [|done]. eapply rtc_r; [exact Hr|].
  apply (step_trigger _ _ _ _ [] _ _ _ [sample_tx 1]); [done|vm_compute; reflexivity].
Qed.

Lemma gc_add_enabled (g : GroupCommit.Config) txs :
  adding g = None -> NoDup (txn_id <$> txs) ->
  (forall tx, tx ∈ txs -> tx_copies tx <> [] /\ txn_id tx ∉ gc_added g) ->
  exists g', gc_add txs g g'.
Proof.
  intros Hnone Hnd Hf. destruct g as [st ad ts cs a d l f evs]; cbn in *; subst.
  destruct (group_transactions txs ∅ ∅) as [gr n] eqn:E.
  eexists. split_and!; [by eapply (GroupCommit.step_add _ _ _ _ _ _ _ _ txs gr n)|done|done].
Qed.

(** transaction 2 handed over after the registration of transaction 1 *)
Definition sample_registered : option (State * list TransactionInfo) :=
  register_committed_transactions (H := element_order) [1%N] sample_st.

Lemma sample_handed_over :
  exists st g w cs, reachable (mkConfig st w cs g [] sample_called [1%N; 2%N] ∅).
Proof.
  destruct sample_registering as (g & w & cs & Hr & Hnone).
  destruct sample_registered as [[st ready]|] eqn:E; [|by vm_compute in E].
  assert (Hready : ready = [sample_tx 2]) by (vm_compute in E; injection E as _ <-; reflexivity).
  subst ready.
  destruct (gc_add_enabled g [sample_tx 2] Hnone) as [g' Hg'].
  { apply NoDup_singleton. }
  { intros tx ->%list_elem_of_singleton. split; [done|].
    rewrite (inv_added _ (resolver_reachable_inv _ Hr)). by_decision. }
  exists st, g', w, cs. eapply rtc_r; [exact Hr|].
  by apply (step_register element_order _ _ _ _ [] [] _ [1%N] _ [1%N] st [sample_tx 2]).
Qed.

Lemma register_total_witness :
  exists st' ready,
    register_committed_transactions (H := element_order) [1%N] sample_st = Some (st', ready).
Proof.
  destruct sample_registering as (g & w & cs & Hr & _).
  apply (register_total element_order _ [1%N] Hr). left.
Defined.

Lemma dependencies_handed_over_first_witness :
  exists c : Config GroupCommit.Config, reachable c /\ enqueued c = [1%N] ++ 2%N :: [] /\
    (1%N ∈ [1%N] \/ 1%N ∈ external c) /\ 2%N ∉ [1%N] ++ [].
Proof.
  destruct sample_handed_over as (st & g & w & cs & Hr).
  eexists. split; [exact Hr|]. split; [reflexivity|].
  apply (dependencies_handed_over_first _ [1%N] 2%N [] {[1%N]} 1%N Hr); [done|done|set_solver].
Defined.

Lemma no_lost_wakeup_witness :
  exists d, d ∈ ({[1%N]} : gset Uuid) /\ d ∉ resolved_transactions sample_st /\
    blocks (info_per_transaction sample_st) d 2.
Proof.
  destruct sample_requested as (g & g' & Hr & _).
  apply (no_lost_wakeup _ 2%N {[1%N]} Hr); [done|]. by_decision.
Defined.

Lemma finished_clients_woken_witness :
  exists c c' : Config GroupCommit.Config, step c c' /\ [1%N] ∈ registering c'.
Proof.
  destruct sample_requested as (g & g' & Hr & Hf & _).
  destruct (finished_clients_woken _ [sample_tx 1] g' Hr Hf) as (c' & Hs & _ & Hreg).
  - intros t ch ->%list_elem_of_singleton [= <-]. vm_compute. discriminate.
  - eexists _, c'. split; [exact Hs|]. by apply Hreg.
Defined.

(** the client of transaction 1 is cancelled before the report *)
Lemma cancelled_client_stalls_batch_witness :
  exists c c' : Config GroupCommit.Config, reachable c /\ step c c' /\ registering c' = [].
Proof.
  destruct sample_requested as (g & g' & Hr & Hf & _).
  eexists (mkConfig sample_st sample_w (chan_drop 1 sample_cs) g [] sample_called [1%N] ∅).
  destruct (cancelled_client_stalls_batch
    (mkConfig sample_st sample_w (chan_drop 1 sample_cs) g [] sample_called [1%N] ∅)
    (sample_tx 1) [] g' 1%positive Hf) as (c' & Hs & _ & Hreg & _).
  - vm_compute. reflexivity.
  - vm_compute. reflexivity.
  - exists c'. split_and!; [|exact Hs|exact Hreg].
    eapply rtc_r; [exact Hr|]. apply step_cancel.
Defined.

End Resolver.
