(* ===== verification/Overtaking.v ===== *)
(** * A group that overtakes another, from the clients to the range

    The resolver hands a transaction over after those it depends on
    ([Resolver.dependencies_handed_over_first]), but it takes a dependency for
    resolved as soon as it has handed it over, not when it is committed: a
    transaction with two dependencies is handed over alone when the second of
    them is resolved, while the group of the first may still be on its way. Here
    such a run is composed with the range at which the transactions conflict. *)

From stdpp Require Import base tactics list numbers option gmap sets relations.
From S2P Require Import Prelude Common Storage RsError Wal RangeManager GroupCommit Pipeline Resolver.

Module Overtaking.
Import Common RangeManager.RangeManager.

#[local] Existing Instance RangeManager.sample_storage.
#[local] Existing Instance RangeManager.sample_log.
#[local] Existing Instance element_order.
#[local] Existing Instance Resolver.group_committer.

(** ** The range: four transactions prepare

    Transaction 9 overwrites a key of transaction 7, and transaction 10 a key of
    9 and one of 8. *)

Definition put (id : Uuid) (kvs : list (Bytes * Bytes)) (rm : Sample) :=
  prepare (mkTransactionInfo id 0 1000) 0 0 (mkPrepareRequest (Some kvs) None false sample_load 0 [1%N])
    sample_contention rm.

Definition after_7 := put 7 [([3%N], [70%N])] sample_loaded.
Definition after_8 := put 8 [([2%N], [80%N])] after_7.1.
Definition after_9 := put 9 [([1%N], [90%N]); ([3%N], [91%N])] after_8.1.
Definition after_10 := put 10 [([1%N], [100%N]); ([2%N], [101%N])] after_9.1.

(** what the range has reported to the coordinator of a transaction *)
Definition reported (c : Sample * option (result RsError.Error PrepareResult)) : gset Uuid :=
  list_to_set (dependencies (Pipeline.result_of c)).

(** commits that reach the range one after the other, all of them acknowledged *)
Fixpoint commits (calls : list (list Uuid)) (rm : Sample) : option Sample :=
  match calls with
  | [] => Some rm
  | ids :: calls' =>
      match commit ids Pipeline.now_commit 0 rm with
      | (rm', Some (Ok _)) => commits calls' rm'
      | _ => None
      end
  end.

(** the commits of group commit at a range, as the range acknowledges them *)
Definition range_commits (r : FullRangeId) (evs : list GroupCommit.Event) : list (list Uuid) :=
  omap (fun e => match e with
                 | GroupCommit.CommitTransactions r' ids true => if decide (r' = r) then Some ids else None
                 | _ => None
                 end) evs.

(** ** The resolver *)

Definition ranges : list GroupCommit.ParticipantRangeInfo :=
  [GroupCommit.mkParticipantRangeInfo Storage.sample_range true].
Definition request (id : Uuid) (deps : gset Uuid) (st : Resolver.State) : Resolver.State :=
  default st (fst <$> Resolver.commit id deps ranges false st).
Definition register (ids : list Uuid) (st : Resolver.State) : Resolver.State * list GroupCommit.TransactionInfo :=
  default (st, []) (Resolver.register_committed_transactions ids st).

(** the commits of 9 and 10 are requested; then 7, and then 8, are registered by
    their coordinators *)
Definition requested : Resolver.State :=
  request 10 (reported after_10) (request 9 (reported after_9) Resolver.new).
Definition registered_7 := register [7%N] requested.
Definition registered_8 := register [8%N] registered_7.1.

Lemma internal (g g' : GroupCommit.Config) :
  GroupCommit.step g g' -> GroupCommit.added g' = GroupCommit.added g ->
  GroupCommit.finished g' = GroupCommit.finished g -> Resolver.gc_internal g g'.
Proof. done. Qed.

(** ** Group commit: the groups of 9 and 10 are taken one after the other *)

Definition tx9 : GroupCommit.TransactionInfo := GroupCommit.mkTransactionInfo 9 0 {[10%N]} ranges false.
Definition tx10 : GroupCommit.TransactionInfo := GroupCommit.mkTransactionInfo 10 0 ∅ ranges false.

#[local] Notation at_range id := (Storage.sample_range, id%N) (only parsing).

(** the additions and the calls of the run: the task of 10 is the first to reach
    the store and the range *)
Definition calls (id : Uuid) : list GroupCommit.Event :=
  [GroupCommit.TryBatchCommit [id] true; GroupCommit.CommitTransactions Storage.sample_range [id] true].
Definition log : list GroupCommit.Event :=
  [GroupCommit.Added [tx9]] ++ [GroupCommit.Added [tx10]] ++ calls 10 ++ calls 9.

Definition taken (tx : GroupCommit.TransactionInfo) (st : GroupCommit.State) : GroupCommit.State :=
  default st (fst <$> GroupCommit.take_group Storage.sample_range (GroupCommit.add_transactions [tx] st)).
Definition in_flight_9 : GroupCommit.Config :=
  GroupCommit.mkConfig (taken tx9 GroupCommit.new) None [(Storage.sample_range, [tx9])] []
    [at_range 9] [] [] [] [GroupCommit.Added [tx9]].

#[local] Ltac gc_internal tac :=
  eapply rtc_l; [apply internal; [tac|reflexivity|reflexivity]|].

Lemma first_group :
  exists g, Resolver.gc_add [tx9] GroupCommit.init g /\ rtc Resolver.gc_internal g in_flight_9.
Proof.
  eexists. split; [split_and!|].
  - eapply (GroupCommit.step_add _ _ _ _ _ _ _ _ [tx9]); [apply NoDup_singleton| |reflexivity|reflexivity].
    intros tx ->%list_elem_of_singleton. split; [done|]. apply not_elem_of_nil.
  - reflexivity.
  - reflexivity.
  - gc_internal ltac:(apply GroupCommit.step_count).
    gc_internal ltac:(eapply (GroupCommit.step_extend _ _ _ _ _ _ _ _ [] []); reflexivity).
    gc_internal ltac:(apply GroupCommit.step_mark).
    apply rtc_once, internal; [|reflexivity|reflexivity].
    apply GroupCommit.step_take. vm_compute. reflexivity.
Qed.

Lemma second_group :
  exists g g', Resolver.gc_add [tx10] in_flight_9 g /\ rtc Resolver.gc_internal g g' /\
    GroupCommit.events g' = log.
Proof.
  eexists _, _. split; [split_and!|split].
  - eapply (GroupCommit.step_add _ _ _ _ _ _ _ _ [tx10]); [apply NoDup_singleton| |reflexivity|reflexivity].
    intros tx ->%list_elem_of_singleton. split; [done|]. by_decision.
  - reflexivity.
  - reflexivity.
  - gc_internal ltac:(apply GroupCommit.step_count).
    gc_internal ltac:(eapply (GroupCommit.step_extend _ _ _ _ _ _ _ _ [] []); vm_compute; reflexivity).
    gc_internal ltac:(apply GroupCommit.step_mark).
    gc_internal ltac:(eapply (GroupCommit.step_take _ _ _ _ _ _ _ _ _ Storage.sample_range); vm_compute; reflexivity).
    gc_internal ltac:(eapply (GroupCommit.step_deliver _ _ [] _ _ _ _ _ _ _ _ _ true true); reflexivity).
    gc_internal ltac:(eapply (GroupCommit.step_deliver _ _ [] [] _ _ _ _ _ _ _ _ true true); reflexivity).
    constructor.
  - reflexivity.
Qed.

(** ** The run *)

Lemma resolver_run :
  exists c : Resolver.Config GroupCommit.Config, Resolver.reachable c /\
    Resolver.called c = {[9%N := reported after_9; 10%N := reported after_10]} /\
    Resolver.enqueued c = [9%N; 10%N] /\ GroupCommit.events (Resolver.gc c) = log.
Proof.
  destruct first_group as (g1 & Ha1 & Hi1). destruct second_group as (g2 & g3 & Ha2 & Hi2 & Hlog).
  eexists. split.
  - eapply rtc_l.
    { apply (Resolver.step_commit element_order Resolver.new ∅ ∅ GroupCommit.init [] ∅ [] ∅ 9%N
        (reported after_9) ranges false (request 9 (reported after_9) Resolver.new) [] GroupCommit.init);
        [reflexivity|vm_compute; reflexivity|reflexivity]. }
    eapply rtc_l.
    { eapply (Resolver.step_commit element_order _ _ _ _ _ _ _ _ 10%N (reported after_10) ranges false requested []);
        [reflexivity|vm_compute; reflexivity|reflexivity]. }
    eapply rtc_l; [apply (Resolver.step_external _ _ _ _ _ _ _ _ [7%N])|].
    eapply rtc_l; [apply (Resolver.step_external _ _ _ _ _ _ _ _ [8%N])|].
    eapply rtc_l.
    { apply (Resolver.step_register element_order _ _ _ _ [[8%N]] [] _ _ _ [7%N] registered_7.1 [tx9] g1);
        [vm_compute; reflexivity|exact Ha1]. }
    etransitivity; [apply Resolver.internal_run, Hi1|].
    eapply rtc_l.
    { apply (Resolver.step_register element_order _ _ _ _ [] [] _ _ _ [8%N] registered_8.1 [tx10] g2);
        [vm_compute; reflexivity|exact Ha2]. }
    apply Resolver.internal_run, Hi2.
  - split_and!; [|reflexivity|exact Hlog]. cbn. rewrite <- insert_empty. apply insert_insert_ne. done.
Qed.

(** C38: a write is lost when a group overtakes another, and the resolver does not
    prevent it. There is a run of the resolver and of group commit in which
    transaction 10 depends on 9, as the range has reported when it prepared, and
    is handed over after it; the range is asked to commit 10 before 9, and
    acknowledges both. Before these commits the range shows the value of 10, the
    last writer of the key; after them it shows and stores the value of 9. *)
Theorem overtaken_group_loses_write :
  exists (c : Resolver.Config GroupCommit.Config) rm rm',
    Resolver.reachable c /\
    Resolver.called c = {[9%N := reported after_9; 10%N := reported after_10]} /\
    9%N ∈ reported after_10 /\ Resolver.enqueued c = [9%N; 10%N] /\
    range_commits Storage.sample_range (GroupCommit.events (Resolver.gc c)) = [[10%N]; [9%N]] /\
    commits [[7%N]; [8%N]] after_10.1 = Some rm /\
    commits (range_commits Storage.sample_range (GroupCommit.events (Resolver.gc c))) rm = Some rm' /\
    view rm [1%N] = Some [100%N] /\ view rm' [1%N] = Some [90%N] /\ stored rm' [1%N] = Some [90%N].
Proof.
  destruct resolver_run as (c & Hr & Hc & He & Hlog).
  destruct (commits [[7%N]; [8%N]] after_10.1) as [rm|] eqn:Erm; [|by vm_compute in Erm].
  destruct (commits [[10%N]; [9%N]] rm) as [rm'|] eqn:Erm'.
  2:{ exfalso. vm_compute in Erm. injection Erm as <-. by vm_compute in Erm'. }
  exists c, rm, rm'. rewrite Hlog.
  split_and!; [done|done|by_decision|done|reflexivity|done|exact Erm'|..];
    vm_compute in Erm; injection Erm as <-; vm_compute in Erm'; injection Erm' as <-; vm_compute; reflexivity.
Qed.

End Overtaking.
