(* ===== verification/TxStateStore.v ===== *)
(** * The transaction state store: [src/tx_state_store/src/storage.rs],
      [src/tx_state_store/src/storage/cassandra.rs] and
      [src/tx_state_store/src/client.rs]

    The table [transactions] holds the decision on every transaction. The
    statements on it are the operations of [TxSession], with what Cassandra
    documents of a statement that was executed; a statement that fails may or
    may not have been executed. The client forwards to the storage. *)

From stdpp Require Import base tactics list numbers option gmap.
From S2P Require Import Prelude Common Storage.

Module TxStateStore.
Import Common.

Inductive Error := Timeout | InternalError.

(** [TransactionIsCommitted] carries the [CommitInfo] *)
Inductive OpResult :=
| TransactionIsAborted
| TransactionIsCommitted (epoch : Z).

(** ** The table [transactions] *)

Inductive status := Started | Committed | Aborted.
#[global] Instance status_eq_dec : EqDecision status.
Proof. solve_decision. Defined.

(** a column that was never written is null *)
Record TxRow := mkTxRow { row_status : option status; row_epoch : option Z }.

Definition scylla_query_error_to_storage_error (qe : Storage.QueryError) : Error :=
  match qe with
  | Storage.TimeoutError | Storage.WriteTimeout => Timeout
  | Storage.OtherError => InternalError
  end.

(** whether [IF status IN ('started', 'aborted')] holds *)
Definition abortable (row : option TxRow) : bool :=
  match row with
  | Some (mkTxRow (Some Started) _) | Some (mkTxRow (Some Aborted) _) => true
  | _ => false
  end.

Definition abort_row (id : Uuid) (m : gmap Uuid TxRow) : gmap Uuid TxRow :=
  if abortable (m !! id) then alter (fun row => mkTxRow (Some Aborted) (row_epoch row)) id m else m.

(** a statement that succeeded was executed; one that failed may have been *)
Definition executed {A} (r : result Storage.QueryError A) (m m' : gmap Uuid TxRow)
    (effect : gmap Uuid TxRow -> gmap Uuid TxRow) : Prop :=
  match r with
  | Ok _ => m' = effect m
  | _ => m' = effect m \/ m' = m
  end.

Class TxSession (DB : Type) : Type := {
  tx_rows : DB -> gmap Uuid TxRow;
  (* START_TRANSACTION_QUERY *)
  insert_if_not_exists : Uuid -> DB -> DB * result Storage.QueryError unit;
  (* a batch of COMMIT_TRANSACTION_QUERYs: an update inserts a missing row *)
  update_committed : list (Z * Uuid) -> DB -> DB * result Storage.QueryError unit;
  (* ABORT_TRANSACTION_QUERY: the [applied] columns of the answer *)
  update_aborted_if : Uuid -> DB -> DB * result Storage.QueryError (option (list bool));
  (* GET_COMMIT_EPOCH_QUERY *)
  select_epoch : Uuid -> DB -> result Storage.QueryError (option (list (option Z)));
  insert_ok id db db' r :
    insert_if_not_exists id db = (db', r) ->
    executed r (tx_rows db) (tx_rows db')
      (fun m => match m !! id with
                | Some _ => m
                | None => <[id := mkTxRow (Some Started) None]> m
                end);
  commit_ok args db db' r :
    update_committed args db = (db', r) ->
    executed r (tx_rows db) (tx_rows db')
      (fun m => foldl (fun m '(e, id) => <[id := mkTxRow (Some Committed) (Some e)]> m) m args);
  abort_ok id db db' r :
    update_aborted_if id db = (db', r) ->
    executed r (tx_rows db) (tx_rows db') (abort_row id) /\
    (forall rows, r = Ok rows -> rows = Some [abortable (tx_rows db !! id)]);
  select_ok id db rows :
    select_epoch id db = Ok rows ->
    rows = Some (match tx_rows db !! id with
                 | Some (mkTxRow (Some Committed) e) => [e]
                 | _ => []
                 end);
  no_panic :
    (forall id db, (insert_if_not_exists id db).2 <> Panic) /\
    (forall args db, (update_committed args db).2 <> Panic) /\
    (forall id db, (update_aborted_if id db).2 <> Panic) /\
    (forall id db, select_epoch id db <> Panic)
}.

(** ** Operations *)

Section Operations.
Context `{TxSession DB}.

Definition map_err {A} (r : result Storage.QueryError A) : result Error A :=
  match r with
  | Ok a => Ok a
  | Err e => Err (scylla_query_error_to_storage_error e)
  | Panic => Panic
  end.

Definition start_transaction (transaction_id : Uuid) (db : DB) : DB * result Error unit :=
  let (db', r) := insert_if_not_exists transaction_id db in (db', map_err r).

Definition maybe_get_commit_epoch (transaction_id : Uuid) (db : DB) : result Error OpResult :=
  match map_err (select_epoch transaction_id db) with
  | Ok None | Ok (Some []) => Ok TransactionIsAborted
  | Ok (Some [Some e]) => Ok (TransactionIsCommitted (wrap_u64 e))
  | Ok (Some _) => Panic   (* several rows, or a null epoch *)
  | Err e => Err e
  | Panic => Panic
  end.

Definition commit_transaction (transaction_id : Uuid) (epoch : Z) (db : DB)
    : DB * result Error OpResult :=
  let (db', r) := update_committed [(as_i64 epoch, transaction_id)] db in
  (db', match map_err r with
        | Ok _ => Ok (TransactionIsCommitted epoch)
        | Err e => Err e
        | Panic => Panic
        end).

Definition batch_commit_transactions (transaction_ids : list Uuid) (epoch : Z) (db : DB)
    : DB * result Error OpResult :=
  let (db', r) := update_committed ((fun id => (as_i64 epoch, id)) <$> transaction_ids) db in
  (db', match map_err r with
        | Ok _ => Ok (TransactionIsCommitted epoch)
        | Err e => Err e
        | Panic => Panic
        end).

Definition abort_transaction (transaction_id : Uuid) (db : DB) : DB * result Error OpResult :=
  let (db', r) := update_aborted_if transaction_id db in
  (db', match map_err r with
        | Ok (Some [true]) => Ok TransactionIsAborted
        | Ok (Some [false]) => maybe_get_commit_epoch transaction_id db'
        | Ok _ => Panic
        | Err e => Err e
        | Panic => Panic
        end).

(** the client *)
Definition try_abort_transaction (id : Uuid) (db : DB) : DB * result Error OpResult :=
  abort_transaction id db.
Definition try_commit_transaction (id : Uuid) (epoch : Z) (db : DB) : DB * result Error OpResult :=
  commit_transaction id epoch db.
Definition try_batch_commit_transactions (transaction_ids : list Uuid) (epoch : Z) (db : DB)
    : DB * result Error OpResult :=
  batch_commit_transactions transaction_ids epoch db.

(** ** The decision on a transaction *)

(** what the table says: [None] when it is open, aborted or unknown, and the
    epoch when it is committed *)
Definition decided (m : gmap Uuid TxRow) (id : Uuid) : option (option Z) :=
  match m !! id with
  | Some (mkTxRow (Some Committed) e) => Some e
  | _ => None
  end.
Definition committed_epoch (db : DB) (id : Uuid) : option (option Z) := decided (tx_rows db) id.

Lemma abort_row_decided m id id' : decided (abort_row id m) id' = decided m id'.
Proof.
  unfold abort_row, decided. destruct (decide (id = id')) as [<-|Hne].
  - unfold abortable. destruct (m !! id) as [[[[]|] e]|] eqn:E; rewrite ?lookup_alter_eq, ?E; done.
  - destruct (abortable (m !! id)); [|done]. by rewrite lookup_alter_ne.
Qed.

(** the decisions after a batch of commits *)
Lemma batch_decisions args m id :
  (foldl (fun m '(e, i) => <[i := mkTxRow (Some Committed) (Some e)]> m) m args :
    gmap Uuid TxRow) !! id =
  match last (filter (fun p => p.2 = id) args) with
  | Some (e, _) => Some (mkTxRow (Some Committed) (Some e))
  | None => m !! id
  end.
Proof.
  revert m; induction args as [|[e i] args IH] using rev_ind; intros m; [done|].
  rewrite foldl_app, filter_app. cbn [foldl]. destruct (decide (i = id)) as [->|Hne].
  - rewrite lookup_insert_eq, filter_cons, decide_True by done.
    by rewrite filter_nil, last_snoc.
  - rewrite lookup_insert_ne, filter_cons, decide_False by done.
    rewrite filter_nil, app_nil_r. apply IH.
Qed.

(** the operations of all clients of the table, in any order; a statement that
    failed was executed or was not *)
Inductive tx_step : DB -> DB -> Prop :=
| step_start id db : tx_step db (start_transaction id db).1
| step_commit ids e db : tx_step db (batch_commit_transactions ids e db).1
| step_commit_one id e db : tx_step db (commit_transaction id e db).1
| step_abort id db : tx_step db (abort_transaction id db).1.

Lemma step_decided db db' id : tx_step db db' ->
  is_Some (committed_epoch db id) -> is_Some (committed_epoch db' id).
Proof.
  assert (Hex : forall {A} (r : result Storage.QueryError A) m m' eff, executed r m m' eff ->
            is_Some (decided (eff m) id) -> is_Some (decided m id) -> is_Some (decided m' id))
    by (intros A [] m m' eff; cbn; [intros ->|intros [-> | ->]..]; done).
  unfold committed_epoch. destruct 1; intros Hd.
  - unfold start_transaction. destruct (insert_if_not_exists _ _) as [db' r] eqn:E. cbn.
    eapply Hex; [by eapply insert_ok| |done]. unfold decided in *.
    destruct (tx_rows db !! id0) as [row|] eqn:E0; [done|].
    rewrite lookup_insert_ne; [done|]. intros ->. rewrite E0 in Hd. by destruct Hd.
  - unfold batch_commit_transactions. destruct (update_committed _ _) as [db' r] eqn:E. cbn.
    eapply Hex; [by eapply commit_ok| |done]. unfold decided. rewrite batch_decisions.
    destruct (last _) as [[]|]; [by eexists|done].
  - unfold commit_transaction. destruct (update_committed _ _) as [db' r] eqn:E. cbn.
    eapply Hex; [by eapply commit_ok| |done]. unfold decided. rewrite batch_decisions.
    destruct (last _) as [[]|]; [by eexists|done].
  - unfold abort_transaction. destruct (update_aborted_if _ _) as [db' r] eqn:E. cbn.
    eapply Hex; [by eapply abort_ok| |done]. by rewrite abort_row_decided.
Qed.

(** what the attempt to abort answers *)
Lemma abort_answer id db db' res :
  try_abort_transaction id db = (db', Ok res) ->
  tx_rows db' = abort_row id (tx_rows db) /\
  match res with
  | TransactionIsCommitted e => exists z, committed_epoch db id = Some (Some z) /\ e = wrap_u64 z
  | TransactionIsAborted => committed_epoch db id = None
  end.
Proof.
  unfold try_abort_transaction, abort_transaction, committed_epoch.
  destruct (update_aborted_if id db) as [db1 [rows|e|]] eqn:Hu; cbn; [|done..].
  destruct (abort_ok _ _ _ _ Hu) as [Hrows Ha]. cbn in Hrows. rewrite (Ha _ eq_refl).
  destruct (abortable (tx_rows db !! id)) eqn:Hab; intros [= <- Hres]; (split; [done|]).
  - subst res. unfold decided, abortable in *. by destruct (tx_rows db !! id) as [[[[]|] e]|].
  - unfold maybe_get_commit_epoch in Hres.
    destruct (select_epoch id db1) as [sel|e|] eqn:Hs; cbn in Hres; [|done..].
    apply select_ok in Hs. subst sel. rewrite Hrows in Hres. unfold abort_row in Hres.
    rewrite Hab in Hres. unfold decided.
    destruct (tx_rows db !! id) as [[[[]|] [z|]]|]; cbn in Hres; simplify_eq; eauto.
Qed.

(** what the attempt to commit does when it succeeds *)
Lemma commit_answer id epoch db db' res :
  try_commit_transaction id epoch db = (db', Ok res) ->
  res = TransactionIsCommitted epoch /\ committed_epoch db' id = Some (Some (as_i64 epoch)).
Proof.
  unfold try_commit_transaction, commit_transaction, committed_epoch, decided.
  destruct (update_committed _ db) as [db1 [u|e|]] eqn:E; intros [= <- <-]. split; [done|].
  apply commit_ok in E. cbn in E. by rewrite E, lookup_insert_eq.
Qed.

Lemma steps_decided db db' id : rtc tx_step db db' ->
  is_Some (committed_epoch db id) -> is_Some (committed_epoch db' id).
Proof. induction 1; eauto using step_decided. Qed.

(** ** Properties *)

(** C28: the decision to commit is permanent. Once the table says that a
    transaction is committed, it does so after any further operations of any
    clients, whether their statements succeed or fail; an attempt to abort the
    transaction that returns answers that it is committed, with the epoch of the
    table; and the answer that a transaction is aborted is only given while it
    is not committed. *)
Theorem commit_is_permanent id db db1 db2 res :
  is_Some (committed_epoch db id) -> rtc tx_step db db1 ->
  try_abort_transaction id db1 = (db2, Ok res) ->
  exists z, committed_epoch db1 id = Some (Some z) /\ committed_epoch db2 id = Some (Some z) /\
  res = TransactionIsCommitted (wrap_u64 z).
Proof.
  intros Hd Hsteps Ha.
  assert (Hd1 : is_Some (committed_epoch db1 id)) by (by eapply steps_decided).
  destruct (abort_answer _ _ _ _ Ha) as [Hrows Hres]. destruct res as [|e].
  - rewrite Hres in Hd1. by destruct Hd1.
  - destruct Hres as (z & Hz & ->). exists z. split_and!; [done| |done].
    unfold committed_epoch in *. by rewrite Hrows, abort_row_decided.
Qed.

(** A commit overrides an abort. The client documents that a transaction
    that has aborted cannot be committed; but after an attempt to abort has
    answered that the transaction is aborted, an attempt to commit it whose
    statement is executed answers that it is committed, at the given epoch, and
    so does every later attempt to abort it. *)
Theorem commit_overrides_abort id epoch db db1 db2 :
  try_abort_transaction id db = (db1, Ok TransactionIsAborted) ->
  update_committed [(as_i64 epoch, id)] db1 = (db2, Ok tt) ->
  committed_epoch db1 id = None /\
  try_commit_transaction id epoch db1 = (db2, Ok (TransactionIsCommitted epoch)) /\
  committed_epoch db2 id = Some (Some (as_i64 epoch)) /\
  (forall db3 res, try_abort_transaction id db2 = (db3, Ok res) ->
   res = TransactionIsCommitted (wrap_u64 (as_i64 epoch))).
Proof.
  intros Ha Hu. destruct (abort_answer _ _ _ _ Ha) as [Hrows Hres].
  assert (Hc : try_commit_transaction id epoch db1 = (db2, Ok (TransactionIsCommitted epoch)))
    by (unfold try_commit_transaction, commit_transaction; by rewrite Hu).
  destruct (commit_answer _ _ _ _ _ Hc) as [_ Hid]. split_and!; [|done|done|].
  - unfold committed_epoch in *. by rewrite Hrows, abort_row_decided.
  - intros db3 res Ha3. destruct (abort_answer _ _ _ _ Ha3) as [_ Hres3].
    destruct res; [congruence|]. destruct Hres3 as (z & Hz & ->). congruence.
Qed.
End Operations.

(** ** A table in memory, and witnesses *)

#[refine] Instance table_session : TxSession (gmap Uuid TxRow) := {|
  tx_rows m := m;
  insert_if_not_exists id m :=
    (match m !! id with
     | Some _ => m
     | None => <[id := mkTxRow (Some Started) None]> m
     end, Ok tt);
  update_committed args m :=
    (foldl (fun m '(e, id) => <[id := mkTxRow (Some Committed) (Some e)]> m) m args, Ok tt);
  update_aborted_if id m := (abort_row id m, Ok (Some [abortable (m !! id)]));
  select_epoch id m := Ok (Some (match m !! id with
                                 | Some (mkTxRow (Some Committed) e) => [e]
                                 | _ => []
                                 end))
|}.
Proof.
  - by intros id db db' r [= <- <-].
  - by intros args db db' r [= <- <-].
  - intros id db db' r [= <- <-]. split; [done|]. by intros rows [= <-].
  - by intros id db rows [= <-].
  - done.
Defined.

Definition sample_started : gmap Uuid TxRow := (start_transaction 7 ∅).1.

Lemma commit_is_permanent_witness :
  (try_abort_transaction 7 (start_transaction 7 (commit_transaction 7 3 sample_started).1).1).2 =
  Ok (TransactionIsCommitted 3).
Proof.
  destruct (try_abort_transaction 7 (start_transaction 7 (commit_transaction 7 3 sample_started).1).1)
    as [db2 r] eqn:E.
  assert (r = Ok (TransactionIsCommitted 3)) as -> by (vm_compute in E; by injection E).
  destruct (commit_is_permanent 7 (commit_transaction 7 3 sample_started).1
    (start_transaction 7 (commit_transaction 7 3 sample_started).1).1 db2 (TransactionIsCommitted 3))
    as (z & _ & _ & ->); [by eexists|apply rtc_once, step_start|exact E|reflexivity].
Defined.

Lemma commit_overrides_abort_witness :
  (try_commit_transaction 7 3 (try_abort_transaction 7 sample_started).1).2 =
  Ok (TransactionIsCommitted 3).
Proof.
  destruct (commit_overrides_abort 7 3 sample_started (try_abort_transaction 7 sample_started).1
    (update_committed [(as_i64 3, 7%N)] (try_abort_transaction 7 sample_started).1).1)
    as (_ & -> & _); [vm_compute; reflexivity..|reflexivity].
Defined.

End TxStateStore.
