(* ===== verification/Coordinator.v ===== *)
(** * The coordinator of a transaction: [src/coordinator/src/transaction.rs]
      and [src/coordinator/src/coordinator.rs]

    A [Transaction] buffers its writes, reads through the range servers and
    runs two-phase commit. The services it calls (the range assignment, the
    range servers, the transaction state store and the resolver) are the class
    [Services]: operations on a world about which nothing is assumed, so that
    they may give any answer at any time. A run of the transaction is its
    state, the world and the log of the calls it has made and of the prepares
    that were answered with success. The tasks of a [JoinSet] are started in the
    order of the hash map they are made from, and complete in an order of
    their own; a task that is dropped before it completes may have acted, which
    the world is free to show. *)

From Stdlib Require Import Floats.SpecFloat.
From stdpp Require Import base tactics list numbers option gmap sets strings.
From S2P Require Import Prelude Float64 Common Storage RsError TxStateStore GroupCommit.

Module Coordinator.
Import Common.
Local Open Scope sangria_scope.

(** ** Data *)

Inductive TransactionAbortReason :=
| DeadlockPrevention | TransactionLockLost | RangeLeadershipChanged | RangeLeaseExpired
| RangePartitioningChanged | TransactionTimeout | PrepareFailed | Other.

(** the payload of an internal error is left out *)
Inductive Error :=
| KeyspaceDoesNotExist
| TransactionNoLongerRunning
| Timeout
| TransactionDoneButStateUnknown
| TransactionAborted (reason : TransactionAbortReason)
| InternalError.

Inductive State := Running | Preparing | Aborted | Committed.

Record ParticipantRange := mkParticipantRange {
  readset : gset Bytes;
  writeset : gmap Bytes Bytes;
  deleteset : gset Bytes;
  leader_sequence_number : Z
}.

Record Transaction := mkTransaction {
  id : Uuid;
  transaction_info : TransactionInfo;
  state : State;
  participant_ranges : gmap FullRangeId ParticipantRange;
  dependencies : gset Uuid;
  commit_strategy : CommitStrategy;
  keyspace : Keyspace
}.

Definition new (transaction_info : TransactionInfo) (commit_strategy : CommitStrategy)
    (keyspace : Keyspace) : Transaction :=
  mkTransaction (tx_id transaction_info) transaction_info Running ∅ ∅ commit_strategy keyspace.

(** answers of the range servers *)
Record GetResult := mkGetResult {
  vals : list (option Bytes);
  get_leader_sequence_number : Z;
  get_dependencies : list Uuid
}.
Record PrepareOk := mkPrepareOk {
  highest_known_epoch : Z;
  epoch_lease : Z * Z;
  prepare_dependencies : list Uuid;
  released_lock_early : bool
}.

(** a task of a [JoinSet] ends with a value, or panics or is cancelled *)
Inductive joined (A : Type) := Joined (a : A) | JoinError.
Arguments Joined {A} a.
Arguments JoinError {A}.

(** ** The services *)

Record PrepareArgs := mkPrepareArgs {
  arg_has_reads : bool;
  arg_writes : list KvRecord;
  arg_deletes : list Bytes;
  arg_load : spec_float;
  arg_open_clients : Z
}.

Class Services (W : Type) : Type := {
  full_range_id_of_key : Keyspace -> Bytes -> W -> W * result unit (option FullRangeId);
  rc_get : TransactionInfo -> FullRangeId -> list Bytes -> W -> W * result RsError.Error GetResult;
  rc_prepare_transaction : TransactionInfo -> FullRangeId -> PrepareArgs -> W ->
    W * joined (result RsError.Error PrepareOk);
  rc_abort_transaction : TransactionInfo -> FullRangeId -> W -> W;
  rc_commit_transactions : list Uuid -> FullRangeId -> Z -> W -> W;
  ts_start_transaction : Uuid -> W -> W * result TxStateStore.Error unit;
  ts_try_commit : Uuid -> Z -> W -> W * result TxStateStore.Error TxStateStore.OpResult;
  ts_try_abort : Uuid -> W -> W * result TxStateStore.Error TxStateStore.OpResult;
  resolver_commit : Uuid -> gset Uuid -> list GroupCommit.ParticipantRangeInfo -> W ->
    W * result Error unit;
  resolver_register : list Uuid -> W -> W
}.

Inductive event :=
| EvGet (r : FullRangeId) (key : Bytes)
| EvPrepare (r : FullRangeId) (args : PrepareArgs)
| EvPrepared (r : FullRangeId) (p : PrepareOk)
| EvAbort (r : FullRangeId)
| EvTryAbort
| EvTryCommit (epoch : Z)
| EvCommit (r : FullRangeId) (epoch : Z)
| EvResolve (deps : gset Uuid) (ps : list GroupCommit.ParticipantRangeInfo)
| EvRegister.

Record Run (W : Type) := mkRun { tx : Transaction; world : W; log : list event }.
Arguments mkRun {W} _ _ _.
Arguments tx {W} _.
Arguments world {W} _.
Arguments log {W} _.

Section Operations.
Context `{Services W}.

Abbreviation Op := (M (Run W) Error) (only parsing).

(** ** Access to the run *)

Definition set_tx (t : Transaction) (s : Run W) : Run W := mkRun t (world s) (log s).

Definition update_tx (f : Transaction -> Transaction) : Op unit :=
  m_modify (fun s => set_tx (f (tx s)) s).

Definition emit (evs : list event) : Op unit :=
  m_modify (fun s => mkRun (tx s) (world s) (log s ++ evs)).

Definition ask {A} (f : W -> W * A) : Op A :=
  fun s => let (w, a) := f (world s) in (mkRun (tx s) w (log s), Ok a).

Definition act (f : W -> W) : Op unit :=
  m_modify (fun s => mkRun (tx s) (f (world s)) (log s)).

(** [.await.unwrap()] *)
Definition unwrap_result {E A} (r : result E A) : Op A :=
  match r with Ok a => m_ret a | _ => m_panic end.

(** [let _ = ...]: an error is ignored, a panic is not *)
Definition ignore_error {A} (m : Op A) : Op unit :=
  fun s => match m s with
           | (s', Panic) => (s', Panic)
           | (s', _) => (s', Ok tt)
           end.

Definition set_state (st : State) (t : Transaction) : Transaction :=
  mkTransaction (id t) (transaction_info t) st (participant_ranges t) (dependencies t)
    (commit_strategy t) (keyspace t).
Definition set_participants (ps : gmap FullRangeId ParticipantRange) (t : Transaction) : Transaction :=
  mkTransaction (id t) (transaction_info t) (state t) ps (dependencies t)
    (commit_strategy t) (keyspace t).
Definition add_dependencies (ds : list Uuid) (t : Transaction) : Transaction :=
  mkTransaction (id t) (transaction_info t) (state t) (participant_ranges t)
    (dependencies t ∪ list_to_set ds) (commit_strategy t) (keyspace t).

(** ** Operations *)

Definition resolve_full_record_key (ks : Keyspace) (key : Bytes) : Op FullRangeId :=
  let! r := ask (full_range_id_of_key ks key) in
  match r with
  | Ok (Some r) => m_ret r
  | Ok None => m_fail KeyspaceDoesNotExist
  | _ => m_panic
  end.

Definition check_still_running : Op unit :=
  let! s := m_get in
  match state (tx s) with
  | Running => m_ret tt
  | Aborted => m_fail (TransactionAborted Other)
  | Preparing | Committed => m_fail TransactionNoLongerRunning
  end.

Definition empty_range : ParticipantRange := mkParticipantRange ∅ ∅ ∅ 0.

Definition put_range (r : FullRangeId) (p : ParticipantRange) : Op unit :=
  update_tx (fun t => set_participants (<[r := p]> (participant_ranges t)) t).

Definition get_participant_range (r : FullRangeId) : Op ParticipantRange :=
  let! s := m_get in
  let p := default empty_range (participant_ranges (tx s) !! r) in
  put_range r p ;;; m_ret p.

(** the abort is sent to every participant; the answers are ignored *)
Definition record_abort `{HashOrder} : Op unit :=
  update_tx (set_state Aborted) ;;;
  let! s := m_get in
  let ranges := hash_iter (dom (participant_ranges (tx s))) in
  emit (EvAbort <$> ranges) ;;;
  emit [EvTryAbort] ;;;
  let! outcome := ask (ts_try_abort (id (tx s))) in
  let! outcome := unwrap_result outcome in
  match outcome with
  | TxStateStore.TransactionIsCommitted _ => m_panic
  | TxStateStore.TransactionIsAborted =>
      m_for ranges (fun r => act (rc_abort_transaction (transaction_info (tx s)) r))
  end.

Definition get `{HashOrder} (ks : Keyspace) (key : Bytes) : Op (option Bytes) :=
  check_still_running ;;;
  let! r := resolve_full_record_key ks key in
  let! p := get_participant_range r in
  match writeset p !! key with
  | Some v => m_ret (Some v)
  | None =>
      if decide (key ∈ deleteset p) then m_ret None
      else
        emit [EvGet r key] ;;;
        let! s := m_get in
        let! answer := ask (rc_get (transaction_info (tx s)) r [key]) in
        let! g := unwrap_result answer in
        update_tx (add_dependencies (get_dependencies g)) ;;;
        let! p := get_participant_range r in
        let current := get_leader_sequence_number g in
        let leader :=
          if decide (current <> INVALID_LEADER_SEQUENCE_NUMBER /\
                     leader_sequence_number p = wrap_u64 UNSET_LEADER_SEQUENCE_NUMBER)
          then wrap_u64 current else leader_sequence_number p in
        let p := mkParticipantRange (readset p) (writeset p) (deleteset p) leader in
        put_range r p ;;;
        if decide (current <> as_i64 leader) then
          ignore_error record_abort ;;;
          m_fail (TransactionAborted RangeLeadershipChanged)
        else
          put_range r (mkParticipantRange ({[key]} ∪ readset p) (writeset p) (deleteset p) leader) ;;;
          m_unwrap (head (vals g))
  end.

Definition put (ks : Keyspace) (key val : Bytes) : Op unit :=
  check_still_running ;;;
  let! r := resolve_full_record_key ks key in
  let! p := get_participant_range r in
  put_range r (mkParticipantRange (readset p) (<[key := val]> (writeset p))
                 (deleteset p ∖ {[key]}) (leader_sequence_number p)).

Definition del (ks : Keyspace) (key : Bytes) : Op unit :=
  check_still_running ;;;
  let! r := resolve_full_record_key ks key in
  let! p := get_participant_range r in
  put_range r (mkParticipantRange (readset p) (delete key (writeset p))
                 ({[key]} ∪ deleteset p) (leader_sequence_number p)).

Definition abort `{HashOrder} : Op unit :=
  let! s := m_get in
  match state (tx s) with
  | Aborted => m_ret tt
  | _ => check_still_running ;;; record_abort
  end.

(** what a participant is asked to prepare *)
Definition prepare_args `{HashOrder} (load : spec_float) (open_clients : Z) (p : ParticipantRange)
    : PrepareArgs :=
  mkPrepareArgs (bool_decide (readset p <> ∅))
    ((fun kv => mkKvRecord kv.1 kv.2) <$> hash_iter_map (writeset p))
    (hash_iter (deleteset p)) load open_clients.

(** the loop over the prepares as they complete: whether any of them released
    its lock early *)
Fixpoint prepare_loop `{HashOrder} (info : TransactionInfo)
    (completing : list (FullRangeId * PrepareArgs)) (early : bool) : Op bool :=
  match completing with
  | [] => m_ret early
  | (r, args) :: completing' =>
      let! answer := ask (rc_prepare_transaction info r args) in
      match answer with
      | JoinError => ignore_error record_abort ;;; m_fail (TransactionAborted PrepareFailed)
      | Joined (Ok p) =>
          emit [EvPrepared r p] ;;;
          update_tx (add_dependencies (prepare_dependencies p)) ;;;
          prepare_loop info completing' (early || released_lock_early p)
      | Joined _ => m_panic   (* error_from_rangeclient_error *)
      end
  end.

(** the commits to the participants with writes, whose answers are ignored;
    [join] is the order in which they complete *)
Definition notify_participants (join : HashOrder) `{HashOrder} (epoch : Z) : Op unit :=
  let! s := m_get in
  let written := filter (fun rp => writeset rp.2 <> ∅) (participant_ranges (tx s)) in
  emit ((fun r => EvCommit r epoch) <$> hash_iter (dom written)) ;;;
  m_for (hash_iter (HashOrder := join) (dom written))
    (fun r => act (rc_commit_transactions [tx_id (transaction_info (tx s))] r epoch)).

Definition participants_info `{HashOrder} (ps : gmap FullRangeId ParticipantRange)
    : list GroupCommit.ParticipantRangeInfo :=
  (fun rp => GroupCommit.mkParticipantRangeInfo rp.1 (bool_decide (writeset rp.2 <> ∅)))
    <$> hash_iter_map ps.

(** the commit phase of the traditional strategy *)
Definition commit_traditional (join : HashOrder) `{HashOrder} : Op unit :=
  let! s := m_get in
  emit [EvTryCommit 0] ;;;
  let! answer := ask (ts_try_commit (id (tx s)) 0) in
  let! outcome := unwrap_result answer in
  match outcome with
  | TxStateStore.TransactionIsAborted => m_fail (TransactionAborted Other)
  | TxStateStore.TransactionIsCommitted epoch =>
      m_assert (epoch =? 0)%Z ;;;
      update_tx (set_state Committed) ;;;
      notify_participants join 0
  end.

(** the commit phase of the others: through the resolver when there are
    dependencies, and without it, whatever the store answers, when there are
    none *)
Definition commit_resolved (join : HashOrder) `{HashOrder} (any_early_lock_releases : bool) : Op unit :=
  let! s := m_get in
  if decide (dependencies (tx s) <> ∅) then
    let infos := participants_info (participant_ranges (tx s)) in
    emit [EvResolve (dependencies (tx s)) infos] ;;;
    let! answer := ask (resolver_commit (id (tx s)) (dependencies (tx s)) infos) in
    match answer with
    | Ok _ => m_ret tt
    | Err e => m_fail e
    | Panic => m_panic
    end
  else
    emit [EvTryCommit 0] ;;;
    let! answer := ask (ts_try_commit (id (tx s)) 0) in
    unwrap_result answer ;;;
    update_tx (set_state Committed) ;;;
    notify_participants join 0 ;;;
    if any_early_lock_releases then
      emit [EvRegister] ;;; act (resolver_register [id (tx s)])
    else m_ret tt.

Definition commit (join : HashOrder) `{HashOrder} (load : spec_float) (open_clients : Z) : Op unit :=
  check_still_running ;;;
  update_tx (set_state Preparing) ;;;
  let! s := m_get in
  let args := prepare_args load open_clients <$> participant_ranges (tx s) in
  emit ((fun ra => EvPrepare ra.1 ra.2) <$> hash_iter_map args) ;;;
  let! any_early := prepare_loop (transaction_info (tx s)) (hash_iter_map (H := join) args) false in
  match commit_strategy (tx s) with
  | Traditional => commit_traditional join
  | Adaptive | Pipelined => commit_resolved join any_early
  end.

(** [Coordinator::start_transaction]: the world and the new transaction;
    [None] is the panic of the [unwrap] *)
Definition start_transaction (strategy : CommitStrategy) (info : TransactionInfo) (ks : Keyspace)
    (w : W) : W * option Transaction :=
  match ts_start_transaction (tx_id info) w with
  | (w', Ok _) => (w', Some (new info strategy ks))
  | (w', _) => (w', None)
  end.

(** ** What a run does *)

(** the events by which a transaction can be committed *)
Definition decides (ev : event) : bool :=
  match ev with
  | EvTryCommit _ | EvCommit _ _ | EvResolve _ _ | EvRegister => true
  | _ => false
  end.

(** the dependencies the participants reported when they prepared *)
Definition reported (evs : list event) : gset Uuid :=
  foldr (fun ev acc => match ev with
                       | EvPrepared _ p => list_to_set (prepare_dependencies p) ∪ acc
                       | _ => acc
                       end) ∅ evs.

Definition prepared (evs : list event) (r : FullRangeId) : Prop := exists p, EvPrepared r p ∈ evs.

(** [s'] continues [s]: it has the same participants, and has logged [evs],
    none of which commits the transaction *)
Record continues (s s' : Run W) (evs : list event) : Prop := {
  cont_log : log s' = log s ++ evs;
  cont_ranges : participant_ranges (tx s') = participant_ranges (tx s);
  cont_id : id (tx s') = id (tx s);
  cont_info : transaction_info (tx s') = transaction_info (tx s);
  cont_strategy : commit_strategy (tx s') = commit_strategy (tx s);
  cont_quiet : Forall (fun ev => decides ev = false) evs
}.

(** the body of the operations only grows the log *)
Lemma continues_trans s1 s2 s3 l1 l2 :
  continues s1 s2 l1 -> continues s2 s3 l2 -> continues s1 s3 (l1 ++ l2).
Proof.
  intros [] []. constructor; try congruence.
  - rewrite cont_log1, cont_log0. by rewrite <- app_assoc.
  - by apply Forall_app.
Qed.

Lemma wp_acts {A} (l : list A) (f : A -> W -> W) Q s :
  (forall w, Q (mkRun (tx s) w (log s)) (Ok tt)) -> wp (m_for l (fun x => act (f x))) Q s.
Proof.
  revert s; induction l as [|x l IH]; intros s HQ; cbn [m_for].
  - unfold wp. cbn. destruct s. apply HQ.
  - apply wp_then. unfold wp at 1. cbn. apply IH. intros w. apply HQ.
Qed.

Lemma check_spec Q s :
  (state (tx s) = Running -> Q s (Ok tt)) ->
  (state (tx s) <> Running -> forall e, e = TransactionAborted Other \/ e = TransactionNoLongerRunning ->
   Q s (Err e)) -> wp check_still_running Q s.
Proof.
  unfold wp, check_still_running, m_then. cbn. destruct (state (tx s)); cbn; auto.
Qed.

Lemma record_abort_spec `{HashOrder} s :
  wp record_abort (fun s' r => state (tx s') = Aborted /\
    exists evs, continues s s' evs /\ reported evs = ∅ /\
      (forall r', r' ∈ dom (participant_ranges (tx s)) -> EvAbort r' ∈ evs) /\
      (forall r' p, EvPrepared r' p ∉ evs)) s.
Proof.
  unfold record_abort. set (ranges := hash_iter (dom (participant_ranges (tx s)))).
  assert (Hc : forall w, continues s (mkRun (set_state Aborted (tx s)) w
            (log s ++ (EvAbort <$> ranges) ++ [EvTryAbort])) ((EvAbort <$> ranges) ++ [EvTryAbort])).
  { intros w. constructor; try done. apply Forall_app. split; [|by repeat constructor].
    apply Forall_fmap, Forall_forall. done. }
  assert (Hr : reported ((EvAbort <$> ranges) ++ [EvTryAbort]) = ∅).
  { clear. induction ranges as [|r l IH]; [done|]. cbn. apply IH. }
  assert (Hin : forall r', r' ∈ dom (participant_ranges (tx s)) ->
            EvAbort r' ∈ (EvAbort <$> ranges) ++ [EvTryAbort]).
  { intros r' Hr'. apply elem_of_app. left. by apply list_elem_of_fmap_2, hash_iter_elem_of. }
  assert (Hno : forall r' p, EvPrepared r' p ∉ (EvAbort <$> ranges) ++ [EvTryAbort]).
  { intros r' p. rewrite elem_of_app, list_elem_of_fmap, list_elem_of_singleton.
    intros [(? & [=] & _)|[=]]. }
  do 4 (apply wp_then; unfold wp at 1; cbn). rewrite <- app_assoc.
  apply wp_then. unfold wp at 1, ask. cbn. destruct (ts_try_abort _ _) as [w out]. cbn.
  apply wp_then. unfold wp at 1, unwrap_result.
  destruct out as [[|e]|e|]; cbn; [apply wp_acts; intros w'|..];
    (split; [done|]; eexists; split_and!; [apply Hc|done..]).
Qed.

Lemma prepare_loop_spec `{HashOrder} info l early s :
  wp (prepare_loop info l early) (fun s' res => exists evs, continues s s' evs /\
    match res with
    | Ok _ => (forall r, r ∈ l.*1 -> prepared evs r) /\ state (tx s') = state (tx s) /\
              dependencies (tx s') = dependencies (tx s) ∪ reported evs
    | Err e => e = TransactionAborted PrepareFailed /\ state (tx s') = Aborted /\
               (forall r, r ∈ dom (participant_ranges (tx s)) -> EvAbort r ∈ evs)
    | Panic => True
    end) s.
Proof.
  revert early s; induction l as [|[r args] l IH]; intros early s; cbn [prepare_loop].
  { exists []. cbn. split; [constructor; try done; by rewrite app_nil_r|].
    split; [by intros r ?%elem_of_nil|]. split; [done|]. set_solver. }
  apply wp_then. unfold wp at 1, ask. destruct (rc_prepare_transaction _ _ _ _) as [w a]. cbn.
  set (s1 := mkRun (tx s) w (log s)).
  assert (H1 : continues s s1 []) by (constructor; try done; by rewrite app_nil_r).
  destruct a as [[p|e|]|].
  - apply wp_then. unfold wp at 1. cbn. apply wp_then. unfold wp at 1. cbn.
    eapply wp_mono; [apply IH|]. intros s' res (evs & Hc & Hres). cbn in Hres.
    exists ([EvPrepared r p] ++ evs). split.
    { eapply continues_trans; [|exact Hc]. constructor; try done. by repeat constructor. }
    destruct res as [b|e|]; [|destruct Hres as (-> & Hst & Hab); split_and!;
      [done..|intros r' Hr'; apply elem_of_app; right; by apply Hab]|done].
    destruct Hres as (Hp & Hst & Hd). split_and!; [|done|cbn; rewrite Hd; set_solver].
    intros r' [->|Hr']%elem_of_cons; [exists p; by left|].
    destruct (Hp r' Hr') as [p' Hp']. exists p'. by right.
  - exists []. by split.
  - exists []. by split.
  - apply wp_then. unfold wp at 1, ignore_error. pose proof (record_abort_spec s1) as Hab.
    unfold wp in Hab. destruct (record_abort s1) as [s' res]. cbn in Hab.
    destruct Hab as (Hst & evs & Hc & _ & Hin & _).
    destruct res; cbn; exists evs; (split; [by apply (continues_trans _ _ _ [] _ H1)|]); done.
Qed.

(** How a commit ends. [ps] are the participants at its beginning and [evs] the
    events up to the end of the prepare phase. *)
Inductive ending (s s' : Run W) (evs : list event) : result Error unit -> Prop :=
| EndNotRunning e : s' = s -> evs = [] -> state (tx s) <> Running -> ending s s' evs (Err e)
| EndPrepareFailed :
    continues s s' evs -> state (tx s') = Aborted ->
    (forall r, r ∈ dom (participant_ranges (tx s)) -> EvAbort r ∈ evs) ->
    ending s s' evs (Err (TransactionAborted PrepareFailed))
| EndPreparePanic : continues s s' evs -> ending s s' evs Panic
| EndUndecided res :
    log s' = log s ++ evs ++ [EvTryCommit 0] -> res <> Ok tt ->
    (forall r, r ∈ dom (participant_ranges (tx s)) -> prepared evs r) -> ending s s' evs res
| EndCommitted commits register :
    log s' = log s ++ evs ++ [EvTryCommit 0] ++ commits ++ register ->
    state (tx s') = Committed ->
    (forall r, r ∈ dom (participant_ranges (tx s)) -> prepared evs r) ->
    (forall ev, ev ∈ commits <-> exists r p, participant_ranges (tx s) !! r = Some p /\
       writeset p <> ∅ /\ ev = EvCommit r 0) ->
    register = [] \/ register = [EvRegister] ->
    commit_strategy (tx s) = Traditional \/ dependencies (tx s) ∪ reported evs = ∅ ->
    ending s s' evs (Ok tt)
| EndResolver res infos :
    log s' = log s ++ evs ++ [EvResolve (dependencies (tx s) ∪ reported evs) infos] ->
    commit_strategy (tx s) <> Traditional -> dependencies (tx s) ∪ reported evs <> ∅ ->
    (forall r, r ∈ dom (participant_ranges (tx s)) -> prepared evs r) ->
    (forall i, i ∈ infos <-> exists r p, participant_ranges (tx s) !! r = Some p /\
       i = GroupCommit.mkParticipantRangeInfo r (bool_decide (writeset p <> ∅))) ->
    ending s s' evs res.

Lemma notify_participants_spec (join : HashOrder) `{HashOrder} e s :
  wp (notify_participants join e) (fun s' res => res = Ok tt /\ tx s' = tx s /\
    exists commits, log s' = log s ++ commits /\
    forall ev, ev ∈ commits <-> exists r p, participant_ranges (tx s) !! r = Some p /\
       writeset p <> ∅ /\ ev = EvCommit r e) s.
Proof.
  unfold notify_participants. do 2 (apply wp_then; unfold wp at 1; cbn).
  apply wp_acts. intros w. split_and!; [done..|]. eexists. split; [done|].
  intros ev. rewrite list_elem_of_fmap. setoid_rewrite hash_iter_elem_of.
  setoid_rewrite elem_of_dom. unfold is_Some. setoid_rewrite map_lookup_filter_Some. cbn.
  naive_solver.
Qed.

Lemma participants_info_spec `{HashOrder} ps i :
  i ∈ participants_info ps <-> exists r p, ps !! r = Some p /\
    i = GroupCommit.mkParticipantRangeInfo r (bool_decide (writeset p <> ∅)).
Proof.
  unfold participants_info. rewrite list_elem_of_fmap. split.
  - intros ([r p] & -> & Hr%hash_iter_map_elem_of). eauto.
  - intros (r & p & Hr & ->). exists (r, p). split; [done|]. by apply hash_iter_map_elem_of.
Qed.

Lemma traditional_spec (join : HashOrder) `{HashOrder} s0 s evs :
  continues s0 s evs -> commit_strategy (tx s0) = Traditional ->
  (forall r, r ∈ dom (participant_ranges (tx s0)) -> prepared evs r) ->
  wp (commit_traditional join) (fun s' res => ending s0 s' evs res) s.
Proof.
  intros Hc Hcs Hp. pose proof (cont_log _ _ _ Hc) as Hlog.
  pose proof (cont_ranges _ _ _ Hc) as Hps. unfold commit_traditional.
  do 2 (apply wp_then; unfold wp at 1; cbn). apply wp_then. unfold wp at 1, ask. cbn.
  destruct (ts_try_commit _ _ _) as [w a]. cbn.
  assert (Hundecided : forall res, res <> Ok tt ->
    ending s0 (mkRun (tx s) w (log s ++ [EvTryCommit 0])) evs res).
  { intros res Hres. apply EndUndecided; cbn; [|done..]. by rewrite Hlog, <- app_assoc. }
  apply wp_then. unfold wp at 1, unwrap_result.
  destruct a as [[|e]|e|]; cbn; try (by apply Hundecided).
  apply wp_then. unfold wp at 1, m_assert. destruct (e =? 0)%Z; cbn; [|by apply Hundecided].
  apply wp_then. unfold wp at 1. cbn. eapply wp_mono; [apply notify_participants_spec|]. cbn.
  intros s' res (-> & Htx & commits & Hl & Hin).
  apply (EndCommitted _ _ _ commits []); [|by rewrite Htx|done| |by left|by left].
  - rewrite Hl, Hlog, app_nil_r, <- !app_assoc. done.
  - intros ev. rewrite Hin, Hps. done.
Qed.

Lemma resolved_spec (join : HashOrder) `{HashOrder} early s0 s evs :
  continues s0 s evs -> commit_strategy (tx s0) <> Traditional ->
  (forall r, r ∈ dom (participant_ranges (tx s0)) -> prepared evs r) ->
  dependencies (tx s) = dependencies (tx s0) ∪ reported evs ->
  wp (commit_resolved join early) (fun s' res => ending s0 s' evs res) s.
Proof.
  intros Hc Hcs Hp Hd. pose proof (cont_log _ _ _ Hc) as Hlog.
  pose proof (cont_ranges _ _ _ Hc) as Hps. unfold commit_resolved.
  apply wp_then. unfold wp at 1. cbn [m_get fst snd]. case_decide as Hne.
  - apply wp_then. unfold wp at 1. cbn. apply wp_then. unfold wp at 1, ask. cbn.
    destruct (resolver_commit _ _ _ _) as [w a]. cbn.
    assert (Hend : forall res, ending s0 (mkRun (tx s) w (log s ++
        [EvResolve (dependencies (tx s)) (participants_info (participant_ranges (tx s)))])) evs res).
    { intros res. apply (EndResolver _ _ _ _ (participants_info (participant_ranges (tx s)))); cbn;
        [by rewrite Hlog, <- app_assoc, Hd|done|by rewrite <- Hd|done|].
      intros i. rewrite participants_info_spec, Hps. done. }
    destruct a as [[]|e|]; apply Hend.
  - apply wp_then. unfold wp at 1. cbn. apply wp_then. unfold wp at 1, ask. cbn.
    destruct (ts_try_commit _ _ _) as [w a]. cbn.
    assert (Hundecided : forall res, res <> Ok tt ->
      ending s0 (mkRun (tx s) w (log s ++ [EvTryCommit 0])) evs res).
    { intros res Hres. apply EndUndecided; cbn; [|done..]. by rewrite Hlog, <- app_assoc. }
    apply wp_then. unfold wp at 1, unwrap_result. destruct a as [o|e|]; cbn;
      try (by apply Hundecided).
    apply wp_then. unfold wp at 1. cbn. apply wp_then. eapply wp_mono; [apply notify_participants_spec|]. cbn.
    intros s' res (-> & Htx & commits & Hl & Hin).
    assert (Hend : forall w' reg, reg = [] \/ reg = [EvRegister] ->
      ending s0 (mkRun (tx s') w' (log s' ++ reg)) evs (Ok tt)).
    { intros w' reg Hreg. apply (EndCommitted _ _ _ commits reg); cbn;
        [|by rewrite Htx|done| |done|right].
      - rewrite Hl, Hlog, <- !app_assoc. done.
      - intros ev. rewrite Hin, Hps. done.
      - rewrite <- Hd. by destruct (decide (dependencies (tx s) = ∅)). }
    destruct early; [apply (Hend _ [EvRegister]); by right|].
    pose proof (Hend (world s') [] (or_introl eq_refl)) as He. rewrite app_nil_r in He.
    by destruct s'.
Qed.

Lemma commit_ending (join : HashOrder) `{HashOrder} load n s s' res :
  commit join load n s = (s', res) ->
  exists evs, ending s s' evs res /\ Forall (fun ev => decides ev = false) evs /\
  (s' = s /\ state (tx s) <> Running \/ forall r p, participant_ranges (tx s) !! r = Some p ->
   EvPrepare r (prepare_args load n p) ∈ evs).
Proof.
  revert s' res. cut (wp (commit join load n) (fun s' res => exists evs, ending s s' evs res /\
    Forall (fun ev => decides ev = false) evs /\ (s' = s /\ state (tx s) <> Running \/ forall r p,
    participant_ranges (tx s) !! r = Some p -> EvPrepare r (prepare_args load n p) ∈ evs)) s).
  { intros Hwp s' res Hc. apply (wp_run _ _ _ _ _ Hwp Hc). }
  unfold commit. apply wp_then, check_spec; [|intros Hst e _; exists [];
    (split; [by apply EndNotRunning|]); split; [done|left; done]].
  intros Hst. do 3 (apply wp_then; unfold wp at 1; cbn).
  set (args := prepare_args load n <$> participant_ranges (tx s)).
  set (sent := (fun ra : FullRangeId * PrepareArgs => EvPrepare ra.1 ra.2) <$> hash_iter_map args).
  assert (Hsent : forall r p, participant_ranges (tx s) !! r = Some p ->
            EvPrepare r (prepare_args load n p) ∈ sent).
  { intros r p Hr. apply list_elem_of_fmap. exists (r, prepare_args load n p). split; [done|].
    apply hash_iter_map_elem_of. unfold args. by rewrite lookup_fmap, Hr. }
  apply wp_then. eapply wp_mono; [apply prepare_loop_spec|]. cbn. intros s2 res2 (evs & Hc & Hres).
  assert (Hc0 : continues s s2 (sent ++ evs)).
  { eapply (continues_trans s); [|exact Hc]. constructor; try done.
    apply Forall_fmap, Forall_forall. done. }
  assert (Hrep : reported (sent ++ evs) = reported evs).
  { unfold sent. clear. induction (hash_iter_map args) as [|ra l IH]; [done|]. apply IH. }
  assert (Hin : forall r p, participant_ranges (tx s) !! r = Some p ->
            EvPrepare r (prepare_args load n p) ∈ sent ++ evs)
    by (intros r p Hr; apply elem_of_app; left; by apply Hsent).
  assert (Hq : Forall (fun ev => decides ev = false) (sent ++ evs)) by apply (cont_quiet _ _ _ Hc0).
  destruct res2 as [early|e|].
  - destruct Hres as (Hp & Hst2 & Hd).
    assert (Hp' : forall r, r ∈ dom (participant_ranges (tx s)) -> prepared (sent ++ evs) r).
    { intros r [p Hr]%elem_of_dom. destruct (Hp r) as [q Hq'].
      - apply list_elem_of_fmap. exists (r, prepare_args load n p). split; [done|].
        apply hash_iter_map_elem_of. unfold args. by rewrite lookup_fmap, Hr.
      - exists q. apply elem_of_app. by right. }
    rewrite <- Hrep in Hd.
    destruct (commit_strategy (tx s)) eqn:Hcs.
    + eapply wp_mono; [by eapply traditional_spec|]. cbn. intros s' res He. exists (sent ++ evs). auto.
    + eapply wp_mono; [eapply resolved_spec; eauto; by rewrite Hcs|]. cbn.
      intros s' res He. exists (sent ++ evs). auto.
    + eapply wp_mono; [eapply resolved_spec; eauto; by rewrite Hcs|]. cbn.
      intros s' res He. exists (sent ++ evs). auto.
  - destruct Hres as (-> & Hst2 & Hab). exists (sent ++ evs). split; [|auto].
    apply EndPrepareFailed; [done..|]. intros r Hr. apply elem_of_app. right. by apply Hab.
  - exists (sent ++ evs). split; [|auto]. by apply EndPreparePanic.
Qed.

(** a deciding event comes after the events of the prepare phase *)
Lemma quiet_split (pre evs tail l1 l2 : list event) ev :
  pre ++ evs ++ tail = pre ++ l1 ++ ev :: l2 -> Forall (fun ev => decides ev = false) evs ->
  decides ev = true -> exists t, l1 = evs ++ t /\ tail = t ++ ev :: l2.
Proof.
  intros Heq%app_inv_head Hq Hev. symmetry in Heq. apply app_eq_inv in Heq.
  destruct Heq as [(t & -> & ->)|(t & -> & Ht)]; [by exists t|]. destruct t as [|e t].
  - cbn in Ht. exists []. by rewrite !app_nil_r.
  - cbn in Ht. injection Ht as <- _. apply Forall_app in Hq as [_ Hq].
    apply Forall_cons in Hq as [Hq _]. congruence.
Qed.

Lemma continues_decides s s' evs l1 ev l2 :
  continues s s' evs -> log s' = log s ++ l1 ++ ev :: l2 -> decides ev = false.
Proof.
  intros [Hl _ _ _ _ Hq] Hlog. rewrite Hl in Hlog. apply app_inv_head in Hlog. subst evs.
  apply Forall_app in Hq as [_ Hq]. by apply Forall_cons in Hq as [? _].
Qed.

(** the end of the log that an ending adds to the prepare phase *)
Lemma ending_split s s' evs res l1 ev l2 :
  ending s s' evs res -> Forall (fun ev => decides ev = false) evs ->
  log s' = log s ++ l1 ++ ev :: l2 -> decides ev = true ->
  exists t, l1 = evs ++ t /\
  (forall r, r ∈ dom (participant_ranges (tx s)) -> prepared evs r) /\
  (forall r e, ev = EvCommit r e -> EvTryCommit e ∈ t /\ state (tx s') = Committed /\ res = Ok tt /\
     exists p, participant_ranges (tx s) !! r = Some p /\ writeset p <> ∅).
Proof.
  intros He Hq Hlog Hev. destruct He as [e -> -> _|Hc _ _|Hc|res Hl Hres Hp
    |commits reg Hl Hst Hp Hcom Hreg _|res infos Hl _ _ Hp _].
  - rewrite <- (app_nil_r (log s)) in Hlog at 1. apply app_inv_head in Hlog. by destruct l1.
  - by rewrite (continues_decides _ _ _ _ _ _ Hc Hlog) in Hev.
  - by rewrite (continues_decides _ _ _ _ _ _ Hc Hlog) in Hev.
  - rewrite Hl in Hlog. destruct (quiet_split _ _ _ _ _ _ Hlog Hq Hev) as (t & -> & Ht).
    exists t. split_and!; [done..|]. intros r e ->. destruct t as [|? [|]]; done.
  - rewrite Hl in Hlog. destruct (quiet_split _ _ _ _ _ _ Hlog Hq Hev) as (t & -> & Ht).
    exists t. split_and!; [done..|]. intros r e ->. destruct t as [|e0 t]; [done|].
    cbn in Ht. injection Ht as <- Ht.
    assert (Hin : EvCommit r e ∈ commits).
    { assert (Hin : EvCommit r e ∈ commits ++ reg) by (rewrite Ht; apply elem_of_middle_eq).
      apply elem_of_app in Hin as [?|Hr]; [done|]. destruct Hreg as [-> | ->].
      - by apply elem_of_nil in Hr.
      - by apply list_elem_of_singleton in Hr. }
    apply Hcom in Hin as (r' & p & Hr & Hw & [= -> ->]). split_and!; [by left|done..|eauto].
  - rewrite Hl in Hlog. destruct (quiet_split _ _ _ _ _ _ Hlog Hq Hev) as (t & -> & Ht).
    exists t. split_and!; [done..|]. intros r e ->. destruct t as [|? [|]]; done.
Qed.

(** what the commit phase logs *)
Lemma ending_tail s s' evs res :
  ending s s' evs res -> exists tail, log s' = log s ++ evs ++ tail /\
  forall ev, ev ∈ tail -> ev = EvTryCommit 0 \/ ev = EvRegister \/
    (exists r p, participant_ranges (tx s) !! r = Some p /\ writeset p <> ∅ /\ ev = EvCommit r 0) \/
    (exists deps infos, ev = EvResolve deps infos /\
       forall i, i ∈ infos -> exists r p, participant_ranges (tx s) !! r = Some p /\
         i = GroupCommit.mkParticipantRangeInfo r (bool_decide (writeset p <> ∅))).
Proof.
  intros [e -> -> _|Hc _ _|Hc|res' Hl _ _|commits reg Hl _ _ Hcom Hreg _|res' infos Hl _ _ _ Hin].
  - exists []. split; [by rewrite app_nil_r|]. by intros ev ?%elem_of_nil.
  - exists []. rewrite app_nil_r. split; [apply Hc|]. by intros ev ?%elem_of_nil.
  - exists []. rewrite app_nil_r. split; [apply Hc|]. by intros ev ?%elem_of_nil.
  - eexists. split; [exact Hl|]. intros ev ->%list_elem_of_singleton. auto.
  - eexists. split; [exact Hl|]. cbn. intros ev [->|[Hev|Hev]%elem_of_app]%elem_of_cons; [auto| |].
    + right. right. left. by apply Hcom.
    + destruct Hreg as [-> | ->]; [by apply elem_of_nil in Hev|].
      apply list_elem_of_singleton in Hev. auto.
  - eexists. split; [exact Hl|]. intros ev ->%list_elem_of_singleton. right. right. right.
    eexists _, _. split; [done|]. intros i. apply Hin.
Qed.

(** the transaction's own write to a key: a value or a delete *)
Definition own_write (t : Transaction) (r : FullRangeId) (k : Bytes) : option (option Bytes) :=
  p ← participant_ranges t !! r;
  match writeset p !! k with
  | Some v => Some (Some v)
  | None => if decide (k ∈ deleteset p) then Some None else None
  end.

Lemma own_write_range t r k :
  own_write t r k =
  let p := default empty_range (participant_ranges t !! r) in
  match writeset p !! k with
  | Some v => Some (Some v)
  | None => if decide (k ∈ deleteset p) then Some None else None
  end.
Proof. unfold own_write. by destruct (participant_ranges t !! r). Qed.

(** ** Properties *)

(** C1: two-phase commit. Whatever the services answer, and in whatever order the
    prepares complete: before anything is done by which the transaction could
    be committed (the store asked to commit it, the resolver asked to commit it,
    a range told that it is committed), every participant has been sent a
    prepare with its reads, writes and deletes and has answered with success. A
    range is told that the transaction is committed only if the transaction has
    writes there, after the store was asked to commit it, and only by a commit
    that ends as committed. *)
Theorem commit_follows_two_phases (join : HashOrder) `{HashOrder} load n s s' res l1 ev l2 :
  commit join load n s = (s', res) -> log s' = log s ++ l1 ++ ev :: l2 -> decides ev = true ->
  (forall r p, participant_ranges (tx s) !! r = Some p ->
     EvPrepare r (prepare_args load n p) ∈ l1 /\ prepared l1 r) /\
  (forall r e, ev = EvCommit r e -> EvTryCommit e ∈ l1 /\ state (tx s') = Committed /\ res = Ok tt /\
     exists p, participant_ranges (tx s) !! r = Some p /\ writeset p <> ∅).
Proof.
  intros (evs & He & Hq & Hsent)%commit_ending Hlog Hev.
  destruct (ending_split _ _ _ _ _ _ _ He Hq Hlog Hev) as (t & -> & Hp & Hcom). split.
  - intros r p Hr. split.
    + apply elem_of_app. left. destruct Hsent as [[-> _]|Hsent]; [|by apply Hsent].
      rewrite <- (app_nil_r (log s)) in Hlog at 1. apply app_inv_head in Hlog. by destruct (evs ++ t).
    + destruct (Hp r) as [q Hq']; [by apply elem_of_dom_2 in Hr|]. exists q. apply elem_of_app. by left.
  - intros r e Heq. destruct (Hcom r e Heq) as (Ht & ? & ? & ?). split_and!; [|done..].
    apply elem_of_app. by right.
Qed.

(** A commit that succeeds has committed or delegated. It ends either as
    committed, having told every participant with writes, under the traditional
    strategy or with no dependencies; or it has handed the transaction to the
    resolver with all its dependencies (those of its reads and those that the
    participants reported as they prepared, and there is one) and with every
    participant and whether it has writes. *)
Theorem commit_ok_decides (join : HashOrder) `{HashOrder} load n s s' :
  commit join load n s = (s', Ok tt) ->
  exists evs tail, log s' = log s ++ evs ++ tail /\
  let deps := dependencies (tx s) ∪ reported evs in
  (state (tx s') = Committed /\ (commit_strategy (tx s) = Traditional \/ deps = ∅) /\
   EvTryCommit 0 ∈ tail /\
   forall r p, participant_ranges (tx s) !! r = Some p -> writeset p <> ∅ -> EvCommit r 0 ∈ tail) \/
  (commit_strategy (tx s) <> Traditional /\ deps <> ∅ /\
   exists infos, tail = [EvResolve deps infos] /\
   forall i, i ∈ infos <-> exists r p, participant_ranges (tx s) !! r = Some p /\
     i = GroupCommit.mkParticipantRangeInfo r (bool_decide (writeset p <> ∅))).
Proof.
  intros (evs & He & _ & _)%commit_ending. remember (Ok tt) as res eqn:Hres.
  destruct He as [| | |res Hl Hne|commits reg Hl Hst Hp Hcom Hreg Hd|res infos Hl Hcs Hd Hp Hin];
    try done; exists evs.
  - eexists. split; [exact Hl|]. left. split_and!; [done..|by left|].
    intros r p Hr Hw. right. apply elem_of_app. left. apply Hcom. eauto.
  - eexists. split; [exact Hl|]. right. split_and!; [done..|]. eexists. split; [done|]. exact Hin.
Qed.

(** Deletes are not committed. A participant that the transaction only
    deletes keys of is asked to prepare, but no commit is ever sent to it, and
    the resolver is told that it has no writes: the range keeps its lock, or the
    prepared deletes, for ever. *)
Theorem delete_only_range_never_committed (join : HashOrder) `{HashOrder} load n s s' res r p :
  commit join load n s = (s', res) -> participant_ranges (tx s) !! r = Some p ->
  writeset p = ∅ -> deleteset p <> ∅ -> state (tx s) = Running ->
  exists evs, log s' = log s ++ evs /\
  (exists args, EvPrepare r args ∈ evs /\ arg_deletes args <> []) /\
  (forall e, EvCommit r e ∉ evs) /\
  (forall deps infos i, EvResolve deps infos ∈ evs -> i ∈ infos ->
     GroupCommit.participant_range i = r -> GroupCommit.has_writes i = false).
Proof.
  intros (evs & He & Hq & Hsent)%commit_ending Hr Hw Hdel Hst.
  destruct (ending_tail _ _ _ _ He) as (tail & Hl & Htail).
  assert (Hno : forall ev, ev ∈ evs ++ tail -> decides ev = true -> ev ∈ tail).
  { intros ev [Hev|?]%elem_of_app Hd; [|done]. rewrite Forall_forall in Hq.
    by rewrite (Hq ev Hev) in Hd. }
  exists (evs ++ tail). split_and!; [done| | |].
  - destruct Hsent as [[_ ?]|Hsent]; [done|]. exists (prepare_args load n p).
    split; [apply elem_of_app; left; by apply Hsent|]. cbn. intros Hnil. apply Hdel.
    apply leibniz_equiv, elem_of_equiv_empty. intros k Hk%hash_iter_elem_of.
    rewrite Hnil in Hk. by apply elem_of_nil in Hk.
  - intros e Hev%Hno; [|done]. apply Htail in Hev as [?|[?|[(r' & p' & Hr' & Hw' & [= -> _])|Hx]]];
      [done..| |naive_solver]. congruence.
  - intros deps infos i Hev%Hno Hi Hir; [|done].
    apply Htail in Hev as [?|[?|[(? & ? & _ & _ & ?)|(deps' & infos' & [= -> ->] & Hin)]]]; [done..|].
    destruct (Hin i Hi) as (r' & p' & Hr' & ->). cbn in *. subst r'.
    rewrite Hr in Hr'. injection Hr' as <-. rewrite Hw.
    apply bool_decide_eq_false. intros Hne. by apply Hne.
Qed.

(** [put] and [del] replace the participant of the key *)
Lemma update_own_write f ks k s w r :
  state (tx s) = Running -> full_range_id_of_key ks k (world s) = (w, Ok (Some r)) ->
  let p := default empty_range (participant_ranges (tx s) !! r) in
  (check_still_running ;;;
   let! r := resolve_full_record_key ks k in
   let! p := get_participant_range r in
   put_range r (f p)) s =
  (mkRun (set_participants (<[r := f p]> (participant_ranges (tx s))) (tx s)) w (log s), Ok tt).
Proof.
  intros Hst Hor. unfold check_still_running, resolve_full_record_key, ask, m_then,
    get_participant_range, put_range, update_tx, m_modify. cbn. rewrite Hst. cbn.
  rewrite Hor. cbn. unfold set_tx, set_participants. cbn. by rewrite insert_insert_eq.
Qed.

Lemma own_write_replaced t r p k v r' k' :
  let p0 := default empty_range (participant_ranges t !! r) in
  (forall k', match writeset p !! k' with
              | Some v => Some (Some v)
              | None => if decide (k' ∈ deleteset p) then Some None else None
              end =
              if decide (k' = k) then Some v
              else match writeset p0 !! k' with
                   | Some v => Some (Some v)
                   | None => if decide (k' ∈ deleteset p0) then Some None else None
                   end) ->
  own_write (set_participants (<[r := p]> (participant_ranges t)) t) r' k' =
  if decide (r' = r /\ k' = k) then Some v else own_write t r' k'.
Proof.
  intros p0 Hp. destruct (decide (r' = r)) as [->|Hne].
  - rewrite (own_write_range t). fold p0. unfold own_write. cbn. rewrite lookup_insert_eq. cbn.
    rewrite Hp. apply decide_ext. naive_solver.
  - rewrite decide_False by naive_solver. unfold own_write. cbn. by rewrite lookup_insert_ne.
Qed.

(** A transaction reads its own writes. While it runs, a put or a delete of a
    key replaces its own write to that key and no other; and a read of a key it
    has written returns that write, without asking the range. *)
Theorem own_writes_are_read `{HashOrder} ks k s w r :
  state (tx s) = Running -> full_range_id_of_key ks k (world s) = (w, Ok (Some r)) ->
  (forall v, own_write (tx s) r k = Some v ->
     (get ks k s).2 = Ok v /\ log (get ks k s).1 = log s) /\
  (forall v, (put ks k v s).2 = Ok tt /\ forall r' k', own_write (tx (put ks k v s).1) r' k' =
     if decide (r' = r /\ k' = k) then Some (Some v) else own_write (tx s) r' k') /\
  ((del ks k s).2 = Ok tt /\ forall r' k', own_write (tx (del ks k s).1) r' k' =
     if decide (r' = r /\ k' = k) then Some None else own_write (tx s) r' k').
Proof.
  intros Hst Hor. split; [|split].
  - intros v. rewrite own_write_range. unfold get, check_still_running, resolve_full_record_key, ask,
      m_then, get_participant_range, put_range, update_tx, m_modify. cbn. rewrite Hst. cbn.
    rewrite Hor. cbn. destruct (writeset _ !! k) as [v'|]; cbn; [by intros [= <-]|].
    case_decide; [by intros [= <-]|done].
  - intros v. unfold put. rewrite (update_own_write (fun p => mkParticipantRange _ _ _ _) ks k s w r Hst Hor).
    split; [done|]. intros r' k'. apply own_write_replaced. cbn. clear. intros k'.
    destruct (decide (k' = k)) as [->|Hne]; [by rewrite lookup_insert_eq|].
    rewrite lookup_insert_ne by done. destruct (_ !! k'); [done|]. apply decide_ext. set_solver.
  - unfold del. rewrite (update_own_write (fun p => mkParticipantRange _ _ _ _) ks k s w r Hst Hor).
    split; [done|]. intros r' k'. apply own_write_replaced. cbn. clear. intros k'.
    destruct (decide (k' = k)) as [->|Hne].
    + rewrite lookup_delete_eq, decide_True by set_solver. done.
    + rewrite lookup_delete_ne by done. destruct (_ !! k'); [done|]. apply decide_ext. set_solver.
Qed.
End Operations.

(** ** Witnesses: services with constant answers *)

Definition sample_range (n : Uuid) : FullRangeId := mkFullRangeId (mkKeyspaceId 1) n.

(** every key whose first byte is [n] is in range [n]; a range that prepares
    reports the dependencies [deps] *)
Definition sample_services (deps : list Uuid) : Services unit := {|
  full_range_id_of_key _ k w := (w, Ok (sample_range <$> head k));
  rc_get _ _ _ w := (w, Ok (mkGetResult [None] 5 []));
  rc_prepare_transaction _ _ _ w := (w, Joined (Ok (mkPrepareOk 0 (0, 0)%Z deps true)));
  rc_abort_transaction _ _ w := w;
  rc_commit_transactions _ _ _ w := w;
  ts_start_transaction _ w := (w, Ok tt);
  ts_try_commit _ e w := (w, Ok (TxStateStore.TransactionIsCommitted e));
  ts_try_abort _ w := (w, Ok TxStateStore.TransactionIsAborted);
  resolver_commit _ _ _ w := (w, Ok tt);
  resolver_register _ w := w
|}.

Definition sample_keyspace : Keyspace := mkKeyspace "ns" "ks".
Definition sample_start : Run unit :=
  mkRun (new (mkTransactionInfo 9 0 1000) Adaptive sample_keyspace) tt [].

(** a write to range 1, a delete in range 2 *)
Definition sample_written : Run unit :=
  (del (H := sample_services []) sample_keyspace [2%N]
     (put (H := sample_services []) sample_keyspace [1%N] [65%N] sample_start).1).1.

Definition sample_commit (deps : list Uuid) : Run unit * result Error unit :=
  commit (H := sample_services deps) (H0 := element_order) element_order (Float64.of_Z 0) 0
    sample_written.

Definition sample_log : list event := log (sample_commit []).1.

Lemma commit_follows_two_phases_witness :
  exists l1 l2, sample_log = l1 ++ EvCommit (sample_range 1) 0 :: l2 /\ EvTryCommit 0 ∈ l1.
Proof.
  exists (take 5 sample_log), (drop 6 sample_log). split; [vm_compute; reflexivity|].
  destruct (commit_follows_two_phases (H := sample_services []) (H0 := element_order) element_order
    (Float64.of_Z 0) 0 sample_written (sample_commit []).1 (sample_commit []).2 (take 5 sample_log)
    (EvCommit (sample_range 1) 0) (drop 6 sample_log)) as [_ Hc];
    [exact (surjective_pairing (sample_commit []))|vm_compute; reflexivity|reflexivity|].
  apply (Hc (sample_range 1) 0%Z eq_refl).
Defined.

Lemma commit_ok_decides_witness :
  exists evs tail, log (sample_commit [3%N]).1 = log sample_written ++ evs ++ tail.
Proof.
  destruct (commit_ok_decides (H := sample_services [3%N]) (H0 := element_order) element_order
    (Float64.of_Z 0) 0 sample_written (sample_commit [3%N]).1) as (evs & tail & Hl & _);
    [vm_compute; reflexivity|]. exists evs, tail. exact Hl.
Defined.

Lemma delete_only_range_never_committed_witness :
  exists evs, log (sample_commit []).1 = log sample_written ++ evs /\
    forall e, EvCommit (sample_range 2) e ∉ evs.
Proof.
  destruct (delete_only_range_never_committed (H := sample_services []) (H0 := element_order)
    element_order (Float64.of_Z 0) 0 sample_written (sample_commit []).1 (sample_commit []).2
    (sample_range 2) (mkParticipantRange ∅ ∅ {[ [2%N] ]} 0)) as (evs & Hl & _ & Hc & _);
    [exact (surjective_pairing (sample_commit []))|vm_compute; reflexivity|done|by_decision|reflexivity|].
  exists evs. split; [exact Hl|exact Hc].
Defined.

Lemma own_writes_are_read_witness :
  (get (H := sample_services []) (H0 := element_order) sample_keyspace [1%N] sample_written).2 =
  Ok (Some [65%N]).
Proof.
  destruct (own_writes_are_read (H := sample_services []) (H0 := element_order) sample_keyspace [1%N]
    sample_written tt (sample_range 1)) as (Hg & _); [reflexivity|reflexivity|].
  apply (Hg (Some [65%N])). vm_compute. reflexivity.
Defined.

End Coordinator.
