(* ===== verification/Warden.v ===== *)
(** * The warden: [src/warden/src/assignment_computation.rs] and
      [src/warden/src/server.rs]

    The warden assigns the ranges of the universe to the range servers that
    are connected to it. Its state is behind one mutex per field; an operation
    that holds several of them, or none across an await, is one step. The
    computation of an assignment waits for the persistence layer in the
    middle, and is split there. *)

From stdpp Require Import base tactics list numbers option gmap sets strings sorting.
From S2P Require Import Prelude Common Region.

Module Warden.
Import Common.

(** ** Data *)

Record HostIdentity := mkHostIdentity { name : string; zone : Region.Zone }.
Record HostInfo := mkHostInfo {
  identity : HostIdentity;
  address : string;
  warden_connection_epoch : Z
}.

#[global] Instance HostIdentity_eq_dec : EqDecision HostIdentity.
Proof. solve_decision. Defined.
#[global] Instance HostIdentity_countable : Countable HostIdentity.
Proof.
  refine (inj_countable' (fun h => (name h, zone h)) (fun p => mkHostIdentity p.1 p.2) _).
  by intros [].
Defined.

Record RangeInfo := mkRangeInfo {
  range_keyspace_id : KeyspaceId;
  range_info_id : Uuid;
  range_key_range : KeyRange
}.
Record RangeAssignment := mkRangeAssignment { range : RangeInfo; assignee : string }.

Definition MIN_NUM_RANGE_SERVERS : nat := 1.
Definition MAX_VERSIONS_TO_KEEP : nat := 5.

(** a set of [HostInfoWrapper]s, which are compared by identity *)
Abbreviation Servers := (gmap HostIdentity HostInfo) (only parsing).

Record State := mkState {
  base_ranges : list RangeInfo;
  range_assignments : gmap Z (list RangeAssignment);
  current_version : Z;
  ready_range_servers : Servers;
  unassigned_base_ranges : list RangeInfo
}.

(** [millis] is the time at the start *)
Definition new (millis : Z) : State := mkState [] ∅ (as_i64 millis) ∅ [].

Definition set_ready (s : Servers) (st : State) : State :=
  mkState (base_ranges st) (range_assignments st) (current_version st) s
    (unassigned_base_ranges st).

(** ** Connections *)

(** [Status::already_exists]; on success the caller is subscribed to updates *)
Definition register_range_server (host_info : HostInfo) (st : State) : State * result unit unit :=
  match ready_range_servers st !! identity host_info with
  | Some existing =>
      if (warden_connection_epoch host_info <=? warden_connection_epoch existing)%Z then (st, Err tt)
      else (set_ready (<[identity host_info := host_info]> (ready_range_servers st)) st, Ok tt)
  | None => (set_ready (<[identity host_info := host_info]> (ready_range_servers st)) st, Ok tt)
  end.

Definition notify_range_server_unavailable (host_info : HostInfo) (st : State) : State :=
  match ready_range_servers st !! identity host_info with
  | Some existing =>
      if (warden_connection_epoch existing <=? warden_connection_epoch host_info)%Z
      then set_ready (delete (identity host_info) (ready_range_servers st)) st
      else st
  | None => st
  end.

(** the update for one server: the version it carries and its ranges *)
Definition get_assignment_update (host_info : HostInfo) (version : Z) (st : State)
    : option (Z * list (KeyspaceId * Uuid)) :=
  match range_assignments st !! version with
  | Some l =>
      Some (current_version st,
            (fun a => (range_keyspace_id (range a), range_info_id (range a))) <$>
              filter (fun a => assignee a = name (identity host_info)) l)
  | None => None
  end.

(** ** The service: [server.rs] *)

Record RangeServerMsg := mkRangeServerMsg {
  msg_identity : string;
  msg_zone : string;
  msg_epoch : Z
}.

Inductive Status := InvalidArgument | AlreadyExists | Internal | ResourceExhausted.

(** a stream of updates to a connected server *)
Record AssignmentUpdateStream := mkStream { sent_full_update : bool; stream_host : HostInfo }.

Definition host_info_of (m : RangeServerMsg) : HostInfo :=
  mkHostInfo
    (mkHostIdentity (msg_identity m)
       (Region.mkZone (Region.mkRegion None "") (msg_zone m)))
    "0.0.0.0:0" (msg_epoch m).

Definition handle_register (request : option RangeServerMsg) (st : State)
    : State * result Status AssignmentUpdateStream :=
  match request with
  | None => (st, Err InvalidArgument)
  | Some m =>
      match register_range_server (host_info_of m) st with
      | (st', Ok _) => (st', Ok (mkStream false (host_info_of m)))
      | (st', _) => (st', Err AlreadyExists)
      end
  end.

(** what arrives on the broadcast of versions *)
Inductive received := Version (v : Z) | Lagged (n : Z) | Closed.

(** [poll_next] when something has arrived: [None] is the end of the stream *)
Definition poll_next (r : received) (s : AssignmentUpdateStream) (st : State)
    : AssignmentUpdateStream * option (result Status (Z * list (KeyspaceId * Uuid))) :=
  match r with
  | Version v =>
      (mkStream true (stream_host s),
       Some (match get_assignment_update (stream_host s) v st with
             | Some u => Ok u
             | None => Err Internal
             end))
  | Lagged _ => (s, Some (Err ResourceExhausted))
  | Closed => (s, None)
  end.

Definition drop_stream (s : AssignmentUpdateStream) (st : State) : State :=
  notify_range_server_unavailable (stream_host s) st.

(** ** Reading the base ranges *)

(** a key space of the universe's answer: the texts of the identifiers and the
    bounds of the ranges *)
Record ProtoRange := mkProtoRange {
  base_range_uuid : string;
  proto_lower : Bytes;
  proto_upper : Bytes
}.
Record ProtoKeyspace := mkProtoKeyspace {
  proto_keyspace_id : string;
  base_key_ranges : list ProtoRange
}.

(** an empty bound is no bound *)
Definition bound (b : Bytes) : option Bytes := match b with [] => None | _ => Some b end.

Section Reading.
(** [Uuid::parse_str] *)
Variable parse_uuid : string -> option Uuid.

Definition read_range (keyspace : string) (r : ProtoRange) : option RangeInfo :=
  ks ← parse_uuid keyspace;
  rid ← parse_uuid (base_range_uuid r);
  Some (mkRangeInfo (mkKeyspaceId ks) rid
          (mkKeyRange (bound (proto_lower r)) (bound (proto_upper r)))).

(** [None] is an identifier that cannot be parsed *)
Definition read_keyspaces (kss : list ProtoKeyspace) : option (list RangeInfo) :=
  mapM (fun kr => read_range kr.1 kr.2)
    (ks ← kss; (fun r => (proto_keyspace_id ks, r)) <$> base_key_ranges ks).

(** [response] is the universe's answer, [persisted] whether the new ranges
    could be stored; [false] is any of the errors *)
Definition read_base_ranges (response : option (list ProtoKeyspace)) (persisted : bool) (st : State)
    : State * bool :=
  match response ≫= read_keyspaces with
  | None => (st, false)
  | Some reported =>
      if forallb (fun r => bool_decide (range_info_id r ∈ range_info_id <$> reported))
           (base_ranges st) then
        let news := filter (fun r => range_info_id r ∉ range_info_id <$> base_ranges st) reported in
        if persisted then
          (mkState (base_ranges st ++ news) (range_assignments st) (current_version st)
             (ready_range_servers st) (unassigned_base_ranges st ++ news), true)
        else (st, false)
      else (st, false)
  end.
End Reading.

(** ** The computation *)

Abbreviation Assigned := (gmap string (list RangeInfo)) (only parsing).

(** [entry(assignee).or_insert_with(Vec::new).push(range)] *)
Definition add_range (m : Assigned) (server : string) (r : RangeInfo) : Assigned :=
  <[server := default [] (m !! server) ++ [r]]> m.

Definition group_assignments (l : list RangeAssignment) : Assigned :=
  foldl (fun m a => add_range m (assignee a) (range a)) ∅ l.

(** The heap of [Reverse((count, name))]: a bag from which the least entry is
    taken *)
Abbreviation Heap := (list (nat * string)) (only parsing).

Definition entry_leb (x y : nat * string) : bool :=
  (x.1 <? y.1) || ((x.1 =? y.1) && String.leb x.2 y.2).

Fixpoint pop (h : Heap) : option ((nat * string) * Heap) :=
  match h with
  | [] => None
  | x :: h' =>
      match pop h' with
      | None => Some (x, [])
      | Some (y, rest) => if entry_leb x y then Some (x, h') else Some (y, x :: rest)
      end
  end.

Definition build_heap `{HashOrder} (m : Assigned) (added ready : list HostIdentity) : Heap :=
  let h := ((fun e => (length e.2, e.1)) <$> hash_iter_map m) ++ ((fun i => (0, name i)) <$> added) in
  match h with
  | [] => (fun i => (0, name i)) <$> ready
  | _ => h
  end.

(** taking the ranges of the removed servers *)
Fixpoint take_removed (removed : list HostIdentity) (m : Assigned) (acc : list RangeInfo)
    : Assigned * list RangeInfo :=
  match removed with
  | [] => (m, acc)
  | i :: removed' =>
      match m !! name i with
      | Some rs => take_removed removed' (delete (name i) m) (acc ++ rs)
      | None => take_removed removed' m acc
      end
  end.

(** [None] is the [unwrap] on an empty heap *)
Fixpoint assign_loop (rs : list RangeInfo) (h : Heap) (m : Assigned) (updated : list RangeAssignment)
    : option (Heap * Assigned * list RangeAssignment) :=
  match rs with
  | [] => Some (h, m, updated)
  | r :: rs' =>
      match pop h with
      | None => None
      | Some ((n, server), h') =>
          assign_loop rs' ((S n, server) :: h') (add_range m server r)
            (updated ++ [mkRangeAssignment r server])
      end
  end.

Record Plan := mkPlan {
  new_version : Z;
  updated_assignments : list RangeAssignment;
  assigned_ranges : list Uuid;
  assignee_to_range_info : Assigned
}.

(** up to the wait for the persistence layer: [None] is a round that only
    waits *)
Definition plan `{HashOrder} (prev : Servers) (st : State) : result unit (option Plan) :=
  let ready := ready_range_servers st in
  if (size ready <? MIN_NUM_RANGE_SERVERS) then Ok None
  else
    let added := hash_iter (dom ready ∖ dom prev) in
    let removed := hash_iter (dom prev ∖ dom ready) in
    if decide (added = [] /\ removed = [] /\ unassigned_base_ranges st = []) then Ok None
    else
      let current :=
        if decide (range_assignments st = ∅) then Some ∅
        else group_assignments <$> range_assignments st !! current_version st in
      match current with
      | None => Panic
      | Some m =>
          let h := build_heap m added (hash_iter (dom ready)) in
          let (m1, rs) := take_removed removed m (unassigned_base_ranges st) in
          match assign_loop rs h m1 [] with
          | None => Panic
          | Some (_, m2, updated) =>
              Ok (Some (mkPlan (current_version st + 1) updated (range_info_id <$> rs) m2))
          end
      end.

(** the assignments of a version, as they are flattened *)
Definition flatten `{HashOrder} (m : Assigned) : list RangeAssignment :=
  e ← hash_iter_map m; (fun r => mkRangeAssignment r e.1) <$> e.2.

(** the oldest version *)
Definition oldest (m : gmap Z (list RangeAssignment)) : option Z :=
  match (map_to_list m).*1 with
  | [] => None
  | v :: vs => Some (foldl Z.min v vs)
  end.

(** after the persistence layer has stored the plan; [Panic] is the assertion *)
Definition install `{HashOrder} (p : Plan) (st : State) : State * result unit unit :=
  let unassigned :=
    filter (fun r => range_info_id r ∉ assigned_ranges p) (unassigned_base_ranges st) in
  let kept :=
    if MAX_VERSIONS_TO_KEEP <? size (range_assignments st) then
      match oldest (range_assignments st) with
      | Some v => delete v (range_assignments st)
      | None => range_assignments st
      end
    else range_assignments st in
  if decide (is_Some (kept !! new_version p)) then
    (mkState (base_ranges st) kept (current_version st) (ready_range_servers st) unassigned, Panic)
  else
    (mkState (base_ranges st) (<[new_version p := flatten (assignee_to_range_info p)]> kept)
       (new_version p) (ready_range_servers st) unassigned, Ok tt).

(** one call of [run_assignment_computation]; [stored] is the answer of the
    persistence layer. The servers it returns are those of its beginning. *)
Definition run_assignment_computation `{HashOrder} (prev : Servers) (stored : bool) (st : State)
    : State * Servers * result unit unit :=
  match plan prev st with
  | Ok None => (st, ready_range_servers st, Ok tt)
  | Ok (Some p) =>
      if stored then let (st', r) := install p st in (st', ready_range_servers st, r)
      else (st, ready_range_servers st, Ok tt)
  | _ => (st, prev, Panic)
  end.

(** ** Interleavings

    Connections come and go at any time, also while a plan is being stored;
    [read_base_ranges] and [run_assignment_computation] alternate. The universe
    reports every range once. *)

Record Config := mkConfig {
  st : State;
  prev : Servers;
  (** the plan that is being stored, and the servers of its beginning *)
  pending : option (Plan * Servers)
}.

Inductive step : Config -> Config -> Prop :=
| step_register c h : step c (mkConfig (register_range_server h (st c)).1 (prev c) (pending c))
| step_unavailable c h :
    step c (mkConfig (notify_range_server_unavailable h (st c)) (prev c) (pending c))
| step_read c parse_uuid response persisted :
    pending c = None ->
    (forall rs, response ≫= read_keyspaces parse_uuid = Some rs -> NoDup (range_info_id <$> rs)) ->
    step c (mkConfig (read_base_ranges parse_uuid response persisted (st c)).1 (prev c) None)
| step_wait c order :
    pending c = None -> plan (H := order) (prev c) (st c) = Ok None ->
    step c (mkConfig (st c) (ready_range_servers (st c)) None)
| step_plan c order p :
    pending c = None -> plan (H := order) (prev c) (st c) = Ok (Some p) ->
    step c (mkConfig (st c) (prev c) (Some (p, ready_range_servers (st c))))
| step_install c order p ready :
    pending c = Some (p, ready) ->
    step c (mkConfig (install (H := order) p (st c)).1 ready None)
| step_not_stored c p ready :
    pending c = Some (p, ready) -> step c (mkConfig (st c) ready None).

Definition init (millis : Z) : Config := mkConfig (new millis) ∅ None.

(** ** Which ranges are assigned *)

Definition all_ranges (m : Assigned) : list RangeInfo := concat (map_to_list m).*2.

Definition assigned_now (st : State) : list RangeInfo :=
  range <$> default [] (range_assignments st !! current_version st).

Lemma all_ranges_insert m s rs :
  m !! s = None -> all_ranges (<[s := rs]> m) ≡ₚ rs ++ all_ranges m.
Proof. intros Hs. unfold all_ranges. by rewrite map_to_list_insert. Qed.

Lemma all_ranges_delete m s rs :
  m !! s = Some rs -> all_ranges m ≡ₚ rs ++ all_ranges (delete s m).
Proof.
  intros Hs. rewrite <- (insert_delete_id m s rs Hs) at 1.
  apply all_ranges_insert, lookup_delete_eq.
Qed.

Lemma all_ranges_add m s r : all_ranges (add_range m s r) ≡ₚ r :: all_ranges m.
Proof.
  unfold add_range. destruct (m !! s) as [rs|] eqn:Hs; cbn.
  - rewrite <- insert_delete_eq, all_ranges_insert by apply lookup_delete_eq.
    rewrite (all_ranges_delete m s rs Hs), <- app_assoc. cbn. by rewrite <- Permutation_middle.
  - by rewrite all_ranges_insert.
Qed.

Lemma all_ranges_group l : all_ranges (group_assignments l) ≡ₚ range <$> l.
Proof.
  unfold group_assignments.
  assert (Hg : forall m, all_ranges (foldl (fun m a => add_range m (assignee a) (range a)) m l)
            ≡ₚ all_ranges m ++ (range <$> l)).
  { induction l as [|a l IH]; intros m; cbn; [by rewrite app_nil_r|].
    rewrite IH, all_ranges_add. apply Permutation_middle. }
  rewrite (Hg ∅). unfold all_ranges. by rewrite map_to_list_empty.
Qed.

Lemma take_removed_spec removed m acc m' rs :
  take_removed removed m acc = (m', rs) ->
  all_ranges m' ++ rs ≡ₚ all_ranges m ++ acc /\ exists more, rs = acc ++ more.
Proof.
  revert m acc; induction removed as [|i removed IH]; intros m acc; cbn [take_removed].
  { intros [= <- <-]. split; [done|]. exists []. by rewrite app_nil_r. }
  destruct (m !! name i) as [l|] eqn:Hi; [|apply IH].
  intros [Hp [more ->]]%IH. split.
  - rewrite Hp, (all_ranges_delete m _ l Hi). rewrite (Permutation_app_comm acc l), !app_assoc.
    by rewrite (Permutation_app_comm l).
  - exists (l ++ more). by rewrite app_assoc.
Qed.

Lemma assign_loop_ranges rs h m u h' m' u' :
  assign_loop rs h m u = Some (h', m', u') -> all_ranges m' ≡ₚ all_ranges m ++ rs.
Proof.
  revert h m u; induction rs as [|r rs IH]; intros h m u; cbn [assign_loop].
  { intros [= <- <- <-]. by rewrite app_nil_r. }
  destruct (pop h) as [[[n s] h1]|]; [|done]. intros ->%IH. rewrite all_ranges_add.
  apply Permutation_middle.
Qed.

Lemma flatten_ranges `{HashOrder} m : range <$> flatten m ≡ₚ all_ranges m.
Proof.
  unfold flatten, all_ranges. rewrite <- (hash_iter_map_perm m).
  induction (hash_iter_map m) as [|[s rs] l IH]; [done|]. cbn. rewrite fmap_app, IH.
  f_equiv. rewrite <- list_fmap_compose. change (id <$> rs ≡ₚ rs). by rewrite list_fmap_id.
Qed.

(** *** The heap *)

Lemma pop_some x h : is_Some (pop (x :: h)).
Proof. cbn. destruct (pop h) as [[]|]; [|by eexists]. case_match; by eexists. Qed.

Lemma pop_spec h x h' : pop h = Some (x, h') -> h ≡ₚ x :: h' /\ forall y, y ∈ h' -> x.1 <= y.1.
Proof.
  revert x h'; induction h as [|e h IH]; intros x h'; cbn [pop]; [done|].
  destruct (pop h) as [[y rest]|] eqn:Hp.
  - destruct (IH y rest eq_refl) as [Hperm Hle]. unfold entry_leb.
    destruct (e.1 <? y.1) eqn:Hlt; [|destruct (e.1 =? y.1) eqn:Heq;
      [destruct (String.leb e.2 y.2)|]]; cbn; intros [= <- <-];
      rewrite ?Nat.ltb_lt, ?Nat.ltb_ge, ?Nat.eqb_eq, ?Nat.eqb_neq in *.
    + split; [done|]. intros z Hz. rewrite Hperm in Hz.
      apply elem_of_cons in Hz as [->|Hz%Hle]; lia.
    + split; [done|]. intros z Hz. rewrite Hperm in Hz.
      apply elem_of_cons in Hz as [->|Hz%Hle]; lia.
    + split; [rewrite Hperm; constructor|]. intros z [->|Hz%Hle]%elem_of_cons; lia.
    + split; [rewrite Hperm; constructor|]. intros z [->|Hz%Hle]%elem_of_cons; lia.
  - intros [= <- <-]. destruct h as [|z h]; [split; [done|]; by intros y ?%elem_of_nil|].
    by destruct (pop_some z h) as [? Hs]; rewrite Hs in Hp.
Qed.

Lemma assign_loop_total rs h m u : h <> [] -> is_Some (assign_loop rs h m u).
Proof.
  revert h m u; induction rs as [|r rs IH]; intros h m u Hh; cbn [assign_loop]; [by eexists|].
  destruct h as [|x h]; [done|]. destruct (pop_some x h) as [[[n s] h1] ->]. by apply IH.
Qed.

Lemma build_heap_nonempty `{HashOrder} m added ready : ready <> [] -> build_heap m added ready <> [].
Proof. unfold build_heap. intros Hr. case_match; [|done]. by destruct ready. Qed.

(** *** The invariant *)

Definition versions_ok (st : State) : Prop :=
  (forall v, is_Some (range_assignments st !! v) -> (v <= current_version st)%Z) /\
  (range_assignments st = ∅ \/ is_Some (range_assignments st !! current_version st)) /\
  size (range_assignments st) <= S MAX_VERSIONS_TO_KEEP.

Definition ranges_ok (st : State) : Prop :=
  NoDup (range_info_id <$> base_ranges st) /\
  assigned_now st ++ unassigned_base_ranges st ≡ₚ base_ranges st.

Definition plan_ok (p : Plan) (st : State) : Prop :=
  new_version p = (current_version st + 1)%Z /\
  all_ranges (assignee_to_range_info p) ≡ₚ base_ranges st /\
  forall r, r ∈ unassigned_base_ranges st -> range_info_id r ∈ assigned_ranges p.

Definition inv (c : Config) : Prop :=
  versions_ok (st c) /\ ranges_ok (st c) /\
  match pending c with Some (p, _) => plan_ok p (st c) | None => True end.

(** what a computation finds and plans *)
Lemma plan_spec `{HashOrder} prev st :
  versions_ok st -> ranges_ok st ->
  match plan prev st with
  | Ok None => True
  | Ok (Some p) => plan_ok p st
  | _ => False
  end.
Proof.
  intros (_ & Hcur & _) [Hnd Hperm]. unfold plan.
  destruct (size (ready_range_servers st) <? MIN_NUM_RANGE_SERVERS) eqn:Hsz; [done|].
  case_decide; [done|].
  assert (Hm : exists m, (if decide (range_assignments st = ∅) then Some ∅
            else group_assignments <$> range_assignments st !! current_version st) = Some m /\
            all_ranges m ≡ₚ assigned_now st).
  { unfold assigned_now. case_decide as He.
    - exists ∅. split; [done|]. by rewrite He, lookup_empty.
    - destruct Hcur as [|[l Hl]]; [done|]. rewrite Hl. eexists. split; [done|]. apply all_ranges_group. }
  destruct Hm as (m & -> & Hall).
  destruct (take_removed _ m _) as [m1 rs] eqn:Ht.
  destruct (take_removed_spec _ _ _ _ _ Ht) as [Hp [more Hrs]].
  assert (Hne : hash_iter (dom (ready_range_servers st)) <> []).
  { intros Hn. apply (f_equal length) in Hn. rewrite hash_iter_length, size_dom in Hn.
    apply Nat.ltb_ge in Hsz. unfold MIN_NUM_RANGE_SERVERS in Hsz. cbn in Hn. lia. }
  set (h := build_heap _ _ _).
  destruct (assign_loop_total rs h m1 []) as [[[h' m2] u] Ha]; [by apply build_heap_nonempty|].
  rewrite Ha. split; [done|]. cbn. split.
  - rewrite (assign_loop_ranges _ _ _ _ _ _ _ Ha), Hp, Hall. exact Hperm.
  - intros r Hr. apply list_elem_of_fmap_2. rewrite Hrs. apply elem_of_app. by left.
Qed.

Lemma oldest_in m v : oldest m = Some v -> is_Some (m !! v).
Proof.
  unfold oldest. destruct (map_to_list m).*1 as [|x xs] eqn:E; [done|]. intros [= <-].
  assert (Hin : foldl Z.min x xs ∈ x :: xs).
  { clear. revert x. induction xs as [|y xs IH]; intros x; [by left|]. cbn [foldl].
    specialize (IH (Z.min x y)). apply elem_of_cons in IH as [Heq|Hin]; [|by do 2 right].
    rewrite Heq. destruct (Z.min_spec x y) as [[_ ->]|[_ ->]]; [by left|by right; left]. }
  rewrite <- E in Hin. apply list_elem_of_fmap in Hin as ([v l] & -> & Hin).
  apply elem_of_map_to_list in Hin. by eexists.
Qed.

Lemma oldest_some m : m <> ∅ -> is_Some (oldest m).
Proof.
  intros Hm. unfold oldest. destruct (map_to_list m) as [|[v l] xs] eqn:E; [|by eexists].
  by apply map_to_list_empty_iff in E.
Qed.

(** the versions that are kept when a new one is installed *)
Lemma kept_versions m :
  size m <= S MAX_VERSIONS_TO_KEEP ->
  let kept := if MAX_VERSIONS_TO_KEEP <? size m then
                match oldest m with Some v => delete v m | None => m end
              else m in
  kept ⊆ m /\ size kept <= MAX_VERSIONS_TO_KEEP.
Proof.
  intros Hsz. destruct (MAX_VERSIONS_TO_KEEP <? size m) eqn:Hlt; cbn zeta.
  - apply Nat.ltb_lt in Hlt. destruct (oldest_some m) as [v Hv].
    { intros ->. rewrite map_size_empty in Hlt. lia. }
    rewrite Hv. split; [apply delete_subseteq|]. rewrite map_size_delete_Some by by apply oldest_in.
    lia.
  - apply Nat.ltb_ge in Hlt. done.
Qed.

Lemma install_spec `{HashOrder} p st :
  versions_ok st -> ranges_ok st -> plan_ok p st ->
  let (st', r) := install p st in
  r = Ok tt /\ versions_ok st' /\ ranges_ok st' /\ unassigned_base_ranges st' = [] /\
  current_version st' = (current_version st + 1)%Z /\ base_ranges st' = base_ranges st /\
  assigned_now st' ≡ₚ base_ranges st.
Proof.
  intros (Hle & Hcur & Hsz) [Hnd Hperm] (Hv & Hall & Hun). unfold install.
  destruct (kept_versions _ Hsz) as [Hsub Hkept].
  set (kept := if MAX_VERSIONS_TO_KEEP <? _ then _ else _) in *.
  assert (Hnew : kept !! new_version p = None).
  { destruct (kept !! new_version p) as [l|] eqn:E; [|done]. exfalso.
    pose proof (lookup_weaken _ _ _ _ E Hsub) as E'.
    pose proof (Hle (new_version p) (ex_intro _ l E')). lia. }
  rewrite decide_False by (rewrite Hnew; by intros []).
  assert (Hnil : filter (fun r => range_info_id r ∉ assigned_ranges p) (unassigned_base_ranges st) = []).
  { destruct (filter _ _) as [|r l] eqn:Ef; [done|]. exfalso.
    assert (Hr : r ∈ r :: l) by left. rewrite <- Ef in Hr.
    apply list_elem_of_filter in Hr as [Hno Hr]. by apply Hno, Hun. }
  assert (Hnow : assigned_now (mkState (base_ranges st)
      (<[new_version p := flatten (assignee_to_range_info p)]> kept) (new_version p)
      (ready_range_servers st) []) ≡ₚ base_ranges st).
  { unfold assigned_now. cbn. rewrite lookup_insert_eq. cbn. by rewrite flatten_ranges. }
  rewrite Hnil. split_and!; cbn; try done.
  - split_and!; cbn.
    + intros v [l Hl]. destruct (decide (new_version p = v)) as [->|Hne]; [lia|].
      rewrite lookup_insert_ne in Hl by done. pose proof (lookup_weaken _ _ _ _ Hl Hsub) as Hl'.
      pose proof (Hle v (ex_intro _ l Hl')). lia.
    + right. rewrite lookup_insert_eq. by eexists.
    + rewrite map_size_insert_None by done. lia.
  - split; cbn; [done|]. rewrite app_nil_r. exact Hnow.
Qed.

Lemma NoDup_fmap_filter {A B} (f : A -> B) (P : A -> Prop) `{forall x, Decision (P x)} (l : list A) :
  NoDup (f <$> l) -> NoDup (f <$> filter P l).
Proof.
  induction l as [|x l IH]; [done|]. rewrite fmap_cons, NoDup_cons. intros [Hx Hl].
  rewrite filter_cons. case_decide; [|by apply IH]. rewrite fmap_cons. apply NoDup_cons.
  split; [|by apply IH]. intros (y & Hy & Hin)%list_elem_of_fmap. apply Hx.
  apply list_elem_of_filter in Hin as [_ Hin]. rewrite Hy. by apply list_elem_of_fmap_2.
Qed.

Lemma read_spec parse_uuid response persisted st :
  (forall rs, response ≫= read_keyspaces parse_uuid = Some rs -> NoDup (range_info_id <$> rs)) ->
  versions_ok st -> ranges_ok st ->
  versions_ok (read_base_ranges parse_uuid response persisted st).1 /\
  ranges_ok (read_base_ranges parse_uuid response persisted st).1.
Proof.
  intros Hnd Hv [Hids Hperm]. unfold read_base_ranges.
  destruct (response ≫= read_keyspaces parse_uuid) as [rs|]; [|done].
  specialize (Hnd rs eq_refl). destruct (forallb _ _); [|done]. destruct persisted; [|done].
  split; [done|]. split; cbn.
  - rewrite fmap_app. apply NoDup_app. split_and!; [done| |].
    + intros i Hi (r & -> & Hr)%list_elem_of_fmap. by apply list_elem_of_filter in Hr as [? _].
    + by apply NoDup_fmap_filter.
  - unfold assigned_now in *. cbn. by rewrite app_assoc, Hperm.
Qed.

Lemma inv_warden_step c c' : step c c' -> inv c -> inv c'.
Proof.
  destruct 1 as [c h|c h|c parse response persisted Hp Hnd|c order Hp Hw|c order p Hp Hpl
    |c order p ready Hp|c p ready Hp]; intros (Hv & Hr & Hpend).
  - unfold register_range_server. repeat case_match; done.
  - unfold notify_range_server_unavailable. repeat case_match; done.
  - destruct (read_spec parse response persisted (st c) Hnd Hv Hr). done.
  - done.
  - pose proof (plan_spec (H := order) (prev c) (st c) Hv Hr) as Hs. rewrite Hpl in Hs. done.
  - rewrite Hp in Hpend. pose proof (install_spec (H := order) p (st c) Hv Hr Hpend) as Hi.
    destruct (install p (st c)) as [st' r]. destruct Hi as (_ & ? & ? & _). done.
  - done.
Qed.

Lemma inv_warden t c : rtc step (init t) c -> inv c.
Proof.
  revert c. apply rtc_ind_r.
  - split_and!; [split_and!; [by intros v []|by left|cbn; rewrite map_size_empty; lia]| |done].
    split; [constructor|done].
  - intros c c' _ Hs Hi. by eapply inv_warden_step.
Qed.

Lemma current_ids_distinct t c :
  rtc step (init t) c -> NoDup (range_info_id <$> assigned_now (st c)).
Proof.
  intros (_ & [Hnd Hperm] & _)%inv_warden. rewrite <- Hperm, fmap_app in Hnd.
  by apply NoDup_app in Hnd as [? _].
Qed.

(** *** Loads *)

(** the number of ranges of a server *)
Definition load (m : Assigned) (s : string) : nat := length (default [] (m !! s)).

Definition accurate (h : Heap) (m : Assigned) : Prop :=
  NoDup h.*2 /\ forall n s, (n, s) ∈ h -> n = load m s.

Lemma load_add m s r s' : load (add_range m s r) s' = if decide (s' = s) then S (load m s) else load m s'.
Proof.
  unfold load, add_range. destruct (decide (s' = s)) as [->|Hne].
  - rewrite lookup_insert_eq. cbn. rewrite length_app. cbn. lia.
  - by rewrite lookup_insert_ne.
Qed.

(** a server with a bounded load: at most one more than any other *)
Definition bounded (h : Heap) (s : string) : Prop :=
  exists n, (n, s) ∈ h /\ forall y, y ∈ h -> n <= S y.1.

Lemma bounded_step h n s h' s' :
  pop h = Some ((n, s), h') -> NoDup h.*2 -> s' = s \/ bounded h s' -> bounded ((S n, s) :: h') s'.
Proof.
  intros Hp Hnd Hs. destruct (pop_spec _ _ _ Hp) as [Hperm Hle]. cbn in Hle.
  destruct (decide (s' = s)) as [->|Hne].
  - exists (S n). split; [by left|]. intros y [->|Hy%Hle]%elem_of_cons; cbn; lia.
  - destruct Hs as [?|(k & Hk & Hb)]; [done|]. exists k. rewrite Hperm in Hk.
    apply elem_of_cons in Hk as [[= _ ?]|Hk]; [done|]. split; [by right|].
    intros y [->|Hy]%elem_of_cons; cbn.
    + assert (k <= S n); [|lia]. apply (Hb (n, s)). rewrite Hperm. by left.
    + apply Hb. rewrite Hperm. by right.
Qed.

Lemma assign_loop_balance rs h m u h' m' u' :
  assign_loop rs h m u = Some (h', m', u') -> accurate h m ->
  (forall a, a ∈ u -> bounded h (assignee a)) ->
  accurate h' m' /\ h'.*2 ≡ₚ h.*2 /\ (forall a, a ∈ u' -> bounded h' (assignee a)).
Proof.
  revert h m u; induction rs as [|r rs IH]; intros h m u; cbn [assign_loop].
  { by intros [= <- <- <-]. }
  destruct (pop h) as [[[n s] h1]|] eqn:Hp; [|done]. intros Ha [Hnd Hacc] Hu.
  destruct (pop_spec _ _ _ Hp) as [Hperm _].
  assert (Hperm2 : h.*2 ≡ₚ s :: h1.*2) by (by rewrite Hperm).
  assert (Hnd1 : s ∉ h1.*2 /\ NoDup h1.*2) by (rewrite Hperm2 in Hnd; by apply NoDup_cons in Hnd).
  apply IH in Ha as (Hacc' & Hp' & Hu').
  - split_and!; [done|by rewrite Hp', Hperm2|done].
  - split; [cbn; by apply NoDup_cons|]. intros k s' Hk. rewrite load_add.
    apply elem_of_cons in Hk as [[= -> ->]|Hk].
    + rewrite decide_True by done. f_equal. apply Hacc. rewrite Hperm. by left.
    + rewrite decide_False; [apply Hacc; rewrite Hperm; by right|].
      intros ->. apply (proj1 Hnd1). apply list_elem_of_fmap. by exists (k, s).
  - intros a [Ha'%Hu| ->%list_elem_of_singleton]%elem_of_app; eapply bounded_step; eauto.
Qed.

Lemma hash_iter_nil `{HashOrder} (X : gset HostIdentity) : X = ∅ -> hash_iter X = [].
Proof. intros ->. apply nil_length_inv. rewrite hash_iter_length. apply size_empty. Qed.

Lemma plan_no_removed `{HashOrder} prev st p :
  plan prev st = Ok (Some p) -> dom prev ⊆ dom (ready_range_servers st) ->
  range_assignments st = ∅ \/ is_Some (range_assignments st !! current_version st) ->
  let m := group_assignments (default [] (range_assignments st !! current_version st)) in
  exists h', assign_loop (unassigned_base_ranges st)
    (build_heap m (hash_iter (dom (ready_range_servers st) ∖ dom prev))
       (hash_iter (dom (ready_range_servers st)))) m [] =
    Some (h', assignee_to_range_info p, updated_assignments p).
Proof.
  intros Hplan Hsub Hcur m. unfold plan in Hplan.
  rewrite (hash_iter_nil (dom prev ∖ dom (ready_range_servers st))) in Hplan by set_solver.
  destruct (size _ <? _); [done|]. destruct (decide (_ /\ _)); [done|].
  assert (Hm : (if decide (range_assignments st = ∅) then Some ∅
            else group_assignments <$> range_assignments st !! current_version st) = Some m).
  { unfold m. case_decide as He; [by rewrite He, lookup_empty|].
    destruct Hcur as [|[l ->]]; done. }
  rewrite Hm in Hplan. cbn [take_removed] in Hplan.
  destruct (assign_loop _ _ m []) as [[[h' m2] u]|] eqn:Hl; [|done].
  injection Hplan as <-. by exists h'.
Qed.

Lemma build_heap_accurate `{HashOrder} m added ready s :
  NoDup (name <$> added) -> (forall x, x ∈ name <$> added -> m !! x = None) ->
  s ∈ name <$> added \/ is_Some (m !! s) ->
  accurate (build_heap m added ready) m /\ s ∈ (build_heap m added ready).*2.
Proof.
  intros Hnd Hfresh Hs.
  set (h := ((fun e : string * list RangeInfo => (length e.2, e.1)) <$> hash_iter_map m) ++
            ((fun i => (0, name i)) <$> added)).
  assert (Hnames : h.*2 = (hash_iter_map m).*1 ++ (name <$> added)).
  { unfold h. rewrite fmap_app, <- !list_fmap_compose. done. }
  assert (Hin : s ∈ h.*2).
  { rewrite Hnames, elem_of_app. destruct Hs as [?|[rs Hs]]; [by right|left].
    apply list_elem_of_fmap. exists (s, rs). split; [done|]. by apply hash_iter_map_elem_of. }
  assert (Hb : build_heap m added ready = h).
  { unfold build_heap. fold h. destruct h; [by apply elem_of_nil in Hin|done]. }
  rewrite Hb. split; [|done]. split.
  - rewrite Hnames. apply NoDup_app. split_and!; [apply hash_iter_map_NoDup| |done].
    intros x ([x' rs] & -> & Hx%hash_iter_map_elem_of)%list_elem_of_fmap Hadd.
    cbn in Hadd. rewrite (Hfresh _ Hadd) in Hx. done.
  - intros n x. unfold h. rewrite elem_of_app, !list_elem_of_fmap. unfold load.
    intros [([y rs] & [= -> ->] & Hy%hash_iter_map_elem_of)|(i & [= -> ->] & Hi)].
    + by rewrite Hy.
    + by rewrite Hfresh by by apply list_elem_of_fmap_2.
Qed.

(** ** Properties *)

(** C9: no range is lost, and none is assigned twice. Whatever connections come
    and go, and whether the plans can be stored or not, every base range is
    either in the current assignment or waiting, exactly once; a computation does
    not panic; and when a plan is installed, every base range is assigned to
    exactly one server and none is waiting. *)
Theorem every_range_assigned_once t c :
  rtc step (init t) c ->
  NoDup (range_info_id <$> base_ranges (st c)) /\
  assigned_now (st c) ++ unassigned_base_ranges (st c) ≡ₚ base_ranges (st c) /\
  (forall order, plan (H := order) (prev c) (st c) <> Panic) /\
  (forall order p ready, pending c = Some (p, ready) ->
     let (st', r) := install (H := order) p (st c) in
     r = Ok tt /\ unassigned_base_ranges st' = [] /\ assigned_now st' ≡ₚ base_ranges st' /\
     base_ranges st' = base_ranges (st c)).
Proof.
  intros (Hv & [Hnd Hperm] & Hp)%inv_warden. split_and!; [done..| |].
  - intros order Hpanic. pose proof (plan_spec (H := order) (prev c) (st c) Hv (conj Hnd Hperm)) as Hs.
    by rewrite Hpanic in Hs.
  - intros order p ready Hpend. rewrite Hpend in Hp.
    pose proof (install_spec (H := order) p (st c) Hv (conj Hnd Hperm) Hp) as Hi.
    destruct (install p (st c)) as [st' r]. destruct Hi as (-> & _ & _ & -> & _ & Hb & Hn).
    by rewrite Hb.
Qed.

(** A connected server can always be told its ranges. In every reachable
    state in which there is an assignment, a stream that receives the current
    version yields the ranges that are currently assigned to its server, under
    that version; versions only grow, and at most six of them are kept. *)
Theorem current_version_available t c s :
  rtc step (init t) c -> range_assignments (st c) <> ∅ ->
  (exists l, (poll_next (Version (current_version (st c))) s (st c)).2 =
     Some (Ok (current_version (st c),
       (fun a => (range_keyspace_id (range a), range_info_id (range a))) <$>
         filter (fun a => assignee a = name (identity (stream_host s))) l)) /\
     range <$> l = assigned_now (st c)) /\
  (forall v, is_Some (range_assignments (st c) !! v) -> (v <= current_version (st c))%Z) /\
  size (range_assignments (st c)) <= 6.
Proof.
  intros ((Hle & [?|[l Hl]] & Hsz) & _)%inv_warden Hne; [done|]. split_and!; [|done..].
  exists l. unfold poll_next, get_assignment_update, assigned_now. by rewrite Hl.
Qed.

(** Assignments are balanced. When no server has gone and the new servers
    have names of their own, a server that is given a range ends up with at most
    one range more than any server that is assigned ranges or is new. *)
Theorem assignment_is_balanced `{HashOrder} prev st p a s :
  plan prev st = Ok (Some p) -> dom prev ⊆ dom (ready_range_servers st) ->
  let m := group_assignments (default [] (range_assignments st !! current_version st)) in
  let added := name <$> hash_iter (dom (ready_range_servers st) ∖ dom prev) in
  (range_assignments st = ∅ \/ is_Some (range_assignments st !! current_version st)) ->
  NoDup added -> (forall x, x ∈ added -> m !! x = None) ->
  a ∈ updated_assignments p -> s ∈ added \/ is_Some (m !! s) ->
  load (assignee_to_range_info p) (assignee a) <= S (load (assignee_to_range_info p) s).
Proof.
  intros Hplan Hsub m added Hcur Hnd Hfresh Ha Hs.
  destruct (plan_no_removed _ _ _ Hplan Hsub Hcur) as (h' & Hloop). fold m in Hloop.
  destruct (build_heap_accurate m (hash_iter (dom (ready_range_servers st) ∖ dom prev))
    (hash_iter (dom (ready_range_servers st))) s Hnd Hfresh Hs) as [Hacc Hin].
  destruct (assign_loop_balance _ _ _ _ _ _ _ Hloop Hacc) as ([_ Hacc'] & Hp & Hb);
    [by intros ? ?%elem_of_nil|].
  destruct (Hb a Ha) as (n & Hn & Hle). rewrite <- Hp in Hin.
  apply list_elem_of_fmap in Hin as ([k s'] & -> & Hk). cbn.
  rewrite <- (Hacc' _ _ Hn), <- (Hacc' _ _ Hk). apply (Hle _ Hk).
Qed.

(** A connection is replaced only by a newer one, and a late disconnect of an
    old connection does not drop its successor. *)
Theorem newest_connection_stays h h' st :
  identity h' = identity h -> ready_range_servers st !! identity h = Some h ->
  (warden_connection_epoch h' <= warden_connection_epoch h)%Z ->
  register_range_server h' st = (st, Err tt) /\
  ((warden_connection_epoch h' < warden_connection_epoch h)%Z ->
   notify_range_server_unavailable h' st = st).
Proof.
  intros Hid Hh Hle. unfold register_range_server, notify_range_server_unavailable.
  rewrite Hid, Hh. split.
  - by rewrite (proj2 (Z.leb_le _ _) Hle).
  - intros Hlt. by rewrite (proj2 (Z.leb_gt _ _) Hlt).
Qed.

(** The ranges of a server that has gone are forgotten when the plan that
    reassigns them cannot be stored. The next computations only wait, until some
    server comes or goes or a new range appears, and the ranges stay assigned to
    the server that has gone. *)
Theorem failed_store_forgets_removal `{HashOrder} prev st p :
  plan prev st = Ok (Some p) -> unassigned_base_ranges st = [] ->
  run_assignment_computation prev false st = (st, ready_range_servers st, Ok tt) /\
  plan (ready_range_servers st) st = Ok None.
Proof.
  intros Hp Hun. unfold run_assignment_computation. rewrite Hp. split; [done|].
  unfold plan. rewrite !(hash_iter_nil (_ ∖ _)) by set_solver.
  destruct (size _ <? _); [done|]. by rewrite decide_True.
Qed.

(** ** Witnesses *)

Definition sample_host (n : string) : HostInfo :=
  mkHostInfo (mkHostIdentity n (Region.mkZone (Region.mkRegion None "") "z")) "" 1.
Definition sample_range (i : Uuid) : RangeInfo :=
  mkRangeInfo (mkKeyspaceId 1) i (mkKeyRange None None).
Definition sample_servers (l : list HostInfo) : Servers :=
  list_to_map ((fun h => (identity h, h)) <$> l).

(** server a has one range and server b has two; a is gone *)
Definition sample_gone : State :=
  mkState [sample_range 1; sample_range 2; sample_range 3]
    {[ 5%Z := [mkRangeAssignment (sample_range 1) "a"; mkRangeAssignment (sample_range 2) "b";
               mkRangeAssignment (sample_range 3) "b"] ]} 5
    (sample_servers [sample_host "b"]) [].
Definition sample_prev : Servers := sample_servers [sample_host "a"; sample_host "b"].

(** A server that has gone can be given ranges. The heap of the least loaded
    servers is built before the removed servers are taken out of the assignment,
    and they stay in it: the range of the server that has gone is assigned to
    that server again, and is served by nobody. *)
Theorem removed_server_gets_ranges :
  let res := run_assignment_computation (H := element_order) sample_prev true sample_gone in
  res.2 = Ok tt /\ name <$> elements (dom res.1.2) = ["b"] /\
  mkRangeAssignment (sample_range 1) "a" ∈
    default [] (range_assignments res.1.1 !! current_version res.1.1).
Proof.
  split; [vm_compute; reflexivity|]. split; [vm_compute; reflexivity|]. vm_compute. left.
Qed.

(** two servers come, and four ranges are read *)
Definition sample_parse (s : string) : option Uuid := Some (N.of_nat (String.length s)).
Definition sample_response : list ProtoKeyspace :=
  [mkProtoKeyspace "k" [mkProtoRange "r" [] []; mkProtoRange "rr" [] []; mkProtoRange "rrr" [] []]].
Definition sample_ready : Config :=
  mkConfig (register_range_server (sample_host "b")
             (register_range_server (sample_host "a") (new 4)).1).1 ∅ None.
Definition sample_read : Config :=
  mkConfig (read_base_ranges sample_parse (Some sample_response) true (st sample_ready)).1 ∅ None.
Definition sample_plan : Plan :=
  match plan (H := element_order) ∅ (st sample_read) with
  | Ok (Some p) => p
  | _ => mkPlan 0 [] [] ∅
  end.
Definition sample_planned : Config :=
  mkConfig (st sample_read) ∅ (Some (sample_plan, ready_range_servers (st sample_read))).
Definition sample_installed : Config :=
  mkConfig (install (H := element_order) sample_plan (st sample_planned)).1
    (ready_range_servers (st sample_read)) None.

Lemma sample_planned_steps : rtc step (init 4) sample_planned.
Proof.
  eapply rtc_l; [apply (step_register _ (sample_host "a"))|].
  eapply rtc_l; [apply (step_register _ (sample_host "b"))|].
  eapply rtc_l.
  { apply (step_read _ sample_parse (Some sample_response) true); [done|].
    intros rs Hrs. vm_compute in Hrs. injection Hrs as <-. by_decision. }
  apply rtc_once. apply (step_plan sample_read element_order sample_plan); vm_compute; reflexivity.
Qed.

Lemma sample_installed_steps : rtc step (init 4) sample_installed.
Proof.
  eapply rtc_r; [apply sample_planned_steps|].
  exact (step_install sample_planned element_order sample_plan (ready_range_servers (st sample_read))
    eq_refl).
Qed.

Lemma every_range_assigned_once_witness :
  assigned_now (st sample_installed) ++ unassigned_base_ranges (st sample_installed)
    ≡ₚ base_ranges (st sample_installed).
Proof.
  destruct (every_range_assigned_once 4 sample_installed sample_installed_steps) as (_ & Hp & _).
  exact Hp.
Defined.

Lemma current_version_available_witness : size (range_assignments (st sample_installed)) <= 6.
Proof.
  destruct (current_version_available 4 sample_installed (mkStream false (sample_host "a"))
    sample_installed_steps)
    as (_ & _ & Hsz); [|exact Hsz].
  intros He. apply (f_equal size) in He. vm_compute in He. discriminate.
Defined.

Lemma assignment_is_balanced_witness :
  load (assignee_to_range_info sample_plan) "a" <= S (load (assignee_to_range_info sample_plan) "b").
Proof.
  apply (assignment_is_balanced (H := element_order) ∅ (st sample_read) sample_plan
    (mkRangeAssignment (sample_range 1) "a") "b").
  - vm_compute; reflexivity.
  - by_decision.
  - left. reflexivity.
  - by_decision.
  - intros x _. reflexivity.
  - vm_compute. left.
  - left. by_decision.
Defined.

Lemma newest_connection_stays_witness :
  register_range_server (sample_host "a") (st sample_ready) = (st sample_ready, Err tt).
Proof.
  apply (newest_connection_stays (sample_host "a") (sample_host "a") (st sample_ready));
    [reflexivity|vm_compute; reflexivity|lia].
Defined.

Lemma failed_store_forgets_removal_witness :
  plan (H := element_order) (ready_range_servers sample_gone) sample_gone = Ok None.
Proof.
  destruct (plan (H := element_order) sample_prev sample_gone) as [[p|]|e|] eqn:E;
    [|by vm_compute in E..].
  apply (failed_store_forgets_removal (H := element_order) sample_prev sample_gone p);
    [exact E|reflexivity].
Defined.

End Warden.
