(* ===== verification/WardenHandler.v ===== *)
(** * The warden handler of a range server:
      [src/rangeserver/src/warden_handler.rs]

    The handler keeps the ranges that the warden has assigned to the server and
    tells the server what to load and to unload. The receiving end of the
    updates is the server's loop, which lives as long as the handler sends. *)

From stdpp Require Import base tactics list numbers option gmap sets strings.
From S2P Require Import Prelude Common.

Module WardenHandler.
Import Common.

Inductive WardenUpdate :=
| LoadRange (r : FullRangeId)
| UnloadRange (r : FullRangeId).

Record StartedState := mkStartedState {
  stopper : bool;                      (** the token is cancelled *)
  assigned_ranges : gset FullRangeId;
}.

(** [Started] points to the [StartedState] that the spawned task shares; there
    is at most one, kept in [shared] below. *)
Inductive State :=
| NotStarted
| Started
| Stopped.

(** the task spawned by [start]: before it has a connection or between two,
    reading the stream of one, returned, or ended by a panic *)
Inductive Task :=
| NoTask
| Disconnected
| Connected
| Returned
| Panicked.

Record WardenHandler := mkWardenHandler {
  state : State;
  shared : StartedState;   (** meaningful once started *)
  task : Task;
}.

Definition new : WardenHandler := mkWardenHandler NotStarted (mkStartedState false ∅) NoTask.

(** ** Messages of the warden *)

Record ProtoRangeId := mkProtoRangeId { proto_keyspace_id : string; proto_range_id : string }.

Inductive ProtoUpdate :=
| FullAssignment (version : Z) (range : list ProtoRangeId)
| IncrementalAssignment (version : Z) (load unload : list ProtoRangeId).

Section Operations.
(** [Uuid::from_str] *)
Variable parse_uuid : string -> option Uuid.

(** [None] is the panic on a malformed identifier *)
Definition full_range_id_from_proto (p : ProtoRangeId) : option FullRangeId :=
  ks ← parse_uuid (proto_keyspace_id p);
  r ← parse_uuid (proto_range_id p);
  Some (mkFullRangeId (mkKeyspaceId ks) r).

(** the loop over the ranges to load: what was sent, the assignment it leaves
    and whether it ran to its end *)
Fixpoint load_loop (l : list ProtoRangeId) (sent : list WardenUpdate) (assigned : gset FullRangeId)
    : list WardenUpdate * gset FullRangeId * bool :=
  match l with
  | [] => (sent, assigned, true)
  | p :: l' =>
      match full_range_id_from_proto p with
      | None => (sent, assigned, false)
      | Some r =>
          load_loop l' (if decide (r ∈ assigned) then sent else sent ++ [LoadRange r])
            ({[r]} ∪ assigned)
      end
  end.

Fixpoint unload_loop (l : list ProtoRangeId) (sent : list WardenUpdate)
    (assigned : gset FullRangeId) : list WardenUpdate * gset FullRangeId * bool :=
  match l with
  | [] => (sent, assigned, true)
  | p :: l' =>
      match full_range_id_from_proto p with
      | None => (sent, assigned, false)
      | Some r =>
          unload_loop l' (if decide (r ∈ assigned) then sent ++ [UnloadRange r] else sent)
            (assigned ∖ {[r]})
      end
  end.

(** [update] is [None] in an empty message; the boolean is false on a panic *)
Definition process_warden_update `{HashOrder} (update : option ProtoUpdate)
    (assigned : gset FullRangeId) : list WardenUpdate * gset FullRangeId * bool :=
  match update with
  | None => ([], assigned, false)
  | Some (FullAssignment _ range) =>
      match mapM full_range_id_from_proto range with
      | None => ([], assigned, false)
      | Some l =>
          let new_assignment : gset FullRangeId := list_to_set l in
          ((UnloadRange <$> filter (fun r => r ∉ new_assignment) (hash_iter assigned)) ++
           (LoadRange <$> filter (fun r => r ∉ assigned) (hash_iter new_assignment)),
           new_assignment, true)
      end
  | Some (IncrementalAssignment _ load unload) =>
      match load_loop load [] assigned with
      | (sent, assigned1, true) => unload_loop unload sent assigned1
      | stopped => stopped
      end
  end.

(** [start]: [known_region] is whether the configuration has the region of the
    host; the errors are messages *)
Definition start (known_region : bool) (h : WardenHandler) : WardenHandler * result string unit :=
  match state h with
  | NotStarted =>
      if known_region
      then (mkWardenHandler Started (mkStartedState false ∅) Disconnected, Ok tt)
      else (h, Err "unknown region!")
  | _ => (h, Err "warden_handler can only be started once")
  end.

Definition stop (h : WardenHandler) : WardenHandler :=
  match state h with
  | Started => mkWardenHandler Stopped (mkStartedState true (assigned_ranges (shared h))) (task h)
  | _ => mkWardenHandler Stopped (shared h) (task h)
  end.

Definition is_assigned (r : FullRangeId) (h : WardenHandler) : bool :=
  match state h with
  | Started => bool_decide (r ∈ assigned_ranges (shared h))
  | _ => false
  end.

(** The task, an event of its loop at a time: [connect] is a registration that
    the warden accepts (a refused one leaves the task between connections), and
    the others are the cases of the [select!] on an open stream. *)
Definition connect (h : WardenHandler) : WardenHandler :=
  match task h with
  | Disconnected => mkWardenHandler (state h) (shared h) Connected
  | _ => h
  end.

Definition message `{HashOrder} (update : option ProtoUpdate) (h : WardenHandler)
    : WardenHandler * list WardenUpdate :=
  match task h with
  | Connected =>
      let '(sent, assigned, finished) := process_warden_update update (assigned_ranges (shared h)) in
      (mkWardenHandler (state h) (mkStartedState (stopper (shared h)) assigned)
         (if finished then Connected else Panicked), sent)
  | _ => (h, [])
  end.

Definition connection_lost (h : WardenHandler) : WardenHandler :=
  match task h with
  | Connected => mkWardenHandler (state h) (shared h) Disconnected
  | _ => h
  end.

Definition cancelled (h : WardenHandler) : WardenHandler :=
  match task h with
  | Connected =>
      if stopper (shared h) then mkWardenHandler (state h) (shared h) Returned else h
  | _ => h
  end.

(** The calls and events of a handler, with the updates they send *)
Inductive step : WardenHandler -> list WardenUpdate -> WardenHandler -> Prop :=
| step_start known h : step h [] (start known h).1
| step_stop h : step h [] (stop h)
| step_connect h : step h [] (connect h)
| step_message (order : HashOrder) update h :
    step h (message update h).2 (message update h).1
| step_connection_lost h : step h [] (connection_lost h)
| step_cancelled h : step h [] (cancelled h).

Inductive run : WardenHandler -> list WardenUpdate -> WardenHandler -> Prop :=
| run_nil h : run h [] h
| run_snoc h0 sent h us h' : run h0 sent h -> step h us h' -> run h0 (sent ++ us) h'.

(** ** What the server has been told *)

(** the ranges a server that follows the updates has *)
Definition follow (ranges : gset FullRangeId) (u : WardenUpdate) : gset FullRangeId :=
  match u with
  | LoadRange r => {[r]} ∪ ranges
  | UnloadRange r => ranges ∖ {[r]}
  end.

(** an update that changes something *)
Definition effective (ranges : gset FullRangeId) (u : WardenUpdate) : Prop :=
  match u with
  | LoadRange r => r ∉ ranges
  | UnloadRange r => r ∈ ranges
  end.

Fixpoint all_effective (ranges : gset FullRangeId) (us : list WardenUpdate) : Prop :=
  match us with
  | [] => True
  | u :: us' => effective ranges u /\ all_effective (follow ranges u) us'
  end.

Lemma all_effective_app ranges us vs :
  all_effective ranges (us ++ vs) <->
  all_effective ranges us /\ all_effective (foldl follow ranges us) vs.
Proof.
  revert ranges; induction us as [|u us IH]; intros ranges; cbn; [naive_solver|]. rewrite IH. naive_solver.
Qed.

Definition tracks (start : gset FullRangeId) (sent : list WardenUpdate) (assigned : gset FullRangeId)
    : Prop :=
  foldl follow start sent = assigned /\ all_effective start sent.

Lemma tracks_snoc start sent assigned u :
  tracks start sent assigned -> effective assigned u -> tracks start (sent ++ [u]) (follow assigned u).
Proof.
  intros [Hf He] Hu. split.
  - by rewrite foldl_app, Hf.
  - apply all_effective_app. split; [done|]. by rewrite Hf.
Qed.

Lemma load_loop_tracks start l sent assigned sent' assigned' b :
  tracks start sent assigned -> load_loop l sent assigned = (sent', assigned', b) ->
  tracks start sent' assigned'.
Proof.
  revert sent assigned; induction l as [|p l IH]; intros sent assigned Ht; cbn [load_loop].
  { by intros [= <- <- <-]. }
  destruct (full_range_id_from_proto p) as [r|]; [|by intros [= <- <- <-]].
  apply IH. case_decide as Hr; [|by apply (tracks_snoc start sent assigned (LoadRange r))].
  by replace ({[r]} ∪ assigned) with assigned by set_solver.
Qed.

Lemma unload_loop_tracks start l sent assigned sent' assigned' b :
  tracks start sent assigned -> unload_loop l sent assigned = (sent', assigned', b) ->
  tracks start sent' assigned'.
Proof.
  revert sent assigned; induction l as [|p l IH]; intros sent assigned Ht; cbn [unload_loop].
  { by intros [= <- <- <-]. }
  destruct (full_range_id_from_proto p) as [r|]; [|by intros [= <- <- <-]].
  apply IH. case_decide as Hr; [by apply (tracks_snoc start sent assigned (UnloadRange r))|].
  by replace (assigned ∖ {[r]}) with assigned by set_solver.
Qed.

(** unloading, then loading, the members of lists without repetitions *)
Lemma unloads_track l ranges :
  NoDup l -> (forall r, r ∈ l -> r ∈ ranges) ->
  tracks ranges (UnloadRange <$> l) (ranges ∖ list_to_set l).
Proof.
  revert ranges; induction l as [|r l IH]; intros ranges Hnd Hin; cbn.
  { split; [cbn; set_solver|done]. }
  apply NoDup_cons in Hnd as [Hr Hnd].
  destruct (IH (ranges ∖ {[r]}) Hnd) as [Hf He].
  { intros x Hx. apply elem_of_difference. split; [apply Hin; by right|]. set_solver. }
  split; cbn; [rewrite Hf; set_solver|]. split; [apply Hin; by left|done].
Qed.

Lemma loads_track l ranges :
  NoDup l -> (forall r, r ∈ l -> r ∉ ranges) ->
  tracks ranges (LoadRange <$> l) (ranges ∪ list_to_set l).
Proof.
  revert ranges; induction l as [|r l IH]; intros ranges Hnd Hin; cbn.
  { split; [cbn; set_solver|done]. }
  apply NoDup_cons in Hnd as [Hr Hnd].
  destruct (IH ({[r]} ∪ ranges) Hnd) as [Hf He].
  { intros x Hx. assert (x <> r) by (by intros ->). assert (x ∉ ranges) by (apply Hin; by right).
    set_solver. }
  split; cbn; [rewrite Hf; set_solver|]. split; [apply Hin; by left|done].
Qed.

Lemma process_tracks `{HashOrder} update assigned sent assigned' b :
  process_warden_update update assigned = (sent, assigned', b) -> tracks assigned sent assigned'.
Proof.
  assert (Hnil : tracks assigned [] assigned) by done.
  unfold process_warden_update. destruct update as [[v l|v ld ul]|]; [| |by intros [= <- <- <-]].
  - destruct (mapM full_range_id_from_proto l) as [rs|]; [|by intros [= <- <- <-]].
    intros [= <- <- <-].
    set (outs := filter (fun r => r ∉ (list_to_set rs : gset FullRangeId)) (hash_iter assigned)).
    set (ins := filter (fun r => r ∉ assigned) (hash_iter (list_to_set rs : gset FullRangeId))).
    destruct (unloads_track outs assigned) as [Hf1 He1].
    { apply NoDup_filter, hash_iter_NoDup. }
    { intros r [_ Hr]%list_elem_of_filter. by apply hash_iter_elem_of. }
    destruct (loads_track ins (assigned ∖ list_to_set outs)) as [Hf2 He2].
    { apply NoDup_filter, hash_iter_NoDup. }
    { intros r [Hr _]%list_elem_of_filter. set_solver. }
    split.
    + rewrite foldl_app, Hf1, Hf2. apply leibniz_equiv. intros r.
      rewrite elem_of_union, elem_of_difference, !elem_of_list_to_set. unfold outs, ins.
      rewrite !list_elem_of_filter, !hash_iter_elem_of, elem_of_list_to_set.
      destruct (decide (r ∈ rs)), (decide (r ∈ assigned)); naive_solver.
    + apply all_effective_app. by rewrite Hf1.
  - destruct (load_loop ld [] assigned) as [[s1 a1] b1] eqn:Hl.
    pose proof (load_loop_tracks _ _ _ _ _ _ _ Hnil Hl) as Ht. destruct b1.
    + intros Hu. by eapply unload_loop_tracks.
    + by intros [= <- <- <-].
Qed.

(** what every run keeps: the updates track the shared assignment, which is
    empty until the handler has been started *)
Definition run_inv (sent : list WardenUpdate) (h : WardenHandler) : Prop :=
  tracks ∅ sent (assigned_ranges (shared h)) /\
  (state h = NotStarted -> task h = NoTask /\ sent = []).

Lemma step_run_inv sent h us h' : run_inv sent h -> step h us h' -> run_inv (sent ++ us) h'.
Proof.
  intros [Ht Hn]. destruct 1 as [known h|h|h|order update h|h|h]; rewrite ?app_nil_r.
  - unfold start. destruct (state h) eqn:E; [|split; cbn; [done|congruence]..].
    destruct (Hn eq_refl) as [Htask ->]. by destruct known; split.
  - unfold stop. by destruct (state h); split.
  - unfold connect. destruct (task h) eqn:E; split; cbn; rewrite ?E; naive_solver.
  - unfold message. destruct (task h) eqn:E; cbn; rewrite ?app_nil_r;
      try (split; rewrite ?E; naive_solver).
    destruct (process_warden_update update (assigned_ranges (shared h))) as [[us a] b] eqn:Hp.
    destruct (process_tracks _ _ _ _ _ Hp) as [Hf He], Ht as [Hf0 He0].
    split; cbn; [|naive_solver].
    split; [by rewrite foldl_app, Hf0|apply all_effective_app; by rewrite Hf0].
  - unfold connection_lost. destruct (task h) eqn:E; split; cbn; rewrite ?E; naive_solver.
  - unfold cancelled. destruct (task h) eqn:E; try destruct (stopper (shared h));
      split; cbn; rewrite ?E; naive_solver.
Qed.

Lemma run_run_inv sent h : run new sent h -> run_inv sent h.
Proof.
  remember new as h0 eqn:E. induction 1 as [h|h0 sent h us h' Hr IH Hs]; subst.
  - by repeat split.
  - by eapply step_run_inv; [apply IH|].
Qed.

(** ** Properties *)

(** The server is told exactly what changes. In every run of the handler,
    over any number of connections and whatever the warden sends, a server that
    has followed the updates it was sent, in order, has the ranges that the
    handler has recorded as assigned; and no update was sent in vain: a range is
    only loaded when it was not assigned, and only unloaded when it was. While
    the handler is started, [is_assigned] answers from those ranges. *)
Theorem updates_track_assignment sent h :
  run new sent h ->
  foldl follow ∅ sent = assigned_ranges (shared h) /\ all_effective ∅ sent /\
  (state h = Started -> forall r, is_assigned r h = bool_decide (r ∈ foldl follow ∅ sent)).
Proof.
  intros [[Hf He] _]%run_run_inv. split_and!; [done..|].
  intros Hs r. unfold is_assigned. by rewrite Hs, Hf.
Qed.
End Operations.

Definition sample_parse (s : string) : option Uuid := Some (N.of_nat (String.length s)).
Definition sample_range (n : N) : FullRangeId := mkFullRangeId (mkKeyspaceId 1) n.
Definition sample_message : ProtoUpdate :=
  IncrementalAssignment 1 [mkProtoRangeId "k" "r"; mkProtoRangeId "k" "rr"] [mkProtoRangeId "k" "r"].
Definition sample_handler : WardenHandler :=
  (message sample_parse (H := element_order) (Some sample_message) (connect (start true new).1)).1.

Lemma updates_track_assignment_witness :
  foldl follow ∅ [LoadRange (sample_range 1); LoadRange (sample_range 2); UnloadRange (sample_range 1)]
    = assigned_ranges (shared sample_handler) /\
  is_assigned (sample_range 2) sample_handler = true.
Proof.
  assert (Hr : run sample_parse new
    ((([] ++ []) ++ []) ++
      (message sample_parse (H := element_order) (Some sample_message) (connect (start true new).1)).2)
    sample_handler).
  { eapply run_snoc; [eapply run_snoc; [eapply run_snoc; [apply run_nil|apply (step_start _ true)]
      |apply step_connect]|apply (step_message _ element_order)]. }
  destruct (updates_track_assignment sample_parse _ _ Hr) as (Hf & _ & _).
  split; [exact Hf|vm_compute; reflexivity].
Defined.

End WardenHandler.
