(* ===== verification/RangeServer.v ===== *)
(** * The range server and its client:
      [src/rangeserver/src/server.rs] and [src/rangeclient/src/client.rs]

    The server keeps the managers of its ranges in a table and runs the requests
    of its clients on them. The managers are objects shared by the table and by
    the requests that run, so the table holds handles into a store of managers.
    What the server needs of a manager is the class [RangeOps], of which the
    manager of [RangeManager.v] is an instance. Messages are records of the
    tables of the schema, whose fields are optional. *)

From stdpp Require Import base tactics list numbers option gmap sets strings.
From S2P Require Import Prelude Float64 Common Storage RsError Wal RangeManager WardenHandler.

Module RangeServer.
Import Common RsError.
Local Open Scope sangria_scope.

(** ** Range managers, as the server uses them *)

(** A call returns [None] when it waits, for a lock, for the log or for a load
    that runs. *)
Class RangeOps (R : Type) : Type := {
  r_new : FullRangeId -> R;
  r_load : R -> R * option (result Error unit);
  r_unload : R -> R;
  r_is_unloaded : R -> bool;
  r_get : TransactionInfo -> Bytes -> R -> R * option (result Error RangeManager.GetResult);
  r_prepare : TransactionInfo -> RangeManager.PrepareRequest -> R ->
    R * option (result Error RangeManager.PrepareResult);
  r_abort : TransactionInfo -> RangeManager.AbortRequest -> R -> R * option (result Error unit);
  r_commit : list Uuid -> RangeManager.CommitRequest -> R -> R * option (result Error unit);
  r_unload_unloaded r : r_is_unloaded (r_unload r) = true;
  r_load_unloaded r : r_is_unloaded r = true -> r_load r = (r, Some (Err RangeIsNotLoaded));
  r_load_failed r r' e : r_load r = (r', Some (Err e)) -> r_is_unloaded r' = true
}.

Record Server (R : Type) := mkServer {
  warden_handler : WardenHandler.WardenHandler;
  loaded_ranges : gmap Uuid positive;
  managers : gmap positive R;          (** every manager that was created *)
  transaction_table : gmap Uuid TransactionInfo
}.
Arguments mkServer {R} _ _ _ _.
Arguments warden_handler {R} _.
Arguments loaded_ranges {R} _.
Arguments managers {R} _.
Arguments transaction_table {R} _.

(** how a request ends when it does not return a value *)
Inductive Outcome :=
| Failed (e : Error)
| Waiting.

(** ** Messages *)

Record GetRequest := mkGetRequest {
  gr_request_id : option Uuidu128Args;
  gr_transaction_id : option Uuidu128Args;
  gr_transaction_info : option Z;      (** [overall_timeout_us] *)
  gr_range_id : option FbRangeId;
  gr_keys : option (list (option Bytes))
}.

Record GetResponse := mkGetResponse {
  gs_request_id : option Uuidu128Args;
  gs_status : Status;
  gs_leader_sequence_number : Z;
  gs_records : option (list (Bytes * option Bytes));
  gs_dependencies : option (list Uuidu128Args)
}.

Record PrepareRequest := mkPrepareRequest {
  pr_request_id : option Uuidu128Args;
  pr_transaction_id : option Uuidu128Args;
  pr_range_id : option FbRangeId;
  pr_body : RangeManager.PrepareRequest
}.

Record PrepareResponse := mkPrepareResponse {
  ps_request_id : option Uuidu128Args;
  ps_status : Status;
  ps_highest_known_epoch : Z;
  ps_epoch_lease : option (Z * Z);
  ps_dependencies : option (list Uuidu128Args);
  ps_released_lock_early : bool
}.

Record CommitRequest := mkCommitRequest {
  cr_request_id : option Uuidu128Args;
  cr_transaction_ids : option (list Uuidu128Args);
  cr_range_id : option FbRangeId;
  cr_body : RangeManager.CommitRequest
}.

Record AbortRequest := mkAbortRequest {
  ar_request_id : option Uuidu128Args;
  ar_transaction_id : option Uuidu128Args;
  ar_range_id : option FbRangeId;
  ar_body : RangeManager.AbortRequest
}.

(** [CommitResponse] and [AbortResponse] *)
Record StatusResponse := mkStatusResponse {
  ss_request_id : option Uuidu128Args;
  ss_status : Status
}.

Inductive RequestEnvelope :=
| GetMessage (r : GetRequest)
| PrepareMessage (r : PrepareRequest)
| AbortMessage (r : AbortRequest)
| CommitMessage (r : CommitRequest)
| UnknownMessage.

Inductive ResponseEnvelope :=
| GetReply (r : GetResponse)
| PrepareReply (r : PrepareResponse)
| AbortReply (r : StatusResponse)
| CommitReply (r : StatusResponse).

Section Operations.
Context `{RangeOps R}.
(** [Uuid::to_u128_le] and [Uuid::from_u128_le] of the crate [uuid] *)
Context (to_u128_le from_u128_le : Uuid -> N).

Notation Handler := (M (Server R) Outcome).

Definition set_ranges (t : gmap Uuid positive) (sv : Server R) : Server R :=
  mkServer (warden_handler sv) t (managers sv) (transaction_table sv).
Definition set_managers (m : gmap positive R) (sv : Server R) : Server R :=
  mkServer (warden_handler sv) (loaded_ranges sv) m (transaction_table sv).
Definition set_transactions (t : gmap Uuid TransactionInfo) (sv : Server R) : Server R :=
  mkServer (warden_handler sv) (loaded_ranges sv) (managers sv) t.

Definition new : Server R := mkServer WardenHandler.new ∅ ∅ ∅.

(** ** The table of transactions *)

Definition maybe_start_transaction (now : Z) (id : Uuid) (info : option Z) (sv : Server R)
    : Server R :=
  match info with
  | None => sv
  | Some overall_timeout_us =>
      match transaction_table sv !! id with
      | Some _ => sv
      | None =>
          set_transactions
            (<[id := mkTransactionInfo id now (overall_timeout_us * 1000)]> (transaction_table sv)) sv
      end
  end.

Definition get_transaction_info (id : Uuid) : Handler TransactionInfo := fun sv =>
  (sv, match transaction_table sv !! id with
       | Some i => Ok i
       | None => Err (Failed UnknownTransaction)
       end).

Definition remove_transactions (ids : list Uuid) (sv : Server R) : Server R :=
  set_transactions (foldl (fun t id => delete id t) (transaction_table sv) ids) sv.

(** ** The table of ranges *)

(** a call on the manager with handle [h] *)
Definition call {A} (h : positive) (op : R -> R * option (result Error A)) : Handler A := fun sv =>
  match managers sv !! h with
  | None => (sv, Panic)
  | Some r =>
      let (r', answer) := op r in
      (set_managers (<[h := r']> (managers sv)) sv,
       match answer with
       | Some (Ok a) => Ok a
       | Some (Err e) => Err (Failed e)
       | Some Panic => Panic
       | None => Err Waiting
       end)
  end.

Definition maybe_unload_range (id : FullRangeId) (sv : Server R) : Server R :=
  match loaded_ranges sv !! range_id id with
  | None => sv
  | Some h =>
      set_managers (alter r_unload h (managers sv))
        (set_ranges (delete (range_id id) (loaded_ranges sv)) sv)
  end.

(** the part that holds the write lock: the manager in the table, or a new one *)
Definition load_or_create (id : FullRangeId) : Handler positive :=
  let! sv := m_get in
  match loaded_ranges sv !! range_id id with
  | Some h => call h r_load ;;; m_ret h
  | None =>
      let h := fresh (dom (managers sv) : gset positive) in
      m_modify (fun sv => set_ranges (<[range_id id := h]> (loaded_ranges sv))
                            (set_managers (<[h := r_new id]> (managers sv)) sv)) ;;;
      call h r_load ;;; m_ret h
  end.

Definition maybe_load_and_get_range_inner (id : FullRangeId) : Handler positive :=
  let! sv := m_get in
  match loaded_ranges sv !! range_id id with
  | Some h => call h r_load ;;; m_ret h
  | None =>
      if WardenHandler.is_assigned id (warden_handler sv) then load_or_create id
      else m_fail (Failed RangeIsNotLoaded)
  end.

(** what an error of the load does to the table *)
Definition forget_range (id : FullRangeId) (sv : Server R) : Server R :=
  let remove := match loaded_ranges sv !! range_id id ≫= (managers sv !!.) with
                | None => false
                | Some r => negb (r_is_unloaded r)
                end in
  if remove then set_ranges (delete (range_id id) (loaded_ranges sv)) sv else sv.

Definition maybe_load_and_get_range (id : FullRangeId) : Handler positive := fun sv =>
  match maybe_load_and_get_range_inner id sv with
  | (sv', Err (Failed e)) => (forget_range id sv', Err (Failed e))
  | res => res
  end.

(** the updates of the warden handler, as [warden_update_loop] runs them; an
    error of the spawned load is dropped *)
Definition warden_update (u : WardenHandler.WardenUpdate) (sv : Server R) : Server R :=
  match u with
  | WardenHandler.LoadRange id => (maybe_load_and_get_range id sv).1
  | WardenHandler.UnloadRange id => maybe_unload_range id sv
  end.

(** ** [get] *)

Definition next_leader (leader_sequence_number seen : Z) : Z :=
  if (leader_sequence_number =? UNSET_LEADER_SEQUENCE_NUMBER)%Z then seen
  else if (leader_sequence_number =? seen)%Z then leader_sequence_number
  else INVALID_LEADER_SEQUENCE_NUMBER.

(** the loop over the keys; a key without its bytes is unwrapped *)
Fixpoint get_keys (tx : TransactionInfo) (h : positive) (keys : list (option Bytes)) (leader : Z)
    (reads : list (Bytes * option Bytes)) (deps : gset Uuid)
    : Handler (Z * list (Bytes * option Bytes) * gset Uuid) :=
  match keys with
  | [] => m_ret (leader, reads, deps)
  | None :: _ => m_panic
  | Some key :: keys' =>
      let! g := call h (r_get tx key) in
      get_keys tx h keys' (next_leader leader (RangeManager.get_leader_sequence_number g))
        (reads ++ [(key, RangeManager.val g)])
        (deps ∪ list_to_set (RangeManager.get_dependencies g))
  end.

(** an absent field makes the request malformed *)
Definition required {A} (o : option A) : Handler A :=
  match o with
  | Some a => m_ret a
  | None => m_fail (Failed InvalidRequestFormat)
  end.

Definition request_range (o : option FbRangeId) : Handler FullRangeId :=
  let! id := required o in required (deserialize_range_id from_u128_le id).

Definition get_inner `{HashOrder} (now : Z) (req : GetRequest)
    : Handler (Z * list (Bytes * option Bytes) * list Uuid) :=
  let! range := request_range (gr_range_id req) in
  let! tx := required (gr_transaction_id req) in
  let transaction_id := deserialize_uuid from_u128_le tx in
  required (gr_request_id req) ;;;
  m_modify (maybe_start_transaction now transaction_id (gr_transaction_info req)) ;;;
  let! rm := maybe_load_and_get_range range in
  let! tx := get_transaction_info transaction_id in
  let! res := get_keys tx rm (default [] (gr_keys req)) UNSET_LEADER_SEQUENCE_NUMBER [] ∅ in
  m_ret (res.1.1, res.1.2, hash_iter res.2).

(** the answer to a request: an error is a status, a panic and a wait are not
    answered *)
Definition answer {A B} (m : Handler A) (ok : A -> B) (err : Error -> B) : Handler B := fun sv =>
  match m sv with
  | (sv', Ok a) => (sv', Ok (ok a))
  | (sv', Err (Failed e)) => (sv', Ok (err e))
  | (sv', Err Waiting) => (sv', Err Waiting)
  | (sv', Panic) => (sv', Panic)
  end.

(** the request id of the answer is decoded and encoded again *)
Definition echo (id : Uuidu128Args) : option Uuidu128Args :=
  Some (serialize_uuid to_u128_le (deserialize_uuid from_u128_le id)).

Definition get `{HashOrder} (now : Z) (req : GetRequest) : Handler GetResponse :=
  match gr_request_id req with
  | None => m_ret (mkGetResponse None StatusInvalidRequestFormat 0 None None)
  | Some id =>
      answer (get_inner now req)
        (fun res => mkGetResponse (echo id) StatusOk res.1.1 (Some res.1.2)
                      (Some (serialize_uuid to_u128_le <$> res.2)))
        (fun e => mkGetResponse (echo id) (to_flatbuf_status e) (-1) (Some []) (Some []))
  end.

(** ** [prepare], [commit] and [abort] *)

Definition prepare_inner (req : PrepareRequest) : Handler RangeManager.PrepareResult :=
  let! range := request_range (pr_range_id req) in
  let! tx := required (pr_transaction_id req) in
  let transaction_id := deserialize_uuid from_u128_le tx in
  let! rm := maybe_load_and_get_range range in
  let! tx := get_transaction_info transaction_id in
  call rm (r_prepare tx (pr_body req)).

Definition prepare (req : PrepareRequest) : Handler PrepareResponse :=
  match pr_request_id req with
  | None => m_ret (mkPrepareResponse None StatusInvalidRequestFormat 0 None None false)
  | Some id =>
      answer (prepare_inner req)
        (fun res => mkPrepareResponse (echo id) StatusOk
                      (RangeManager.prepare_highest_known_epoch res)
                      (Some (RangeManager.prepare_epoch_lease res))
                      (Some (serialize_uuid to_u128_le <$> RangeManager.dependencies res))
                      (RangeManager.released_lock_early res))
        (fun e => mkPrepareResponse (echo id) (to_flatbuf_status e) 0 None (Some []) false)
  end.

Definition commit_inner (req : CommitRequest) : Handler unit :=
  let! range := request_range (cr_range_id req) in
  let! ids := required (cr_transaction_ids req) in
  let transaction_ids := deserialize_uuid from_u128_le <$> ids in
  let! rm := maybe_load_and_get_range range in
  call rm (r_commit transaction_ids (cr_body req)) ;;;
  m_modify (remove_transactions transaction_ids).

Definition commit (req : CommitRequest) : Handler StatusResponse :=
  match cr_request_id req with
  | None => m_ret (mkStatusResponse None StatusInvalidRequestFormat)
  | Some id =>
      answer (commit_inner req) (fun _ => mkStatusResponse (echo id) StatusOk)
        (fun e => mkStatusResponse (echo id) (to_flatbuf_status e))
  end.

Definition abort_inner (req : AbortRequest) : Handler unit :=
  let! range := request_range (ar_range_id req) in
  let! tx := required (ar_transaction_id req) in
  let transaction_id := deserialize_uuid from_u128_le tx in
  let! rm := maybe_load_and_get_range range in
  let! tx := get_transaction_info transaction_id in
  call rm (r_abort tx (ar_body req)).

Definition abort (req : AbortRequest) : Handler StatusResponse :=
  match ar_request_id req with
  | None => m_ret (mkStatusResponse None StatusInvalidRequestFormat)
  | Some id =>
      answer (abort_inner req) (fun _ => mkStatusResponse (echo id) StatusOk)
        (fun e => mkStatusResponse (echo id) (to_flatbuf_status e))
  end.

(** [None]: a message of an unknown type is not answered *)
Definition handle_message `{HashOrder} (now : Z) (msg : RequestEnvelope)
    : Handler (option ResponseEnvelope) :=
  match msg with
  | GetMessage r => let! s := get now r in m_ret (Some (GetReply s))
  | PrepareMessage r => let! s := prepare r in m_ret (Some (PrepareReply s))
  | AbortMessage r => let! s := abort r in m_ret (Some (AbortReply s))
  | CommitMessage r => let! s := commit r in m_ret (Some (CommitReply s))
  | UnknownMessage => m_ret None
  end.

(** ** Running the monad *)

Lemma m_then_ok {S E A B} (m : M S E A) (k : A -> M S E B) s s' b :
  m_then m k s = (s', Ok b) -> exists s1 a, m s = (s1, Ok a) /\ k a s1 = (s', Ok b).
Proof. unfold m_then. destruct (m s) as [s1 [a|e|]]; naive_solver. Qed.

(** ** Loading ranges *)

Lemma load_or_create_eq id sv :
  load_or_create id sv =
  match loaded_ranges sv !! range_id id with
  | Some h => (call h r_load ;;; m_ret h) sv
  | None =>
      let h := fresh (dom (managers sv) : gset positive) in
      (call h r_load ;;; m_ret h)
        (set_ranges (<[range_id id := h]> (loaded_ranges sv))
           (set_managers (<[h := r_new id]> (managers sv)) sv))
  end.
Proof. unfold load_or_create, m_then at 1, m_get. by destruct (loaded_ranges sv !! range_id id). Qed.

Lemma load_inner_eq id sv :
  maybe_load_and_get_range_inner id sv =
  match loaded_ranges sv !! range_id id with
  | Some h => (call h r_load ;;; m_ret h) sv
  | None => if WardenHandler.is_assigned id (warden_handler sv) then load_or_create id sv
            else (sv, Err (Failed RangeIsNotLoaded))
  end.
Proof.
  unfold maybe_load_and_get_range_inner, m_then at 1, m_get.
  destruct (loaded_ranges sv !! range_id id); [done|]. by destruct (WardenHandler.is_assigned _ _).
Qed.

Lemma load_known_failed h id sv sv' e :
  loaded_ranges sv !! range_id id = Some h ->
  (call h r_load ;;; m_ret h) sv = (sv', Err (Failed e)) ->
  loaded_ranges sv' !! range_id id = Some h /\
  exists r, managers sv' !! h = Some r /\ r_is_unloaded r = true.
Proof.
  intros Ht. unfold m_then, call. destruct (managers sv !! h) as [r|] eqn:Hm; [|done].
  destruct (r_load r) as [r' [[[]|e'|]|]] eqn:Hl; intros [= <- ?]; try done.
  split; [done|]. exists r'. cbn. rewrite lookup_insert_eq. by split; [|eapply r_load_failed].
Qed.

Lemma load_failed id sv sv' e :
  WardenHandler.is_assigned id (warden_handler sv) = true ->
  maybe_load_and_get_range_inner id sv = (sv', Err (Failed e)) ->
  exists h r, loaded_ranges sv' !! range_id id = Some h /\ managers sv' !! h = Some r /\
    r_is_unloaded r = true.
Proof.
  intros Ha. unfold maybe_load_and_get_range_inner, load_or_create.
  unfold m_then at 1, m_get. destruct (loaded_ranges sv !! range_id id) as [h|] eqn:Ht.
  { intros Hc. destruct (load_known_failed _ _ _ _ _ Ht Hc) as (? & r & ?). by exists h, r. }
  rewrite Ha. unfold m_then at 1, m_get. rewrite Ht. unfold m_then at 1, m_modify. intros Hc.
  destruct (load_known_failed _ id _ _ _ (lookup_insert_eq _ _ _) Hc) as (? & r & ?). by eexists _, r.
Qed.

(** a manager that has been unloaded is kept in the table *)
Lemma unloaded_stays id sv h r :
  loaded_ranges sv !! range_id id = Some h -> managers sv !! h = Some r ->
  r_is_unloaded r = true ->
  forget_range id sv = sv /\
  maybe_load_and_get_range id sv = (sv, Err (Failed RangeIsNotLoaded)).
Proof.
  intros Ht Hm Hu.
  assert (Hf : forget_range id sv = sv) by (unfold forget_range; rewrite Ht; cbn; by rewrite Hm, Hu).
  split; [done|]. unfold maybe_load_and_get_range, maybe_load_and_get_range_inner.
  unfold m_then at 1, m_get. rewrite Ht. unfold m_then, call. rewrite Hm, r_load_unloaded by done.
  cbv beta iota zeta. rewrite insert_id by done.
  replace (set_managers (managers sv) sv) with sv by (by destruct sv). by rewrite Hf.
Qed.

Lemma load_ok_present id sv sv' h :
  maybe_load_and_get_range id sv = (sv', Ok h) -> loaded_ranges sv' !! range_id id = Some h.
Proof.
  unfold maybe_load_and_get_range.
  destruct (maybe_load_and_get_range_inner id sv) as [sv1 [h1|[]|]] eqn:E; intros [= <- <-].
  revert E. unfold maybe_load_and_get_range_inner, load_or_create. unfold m_then at 1, m_get.
  assert (Hk : forall h0 s0, loaded_ranges s0 !! range_id id = Some h0 ->
    (call h0 r_load ;;; m_ret h0) s0 = (sv1, Ok h1) -> loaded_ranges sv1 !! range_id id = Some h1).
  { intros h0 s0 Ht. unfold m_then, call. destruct (managers s0 !! h0); [|done].
    destruct (r_load _) as [? [[[]|?|]|]]; by intros [= <- <-]. }
  destruct (loaded_ranges sv !! range_id id) as [h0|] eqn:Ht; [by apply Hk|].
  destruct (WardenHandler.is_assigned _ _); [|done].
  unfold m_then at 1, m_get. rewrite Ht. unfold m_then at 1, m_modify.
  apply Hk. cbn. apply lookup_insert_eq.
Qed.

(** ** Reads *)

(** the manager [h] answers the reads of [keys] with [gs], one after the other *)
Fixpoint asks (tx : TransactionInfo) (h : positive) (keys : list Bytes)
    (gs : list RangeManager.GetResult) (sv sv' : Server R) : Prop :=
  match keys, gs with
  | [], [] => sv' = sv
  | key :: keys', g :: gs' =>
      exists sv1, call h (r_get tx key) sv = (sv1, Ok g) /\ asks tx h keys' gs' sv1 sv'
  | _, _ => False
  end.

Lemma get_keys_asks tx h keys leader reads deps sv sv' leader' reads' deps' :
  get_keys tx h keys leader reads deps sv = (sv', Ok (leader', reads', deps')) ->
  exists ks gs, keys = Some <$> ks /\ asks tx h ks gs sv sv' /\
    reads' = reads ++ zip ks (RangeManager.val <$> gs) /\
    leader' = foldl next_leader leader (RangeManager.get_leader_sequence_number <$> gs) /\
    forall u, u ∈ deps' <-> u ∈ deps \/ exists g, g ∈ gs /\ u ∈ RangeManager.get_dependencies g.
Proof.
  clear to_u128_le from_u128_le.
  revert leader reads deps sv; induction keys as [|[key|] keys IH]; intros leader reads deps sv;
    cbn [get_keys].
  - intros [= <- <- <- <-]. exists [], []. cbn. rewrite app_nil_r. split_and!; try done.
    intros u. split; [by left|intros [?|(g & []%elem_of_nil & _)]; done].
  - intros (sv1 & g & Hc & Hr)%m_then_ok.
    destruct (IH _ _ _ _ Hr) as (ks & gs & -> & Ha & -> & -> & Hd).
    exists (key :: ks), (g :: gs). cbn. split_and!; [done|by exists sv1|by rewrite <- app_assoc|done|].
    intros u. rewrite Hd, elem_of_union, elem_of_list_to_set. setoid_rewrite elem_of_cons. naive_solver.
  - done.
Qed.

Lemma leader_settled l ns :
  (1 <= l)%Z -> Forall (fun n => (1 <= n)%Z) ns ->
  (Forall (fun n => l = n) ns /\ foldl next_leader l ns = l) \/
  (Exists (fun n => l <> n) ns /\ foldl next_leader l ns = (-1)%Z).
Proof.
  intros Hl. assert (Hinv : forall ns, Forall (fun n => (1 <= n)%Z) ns ->
    foldl next_leader (-1)%Z ns = (-1)%Z).
  { induction 1 as [|n ns' Hn _ IH]; [done|]. cbn [foldl].
    replace (next_leader (-1) n) with (-1)%Z; [done|].
    unfold next_leader, UNSET_LEADER_SEQUENCE_NUMBER, INVALID_LEADER_SEQUENCE_NUMBER.
    destruct (Z.eqb_spec (-1) 0), (Z.eqb_spec (-1) n); lia. }
  induction 1 as [|n ns' Hn Hns IH]; [by left|]. cbn [foldl].
  assert (Hstep : next_leader l n = if decide (l = n) then l else (-1)%Z).
  { unfold next_leader, UNSET_LEADER_SEQUENCE_NUMBER. destruct (Z.eqb_spec l 0); [lia|].
    by destruct (Z.eqb_spec l n), (decide (l = n)). }
  rewrite Hstep. destruct (decide (l = n)) as [<-|Hne]; [|right; split; [by left|by apply Hinv]].
  destruct IH as [[? ?]|[? ?]]; [left|right]; split; auto.
Qed.

Lemma leader_reported (gs : list RangeManager.GetResult) :
  gs <> [] -> Forall (fun g => (1 <= RangeManager.get_leader_sequence_number g)%Z) gs ->
  let leader := foldl next_leader UNSET_LEADER_SEQUENCE_NUMBER
                  (RangeManager.get_leader_sequence_number <$> gs) in
  (leader = INVALID_LEADER_SEQUENCE_NUMBER /\ exists g g', g ∈ gs /\ g' ∈ gs /\
     RangeManager.get_leader_sequence_number g <> RangeManager.get_leader_sequence_number g') \/
  (forall g, g ∈ gs -> RangeManager.get_leader_sequence_number g = leader).
Proof.
  destruct gs as [|g0 gs]; [done|]. intros _ [H0 Hgs]%Forall_cons leader. unfold leader.
  rewrite fmap_cons. cbn [foldl].
  change (next_leader UNSET_LEADER_SEQUENCE_NUMBER ?n) with n.
  destruct (leader_settled _ (RangeManager.get_leader_sequence_number <$> gs) H0) as [[Hall ->]|[Hex ->]].
  { by apply Forall_fmap. }
  - right. intros g [->|Hg]%elem_of_cons; [done|].
    rewrite Forall_fmap, Forall_forall in Hall. symmetry. by apply Hall.
  - left. split; [done|]. apply Exists_exists in Hex as (n & (g & -> & Hg)%list_elem_of_fmap & Hn).
    exists g0, g. rewrite !elem_of_cons. auto.
Qed.

Lemma call_keeps_transactions {A} h (op : R -> R * option (result Error A)) sv :
  transaction_table (call h op sv).1 = transaction_table sv.
Proof. unfold call. destruct (managers sv !! h) as [r|]; [|done]. by destruct (op r). Qed.

Lemma load_keeps_transactions id sv :
  transaction_table (maybe_load_and_get_range id sv).1 = transaction_table sv.
Proof.
  assert (Hk : forall h s, transaction_table ((call h r_load ;;; m_ret h) s).1 = transaction_table s).
  { intros h s. rewrite <- (call_keeps_transactions h r_load s). unfold m_then.
    by destruct (call h r_load s) as [? []]. }
  assert (Hi : transaction_table (maybe_load_and_get_range_inner id sv).1 = transaction_table sv).
  { unfold maybe_load_and_get_range_inner, load_or_create. unfold m_then at 1, m_get.
    destruct (loaded_ranges sv !! range_id id) eqn:Ht; [apply Hk|].
    destruct (WardenHandler.is_assigned _ _); [|done].
    unfold m_then at 1, m_get. rewrite Ht. unfold m_then at 1, m_modify. by rewrite Hk. }
  rewrite <- Hi. unfold maybe_load_and_get_range, forget_range.
  destruct (maybe_load_and_get_range_inner id sv) as [sv' [|[]|]]; cbn; try done.
  destruct (loaded_ranges sv' !! range_id id ≫= _) as [r|]; [|done]. by destruct (r_is_unloaded r).
Qed.

Lemma request_range_ok o sv sv' range :
  request_range o sv = (sv', Ok range) ->
  sv' = sv /\ o ≫= deserialize_range_id from_u128_le = Some range.
Proof.
  unfold request_range, m_then, required. destruct o as [id|]; cbn; [|done].
  destruct (deserialize_range_id from_u128_le id) as [r|]; cbn; [|done]. by intros [= <- <-].
Qed.

Lemma required_ok {A} (o : option A) sv sv' (a : A) :
  required o sv = (sv', Ok a) -> sv' = sv /\ o = Some a.
Proof. destruct o; cbn; [|done]. by intros [= <- <-]. Qed.

(** ** Properties *)

(** What a get reports. When a get succeeds, the manager that the server
    has for the range has answered the keys of the request, one after the other,
    for a transaction that the server knows; the records are those answers in
    the order of the keys, and the dependencies are those of all the answers,
    each once. The leader number is the one that every answer has, or the
    invalid number when two answers come from different leaders. *)
Theorem get_reports_answers `{HashOrder} now req sv sv' leader reads deps :
  get_inner now req sv = (sv', Ok (leader, reads, deps)) ->
  exists range id sv1 h tx ks gs,
    gr_range_id req ≫= deserialize_range_id from_u128_le = Some range /\
    deserialize_uuid from_u128_le <$> gr_transaction_id req = Some id /\
    maybe_load_and_get_range range
      (maybe_start_transaction now id (gr_transaction_info req) sv) = (sv1, Ok h) /\
    loaded_ranges sv1 !! range_id range = Some h /\ transaction_table sv1 !! id = Some tx /\
    default [] (gr_keys req) = Some <$> ks /\ asks tx h ks gs sv1 sv' /\
    reads = zip ks (RangeManager.val <$> gs) /\
    NoDup deps /\ (forall u, u ∈ deps <-> exists g, g ∈ gs /\ u ∈ RangeManager.get_dependencies g) /\
    (gs <> [] -> Forall (fun g => (1 <= RangeManager.get_leader_sequence_number g)%Z) gs ->
     (leader = INVALID_LEADER_SEQUENCE_NUMBER /\ exists g g', g ∈ gs /\ g' ∈ gs /\
        RangeManager.get_leader_sequence_number g <> RangeManager.get_leader_sequence_number g') \/
     (forall g, g ∈ gs -> RangeManager.get_leader_sequence_number g = leader)).
Proof.
  clear to_u128_le. unfold get_inner.
  intros (s1 & range & [-> Hrange]%request_range_ok & Hk)%m_then_ok. revert Hk.
  intros (s1 & uid & [-> Hid]%required_ok & Hk)%m_then_ok. revert Hk.
  intros (s1 & rid & [-> _]%required_ok & Hk)%m_then_ok. revert Hk.
  intros (s1 & [] & [= <-] & Hk)%m_then_ok. revert Hk.
  intros (s1 & h & Hload & Hk)%m_then_ok. revert Hk.
  intros (s2 & tx & Htx & Hk)%m_then_ok. revert Hk.
  intros (s3 & [[l rs] ds] & Hkeys & [= <- <- <- <-])%m_then_ok.
  unfold get_transaction_info in Htx.
  destruct (transaction_table s1 !! deserialize_uuid from_u128_le uid) as [i|] eqn:Hi; [|done].
  injection Htx as <- <-. cbn [fst snd].
  destruct (get_keys_asks _ _ _ _ _ _ _ _ _ _ _ Hkeys) as (ks & gs & Hks & Ha & -> & -> & Hd).
  exists range, (deserialize_uuid from_u128_le uid), s1, h, i, ks, gs. rewrite Hid.
  split; [done|]. split; [done|]. split; [done|]. split; [by eapply load_ok_present|].
  split; [done|]. split; [done|]. split; [done|]. split; [done|].
  split; [apply hash_iter_NoDup|]. split; [|apply leader_reported].
  intros u. rewrite hash_iter_elem_of, Hd. set_solver.
Qed.

(** A range whose load has failed is never loaded again. The comment of
    [maybe_load_and_get_range] says that a manager whose load failed is removed
    so that a fresh one is created, but the test is inverted: the failed manager
    is unloaded and stays in the table, and every later request for the range,
    although it is assigned to the server, fails and changes nothing. *)
Theorem failed_load_is_final id sv sv' e :
  WardenHandler.is_assigned id (warden_handler sv) = true ->
  maybe_load_and_get_range id sv = (sv', Err (Failed e)) ->
  maybe_load_and_get_range id sv' = (sv', Err (Failed RangeIsNotLoaded)).
Proof.
  intros Ha. unfold maybe_load_and_get_range at 1.
  destruct (maybe_load_and_get_range_inner id sv) as [sv1 [|[e1|]|]] eqn:E; try done.
  destruct (load_failed _ _ _ _ Ha E) as (h & r & Ht & Hm & Hu).
  destruct (unloaded_stays _ _ _ _ Ht Hm Hu) as [-> Hl]. by intros [= <- <-].
Qed.

(** A late error evicts a healthy range. A request that found its range
    neither loaded nor assigned takes the table again to clean up; if the range
    has been assigned and loaded in between, its manager is removed although it
    still runs, and the next request creates a second manager of the range. *)
Theorem late_error_evicts_range id sv0 sv h r :
  loaded_ranges sv0 !! range_id id = None ->
  WardenHandler.is_assigned id (warden_handler sv0) = false ->
  loaded_ranges sv !! range_id id = Some h -> managers sv !! h = Some r ->
  r_is_unloaded r = false ->
  maybe_load_and_get_range_inner id sv0 = (sv0, Err (Failed RangeIsNotLoaded)) /\
  loaded_ranges (forget_range id sv) !! range_id id = None /\
  managers (forget_range id sv) !! h = Some r /\
  (forall sv' h', maybe_load_and_get_range id (forget_range id sv) = (sv', Ok h') ->
     h' <> h /\ managers sv' !! h = Some r).
Proof.
  intros Ht0 Ha0 Ht Hm Hu.
  assert (Hf : forget_range id sv = set_ranges (delete (range_id id) (loaded_ranges sv)) sv)
    by (unfold forget_range; rewrite Ht; cbn; by rewrite Hm, Hu).
  split. { unfold maybe_load_and_get_range_inner, m_then, m_get. by rewrite Ht0, Ha0. }
  rewrite Hf. split; [apply lookup_delete_eq|]. split; [done|]. intros sv' h'.
  unfold maybe_load_and_get_range, maybe_load_and_get_range_inner, load_or_create.
  unfold m_then at 1, m_get. cbn [loaded_ranges set_ranges]. rewrite lookup_delete_eq.
  cbn [warden_handler set_ranges].
  destruct (WardenHandler.is_assigned id (warden_handler sv)); [|done].
  unfold m_then at 1, m_get. cbn [loaded_ranges set_ranges]. rewrite lookup_delete_eq.
  unfold m_then, m_modify, call. cbn [managers set_ranges set_managers]. rewrite lookup_insert_eq.
  assert (Hne : fresh (dom (managers sv) : gset positive) <> h).
  { intros Heq. apply (is_fresh (dom (managers sv) : gset positive)). rewrite Heq.
    by apply elem_of_dom_2 in Hm. }
  destruct (r_load (r_new id)) as [r' [[[]|e|]|]]; intros [= <- <-].
  split; [done|]. cbn [managers set_managers set_ranges]. by rewrite !lookup_insert_ne by done.
Qed.

(** A transaction that has not read at a server cannot write there. Only a
    get carries the information that makes a transaction known, so a prepare of
    a transaction that has not read a range of the server is refused, as is its
    abort, and the refusal does not make it known either. *)
Theorem unread_transaction_is_refused range id req areq sv sv' h :
  pr_range_id req ≫= deserialize_range_id from_u128_le = Some range ->
  ar_range_id areq ≫= deserialize_range_id from_u128_le = Some range ->
  deserialize_uuid from_u128_le <$> pr_transaction_id req = Some id ->
  deserialize_uuid from_u128_le <$> ar_transaction_id areq = Some id ->
  transaction_table sv !! id = None ->
  maybe_load_and_get_range range sv = (sv', Ok h) ->
  prepare_inner req sv = (sv', Err (Failed UnknownTransaction)) /\
  abort_inner areq sv = (sv', Err (Failed UnknownTransaction)) /\
  transaction_table sv' !! id = None.
Proof.
  intros Hr Har Hi Hai Hn Hl. pose proof (load_keeps_transactions range sv) as Hk.
  rewrite Hl in Hk. cbn in Hk.
  destruct (pr_range_id req) as [fr|] eqn:Er, (pr_transaction_id req) as [ft|] eqn:Et,
    (ar_range_id areq) as [afr|] eqn:Ear, (ar_transaction_id areq) as [aft|] eqn:Eat; try done.
  cbn in *. injection Hi as Hi. injection Hai as Hai.
  unfold prepare_inner, abort_inner, request_range. rewrite Er, Et, Ear, Eat.
  unfold required, get_transaction_info, m_then, m_ret. rewrite Hr, Har, Hi, Hai, Hl, Hk, Hn. done.
Qed.
End Operations.

(** ** Range managers of [RangeManager.v] *)

Section Managers.
Context `{Storage.RangeStorage Sto, Wal.RangeWal Log, HashOrder}.
(** the configuration, the stores a new manager is given, the clock and the
    waiters that the heuristic counts *)
Context (cs : CommitStrategy) (heuristic : Heuristic) (s : Sto) (w : Log).
Context (epoch_duration_nanos now : Z) (contention : Bytes -> nat).

(** a load that no other call runs alongside *)
Definition load (rm : RangeManager.RangeManager Sto Log)
    : RangeManager.RangeManager Sto Log * option (result Error unit) :=
  match RangeManager.load_begin rm with
  | (rm', RangeManager.LoadReturn r) => (rm', Some r)
  | (rm', RangeManager.LoadWait) => (rm', None)
  | (rm', RangeManager.LoadRun) =>
      let (rm1, res) := RangeManager.load_inner epoch_duration_nanos rm' in
      let (rm2, r) := RangeManager.load_finish res rm1 in
      (rm2, Some r)
  end.

#[refine] Instance manager_ops : RangeOps (RangeManager.RangeManager Sto Log) := {|
  r_new id := RangeManager.new id cs heuristic s w;
  r_load := load;
  r_unload := RangeManager.unload;
  r_is_unloaded := RangeManager.is_unloaded;
  r_get tx key rm := RangeManager.get tx now now key rm;
  r_prepare tx req rm := RangeManager.prepare tx now now req contention rm;
  r_abort tx req rm := RangeManager.abort tx now req rm;
  r_commit txs req rm := RangeManager.commit txs req now rm
|}.
Proof.
  - done.
  - intros rm. unfold RangeManager.is_unloaded, load, RangeManager.load_begin.
    by destruct (RangeManager.state rm).
  - intros rm rm' e. unfold RangeManager.is_unloaded, load, RangeManager.load_begin.
    destruct (RangeManager.state rm) eqn:E; try done; [|by intros [= <- <-]; rewrite E].
    destruct (RangeManager.load_inner _ _) as [rm1 [st|e1|]]; cbn; try done. case_decide; [done|]. by intros [= <- _].
Defined.
End Managers.

(** ** Witnesses *)

Definition sample_range : FullRangeId := Storage.sample_range.
Definition sample_assigned : WardenHandler.WardenHandler :=
  WardenHandler.mkWardenHandler WardenHandler.Started
    (WardenHandler.mkStartedState false {[ sample_range ]}) WardenHandler.Connected.
Definition wire (u : Uuid) : option Uuidu128Args := Some (serialize_uuid byte_swap u).
Definition wire_range : option FbRangeId := Some (serialize_range_id byte_swap sample_range).

(** a server on the database in memory of [RangeManager.v] *)
Definition sample_ops : RangeOps RangeManager.Sample :=
  manager_ops (H := RangeManager.sample_storage) (H0 := RangeManager.sample_log)
    (H1 := element_order) Traditional LockContention Storage.sample_db
    (Wal.sample_wal Wal.NotSynced []) 1000000000 0 (fun _ => 0).
Definition sample_server : Server RangeManager.Sample := mkServer sample_assigned ∅ ∅ ∅.
Definition sample_get : GetRequest :=
  mkGetRequest (wire 5) (wire 9) (Some 1000%Z) wire_range (Some [Some [1%N]; Some [2%N]]).

Definition sample_answer := get_inner (H := sample_ops) (H0 := element_order) byte_swap 0 sample_get sample_server.

Lemma get_reports_answers_witness :
  exists h tx ks gs sv1, asks (H := sample_ops) tx h ks gs sv1 sample_answer.1 /\
    [([1%N], None); ([2%N], None)] = zip ks (RangeManager.val <$> gs) /\
    loaded_ranges sv1 !! range_id sample_range = Some h.
Proof.
  assert (E : sample_answer = (sample_answer.1, Ok (8%Z, [([1%N], None); ([2%N], None)], [])))
    by (vm_compute; reflexivity).
  destruct (get_reports_answers (H := sample_ops) byte_swap (H0 := element_order) 0 sample_get
    sample_server sample_answer.1 8 [([1%N], None); ([2%N], None)] [] E)
    as (range & id & sv1 & h & tx & ks & gs & Hr & _ & _ & Ht & _ & _ & Ha & Hz & _).
  assert (Hrange : range = sample_range) by (vm_compute in Hr; injection Hr as <-; reflexivity).
  exists h, tx, ks, gs, sv1. rewrite Hrange in Ht. split; [exact Ha|split; [exact Hz|exact Ht]].
Defined.

(** a range that is only loaded and unloaded; [fails] is whether its load fails *)
Inductive Toy := Fresh | Up | Down.

#[refine] Instance toy_ops (fails : bool) : RangeOps Toy := {|
  r_new _ := Fresh;
  r_load t := match t with
              | Fresh => if fails then (Down, Some (Err Timeout)) else (Up, Some (Ok tt))
              | Up => (Up, Some (Ok tt))
              | Down => (Down, Some (Err RangeIsNotLoaded))
              end;
  r_unload _ := Down;
  r_is_unloaded t := match t with Down => true | _ => false end;
  r_get _ _ t := (t, None);
  r_prepare _ _ t := (t, None);
  r_abort _ _ t := (t, None);
  r_commit _ _ t := (t, None)
|}.
Proof.
  - done.
  - by intros [].
  - intros [] t' e; [destruct fails|..]; by intros [= <- _].
Defined.

Definition toy_server (ranges : gmap Uuid positive) (ms : gmap positive Toy) : Server Toy :=
  mkServer sample_assigned ranges ms ∅.

Lemma failed_load_is_final_witness :
  maybe_load_and_get_range (H := toy_ops true) sample_range
    (maybe_load_and_get_range (H := toy_ops true) sample_range (toy_server ∅ ∅)).1 =
  ((maybe_load_and_get_range (H := toy_ops true) sample_range (toy_server ∅ ∅)).1,
   Err (Failed RangeIsNotLoaded)).
Proof.
  apply (failed_load_is_final (H := toy_ops true) sample_range (toy_server ∅ ∅)
    (maybe_load_and_get_range (H := toy_ops true) sample_range (toy_server ∅ ∅)).1 Timeout);
    vm_compute; reflexivity.
Defined.

Lemma late_error_evicts_range_witness :
  loaded_ranges (forget_range (H := toy_ops false) sample_range
    (toy_server {[ range_id sample_range := 1%positive ]} {[ 1%positive := Up ]})) !!
    range_id sample_range = None.
Proof.
  destruct (late_error_evicts_range (H := toy_ops false) sample_range
    (mkServer WardenHandler.new ∅ ∅ ∅)
    (toy_server {[ range_id sample_range := 1%positive ]} {[ 1%positive := Up ]}) 1 Up)
    as (_ & Hl & _); [vm_compute; reflexivity..|exact Hl].
Defined.

Definition sample_prepare : PrepareRequest :=
  mkPrepareRequest (wire 5) (wire 9) wire_range
    (RangeManager.mkPrepareRequest (Some [([1%N], [65%N])]) None false (Float64.of_Z 0) 0 []).
Definition sample_abort : AbortRequest :=
  mkAbortRequest (wire 6) (wire 9) wire_range (RangeManager.mkAbortRequest []).

Lemma unread_transaction_is_refused_witness :
  (prepare_inner (H := sample_ops) byte_swap sample_prepare sample_server).2 =
    Err (Failed UnknownTransaction).
Proof.
  destruct (unread_transaction_is_refused (H := sample_ops) byte_swap sample_range 9 sample_prepare
    sample_abort sample_server
    (maybe_load_and_get_range (H := sample_ops) sample_range sample_server).1 1) as (Hp & _);
    [vm_compute; reflexivity..|]. rewrite Hp. reflexivity.
Defined.

End RangeServer.
