(* ===== verification/RangeTasks.v ===== *)
(** * The calls of the range server as tasks:
      [src/rangeserver/src/server.rs] and [src/rangeserver/src/range_manager/impl.rs]

    [RangeServer.v] has the calls as they run when nobody interrupts them. The
    server spawns a task for every message and for every load, and the tasks run
    at the same time: here each call is a task of [Tasks.v] whose actions are the
    parts between two [await]s, a critical section of a lock being one action. A
    lock only delays an action, so the runs of these tasks include those of the
    code. Without interruption a task does what its call in [RangeServer.v]
    does. *)

From stdpp Require Import base tactics list numbers option gmap sets strings.
From S2P Require Import Prelude Float64 Common Tasks LockTable Storage RsError Wal RangeManager WardenHandler RangeServer.

Module RangeTasks.
Import Common RsError Tasks RangeServer.
Local Open Scope sangria_scope.

(** ** Range managers *)

(** what the server needs of a manager whose calls are interrupted *)
Class RangeJobs (R : Type) `{RangeOps R} : Type := {
  t_load : Job R Error unit;
  t_unload : Task R unit;
  t_get : TransactionInfo -> Bytes -> Job R Error RangeManager.GetResult;
  t_prepare : TransactionInfo -> RangeManager.PrepareRequest -> Job R Error RangeManager.PrepareResult;
  t_abort : TransactionInfo -> RangeManager.AbortRequest -> Job R Error unit;
  t_commit : list Uuid -> RangeManager.CommitRequest -> Job R Error unit;
  run_load r : run t_load r = r_load r;
  run_unload r : run t_unload r = (r_unload r, Some tt);
  run_get tx key r : run (t_get tx key) r = r_get tx key r;
  run_prepare tx req r : run (t_prepare tx req) r = r_prepare tx req r;
  run_abort tx req r : run (t_abort tx req) r = r_abort tx req r;
  run_commit txs req r : run (t_commit txs req) r = r_commit txs req r
}.

(** *** The manager of [RangeManager.v] *)

Section Managers.
Context `{Storage.RangeStorage Sto, Wal.RangeWal Log, HashOrder}.
Context (cs : CommitStrategy) (heuristic : Heuristic) (s : Sto) (w : Log).
Context (epoch_duration_nanos now : Z) (contention : Bytes -> nat).

Notation RM := (RangeManager.RangeManager Sto Log).

(** [receiver.recv().await] of a load that another call runs: the result is sent
    when the state has changed *)
Definition load_answer (rm : RM) : option (result Error unit) :=
  match RangeManager.state rm with
  | RangeManager.Loading => None
  | _ => RangeManager.load_result rm
  end.

Definition manager_load : Job RM Error unit :=
  t_bind (atomically RangeManager.load_begin) (fun begun =>
    match begun with
    | RangeManager.LoadReturn r => Done r
    | RangeManager.LoadWait => await load_answer
    | RangeManager.LoadRun =>
        t_bind (atomically (RangeManager.load_inner epoch_duration_nanos)) (fun res =>
          atomically (RangeManager.load_finish res))
    end).

Definition manager_unload : Task RM unit := atomically (fun rm => (RangeManager.unload rm, tt)).

(** [receiver.await] of [acquire_range_lock] *)
Definition lock_job (c : positive) : Job RM Error unit :=
  await (fun rm => if RangeManager.lock_granted c rm then Some (Ok tt) else None).

(** the flush of the log in the background and [receiver.await.unwrap().unwrap()] *)
Definition log_job (receiver : positive) : Job RM Error unit :=
  atomically (fun rm => (RangeManager.set_wal (Wal.wal_flush (RangeManager.wal rm)) rm, Ok tt)) ^;;
  await (fun rm => match Wal.wal_answer receiver (RangeManager.wal rm) with
                   | Some (Ok _) => Some (Ok tt)
                   | Some _ => Some Panic
                   | None => None
                   end).

Definition manager_get (tx : TransactionInfo) (key : Bytes) : Job RM Error RangeManager.GetResult :=
  let^ c := atomically (RangeManager.get_begin tx now now key) in
  lock_job c ^;;
  atomically (fun rm => (rm, RangeManager.get_locked key rm)).

Definition manager_prepare (tx : TransactionInfo) (req : RangeManager.PrepareRequest)
    : Job RM Error RangeManager.PrepareResult :=
  let^ begun := atomically (RangeManager.prepare_begin tx now now req) in
  match begun with
  | RangeManager.ReadOnly r => j_ret r
  | RangeManager.WaitLock c changes =>
      lock_job c ^;;
      let^ (r, receiver) := atomically (RangeManager.prepare_locked tx now req changes contention) in
      log_job receiver ^;;
      j_ret r
  end.

(** an abort up to the wait for the log; nothing is left to do without the lock *)
Definition abort_begin (tx : TransactionInfo) (req : RangeManager.AbortRequest) (rm : RM)
    : RM * result Error (option positive) :=
  match RangeManager.state rm with
  | RangeManager.Loaded st =>
      if LockTable.is_currently_holding [tx_id tx] (RangeManager.lock_table st) then
        match Wal.wal_append Wal.Abort (RangeManager.abort_buf req) (RangeManager.wal rm) with
        | (w, Ok receiver) => (RangeManager.set_wal w rm, Ok (Some receiver))
        | (w, Err e) => (RangeManager.set_wal w rm, Err (from_wal_error e))
        | (w, Panic) => (RangeManager.set_wal w rm, Panic)
        end
      else (rm, Ok None)
  | _ => (rm, Err RangeIsNotLoaded)
  end.

(** the release; the read lock of the state keeps the range loaded until then *)
Definition abort_finish (rm : RM) : RM * result Error unit :=
  match RangeManager.state rm with
  | RangeManager.Loaded st =>
      let (lt, ok) := LockTable.release None now (RangeManager.lock_table st) in
      (RangeManager.set_state (RangeManager.Loaded (RangeManager.set_lock_table lt st)) rm,
       if ok then Ok tt else Panic)
  | _ => (rm, Panic)
  end.

Definition manager_abort (tx : TransactionInfo) (req : RangeManager.AbortRequest) : Job RM Error unit :=
  let^ begun := atomically (abort_begin tx req) in
  match begun with
  | None => j_ret tt
  | Some receiver => log_job receiver ^;; atomically abort_finish
  end.

Definition commit_begin (req : RangeManager.CommitRequest) (rm : RM) : RM * result Error positive :=
  match RangeManager.state rm with
  | RangeManager.Loaded _ =>
      match Wal.wal_append Wal.Commit (RangeManager.commit_buf req) (RangeManager.wal rm) with
      | (w, Ok receiver) => (RangeManager.set_wal w rm, Ok receiver)
      | (w, Err e) => (RangeManager.set_wal w rm, Err (from_wal_error e))
      | (w, Panic) => (RangeManager.set_wal w rm, Panic)
      end
  | _ => (rm, Err RangeIsNotLoaded)
  end.

Definition manager_commit (txs : list Uuid) (req : RangeManager.CommitRequest) : Job RM Error unit :=
  let^ receiver := atomically (commit_begin req) in
  log_job receiver ^;;
  let^ last := atomically (RangeManager.commit_apply txs req) in
  atomically (RangeManager.commit_clear txs last now).

#[local] Arguments run : simpl never.
#[local] Arguments j_then : simpl never.
#[local] Arguments t_bind : simpl never.

Lemma run_log receiver rm : run (log_job receiver) rm = RangeManager.await_log receiver rm.
Proof.
  unfold log_job, RangeManager.await_log. rewrite run_then, run_atomically. cbn. by rewrite run_await.
Qed.

#[refine] Instance manager_jobs :
    RangeJobs RM (H := manager_ops cs heuristic s w epoch_duration_nanos now contention) := {|
  t_load := manager_load;
  t_unload := manager_unload;
  t_get := manager_get;
  t_prepare := manager_prepare;
  t_abort := manager_abort;
  t_commit := manager_commit
|}.
Proof.
  - intros rm. unfold manager_load. rewrite run_bind, run_atomically. cbn [r_load manager_ops].
    unfold load, RangeManager.load_begin. destruct (RangeManager.state rm) eqn:E; cbn; [| |done..].
    + rewrite run_bind, run_atomically. destruct (RangeManager.load_inner _ _) as [rm1 res]. cbn.
      rewrite run_atomically. by destruct (RangeManager.load_finish res rm1).
    + rewrite run_await. unfold load_answer. cbn. by rewrite E.
  - done.
  - intros tx key rm. unfold manager_get. rewrite run_then, run_atomically. cbn [r_get manager_ops].
    unfold RangeManager.get.
    destruct (RangeManager.get_begin _ _ _ _ _) as [rm1 [c|e|]]; cbn; [|done..].
    rewrite run_then. unfold lock_job. rewrite run_await. by destruct (RangeManager.lock_granted c rm1).
  - intros tx req rm. unfold manager_prepare. rewrite run_then, run_atomically. cbn [r_prepare manager_ops].
    unfold RangeManager.prepare.
    destruct (RangeManager.prepare_begin _ _ _ _ _) as [rm1 [[r|c changes]|e|]]; cbn; [done| |done..].
    rewrite run_then. unfold lock_job. rewrite run_await.
    destruct (RangeManager.lock_granted c rm1); [|done].
    rewrite run_then, run_atomically.
    destruct (RangeManager.prepare_locked _ _ _ _ _ _) as [rm2 [[r rc]|e|]]; cbn; [|done..].
    rewrite run_then, run_log. unfold RangeManager.await_log. by destruct (Wal.wal_answer rc _) as [[]|].
  - intros tx req rm. unfold manager_abort. rewrite run_then, run_atomically. cbn [r_abort manager_ops].
    unfold abort_begin, RangeManager.abort. destruct (RangeManager.state rm) as [| |st|] eqn:E; cbn; try done.
    destruct (LockTable.is_currently_holding _ _); cbn; [|done].
    destruct (Wal.wal_append _ _ _) as [w' [rc|e|]]; cbn; [|done..].
    rewrite run_then, run_log.
    unfold RangeManager.await_log. cbn. destruct (Wal.wal_answer rc _) as [[]|]; try done.
    rewrite run_atomically. unfold abort_finish. cbn. rewrite E. by destruct (LockTable.release _ _ _).
  - intros txs req rm. unfold manager_commit. rewrite run_then, run_atomically. cbn [r_commit manager_ops].
    unfold commit_begin, RangeManager.commit. destruct (RangeManager.state rm) as [| |st|] eqn:E; cbn; try done.
    destruct (Wal.wal_append _ _ _) as [w' [rc|e|]]; cbn; [|done..].
    rewrite run_then, run_log.
    unfold RangeManager.await_log. cbn. destruct (Wal.wal_answer rc _) as [[]|]; try done.
    rewrite run_then, run_atomically.
    destruct (RangeManager.commit_apply _ _ _) as [rm4 [last|e|]]; cbn; try done.
    rewrite run_atomically. by destruct (RangeManager.commit_clear _ _ _ _).
Defined.
End Managers.

(** ** The server *)

Section Server.
Context `{RangeJobs R}.
(** [Uuid::to_u128_le] and [Uuid::from_u128_le] of the crate [uuid] *)
Context (to_u128_le from_u128_le : Uuid -> N).

Notation Handler := (Job (Server R) Error).

(** the actions of a task on the manager [h] *)
Fixpoint on_manager {A} (h : positive) (t : Task R A) : Task (Server R) A :=
  match t with
  | Done a => Done a
  | Act f => Act (fun sv =>
      match managers sv !! h with
      | None => None
      | Some r => match f r with
                  | Some (r', t') => Some (set_managers (<[h := r']> (managers sv)) sv, on_manager h t')
                  | None => None
                  end
      end)
  end.

Definition call_job {A} (h : positive) (t : Job R Error A) : Handler A :=
  Act (fun sv => match managers sv !! h with
                 | None => Some (sv, Done Panic)
                 | Some _ => Some (sv, on_manager h t)
                 end).

(** *** Loading and unloading *)

(** the table gives the manager away, which is unloaded then *)
Definition unload_job (id : FullRangeId) : Task (Server R) unit :=
  Act (fun sv => Some (set_ranges (delete (range_id id) (loaded_ranges sv)) sv,
                       match loaded_ranges sv !! range_id id with
                       | None => Done tt
                       | Some h => on_manager h t_unload
                       end)).

(** [load] of the manager [h] *)
Definition load_manager (h : positive) : Handler positive := call_job h t_load ^;; j_ret h.

(** the critical section of the write lock: the manager in the table or a new one *)
Definition find_or_create (id : FullRangeId) (sv : Server R) : Server R * result Error positive :=
  match loaded_ranges sv !! range_id id with
  | Some h => (sv, Ok h)
  | None =>
      let h := fresh (dom (managers sv) : gset positive) in
      (set_ranges (<[range_id id := h]> (loaded_ranges sv))
         (set_managers (<[h := r_new id]> (managers sv)) sv), Ok h)
  end.

Definition create_job (id : FullRangeId) : Handler positive :=
  let^ h := atomically (find_or_create id) in load_manager h.

(** the look at the table, the look at the assignment, the creation *)
Definition load_inner_job (id : FullRangeId) : Handler positive :=
  let^ found := atomically (fun sv => (sv, Ok (loaded_ranges sv !! range_id id))) in
  match found with
  | Some h => load_manager h
  | None =>
      let^ assigned := atomically (fun sv => (sv, Ok (WardenHandler.is_assigned id (warden_handler sv)))) in
      if assigned : bool then create_job id else j_fail RangeIsNotLoaded
  end.

(** an error takes the lock of the table again *)
Definition load_job (id : FullRangeId) : Handler positive :=
  t_bind (load_inner_job id) (fun res =>
    match res with
    | Err e => atomically (fun sv => (forget_range id sv, Err e))
    | _ => Done res
    end).

(** *** Requests *)

Definition required_job {A} (o : option A) : Handler A :=
  match o with Some a => j_ret a | None => j_fail InvalidRequestFormat end.

Definition range_job (o : option FbRangeId) : Handler FullRangeId :=
  let^ id := required_job o in required_job (deserialize_range_id from_u128_le id).

Definition info_job (id : Uuid) : Handler TransactionInfo :=
  atomically (fun sv => (sv, match transaction_table sv !! id with
                             | Some i => Ok i
                             | None => Err UnknownTransaction
                             end)).

Fixpoint keys_job (tx : TransactionInfo) (h : positive) (keys : list (option Bytes)) (leader : Z)
    (reads : list (Bytes * option Bytes)) (deps : gset Uuid)
    : Handler (Z * list (Bytes * option Bytes) * gset Uuid) :=
  match keys with
  | [] => j_ret (leader, reads, deps)
  | None :: _ => j_panic
  | Some key :: keys' =>
      let^ g := call_job h (t_get tx key) in
      keys_job tx h keys' (next_leader leader (RangeManager.get_leader_sequence_number g))
        (reads ++ [(key, RangeManager.val g)])
        (deps ∪ list_to_set (RangeManager.get_dependencies g))
  end.

Definition get_inner_job `{HashOrder} (now : Z) (req : GetRequest)
    : Handler (Z * list (Bytes * option Bytes) * list Uuid) :=
  let^ range := range_job (gr_range_id req) in
  let^ tx := required_job (gr_transaction_id req) in
  let transaction_id := deserialize_uuid from_u128_le tx in
  required_job (gr_request_id req) ^;;
  j_modify (maybe_start_transaction now transaction_id (gr_transaction_info req)) ^;;
  let^ rm := load_job range in
  let^ tx := info_job transaction_id in
  let^ res := keys_job tx rm (default [] (gr_keys req)) UNSET_LEADER_SEQUENCE_NUMBER [] ∅ in
  j_ret (res.1.1, res.1.2, hash_iter res.2).

Definition answer_job {A B} (m : Handler A) (ok : A -> B) (err : Error -> B) : Handler B :=
  t_bind m (fun res =>
    match res with
    | Ok a => j_ret (ok a)
    | Err e => j_ret (err e)
    | Panic => j_panic
    end).

Definition get_job `{HashOrder} (now : Z) (req : GetRequest) : Handler GetResponse :=
  match gr_request_id req with
  | None => j_ret (mkGetResponse None StatusInvalidRequestFormat 0 None None)
  | Some id =>
      answer_job (get_inner_job now req)
        (fun res => mkGetResponse (echo to_u128_le from_u128_le id) StatusOk res.1.1 (Some res.1.2)
                      (Some (serialize_uuid to_u128_le <$> res.2)))
        (fun e => mkGetResponse (echo to_u128_le from_u128_le id) (to_flatbuf_status e) (-1) (Some []) (Some []))
  end.

Definition prepare_inner_job (req : PrepareRequest) : Handler RangeManager.PrepareResult :=
  let^ range := range_job (pr_range_id req) in
  let^ tx := required_job (pr_transaction_id req) in
  let transaction_id := deserialize_uuid from_u128_le tx in
  let^ rm := load_job range in
  let^ tx := info_job transaction_id in
  call_job rm (t_prepare tx (pr_body req)).

Definition prepare_job (req : PrepareRequest) : Handler PrepareResponse :=
  match pr_request_id req with
  | None => j_ret (mkPrepareResponse None StatusInvalidRequestFormat 0 None None false)
  | Some id =>
      answer_job (prepare_inner_job req)
        (fun res => mkPrepareResponse (echo to_u128_le from_u128_le id) StatusOk
                      (RangeManager.prepare_highest_known_epoch res)
                      (Some (RangeManager.prepare_epoch_lease res))
                      (Some (serialize_uuid to_u128_le <$> RangeManager.dependencies res))
                      (RangeManager.released_lock_early res))
        (fun e => mkPrepareResponse (echo to_u128_le from_u128_le id) (to_flatbuf_status e) 0 None (Some []) false)
  end.

Definition commit_inner_job (req : CommitRequest) : Handler unit :=
  let^ range := range_job (cr_range_id req) in
  let^ ids := required_job (cr_transaction_ids req) in
  let transaction_ids := deserialize_uuid from_u128_le <$> ids in
  let^ rm := load_job range in
  call_job rm (t_commit transaction_ids (cr_body req)) ^;;
  j_modify (remove_transactions transaction_ids).

Definition commit_job (req : CommitRequest) : Handler StatusResponse :=
  match cr_request_id req with
  | None => j_ret (mkStatusResponse None StatusInvalidRequestFormat)
  | Some id =>
      answer_job (commit_inner_job req) (fun _ => mkStatusResponse (echo to_u128_le from_u128_le id) StatusOk)
        (fun e => mkStatusResponse (echo to_u128_le from_u128_le id) (to_flatbuf_status e))
  end.

Definition abort_inner_job (req : AbortRequest) : Handler unit :=
  let^ range := range_job (ar_range_id req) in
  let^ tx := required_job (ar_transaction_id req) in
  let transaction_id := deserialize_uuid from_u128_le tx in
  let^ rm := load_job range in
  let^ tx := info_job transaction_id in
  call_job rm (t_abort tx (ar_body req)).

Definition abort_job (req : AbortRequest) : Handler StatusResponse :=
  match ar_request_id req with
  | None => j_ret (mkStatusResponse None StatusInvalidRequestFormat)
  | Some id =>
      answer_job (abort_inner_job req) (fun _ => mkStatusResponse (echo to_u128_le from_u128_le id) StatusOk)
        (fun e => mkStatusResponse (echo to_u128_le from_u128_le id) (to_flatbuf_status e))
  end.

(** the task of a message of [network_server_loop] *)
Definition message_job `{HashOrder} (now : Z) (msg : RequestEnvelope) : Handler (option ResponseEnvelope) :=
  match msg with
  | GetMessage r => let^ s := get_job now r in j_ret (Some (GetReply s))
  | PrepareMessage r => let^ s := prepare_job r in j_ret (Some (PrepareReply s))
  | AbortMessage r => let^ s := abort_job r in j_ret (Some (AbortReply s))
  | CommitMessage r => let^ s := commit_job r in j_ret (Some (CommitReply s))
  | UnknownMessage => j_ret None
  end.

(** ** Without interruption *)

(** how [RangeServer.v] reports the end of a task *)
Definition outcome {A} (x : Server R * option (result Error A)) : Server R * result Outcome A :=
  (x.1, match x.2 with
        | Some (Ok a) => Ok a
        | Some (Err e) => Err (Failed e)
        | Some Panic => Panic
        | None => Err Waiting
        end).

Definition implements {A} (t : Handler A) (m : M (Server R) Outcome A) : Prop :=
  forall sv, outcome (run t sv) = m sv.

Lemma impl_ret {A} (a : A) : implements (j_ret a) (m_ret a).
Proof. done. Qed.
Lemma impl_fail {A} e : implements (A := A) (j_fail e) (m_fail (Failed e)).
Proof. done. Qed.
Lemma impl_panic {A} : implements (A := A) j_panic m_panic.
Proof. done. Qed.
Lemma impl_modify f : implements (j_modify f) (m_modify f).
Proof. done. Qed.

Lemma impl_then {A B} (t : Handler A) (m : M (Server R) Outcome A) (k : A -> Handler B) k' :
  implements t m -> (forall a, implements (k a) (k' a)) -> implements (j_then t k) (m_then m k').
Proof.
  intros Ht Hk sv. unfold m_then. rewrite run_then, <- Ht.
  destruct (run t sv) as [sv1 [[a|e|]|]]; cbn; [apply Hk|done..].
Qed.

Lemma run_on_manager {A} h (t : Task R A) sv r :
  managers sv !! h = Some r ->
  run (on_manager h t) sv = (set_managers (<[h := (run t r).1]> (managers sv)) sv, (run t r).2).
Proof.
  revert sv r. induction t as [a|f IH] using task_ind; intros sv r Hr; cbn.
  - rewrite insert_id by done. by destruct sv.
  - rewrite Hr. destruct (f r) as [[r' t']|] eqn:E; cbn.
    + rewrite (IH _ _ _ E _ r') by apply lookup_insert_eq. cbn. by rewrite insert_insert_eq.
    + rewrite insert_id by done. by destruct sv.
Qed.

Lemma impl_call {A} h (t : Job R Error A) op :
  (forall r, run t r = op r) -> implements (call_job h t) (call h op).
Proof.
  intros Hop sv. unfold call, call_job. cbn. destruct (managers sv !! h) as [r|] eqn:E; [|done].
  rewrite (run_on_manager h t sv r E), Hop. by destruct (op r) as [r' [[]|]].
Qed.

Lemma impl_answer {A B} (t : Handler A) m (ok : A -> B) err :
  implements t m -> implements (answer_job t ok err) (answer m ok err).
Proof.
  intros Ht sv. unfold answer_job, answer. rewrite run_bind, <- Ht.
  by destruct (run t sv) as [sv1 [[]|]].
Qed.
Lemma impl_load_manager h : implements (load_manager h) (call h r_load ;;; m_ret h).
Proof. apply impl_then; [apply impl_call, run_load|]. intros []. apply impl_ret. Qed.

Lemma impl_create id : implements (create_job id) (load_or_create id).
Proof.
  intros sv. unfold create_job. rewrite load_or_create_eq, run_then, run_atomically. unfold find_or_create.
  destruct (loaded_ranges sv !! range_id id); cbn -[load_manager fresh]; apply impl_load_manager.
Qed.

(** a load that is not interrupted *)
Lemma impl_load id : implements (load_job id) (maybe_load_and_get_range id).
Proof.
  assert (Hi : implements (load_inner_job id) (maybe_load_and_get_range_inner id)).
  { intros sv. unfold load_inner_job. rewrite load_inner_eq, run_then, run_atomically. cbn [fst snd].
    destruct (loaded_ranges sv !! range_id id); [apply impl_load_manager|].
    rewrite run_then, run_atomically. cbn [fst snd].
    destruct (WardenHandler.is_assigned _ _); [apply impl_create|done]. }
  intros sv. unfold load_job, maybe_load_and_get_range. rewrite run_bind, <- Hi.
  by destruct (run (load_inner_job id) sv) as [sv1 [[]|]].
Qed.

Lemma run_unload_job id sv :
  (forall h, loaded_ranges sv !! range_id id = Some h -> is_Some (managers sv !! h)) ->
  run (unload_job id) sv = (maybe_unload_range id sv, Some tt).
Proof.
  intros Hh. unfold unload_job, maybe_unload_range. cbn.
  destruct (loaded_ranges sv !! range_id id) as [h|] eqn:E.
  - destruct (Hh h eq_refl) as [r Hr]. rewrite (run_on_manager _ _ _ r) by done. rewrite run_unload. cbn.
    do 2 f_equal. apply map_eq. intros i. destruct (decide (i = h)) as [->|].
    + by rewrite lookup_insert_eq, lookup_alter_eq, Hr.
    + by rewrite lookup_insert_ne, lookup_alter_ne.
  - cbn. rewrite delete_id by done. by destruct sv.
Qed.

Lemma impl_required {A} (o : option A) : implements (required_job o) (required o).
Proof. by destruct o. Qed.
Lemma impl_info id : implements (info_job id) (get_transaction_info id).
Proof. intros sv. cbn. unfold get_transaction_info. by destruct (transaction_table sv !! id). Qed.

Lemma impl_keys tx h keys leader reads deps :
  implements (keys_job tx h keys leader reads deps) (get_keys tx h keys leader reads deps).
Proof.
  revert leader reads deps. induction keys as [|[key|] keys IH]; intros leader reads deps; cbn [keys_job get_keys];
    [done| |done]. apply impl_then; [apply impl_call, run_get|]. intros g. apply IH.
Qed.

Ltac impl :=
  repeat first
    [ apply impl_load | apply impl_keys | apply impl_info | apply impl_required | apply impl_modify
    | apply impl_call; intros ?; first [apply run_prepare | apply run_commit | apply run_abort]
    | apply impl_ret | apply impl_answer | apply impl_then; [|intros ?] | case_match ].

(** The task of a message does what [handle_message] does when nobody interrupts
    it, and where the one waits so does the other. *)
Lemma message_job_uninterrupted `{HashOrder} now msg :
  implements (message_job now msg) (handle_message to_u128_le from_u128_le now msg).
Proof.
  unfold message_job, handle_message, get_job, get, prepare_job, prepare, abort_job, abort, commit_job, commit,
    get_inner_job, get_inner, prepare_inner_job, prepare_inner, abort_inner_job, abort_inner,
    commit_inner_job, commit_inner, range_job, request_range.
  impl.
Qed.
End Server.

(** ** Witnesses: managers whose calls are one action *)

Definition whole {R A} (op : R -> R * option A) : Task R A :=
  Act (fun r => Some ((op r).1, match (op r).2 with Some a => Done a | None => Act (fun _ => None) end)).

Lemma run_whole {R A} (op : R -> R * option A) r : run (whole op) r = op r.
Proof. cbn. by destruct (op r) as [r' [a|]]. Qed.

#[refine] Instance whole_jobs {R} (ops : RangeOps R) : RangeJobs R := {|
  t_load := whole r_load;
  t_unload := atomically (fun r => (r_unload r, tt));
  t_get tx key := whole (r_get tx key);
  t_prepare tx req := whole (r_prepare tx req);
  t_abort tx req := whole (r_abort tx req);
  t_commit txs req := whole (r_commit txs req)
|}.
Proof. all: intros; apply run_whole || done. Defined.
End RangeTasks.
