(* ===== verification/RangeClient.v ===== *)
(** * Calls of a range server: [src/rangeclient/src/client.rs]

    A client builds a message, sends it to a range server over a network that
    delivers it and the answer, and reads the answer. The operations run against
    the server of [RangeServer.v], so a call is a computation on the server's
    state. *)

From Stdlib Require Import Floats.SpecFloat.
From stdpp Require Import base tactics list numbers option gmap sets strings.
From S2P Require Import Prelude Float64 Common RsError RangeManager RangeServer.

Module RangeClient.
Import Common RsError RangeServer.
Local Open Scope sangria_scope.

Record GetResult := mkGetResult {
  vals : list (option Bytes);
  leader_sequence_number : Z;
  dependencies : list Uuid
}.

Record PrepareOk := mkPrepareOk {
  ok_highest_known_epoch : Z;
  ok_epoch_lease : Z * Z;
  ok_dependencies : list Uuid;
  ok_released_lock_early : bool
}.

Section Operations.
Context `{RangeOps R, HashOrder}.
(** [Uuid::to_u128_le] and [Uuid::from_u128_le] of the crate [uuid] *)
Context (to_u128_le from_u128_le : Uuid -> N).
(** the clock of the server *)
Context (now : Z).

Notation Call := (M (Server R) Outcome).
Notation ser := (serialize_uuid to_u128_le).
Notation de := (deserialize_uuid from_u128_le).

(** a message and its answer; a message that is not answered closes the channel
    of the answer, which the client unwraps *)
Definition send (msg : RequestEnvelope) : Call ResponseEnvelope :=
  let! reply := handle_message to_u128_le from_u128_le now msg in m_unwrap reply.

Definition check_status (s : Status) : Call unit :=
  match from_flatbuf_status s with
  | Ok _ => m_ret tt
  | Err e => m_fail (Failed e)
  | Panic => m_panic
  end.

Definition dependencies_of (deps : option (list Uuidu128Args)) : list Uuid :=
  match deps with
  | Some deps => de <$> deps
  | None => []
  end.

(** [as_micros() as u32] *)
Definition timeout_us (tx : TransactionInfo) : Z := wrap_u32 (tx_overall_timeout tx / 1000).

(** [get]; [req_id] is the random id of the request *)
Definition client_get (req_id : Uuid) (tx : TransactionInfo) (range : FullRangeId)
    (keys : list Bytes) : Call GetResult :=
  let! reply := send (GetMessage
    (mkGetRequest (Some (ser req_id)) (Some (ser (tx_id tx)))
       (Some (timeout_us tx)) (Some (serialize_range_id to_u128_le range))
       (Some (Some <$> keys)))) in
  match reply with
  | GetReply s =>
      check_status (gs_status s) ;;;
      m_ret (mkGetResult (snd <$> default [] (gs_records s)) (gs_leader_sequence_number s)
               (dependencies_of (gs_dependencies s)))
  | _ => m_fail (Failed InvalidRequestFormat)
  end.

(** what a prepare carries for the range; [buf] is the encoded message *)
Definition prepare_body (has_reads : bool) (writes : list KvRecord) (deletes : list Bytes)
    (resolver_average_load : spec_float) (num_open_clients : Z) (buf : Bytes)
    : RangeManager.PrepareRequest :=
  RangeManager.mkPrepareRequest (Some ((fun r => (rec_key r, rec_val r)) <$> writes))
    (Some deletes) has_reads resolver_average_load num_open_clients buf.

Definition prepare_transaction (req_id : Uuid) (tx : TransactionInfo) (range : FullRangeId)
    (has_reads : bool) (writes : list KvRecord) (deletes : list Bytes)
    (resolver_average_load : spec_float) (num_open_clients : Z) (buf : Bytes) : Call PrepareOk :=
  let! reply := send (PrepareMessage
    (mkPrepareRequest (Some (ser req_id)) (Some (ser (tx_id tx)))
       (Some (serialize_range_id to_u128_le range))
       (prepare_body has_reads writes deletes resolver_average_load num_open_clients buf))) in
  match reply with
  | PrepareReply s =>
      check_status (ps_status s) ;;;
      let! lease := m_unwrap (ps_epoch_lease s) in
      m_ret (mkPrepareOk (ps_highest_known_epoch s) lease (dependencies_of (ps_dependencies s))
               (ps_released_lock_early s))
  | _ => m_fail (Failed InvalidRequestFormat)
  end.

(** [abort_transaction]; [buf] is the encoded message *)
Definition abort_transaction (req_id : Uuid) (tx : TransactionInfo) (range : FullRangeId)
    (buf : Bytes) : Call unit :=
  let! reply := send (AbortMessage
    (mkAbortRequest (Some (ser req_id)) (Some (ser (tx_id tx)))
       (Some (serialize_range_id to_u128_le range)) (RangeManager.mkAbortRequest buf))) in
  match reply with
  | AbortReply s => check_status (ss_status s)
  | _ => m_fail (Failed InvalidRequestFormat)
  end.

Definition commit_transactions (req_id : Uuid) (txs : list Uuid) (range : FullRangeId) (epoch : Z)
    (buf : Bytes) : Call unit :=
  let! reply := send (CommitMessage
    (mkCommitRequest (Some (ser req_id)) (Some (ser <$> txs))
       (Some (serialize_range_id to_u128_le range)) (RangeManager.mkCommitRequest epoch 0 buf))) in
  match reply with
  | CommitReply s => check_status (ss_status s)
  | _ => m_fail (Failed InvalidRequestFormat)
  end.

(** ** The calls without the network *)

(** the reads: leader number, records and dependencies *)
Definition local_reads (tx : Uuid) (timeout : Z) (range : FullRangeId) (keys : list Bytes)
    : Call (Z * list (Bytes * option Bytes) * list Uuid) :=
  m_modify (maybe_start_transaction now tx (Some timeout)) ;;;
  let! rm := maybe_load_and_get_range range in
  let! info := get_transaction_info tx in
  let! res := get_keys info rm (Some <$> keys) UNSET_LEADER_SEQUENCE_NUMBER [] ∅ in
  m_ret (res.1.1, res.1.2, hash_iter res.2).

Definition local_get (tx : Uuid) (timeout : Z) (range : FullRangeId) (keys : list Bytes)
    : Call GetResult :=
  let! res := local_reads tx timeout range keys in
  m_ret (mkGetResult res.1.2.*2 res.1.1 res.2).

Definition local_prepare (tx : Uuid) (range : FullRangeId) (body : RangeManager.PrepareRequest)
    : Call RangeManager.PrepareResult :=
  let! rm := maybe_load_and_get_range range in
  let! info := get_transaction_info tx in
  call rm (r_prepare info body).

Definition local_abort (tx : Uuid) (range : FullRangeId) (buf : Bytes) : Call unit :=
  let! rm := maybe_load_and_get_range range in
  let! info := get_transaction_info tx in
  call rm (r_abort info (RangeManager.mkAbortRequest buf)).

Definition local_commit (txs : list Uuid) (range : FullRangeId) (epoch : Z) (buf : Bytes)
    : Call unit :=
  let! rm := maybe_load_and_get_range range in
  call rm (r_commit txs (RangeManager.mkCommitRequest epoch 0 buf)) ;;;
  m_modify (remove_transactions txs).

(** what is left of a result on the other side of the network *)
Definition seen {A} (r : result Outcome A) : result Outcome A :=
  match r with
  | Err (Failed e) => Err (Failed (seen_by_client e))
  | r => r
  end.

Definition is_uuid (u : Uuid) : Prop := (u < 2 ^ 128)%N.
Definition is_range (r : FullRangeId) : Prop :=
  is_uuid (keyspace_uuid (keyspace_id r)) /\ is_uuid (range_id r).

(** the dependencies of a result are uuids *)
Definition uuids_of {A} (deps : A -> list Uuid) (r : result Outcome A) : Prop :=
  match r with
  | Ok a => Forall is_uuid (deps a)
  | _ => True
  end.

(** ** Lemmas *)

(** the conversions are inverse on 128-bit values *)
Context (to_u128_le_bound : forall u, is_uuid u -> (to_u128_le u < 2 ^ 128)%N)
  (from_to_u128_le : forall u, is_uuid u -> from_u128_le (to_u128_le u) = u).

Lemma de_ser u : is_uuid u -> de (ser u) = u.
Proof.
  intros Hu. unfold deserialize_uuid, serialize_uuid. cbn [lower upper].
  rewrite split_halves by auto. by apply from_to_u128_le.
Qed.

Lemma de_ser_list us : Forall is_uuid us -> de <$> (ser <$> us) = us.
Proof. induction 1 as [|u us Hu _ IH]; [done|]. cbn. by rewrite de_ser, IH. Qed.

Lemma request_range_ser range (sv : Server R) :
  is_range range ->
  request_range from_u128_le (Some (serialize_range_id to_u128_le range)) sv = (sv, Ok range).
Proof.
  intros [Hk Hr]. unfold request_range, m_then, required, m_ret.
  unfold deserialize_range_id, serialize_range_id. cbn [fb_keyspace_id fb_range_id].
  rewrite !de_ser by done. by destruct range as [[k] r].
Qed.

Lemma check_status_error e sv :
  check_status (to_flatbuf_status e) sv = (sv, Err (Failed (seen_by_client e))).
Proof. unfold check_status. by rewrite status_roundtrip. Qed.

Lemma get_inner_local req_id tx timeout range keys sv :
  is_uuid tx -> is_range range ->
  get_inner from_u128_le now
    (mkGetRequest (Some (ser req_id)) (Some (ser tx)) (Some timeout)
       (Some (serialize_range_id to_u128_le range)) (Some (Some <$> keys))) sv =
  local_reads tx timeout range keys sv.
Proof.
  intros Ht Hr. unfold get_inner. cbn [gr_range_id gr_transaction_id gr_request_id gr_keys
    gr_transaction_info default]. unfold m_then at 1. rewrite request_range_ser by done.
  unfold m_then at 1. cbn [required m_ret]. unfold m_then at 1. cbn [m_ret]. by rewrite !de_ser.
Qed.

Lemma prepare_inner_local req_id tx range body sv :
  is_uuid tx -> is_range range ->
  prepare_inner from_u128_le
    (mkPrepareRequest (Some (ser req_id)) (Some (ser tx))
       (Some (serialize_range_id to_u128_le range)) body) sv =
  local_prepare tx range body sv.
Proof.
  intros Ht Hr. unfold prepare_inner. cbn [pr_range_id pr_transaction_id pr_body].
  unfold m_then at 1. rewrite request_range_ser by done.
  unfold m_then at 1. cbn [required m_ret]. by rewrite !de_ser.
Qed.

Lemma abort_inner_local req_id tx range buf sv :
  is_uuid tx -> is_range range ->
  abort_inner from_u128_le
    (mkAbortRequest (Some (ser req_id)) (Some (ser tx))
       (Some (serialize_range_id to_u128_le range)) (RangeManager.mkAbortRequest buf)) sv =
  local_abort tx range buf sv.
Proof.
  intros Ht Hr. unfold abort_inner. cbn [ar_range_id ar_transaction_id ar_body].
  unfold m_then at 1. rewrite request_range_ser by done.
  unfold m_then at 1. cbn [required m_ret]. by rewrite !de_ser.
Qed.

Lemma commit_inner_local req_id txs range epoch buf sv :
  Forall is_uuid txs -> is_range range ->
  commit_inner from_u128_le
    (mkCommitRequest (Some (ser req_id)) (Some (ser <$> txs))
       (Some (serialize_range_id to_u128_le range)) (RangeManager.mkCommitRequest epoch 0 buf)) sv =
  local_commit txs range epoch buf sv.
Proof.
  intros Ht Hr. unfold commit_inner. cbn [cr_range_id cr_transaction_ids cr_body].
  unfold m_then at 1. rewrite request_range_ser by done.
  unfold m_then at 1. cbn [required m_ret]. by rewrite !de_ser_list.
Qed.

(** the answer to a request, as the client goes on from it *)
Lemma answer_then {A B C} (m : Call A) (ok : A -> B) (err : Error -> B) (reply : B -> ResponseEnvelope)
    (k : ResponseEnvelope -> Call C) sv sv' r :
  m sv = (sv', r) ->
  (let! x := (let! y := (let! s := answer m ok err in m_ret (Some (reply s))) in m_unwrap y) in k x) sv =
  match r with
  | Ok a => k (reply (ok a)) sv'
  | Err (Failed e) => k (reply (err e)) sv'
  | Err Waiting => (sv', Err Waiting)
  | Panic => (sv', Panic)
  end.
Proof. intros Hm. unfold m_then, answer. rewrite Hm. by destruct r as [a|[e|]|]. Qed.

(** the dependencies of an answer are encoded and decoded once *)
Definition sent_uuids (us : list Uuid) : list Uuid := dependencies_of (Some (ser <$> us)).

Lemma sent_same us : Forall is_uuid us -> sent_uuids us = us.
Proof. apply de_ser_list. Qed.

Lemma get_call_eq req_id tx range keys sv :
  is_uuid (tx_id tx) -> is_range range ->
  client_get req_id tx range keys sv =
  let (sv', r) := local_reads (tx_id tx) (timeout_us tx) range keys sv in
  (sv', match seen r with
        | Ok res => Ok (mkGetResult res.1.2.*2 res.1.1 (sent_uuids res.2))
        | Err e => Err e
        | Panic => Panic
        end).
Proof.
  intros Ht Hr. destruct (local_reads (tx_id tx) (timeout_us tx) range keys sv) as [s1 r1] eqn:E.
  unfold client_get, send, handle_message, get. cbn [gr_request_id].
  erewrite answer_then; [|by rewrite get_inner_local].
  destruct r1 as [a|[e|]|]; try done. unfold m_then. cbn [gs_status]. by rewrite check_status_error.
Qed.

Lemma get_call req_id tx range keys sv sv' r :
  is_uuid (tx_id tx) -> is_range range ->
  local_get (tx_id tx) (timeout_us tx) range keys sv = (sv', r) ->
  uuids_of dependencies r -> client_get req_id tx range keys sv = (sv', seen r).
Proof.
  intros Ht Hr Hl Hu. rewrite get_call_eq by done. unfold local_get, m_then in Hl.
  destruct (local_reads (tx_id tx) (timeout_us tx) range keys sv) as [s1 [a|[e|]|]];
    injection Hl as <- <-; try done. cbn [seen]. by rewrite sent_same.
Qed.

Lemma prepare_call_eq req_id tx range has_reads writes deletes load clients buf sv :
  is_uuid (tx_id tx) -> is_range range ->
  prepare_transaction req_id tx range has_reads writes deletes load clients buf sv =
  let (sv', r) := local_prepare (tx_id tx) range
                    (prepare_body has_reads writes deletes load clients buf) sv in
  (sv', match seen r with
        | Ok p => Ok (mkPrepareOk (RangeManager.prepare_highest_known_epoch p)
                        (RangeManager.prepare_epoch_lease p)
                        (sent_uuids (RangeManager.dependencies p))
                        (RangeManager.released_lock_early p))
        | Err e => Err e
        | Panic => Panic
        end).
Proof.
  intros Ht Hr. destruct (local_prepare _ _ _ sv) as [s1 r1] eqn:E.
  unfold prepare_transaction, send, handle_message, prepare. cbn [pr_request_id].
  erewrite answer_then; [|by rewrite prepare_inner_local].
  destruct r1 as [p|[e|]|]; try done. unfold m_then. cbn [ps_status]. by rewrite check_status_error.
Qed.

(** the same for the calls that the client answers with a status alone *)
Lemma status_call (m : Call unit) (id : option Uuidu128Args) (reply : StatusResponse -> ResponseEnvelope)
    (k : ResponseEnvelope -> Call unit) sv sv' r :
  m sv = (sv', r) -> (forall s, k (reply s) = check_status (ss_status s)) ->
  (let! x := (let! y := (let! s := answer m (fun _ => mkStatusResponse id StatusOk)
     (fun e => mkStatusResponse id (to_flatbuf_status e)) in m_ret (Some (reply s))) in
     m_unwrap y) in k x) sv = (sv', seen r).
Proof.
  intros Hm Hk. erewrite answer_then by done. destruct r as [[]|[e|]|]; rewrite ?Hk; try done.
  apply check_status_error.
Qed.

Lemma commit_call req_id txs range epoch buf sv sv' r :
  Forall is_uuid txs -> is_range range ->
  local_commit txs range epoch buf sv = (sv', r) ->
  commit_transactions req_id txs range epoch buf sv = (sv', seen r).
Proof.
  intros Ht Hr Hl. unfold commit_transactions, send, handle_message, commit. cbn [cr_request_id].
  apply status_call; [by rewrite commit_inner_local|done].
Qed.

(** ** Properties *)

(** C20: a call over the network is the call. Whatever the server's state, the
    get, prepare, abort and commit of a client change the server and return
    exactly as the calls of the range in the server do, provided that what they
    name are uuids: values, epochs, leases, leader numbers and dependencies
    arrive unchanged, no error becomes a success and no success an error. What
    is lost are, of the errors, the reason of an abort, the cause of an internal
    error and that a connection was closed, and of the timeout of a transaction
    all but its microseconds modulo 2^32. *)
Theorem calls_are_transparent req_id tx range keys has_reads writes deletes load clients txs epoch
    buf sv :
  is_uuid (tx_id tx) -> is_range range -> Forall is_uuid txs ->
  (forall sv' r,
     local_get (tx_id tx) ((tx_overall_timeout tx / 1000) mod 2 ^ 32)%Z range keys sv = (sv', r) ->
     uuids_of dependencies r -> client_get req_id tx range keys sv = (sv', seen r)) /\
  (forall sv' r,
     local_prepare (tx_id tx) range (prepare_body has_reads writes deletes load clients buf) sv =
       (sv', r) ->
     uuids_of RangeManager.dependencies r ->
     prepare_transaction req_id tx range has_reads writes deletes load clients buf sv =
       (sv', match seen r with
             | Ok p => Ok (mkPrepareOk (RangeManager.prepare_highest_known_epoch p)
                             (RangeManager.prepare_epoch_lease p) (RangeManager.dependencies p)
                             (RangeManager.released_lock_early p))
             | Err e => Err e
             | Panic => Panic
             end)) /\
  (forall sv' r, local_abort (tx_id tx) range buf sv = (sv', r) ->
     abort_transaction req_id tx range buf sv = (sv', seen r)) /\
  (forall sv' r, local_commit txs range epoch buf sv = (sv', r) ->
     commit_transactions req_id txs range epoch buf sv = (sv', seen r)).
Proof.
  intros Ht Hr Htxs. split_and!; intros sv' r Hl.
  - by apply get_call.
  - intros Hu. rewrite prepare_call_eq, Hl by done. destruct r as [p|[e|]|]; try done.
    cbn [seen]. by rewrite sent_same.
  - unfold abort_transaction, send, handle_message, abort. cbn [ar_request_id].
    apply status_call; [by rewrite abort_inner_local|done].
  - by apply commit_call.
Qed.

End Operations.

(** ** Witnesses *)

Definition sample_tx : TransactionInfo := mkTransactionInfo 9 0 1000.
Definition sample_local := local_get (H := sample_ops) (H0 := element_order) 0 9 1 sample_range
  [[1%N]; [2%N]] sample_server.

(** a get of two keys, then the abort of a transaction the server does not know *)
Lemma calls_are_transparent_witness :
  (client_get (H := sample_ops) (H0 := element_order) byte_swap byte_swap 0 5 sample_tx
     sample_range [[1%N]; [2%N]] sample_server).2 = Ok (mkGetResult [None; None] 8 []) /\
  (abort_transaction (H := sample_ops) (H0 := element_order) byte_swap byte_swap 0 5 sample_tx
     sample_range [] sample_server).2 = Err (Failed UnknownTransaction).
Proof.
  destruct (calls_are_transparent (H := sample_ops) (H0 := element_order) byte_swap byte_swap 0
    (fun u _ => byte_swap_bound u) byte_swap_inv 5 sample_tx sample_range [[1%N]; [2%N]]
    true [] [] (Float64.of_Z 0) 0 [] 0 [] sample_server)
    as (Hg & _ & Ha & _); [done|done|done|].
  split.
  - rewrite (Hg sample_local.1 (Ok (mkGetResult [None; None] 8 []))); [reflexivity| |constructor].
    vm_compute. reflexivity.
  - rewrite (Ha (local_abort (H := sample_ops) 9 sample_range [] sample_server).1
      (Err (Failed UnknownTransaction))); [reflexivity|].
    vm_compute. reflexivity.
Defined.

End RangeClient.
