(* ===== verification/RangeService.v ===== *)
(** * A range behind its server

    The range server of [RangeServer.v], called by the clients of
    [RangeClient.v], with the range managers of [RangeManager.v]: a call for a
    range reaches the manager of this range and no other, so what the managers
    promise about prepare, commit and get holds of the calls of the clients. *)

From Stdlib Require Import Floats.SpecFloat.
From stdpp Require Import base tactics list numbers option gmap sets strings.
From S2P Require Import Prelude Float64 Common Storage RsError Wal RangeManager WardenHandler RangeServer RangeClient.

Module RangeService.
Import Common RsError RangeServer RangeClient.
Local Open Scope sangria_scope.

(** ** Which manager a call touches *)

Section Frame.
Context `{RangeOps R}.

Record server_ok (sv : Server R) : Prop := {
  ok_handles rid h : loaded_ranges sv !! rid = Some h -> is_Some (managers sv !! h);
  ok_injective rid rid' h :
    loaded_ranges sv !! rid = Some h -> loaded_ranges sv !! rid' = Some h -> rid = rid';
  ok_transactions id info : transaction_table sv !! id = Some info -> tx_id info = id
}.

(** the manager of a range *)
Definition manager_at (rid : Uuid) (sv : Server R) : option R :=
  loaded_ranges sv !! rid ≫= (managers sv !!.).

(** only the manager of [rid] may have changed *)
Definition touches (rid : Uuid) (sv sv' : Server R) : Prop :=
  server_ok sv -> server_ok sv' /\ forall rid', rid' <> rid -> manager_at rid' sv' = manager_at rid' sv.

#[global] Instance touches_preorder rid : PreOrder (touches rid).
Proof.
  split; [by intros sv Hok|]. intros s1 s2 s3 H12 H23 Hok. destruct (H12 Hok) as [Hok2 Hm2].
  destruct (H23 Hok2) as [Hok3 Hm3]. split; [done|]. intros rid' Hne. by rewrite Hm3, Hm2.
Qed.

Lemma manager_at_Some rid sv r :
  manager_at rid sv = Some r <-> exists h, loaded_ranges sv !! rid = Some h /\ managers sv !! h = Some r.
Proof. apply bind_Some. Qed.

Lemma touches_manager rid h r sv :
  loaded_ranges sv !! rid = Some h -> touches rid sv (set_managers (<[h := r]> (managers sv)) sv).
Proof.
  intros Hh [Hm Hi Ht]. split.
  - constructor; cbn; [|done..]. intros rid' h' Hh'. rewrite lookup_insert_is_Some'.
    right. by apply (Hm rid').
  - intros rid' Hne. unfold manager_at. cbn. destruct (loaded_ranges sv !! rid') as [h'|] eqn:E; [|done].
    cbn. rewrite lookup_insert_ne; [done|]. intros ->. by destruct Hne; apply (Hi _ _ h').
Qed.

Lemma touches_transactions rid t sv :
  (server_ok sv -> forall id info, t !! id = Some info -> tx_id info = id) ->
  touches rid sv (set_transactions t sv).
Proof. intros Ht Hok. split; [|done]. destruct Hok. constructor; cbn; try done. apply Ht. by constructor. Qed.

Lemma touches_start rid now id info sv : touches rid sv (maybe_start_transaction now id info sv).
Proof.
  unfold maybe_start_transaction. destruct info as [us|]; [|done].
  destruct (transaction_table sv !! id) eqn:E; [done|]. apply touches_transactions.
  intros [_ _ Ht] id' info'. rewrite lookup_insert_Some. intros [[<- <-]|[_ Hi]]; [done|by apply Ht].
Qed.

Lemma lookup_foldl_delete {A} (ids : list Uuid) (t : gmap Uuid A) id a :
  foldl (fun t id => delete id t) t ids !! id = Some a -> t !! id = Some a.
Proof.
  revert t; induction ids as [|i ids IH]; intros t; cbn; [done|].
  intros Hl%IH. by apply lookup_delete_Some in Hl as [_ ?].
Qed.

Lemma touches_remove rid ids sv : touches rid sv (remove_transactions ids sv).
Proof. apply touches_transactions. intros [_ _ Ht] id info ?%lookup_foldl_delete. by apply Ht. Qed.

Lemma touches_call {A} rid h (op : R -> R * option (result Error A)) sv :
  loaded_ranges sv !! rid = Some h -> touches rid sv (call h op sv).1 /\
  loaded_ranges (call h op sv).1 = loaded_ranges sv.
Proof.
  intros Hh. unfold call. destruct (managers sv !! h) as [r|]; [|done].
  destruct (op r) as [r' a]. split; [by apply touches_manager|done].
Qed.

Lemma touches_load_new rid h r sv :
  loaded_ranges sv !! rid = None -> managers sv !! h = None ->
  touches rid sv (set_ranges (<[rid := h]> (loaded_ranges sv)) (set_managers (<[h := r]> (managers sv)) sv)).
Proof.
  intros Hrid Hh [Hm Hi Ht].
  assert (Hne : forall rid' h', loaded_ranges sv !! rid' = Some h' -> h <> h').
  { intros rid' h' Hl <-. destruct (Hm _ _ Hl) as [r' Hr']. congruence. }
  split.
  - constructor; cbn; [| |done].
    + intros rid' h' [[<- <-]|[_ Hl]]%lookup_insert_Some; [by rewrite lookup_insert_eq|].
      rewrite lookup_insert_ne by (by eapply Hne). by eapply Hm.
    + intros rid1 rid2 h' [[<- <-]|[_ H1]]%lookup_insert_Some [[<- E]|[_ H2]]%lookup_insert_Some;
        [done|by destruct (Hne _ _ H2)|subst; by destruct (Hne _ _ H1)|by eapply Hi].
  - intros rid' Hr'. unfold manager_at. cbn. rewrite lookup_insert_ne by done.
    destruct (loaded_ranges sv !! rid') as [h'|] eqn:E; [|done]. cbn.
    by rewrite lookup_insert_ne by (by eapply Hne).
Qed.

Lemma touches_forget id sv : touches (range_id id) sv (forget_range id sv).
Proof.
  unfold forget_range. cbv zeta. case_match; [|reflexivity]. intros [Hm Hi Ht]. split.
  - constructor; cbn; [| |done].
    + intros rid h [_ Hl]%lookup_delete_Some. by eapply Hm.
    + intros rid rid' h [_ Hl]%lookup_delete_Some [_ Hl']%lookup_delete_Some. by eapply Hi.
  - intros rid Hne. unfold manager_at. cbn. by rewrite lookup_delete_ne.
Qed.

(** a call of the handle, with its answer *)
Lemma touches_call_ret {A} rid h (op : R -> R * option (result Error A)) sv :
  loaded_ranges sv !! rid = Some h -> touches rid sv ((call h op ;;; m_ret h) sv).1.
Proof.
  intros Hh. destruct (touches_call rid h op sv Hh) as [Ht _]. unfold m_then.
  by destruct (call h op sv) as [sv' [a|e|]].
Qed.

Lemma touches_load id sv : touches (range_id id) sv (maybe_load_and_get_range id sv).1.
Proof.
  assert (Hi : touches (range_id id) sv (maybe_load_and_get_range_inner id sv).1).
  { rewrite load_inner_eq. destruct (loaded_ranges sv !! range_id id) as [h|] eqn:E;
      [by apply touches_call_ret|].
    destruct (WardenHandler.is_assigned id (warden_handler sv)); [|done].
    rewrite load_or_create_eq, E. cbv zeta.
    etrans; [apply (touches_load_new (range_id id) (fresh (dom (managers sv) : gset positive)) (r_new id) sv E)|].
    - apply not_elem_of_dom, is_fresh.
    - apply touches_call_ret. cbn. apply lookup_insert_eq. }
  unfold maybe_load_and_get_range.
  destruct (maybe_load_and_get_range_inner id sv) as [sv1 [h|[e|]|]]; try done. cbn in *.
  etrans; [exact Hi|apply touches_forget].
Qed.

(** a call that begins with the load of its range *)
Lemma touches_after_load {A} id (k : positive -> M (Server R) Outcome A) sv :
  (forall h sv', loaded_ranges sv' !! range_id id = Some h -> touches (range_id id) sv' (k h sv').1) ->
  touches (range_id id) sv ((let! h := maybe_load_and_get_range id in k h) sv).1.
Proof.
  intros Hk. pose proof (touches_load id sv) as Hl. unfold m_then.
  destruct (maybe_load_and_get_range id sv) as [sv1 [h|e|]] eqn:E; try done.
  etrans; [exact Hl|]. apply Hk. by apply (load_ok_present id sv).
Qed.

Lemma touches_get_keys rid tx h keys leader reads deps sv :
  loaded_ranges sv !! rid = Some h -> touches rid sv (get_keys tx h keys leader reads deps sv).1.
Proof.
  revert leader reads deps sv; induction keys as [|[k|] keys IH]; intros leader reads deps sv Hh; [done| |done].
  cbn. destruct (touches_call rid h (r_get tx k) sv Hh) as [Ht Hl]. unfold m_then.
  destruct (call h (r_get tx k) sv) as [sv1 [g|e|]]; try done. etrans; [exact Ht|]. apply IH. cbn in Hl.
  by rewrite Hl.
Qed.

Context `{HashOrder} (now : Z).

(** *** The calls *)

Lemma touches_info {A} rid tx (k : TransactionInfo -> M (Server R) Outcome A) sv :
  (forall info, touches rid sv (k info sv).1) ->
  touches rid sv ((let! info := get_transaction_info tx in k info) sv).1.
Proof. intros Hk. unfold m_then, get_transaction_info. by destruct (transaction_table sv !! tx). Qed.

Lemma touches_prepare tx range body sv :
  touches (range_id range) sv (local_prepare tx range body sv).1.
Proof.
  apply touches_after_load. intros h sv' Hh. apply touches_info. intros info. by apply touches_call.
Qed.

(** a prepare leaves the table of transactions as it is *)
Lemma prepare_keeps_transactions tx range body (sv : Server R) :
  transaction_table (local_prepare tx range body sv).1 = transaction_table sv.
Proof.
  unfold local_prepare, m_then. pose proof (load_keeps_transactions range sv) as Hl.
  destruct (maybe_load_and_get_range range sv) as [sv1 [h|e|]]; [|done..]. cbn in Hl.
  unfold get_transaction_info. destruct (transaction_table sv1 !! tx) as [info|]; [|done].
  by rewrite call_keeps_transactions.
Qed.

Lemma touches_commit txs range epoch buf sv :
  touches (range_id range) sv (local_commit txs range epoch buf sv).1.
Proof.
  apply touches_after_load. intros h sv' Hh. unfold m_then at 1.
  match goal with |- context [call h ?op sv'] =>
    destruct (touches_call (range_id range) h op sv' Hh) as [Ht _]; destruct (call h op sv') as [s1 [a|e|]] end;
    try done. etrans; [exact Ht|apply touches_remove].
Qed.

Lemma touches_reads tx timeout range keys sv :
  touches (range_id range) sv (local_reads now tx timeout range keys sv).1.
Proof.
  unfold local_reads. unfold m_then at 1. cbn [m_modify].
  etrans; [apply touches_start|]. apply touches_after_load. intros h sv' Hh. apply touches_info.
  intros info. unfold m_then.
  pose proof (touches_get_keys (range_id range) info h (Some <$> keys) UNSET_LEADER_SEQUENCE_NUMBER [] ∅ sv' Hh) as Ht.
  by destruct (get_keys _ _ _ _ _ _ _) as [s1 [a|e|]].
Qed.

End Frame.
(** ** Calls on the managers of [RangeManager.v] *)

Section Service.
Context `{Storage.RangeStorage Sto, Wal.RangeWal Log, HashOrder}.
Context (cs : CommitStrategy) (heuristic : Heuristic) (s : Sto) (w : Log).
Context (epoch_duration_nanos now : Z) (contention : Bytes -> nat).
Notation Manager := (RangeManager.RangeManager Sto Log).

#[local] Instance ops : RangeOps Manager :=
  manager_ops cs heuristic s w epoch_duration_nanos now contention.

(** a range that is loaded stays as it is when it is asked for *)
Lemma load_loaded range (sv : Server Manager) h rm st :
  loaded_ranges sv !! range_id range = Some h -> managers sv !! h = Some rm ->
  RangeManager.state rm = RangeManager.Loaded st ->
  maybe_load_and_get_range range sv = (sv, Ok h).
Proof.
  intros Hh Hm Hst. unfold maybe_load_and_get_range. rewrite load_inner_eq, Hh. unfold m_then, call.
  rewrite Hm. cbn. unfold load, RangeManager.load_begin. rewrite Hst. cbn. rewrite insert_id by done.
  by destruct sv.
Qed.

(** what a call does to the manager of its range *)
Lemma call_manager {A} h (op : Manager -> Manager * option (result Error A)) (sv : Server Manager) rid rm :
  loaded_ranges sv !! rid = Some h -> managers sv !! h = Some rm ->
  loaded_ranges (call h op sv).1 !! rid = Some h /\ managers (call h op sv).1 !! h = Some (op rm).1 /\
  forall a, (call h op sv).2 = Ok a <-> (op rm).2 = Some (Ok a).
Proof.
  intros Hh Hm. unfold call. rewrite Hm. destruct (op rm) as [rm' [[a|e|]|]]; cbn;
    (split_and!; [done|apply lookup_insert_eq|naive_solver]).
Qed.

Lemma prepare_manager tx range body (sv sv' : Server Manager) rm st p :
  manager_at (range_id range) sv = Some rm -> RangeManager.state rm = RangeManager.Loaded st ->
  local_prepare tx range body sv = (sv', Ok p) ->
  exists info rm', transaction_table sv !! tx = Some info /\
    RangeManager.prepare info now now body contention rm = (rm', Some (Ok p)) /\
    manager_at (range_id range) sv' = Some rm'.
Proof.
  intros (h & Hh & Hm)%manager_at_Some Hst. unfold local_prepare, m_then.
  rewrite (load_loaded range sv h rm st) by done. unfold get_transaction_info.
  destruct (transaction_table sv !! tx) as [info|] eqn:Ht; [|done]. intros E.
  destruct (call_manager h (r_prepare info body) sv (range_id range) rm Hh Hm) as (Hh' & Hm' & Ha).
  rewrite E in Hh', Hm', Ha. cbn [fst snd] in Hh', Hm', Ha. exists info.
  destruct (Ha p) as [Ha' _]. specialize (Ha' eq_refl). cbn in Hm', Ha'.
  destruct (RangeManager.prepare info now now body contention rm) as [rm' a]. cbn in Hm', Ha'. subst a.
  exists rm'. split_and!; [done..|]. apply manager_at_Some. by exists h.
Qed.

Lemma commit_manager txs range epoch buf (sv : Server Manager) rm st :
  manager_at (range_id range) sv = Some rm -> RangeManager.state rm = RangeManager.Loaded st ->
  manager_at (range_id range) (local_commit txs range epoch buf sv).1 =
    Some (RangeManager.commit txs (RangeManager.mkCommitRequest epoch 0 buf) now rm).1.
Proof.
  intros (h & Hh & Hm)%manager_at_Some Hst. unfold local_commit, m_then.
  rewrite (load_loaded range sv h rm st) by done.
  match goal with |- context [call h ?op sv] =>
    destruct (call_manager h op sv (range_id range) rm Hh Hm) as (Hh' & Hm' & _);
    destruct (call h op sv) as [s1 [a|e|]] end; apply manager_at_Some; exists h; by split.
Qed.

(** *** Reads *)

Lemma manager_get tx key (rm rm' : Manager) g :
  RangeManager.wf rm -> RangeManager.get tx now now key rm = (rm', Some (Ok g)) ->
  RangeManager.val g = RangeManager.view rm key /\ RangeManager.same_view rm rm'.
Proof.
  intros Hwf. unfold RangeManager.get.
  assert (Hv : RangeManager.same_view rm (RangeManager.get_begin tx now now key rm).1).
  { split; [apply RangeManager.get_begin_pending|]. unfold RangeManager.get_begin.
    repeat (case_match; try done). }
  destruct (RangeManager.get_begin tx now now key rm) as [rm1 [c|e|]] eqn:Eb; [|done..].
  destruct (RangeManager.lock_granted c rm1); [|done]. intros [= <- Hg].
  destruct (RangeManager.same_view_reads _ _ Hv) as (Hview & _).
  assert (Hwf1 : RangeManager.wf rm1).
  { by destruct Hv as [Hp _]; apply (RangeManager.same_pending_wf rm). }
  destruct (RangeManager.state rm1) as [| |st1|] eqn:Est;
    try (by unfold RangeManager.get_locked in Hg; rewrite Est in Hg).
  pose proof (RangeManager.get_locked_view rm1 st1 key Hwf1 Est) as Hl. rewrite Hg in Hl.
  destruct Hl as [-> _]. by rewrite Hview.
Qed.

Lemma get_keys_view info h keys leader reads deps (sv : Server Manager) rid rm sv' res :
  loaded_ranges sv !! rid = Some h -> managers sv !! h = Some rm -> RangeManager.wf rm ->
  get_keys info h (Some <$> keys) leader reads deps sv = (sv', Ok res) ->
  res.1.2.*2 = reads.*2 ++ (RangeManager.view rm <$> keys).
Proof.
  revert leader reads deps sv rm; induction keys as [|k keys IH]; intros leader reads deps sv rm Hh Hm Hwf.
  { cbn. intros [= _ <-]. cbn. by rewrite app_nil_r. }
  intros (s1 & g & Hc & Hr)%m_then_ok.
  destruct (call_manager h (r_get info k) sv rid rm Hh Hm) as (Hh1 & Hm1 & Ha).
  rewrite Hc in Hh1, Hm1, Ha. destruct (Ha g) as [Hg _]. specialize (Hg eq_refl). cbn in Hm1, Hg.
  destruct (RangeManager.get info now now k rm) as [rm1 a] eqn:Eg. cbn in Hm1, Hg. subst a.
  destruct (manager_get _ _ _ _ _ Hwf Eg) as [Hv Hs].
  rewrite (IH _ _ _ _ _ Hh1 Hm1 (RangeManager.same_pending_wf _ _ (proj1 Hs) Hwf) Hr).
  destruct (RangeManager.same_view_reads _ _ Hs) as (Hview & _). rewrite fmap_app. cbn.
  rewrite Hv, <- app_assoc. cbn. do 2 f_equal. apply list_fmap_ext. auto.
Qed.

(** a get that succeeds reads what the manager of the range shows *)
Lemma reads_view tx timeout range keys (sv sv' : Server Manager) rm st res :
  manager_at (range_id range) sv = Some rm -> RangeManager.state rm = RangeManager.Loaded st ->
  RangeManager.wf rm -> local_reads now tx timeout range keys sv = (sv', Ok res) ->
  res.1.2.*2 = RangeManager.view rm <$> keys.
Proof.
  intros (h & Hh & Hm)%manager_at_Some Hst Hwf. unfold local_reads. unfold m_then at 1. cbn [m_modify].
  set (sv0 := maybe_start_transaction now tx (Some timeout) sv).
  assert (loaded_ranges sv0 = loaded_ranges sv /\ managers sv0 = managers sv) as [Hl0 Hm0].
  { unfold sv0, maybe_start_transaction. by case_match. }
  rewrite <- Hl0 in Hh. rewrite <- Hm0 in Hm. unfold m_then at 1.
  rewrite (load_loaded range sv0 h rm st) by done. unfold m_then at 1, get_transaction_info.
  destruct (transaction_table sv0 !! tx) as [info|]; [|done].
  intros (s1 & r1 & Hk & [= _ <-])%m_then_ok. cbn.
  apply (get_keys_view _ _ _ _ _ _ _ _ _ _ _ Hh Hm Hwf Hk).
Qed.

End Service.
End RangeService.
