(* ===== verification/MemTable.v ===== *)
(** * The range cache: [src/rangeserver/src/cache.rs] and
      [src/rangeserver/src/cache/memtabledb.rs]

    [MemTableDB] keeps the versions of the keys of a range in a ring of tables.
    One table is written; the ones before it in the ring are sealed and wait to
    be cleared. The entries of a table are in an ordered skip list of the crate
    [skiplist], of which the class [SkipList] states what its documentation
    promises. The database assumes one writer, whose epochs do not decrease. *)

From stdpp Require Import base tactics list numbers option sorting relations.
From S2P Require Import Prelude Common.

Module MemTable.
Import Common.

(** ** Data *)

Inductive Error := Timeout | CacheIsFull | InternalError.

Inductive MemTableStatus := FLUSHED | MUTABLE | IMMUTABLE.

#[global] Instance MemTableStatus_eq_dec : EqDecision MemTableStatus.
Proof. solve_decision. Defined.

Record MemTableEntry := mkMemTableEntry {
  key : Bytes;
  val : Bytes;
  epoch : N;
  deleted : bool
}.

(** [Ord for MemTableEntry]: by key, then the newest epoch first *)
Definition entry_cmp (a b : MemTableEntry) : comparison :=
  match bytes_cmp (key a) (key b) with
  | Eq => N.compare (epoch b) (epoch a)
  | c => c
  end.

(** [OrderedSkipList]: it keeps duplicates, and [lower_bound] of an included
    bound is a lowest element that is not below it *)
Class SkipList (Sk : Type) : Type := {
  sk_new : Sk;
  sk_insert : MemTableEntry -> Sk -> Sk;
  sk_lower_bound : MemTableEntry -> Sk -> option MemTableEntry;
  sk_elems : Sk -> list MemTableEntry;
  sk_new_elems : sk_elems sk_new = [];
  sk_insert_elems e s : sk_elems (sk_insert e s) ≡ₚ e :: sk_elems s;
  sk_lower_some x s e : sk_lower_bound x s = Some e ->
    e ∈ sk_elems s /\ entry_cmp e x <> Lt /\
    forall e', e' ∈ sk_elems s -> entry_cmp e' x <> Lt -> entry_cmp e' e <> Lt;
  sk_lower_none x s : sk_lower_bound x s = None ->
    forall e', e' ∈ sk_elems s -> entry_cmp e' x = Lt
}.

Record MemTable (Sk : Type) := mkMemTable {
  id : nat;
  size_in_bytes : N;
  status : MemTableStatus;
  mt_latest_epoch : N;
  oldest_epoch : N;
  entries : Sk
}.
Arguments mkMemTable {Sk} _ _ _ _ _ _.
Arguments id {Sk} _.
Arguments size_in_bytes {Sk} _.
Arguments status {Sk} _.
Arguments mt_latest_epoch {Sk} _.
Arguments oldest_epoch {Sk} _.
Arguments entries {Sk} _.

Record CacheOptions := mkCacheOptions {
  num_write_buffers : nat;
  write_buffer_size : N
}.

(** [gc_log] is what the registered callback was called with *)
Record MemTableDB (Sk : Type) := mkMemTableDB {
  cache_options : CacheOptions;
  memtables : list (MemTable Sk);
  mut_memtable_idx : nat;
  latest_epoch : N;
  gc_callback : bool;
  gc_log : list N
}.
Arguments mkMemTableDB {Sk} _ _ _ _ _ _.
Arguments cache_options {Sk} _.
Arguments memtables {Sk} _.
Arguments mut_memtable_idx {Sk} _.
Arguments latest_epoch {Sk} _.
Arguments gc_callback {Sk} _.
Arguments gc_log {Sk} _.

Section Operations.
Context `{SkipList Sk}.
Notation DB := (MemTableDB Sk).
Implicit Types (ms a b mid : list (MemTable Sk)) (t u : MemTable Sk) (f g : MemTable Sk -> MemTable Sk).

Definition set_status (st : MemTableStatus) (mt : MemTable Sk) : MemTable Sk :=
  mkMemTable (id mt) (size_in_bytes mt) st (mt_latest_epoch mt) (oldest_epoch mt) (entries mt).
Definition set_oldest (e : N) (mt : MemTable Sk) : MemTable Sk :=
  mkMemTable (id mt) (size_in_bytes mt) (status mt) (mt_latest_epoch mt) e (entries mt).
Definition set_memtables (ms : list (MemTable Sk)) (db : DB) : DB :=
  mkMemTableDB (cache_options db) ms (mut_memtable_idx db) (latest_epoch db) (gc_callback db)
    (gc_log db).

(** [CacheOptions::default] *)
Definition default_options : CacheOptions := mkCacheOptions 2 (2 * 2 ^ 29).

(** [MemTableDB::new]: [None] is the panic without a table to start with *)
Definition new (options : CacheOptions) : option DB :=
  let tables := (fun i => mkMemTable i 0 FLUSHED 0 0 sk_new) <$> seq 0 (num_write_buffers options) in
  match tables !! 0 with
  | None => None
  | Some _ => Some (mkMemTableDB options (alter (set_status MUTABLE) 0 tables) 0 0 false [])
  end.

(** the key, the value, an epoch and a flag *)
Definition entry_size (e : MemTableEntry) : N :=
  N.of_nat (length (key e)) + N.of_nat (length (val e)) + 8 + 1.

(** the end of a write: the entry goes to the table that is written *)
Definition insert_entry (e : MemTableEntry) (db : DB) : DB :=
  mkMemTableDB (cache_options db)
    (alter (fun mt => mkMemTable (id mt) (size_in_bytes mt + entry_size e) (status mt)
                        (N.max (mt_latest_epoch mt) (epoch e)) (oldest_epoch mt)
                        (sk_insert e (entries mt)))
       (mut_memtable_idx db) (memtables db))
    (mut_memtable_idx db) (epoch e) (gc_callback db) (gc_log db).

(** the switch to the table [new_id], with the call of the callback *)
Definition switch (new_id : nat) (e : N) (db : DB) : DB :=
  let ms := alter (set_oldest e) new_id
              (alter (set_status IMMUTABLE) (mut_memtable_idx db)
                 (alter (set_status MUTABLE) new_id (memtables db))) in
  mkMemTableDB (cache_options db) ms new_id (latest_epoch db) (gc_callback db)
    (if gc_callback db
     then gc_log db ++ (match ms !! new_id with Some mt => [mt_latest_epoch mt] | None => [] end)
     else gc_log db).

Definition upsert_or_delete (k : Bytes) (ep : N) (del : bool) (v : option Bytes)
    : M DB Error unit := fun db =>
  let idx := mut_memtable_idx db in
  let n := num_write_buffers (cache_options db) in
  if negb (idx <? n) then (db, Panic)
  else if match v with None => negb del | Some _ => false end then (db, Panic)
  else
    let e := mkMemTableEntry k (default [] v) ep del in
    match memtables db !! idx with
    | None => (db, Panic)
    | Some mt =>
        if negb (bool_decide (status mt = MUTABLE)) then (db, Panic)
        else if (write_buffer_size (cache_options db) <? size_in_bytes mt + entry_size e)%N then
          let new_id := (idx + 1) mod n in
          match memtables db !! new_id with
          | None => (db, Panic)
          | Some mt' =>
              if bool_decide (status mt' = FLUSHED)
              then (insert_entry e (switch new_id ep db), Ok tt)
              else (db, Err CacheIsFull)
          end
        else (insert_entry e db, Ok tt)
    end.

Definition upsert (k v : Bytes) (ep : N) : M DB Error unit := upsert_or_delete k ep false (Some v).
Definition delete (k : Bytes) (ep : N) : M DB Error unit := upsert_or_delete k ep true None.

(** the table [i] steps before the one that is written *)
Definition ring_idx (m n i : nat) : nat := (m + n - i) mod n.

(** the loop of [get] *)
Fixpoint get_loop (db : DB) (k : Bytes) (asked : option N) (epoch_internal : N) (steps : list nat)
    : result Error (option Bytes * N) :=
  match steps with
  | [] => Ok (None, default 0%N asked)
  | i :: steps' =>
      match memtables db !! ring_idx (mut_memtable_idx db) (num_write_buffers (cache_options db)) i with
      | None => Panic
      | Some mt =>
          if bool_decide (status mt = FLUSHED) then Ok (None, default 0%N asked)
          else if (oldest_epoch mt <=? epoch_internal)%N then
            match sk_lower_bound (mkMemTableEntry k [] epoch_internal false) (entries mt) with
            | Some e =>
                if bool_decide (key e = k) then
                  Ok (if deleted e then (None, default 0%N asked) else (Some (val e), epoch e))
                else get_loop db k asked epoch_internal steps'
            | None => get_loop db k asked epoch_internal steps'
            end
          else get_loop db k asked epoch_internal steps'
      end
  end.

Definition get (k : Bytes) (asked : option N) (db : DB) : result Error (option Bytes * N) :=
  let n := num_write_buffers (cache_options db) in
  if negb (mut_memtable_idx db <? n) then Panic
  else
    let epoch_internal := match asked with
                          | Some e => N.min e (latest_epoch db)
                          | None => latest_epoch db
                          end in
    get_loop db k asked epoch_internal (seq 0 n).

(** what [clear] does to a table *)
Definition clear_table (e : N) (mt : MemTable Sk) : MemTable Sk :=
  if bool_decide (status mt = IMMUTABLE) && (mt_latest_epoch mt <=? e)%N
  then mkMemTable (id mt) 0 FLUSHED (mt_latest_epoch mt) (oldest_epoch mt) sk_new
  else mt.

(** the loop of [clear], up to an index out of range *)
Fixpoint clear_loop (e : N) (m n : nat) (steps : list nat) (ms : list (MemTable Sk))
    : list (MemTable Sk) * bool :=
  match steps with
  | [] => (ms, true)
  | i :: steps' =>
      if ring_idx m n i <? length ms
      then clear_loop e m n steps' (alter (clear_table e) (ring_idx m n i) ms)
      else (ms, false)
  end.

Definition clear (e : N) : M DB Error unit := fun db =>
  let m := mut_memtable_idx db in
  let n := num_write_buffers (cache_options db) in
  if negb (m <? n) then (db, Panic)
  else
    let (ms, ok) := clear_loop e m n (seq 1 (n - 1)) (memtables db) in
    (set_memtables ms db, if ok then Ok tt else Panic).

Definition register_gc_callback (db : DB) : DB :=
  mkMemTableDB (cache_options db) (memtables db) (mut_memtable_idx db) (latest_epoch db) true
    (gc_log db).

(** ** The ring *)

(** the tables from the one that is written back to the oldest *)
Definition ring (ms : list (MemTable Sk)) (m : nat) : list (MemTable Sk) :=
  match drop m ms with
  | t :: b => t :: reverse (take m ms) ++ reverse b
  | [] => []
  end.

Lemma ring_mid a t b : ring (a ++ t :: b) (length a) = t :: reverse a ++ reverse b.
Proof. unfold ring. by rewrite drop_app_length, take_app_length. Qed.

Lemma split_table ms m :
  m < length ms -> exists a t b, ms = a ++ t :: b /\ m = length a.
Proof.
  intros [t Ht]%lookup_lt_is_Some. exists (take m ms), t, (drop (Datatypes.S m) ms).
  split; [by rewrite take_drop_middle|]. rewrite length_take. apply lookup_lt_Some in Ht. lia.
Qed.

Lemma ring_idx_0 m n : m < n -> ring_idx m n 0 = m.
Proof.
  intros Hm. unfold ring_idx. replace (m + n - 0) with (m + 1 * n) by lia.
  by rewrite Nat.Div0.mod_add, Nat.mod_small.
Qed.

Lemma ring_idx_before m n i : m < n -> i <= m -> ring_idx m n i = m - i.
Proof.
  intros Hm Hi. unfold ring_idx. replace (m + n - i) with (m - i + 1 * n) by lia.
  rewrite Nat.Div0.mod_add, Nat.mod_small; lia.
Qed.

Lemma ring_idx_after m n i : m < i -> i < n -> ring_idx m n i = m + n - i.
Proof. intros Hm Hi. unfold ring_idx. rewrite Nat.mod_small; lia. Qed.

Lemma ring_idx_lt m n i : m < n -> ring_idx m n i < n.
Proof. intros. apply Nat.mod_upper_bound. lia. Qed.

Lemma ring_length ms m : m < length ms -> length (ring ms m) = length ms.
Proof.
  intros (a & t & b & -> & ->)%split_table. rewrite ring_mid.
  cbn. rewrite !length_app, !length_reverse. cbn. lia.
Qed.

Lemma ring_lookup ms m i :
  m < length ms -> i < length ms -> ring ms m !! i = ms !! ring_idx m (length ms) i.
Proof.
  intros Hm Hi. destruct (split_table ms m Hm) as (a & t & b & -> & ->).
  rewrite ring_mid. rewrite length_app in *. cbn in *.
  destruct (decide (i <= length a)) as [Hle|Hgt].
  - rewrite ring_idx_before by lia. destruct i as [|i].
    { rewrite Nat.sub_0_r. cbn. by rewrite list_lookup_middle. }
    change ((t :: reverse a ++ reverse b) !! Datatypes.S i) with ((reverse a ++ reverse b) !! i).
    rewrite lookup_app_l by (rewrite length_reverse; lia).
    rewrite reverse_lookup by lia. rewrite lookup_app_l by lia. f_equal.
  - rewrite ring_idx_after by lia. destruct i as [|i]; [lia|].
    change ((t :: reverse a ++ reverse b) !! Datatypes.S i) with ((reverse a ++ reverse b) !! i).
    rewrite lookup_app_r by (rewrite length_reverse; lia). rewrite length_reverse.
    rewrite reverse_lookup by lia. rewrite lookup_app_r by lia.
    rewrite lookup_cons_ne_0 by lia. f_equal. lia.
Qed.

Lemma alter_mid f a t b : alter f (length a) (a ++ t :: b) = a ++ f t :: b.
Proof. induction a as [|x a IH]; [done|]. cbn. f_equal. exact IH. Qed.

Lemma ring_insert f ms m t rest :
  ring ms m = t :: rest -> ring (alter f m ms) m = f t :: rest.
Proof.
  intros Hr. destruct (decide (m < length ms)) as [Hm|Hm].
  - destruct (split_table ms m Hm) as (a & t' & b & -> & ->).
    rewrite alter_mid, ring_mid. rewrite ring_mid in Hr. by injection Hr as <- <-.
  - unfold ring in Hr. by rewrite drop_ge in Hr by lia.
Qed.

(** a switch turns the ring by one table *)
Lemma ring_switch f g ms m t mid u :
  m < length ms -> ring ms m = t :: mid ++ [u] ->
  let m' := (m + 1) mod length ms in
  ms !! m' = Some u /\ m' < length ms /\
  ring (alter g m (alter f m' ms)) m' = f u :: g t :: mid.
Proof.
  intros Hm Hr. destruct (split_table ms m Hm) as (a & t' & b & -> & ->).
  rewrite ring_mid in Hr. injection Hr as -> Hmid. cbn zeta. rewrite length_app.
  destruct b as [|u' b].
  - rewrite Nat.Div0.mod_same. rewrite reverse_nil, app_nil_r in Hmid.
    apply (f_equal reverse) in Hmid. rewrite reverse_involutive, reverse_snoc in Hmid.
    subst a. split; [done|]. split; [cbn; lia|].
    change (alter f 0 ((u :: reverse mid) ++ [t])) with ((f u :: reverse mid) ++ [t]).
    change (length (u :: reverse mid)) with (length (f u :: reverse mid)). rewrite alter_mid.
    change ((f u :: reverse mid) ++ [g t]) with ([] ++ f u :: (reverse mid ++ [g t])).
    change 0 with (length (@nil (MemTable Sk))). rewrite ring_mid.
    by rewrite reverse_app, reverse_nil, reverse_involutive.
  - rewrite Nat.mod_small by (cbn; lia).
    rewrite reverse_cons, app_assoc in Hmid. apply app_inj_tail in Hmid as [<- ->].
    change (a ++ t :: u :: b) with (a ++ [t] ++ u :: b). rewrite app_assoc.
    replace (length a + 1) with (length (a ++ [t])) by (rewrite length_app; done).
    rewrite alter_mid. split_and!.
    + by rewrite list_lookup_middle.
    + rewrite length_app. cbn. lia.
    + rewrite <- app_assoc. cbn. rewrite alter_mid.
      change (a ++ g t :: f u :: b) with (a ++ [g t] ++ f u :: b). rewrite app_assoc.
      replace (length (a ++ [t])) with (length (a ++ [g t])) by (by rewrite !length_app).
      rewrite ring_mid. by rewrite reverse_app.
Qed.

(** [clear] visits every table but the one that is written, once *)
Lemma ring_idx_steps m n :
  m < n -> NoDup (ring_idx m n <$> seq 1 (n - 1)) /\
  forall j, j ∈ ring_idx m n <$> seq 1 (n - 1) <-> j < n /\ j <> m.
Proof.
  intros Hm. split.
  - apply NoDup_fmap_2_strong; [|apply NoDup_seq].
    intros i i' [Hi Hi2]%elem_of_seq [Hi' Hi'2]%elem_of_seq.
    destruct (decide (i <= m)), (decide (i' <= m));
      rewrite ?(ring_idx_before m n i), ?(ring_idx_after m n i), ?(ring_idx_before m n i'),
        ?(ring_idx_after m n i') by lia; lia.
  - intros j. rewrite list_elem_of_fmap. setoid_rewrite elem_of_seq. split.
    + intros (i & -> & Hi). destruct (decide (i <= m));
        [rewrite ring_idx_before by lia|rewrite ring_idx_after by lia]; lia.
    + intros [Hj Hne]. destruct (decide (j < m)).
      * exists (m - j). rewrite ring_idx_before by lia. lia.
      * exists (m + n - j). rewrite ring_idx_after by lia. lia.
Qed.

Lemma clear_loop_lookup e m n steps ms :
  n = length ms -> m < n -> NoDup (ring_idx m n <$> steps) ->
  exists ms', clear_loop e m n steps ms = (ms', true) /\ length ms' = length ms /\
    forall j, ms' !! j = if decide (j ∈ ring_idx m n <$> steps) then clear_table e <$> ms !! j
                         else ms !! j.
Proof.
  revert ms. induction steps as [|i steps IH]; intros ms Hn Hm Hnd; cbn [clear_loop].
  { exists ms. split_and!; [done..|]. intros j. by rewrite decide_False by (apply not_elem_of_nil). }
  rewrite fmap_cons in Hnd. apply NoDup_cons in Hnd as [Hni Hnd].
  pose proof (ring_idx_lt m n i Hm) as Hlt.
  destruct (ring_idx m n i <? length ms) eqn:Hb; [|apply Nat.ltb_ge in Hb; lia].
  destruct (IH (alter (clear_table e) (ring_idx m n i) ms)) as (ms' & -> & Hl & Hlk);
    [by rewrite length_alter|done..|]. rewrite length_alter in Hl.
  exists ms'. split_and!; [done..|]. intros j. rewrite Hlk, fmap_cons.
  destruct (decide (j = ring_idx m n i)) as [->|Hne].
  - rewrite decide_False, decide_True by (done || by left). by rewrite list_lookup_alter_eq.
  - rewrite list_lookup_alter_ne by done.
    destruct (decide (j ∈ ring_idx m n <$> steps)).
    + by rewrite decide_True by (by right).
    + rewrite decide_False; [done|]. rewrite elem_of_cons. tauto.
Qed.

Lemma ring_clear e ms m t rest :
  m < length ms -> ring ms m = t :: rest ->
  exists ms', clear_loop e m (length ms) (seq 1 (length ms - 1)) ms = (ms', true) /\
    length ms' = length ms /\ ring ms' m = t :: (clear_table e <$> rest).
Proof.
  intros Hm Hr. destruct (ring_idx_steps m (length ms) Hm) as [Hnd Hin].
  destruct (clear_loop_lookup e m _ _ ms eq_refl Hm Hnd) as (ms' & Hc & Hl & Hlk).
  exists ms'. split_and!; [done..|]. destruct (split_table ms m Hm) as (a & t' & b & -> & ->).
  rewrite ring_mid in Hr. injection Hr as -> <-.
  replace ms' with ((clear_table e <$> a) ++ t :: (clear_table e <$> b)).
  { rewrite <- (length_fmap (clear_table e) a), ring_mid.
    by rewrite fmap_app, !fmap_reverse. }
  apply list_eq. intros j. rewrite Hlk. destruct (decide (_ ∈ _)) as [[Hj Hne]%Hin|Hj].
  - destruct (decide (j < length a)).
    + rewrite !lookup_app_l by (rewrite ?length_fmap; lia). by rewrite list_lookup_fmap.
    + rewrite !lookup_app_r by (rewrite ?length_fmap; lia). rewrite length_fmap.
      rewrite !lookup_cons_ne_0 by lia. by rewrite list_lookup_fmap.
  - rewrite Hin in Hj. destruct (decide (j = length a)) as [->|].
    + rewrite list_lookup_middle by (by rewrite length_fmap). by rewrite list_lookup_middle.
    + assert (Hge : length (a ++ t :: b) <= j) by lia. rewrite !lookup_ge_None_2; try done.
      rewrite length_app in *. cbn in *. rewrite !length_fmap. lia.
Qed.

(** the loop of [get] on the ring *)
Fixpoint scan (k : Bytes) (asked : option N) (epoch_internal : N) (ts : list (MemTable Sk))
    : option Bytes * N :=
  match ts with
  | [] => (None, default 0%N asked)
  | mt :: ts' =>
      if bool_decide (status mt = FLUSHED) then (None, default 0%N asked)
      else if (oldest_epoch mt <=? epoch_internal)%N then
        match sk_lower_bound (mkMemTableEntry k [] epoch_internal false) (entries mt) with
        | Some e =>
            if bool_decide (key e = k) then
              (if deleted e then (None, default 0%N asked) else (Some (val e), epoch e))
            else scan k asked epoch_internal ts'
        | None => scan k asked epoch_internal ts'
        end
      else scan k asked epoch_internal ts'
  end.

Lemma get_loop_scan (db : DB) k asked ei steps ts :
  ((fun i => memtables db !! ring_idx (mut_memtable_idx db) (num_write_buffers (cache_options db)) i)
     <$> steps) = Some <$> ts ->
  get_loop db k asked ei steps = Ok (scan k asked ei ts).
Proof.
  revert ts. induction steps as [|i steps IH]; intros [|mt ts]; try done.
  cbn [get_loop scan]. intros Hs. rewrite !fmap_cons in Hs. injection Hs as Hi Hs. rewrite Hi.
  rewrite (IH ts Hs). by repeat case_match.
Qed.

Lemma get_scan (db : DB) k asked :
  length (memtables db) = num_write_buffers (cache_options db) ->
  mut_memtable_idx db < num_write_buffers (cache_options db) ->
  get k asked db =
    Ok (scan k asked (match asked with Some e => N.min e (latest_epoch db) | None => latest_epoch db end)
          (ring (memtables db) (mut_memtable_idx db))).
Proof.
  intros Hn Hm. unfold get. rewrite (proj2 (Nat.ltb_lt _ _) Hm). cbn [negb].
  apply get_loop_scan. apply list_eq. intros i. rewrite !list_lookup_fmap.
  destruct (decide (i < num_write_buffers (cache_options db))).
  - rewrite lookup_seq_lt by done. cbn. rewrite ring_lookup by lia. rewrite Hn.
    assert (ring_idx (mut_memtable_idx db) (num_write_buffers (cache_options db)) i <
      length (memtables db)) as [mt ->]%lookup_lt_is_Some; [|done].
    rewrite Hn. by apply ring_idx_lt.
  - rewrite lookup_seq_ge by lia. rewrite lookup_ge_None_2; [done|].
    rewrite ring_length by lia. lia.
Qed.

(** ** Histories *)

Inductive Op :=
| Upsert (k v : Bytes) (ep : N)
| Delete (k : Bytes) (ep : N).

Definition run_op (op : Op) : M DB Error unit :=
  match op with
  | Upsert k v ep => upsert k v ep
  | Delete k ep => delete k ep
  end.

Definition entry_of (op : Op) : MemTableEntry :=
  match op with
  | Upsert k v ep => mkMemTableEntry k v ep false
  | Delete k ep => mkMemTableEntry k [] ep true
  end.

(** A database with the writes it has accepted and the greatest epoch up to
    which it was cleared. The epochs of the writer do not decrease. *)
Inductive step : DB * list MemTableEntry * N -> DB * list MemTableEntry * N -> Prop :=
| step_write op db db' ws c :
    (latest_epoch db <= epoch (entry_of op))%N -> run_op op db = (db', Ok tt) ->
    step (db, ws, c) (db', entry_of op :: ws, c)
| step_rejected op e db db' ws c :
    run_op op db = (db', Err e) -> step (db, ws, c) (db', ws, c)
| step_clear e db db' ws c :
    clear e db = (db', Ok tt) -> step (db, ws, c) (db', ws, N.max c e)
| step_register db ws c : step (db, ws, c) (register_gc_callback db, ws, c).

Definition reachable (db : DB) (ws : list MemTableEntry) (c : N) : Prop :=
  exists options db0, new options = Some db0 /\ rtc step (db0, [], 0%N) (db, ws, c).

(** ** The invariant *)

Definition total_size (es : list MemTableEntry) : N := foldr (fun e n => entry_size e + n)%N 0%N es.

Definition db_ring (db : DB) : list (MemTable Sk) := ring (memtables db) (mut_memtable_idx db).

(** a table with entries, or the one that is written *)
Record table_ok (limit : N) (t : MemTable Sk) : Prop := {
  ok_epochs : (oldest_epoch t <= mt_latest_epoch t)%N;
  ok_entries e : e ∈ sk_elems (entries t) ->
    (oldest_epoch t <= epoch e)%N /\ (epoch e <= mt_latest_epoch t)%N;
  ok_size : size_in_bytes t = total_size (sk_elems (entries t));
  ok_limit : (size_in_bytes t <= limit)%N \/ length (sk_elems (entries t)) = 1
}.

Definition empty_table (t : MemTable Sk) : Prop :=
  status t = FLUSHED /\ size_in_bytes t = 0%N /\ sk_elems (entries t) = [].

(** the ring: the table that is written, the sealed ones from the newest to the
    oldest, and the free ones *)
Record layout (db : DB) (t : MemTable Sk) (imm fl : list (MemTable Sk)) : Prop := {
  lay_ring : db_ring db = t :: imm ++ fl;
  lay_mutable : status t = MUTABLE;
  lay_immutable : Forall (fun x => status x = IMMUTABLE) imm;
  lay_flushed : Forall empty_table fl;
  lay_ok : Forall (table_ok (write_buffer_size (cache_options db))) (t :: imm);
  lay_order : StronglySorted (fun x y => (mt_latest_epoch y <= oldest_epoch x)%N) (t :: imm);
  lay_latest : Forall (fun x => (mt_latest_epoch x <= latest_epoch db)%N) (t :: imm ++ fl)
}.

(** the writes that the tables have kept, and those that were cleared *)
Record history (live : list (MemTable Sk)) (latest : N) (ws : list MemTableEntry) (c : N) : Prop := {
  hist_kept x e : x ∈ live -> e ∈ sk_elems (entries x) -> e ∈ ws;
  hist_known e : e ∈ ws -> (epoch e <= latest)%N /\
    ((exists x, x ∈ live /\ e ∈ sk_elems (entries x)) \/
     ((epoch e <= c)%N /\ forall x, x ∈ live -> (epoch e <= oldest_epoch x)%N))
}.

Record inv (db : DB) (ws : list MemTableEntry) (c : N) : Prop := {
  inv_length : length (memtables db) = num_write_buffers (cache_options db);
  inv_idx : mut_memtable_idx db < num_write_buffers (cache_options db);
  inv_layout : exists t imm fl, layout db t imm fl /\ history (t :: imm) (latest_epoch db) ws c
}.

Arguments entry_size : simpl never.

Lemma total_size_perm es es' : es ≡ₚ es' -> total_size es = total_size es'.
Proof. unfold total_size. induction 1; cbn [foldr]; lia. Qed.

Definition add_entry (e : MemTableEntry) (t : MemTable Sk) : MemTable Sk :=
  mkMemTable (id t) (size_in_bytes t + entry_size e) (status t)
    (N.max (mt_latest_epoch t) (epoch e)) (oldest_epoch t) (sk_insert e (entries t)).

Lemma add_entry_elems e t x :
  x ∈ sk_elems (entries (add_entry e t)) <-> x = e \/ x ∈ sk_elems (entries t).
Proof. cbn. rewrite sk_insert_elems. apply elem_of_cons. Qed.

Lemma add_entry_ok limit e t :
  table_ok limit t -> (mt_latest_epoch t <= epoch e)%N ->
  (size_in_bytes t + entry_size e <= limit)%N -> table_ok limit (add_entry e t).
Proof.
  intros [He Hes Hs _] Hl Hf. split.
  - cbn. lia.
  - intros x [->|Hx]%add_entry_elems; cbn; [lia|]. destruct (Hes x Hx). lia.
  - cbn [size_in_bytes add_entry entries]. rewrite (total_size_perm _ _ (sk_insert_elems _ _)).
    change (total_size (e :: ?es)) with (entry_size e + total_size es)%N. rewrite Hs. lia.
  - by left.
Qed.

(** the first entry of a table that was free *)
Lemma first_entry_ok limit e t :
  empty_table t -> (mt_latest_epoch t <= epoch e)%N ->
  table_ok limit (add_entry e (set_oldest (epoch e) (set_status MUTABLE t))).
Proof.
  intros (_ & Hsz & Hes) Hl.
  assert (Hx : sk_elems (sk_insert e (entries t)) ≡ₚ [e]) by (by rewrite sk_insert_elems, Hes).
  split; cbn.
  - lia.
  - intros x. rewrite Hx, list_elem_of_singleton. intros ->. lia.
  - rewrite (total_size_perm _ _ Hx), Hsz. change (total_size [e]) with (entry_size e + 0)%N. lia.
  - right. by rewrite (Permutation_length Hx).
Qed.

Lemma history_write live latest ws c e t t' :
  history (t :: live) latest ws c -> (latest <= epoch e)%N ->
  (forall x, x ∈ sk_elems (entries t') <-> x = e \/ x ∈ sk_elems (entries t)) ->
  oldest_epoch t' = oldest_epoch t ->
  history (t' :: live) (epoch e) (e :: ws) c.
Proof.
  intros [Hk Hw] Hl He Ho. split.
  - intros x y Hx Hy. apply elem_of_cons in Hx as [->|Hx].
    + apply He in Hy as [->|Hy]; [by left|right]. by apply (Hk t); [left|].
    + right. by apply (Hk x); [right|].
  - intros y [->|Hy]%elem_of_cons.
    + split; [done|]. left. exists t'. split; [by left|]. apply He. by left.
    + destruct (Hw y Hy) as [Hyl Hd]. split; [lia|].
      destruct Hd as [(x & Hx & Hyx)|[Hyc Hyo]].
      * left. apply elem_of_cons in Hx as [->|Hx].
        { exists t'. split; [by left|]. apply He. by right. }
        { exists x. split; [by right|done]. }
      * right. split; [done|]. intros x [->|Hx]%elem_of_cons; [rewrite Ho; apply Hyo; by left|].
        apply Hyo. by right.
Qed.

Lemma history_switch live latest ws c t t' u ep :
  history (t :: live) latest ws c -> (latest <= ep)%N ->
  sk_elems (entries u) = [] -> oldest_epoch u = ep ->
  entries t' = entries t -> oldest_epoch t' = oldest_epoch t ->
  history (u :: t' :: live) latest ws c.
Proof.
  intros [Hk Hw] Hl Hu Ho He Hot. split.
  - intros x y [->|[->|Hx]%elem_of_cons]%elem_of_cons Hy.
    + rewrite Hu in Hy. by apply elem_of_nil in Hy.
    + rewrite He in Hy. by apply (Hk t); [left|].
    + by apply (Hk x); [right|].
  - intros y Hy. destruct (Hw y Hy) as [Hyl Hd]. split; [done|].
    destruct Hd as [(x & [->|Hx]%elem_of_cons & Hyx)|[Hyc Hyo]].
    + left. exists t'. rewrite He. split; [right; by left|done].
    + left. exists x. split; [by do 2 right|done].
    + right. split; [done|]. intros x [->|[->|Hx]%elem_of_cons]%elem_of_cons.
      * lia.
      * rewrite Hot. apply Hyo. by left.
      * apply Hyo. by right.
Qed.

(** the layout after a write to the table that is written *)
Lemma layout_insert db t imm fl e :
  layout db t imm fl -> (latest_epoch db <= epoch e)%N ->
  table_ok (write_buffer_size (cache_options db)) (add_entry e t) ->
  layout (insert_entry e db) (add_entry e t) imm fl.
Proof.
  intros [Hr Hm Hi Hf Hok Hord Hl] Hle Hok'. apply Forall_cons in Hok as [_ Hok].
  apply StronglySorted_inv in Hord as [Hs Hord]. apply Forall_cons in Hl as [Ht Hl]. split.
  - unfold db_ring in *. cbn. by apply (ring_insert (add_entry e)).
  - done.
  - done.
  - done.
  - by apply Forall_cons.
  - by constructor.
  - cbn. constructor; [cbn; lia|]. apply (Forall_impl _ _ _ Hl). cbn. lia.
Qed.

(** the layout after a switch, but for the first entry of the new table *)
Lemma switch_ring db t imm fl u ep :
  length (memtables db) = num_write_buffers (cache_options db) ->
  mut_memtable_idx db < num_write_buffers (cache_options db) ->
  db_ring db = t :: imm ++ fl ++ [u] ->
  let new_id := (mut_memtable_idx db + 1) mod num_write_buffers (cache_options db) in
  memtables db !! new_id = Some u /\ new_id < num_write_buffers (cache_options db) /\
  db_ring (switch new_id ep db) =
    set_oldest ep (set_status MUTABLE u) :: set_status IMMUTABLE t :: imm ++ fl.
Proof.
  intros Hn Hm Hr new_id. unfold db_ring in Hr. rewrite app_assoc in Hr.
  destruct (ring_switch (set_status MUTABLE) (set_status IMMUTABLE) (memtables db)
    (mut_memtable_idx db) t (imm ++ fl) u) as (Hu & Hlt & Hs); [by rewrite Hn|done|].
  rewrite Hn in Hu, Hlt, Hs. split_and!; [done..|]. unfold db_ring, switch. cbn [memtables mut_memtable_idx].
  by apply (ring_insert (set_oldest ep)).
Qed.

Lemma layout_switch db t imm fl u e :
  length (memtables db) = num_write_buffers (cache_options db) ->
  mut_memtable_idx db < num_write_buffers (cache_options db) ->
  layout db t imm (fl ++ [u]) -> (latest_epoch db <= epoch e)%N ->
  let new_id := (mut_memtable_idx db + 1) mod num_write_buffers (cache_options db) in
  layout (insert_entry e (switch new_id (epoch e) db))
    (add_entry e (set_oldest (epoch e) (set_status MUTABLE u))) (set_status IMMUTABLE t :: imm) fl.
Proof.
  intros Hn Hm [Hr Hmu Hi Hf Hok Hord Hl] Hle new_id.
  destruct (switch_ring db t imm fl u (epoch e) Hn Hm Hr) as (Hu & Hlt & Hs). fold new_id in Hs.
  apply Forall_app in Hf as [Hf [Hue _]%Forall_cons].
  rewrite app_assoc in Hl.
  apply Forall_cons in Hl as [Ht [Hl [Hul _]%Forall_cons]%Forall_app].
  assert (Hlast : forall x, x ∈ t :: imm -> (mt_latest_epoch x <= epoch e)%N).
  { intros x [->|Hx]%elem_of_cons; [lia|]. rewrite Forall_forall in Hl.
    specialize (Hl x). rewrite elem_of_app in Hl. specialize (Hl (or_introl Hx)). lia. }
  split.
  - unfold db_ring in *. cbn. by apply (ring_insert (add_entry e)).
  - done.
  - by constructor.
  - done.
  - constructor; [apply first_entry_ok; [done|lia]|].
    apply Forall_cons in Hok as [[H1 H2 H3 H4] Hok]. by constructor.
  - apply StronglySorted_inv in Hord as [Hs' Hord]. constructor; [by constructor|].
    apply Forall_forall. intros x [->|Hx]%elem_of_cons; cbn.
    + apply (Hlast t). by left.
    + apply (Hlast x). by right.
  - cbn. constructor; [cbn; lia|]. constructor; [cbn; lia|].
    apply (Forall_impl _ _ _ Hl). cbn. lia.
Qed.

(** ** Writes *)

Lemma ring_head (db : DB) t rest :
  db_ring db = t :: rest -> memtables db !! mut_memtable_idx db = Some t.
Proof.
  unfold db_ring. intros Hr. destruct (decide (mut_memtable_idx db < length (memtables db))) as [Hm|Hm].
  - destruct (split_table _ _ Hm) as (a & t' & b & Hs & Hi). rewrite Hs, Hi in Hr |- *.
    rewrite ring_mid in Hr. injection Hr as -> _. by rewrite list_lookup_middle.
  - unfold ring in Hr. by rewrite drop_ge in Hr by lia.
Qed.

Lemma ring_last ms m :
  m < length ms -> ms !! ((m + 1) mod length ms) = last (ring ms m).
Proof.
  intros Hm. rewrite last_lookup, ring_length by done. rewrite ring_lookup by lia.
  unfold ring_idx. f_equal. f_equal. lia.
Qed.

(** a write ends in one of three ways *)
Lemma write_cases db op t imm fl :
  length (memtables db) = num_write_buffers (cache_options db) ->
  mut_memtable_idx db < num_write_buffers (cache_options db) ->
  layout db t imm fl ->
  let fits := (size_in_bytes t + entry_size (entry_of op) <= write_buffer_size (cache_options db))%N in
  let new_id := (mut_memtable_idx db + 1) mod num_write_buffers (cache_options db) in
  (fits /\ run_op op db = (insert_entry (entry_of op) db, Ok tt)) \/
  (~ fits /\ fl = [] /\ run_op op db = (db, Err CacheIsFull)) \/
  (~ fits /\ exists fl' u, fl = fl' ++ [u] /\
     run_op op db = (insert_entry (entry_of op) (switch new_id (epoch (entry_of op)) db), Ok tt)).
Proof.
  intros Hn Hm [Hr Hmu Hi Hf _ _ _] fits new_id.
  assert (Hrun : run_op op db =
    if (write_buffer_size (cache_options db) <? size_in_bytes t + entry_size (entry_of op))%N then
      match memtables db !! new_id with
      | None => (db, Panic)
      | Some mt' =>
          if bool_decide (status mt' = FLUSHED)
          then (insert_entry (entry_of op) (switch new_id (epoch (entry_of op)) db), Ok tt)
          else (db, Err CacheIsFull)
      end
    else (insert_entry (entry_of op) db, Ok tt)).
  { assert (Hb : negb (mut_memtable_idx db <? num_write_buffers (cache_options db)) = false)
      by (rewrite (proj2 (Nat.ltb_lt _ _) Hm); done).
    destruct op; cbn [run_op entry_of]; unfold upsert, delete, upsert_or_delete;
      rewrite Hb, (ring_head _ _ _ Hr), Hmu; done. }
  rewrite Hrun. destruct (N.ltb_spec (write_buffer_size (cache_options db))
    (size_in_bytes t + entry_size (entry_of op))) as [Hlt|Hge]; [right|by left].
  assert (Hnf : ~ fits) by (unfold fits; lia).
  unfold new_id. rewrite <- Hn, ring_last by lia. unfold db_ring in Hr. rewrite Hr.
  destruct fl as [|u fl _] using rev_ind.
  - left. rewrite app_nil_r. destruct imm as [|x imm _] using rev_ind.
    + cbn. rewrite Hmu. by split_and!.
    + change (t :: imm ++ [x]) with ((t :: imm) ++ [x]). rewrite last_snoc.
      apply Forall_app in Hi as [_ [-> _]%Forall_cons]. by split_and!.
  - right. split; [done|]. exists fl, u. split; [done|].
    change (t :: imm ++ fl ++ [u]) with ((t :: imm) ++ fl ++ [u]). rewrite app_assoc, last_snoc.
    apply Forall_app in Hf as [_ [(-> & _) _]%Forall_cons]. by rewrite Hn.
Qed.

Lemma inv_write db op db' ws c :
  inv db ws c -> (latest_epoch db <= epoch (entry_of op))%N -> run_op op db = (db', Ok tt) ->
  inv db' (entry_of op :: ws) c.
Proof.
  intros [Hn Hm (t & imm & fl & Hlay & Hh)] Hle Hrun.
  destruct (write_cases db op t imm fl Hn Hm Hlay) as [[Hfit E]|[(Hno & Hfl & E)|(Hno & fl' & u & -> & E)]];
    rewrite E in Hrun; injection Hrun as <-; try done.
  - split; [by cbn; rewrite length_alter|done|]. exists (add_entry (entry_of op) t), imm, fl. split.
    + apply layout_insert; [done..|]. destruct Hlay as [_ _ _ _ Hok _ Hl].
      apply Forall_cons in Hok as [Hok _]. apply Forall_cons in Hl as [Hl _].
      apply add_entry_ok; [done|lia|done].
    + eapply history_write; [done..|apply add_entry_elems|done].
  - destruct (switch_ring db t imm fl' u (epoch (entry_of op)) Hn Hm) as (_ & Hlt & _);
      [apply Hlay|].
    split; [by cbn; rewrite !length_alter|done|].
    eexists _, _, fl'. split; [by apply layout_switch|].
    eapply history_write; [|done|apply add_entry_elems|done].
    apply history_switch with t (epoch (entry_of op)); [done..| |done|done|done].
    destruct Hlay as [_ _ _ Hf _ _ _]. apply Forall_app in Hf as [_ [(_ & _ & Hes) _]%Forall_cons].
    exact Hes.
Qed.

(** ** Clearing *)

Lemma clear_table_latest e t : mt_latest_epoch (clear_table e t) = mt_latest_epoch t.
Proof. unfold clear_table. by case_match. Qed.

(** a cleared table has only cleared tables behind it *)
Lemma clear_split limit e imm :
  Forall (table_ok limit) imm ->
  StronglySorted (fun x y => (mt_latest_epoch y <= oldest_epoch x)%N) imm ->
  Forall (fun x => status x = IMMUTABLE) imm ->
  exists kept dropped, imm = kept ++ dropped /\ clear_table e <$> kept = kept /\
    Forall empty_table (clear_table e <$> dropped) /\
    Forall (fun x => (mt_latest_epoch x <= e)%N) dropped.
Proof.
  intros Hok. induction 1 as [|x imm Hs IH Hx]; intros Hi.
  { by exists [], []. }
  apply Forall_cons in Hok as [Hokx Hok]. apply Forall_cons in Hi as [Hix Hi].
  destruct (N.leb_spec (mt_latest_epoch x) e) as [Hle|Hgt].
  - assert (Hall : Forall (fun y => (mt_latest_epoch y <= e)%N /\ status y = IMMUTABLE) (x :: imm)).
    { constructor; [done|]. apply Forall_and. split; [|done].
      apply (Forall_impl _ _ _ Hx). intros y Hy. pose proof (ok_epochs _ _ Hokx). cbn in *. lia. }
    exists [], (x :: imm). split_and!; [done..| |].
    + apply Forall_fmap, (Forall_impl _ _ _ Hall). intros y [Hy Hyi]. unfold compose, clear_table.
      rewrite bool_decide_true, (proj2 (N.leb_le _ _) Hy) by done. cbn.
      by split_and!; [| |apply sk_new_elems].
    + apply (Forall_impl _ _ _ Hall). by intros y [].
  - destruct (IH Hok Hi) as (kept & dropped & -> & Hk & Hd & Hl).
    exists (x :: kept), dropped. split_and!; [done| |done..].
    rewrite fmap_cons, Hk. f_equal. unfold clear_table.
    rewrite (proj2 (N.leb_gt _ _) Hgt), andb_false_r. done.
Qed.

Lemma history_clear live dropped latest ws c e limit :
  Forall (table_ok limit) (live ++ dropped) ->
  StronglySorted (fun x y => (mt_latest_epoch y <= oldest_epoch x)%N) (live ++ dropped) ->
  Forall (fun x => (mt_latest_epoch x <= e)%N) dropped ->
  history (live ++ dropped) latest ws c -> history live latest ws (N.max c e).
Proof.
  intros Hok Hs Hd [Hk Hw]. split.
  - intros x y Hx. apply Hk. apply elem_of_app. by left.
  - intros y Hy. destruct (Hw y Hy) as [Hyl Hc]. split; [done|].
    destruct Hc as [(x & [Hx|Hx]%elem_of_app & Hyx)|[Hyc Hyo]]; [left; eauto|right|right].
    + rewrite Forall_forall in Hok, Hd.
      destruct (ok_entries _ _ (Hok x ltac:(apply elem_of_app; by right)) y Hyx) as [_ Hyle].
      split; [specialize (Hd x Hx); cbn in Hd; lia|]. intros z Hz.
      pose proof (StronglySorted_app_1_elem_of _ _ _ _ _ Hs Hz Hx) as Hzx. cbn in Hzx. lia.
    + split; [lia|]. intros x Hx. apply Hyo, elem_of_app. by left.
Qed.

Lemma clear_spec db t imm fl e :
  length (memtables db) = num_write_buffers (cache_options db) ->
  mut_memtable_idx db < num_write_buffers (cache_options db) ->
  layout db t imm fl ->
  exists ms, clear e db = (set_memtables ms db, Ok tt) /\ length ms = length (memtables db) /\
    exists kept dropped, imm = kept ++ dropped /\
      Forall (fun x => (mt_latest_epoch x <= e)%N) dropped /\
      layout (set_memtables ms db) t kept ((clear_table e <$> dropped) ++ fl).
Proof.
  intros Hn Hm [Hr Hmu Hi Hf Hok Hord Hl].
  destruct (ring_clear e (memtables db) (mut_memtable_idx db) t (imm ++ fl))
    as (ms & Hc & Hlen & Hring); [lia|done|].
  rewrite Hn in Hc. exists ms. unfold clear. rewrite (proj2 (Nat.ltb_lt _ _) Hm). cbn [negb]. rewrite Hc.
  split_and!; [done..|].
  apply StronglySorted_inv in Hord as [Hs Hord]. apply Forall_cons in Hok as [Hokt Hok].
  destruct (clear_split _ e imm Hok Hs Hi) as (kept & dropped & -> & Hk & Hd & Hle).
  exists kept, dropped. split_and!; [done..|].
  assert (Hfl : clear_table e <$> fl = fl).
  { rewrite <- (list_fmap_id fl) at 2. apply list_fmap_ext. intros j x Hx.
    apply list_elem_of_lookup_2 in Hx. rewrite Forall_forall in Hf. destruct (Hf x Hx) as [Hst _].
    unfold clear_table. by rewrite Hst. }
  apply Forall_app in Hi as [Hi _]. apply Forall_app in Hok as [Hok _].
  apply StronglySorted_app_1_l in Hs. apply Forall_app in Hord as [Hord _]. split.
  - unfold db_ring. cbn. rewrite Hring. f_equal. rewrite fmap_app, fmap_app, Hk, Hfl.
    by rewrite app_assoc.
  - done.
  - done.
  - by apply Forall_app.
  - by constructor.
  - by constructor.
  - cbn. apply Forall_cons in Hl as [Ht Hl]. constructor; [done|].
    rewrite <- app_assoc in Hl.
    apply Forall_app in Hl as [Hl1 [Hl2 Hl3]%Forall_app].
    apply Forall_app. split; [done|]. apply Forall_app. split; [|done].
    apply Forall_fmap, (Forall_impl _ _ _ Hl2). intros x. unfold compose.
    by rewrite clear_table_latest.
Qed.

Lemma memtable_inv_clear db e db' ws c :
  inv db ws c -> clear e db = (db', Ok tt) -> inv db' ws (N.max c e).
Proof.
  intros [Hn Hm (t & imm & fl & Hlay & Hh)] Hc.
  destruct (clear_spec db t imm fl e Hn Hm Hlay) as (ms & E & Hlen & kept & dropped & -> & Hd & Hl').
  rewrite E in Hc. injection Hc as <-. split; [by cbn; rewrite Hlen|done|].
  eexists _, _, _. split; [exact Hl'|].
  destruct Hlay as [_ _ _ _ Hok Hord _]. by eapply (history_clear (t :: kept) dropped).
Qed.

Lemma memtable_inv_new options db : new options = Some db -> inv db [] 0.
Proof.
  unfold new. destruct (num_write_buffers options) as [|n] eqn:En; [done|].
  cbn [seq]. rewrite fmap_cons. cbn. intros [= <-]. split; cbn.
  - rewrite length_fmap, length_seq. lia.
  - lia.
  - eexists _, [], _. split; [split|split].
    + unfold db_ring. cbn. unfold ring. cbn. reflexivity.
    + done.
    + done.
    + apply Forall_reverse, Forall_fmap, Forall_forall. intros i _. by split_and!; [| |apply sk_new_elems].
    + constructor; [|done]. split; cbn; rewrite ?sk_new_elems; try done; [|left; lia].
      by intros e ?%elem_of_nil.
    + by repeat constructor.
    + cbn. constructor; [cbn; lia|]. apply Forall_reverse, Forall_fmap, Forall_forall.
      intros i _. cbn. lia.
    + intros x e. cbn. intros ->%list_elem_of_singleton. cbn. rewrite sk_new_elems.
      by intros ?%elem_of_nil.
    + by intros e ?%elem_of_nil.
Qed.

Lemma memtable_inv_step db ws c db' ws' c' :
  step (db, ws, c) (db', ws', c') -> inv db ws c -> inv db' ws' c'.
Proof.
  inversion 1; subst; intros Hinv.
  - by eapply inv_write.
  - destruct Hinv as [Hn Hm (t & imm & fl & Hlay & Hh)].
    destruct (write_cases db op t imm fl Hn Hm Hlay) as [[_ E]|[(_ & _ & E)|(_ & fl' & u & _ & E)]];
      rewrite E in *; simplify_eq. split; eauto.
  - by eapply memtable_inv_clear.
  - destruct Hinv as [Hn Hm (t & imm & fl & [] & Hh)]. split; [done..|].
    exists t, imm, fl. split; [by split|done].
Qed.

Lemma memtable_inv_reachable db ws c : reachable db ws c -> inv db ws c.
Proof.
  intros (options & db0 & Hnew & Hsteps). apply memtable_inv_new in Hnew.
  remember (db0, [], 0%N) as s0 eqn:E0. remember (db, ws, c) as s eqn:E.
  revert db0 Hnew E0. cut (forall db0 ws0 c0, s0 = (db0, ws0, c0) -> inv db0 ws0 c0 -> inv db ws c).
  { intros Hcut db0 Hnew ->. by eapply Hcut. }
  induction Hsteps as [s|s1 [[db1 ws1] c1] s2 Hst _ IH]; intros db0 ws0 c0 Hs Hi; simplify_eq.
  - done.
  - eapply IH; [done..|]. by eapply memtable_inv_step.
Qed.

(** ** Reading *)

Lemma bytes_cmp_lt_gt (x y : Bytes) : bytes_cmp x y = Gt <-> bytes_cmp y x = Lt.
Proof. rewrite (bytes_cmp_antisym y x). by destruct (bytes_cmp y x). Qed.

Definition output (asked : option N) (e : MemTableEntry) : option Bytes * N :=
  if deleted e then (None, default 0%N asked) else (Some (val e), epoch e).

(** what the first entry not below the version [(k, ei)] says of the key *)
Lemma lower_bound_version k ei (sk : Sk) :
  match sk_lower_bound (mkMemTableEntry k [] ei false) sk with
  | Some e =>
      if bool_decide (key e = k) then
        e ∈ sk_elems sk /\ (epoch e <= ei)%N /\
        forall e', e' ∈ sk_elems sk -> key e' = k -> (epoch e' <= ei)%N -> (epoch e' <= epoch e)%N
      else forall e', e' ∈ sk_elems sk -> key e' = k -> (ei < epoch e')%N
  | None => forall e', e' ∈ sk_elems sk -> key e' = k -> (ei < epoch e')%N
  end.
Proof.
  set (x := mkMemTableEntry k [] ei false).
  assert (Hsame : forall e', key e' = k -> entry_cmp e' x = N.compare ei (epoch e')).
  { intros e' <-. unfold entry_cmp. cbn. by rewrite bytes_cmp_refl. }
  destruct (sk_lower_bound x sk) as [e|] eqn:E.
  - destruct (sk_lower_some _ _ _ E) as (Hin & Hge & Hmin). case_bool_decide as Hk.
    + rewrite Hsame, N.compare_ge_iff in Hge by done. split_and!; [done..|].
      intros e' Hin' Hk' Hle. specialize (Hmin e' Hin'). rewrite Hsame, N.compare_ge_iff in Hmin by done.
      specialize (Hmin Hle). unfold entry_cmp in Hmin. rewrite Hk, Hk', bytes_cmp_refl in Hmin.
      by apply N.compare_ge_iff.
    + intros e' Hin' Hk'. destruct (N.lt_ge_cases ei (epoch e')) as [|Hle]; [done|exfalso].
      specialize (Hmin e' Hin'). rewrite Hsame, N.compare_ge_iff in Hmin by done.
      apply (Hmin Hle). unfold entry_cmp. rewrite Hk'.
      assert (Hgt : bytes_cmp (key e) k = Gt).
      { unfold entry_cmp in Hge. cbn in Hge. destruct (bytes_cmp (key e) k) eqn:Ec; try done.
        by apply bytes_cmp_eq in Ec. }
      by rewrite (proj1 (bytes_cmp_lt_gt _ _) Hgt).
  - intros e' Hin' Hk'. pose proof (sk_lower_none _ _ E e' Hin') as Hlt.
    rewrite Hsame in Hlt by done. by apply N.compare_lt_iff.
Qed.

Lemma scan_live limit k asked ei live fl :
  Forall (table_ok limit) live -> Forall (fun x => status x <> FLUSHED) live ->
  StronglySorted (fun x y => (mt_latest_epoch y <= oldest_epoch x)%N) live ->
  Forall empty_table fl ->
  (exists x e, x ∈ live /\ e ∈ sk_elems (entries x) /\ key e = k /\ (epoch e <= ei)%N /\
     (forall y e', y ∈ live -> e' ∈ sk_elems (entries y) -> key e' = k -> (epoch e' <= ei)%N ->
        (epoch e' <= epoch e)%N) /\
     scan k asked ei (live ++ fl) = output asked e) \/
  (scan k asked ei (live ++ fl) = (None, default 0%N asked) /\
   forall x e, x ∈ live -> e ∈ sk_elems (entries x) -> key e = k -> (ei < epoch e)%N).
Proof.
  intros Hok Hnf Hs Hfl. induction live as [|x live IH].
  { right. split; [|by intros x e ?%elem_of_nil]. destruct fl as [|u fl]; [done|].
    apply Forall_cons in Hfl as [[Hu _] _]. cbn. by rewrite Hu. }
  apply Forall_cons in Hok as [Hokx Hok]. apply Forall_cons in Hnf as [Hnx Hnf].
  apply StronglySorted_inv in Hs as [Hs Hx]. rewrite Forall_forall in Hx.
  specialize (IH Hok Hnf Hs). cbn [scan app]. rewrite bool_decide_false by done.
  assert (Hnext : (forall e, e ∈ sk_elems (entries x) -> key e = k -> (ei < epoch e)%N) ->
    (exists x0 e, x0 ∈ x :: live /\ e ∈ sk_elems (entries x0) /\ key e = k /\ (epoch e <= ei)%N /\
       (forall y e', y ∈ x :: live -> e' ∈ sk_elems (entries y) -> key e' = k -> (epoch e' <= ei)%N ->
          (epoch e' <= epoch e)%N) /\ scan k asked ei (live ++ fl) = output asked e) \/
    (scan k asked ei (live ++ fl) = (None, default 0%N asked) /\
     forall x0 e, x0 ∈ x :: live -> e ∈ sk_elems (entries x0) -> key e = k -> (ei < epoch e)%N)).
  { intros Hnone. destruct IH as [(y & e & Hy & He & Hk & Hle & Hmax & Hsc)|[Hsc Hall]]; [left|right].
    - exists y, e. split_and!; [by right|done..| |done].
      intros z e' [->|Hz]%elem_of_cons He' Hk' Hle'; [|by eapply Hmax].
      specialize (Hnone e' He' Hk'). lia.
    - split; [done|]. intros z e' [->|Hz]%elem_of_cons; [apply Hnone|by apply Hall]. }
  destruct (N.leb_spec (oldest_epoch x) ei) as [Hold|Hold].
  - pose proof (lower_bound_version k ei (entries x)) as Hlb.
    destruct (sk_lower_bound _ (entries x)) as [e|]; [|by apply Hnext].
    case_bool_decide as Hk; [|by apply Hnext]. destruct Hlb as (He & Hle & Hmax). left.
    exists x, e. split_and!; [by left|done..| |done].
    intros y e' [->|Hy]%elem_of_cons He' Hk' Hle'; [by apply Hmax|].
    rewrite Forall_forall in Hok. destruct (ok_entries _ _ (Hok y Hy) e' He') as [_ H1].
    destruct (ok_entries _ _ Hokx e He) as [H2 _]. specialize (Hx y Hy). cbn in Hx. lia.
  - apply Hnext. intros e He _. destruct (ok_entries _ _ Hokx e He). lia.
Qed.

(** a version that a read at [asked] may return *)
Definition visible (k : Bytes) (asked : option N) (e : MemTableEntry) : Prop :=
  key e = k /\ match asked with Some a => (epoch e <= a)%N | None => True end.

Lemma layout_in_memtables db t imm fl i mt :
  layout db t imm fl -> memtables db !! i = Some mt ->
  (i = mut_memtable_idx db /\ mt = t) \/ (i <> mut_memtable_idx db /\ mt ∈ imm ++ fl).
Proof.
  intros Hlay Hi. pose proof (lay_ring _ _ _ _ Hlay) as Hr.
  pose proof (ring_head _ _ _ Hr) as Hh. destruct (decide (i = mut_memtable_idx db)) as [->|Hne].
  { left. by simplify_eq. }
  right. split; [done|]. apply lookup_lt_Some in Hh.
  destruct (split_table _ _ Hh) as (a & t' & b & Hs & Hm). unfold db_ring in Hr.
  rewrite Hs, Hm, ring_mid in Hr. injection Hr as -> <-. rewrite elem_of_app, !elem_of_reverse.
  rewrite Hs in Hi. destruct (decide (i < length a)) as [Hlt|Hge].
  - left. rewrite lookup_app_l in Hi by done. by eapply list_elem_of_lookup_2.
  - right. rewrite lookup_app_r, lookup_cons_ne_0 in Hi by lia. by eapply list_elem_of_lookup_2.
Qed.

(** ** Two tables *)

Lemma layout_other db t u i :
  layout db t [u] [] -> i <> mut_memtable_idx db -> i < length (memtables db) ->
  memtables db !! i = Some u.
Proof.
  intros Hlay Hne [mt Hmt]%lookup_lt_is_Some.
  destruct (layout_in_memtables _ _ _ _ _ _ Hlay Hmt) as [[? _]|[_ Hin]]; [done|].
  apply list_elem_of_singleton in Hin. by subst.
Qed.

Definition two_tables (db : DB) (t u : MemTable Sk) : Prop :=
  num_write_buffers (cache_options db) = 2 /\ length (memtables db) = 2 /\
  mut_memtable_idx db < 2 /\ layout db t [u] [].

(** a write that changes the table *)
Lemma two_switch db ws c op db' :
  inv db ws c -> num_write_buffers (cache_options db) = 2 -> gc_callback db = true ->
  (latest_epoch db <= epoch (entry_of op))%N ->
  run_op op db = (db', Ok tt) -> mut_memtable_idx db' <> mut_memtable_idx db ->
  exists t u, memtables db !! mut_memtable_idx db' = Some u /\
    gc_log db' = gc_log db ++ [mt_latest_epoch u] /\
    two_tables db' t (set_status IMMUTABLE (default u (memtables db !! mut_memtable_idx db))).
Proof.
  intros [Hn Hm (t & imm & fl & Hlay & Hh)] H2 Hgc Hle Hrun Hidx.
  destruct (write_cases db op t imm fl Hn Hm Hlay) as [[_ E]|[(_ & _ & E)|(_ & fl' & u & -> & E)]];
    rewrite E in Hrun; [by simplify_eq| |]; [by simplify_eq|].
  assert (Hdb : insert_entry (entry_of op) (switch ((mut_memtable_idx db + 1) mod
    num_write_buffers (cache_options db)) (epoch (entry_of op)) db) = db') by congruence.
  assert (imm = [] /\ fl' = []) as [-> ->].
  { pose proof (f_equal length (lay_ring _ _ _ _ Hlay)) as Hlen. unfold db_ring in Hlen.
    rewrite ring_length in Hlen by lia. cbn in Hlen. rewrite !length_app in Hlen. cbn in Hlen.
    destruct imm, fl'; cbn in Hlen; try done; lia. }
  pose proof (ring_head _ _ _ (lay_ring _ _ _ _ Hlay)) as Hhead.
  destruct (switch_ring db t [] [] u (epoch (entry_of op)) Hn Hm (lay_ring _ _ _ _ Hlay))
    as (Hu & Hlt & Hring).
  pose proof (layout_switch db t [] [] u (entry_of op) Hn Hm Hlay Hle) as Hlay'. cbn zeta in Hlay'.
  subst db'. eexists _, u. rewrite Hhead. split; [exact Hu|]. split; [|split; [|split; [|split; [|exact Hlay']]]].
  - apply ring_head in Hring. cbn in Hring |- *. by rewrite Hgc, Hring.
  - done.
  - cbn. by rewrite !length_alter, Hn.
  - cbn [mut_memtable_idx insert_entry switch]. by rewrite <- H2.
Qed.

(** a sealed table that is not cleared blocks the next switch *)
Lemma two_blocked db t u e :
  two_tables db t u -> (e < mt_latest_epoch u)%N ->
  exists db', clear e db = (db', Ok tt) /\ mut_memtable_idx db' = mut_memtable_idx db /\
    two_tables db' t u.
Proof.
  intros (H2 & Hn & Hm & Hlay) Hlt.
  destruct (clear_spec db t [u] [] e) as (ms & Hc & Hlen & kept & dropped & Hk & Hd & Hl);
    [lia|lia|done|].
  exists (set_memtables ms db). split; [done|]. split; [done|].
  split; [done|]. split; [cbn; lia|]. split; [done|].
  destruct dropped as [|x dropped].
  - rewrite app_nil_r in Hk. by subst kept.
  - apply Forall_cons in Hd as [Hx _]. destruct kept as [|y kept]; [injection Hk as -> _; cbv beta in Hx; lia|].
    by destruct kept.
Qed.

(** ** Properties *)

(** C15: a read returns the newest version. Whatever was written, with epochs
    that do not decrease, and cleared, a read never fails, and either it
    returns a write of the key with the greatest epoch up to the one asked for
    (nothing, if that write is a deletion), or it finds nothing, and then every
    such write is from an epoch that has been cleared. *)
Theorem get_newest_version db ws c k asked :
  reachable db ws c ->
  exists r, get k asked db = Ok r /\
    ((exists e, e ∈ ws /\ visible k asked e /\
        (forall e', e' ∈ ws -> visible k asked e' -> (epoch e' <= epoch e)%N) /\
        r = output asked e) \/
     (r = (None, default 0%N asked) /\
      forall e, e ∈ ws -> visible k asked e -> (epoch e <= c)%N)).
Proof.
  intros [Hn Hm (t & imm & fl & [Hr Hmu Hi Hf Hok Hord Hl] & [Hkept Hknown])]%memtable_inv_reachable.
  rewrite get_scan by done. eexists. split; [done|]. unfold db_ring in Hr. rewrite Hr.
  set (ei := match asked with Some e => N.min e (latest_epoch db) | None => latest_epoch db end).
  assert (Hei : forall e, e ∈ ws -> visible k asked e <-> key e = k /\ (epoch e <= ei)%N).
  { intros e He. destruct (Hknown e He) as [Hle _]. unfold visible, ei.
    destruct asked; split; intros []; split; try done; lia. }
  assert (Hnf : Forall (fun x => status x <> FLUSHED) (t :: imm)).
  { constructor; [by rewrite Hmu|]. apply (Forall_impl _ _ _ Hi). by intros x ->. }
  destruct (scan_live _ k asked ei (t :: imm) fl Hok Hnf Hord Hf)
    as [(x & e & Hx & He & Hk & Hle & Hmax & Hsc)|[Hsc Hall]]; [left|right].
  - exists e. assert (Hew : e ∈ ws) by (by eapply Hkept). split_and!; [done|by apply Hei| |done].
    intros e' He' [Hk' Hle']%Hei; [|done].
    destruct (Hknown e' He') as [_ [(y & Hy & Hey)|[_ Hold]]]; [by eapply Hmax|].
    rewrite Forall_forall in Hok. destruct (ok_entries _ _ (Hok x Hx) e He).
    specialize (Hold x Hx). lia.
  - split; [done|]. intros e He [Hk Hle]%Hei; [|done].
    destruct (Hknown e He) as [_ [(y & Hy & Hey)|[Hc _]]]; [|done].
    specialize (Hall y e Hy Hey Hk). lia.
Qed.

(** C32: the ring stays well formed. In every reachable database exactly the
    table with the current index is mutable, and no assertion or index of the
    code can fail: a write succeeds or reports that the cache is full, and
    [clear] and [get] always succeed. *)
Theorem memtables_well_formed db ws c :
  reachable db ws c ->
  length (memtables db) = num_write_buffers (cache_options db) /\
  (forall i mt, memtables db !! i = Some mt -> status mt = MUTABLE <-> i = mut_memtable_idx db) /\
  (forall op, (run_op op db).2 = Ok tt \/ run_op op db = (db, Err CacheIsFull)) /\
  (forall e, (clear e db).2 = Ok tt) /\
  (forall k asked, exists r, get k asked db = Ok r).
Proof.
  intros [Hn Hm (t & imm & fl & Hlay & _)]%memtable_inv_reachable. split_and!.
  - done.
  - intros i mt Hi. destruct (layout_in_memtables _ _ _ _ _ _ Hlay Hi) as [[-> ->]|[Hne Hin]].
    + split; [done|]. intros _. apply Hlay.
    + split; [|done]. intros Hst. exfalso. destruct Hlay as [_ _ Hi' Hf _ _ _].
      rewrite Forall_forall in Hi', Hf. apply elem_of_app in Hin as [Hin|Hin].
      * specialize (Hi' mt Hin). cbn in Hi'. congruence.
      * destruct (Hf mt Hin) as [Hst' _]. congruence.
  - intros op. destruct (write_cases db op t imm fl Hn Hm Hlay) as [[_ E]|[(_ & _ & E)|(_ & fl' & u & _ & E)]];
      rewrite E; auto.
  - intros e. destruct (clear_spec db t imm fl e Hn Hm Hlay) as (ms & -> & _). done.
  - intros k asked. rewrite get_scan by done. eauto.
Qed.

(** C36: the size of a table is what its entries take, and it exceeds the
    configured size only for a table that holds a single entry that is larger
    than that. *)
Theorem table_size_bounded db ws c mt :
  reachable db ws c -> mt ∈ memtables db ->
  size_in_bytes mt = total_size (sk_elems (entries mt)) /\
  ((size_in_bytes mt <= write_buffer_size (cache_options db))%N \/
   length (sk_elems (entries mt)) = 1).
Proof.
  intros [Hn Hm (t & imm & fl & Hlay & _)]%memtable_inv_reachable [i Hi]%list_elem_of_lookup_1.
  pose proof (lay_ok _ _ _ _ Hlay) as Hok. rewrite Forall_forall in Hok.
  pose proof (lay_flushed _ _ _ _ Hlay) as Hf. rewrite Forall_forall in Hf.
  destruct (layout_in_memtables _ _ _ _ _ _ Hlay Hi) as [[-> ->]|[_ [Hin|Hin]%elem_of_app]].
  - by destruct (Hok t ltac:(by left)).
  - by destruct (Hok mt ltac:(by right)).
  - destruct (Hf mt Hin) as (_ & -> & ->). cbn. split; [done|left; lia].
Qed.

(** The callback is told the wrong epoch. When a write seals a table, the
    callback gets the last epoch of the table that is written next, from its
    previous use, and not that of the table that was sealed. With two tables, a
    client that clears what it was told, less than the last epoch sealed, frees
    nothing, and the next write that does not fit fails. *)
Theorem gc_epoch_is_stale db ws c op db' :
  reachable db ws c -> num_write_buffers (cache_options db) = 2 -> gc_callback db = true ->
  (latest_epoch db <= epoch (entry_of op))%N ->
  run_op op db = (db', Ok tt) -> mut_memtable_idx db' <> mut_memtable_idx db ->
  exists next sealed, memtables db !! mut_memtable_idx db' = Some next /\
    memtables db' !! mut_memtable_idx db = Some sealed /\ status sealed = IMMUTABLE /\
    gc_log db' = gc_log db ++ [mt_latest_epoch next] /\
    ((mt_latest_epoch next < mt_latest_epoch sealed)%N ->
     exists db'', clear (mt_latest_epoch next) db' = (db'', Ok tt) /\
       memtables db'' !! mut_memtable_idx db = Some sealed /\
       forall op' mt, memtables db'' !! mut_memtable_idx db'' = Some mt ->
         (write_buffer_size (cache_options db'') < size_in_bytes mt + entry_size (entry_of op'))%N ->
         run_op op' db'' = (db'', Err CacheIsFull)).
Proof.
  intros Hinv%memtable_inv_reachable H2 Hgc Hle Hrun Hidx.
  destruct (two_switch db ws c op db' Hinv H2 Hgc Hle Hrun Hidx) as (t & u & Hu & Hlog & Htwo).
  set (sealed := set_status IMMUTABLE _) in Htwo.
  assert (Hother : forall db0, two_tables db0 t sealed -> mut_memtable_idx db0 = mut_memtable_idx db' ->
    memtables db0 !! mut_memtable_idx db = Some sealed).
  { intros db0 (_ & Hn0 & _ & Hl0) Hi0. apply (layout_other db0 t); [done|congruence|].
    destruct Hinv as [Hn Hm _]. lia. }
  exists u, sealed. split_and!; [done|by apply Hother|done..|]. intros Hlt.
  destruct (two_blocked db' t sealed _ Htwo Hlt) as (db'' & Hc & Hi & Htwo'').
  exists db''. split_and!; [done|by apply Hother|]. intros op' mt Hmt Hno.
  destruct Htwo'' as (H2' & Hn' & Hm' & Hl').
  destruct (write_cases db'' op' t [sealed] []) as [[Hfit _]|[(_ & _ & E)|(_ & fl & x & Hnil & _)]];
    [lia|lia|done| |done|by destruct fl].
  pose proof (ring_head _ _ _ (lay_ring _ _ _ _ Hl')) as Hh. simplify_eq. lia.
Qed.
End Operations.

(** ** Witnesses: a skip list as a list in order *)

Fixpoint insert_sorted (e : MemTableEntry) (l : list MemTableEntry) : list MemTableEntry :=
  match l with
  | [] => [e]
  | x :: l' => match entry_cmp e x with Gt => x :: insert_sorted e l' | _ => e :: l end
  end.

Definition least (x e : MemTableEntry) (best : option MemTableEntry) : option MemTableEntry :=
  match entry_cmp e x with
  | Lt => best
  | _ => match best with
         | Some b => match entry_cmp b e with Lt => Some b | _ => Some e end
         | None => Some e
         end
  end.

Lemma insert_sorted_perm e l : insert_sorted e l ≡ₚ e :: l.
Proof.
  induction l as [|x l IH]; [done|]. cbn. destruct (entry_cmp e x); [done..|].
  rewrite IH. apply Permutation_swap.
Qed.

Lemma entry_cmp_antisym a b : entry_cmp b a = CompOpp (entry_cmp a b).
Proof.
  unfold entry_cmp. rewrite (bytes_cmp_antisym (key a) (key b)).
  destruct (bytes_cmp (key a) (key b)); cbn; [|done..]. apply N.compare_antisym.
Qed.

Lemma entry_cmp_lt_trans a b c : entry_cmp a b = Lt -> entry_cmp b c = Lt -> entry_cmp a c = Lt.
Proof.
  unfold entry_cmp. destruct (bytes_cmp (key a) (key b)) eqn:E1; intros H1; try done.
  - apply bytes_cmp_eq in E1. rewrite E1. destruct (bytes_cmp (key b) (key c)); intros H2; try done.
    rewrite N.compare_lt_iff in *. lia.
  - destruct (bytes_cmp (key b) (key c)) eqn:E2; intros H2; try done.
    + apply bytes_cmp_eq in E2. by rewrite <- E2, E1.
    + by rewrite (bytes_cmp_lt_trans _ _ _ E1 E2).
Qed.

Lemma entry_cmp_eq a b c : entry_cmp a b = Eq -> entry_cmp a c = entry_cmp b c.
Proof.
  unfold entry_cmp. destruct (bytes_cmp (key a) (key b)) eqn:E; intros H; try done.
  apply bytes_cmp_eq in E. rewrite E. apply N.compare_eq in H. by rewrite H.
Qed.

(** the least element not below [x] *)
Lemma foldr_least x l :
  match foldr (least x) None l with
  | Some e => e ∈ l /\ entry_cmp e x <> Lt /\
      forall e', e' ∈ l -> entry_cmp e' x <> Lt -> entry_cmp e' e <> Lt
  | None => forall e', e' ∈ l -> entry_cmp e' x = Lt
  end.
Proof.
  induction l as [|a l IH]; cbn [foldr]; [by intros e' ?%elem_of_nil|]. unfold least at 1.
  assert (Hrefl : forall e, entry_cmp e e <> Lt).
  { intros e. unfold entry_cmp. by rewrite bytes_cmp_refl, N.compare_refl. }
  destruct (entry_cmp a x) eqn:Ea.
  2: { destruct (foldr (least x) None l) as [b|].
       - destruct IH as (H1 & H2 & H3). split_and!; [by right|done|].
         intros e' [->|He']%elem_of_cons; [congruence|by apply H3].
       - intros e' [->|He']%elem_of_cons; [done|by apply IH]. }
  all: destruct (foldr (least x) None l) as [b|];
    [|split_and!; [by left|congruence|];
      intros e' [->|He']%elem_of_cons; [by intros _; apply Hrefl|by rewrite IH]].
  all: destruct IH as (H1 & H2 & H3); destruct (entry_cmp b a) eqn:Eb.
  all: try (split_and!; [by right|done|]; intros e' [->|He']%elem_of_cons Hx;
    [intros Hlt; rewrite (entry_cmp_antisym a b), Hlt in Eb; done|by apply H3]).
  all: split_and!; [by left|congruence|]; intros e' [->|He']%elem_of_cons Hx; [apply Hrefl|].
  all: specialize (H3 e' He' Hx); intros Hlt; apply H3.
  1,3: rewrite (entry_cmp_antisym b e'), (entry_cmp_eq b a e' Eb), (entry_cmp_antisym e' a), Hlt; done.
  all: eapply entry_cmp_lt_trans; [exact Hlt|]; by rewrite (entry_cmp_antisym b a), Eb.
Qed.

#[refine] Instance sorted_list : SkipList (list MemTableEntry) := {|
  sk_new := [];
  sk_insert := insert_sorted;
  sk_lower_bound x l := foldr (least x) None l;
  sk_elems l := l
|}.
Proof.
  - done.
  - apply insert_sorted_perm.
  - intros x l e E. pose proof (foldr_least x l) as Hl. by rewrite E in Hl.
  - intros x l E. pose proof (foldr_least x l) as Hl. by rewrite E in Hl.
Defined.

(** two tables of 30 bytes; each of the writes below takes 11 *)
Definition sample_options : CacheOptions := mkCacheOptions 2 30.
Definition sample_op (ep : N) : Op := Upsert [1%N] [ep] ep.
Definition sample_new : MemTableDB (list MemTableEntry) :=
  default (mkMemTableDB sample_options [] 0 0 false []) (new sample_options).
Definition run_ops (ops : list Op) (db : MemTableDB (list MemTableEntry)) :=
  foldl (fun db op => (run_op op db).1) db ops.
Definition sample_db : MemTableDB (list MemTableEntry) :=
  run_ops [sample_op 3; sample_op 5] (register_gc_callback sample_new).
Definition sample_writes : list MemTableEntry := [entry_of (sample_op 5); entry_of (sample_op 3)].

Lemma sample_reachable : reachable sample_db sample_writes 0.
Proof.
  exists sample_options, sample_new. split; [reflexivity|].
  eapply rtc_l; [apply step_register|].
  eapply rtc_l; [apply (step_write (sample_op 3) _ (run_ops [sample_op 3] (register_gc_callback sample_new)));
    [by_decision|vm_compute; reflexivity]|].
  eapply rtc_l; [apply (step_write (sample_op 5) _ sample_db); [by_decision|vm_compute; reflexivity]|].
  apply rtc_refl.
Qed.

Lemma get_newest_version_witness :
  get [1%N] (Some 4%N) sample_db = Ok (Some [3%N], 3%N) /\
  exists e, e ∈ sample_writes /\ visible [1%N] (Some 4%N) e /\ (epoch e <= 4)%N.
Proof.
  destruct (get_newest_version sample_db sample_writes 0 [1%N] (Some 4%N) sample_reachable)
    as (r & Hr & [(e & He & Hv & _)|[Hn _]]).
  - split; [vm_compute; reflexivity|]. exists e. split; [exact He|split; [exact Hv|apply Hv]].
  - exfalso. rewrite Hn in Hr. vm_compute in Hr. discriminate Hr.
Defined.

Lemma memtables_well_formed_witness :
  length (memtables sample_db) = 2 /\ (clear 4 sample_db).2 = Ok tt.
Proof.
  destruct (memtables_well_formed sample_db sample_writes 0 sample_reachable)
    as (Hl & _ & _ & Hc & _). split; [exact Hl|apply Hc].
Defined.

Lemma table_size_bounded_witness :
  exists mt, mt ∈ memtables sample_db /\ size_in_bytes mt = 22%N /\
    size_in_bytes mt = total_size (sk_elems (entries mt)).
Proof.
  exists (default (mkMemTable 0 0 FLUSHED 0 0 []) (memtables sample_db !! 0)).
  split; [vm_compute; left|]. split; [vm_compute; reflexivity|].
  apply (table_size_bounded sample_db sample_writes 0); [exact sample_reachable|vm_compute; left].
Defined.

(** the third write seals the table, whose last epoch is 5, and reports 0 *)
Lemma gc_epoch_is_stale_witness :
  exists next sealed : MemTable (list MemTableEntry), gc_log (run_op (sample_op 7) sample_db).1 = [mt_latest_epoch next] /\
    mt_latest_epoch next = 0%N /\ mt_latest_epoch sealed = 5%N /\
    memtables (run_op (sample_op 7) sample_db).1 !! 0 = Some sealed.
Proof.
  destruct (gc_epoch_is_stale sample_db sample_writes 0 (sample_op 7) (run_op (sample_op 7) sample_db).1)
    as (next & sealed & Hn & Hs & _ & Hl & _);
    [exact sample_reachable|reflexivity|reflexivity|by_decision|vm_compute; reflexivity
    |vm_compute; discriminate|].
  exists next, sealed. split; [exact Hl|]. vm_compute in Hn, Hs. injection Hn as <-. injection Hs as <-.
  split; [reflexivity|]. split; [reflexivity|vm_compute; reflexivity].
Defined.

End MemTable.
