(* ===== verification/Universe.v ===== *)
(** * The universe: [src/universe/src/server.rs], [src/universe/src/storage.rs]
      and [src/universe/src/storage/cassandra.rs]

    The universe keeps the key spaces, each with its base ranges, in the table
    [keyspaces], whose key is the namespace and the name. The statements on the
    table are the operations of the class [UniverseSession]. *)

From stdpp Require Import base tactics list numbers option gmap sets strings relations.
From S2P Require Import Prelude Common Storage.

Module Universe.
Import Common.
Local Open Scope string_scope.

(** ** Messages *)

(** the field [public_cloud] of a message is any 32-bit integer *)
Inductive Cloud := PublicCloud (c : Z) | OtherCloud (s : string).
Record Region := mkRegion { cloud : option Cloud; region_name : string }.
Record Zone := mkZone { region : option Region; zone_name : string }.

Record KeyRangeRequest := mkKeyRangeRequest { req_lower : Bytes; req_upper : Bytes }.
Record KeyRange := mkKeyRange {
  base_range_uuid : string;
  lower_bound_inclusive : Bytes;
  upper_bound_exclusive : Bytes
}.

Record CreateKeyspaceRequest := mkCreateKeyspaceRequest {
  create_namespace : string;
  create_name : string;
  create_primary_zone : option Zone;
  create_base_key_ranges : list KeyRangeRequest
}.

Record KeyspaceInfo := mkKeyspaceInfo {
  info_keyspace_id : string;
  info_namespace : string;
  info_name : string;
  info_primary_zone : option Zone;
  info_base_key_ranges : list KeyRange
}.

Inductive KeyspaceInfoSearchField :=
| ByKeyspace (namespace name : string)
| ByKeyspaceId (keyspace_id : string).

#[global] Instance Cloud_eq_dec : EqDecision Cloud.
Proof. solve_decision. Defined.
#[global] Instance Region_eq_dec : EqDecision Region.
Proof. solve_decision. Defined.

Inductive Error := Timeout | KeyspaceAlreadyExists | InternalError | KeyspaceDoesNotExist.

(** ** Rows *)

Record SerializedRegion := mkSerializedRegion { sr_name : string; sr_cloud : option string }.
Record SerializedZone := mkSerializedZone { sz_region : option SerializedRegion; sz_name : string }.
Record SerializedKeyRange := mkSerializedKeyRange {
  sk_base_range_uuid : Uuid;
  sk_lower : option Bytes;
  sk_upper : option Bytes
}.
Record SerializedKeyspaceInfo := mkSerializedKeyspaceInfo {
  si_keyspace_id : Uuid;
  si_name : string;
  si_namespace : string;
  si_primary_zone : SerializedZone;
  si_base_key_ranges : list SerializedKeyRange
}.

(** a stored row: Cassandra does not tell an empty list from null *)
Record Row := mkRow {
  row_keyspace_id : Uuid;
  row_primary_zone : SerializedZone;
  row_base_key_ranges : option (list SerializedKeyRange)
}.

Definition row_of (info : SerializedKeyspaceInfo) : Row :=
  mkRow (si_keyspace_id info) (si_primary_zone info)
    (match si_base_key_ranges info with [] => None | l => Some l end).

(** [into_typed]: a null where a list is expected is an error *)
Definition into_typed (k : string * string) (row : Row) : option SerializedKeyspaceInfo :=
  mkSerializedKeyspaceInfo (row_keyspace_id row) k.2 k.1 (row_primary_zone row)
    <$> row_base_key_ranges row.

Definition scylla_query_error_to_storage_error (qe : Storage.QueryError) : Error :=
  match qe with
  | Storage.TimeoutError | Storage.WriteTimeout => Timeout
  | Storage.OtherError => InternalError
  end.

Definition insert_row (info : SerializedKeyspaceInfo) (m : gmap (string * string) Row)
    : gmap (string * string) Row :=
  match m !! (si_namespace info, si_name info) with
  | Some _ => m
  | None => <[(si_namespace info, si_name info) := row_of info]> m
  end.

Class UniverseSession (DB : Type) : Type := {
  rows : DB -> gmap (string * string) Row;
  (* CREATE_KEYSPACE_QUERY: the column [applied] of the answer *)
  insert_if_not_exists : SerializedKeyspaceInfo -> DB -> DB * result Storage.QueryError bool;
  (* LIST_KEYSPACES_QUERY *)
  select_all : DB -> result Storage.QueryError (list (string * string * Row));
  (* GET_KEYSPACE_INFO_BY_KEYSPACE_QUERY *)
  select_by_name : string * string -> DB ->
    result Storage.QueryError (list (string * string * Row));
  (* GET_KEYSPACE_INFO_BY_KEYSPACE_ID_QUERY *)
  select_by_id : Uuid -> DB -> result Storage.QueryError (list (string * string * Row));
  insert_ok info db db' applied :
    insert_if_not_exists info db = (db', Ok applied) ->
    rows db' = insert_row info (rows db) /\
    applied = bool_decide (rows db !! (si_namespace info, si_name info) = None);
  insert_err info db db' e :
    insert_if_not_exists info db = (db', Err e) ->
    rows db' = insert_row info (rows db) \/ rows db' = rows db;
  insert_no_panic info db : (insert_if_not_exists info db).2 <> Panic;
  select_all_ok db l : select_all db = Ok l -> l ≡ₚ map_to_list (rows db);
  select_by_name_ok k db l :
    select_by_name k db = Ok l ->
    l = match rows db !! k with Some row => [(k, row)] | None => [] end;
  select_by_id_ok id db l :
    select_by_id id db = Ok l ->
    l ≡ₚ filter (fun p => row_keyspace_id p.2 = id) (map_to_list (rows db));
  select_no_panic db :
    select_all db <> Panic /\ (forall k, select_by_name k db <> Panic) /\
    (forall id, select_by_id id db <> Panic)
}.

Section Operations.
Context `{UniverseSession DB}.
(** [Uuid::from_str] and [Uuid::to_string] of the crate [uuid] *)
Context (parse_uuid : string -> option Uuid) (print_uuid : Uuid -> string).

(** ** Conversions *)

(** [Cloud::try_from] with [as_str_name]; [None] is the panic on an unknown number *)
Definition public_cloud_name (c : Z) : option string :=
  if decide (c = 0%Z) then Some "AWS"
  else if decide (c = 1%Z) then Some "AZURE"
  else if decide (c = 2%Z) then Some "GCP"
  else None.

Definition serialize_cloud (c : Cloud) : option string :=
  match c with
  | PublicCloud c => public_cloud_name c
  | OtherCloud s => Some s
  end.

Definition serialize_region (r : Region) : option SerializedRegion :=
  match cloud r with
  | None => Some (mkSerializedRegion (region_name r) None)
  | Some c => (fun s => mkSerializedRegion (region_name r) (Some s)) <$> serialize_cloud c
  end.

Definition serialize_zone (z : Zone) : option SerializedZone :=
  match region z with
  | None => Some (mkSerializedZone None (zone_name z))
  | Some r => (fun r => mkSerializedZone (Some r) (zone_name z)) <$> serialize_region r
  end.

Definition serialize_key_range (r : KeyRange) : option SerializedKeyRange :=
  (fun u => mkSerializedKeyRange u (Some (lower_bound_inclusive r)) (Some (upper_bound_exclusive r)))
    <$> parse_uuid (base_range_uuid r).

(** [None] is a panic of an [unwrap] *)
Definition construct_from_parts (keyspace_id : Uuid) (name namespace : string) (primary_zone : Zone)
    (base_key_range_requests : list KeyRange) : option SerializedKeyspaceInfo :=
  z ← serialize_zone primary_zone;
  l ← mapM serialize_key_range base_key_range_requests;
  Some (mkSerializedKeyspaceInfo keyspace_id name namespace z l).

Definition deserialize_cloud (s : string) : Cloud :=
  if decide (s = "AWS") then PublicCloud 0
  else if decide (s = "AZURE") then PublicCloud 1
  else if decide (s = "GCP") then PublicCloud 2
  else OtherCloud s.

Definition into_keyspace_info (s : SerializedKeyspaceInfo) : KeyspaceInfo :=
  mkKeyspaceInfo (print_uuid (si_keyspace_id s)) (si_namespace s) (si_name s)
    (Some (mkZone
      ((fun r => mkRegion (deserialize_cloud <$> sr_cloud r) (sr_name r))
         <$> sz_region (si_primary_zone s))
      (sz_name (si_primary_zone s))))
    ((fun r => mkKeyRange (print_uuid (sk_base_range_uuid r)) (default [] (sk_lower r))
                 (default [] (sk_upper r))) <$> si_base_key_ranges s).

(** ** The storage *)

Definition map_err {A} (r : result Storage.QueryError A) : result Error A :=
  match r with
  | Ok a => Ok a
  | Err e => Err (scylla_query_error_to_storage_error e)
  | Panic => Panic
  end.

Definition create_keyspace (keyspace_id name namespace : string) (primary_zone : Zone)
    (base_key_ranges : list KeyRange) (db : DB) : DB * result Error string :=
  match parse_uuid keyspace_id ≫= fun id =>
          construct_from_parts id name namespace primary_zone base_key_ranges with
  | None => (db, Panic)
  | Some info =>
      let (db', r) := insert_if_not_exists info db in
      (db', match map_err r with
            | Ok true => Ok keyspace_id
            | Ok false => Err KeyspaceAlreadyExists
            | Err e => Err e
            | Panic => Panic
            end)
  end.

(** a row that does not have the expected types *)
Definition row_to_info (p : string * string * Row) : result Error KeyspaceInfo :=
  match into_typed p.1 p.2 with
  | Some s => Ok (into_keyspace_info s)
  | None => Err InternalError
  end.

(** [collect] into a result: the first error *)
Fixpoint collect_results {A} (l : list (result Error A)) : result Error (list A) :=
  match l with
  | [] => Ok []
  | Ok a :: l' =>
      match collect_results l' with
      | Ok as' => Ok (a :: as')
      | Err e => Err e
      | Panic => Panic
      end
  | Err e :: _ => Err e
  | Panic :: _ => Panic
  end.

Definition in_region (r : option Region) (info : KeyspaceInfo) : bool :=
  match r with
  | None => true
  | Some r => bool_decide (info_primary_zone info ≫= region = Some r)
  end.

Definition list_keyspaces (r : option Region) (db : DB) : result Error (list KeyspaceInfo) :=
  match map_err (select_all db) with
  | Ok l =>
      match collect_results (row_to_info <$> l) with
      | Ok infos => Ok (filter (fun i => in_region r i = true) infos)
      | Err e => Err e
      | Panic => Panic
      end
  | Err e => Err e
  | Panic => Panic
  end.

Definition get_keyspace_info (f : KeyspaceInfoSearchField) (db : DB) : result Error KeyspaceInfo :=
  let found := match f with
               | ByKeyspace namespace name => map_err (select_by_name (namespace, name) db)
               | ByKeyspaceId id =>
                   match parse_uuid id with
                   | None => Panic
                   | Some u => map_err (select_by_id u db)
                   end
               end in
  match found with
  | Ok [] => Err KeyspaceDoesNotExist
  | Ok (p :: _) =>
      match row_to_info p with
      | Ok info => Ok info
      | _ => Panic
      end
  | Err e => Err e
  | Panic => Panic
  end.

(** ** The server *)

(** every error is the status [internal]; [new_uuid] is the supply of
    [Uuid::new_v4], with its text *)
Definition server_base_key_ranges (new_uuid : nat -> Uuid) (reqs : list KeyRangeRequest)
    : list KeyRange :=
  match reqs with
  | [] => [mkKeyRange (print_uuid (new_uuid 0)) [] []]
  | _ => imap (fun i r => mkKeyRange (print_uuid (new_uuid i)) (req_lower r) (req_upper r)) reqs
  end.

Definition server_create_keyspace (new_uuid : nat -> Uuid) (req : CreateKeyspaceRequest) (db : DB)
    : DB * result Error string :=
  match create_primary_zone req with
  | None => (db, Panic)
  | Some z =>
      create_keyspace (print_uuid (new_uuid (Nat.max 1 (length (create_base_key_ranges req)))))
        (create_name req) (create_namespace req) z
        (server_base_key_ranges new_uuid (create_base_key_ranges req)) db
  end.

Definition server_list_keyspaces (r : option Region) (db : DB) : result Error (list KeyspaceInfo) :=
  list_keyspaces r db.

(** a request without a search field is unwrapped *)
Definition server_get_keyspace_info (f : option KeyspaceInfoSearchField) (db : DB)
    : result Error KeyspaceInfo :=
  match f with
  | None => Panic
  | Some f => get_keyspace_info f db
  end.

(** the requests the server serves, one after the other *)
Inductive step : DB -> DB -> Prop :=
| step_create new_uuid req db : step db (server_create_keyspace new_uuid req db).1.


(** ** Round trips *)

(** a cloud with a known number, or with a name that is not one of theirs *)
Definition known_cloud (c : Cloud) : Prop :=
  match c with
  | PublicCloud c => (0 <= c <= 2)%Z
  | OtherCloud s => s <> "AWS" /\ s <> "AZURE" /\ s <> "GCP"
  end.

Definition known_zone (z : Zone) : Prop :=
  match region z ≫= cloud with
  | Some c => known_cloud c
  | None => True
  end.

Context (parse_print_uuid : forall u, parse_uuid (print_uuid u) = Some u).

(** a base range whose id is the text of a uuid *)
Definition canonical (r : KeyRange) : Prop := exists u, base_range_uuid r = print_uuid u.

Lemma cloud_roundtrip c :
  known_cloud c -> exists s, serialize_cloud c = Some s /\ deserialize_cloud s = c.
Proof.
  destruct c as [c|s]; cbn; intros Hc.
  - unfold public_cloud_name. assert (c = 0 \/ c = 1 \/ c = 2)%Z as [-> | [-> | ->]] by lia; by eexists.
  - exists s. split; [done|]. unfold deserialize_cloud. destruct Hc as (? & ? & ?).
    by rewrite !decide_False.
Qed.

Lemma zone_roundtrip z :
  known_zone z -> exists sz, serialize_zone z = Some sz /\
    mkZone ((fun r => mkRegion (deserialize_cloud <$> sr_cloud r) (sr_name r)) <$> sz_region sz)
      (sz_name sz) = z.
Proof.
  destruct z as [[[[c|] rn]|] zn]; cbn; unfold serialize_zone, serialize_region; cbn; intros Hz.
  - destruct (cloud_roundtrip c Hz) as (s & -> & Hs). eexists. split; [done|]. cbn. by rewrite Hs.
  - by eexists.
  - by eexists.
Qed.

Lemma ranges_roundtrip l :
  Forall canonical l -> exists sl, mapM serialize_key_range l = Some sl /\
    (fun r => mkKeyRange (print_uuid (sk_base_range_uuid r)) (default [] (sk_lower r))
                (default [] (sk_upper r))) <$> sl = l /\ length sl = length l.
Proof.
  induction 1 as [|r l [u Hu] _ IH]; [by exists [] |]. destruct IH as (sl & Hm & Hl & Hlen).
  change (mapM serialize_key_range (r :: l)) with
    (y ← serialize_key_range r; k ← mapM serialize_key_range l; Some (y :: k)).
  assert (Hs : serialize_key_range r = Some (mkSerializedKeyRange u (Some (lower_bound_inclusive r))
    (Some (upper_bound_exclusive r)))).
  { unfold serialize_key_range. by rewrite Hu, parse_print_uuid. }
  rewrite Hs, Hm.
  exists (mkSerializedKeyRange u (Some (lower_bound_inclusive r)) (Some (upper_bound_exclusive r)) :: sl).
  split_and!.
  - done.
  - rewrite fmap_cons, Hl. cbn. rewrite <- Hu. by destruct r.
  - cbn. by rewrite Hlen.
Qed.

(** what is stored for a key space and read back *)
Lemma info_roundtrip id name namespace z l :
  known_zone z -> Forall canonical l ->
  exists info, construct_from_parts id name namespace z l = Some info /\
    si_namespace info = namespace /\ si_name info = name /\
    length (si_base_key_ranges info) = length l /\
    into_keyspace_info info = mkKeyspaceInfo (print_uuid id) namespace name (Some z) l.
Proof.
  intros (sz & Hz & Hzr)%zone_roundtrip (sl & Hm & Hl & Hlen)%ranges_roundtrip.
  unfold construct_from_parts. rewrite Hz. cbn. rewrite Hm. cbn. eexists. split; [done|]. cbn.
  split_and!; [done..|]. unfold into_keyspace_info. cbn. by rewrite Hl, Hzr.
Qed.

Lemma row_to_info_row info :
  si_base_key_ranges info <> [] ->
  row_to_info (si_namespace info, si_name info, row_of info) = Ok (into_keyspace_info info).
Proof.
  destruct info as [id name ns z [|r l]]; [done|]. intros _. reflexivity.
Qed.

Lemma server_ranges_canonical new_uuid reqs :
  Forall canonical (server_base_key_ranges new_uuid reqs) /\
  server_base_key_ranges new_uuid reqs <> [].
Proof.
  destruct reqs as [|r reqs].
  - split; [|done]. constructor; [by eexists|done].
  - split; [|done]. apply Forall_forall. intros x (i & ? & -> & _)%elem_of_lookup_imap. by eexists.
Qed.

(** ** Rows stay *)

Lemma insert_row_keeps info m k row : m !! k = Some row -> insert_row info m !! k = Some row.
Proof.
  intros Hk. unfold insert_row. destruct (m !! (si_namespace info, si_name info)) eqn:E; [done|].
  rewrite lookup_insert_ne; [done|]. intros <-. congruence.
Qed.

Lemma create_rows id name ns z l db db' r :
  create_keyspace id name ns z l db = (db', r) ->
  rows db' = rows db \/ exists info, rows db' = insert_row info (rows db).
Proof.
  unfold create_keyspace. destruct (_ ≫= _) as [info|]; [|by intros [= <- _]; left].
  destruct (insert_if_not_exists info db) as [db1 [a|e|]] eqn:E; intros [= <- _].
  - right. exists info. by apply insert_ok in E as [? _].
  - apply insert_err in E as [E|E]; eauto.
  - by pose proof (insert_no_panic info db) as Hn; rewrite E in Hn.
Qed.

Lemma steps_keep_rows db db' k row :
  rtc step db db' -> rows db !! k = Some row -> rows db' !! k = Some row.
Proof.
  induction 1 as [|db1 db2 db3 Hs _ IH]; [done|]. intros Hk. apply IH.
  destruct Hs as [new_uuid req db]. unfold server_create_keyspace.
  destruct (create_primary_zone req); [|done].
  destruct (create_keyspace _ _ _ _ _ db) as [db' r] eqn:E. cbn.
  apply create_rows in E as [->|[info ->]]; [done|]. by apply insert_row_keeps.
Qed.

(** what a key space that was created says from then on *)
Lemma created_row new_uuid req z db db1 id :
  create_primary_zone req = Some z -> known_zone z ->
  server_create_keyspace new_uuid req db = (db1, Ok id) ->
  exists row, rows db1 !! (create_namespace req, create_name req) = Some row /\
    row_to_info (create_namespace req, create_name req, row) =
      Ok (mkKeyspaceInfo id (create_namespace req) (create_name req) (Some z)
            (server_base_key_ranges new_uuid (create_base_key_ranges req))).
Proof.
  intros Hz Hk. unfold server_create_keyspace, create_keyspace. rewrite Hz.
  set (u := new_uuid _). rewrite parse_print_uuid.
  destruct (server_ranges_canonical new_uuid (create_base_key_ranges req)) as [Hc Hne].
  destruct (info_roundtrip u (create_name req) (create_namespace req) z _ Hk Hc)
    as (info & Hcons & Hns & Hn & Hlen & Hinfo).
  cbn [mbind option_bind]. rewrite Hcons.
  destruct (insert_if_not_exists info db) as [db' r] eqn:E.
  destruct r as [[]|e|]; cbn; intros [= <- <-].
  apply insert_ok in E as [Hrows Hnone]. symmetry in Hnone. apply bool_decide_eq_true in Hnone.
  exists (row_of info). rewrite Hrows. unfold insert_row. rewrite Hnone, Hns, Hn, lookup_insert_eq.
  split; [done|]. rewrite <- Hinfo, <- Hns, <- Hn. apply row_to_info_row.
  intros Hnil. rewrite Hnil in Hlen. cbn in Hlen. by destruct (server_base_key_ranges _ _).
Qed.

(** ** Properties *)

(** C29: A key space is what it was created as, if its zone is in a cloud that
    comes back as itself: none, one of the three public clouds, or another cloud
    that is not called AWS, AZURE or GCP (such a cloud is stored under its name and
    read back as the public cloud). From the moment the universe has acknowledged
    the creation, whatever it serves later, a lookup by name returns exactly the
    zone and the ranges of the request, or reports a timeout or an internal error
    of the database, and never that the key space does not exist; and nobody can
    create a key space of that name again. *)
Theorem created_keyspace_is_served new_uuid req z db db1 id db2 :
  create_primary_zone req = Some z -> known_zone z ->
  server_create_keyspace new_uuid req db = (db1, Ok id) -> rtc step db1 db2 ->
  let found := server_get_keyspace_info
                 (Some (ByKeyspace (create_namespace req) (create_name req))) db2 in
  (found = Ok (mkKeyspaceInfo id (create_namespace req) (create_name req) (Some z)
                 (server_base_key_ranges new_uuid (create_base_key_ranges req))) \/
   found = Err Timeout \/ found = Err InternalError) /\
  (forall new_uuid' req' db3 id',
     create_namespace req' = create_namespace req -> create_name req' = create_name req ->
     server_create_keyspace new_uuid' req' db2 <> (db3, Ok id')).
Proof.
  intros Hz Hk Hc Hsteps found. destruct (created_row _ _ _ _ _ _ Hz Hk Hc) as (row & Hrow & Hinfo).
  pose proof (steps_keep_rows _ _ _ _ Hsteps Hrow) as Hrow2. split.
  - unfold found, server_get_keyspace_info, get_keyspace_info.
    destruct (select_by_name _ db2) as [l|e|] eqn:E.
    + cbn. apply select_by_name_ok in E. rewrite Hrow2 in E. subst l. rewrite Hinfo. by left.
    + right. destruct e; cbn; auto.
    + by destruct (proj1 (proj2 (select_no_panic db2)) _ E).
  - intros new_uuid' req' db3 id' Hns Hn. unfold server_create_keyspace, create_keyspace.
    destruct (create_primary_zone req') as [z'|]; [|done].
    rewrite parse_print_uuid. cbn [mbind option_bind].
    destruct (construct_from_parts _ _ _ z' _) as [info|] eqn:Ei; [|done].
    assert (Hkey : si_namespace info = create_namespace req /\ si_name info = create_name req).
    { unfold construct_from_parts in Ei. destruct (serialize_zone z'); [|done]. cbn in Ei.
      destruct (mapM _ _); [|done]. cbn in Ei. injection Ei as <-. cbn. by rewrite Hns, Hn. }
    destruct (insert_if_not_exists info db2) as [db' r] eqn:E.
    destruct r as [[]|e|]; cbn; try done. apply insert_ok in E as [_ Happ].
    destruct Hkey as [H1 H2]. by rewrite H1, H2, Hrow2 in Happ.
Qed.

(** every row can be read back as a key space *)
Definition rows_typed (db : DB) : Prop :=
  forall k row, rows db !! k = Some row -> row_base_key_ranges row <> None.

Lemma typed_step db db' : rows_typed db -> step db db' -> rows_typed db'.
Proof.
  intros Ht. destruct 1 as [new_uuid req db]. unfold server_create_keyspace.
  destruct (create_primary_zone req) as [z|]; [|done]. unfold create_keyspace.
  rewrite parse_print_uuid. cbn [mbind option_bind].
  destruct (construct_from_parts _ _ _ z _) as [info|] eqn:Ei; [|done].
  assert (Hne : si_base_key_ranges info <> []).
  { unfold construct_from_parts in Ei. destruct (serialize_zone z); [|done]. cbn in Ei.
    destruct (mapM _ _) as [sl|] eqn:Em; [|done]. cbn in Ei. injection Ei as <-. cbn.
    intros ->. apply length_mapM in Em. by destruct (create_base_key_ranges req). }
  assert (Hi : forall m, (forall k row, m !! k = Some row -> row_base_key_ranges row <> None) ->
    forall k row, insert_row info m !! k = Some row -> row_base_key_ranges row <> None).
  { intros m Hm k row. unfold insert_row. destruct (m !! _); [apply Hm|].
    intros [[_ <-]|[_ Hk]]%lookup_insert_Some; [|by eapply Hm].
    unfold row_of. by destruct (si_base_key_ranges info). }
  destruct (insert_if_not_exists info db) as [db' r] eqn:E. intros k row. cbn.
  destruct r as [a|e|].
  - apply insert_ok in E as [-> _]. by apply Hi.
  - apply insert_err in E as [-> | ->]; [by apply Hi|apply Ht].
  - by pose proof (insert_no_panic info db) as Hn; rewrite E in Hn.
Qed.

Lemma collect_typed l :
  Forall (fun p : string * string * Row => row_base_key_ranges p.2 <> None) l ->
  exists infos, collect_results (row_to_info <$> l) = Ok infos /\
    forall i, i ∈ infos <-> exists p, p ∈ l /\ row_to_info p = Ok i.
Proof.
  induction 1 as [|p l Hp _ (infos & Hc & Hi)].
  { exists []. split; [done|]. intros i. split; [by intros ?%elem_of_nil|].
    by intros (p & ?%elem_of_nil & _). }
  assert (exists i0, row_to_info p = Ok i0) as [i0 Hi0].
  { unfold row_to_info, into_typed. destruct (row_base_key_ranges p.2); [by eexists|done]. }
  exists (i0 :: infos). rewrite fmap_cons, Hi0. cbn. rewrite Hc. split; [done|]. intros i.
  rewrite elem_of_cons, Hi. setoid_rewrite elem_of_cons. split.
  - intros [->|(q & Hq & Hqi)]; eauto.
  - intros (q & [->|Hq] & Hqi); [left; congruence|eauto].
Qed.

(** A listing is complete. After any requests to a universe that started
    empty, a listing that the database answers contains exactly the key spaces
    of the table that are in the region asked for, all of them if none is. *)
Theorem listing_is_complete db0 db r :
  rows db0 = ∅ -> rtc step db0 db ->
  (exists l, server_list_keyspaces r db = Ok l /\
     forall i, i ∈ l <-> in_region r i = true /\
       exists k row, rows db !! k = Some row /\ row_to_info (k, row) = Ok i) \/
  server_list_keyspaces r db = Err Timeout \/ server_list_keyspaces r db = Err InternalError.
Proof.
  intros H0 Hsteps.
  assert (Ht : rows_typed db).
  { assert (Ht0 : rows_typed db0) by (intros k row; rewrite H0; by rewrite lookup_empty).
    clear H0. induction Hsteps as [|db1 db2 db3 Hs _ IH]; [done|]. apply IH. by eapply typed_step. }
  unfold server_list_keyspaces, list_keyspaces. destruct (select_all db) as [l|e|] eqn:E; cbn.
  - left. apply select_all_ok in E. destruct (collect_typed l) as (infos & -> & Hi).
    { apply Forall_forall. intros [k row] Hp. rewrite E in Hp. apply elem_of_map_to_list in Hp.
      by apply (Ht k). }
    eexists. split; [done|]. intros i. rewrite list_elem_of_filter, Hi. split.
    + intros (Hr & [k row] & Hp & Hpi). split; [done|]. exists k, row. split; [|done].
      rewrite E in Hp. by apply elem_of_map_to_list.
    + intros (Hr & k & row & Hk & Hpi). split; [done|]. exists (k, row). split; [|done].
      rewrite E. by apply elem_of_map_to_list.
  - right. destruct e; cbn; auto.
  - by destruct (proj1 (select_no_panic db) E).
Qed.
End Operations.

(** ** Witnesses: a table in memory, and uuids in unary *)

#[refine] Instance table_universe : UniverseSession (gmap (string * string) Row) := {|
  rows db := db;
  insert_if_not_exists info db :=
    (insert_row info db, Ok (bool_decide (db !! (si_namespace info, si_name info) = None)));
  select_all db := Ok (map_to_list db);
  select_by_name k db := Ok (match db !! k with Some row => [(k, row)] | None => [] end);
  select_by_id id db := Ok (filter (fun p => row_keyspace_id p.2 = id) (map_to_list db))
|}.
Proof.
  - by intros info db db' applied [= <- <-].
  - done.
  - done.
  - by intros db l [= <-].
  - by intros k db l [= <-].
  - by intros id db l [= <-].
  - done.
Defined.

Definition unary_print (u : Uuid) : string := Nat.iter (N.to_nat u) (String (Ascii.ascii_of_nat 117)) "".
Definition unary_parse (s : string) : option Uuid := Some (N.of_nat (String.length s)).

Lemma unary_roundtrip u : unary_parse (unary_print u) = Some u.
Proof.
  unfold unary_parse, unary_print. f_equal. rewrite <- (N2Nat.id u) at 2. f_equal.
  induction (N.to_nat u) as [|n IH]; [done|]. cbn. f_equal. exact IH.
Qed.

Definition sample_zone : Zone := mkZone (Some (mkRegion (Some (PublicCloud 0)) "r")) "z".
Definition sample_request : CreateKeyspaceRequest :=
  mkCreateKeyspaceRequest "ns" "ks" (Some sample_zone) [].
Definition sample_created : gmap (string * string) Row :=
  (server_create_keyspace unary_parse unary_print N.of_nat sample_request ∅).1.

Lemma created_keyspace_is_served_witness :
  server_get_keyspace_info unary_parse unary_print (Some (ByKeyspace "ns" "ks")) sample_created =
    Ok (mkKeyspaceInfo "u" "ns" "ks" (Some sample_zone) [mkKeyRange "" [] []]) /\
  (server_create_keyspace unary_parse unary_print N.of_nat sample_request sample_created).2 =
    Err KeyspaceAlreadyExists.
Proof.
  destruct (created_keyspace_is_served unary_parse unary_print unary_roundtrip N.of_nat sample_request
    sample_zone ∅ sample_created "u" sample_created) as [[Hf|[Hf|Hf]] Hn];
    [reflexivity|split; discriminate|vm_compute; reflexivity|apply rtc_refl
    |split; [exact Hf|vm_compute; reflexivity]|vm_compute in Hf; discriminate Hf
    |vm_compute in Hf; discriminate Hf].
Defined.

Lemma listing_is_complete_witness :
  exists l, server_list_keyspaces unary_print None sample_created = Ok l /\ length l = 1.
Proof.
  destruct (listing_is_complete unary_parse unary_print unary_roundtrip ∅ sample_created None)
    as [(l & Hl & _)|[Hf|Hf]];
    [reflexivity|eapply rtc_once; apply (step_create _ _ N.of_nat sample_request)| |
     vm_compute in Hf; discriminate Hf|vm_compute in Hf; discriminate Hf].
  exists l. split; [exact Hl|]. vm_compute in Hl. injection Hl as <-. reflexivity.
Defined.

End Universe.
