(* ===== verification/Assignment.v ===== *)
(** * From the warden to the ranges of a server

    The warden of [Warden.v] tells a range server its assignment, the handler of
    [WardenHandler.v] turns it into updates, and the loop of
    [src/rangeserver/src/server.rs] makes the server of [RangeServer.v] follow
    them. A node is a range server with the channel between its handler and its
    loop and with the tasks of [RangeTasks.v] that the loop and the clients have
    spawned; their actions are taken in any order. *)

From stdpp Require Import base tactics list numbers option gmap sets relations strings.
From S2P Require Import Prelude Common Tasks Region Storage RsError Wal RangeManager Universe Warden WardenHandler RangeServer RangeTasks.

Module Assignment.
Import Common RsError Tasks RangeServer RangeTasks.
Local Open Scope sangria_scope.

#[local] Instance state_eq_dec : EqDecision WardenHandler.State.
Proof. solve_decision. Defined.

Section Nodes.
Context `{RangeJobs R}.
(** [Uuid::to_u128_le] and [Uuid::from_u128_le], and [Uuid::from_str], of the
    crate [uuid] *)
Context (to_u128_le from_u128_le : Uuid -> N) (parse_uuid : string -> option Uuid).

(** the loop of the updates *)
Inductive Loop :=
| Receiving
| Removing (id : FullRangeId)               (** [maybe_unload_range] is to take the table *)
| Unloading (t : Task (Server R) unit)      (** the manager that was in it is unloaded *)
| LoopReturned.

Record Node := mkNode {
  server : Server R;
  updates : list WardenHandler.WardenUpdate;   (** the channel to the loop *)
  loop : Loop;
  tasks : list (Task (Server R) unit);         (** of the loads and of the messages *)
  (** for the statements: the ids that a task has put into the table while no
      range with that id was assigned, and those that the clean-up of a failed
      load has taken out; an update of a range ends both *)
  late : gset Uuid;
  evicted : gset Uuid
}.

Definition handler (n : Node) : WardenHandler.WardenHandler := warden_handler (server n).
Definition set_handler (h : WardenHandler.WardenHandler) (sv : Server R) : Server R :=
  mkServer h (loaded_ranges sv) (managers sv) (transaction_table sv).
Definition set_loop (l : Loop) (n : Node) : Node :=
  mkNode (server n) (updates n) l (tasks n) (late n) (evicted n).
Definition spawn (t : Task (Server R) unit) (n : Node) : Node :=
  mkNode (server n) (updates n) (loop n) (tasks n ++ [t]) (late n) (evicted n).

(** [Server::new] *)
Definition new_node : Node := mkNode RangeServer.new [] Receiving [] ∅ ∅.

Definition assigned (n : Node) : gset FullRangeId :=
  WardenHandler.assigned_ranges (WardenHandler.shared (handler n)).

(** the result of a spawned task is dropped *)
Definition ignore {A} (t : Task (Server R) A) : Task (Server R) unit := t_bind t (fun _ => Done tt).

(** an update of the range [id] is received: [late] and [evicted] end *)
Definition received (id : FullRangeId) (sv : Server R) (q : list WardenHandler.WardenUpdate) (l : Loop)
    (ts : list (Task (Server R) unit)) (n : Node) : Node :=
  mkNode sv q l ts (late n ∖ {[range_id id]}) (evicted n ∖ {[range_id id]}).

(** the node after an action of one of its tasks *)
Definition acted (sv : Server R) (ts : list (Task (Server R) unit)) (n : Node) : Node :=
  let old := dom (loaded_ranges (server n)) in
  let new := dom (loaded_ranges sv) in
  mkNode sv (updates n) (loop n) ts
    ((late n ∪ (new ∖ old) ∖ set_map range_id (assigned n)) ∩ new)
    ((evicted n ∪ old ∖ new) ∖ new).

(** the round in which the token is cancelled *)
Definition cancel_loop (n : Node) : Node :=
  mkNode (set_handler (WardenHandler.stop (handler n)) (server n)) (updates n) LoopReturned (tasks n)
    (late n) (evicted n).

(** what a handler does, and the updates it sends *)
Definition handler_event (h : WardenHandler.WardenHandler) (us : list WardenHandler.WardenUpdate)
    (n : Node) : Node :=
  mkNode (set_handler h (server n)) (updates n ++ us) (loop n) (tasks n) (late n) (evicted n).

Definition update_range (u : WardenHandler.WardenUpdate) : FullRangeId :=
  match u with WardenHandler.LoadRange r | WardenHandler.UnloadRange r => r end.

(** the ranges that exist; an id belongs to one of them *)
Context (known : FullRangeId -> Prop).

(** what the node does on its own: the loop of the updates, [warden_update_loop],
    which spawns loads and awaits unloads, and the actions of the tasks *)
Inductive background_step : Node -> Node -> Prop :=
| background_load n id q :
    loop n = Receiving -> updates n = WardenHandler.LoadRange id :: q ->
    background_step n (received id (server n) q Receiving (tasks n ++ [ignore (load_job id)]) n)
| background_unload n id q :
    loop n = Receiving -> updates n = WardenHandler.UnloadRange id :: q ->
    background_step n (mkNode (server n) q (Removing id) (tasks n) (late n) (evicted n))
| background_remove n id f sv t :
    loop n = Removing id -> unload_job id = Act f -> f (server n) = Some (sv, t) ->
    background_step n (received id sv (updates n) (Unloading t) (tasks n) n)
| background_unloading n f sv t :
    loop n = Unloading (Act f) -> f (server n) = Some (sv, t) ->
    background_step n (mkNode sv (updates n) (Unloading t) (tasks n) (late n) (evicted n))
| background_unloaded n :
    loop n = Unloading (Done tt) -> background_step n (set_loop Receiving n)
| background_task n l1 f l2 sv t :
    tasks n = l1 ++ Act f :: l2 -> f (server n) = Some (sv, t) ->
    background_step n (acted sv (l1 ++ t :: l2) n).

(** the events of a node, apart from those of its handler *)
Inductive local_step : Node -> Node -> Prop :=
| local_background n n' : background_step n n' -> local_step n n'
| local_cancel n : loop n = Receiving -> local_step n (cancel_loop n)
| local_closed n :
    (* the handler has returned, and with it the sender of the updates *)
    loop n = Receiving -> updates n = [] -> WardenHandler.task (handler n) ∈ [WardenHandler.Returned; WardenHandler.Panicked] ->
    local_step n (set_loop LoopReturned n)
| local_message (order : HashOrder) n now msg :
    local_step n (spawn (ignore (message_job to_u128_le from_u128_le now msg)) n)
| local_prefetch n id :
    (* a call of the service of [ProtoServer] *)
    local_step n (spawn (ignore (load_job id)) n).

Inductive node_step : Node -> Node -> Prop :=
| node_local n n' : local_step n n' -> node_step n n'
| node_handler n us h :
    WardenHandler.step parse_uuid (handler n) us h ->
    (forall u, u ∈ us -> known (update_range u)) ->
    node_step n (handler_event h us n).

(** the server has a manager for the range *)
Definition loaded (r : FullRangeId) (sv : Server R) : Prop :=
  is_Some (loaded_ranges sv !! range_id r).
#[global] Instance loaded_dec r sv : Decision (loaded r sv).
Proof. unfold loaded. apply _. Defined.

Definition is_assigned (r : FullRangeId) (sv : Server R) : Prop :=
  WardenHandler.is_assigned r (warden_handler sv) = true.

(** a task that does not end, as long as [r] is assigned, before [r] has been in
    the table *)
Definition loading (r : FullRangeId) (t : Task (Server R) unit) : Prop :=
  ensures (is_assigned r) (loaded r) t.

(** the updates that are not done *)
Definition pending (n : Node) : list WardenHandler.WardenUpdate :=
  match loop n with
  | Removing id => WardenHandler.UnloadRange id :: updates n
  | _ => updates n
  end.

(** everything the handler has sent has been done *)
Definition settled (n : Node) : Prop :=
  pending n = [] /\ forall r t, t ∈ tasks n -> ~ loading r t.

(** ** The actions of the tasks *)

Definition same_handler (sv sv' : Server R) : Prop := warden_handler sv' = warden_handler sv.
Definition same_table (sv sv' : Server R) : Prop :=
  warden_handler sv' = warden_handler sv /\ loaded_ranges sv' = loaded_ranges sv.

Lemma table_manager {A} h (t : Task R A) : always same_table (on_manager h t).
Proof.
  induction t as [a|f IH] using task_ind; cbn; [done|]. intros sv.
  destruct (managers sv !! h) as [r|]; [|done]. destruct (f r) as [[r' t']|] eqn:E; [|done].
  split; [done|]. by eapply IH.
Qed.

Lemma always_weaken {S A} (G G' : S -> S -> Prop) (t : Task S A) :
  (forall s s', G s s' -> G' s s') -> always G t -> always G' t.
Proof.
  intros HG. induction t as [a|f IH] using task_ind; cbn; [done|]. intros Hf s. specialize (Hf s).
  destruct (f s) as [[s' t']|] eqn:E; [|done]. destruct Hf. split; [auto|]. by eapply IH.
Qed.

Lemma handler_call {A} h (t : Job R Error A) : always same_handler (call_job h t).
Proof.
  intros sv. cbn. destruct (managers sv !! h); [|by split]. split; [done|].
  eapply always_weaken, table_manager. by intros ? ? [].
Qed.

Ltac tame :=
  repeat match goal with
  | |- always _ (t_bind _ _) => apply always_bind; [|intros ?]
  | |- always _ (j_then _ _) => apply always_then; [|intros ?]
  | |- always _ (call_job _ _) => apply handler_call
  | |- always _ (atomically _) => apply always_atomically; intros ?
  | |- always _ (Done _) => exact I
  | |- always _ (j_ret _) => exact I
  | |- always _ (j_fail _) => exact I
  | |- always _ j_panic => exact I
  | |- always _ (match ?x with _ => _ end) => destruct x
  end.

Lemma handler_load id : always same_handler (load_job id).
Proof.
  unfold load_job, load_inner_job, create_job, load_manager.
  tame; try done.
  - unfold find_or_create. by case_match.
  - unfold forget_range, same_handler. by case_match.
Qed.

Lemma handler_keys tx h keys leader reads deps : always same_handler (keys_job tx h keys leader reads deps).
Proof.
  revert leader reads deps. induction keys as [|[key|] keys IH]; intros leader reads deps; [done| |done].
  cbn [keys_job]. apply always_then; [apply handler_call|]. intros g. apply IH.
Qed.

Lemma handler_message `{HashOrder} now msg :
  always same_handler (message_job to_u128_le from_u128_le now msg).
Proof.
  unfold message_job, get_job, prepare_job, abort_job, commit_job, get_inner_job, prepare_inner_job,
    abort_inner_job, commit_inner_job, range_job, required_job, info_job, answer_job, j_modify.
  tame; try first [apply handler_load | apply handler_keys | done].
  unfold maybe_start_transaction. by repeat case_match.
Qed.

Lemma always_ignore {A} G (t : Task (Server R) A) : always G t -> always G (ignore t).
Proof. intros Ht. by apply always_bind. Qed.

(** a load puts its range into the table while it is assigned *)
Lemma load_loading r : loading r (ignore (load_job r)).
Proof.
  apply ensures_bind, ensures_bind. intros sv _. cbn.
  destruct (loaded_ranges sv !! range_id r) as [h|] eqn:E; [left; by exists h|right].
  intros sv1 Ha. right. cbn. rewrite Ha. cbn. intros sv2 _. left.
  unfold find_or_create, loaded. destruct (loaded_ranges sv2 !! range_id r) eqn:E2; [by eexists|].
  cbn. rewrite lookup_insert_eq. by eexists.
Qed.

#[local] Arguments always : simpl never.
#[local] Arguments ensures : simpl never.
#[local] Arguments ignore : simpl never.

(** ** What the updates make of a range *)

Definition tell (r : FullRangeId) (b : bool) (u : WardenHandler.WardenUpdate) : bool :=
  match u with
  | WardenHandler.LoadRange r' => if decide (r' = r) then true else b
  | WardenHandler.UnloadRange r' => if decide (r' = r) then false else b
  end.
Definition told (us : list WardenHandler.WardenUpdate) (r : FullRangeId) (b : bool) : bool :=
  foldl (tell r) b us.

Lemma told_mono us r b b' : (b = true -> b' = true) -> told us r b = true -> told us r b' = true.
Proof.
  unfold told. revert b b'; induction us as [|u us IH]; intros b b' Hb; cbn; [done|].
  apply IH. destruct u; cbn; case_decide; auto.
Qed.

Lemma told_anti us r b b' : (b' = true -> b = true) -> told us r b = false -> told us r b' = false.
Proof.
  intros Hb Hf. destruct (told us r b') eqn:E; [|done]. by rewrite (told_mono _ _ _ _ Hb E) in Hf.
Qed.

Lemma told_cons u us r b : told (u :: us) r b = told us r (tell r b u).
Proof. done. Qed.

Lemma told_app us vs r b : told (us ++ vs) r b = told vs r (told us r b).
Proof. apply foldl_app. Qed.

Lemma told_follow us r (A : gset FullRangeId) :
  told us r (bool_decide (r ∈ A)) = bool_decide (r ∈ foldl WardenHandler.follow A us).
Proof.
  unfold told. revert A; induction us as [|u us IH]; intros A; cbn; [done|]. rewrite <- IH. f_equal.
  destruct u as [r'|r']; cbn; case_decide; subst; symmetry.
  - apply bool_decide_eq_true_2. set_solver.
  - apply bool_decide_ext. set_solver.
  - apply bool_decide_eq_false_2. set_solver.
  - apply bool_decide_ext. set_solver.
Qed.

#[local] Arguments told : simpl never.

(** ** The handler *)

(** the handler has no assignment before it is started *)
Definition handler_ok (h : WardenHandler.WardenHandler) : Prop :=
  WardenHandler.state h = WardenHandler.NotStarted ->
  WardenHandler.task h = WardenHandler.NoTask /\ WardenHandler.assigned_ranges (WardenHandler.shared h) = ∅.

Lemma handler_step_tracks h us h' :
  WardenHandler.step parse_uuid h us h' -> handler_ok h ->
  handler_ok h' /\
  foldl WardenHandler.follow (WardenHandler.assigned_ranges (WardenHandler.shared h)) us =
    WardenHandler.assigned_ranges (WardenHandler.shared h') /\
  (WardenHandler.state h = WardenHandler.Stopped -> WardenHandler.state h' = WardenHandler.Stopped).
Proof.
  unfold handler_ok. destruct 1 as [k h|h|h|order update h|h|h]; intros Hok.
  - unfold WardenHandler.start. destruct (WardenHandler.state h) eqn:E; [|cbn; rewrite ?E; naive_solver..].
    destruct (Hok eq_refl) as [Ht Ha]. destruct k; cbn; [by rewrite Ha|by rewrite E].
  - unfold WardenHandler.stop. by destruct (WardenHandler.state h).
  - unfold WardenHandler.connect. destruct (WardenHandler.task h) eqn:E; cbn; rewrite ?E; try done.
    split_and!; [|done..]. intros Hs. by destruct (Hok Hs).
  - unfold WardenHandler.message. destruct (WardenHandler.task h) eqn:E; cbn; rewrite ?E; try done.
    destruct (WardenHandler.process_warden_update _ _ _) as [[us a] b] eqn:Hp.
    destruct (WardenHandler.process_tracks _ _ _ _ _ _ Hp) as [Hf _]. cbn.
    split_and!; [|done..]. intros Hs. by destruct (Hok Hs).
  - unfold WardenHandler.connection_lost. destruct (WardenHandler.task h) eqn:E; cbn; rewrite ?E; try done.
    split_and!; [|done..]. intros Hs. by destruct (Hok Hs).
  - unfold WardenHandler.cancelled. destruct (WardenHandler.task h) eqn:E; cbn; rewrite ?E; try done.
    destruct (WardenHandler.stopper _); cbn; rewrite ?E; [|done].
    split_and!; [|done..]. intros Hs. by destruct (Hok Hs).
Qed.

Lemma is_assigned_ok r h :
  handler_ok h -> WardenHandler.state h <> WardenHandler.Stopped ->
  WardenHandler.is_assigned r h =
    bool_decide (r ∈ WardenHandler.assigned_ranges (WardenHandler.shared h)).
Proof.
  unfold handler_ok, WardenHandler.is_assigned. intros Hok Hs.
  destruct (WardenHandler.state h) eqn:E; [|done..]. destruct (Hok eq_refl) as [_ ->].
  symmetry. apply bool_decide_eq_false_2, not_elem_of_empty.
Qed.

(** ** The invariant *)

Context (known_inj : forall r r', known r -> known r' -> range_id r = range_id r' -> r = r').

(** [r] is, or will be, in the table: something has seen to it *)
Definition covered (r : FullRangeId) (n : Node) : Prop :=
  loaded r (server n) \/ range_id r ∈ evicted n \/ exists t, t ∈ tasks n /\ loading r t.

(** [r] is told to be in the table, by an update of [us] or already if [P] *)
Definition due (us : list WardenHandler.WardenUpdate) (r : FullRangeId) (P : Prop) : Prop :=
  told us r false = true \/ (told us r true = true /\ P).

Record node_ok (n : Node) : Prop := {
  ok_assigned r : r ∈ assigned n -> known r;
  ok_updates u : u ∈ pending n -> known (update_range u);
  ok_loaded rid : is_Some (loaded_ranges (server n) !! rid) ->
    rid ∈ late n \/ exists r, known r /\ range_id r = rid;
  ok_in r : known r -> r ∈ assigned n -> due (pending n) r (covered r n);
  ok_out r : known r -> r ∉ assigned n ->
    told (pending n) r (bool_decide (loaded r (server n) /\ range_id r ∉ late n)) = false
}.

(** what the tasks may do, at any time *)
Record tasks_ok (n : Node) : Prop := {
  ok_tasks t : t ∈ tasks n -> always same_handler t;
  ok_loop t : loop n = Unloading t -> always same_table t
}.

Definition node_inv (n : Node) : Prop :=
  handler_ok (handler n) /\ tasks_ok n /\
  (WardenHandler.state (handler n) = WardenHandler.Stopped \/ node_ok n).

Lemma due_mono us r (P Q : Prop) : (P -> Q) -> due us r P -> due us r Q.
Proof. unfold due. tauto. Qed.

Lemma due_cons u us r (P Q : Prop) :
  (tell r true u = true -> P -> Q) -> (tell r false u = true -> Q) -> due (u :: us) r P -> due us r Q.
Proof.
  unfold due. rewrite !told_cons. intros H1 H2. destruct u as [r'|r']; cbn in *; case_decide; tauto.
Qed.

Lemma due_app us vs r (A : gset FullRangeId) P :
  (r ∈ A -> due us r P) -> r ∈ foldl WardenHandler.follow A vs -> due (us ++ vs) r P.
Proof.
  intros Hd Hr. assert (Ht : told vs r (bool_decide (r ∈ A)) = true)
    by (rewrite told_follow; by apply bool_decide_eq_true_2).
  unfold due. rewrite !told_app. destruct (decide (r ∈ A)) as [Ha|Ha].
  - rewrite bool_decide_true in Ht by done. destruct (Hd Ha) as [->| [-> ?]]; [by left|by right].
  - rewrite bool_decide_false in Ht by done. left. by eapply told_mono, Ht.
Qed.

Lemma follow_known us (A : gset FullRangeId) :
  (forall r, r ∈ A -> known r) -> (forall u, u ∈ us -> known (update_range u)) ->
  forall r, r ∈ foldl WardenHandler.follow A us -> known r.
Proof.
  revert A; induction us as [|u us IH]; intros A HA Hus; cbn; [done|]. apply IH.
  - assert (Hu : known (update_range u)) by (apply Hus; by left). intros r Hr.
    destruct u; cbn in *; [apply elem_of_union in Hr as [->%elem_of_singleton|?]|
      apply elem_of_difference in Hr as [? _]]; auto.
  - intros u' Hu'. apply Hus. by right.
Qed.

Lemma inv_handler n us h :
  WardenHandler.step parse_uuid (handler n) us h -> (forall u, u ∈ us -> known (update_range u)) ->
  node_inv n -> node_inv (handler_event h us n).
Proof.
  intros Hs Hus (Hok & [Hts Htl] & Hn). destruct (handler_step_tracks _ _ _ Hs Hok) as (Hok' & Hf & Hst).
  split; [done|]. split; [done|]. destruct Hn as [?|[HA HU HL Hin Hout]]; [by left; apply Hst|right].
  assert (HA' : assigned (handler_event h us n) = foldl WardenHandler.follow (assigned n) us) by done.
  assert (HP : pending (handler_event h us n) = pending n ++ us) by (unfold pending; cbn; by case_match).
  constructor; rewrite ?HA', ?HP; cbn; try done.
  - intros r. by apply follow_known.
  - intros u [?|?]%elem_of_app; auto.
  - intros r Hr. apply due_app, Hin, Hr.
  - intros r Hr. rewrite told_app. intros Hr'.
    assert (Ht : told us r (bool_decide (r ∈ assigned n)) = false)
      by (rewrite told_follow; by apply bool_decide_eq_false_2).
    revert Ht. apply told_anti. intros Hq. apply bool_decide_eq_true.
    destruct (decide (r ∈ assigned n)) as [|Hna]; [done|].
    discriminate (eq_trans (eq_sym Hq) (Hout r Hr Hna)).
Qed.

(** an update that is done: what is left of it in the table *)
Lemma inv_received n u sv q l ts :
  let id := update_range u in
  let n' := received id sv q l ts n in
  pending n = u :: q -> pending n' = q -> warden_handler sv = warden_handler (server n) -> tasks_ok n' ->
  (forall rid, is_Some (loaded_ranges sv !! rid) -> is_Some (loaded_ranges (server n) !! rid)) ->
  (forall r, range_id r <> range_id id -> covered r n -> covered r n') ->
  match u with
  | WardenHandler.LoadRange _ => covered id n'
  | WardenHandler.UnloadRange _ => ~ loaded id sv
  end -> node_inv n -> node_inv n'.
Proof.
  intros id n' Hp Hp' Hh Hts Htab Hcov Hu (Hok & _ & Hn). unfold node_inv, handler. cbn. rewrite Hh.
  split; [done|]. split; [done|]. destruct Hn as [?|[HA HU HL Hin Hout]]; [by left|right].
  assert (Ha : assigned n' = assigned n) by (unfold assigned, handler; cbn; by rewrite Hh).
  rewrite Hp in *. assert (Hid : known id) by (apply (HU u); by left).
  constructor; rewrite ?Ha, ?Hp'; cbn; try done.
  - intros u' Hu'. apply HU. by right.
  - intros rid [Hl|?]%Htab%HL; [|by right]. destruct (decide (rid = range_id id)) as [->|];
      [right; by exists id|left; set_solver].
  - intros r Hr Hra. destruct (decide (r = id)) as [->|Hne].
    + eapply due_cons; [..|by apply Hin]; subst id; destruct u; cbn in *; rewrite ?decide_True by done; done.
    + assert (range_id r <> range_id id) by (intros ?; by apply Hne, known_inj).
      eapply due_cons; [..|by apply Hin]; [auto|]. subst id; destruct u; cbn in *; by rewrite decide_False.
  - intros r Hr Hra. specialize (Hout r Hr Hra). rewrite told_cons in Hout. revert Hout. apply told_anti.
    rewrite bool_decide_eq_true. intros [Hl Hnl]. destruct (decide (r = id)) as [->|Hne].
    + subst id; destruct u; cbn in *; by rewrite decide_True.
    + assert (range_id r <> range_id id) by (intros ?; by apply Hne, known_inj).
      assert (Hb : loaded r (server n) /\ range_id r ∉ late n) by (split; [by apply Htab|set_solver]).
      subst id; destruct u; cbn in *; rewrite decide_False by done; by apply bool_decide_eq_true_2.
Qed.

(** an action of a task *)
Lemma inv_acted n l1 f l2 sv t :
  tasks n = l1 ++ Act f :: l2 -> f (server n) = Some (sv, t) -> node_inv n ->
  node_inv (acted sv (l1 ++ t :: l2) n).
Proof.
  intros Ht Ef (Hok & [Hts Htl] & Hn).
  destruct (always_act _ _ _ _ _ (Hts (Act f) ltac:(rewrite Ht; apply elem_of_middle_eq)) Ef) as [Hh Hal].
  unfold same_handler in Hh. unfold node_inv, handler. cbn. rewrite Hh.
  split; [done|]. split.
  { split; [|done]. cbn. intros t'. rewrite elem_of_app, elem_of_cons. intros [?|[->|?]]; [|done|];
      apply Hts; rewrite Ht; set_solver. }
  destruct (decide (WardenHandler.state (handler n) = WardenHandler.Stopped)) as [|Hns]; [by left|].
  destruct Hn as [?|[HA HU HL Hin Hout]]; [by left|right].
  assert (Ha : assigned (acted sv (l1 ++ t :: l2) n) = assigned n) by (unfold assigned, handler; cbn; by rewrite Hh).
  constructor; rewrite ?Ha; try done.
  - cbn. intros rid Hl%elem_of_dom. destruct (decide (rid ∈ dom (loaded_ranges (server n)))) as [Ho|Ho].
    + apply elem_of_dom, HL in Ho as [?|?]; [left|by right]. set_solver.
    + destruct (decide (rid ∈ (set_map range_id (assigned n) : gset Uuid))) as [(r & -> & Hr)%elem_of_map|Hr].
      * right. exists r. split; [by apply HA|done].
      * left. set_solver.
  - intros r Hr Hra. eapply due_mono; [|by apply Hin]. unfold covered, loaded. cbn. rewrite <- !elem_of_dom.
    destruct (decide (range_id r ∈ dom (loaded_ranges sv))) as [|Hd]; [by left|].
    intros [?|[?|(t' & Ht' & Hlt)]]; [right; left; set_solver..|].
    rewrite Ht, elem_of_app, elem_of_cons in Ht'. right; right.
    destruct Ht' as [?|[->|?]]; [exists t'; set_solver| |exists t'; set_solver].
    assert (Hia : is_assigned r (server n)).
    { unfold is_assigned. change (warden_handler (server n)) with (handler n).
      rewrite is_assigned_ok by done. by apply bool_decide_eq_true_2. }
    specialize (Hlt (server n) Hia). rewrite Ef in Hlt. destruct Hlt as [Hl|Hl].
    + by apply elem_of_dom in Hl.
    + exists t. split; [apply elem_of_middle_eq|done].
  - intros r Hr Hra. specialize (Hout r Hr Hra). revert Hout. apply told_anti.
    rewrite !bool_decide_eq_true. unfold loaded. cbn. rewrite <- !elem_of_dom. intros [Hl Hnl].
    assert (Hni : range_id r ∉ (set_map range_id (assigned n) : gset Uuid)).
    { intros (r' & E & Hr')%elem_of_map. by rewrite (known_inj r r') in Hra by auto. }
    split; [|set_solver]. destruct (decide (range_id r ∈ dom (loaded_ranges (server n)))); [done|set_solver].
Qed.

(** an action of the loop on the manager that it unloads *)
Lemma inv_unloading n f sv t :
  loop n = Unloading (Act f) -> f (server n) = Some (sv, t) -> node_inv n ->
  node_inv (mkNode sv (updates n) (Unloading t) (tasks n) (late n) (evicted n)).
Proof.
  intros Hl Ef (Hok & [Hts Htl] & Hn). destruct (always_act _ _ _ _ _ (Htl _ Hl) Ef) as [[Hh Htab] Hal].
  unfold node_inv, handler. cbn. rewrite Hh. split; [done|]. split; [split; cbn; [done|by intros ? [= <-]]|].
  destruct Hn as [?|[HA HU HL Hin Hout]]; [by left|right].
  assert (Hp : pending n = updates n) by (unfold pending; by rewrite Hl).
  rewrite Hp in *. constructor; unfold assigned, handler, pending; cbn; rewrite ?Hh, ?Htab; try done.
  - intros r Hr Hra. eapply due_mono; [|by apply Hin]. unfold covered, loaded. cbn. by rewrite Htab.
  - intros r Hr Hra. rewrite <- (Hout r Hr Hra). f_equal. apply bool_decide_ext. unfold loaded. by rewrite Htab.
Qed.

(** a step that neither touches the server nor ends an update *)
Lemma node_inv_same n n' :
  server n' = server n -> pending n' = pending n -> late n' = late n -> evicted n' = evicted n ->
  (forall t, t ∈ tasks n -> t ∈ tasks n') -> tasks_ok n' -> node_inv n -> node_inv n'.
Proof.
  intros Es Ep El Ee Ht Hts (Hok & _ & Hn). unfold node_inv, handler. rewrite Es. split; [done|]. split; [done|].
  destruct Hn as [?|[HA HU HL Hin Hout]]; [by left|right].
  constructor; unfold assigned, handler; rewrite ?Es, ?Ep, ?El; try done.
  intros r Hr Hra. eapply due_mono; [|by apply Hin]. unfold covered. rewrite Es, Ee. naive_solver.
Qed.

Lemma inv_background n n' : background_step n n' -> node_inv n -> node_inv n'.
Proof.
  intros Hb Hi. pose proof Hi as (_ & Hts & _).
  destruct Hb as [n id q Hl Hu|n id q Hl Hu|n id f sv t Hl Hf Ef|n f sv t Hl Ef|n Hl|n l1 f l2 sv t Ht Ef].
  - apply (inv_received n (WardenHandler.LoadRange id)); unfold pending; cbn; rewrite ?Hl, ?Hu; try done.
    + destruct Hts as [Hts _]. split; cbn; [|done].
      intros t' [?| ->%list_elem_of_singleton]%elem_of_app; [auto|]. apply always_ignore, handler_load.
    + intros r Hne [?|[?|(t & Ht & Hlt)]]; [by left|right; left; cbn; set_solver|right; right].
      exists t. cbn. set_solver.
    + right; right. exists (ignore (load_job id)). split; [cbn; set_solver|apply load_loading].
  - apply (node_inv_same n); try done.
    + unfold pending. cbn. by rewrite Hl, Hu.
    + destruct Hts as [Hts _]. by split.
  - unfold unload_job in Hf. injection Hf as <-. injection Ef as <- <-.
    apply (inv_received n (WardenHandler.UnloadRange id)); unfold pending; cbn; rewrite ?Hl; try done.
    + destruct Hts as [Hts _]. split; cbn; [done|]. intros t [= <-].
      destruct (loaded_ranges (server n) !! range_id id); [apply table_manager|done].
    + intros rid. rewrite lookup_delete_is_Some. tauto.
    + intros r Hne [Hr|[?|(t & Ht & Hlt)]]; [left|right; left; cbn; set_solver|right; right].
      * unfold loaded. cbn. by rewrite lookup_delete_ne.
      * by exists t.
    + unfold loaded. cbn. rewrite lookup_delete_eq. by intros [].
  - by eapply inv_unloading.
  - apply (node_inv_same n); try done.
    + unfold pending. cbn. by rewrite Hl.
    + destruct Hts as [Hts _]. by split.
  - by eapply inv_acted.
Qed.

Lemma inv_local n n' : local_step n n' -> node_inv n -> node_inv n'.
Proof.
  intros Hs Hi. pose proof Hi as (Hok & [Hts Htl] & _).
  assert (Hsp : forall t, always same_handler t -> node_inv (spawn t n)).
  { intros t Ht. apply (node_inv_same n); [done..| | |done].
    { intros t' Ht'. apply elem_of_app. by left. }
    split; cbn; [|done]. intros t' [?| ->%list_elem_of_singleton]%elem_of_app; auto. }
  destruct Hs as [n n' Hb|n Hl|n Hl Hu _|order n now msg|n id].
  - by eapply inv_background.
  - split; [|split; [by split|left]].
    + unfold handler_ok, cancel_loop, handler, WardenHandler.stop; cbn. by case_match.
    + unfold cancel_loop, handler, WardenHandler.stop in *; cbn. by case_match.
  - apply (node_inv_same n); try done. unfold pending. cbn. by rewrite Hl.
  - apply Hsp, always_ignore, handler_message.
  - apply Hsp, always_ignore, handler_load.
Qed.

Lemma inv_node n : rtc node_step new_node n -> node_inv n.
Proof.
  revert n. apply rtc_ind_r.
  - split; [done|]. split; [split; cbn; [by intros t ?%elem_of_nil|done]|right]. constructor; cbn; try done.
    + by intros u ?%elem_of_nil.
    + by intros rid [].
  - intros n n' _ [m m' Hl|m us h Hs Hus]; [by apply inv_local|by apply inv_handler].
Qed.

Lemma told_loaded us r : told us r false = true -> WardenHandler.LoadRange r ∈ us.
Proof.
  induction us as [|u us IH] using rev_ind; [done|]. rewrite told_app, elem_of_app. cbn.
  destruct u as [r'|r']; cbn; unfold told at 1; cbn; case_decide; subst; try done.
  - right. by left.
  - intros ?%IH. by left.
  - intros ?%IH. by left.
Qed.

Lemma told_unloaded us r : told us r true = false -> WardenHandler.UnloadRange r ∈ us.
Proof.
  induction us as [|u us IH] using rev_ind; [done|]. rewrite told_app, elem_of_app. cbn.
  destruct u as [r'|r']; cbn; unfold told at 1; cbn; case_decide; subst; try done.
  - intros ?%IH. by left.
  - right. by left.
  - intros ?%IH. by left.
Qed.

Lemma due_load us r P : due us r P -> P \/ WardenHandler.LoadRange r ∈ us.
Proof. intros [?%told_loaded|[_ ?]]; auto. Qed.

(** a range in the table, and one that is assigned *)
Lemma loaded_assigned n r :
  node_ok n -> known r -> loaded r (server n) ->
  r ∈ assigned n \/ WardenHandler.UnloadRange r ∈ pending n \/ range_id r ∈ late n.
Proof.
  intros Hok Hr Hl. destruct (decide (r ∈ assigned n)) as [|Hn]; [by left|right].
  destruct (decide (range_id r ∈ late n)) as [|Hnl]; [by right|left].
  apply told_unloaded. pose proof (ok_out _ Hok r Hr Hn) as Ho. by rewrite bool_decide_true in Ho.
Qed.

Lemma assigned_covered n r :
  node_ok n -> r ∈ assigned n -> covered r n \/ WardenHandler.LoadRange r ∈ pending n.
Proof. intros Hok Hr. apply due_load, Hok; [|done]. by apply Hok. Qed.

(** the table of a node that has caught up *)
Lemma settled_loaded n rid :
  node_ok n -> settled n -> is_Some (loaded_ranges (server n) !! rid) -> rid ∉ late n ->
  exists r, r ∈ assigned n /\ range_id r = rid.
Proof.
  intros Hok [Hp _] Hl Hnl. destruct (ok_loaded _ Hok rid Hl) as [?|(r & Hr & <-)]; [done|].
  exists r. split; [|done]. destruct (loaded_assigned n r Hok Hr Hl) as [?|[Hu|?]]; [done| |done].
  rewrite Hp in Hu. by apply elem_of_nil in Hu.
Qed.

Lemma settled_assigned n r :
  node_ok n -> settled n -> r ∈ assigned n -> range_id r ∉ evicted n -> loaded r (server n).
Proof.
  intros Hok [Hp Hs] Hr Hne. destruct (assigned_covered n r Hok Hr) as [[?|[?|(t & Ht & Hl)]]|Hu]; [done..| |].
  - by destruct (Hs r t Ht).
  - rewrite Hp in Hu. by apply elem_of_nil in Hu.
Qed.

(** ** The work that is left *)

Definition loop_rank (l : Loop) : nat :=
  match l with Removing _ => 2 | Unloading _ => 1 | _ => 0 end.
Definition backlog (n : Node) : nat := 3 * length (updates n) + loop_rank (loop n).
Definition running (n : Node) : list (Task (Server R) unit) :=
  match loop n with Unloading t => t | _ => Done tt end :: tasks n.

Lemma background_backlog n n' :
  background_step n n' ->
  backlog n' < backlog n \/ (backlog n' = backlog n /\ pool_sub (running n') (running n)).
Proof.
  unfold backlog, running.
  destruct 1 as [n id q Hl Hu|n id q Hl Hu|n id f sv t Hl _ _|n f sv t Hl Ef|n Hl|n l1 f l2 sv t Ht Ef]; cbn;
    rewrite ?Hl, ?Hu; cbn; [left; lia..| |left; lia|].
  - right. split; [done|]. exists [], (Act f), t, (tasks n). split_and!; [done..|]. by exists f, (server n), sv.
  - right. split; [done|]. rewrite Ht. eexists (_ :: l1), (Act f), t, l2. split_and!; [done..|].
    by exists f, (server n), sv.
Qed.

(** ** Properties *)


(** *** The warden and its servers *)

Context (print_uuid : Uuid -> string).
Context (parse_print_uuid : forall u, parse_uuid (print_uuid u) = Some u).

(** the message of [get_assignment_update] *)
Definition assignment_message (u : Z * list (KeyspaceId * Uuid)) : WardenHandler.ProtoUpdate :=
  WardenHandler.FullAssignment u.1
    ((fun p => WardenHandler.mkProtoRangeId (print_uuid (keyspace_uuid p.1)) (print_uuid p.2)) <$> u.2).

Definition full_id (r : Warden.RangeInfo) : FullRangeId :=
  mkFullRangeId (Warden.range_keyspace_id r) (Warden.range_info_id r).

(** a node that has received the assignment of [version] for [host], and none
    since *)
Definition informed (st : Warden.State) (version : Z) (host : Warden.HostInfo) (n : Node) : Prop :=
  exists (order : HashOrder) n0 u,
    rtc node_step new_node n0 /\ WardenHandler.task (handler n0) = WardenHandler.Connected /\
    Warden.get_assignment_update host version st = Some u /\
    let '(h, us) := WardenHandler.message parse_uuid (Some (assignment_message u)) (handler n0) in
    (forall u, u ∈ us -> known (update_range u)) /\ rtc local_step (handler_event h us n0) n.

Lemma background_assigned n n' :
  tasks_ok n -> background_step n n' -> assigned n' = assigned n.
Proof.
  intros [Hts Htl] Hb. unfold assigned, handler.
  destruct Hb as [n id q Hl Hu|n id q Hl Hu|n id f sv t Hl Hf Ef|n f sv t Hl Ef|n Hl|n l1 f l2 sv t Ht Ef];
    cbn; try done.
  - unfold unload_job in Hf. injection Hf as <-. by injection Ef as <- <-.
  - by destruct (always_act _ _ _ _ _ (Htl _ Hl) Ef) as [[-> _] _].
  - destruct (always_act _ _ _ _ _ (Hts (Act f) ltac:(rewrite Ht; apply elem_of_middle_eq)) Ef) as [Hh _].
    by rewrite Hh.
Qed.

Lemma local_assigned n n' : tasks_ok n -> local_step n n' -> assigned n' = assigned n.
Proof.
  intros Hts Hs. destruct Hs as [n n' Hb|n _|n _ _ _|order n now msg|n id]; try done;
    [by apply background_assigned|].
  unfold assigned, handler; cbn. unfold WardenHandler.stop. by case_match.
Qed.

Lemma local_steps n n' :
  node_inv n -> rtc local_step n n' -> rtc node_step n n' /\ assigned n' = assigned n.
Proof.
  intros Hi Hr. induction Hr as [n|n1 n2 n3 H12 _ IH]; [done|].
  destruct IH as [IH IHa]; [by eapply inv_local|].
  split; [eapply rtc_l; [by apply node_local|done]|].
  rewrite IHa. apply (local_assigned n1); [apply Hi|done].
Qed.

Lemma informed_assigned st version host n :
  informed st version host n ->
  rtc node_step new_node n /\ exists l, Warden.range_assignments st !! version = Some l /\
  assigned n = list_to_set ((fun a => full_id (Warden.range a)) <$>
                 filter (fun a => Warden.assignee a = Warden.name (Warden.identity host)) l).
Proof.
  intros (order & n0 & u & Hr & Ht & Hu & Hm).
  assert (Hstep := WardenHandler.step_message parse_uuid order (Some (assignment_message u)) (handler n0)).
  unfold Warden.get_assignment_update in Hu.
  destruct (Warden.range_assignments st !! version) as [l|]; [|done]. injection Hu as <-.
  destruct (WardenHandler.message _ _ _) as [h us] eqn:Em. destruct Hm as [Hk Hl].
  assert (Hi : node_inv (handler_event h us n0)) by (apply inv_handler; [done..|by apply inv_node]).
  destruct (local_steps _ _ Hi Hl) as [Hl' Ha]. split.
  { transitivity n0; [exact Hr|]. eapply rtc_l; [exact (node_handler _ _ _ Hstep Hk)|exact Hl']. }
  exists l. split; [done|]. rewrite Ha. unfold assigned, handler. cbn. revert Em.
  unfold WardenHandler.message. rewrite Ht. cbn. rewrite <- list_fmap_compose.
  match goal with |- context [mapM ?f (?g <$> ?l)] => assert (mapM f (g <$> l) =
    Some ((fun a => full_id (Warden.range a)) <$> l)) as -> end.
  { apply mapM_Some, Forall2_fmap_2, Forall_Forall2_diag, Forall_true. intros a.
    unfold WardenHandler.full_range_id_from_proto, full_id. cbn. rewrite !parse_print_uuid.
    by destruct (Warden.range_keyspace_id (Warden.range a)). }
  by intros [= <- _].
Qed.

(** the ranges that the warden gives to a host *)
Definition given (st : Warden.State) (v : Z) (host : Warden.HostInfo) (rid : Uuid) : Prop :=
  exists a, a ∈ default [] (Warden.range_assignments st !! v) /\
    Warden.assignee a = Warden.name (Warden.identity host) /\
    Warden.range_info_id (Warden.range a) = rid.

Lemma informed_given st v host n rid :
  informed st v host n -> given st v host rid <-> exists r, r ∈ assigned n /\ range_id r = rid.
Proof.
  intros [_ (l & Hl & ->)]%informed_assigned. unfold given. rewrite Hl. cbn.
  setoid_rewrite elem_of_list_to_set. setoid_rewrite list_elem_of_fmap. setoid_rewrite list_elem_of_filter. split.
  - intros (a & Hin & Ha & <-). exists (full_id (Warden.range a)). naive_solver.
  - intros (r & (a & -> & Ha & Hin) & <-). by exists a.
Qed.

(** no range is given to two hosts *)
Lemma given_once t c host1 host2 rid :
  rtc Warden.step (Warden.init t) c -> let st := Warden.st c in
  given st (Warden.current_version st) host1 rid -> given st (Warden.current_version st) host2 rid ->
  Warden.name (Warden.identity host1) = Warden.name (Warden.identity host2).
Proof.
  intros Hw st (a & Ha & Hna & Hr) (b & Hb & Hnb & Hr').
  assert (Hnd := Warden.current_ids_distinct t c Hw). unfold Warden.assigned_now in Hnd.
  fold st in Hnd. rewrite <- list_fmap_compose in Hnd.
  assert (a = b) as ->; [|congruence].
  apply list_elem_of_lookup in Ha as [i Hi], Hb as [j Hj].
  assert (i = j) as ->; [|congruence]. eapply NoDup_lookup; [exact Hnd|..];
    rewrite list_lookup_fmap, ?Hi, ?Hj; cbn; by rewrite ?Hr, ?Hr'.
Qed.

End Nodes.

(** ** Witnesses: servers whose managers only load and unload *)

#[local] Instance up_ops : RangeOps Toy := toy_ops false.
#[local] Existing Instance whole_jobs.
#[local] Existing Instance element_order.

Definition sample_known (r : FullRangeId) : Prop := keyspace_id r = mkKeyspaceId 1.

Lemma sample_known_inj r r' :
  sample_known r -> sample_known r' -> range_id r = range_id r' -> r = r'.
Proof. destruct r, r'. unfold sample_known. cbn. congruence. Qed.

Notation sample_step := (node_step byte_swap byte_swap Universe.unary_parse sample_known).

(** a server that has registered with its warden *)
Definition registered : Node (R := Toy) :=
  handler_event (WardenHandler.connect (WardenHandler.start true WardenHandler.new).1) []
    (handler_event (WardenHandler.start true WardenHandler.new).1 [] new_node).

Lemma registered_steps : rtc sample_step new_node registered.
Proof.
  eapply rtc_l; [apply (node_handler _ _ _ _ new_node [] _ (WardenHandler.step_start _ true _)); by intros ? ?%elem_of_nil|].
  apply rtc_once, node_handler; [apply WardenHandler.step_connect|by intros ? ?%elem_of_nil].
Qed.

(** the node after a message of its warden *)
Definition after_message (m : WardenHandler.ProtoUpdate) (n : Node (R := Toy)) : Node :=
  let '(h, us) := WardenHandler.message Universe.unary_parse (Some m) (handler n) in handler_event h us n.

(** the first task that can act *)
Fixpoint act_first (sv : Server Toy) (ts : list (Task (Server Toy) unit))
    : option (Server Toy * list (Task (Server Toy) unit)) :=
  match ts with
  | [] => None
  | Done a :: ts' => p ← act_first sv ts'; Some (p.1, Done a :: p.2)
  | Act f :: ts' => match f sv with
                    | Some (sv', t) => Some (sv', t :: ts')
                    | None => p ← act_first sv ts'; Some (p.1, Act f :: p.2)
                    end
  end.

(** a step of the loop, or else of a task *)
Definition turn (n : Node (R := Toy)) : option (Node (R := Toy)) :=
  let task := p ← act_first (server n) (tasks n); Some (acted p.1 p.2 n) in
  match loop n, updates n with
  | Receiving, WardenHandler.LoadRange id :: q =>
      Some (received id (server n) q Receiving (tasks n ++ [ignore (load_job id)]) n)
  | Receiving, WardenHandler.UnloadRange id :: q =>
      Some (mkNode (server n) q (Removing id) (tasks n) (late n) (evicted n))
  | Removing id, _ =>
      match unload_job id with
      | Act f => match f (server n) with
                 | Some (sv, t) => Some (received id sv (updates n) (Unloading t) (tasks n) n)
                 | None => task
                 end
      | Done _ => task
      end
  | Unloading (Act f), _ =>
      match f (server n) with
      | Some (sv, t) => Some (mkNode sv (updates n) (Unloading t) (tasks n) (late n) (evicted n))
      | None => task
      end
  | Unloading (Done _), _ => Some (set_loop Receiving n)
  | _, _ => task
  end.

Lemma act_first_step sv ts sv' ts' :
  act_first sv ts = Some (sv', ts') ->
  exists l1 f l2 t, ts = l1 ++ Act f :: l2 /\ f sv = Some (sv', t) /\ ts' = l1 ++ t :: l2.
Proof.
  revert ts'. induction ts as [|[a|f] ts IH]; intros ts'; cbn; [done|..].
  - destruct (act_first sv ts) as [[sv1 ts1]|] eqn:E; [|done]. cbn. intros [= <- <-].
    destruct (IH ts1 eq_refl) as (l1 & f & l2 & t & -> & Ef & ->). by exists (Done a :: l1), f, l2, t.
  - destruct (f sv) as [[sv1 t]|] eqn:Ef.
    + intros [= <- <-]. by exists [], f, ts, t.
    + destruct (act_first sv ts) as [[sv1 ts1]|] eqn:E; [|done]. cbn. intros [= <- <-].
      destruct (IH ts1 eq_refl) as (l1 & f1 & l2 & t & -> & Ef1 & ->). by exists (Act f :: l1), f1, l2, t.
Qed.

Lemma turn_step n n' : turn n = Some n' -> background_step n n'.
Proof.
  assert (Ht : (p ← act_first (server n) (tasks n); Some (acted p.1 p.2 n)) = Some n' -> background_step n n').
  { destruct (act_first (server n) (tasks n)) as [[sv ts]|] eqn:E; [|done]. cbn. intros [= <-].
    destruct (act_first_step _ _ _ _ E) as (l1 & f & l2 & t & Ets & Ef & ->). by eapply background_task. }
  unfold turn. destruct (loop n) as [|id|[[]|f]|] eqn:El; cbn [unload_job]; try exact Ht.
  - destruct (updates n) as [|[id|id] q] eqn:Eu; [exact Ht|..]; intros [= <-]; by constructor.
  - intros [= <-]. by eapply background_remove.
  - intros [= <-]. by apply background_unloaded.
  - destruct (f (server n)) as [[sv t]|] eqn:Ef; [|exact Ht]. intros [= <-]. by eapply background_unloading.
Qed.

Fixpoint catch_up (fuel : nat) (n : Node (R := Toy)) : Node :=
  match fuel with
  | O => n
  | S fuel' => match turn n with Some n' => catch_up fuel' n' | None => n end
  end.

Lemma catch_up_steps fuel n : rtc (local_step byte_swap byte_swap) n (catch_up fuel n).
Proof.
  revert n; induction fuel as [|fuel IH]; intros n; [apply rtc_refl|]. cbn.
  destruct (turn n) as [n'|] eqn:E; [|apply rtc_refl].
  eapply rtc_l; [by apply local_background, turn_step|apply IH].
Qed.

Definition host_message (host : string) : WardenHandler.ProtoUpdate :=
  let st := Warden.st Warden.sample_installed in
  match Warden.get_assignment_update (Warden.sample_host host) (Warden.current_version st) st with
  | Some u => assignment_message Universe.unary_print u
  | None => WardenHandler.FullAssignment 0 []
  end.

Definition host_node (host : string) : Node (R := Toy) :=
  catch_up 60 (after_message (host_message host) registered).

Lemma host_node_informed host :
  host ∈ ["a"; "b"] ->
  let st := Warden.st Warden.sample_installed in
  informed byte_swap byte_swap Universe.unary_parse sample_known Universe.unary_print
    st (Warden.current_version st) (Warden.sample_host host) (host_node host).
Proof.
  intros Hh. cbv zeta. unfold host_node, after_message.
  assert (Hk : Forall (fun u => keyspace_id (update_range u) = mkKeyspaceId 1)
    (WardenHandler.message Universe.unary_parse (Some (host_message host)) (handler registered)).2).
  { apply elem_of_cons in Hh as [->|[->|[]%elem_of_nil]%elem_of_cons]; by_decision. }
  assert (Hs : is_Some (Warden.get_assignment_update (Warden.sample_host host)
    (Warden.current_version (Warden.st Warden.sample_installed)) (Warden.st Warden.sample_installed))).
  { apply elem_of_cons in Hh as [->|[->|[]%elem_of_nil]%elem_of_cons]; by_decision. }
  destruct Hs as [u Hu]. unfold host_message in *. rewrite Hu in *.
  exists element_order, registered, u. split; [exact registered_steps|]. split; [done|].
  split; [exact Hu|]. destruct (WardenHandler.message _ _ _) as [h us].
  split; [by apply Forall_forall|]. apply catch_up_steps.
Qed.

Lemma host_node_settled host : host ∈ ["a"; "b"] -> settled (host_node host).
Proof.
  intros Hh. assert (Hp : pending (host_node host) = [] /\ forall t, t ∈ tasks (host_node host) -> t = Done tt).
  { apply elem_of_cons in Hh as [->|[->|[]%elem_of_nil]%elem_of_cons]; (split; [vm_compute; reflexivity|]);
      intros t Ht; vm_compute in Ht; repeat (apply elem_of_cons in Ht as [->|Ht]; [reflexivity|]);
      by apply elem_of_nil in Ht. }
  destruct Hp as [Hp Ht]. split; [done|]. intros r t ->%Ht. cbn. tauto.
Qed.



(** The first exception is reached: the load has found its range assigned, the
    range is taken away and unloaded, and the load creates the manager. *)
Definition first_message : WardenHandler.ProtoUpdate :=
  WardenHandler.FullAssignment 1 [WardenHandler.mkProtoRangeId "k" "r"].
Definition last_message : WardenHandler.ProtoUpdate := WardenHandler.FullAssignment 2 [].
Definition checked_node : Node (R := Toy) := catch_up 3 (after_message first_message registered).
Definition late_node : Node (R := Toy) := catch_up 60 (after_message last_message checked_node).

Lemma after_message_step m n :
  Forall (fun u => keyspace_id (update_range u) = mkKeyspaceId 1)
    (WardenHandler.message Universe.unary_parse (Some m) (handler n)).2 ->
  sample_step n (after_message m n).
Proof.
  unfold after_message. intros Hf.
  assert (Hs := WardenHandler.step_message Universe.unary_parse _ (Some m) (handler n)).
  destruct (WardenHandler.message _ _ _) as [h us]. apply node_handler; [exact Hs|by apply Forall_forall].
Qed.

Lemma late_node_reached :
  rtc sample_step new_node late_node /\ pending late_node = [] /\ tasks late_node = [Done tt] /\
  dom (loaded_ranges (server late_node)) = {[1%N]} /\ assigned late_node = ∅ /\ late late_node = {[1%N]}.
Proof.
  assert (Hc : forall fuel n, rtc sample_step n (catch_up fuel n)).
  { intros fuel n. eapply rtc_subrel, catch_up_steps. intros ? ?. apply node_local. }
  split; [|split_and!; vm_compute; reflexivity].
  transitivity registered; [exact registered_steps|].
  apply (rtc_l _ _ (after_message first_message registered)); [apply after_message_step; by_decision|].
  transitivity checked_node; [apply Hc|].
  apply (rtc_l _ _ (after_message last_message checked_node)); [apply after_message_step; by_decision|apply Hc].
Qed.

End Assignment.
