(* ===== verification/LateLoad.v ===== *)
(** * A load that outlives its assignment

    The warden handler of [WardenHandler.v], the loop of
    [src/rangeserver/src/server.rs] and the server of [RangeServer.v], with the
    loads of the loop in two parts: one up to the check of the assignment, one
    from the lock under which the manager is created. Everything else a node does
    is one step here; [Assignment.v] has the node with all its tasks
    interrupted. *)

From stdpp Require Import base tactics list numbers option gmap sets relations strings.
From S2P Require Import Prelude Common RsError Universe WardenHandler RangeServer.

Module LateLoad.
Import Common RsError RangeServer.
Local Open Scope sangria_scope.

Section Nodes.
Context `{RangeOps R}.
(** [Uuid::to_u128_le] and [Uuid::from_u128_le], and [Uuid::from_str], of the
    crate [uuid] *)
Context (to_u128_le from_u128_le : Uuid -> N) (parse_uuid : string -> option Uuid).

Record Node := mkNode {
  server : Server R;
  updates : list WardenHandler.WardenUpdate;   (** the channel to the loop *)
  looping : bool;                              (** the loop has not returned *)
  spawned : list FullRangeId;                  (** loads that have not begun *)
  checked : list FullRangeId                   (** loads that have found their range assigned *)
}.

Definition handler (n : Node) : WardenHandler.WardenHandler := warden_handler (server n).
Definition set_handler (h : WardenHandler.WardenHandler) (sv : Server R) : Server R :=
  mkServer h (loaded_ranges sv) (managers sv) (transaction_table sv).
Definition set_server (sv : Server R) (n : Node) : Node :=
  mkNode sv (updates n) (looping n) (spawned n) (checked n).

(** [Server::new] *)
Definition new_node : Node := mkNode RangeServer.new [] true [] [].

(** one round of [warden_update_loop] with an update: a load is spawned, an
    unload is awaited *)
Definition receive_update (u : WardenHandler.WardenUpdate) (q : list WardenHandler.WardenUpdate)
    (n : Node) : Node :=
  match u with
  | WardenHandler.LoadRange id => mkNode (server n) q (looping n) (spawned n ++ [id]) (checked n)
  | WardenHandler.UnloadRange id =>
      mkNode (maybe_unload_range id (server n)) q (looping n) (spawned n) (checked n)
  end.

(** the round in which the token is cancelled *)
Definition cancel_loop (n : Node) : Node :=
  mkNode (set_handler (WardenHandler.stop (handler n)) (server n)) (updates n) false (spawned n)
    (checked n).

(** what a handler does, and the updates it sends *)
Definition handler_event (h : WardenHandler.WardenHandler) (us : list WardenHandler.WardenUpdate)
    (n : Node) : Node :=
  mkNode (set_handler h (server n)) (updates n ++ us) (looping n) (spawned n) (checked n).

Definition update_range (u : WardenHandler.WardenUpdate) : FullRangeId :=
  match u with WardenHandler.LoadRange r | WardenHandler.UnloadRange r => r end.

(** the ranges that exist; an id belongs to one of them *)
Context (known : FullRangeId -> Prop).

(** what the node does on its own: a round of the loop, a spawned load that runs
    to its end *)
Inductive background_step : Node -> Node -> Prop :=
| background_update n u q :
    looping n = true -> updates n = u :: q -> background_step n (receive_update u q n)
| background_load n l1 id l2 :
    spawned n = l1 ++ id :: l2 ->
    background_step n (mkNode (maybe_load_and_get_range id (server n)).1 (updates n) (looping n)
                         (l1 ++ l2) (checked n)).

(** the events of a node, apart from those of its handler *)
Inductive local_step : Node -> Node -> Prop :=
| local_background n n' : background_step n n' -> local_step n n'
| local_cancel n : looping n = true -> local_step n (cancel_loop n)
| local_request (order : HashOrder) n now msg :
    local_step n (set_server (handle_message to_u128_le from_u128_le now msg (server n)).1 n).

Inductive node_step : Node -> Node -> Prop :=
| node_local n n' : local_step n n' -> node_step n n'
| node_handler n us h :
    WardenHandler.step parse_uuid (handler n) us h ->
    (forall u, u ∈ us -> known (update_range u)) ->
    node_step n (handler_event h us n).

(** the part of a load after its check: the range is created, and an error
    cleans up *)
Definition finish_load (id : FullRangeId) (sv : Server R) : Server R :=
  match load_or_create id sv with
  | (sv', Err (Failed _)) => forget_range id sv'
  | (sv', _) => sv'
  end.

(** A load that is interrupted between its check of the assignment and the write
    lock on the table *)
Inductive split_step : Node -> Node -> Prop :=
| split_check n l1 id l2 :
    spawned n = l1 ++ id :: l2 -> loaded_ranges (server n) !! range_id id = None ->
    WardenHandler.is_assigned id (handler n) = true ->
    split_step n (mkNode (server n) (updates n) (looping n) (l1 ++ l2) (checked n ++ [id]))
| split_create n l1 id l2 :
    checked n = l1 ++ id :: l2 ->
    split_step n (mkNode (finish_load id (server n)) (updates n) (looping n) (spawned n) (l1 ++ l2)).

(** the server has a manager for the range *)
Definition loaded (r : FullRangeId) (sv : Server R) : Prop :=
  is_Some (loaded_ranges sv !! range_id r).
#[global] Instance loaded_dec r sv : Decision (loaded r sv).
Proof. unfold loaded. apply _. Defined.

Definition assigned (n : Node) : gset FullRangeId :=
  WardenHandler.assigned_ranges (WardenHandler.shared (handler n)).

(** ** The table of ranges *)

(** a request adds at most ranges that are assigned *)
Record table_grows (sv sv' : Server R) : Prop := {
  grows_handler : warden_handler sv' = warden_handler sv;
  grows_keeps rid : is_Some (loaded_ranges sv !! rid) -> is_Some (loaded_ranges sv' !! rid);
  grows_assigned rid : is_Some (loaded_ranges sv' !! rid) ->
    is_Some (loaded_ranges sv !! rid) \/
    exists id, range_id id = rid /\ WardenHandler.is_assigned id (warden_handler sv) = true
}.

#[global] Instance table_grows_preorder : PreOrder table_grows.
Proof.
  split; [by constructor; auto|]. intros s1 s2 s3 [H1 K1 A1] [H2 K2 A2]. constructor; [congruence|auto|].
  intros rid [?%A1|Ha]%A2; [done|]. right. by rewrite <- H1.
Qed.

Definition grows {A} (m : M (Server R) Outcome A) : Prop := forall sv, table_grows sv (m sv).1.

Lemma grows_then {A B} (m : M (Server R) Outcome A) (k : A -> M (Server R) Outcome B) :
  grows m -> (forall a, grows (k a)) -> grows (m_then m k).
Proof.
  intros Hm Hk sv. specialize (Hm sv). unfold m_then. destruct (m sv) as [sv1 [a|e|]]; [|done..].
  by etransitivity; [|apply Hk].
Qed.

(** what leaves the table as it is *)
Lemma grows_same {A} (m : M (Server R) Outcome A) :
  (forall sv, warden_handler (m sv).1 = warden_handler sv /\ loaded_ranges (m sv).1 = loaded_ranges sv) ->
  grows m.
Proof. intros Hm sv. destruct (Hm sv) as [Hh Hl]. constructor; rewrite ?Hl; auto. Qed.

Lemma grows_call {A} h (op : R -> R * option (result Error A)) : grows (call h op).
Proof.
  apply grows_same. intros sv. unfold call. destruct (managers sv !! h) as [r|]; [|done].
  by destruct (op r).
Qed.

Lemma grows_answer {A B} (m : M (Server R) Outcome A) (ok : A -> B) err : grows m -> grows (answer m ok err).
Proof. intros Hm sv. specialize (Hm sv). unfold answer. by destruct (m sv) as [? [|[]|]]. Qed.

Lemma call_loads h sv :
  let sv' := ((call h r_load ;;; m_ret h) sv).1 in
  warden_handler sv' = warden_handler sv /\ loaded_ranges sv' = loaded_ranges sv.
Proof.
  unfold m_then, call. destruct (managers sv !! h) as [r|]; [|done].
  by destruct (r_load r) as [r' [[[]|?|]|]].
Qed.

(** a range is in the table once it has been created, whatever its load does *)
Lemma create_table id sv :
  let sv' := (load_or_create id sv).1 in
  warden_handler sv' = warden_handler sv /\
  forall rid, is_Some (loaded_ranges sv' !! rid) <-> is_Some (loaded_ranges sv !! rid) \/ rid = range_id id.
Proof.
  cbv zeta. rewrite load_or_create_eq.
  destruct (loaded_ranges sv !! range_id id) as [h|] eqn:Ht.
  - destruct (call_loads h sv) as [-> ->]. split; [done|]. intros rid.
    split; [auto|]. intros [?| ->]; [done|]. by rewrite Ht.
  - cbv zeta. match goal with |- context [(call ?h r_load ;;; _) ?s] => destruct (call_loads h s) as [-> ->] end.
    split; [done|]. intros rid. cbn. destruct (decide (rid = range_id id)) as [->|Hne].
    + rewrite lookup_insert_eq. split; [auto|]. by eexists.
    + rewrite lookup_insert_ne by done. tauto.
Qed.

Lemma load_inner_table id sv :
  let sv' := (maybe_load_and_get_range_inner id sv).1 in
  warden_handler sv' = warden_handler sv /\
  forall rid, is_Some (loaded_ranges sv' !! rid) <-> is_Some (loaded_ranges sv !! rid) \/
    (rid = range_id id /\ WardenHandler.is_assigned id (warden_handler sv) = true).
Proof.
  cbv zeta. rewrite load_inner_eq.
  destruct (loaded_ranges sv !! range_id id) as [h|] eqn:Ht.
  - destruct (call_loads h sv) as [-> ->]. split; [done|]. intros rid.
    split; [auto|]. intros [?|[-> _]]; [done|]. by rewrite Ht.
  - destruct (WardenHandler.is_assigned id (warden_handler sv)).
    + destruct (create_table id sv) as [-> Hl]. split; [done|]. intros rid. rewrite Hl. naive_solver.
    + split; [done|]. intros rid. cbn. naive_solver.
Qed.

(** an error of a load does not take the range out of the table *)
Lemma load_error_stays id sv sv' e :
  maybe_load_and_get_range_inner id sv = (sv', Err (Failed e)) -> forget_range id sv' = sv'.
Proof.
  intros E. destruct (loaded_ranges sv' !! range_id id) as [h|] eqn:Ht; cycle 1.
  { unfold forget_range. by rewrite Ht. }
  assert (Hl : loaded_ranges sv !! range_id id <> None \/
               WardenHandler.is_assigned id (warden_handler sv) = true).
  { destruct (load_inner_table id sv) as [_ Hl]. rewrite E in Hl. cbn in Hl.
    destruct (proj1 (Hl (range_id id))) as [[h' ->]|[_ ->]]; [by rewrite Ht|by left|by right]. }
  assert (exists h r, loaded_ranges sv' !! range_id id = Some h /\ managers sv' !! h = Some r /\
    r_is_unloaded r = true) as (h' & r & Ht' & Hm & Hu).
  { destruct (loaded_ranges sv !! range_id id) as [h0|] eqn:Ht0.
    - rewrite load_inner_eq, Ht0 in E. rename E into Hc.
      destruct (load_known_failed _ _ _ _ _ Ht0 Hc) as (? & r & ?). by exists h0, r.
    - destruct Hl as [?|Ha]; [done|]. by apply (load_failed id sv sv' e). }
  by destruct (unloaded_stays id sv' h' r Ht' Hm Hu) as [-> _].
Qed.

Lemma load_table id sv :
  let sv' := (maybe_load_and_get_range id sv).1 in
  warden_handler sv' = warden_handler sv /\
  forall rid, is_Some (loaded_ranges sv' !! rid) <-> is_Some (loaded_ranges sv !! rid) \/
    (rid = range_id id /\ WardenHandler.is_assigned id (warden_handler sv) = true).
Proof.
  pose proof (load_inner_table id sv) as Ht. unfold maybe_load_and_get_range.
  destruct (maybe_load_and_get_range_inner id sv) as [sv1 [h|[e|]|]] eqn:E; try done.
  cbn. by rewrite (load_error_stays _ _ _ _ E).
Qed.

Lemma grows_load id : grows (maybe_load_and_get_range id).
Proof.
  intros sv. destruct (load_table id sv) as [Hh Hl]. constructor; [done|..]; intros rid; rewrite Hl; [auto|].
  intros [?|[-> Ha]]; [auto|]. right. by exists id.
Qed.

Lemma grows_get_keys tx h keys leader reads deps : grows (get_keys tx h keys leader reads deps).
Proof.
  revert leader reads deps; induction keys as [|[k|] keys IH]; intros leader reads deps; cbn;
    [by apply grows_same..| |by apply grows_same].
  apply grows_then; [apply grows_call|]. intros g. apply IH.
Qed.

Ltac grows :=
  repeat first
    [ apply grows_load | apply grows_call | apply grows_get_keys
    | apply grows_answer | apply grows_then; [|intros ?]
    | case_match ].

(** a step of a request that only looks, or changes the table of transactions *)
Ltac grows_leaf :=
  apply grows_same; intros ?; unfold required, get_transaction_info, maybe_start_transaction,
    m_modify, m_ret, m_fail, m_panic; repeat case_match; done.

Lemma grows_message `{HashOrder} now msg : grows (handle_message to_u128_le from_u128_le now msg).
Proof.
  unfold handle_message, get, prepare, abort, commit, get_inner, prepare_inner, abort_inner, commit_inner,
    request_range.
  grows; grows_leaf.
Qed.

Context (known_inj : forall r r', known r -> known r' -> range_id r = range_id r' -> r = r').

Lemma whole_unload_table id sv rid :
  is_Some (loaded_ranges (maybe_unload_range id sv) !! rid) <->
  is_Some (loaded_ranges sv !! rid) /\ rid <> range_id id.
Proof.
  unfold maybe_unload_range. destruct (loaded_ranges sv !! range_id id) as [h|] eqn:E; cbn.
  - rewrite lookup_delete_is_Some. naive_solver.
  - split; [|tauto]. intros Hs. split; [done|]. intros ->. rewrite E in Hs. by destruct Hs.
Qed.

Lemma whole_assigned n n' : local_step n n' -> assigned n' = assigned n.
Proof.
  unfold assigned, handler.
  destruct 1 as [n n' [n1 [r|r] q _ Hq|n1 l1 id l2 Hsp]|n _|order n now msg]; cbn.
  - done.
  - unfold maybe_unload_range. by case_match.
  - by destruct (load_table id (server n1)) as [-> _].
  - unfold WardenHandler.stop. by case_match.
  - by rewrite (grows_handler _ _ (grows_message now msg (server n))).
Qed.

(** ** A range that is created too late *)

(** what happens to a node while its warden, which sends full assignments, does
    not assign it [r] *)
Inductive late_step (r : FullRangeId) : Node -> Node -> Prop :=
| late_local n n' : local_step n n' -> late_step r n n'
| late_split n n' : split_step n n' -> late_step r n n'
| late_assignment (order : HashOrder) n version ids h us :
    WardenHandler.message parse_uuid (Some (WardenHandler.FullAssignment version ids)) (handler n) = (h, us) ->
    (forall u, u ∈ us -> known (update_range u)) -> r ∉ assigned (handler_event h us n) ->
    late_step r n (handler_event h us n).

(** [r] has a manager that nothing will unload *)
Definition stranded (r : FullRangeId) (n : Node) : Prop :=
  loaded r (server n) /\ r ∉ assigned n /\
  forall r', WardenHandler.UnloadRange r' ∈ updates n -> range_id r' <> range_id r.

Lemma finish_table id sv :
  warden_handler (finish_load id sv) = warden_handler sv /\
  forall rid, is_Some (loaded_ranges (finish_load id sv) !! rid) <->
    is_Some (loaded_ranges sv !! rid) \/ rid = range_id id.
Proof.
  pose proof (create_table id sv) as Hc. unfold finish_load.
  destruct (load_or_create id sv) as [sv1 [h|[e|]|]] eqn:E; try done.
  assert (forget_range id sv1 = sv1) as ->; [|done].
  rewrite load_or_create_eq in E. destruct (loaded_ranges sv !! range_id id) as [h|] eqn:Ht.
  - destruct (load_known_failed _ _ _ _ _ Ht E) as (Ht' & r & Hm & Hu).
    by apply (unloaded_stays id sv1 h r).
  - destruct (load_known_failed _ id _ _ _ (lookup_insert_eq _ _ _) E) as (Ht' & r & Hm & Hu).
    by eapply (unloaded_stays id sv1 _ r).
Qed.

Lemma full_unloads `{HashOrder} version ids h h' us r :
  WardenHandler.message parse_uuid (Some (WardenHandler.FullAssignment version ids)) h = (h', us) ->
  WardenHandler.UnloadRange r ∈ us -> r ∈ WardenHandler.assigned_ranges (WardenHandler.shared h).
Proof.
  unfold WardenHandler.message. destruct (WardenHandler.task h);
    try by intros [= _ <-] ?%elem_of_nil.
  cbn. destruct (mapM _ _); intros [= _ <-]; [|by intros ?%elem_of_nil].
  intros [Hu|Hl]%elem_of_app; [|by apply list_elem_of_fmap in Hl as (? & [=] & _)].
  apply list_elem_of_fmap in Hu as (? & [= <-] & [_ Hin]%list_elem_of_filter).
  by apply hash_iter_elem_of in Hin.
Qed.

Lemma late_step_stranded r n n' : known r -> late_step r n n' -> stranded r n -> stranded r n'.
Proof.
  intros Hr Hstep (Hl & Ha & Hu). destruct Hstep as [n n' Hs|n n' Hs|order n v ids h us Hm Hk Hna].
  - rewrite <- (whole_assigned _ _ Hs) in Ha. split; [|split; [done|]].
    + destruct Hs as [n n' [n1 [r'|r'] q _ Hq|n1 l1 id l2 Hsp]|n _|order n now msg]; cbn; try done.
      * apply whole_unload_table. split; [done|]. apply not_eq_sym, Hu. rewrite Hq. by left.
      * apply (load_table id (server n1)). by left.
      * by apply (grows_keeps _ _ (grows_message now msg (server n))).
    + destruct Hs as [n n' [n1 [r'|r'] q _ Hq|n1 l1 id l2 Hsp]|n _|order n now msg]; cbn; try done;
        intros r0 Hr0; apply Hu; rewrite Hq; by right.
  - destruct Hs as [n l1 id l2 Hsp Ht Hi|n l1 id l2 Hc]; [done|]. unfold stranded, loaded, assigned, handler. cbn.
    destruct (finish_table id (server n)) as [-> Hf]. rewrite Hf. split; [by left|done].
  - split; [done|]. split; [done|]. cbn. intros r' [?|Hin]%elem_of_app; [auto|]. intros Hid.
    rewrite (known_inj r' r) in Hin by (done || apply (Hk _ Hin)). by apply (full_unloads _ _ _ _ _ _ Hm) in Hin.
Qed.

End Nodes.

(** ** Witnesses: servers whose managers only load and unload *)

#[local] Existing Instance toy_ops.
#[local] Instance up_ops : RangeOps Toy := toy_ops false.
#[local] Existing Instance element_order.

Definition sample_known (r : FullRangeId) : Prop := keyspace_id r = mkKeyspaceId 1.

Lemma whole_known_inj r r' :
  sample_known r -> sample_known r' -> range_id r = range_id r' -> r = r'.
Proof. destruct r, r'. unfold sample_known. cbn. congruence. Qed.

Notation sample_step := (node_step byte_swap byte_swap Universe.unary_parse sample_known).

(** a server that has registered with its warden *)
Definition registered : Node (R := Toy) :=
  handler_event (WardenHandler.connect (WardenHandler.start true WardenHandler.new).1) []
    (handler_event (WardenHandler.start true WardenHandler.new).1 [] new_node).

Lemma whole_registered_steps : rtc sample_step new_node registered.
Proof.
  eapply rtc_l; [apply (node_handler _ _ _ _ new_node [] _ (WardenHandler.step_start _ true _)); by intros ? ?%elem_of_nil|].
  apply rtc_once, node_handler; [apply WardenHandler.step_connect|by intros ? ?%elem_of_nil].
Qed.

(** the node after a message of its warden *)
Definition after_message (m : WardenHandler.ProtoUpdate) (n : Node (R := Toy)) : Node :=
  let '(h, us) := WardenHandler.message Universe.unary_parse (Some m) (handler n) in handler_event h us n.

(** the loop and the loads, up to [fuel] rounds *)
Fixpoint catch_up (fuel : nat) (n : Node (R := Toy)) : Node :=
  match fuel, updates n, spawned n with
  | S fuel', u :: q, _ => catch_up fuel' (receive_update u q n)
  | S fuel', [], id :: l =>
      catch_up fuel' (mkNode (maybe_load_and_get_range id (server n)).1 [] (looping n) l (checked n))
  | _, _, _ => n
  end.

Lemma whole_catch_up_steps fuel n :
  looping n = true -> rtc (local_step byte_swap byte_swap) n (catch_up fuel n).
Proof.
  revert n; induction fuel as [|fuel IH]; intros n Hl; [apply rtc_refl|]. cbn.
  destruct (updates n) as [|u q] eqn:Eu.
  - destruct (spawned n) as [|id l] eqn:Es; [apply rtc_refl|].
    eapply rtc_l; [|by apply IH]. apply local_background.
    rewrite <- Eu. by apply (background_load n []).
  - eapply rtc_l; [apply local_background; by apply (background_update n u q)|].
    apply IH. by destruct u.
Qed.


(** the range is assigned, its load finds it assigned, and it is taken away and
    unloaded before the load goes on *)
Definition late_range : FullRangeId := WardenHandler.sample_range 1.
Definition first_message : WardenHandler.ProtoUpdate :=
  WardenHandler.FullAssignment 1 [WardenHandler.mkProtoRangeId "k" "r"].
Definition last_message : WardenHandler.ProtoUpdate := WardenHandler.FullAssignment 2 [].
Definition told_node : Node (R := Toy) := catch_up 1 (after_message first_message registered).
Definition checked_node : Node (R := Toy) :=
  mkNode (server told_node) [] true [] [late_range].
Definition late_node : Node (R := Toy) :=
  catch_up 1 (after_message last_message checked_node).
Definition created_node : Node (R := Toy) :=
  mkNode (finish_load late_range (server late_node)) [] true [] [].

Lemma whole_message_step m n :
  Forall (fun u => keyspace_id (update_range u) = mkKeyspaceId 1)
    (WardenHandler.message Universe.unary_parse (Some m) (handler n)).2 ->
  sample_step n (after_message m n).
Proof.
  unfold after_message. intros Hf.
  assert (Hs := WardenHandler.step_message Universe.unary_parse _ (Some m) (handler n)).
  destruct (WardenHandler.message _ _ _) as [h us]. apply node_handler; [exact Hs|by apply Forall_forall].
Qed.

Lemma catch_up_node fuel n : looping n = true -> rtc sample_step n (catch_up fuel n).
Proof.
  intros Hl. eapply rtc_subrel, whole_catch_up_steps, Hl. intros n1 n2. apply node_local.
Qed.

Lemma split_node_reached :
  rtc (fun n n' => sample_step n n' \/ split_step n n') new_node late_node.
Proof.
  assert (Hn : forall n n', rtc sample_step n n' ->
    rtc (fun n n' => sample_step n n' \/ split_step n n') n n').
  { intros n n'. apply rtc_subrel. by left. }
  transitivity told_node; [apply Hn|].
  { transitivity registered; [exact whole_registered_steps|].
    apply (rtc_l _ _ (after_message first_message registered));
      [apply whole_message_step; by_decision|by apply catch_up_node]. }
  apply (rtc_l _ _ checked_node).
  { right. apply (split_check told_node [] late_range []); vm_compute; reflexivity. }
  apply Hn, (rtc_l _ _ (after_message last_message checked_node));
    [apply whole_message_step; by_decision|by apply catch_up_node].
Qed.


End LateLoad.
