(* ===== verification/Oracle.v ===== *)
(** * The range assignment oracle:
      [src/coordinator-rangeclient/src/range_assignment_oracle.rs]

    The oracle finds the range of a key from what the universe says of the key
    space, with two caches in front of the universe. What it relies on is the
    class [UniverseService], of which the universe of [Universe.v] is an
    instance. A call releases its locks several times; the caches only grow, by
    the steps [fetch] and [resolve] of the calls that run. *)

From stdpp Require Import base tactics list numbers option gmap sets strings relations.
From S2P Require Import Prelude Common Storage Region Universe Warden.

Module Oracle.
Import Common.
Local Open Scope string_scope.

(** what the universe answers for a key space; [None] is an error, which the
    oracle unwraps *)
Class UniverseService (W : Type) : Type := {
  us_info : Keyspace -> W -> option Universe.KeyspaceInfo;
  us_step : W -> W -> Prop;
  us_stable ks w w' i i' :
    us_info ks w = Some i -> rtc us_step w w' -> us_info ks w' = Some i' -> i' = i
}.

Record RangeAssignmentOracle := mkOracle {
  key_to_full_range_id : gmap string FullRangeId;
  keyspace_to_keyspace_info : gmap string Universe.KeyspaceInfo
}.

Definition new : RangeAssignmentOracle := mkOracle ∅ ∅.

(** [encode] of the crate [hex]: a text of hexadecimal digits, in lower case *)
Definition is_hex (a : Ascii.ascii) : bool :=
  let n := Ascii.N_of_ascii a in ((48 <=? n) && (n <? 58) || (97 <=? n) && (n <? 103))%N.
Fixpoint hex_string (s : string) : bool :=
  match s with
  | EmptyString => true
  | String a s' => is_hex a && hex_string s'
  end.

Class HexCrate : Type := {
  hex_encode : Bytes -> string;
  hex_encode_hex b : hex_string (hex_encode b) = true
}.

Definition info_key (ks : Keyspace) : string := namespace ks +:+ ks_name ks.
Definition range_key `{HexCrate} (ks : Keyspace) (key : Bytes) : string := info_key ks +:+ hex_encode key.

Section Operations.
Context `{HexCrate, UniverseService W}.
(** [Uuid::parse_str] of the crate [uuid] *)
Context (parse_uuid : string -> option Uuid).

(** the search among the base ranges *)
Fixpoint find_range (keyspace_id : KeyspaceId) (ranges : list Universe.KeyRange) (key : Bytes)
    : result unit (option FullRangeId) :=
  match ranges with
  | [] => Ok None
  | r :: ranges' =>
      if includes (from_proto (mkProtoKeyRange 0 (Universe.lower_bound_inclusive r)
                                 (Universe.upper_bound_exclusive r))) key then
        match parse_uuid (Universe.base_range_uuid r) with
        | Some u => Ok (Some (mkFullRangeId keyspace_id u))
        | None => Panic
        end
      else find_range keyspace_id ranges' key
  end.

Definition range_of_key (info : Universe.KeyspaceInfo) (key : Bytes)
    : result unit (option FullRangeId) :=
  match parse_uuid (Universe.info_keyspace_id info) with
  | None => Panic
  | Some u => find_range (mkKeyspaceId u) (Universe.info_base_key_ranges info) key
  end.

(** the slow path: the information of the key space is stored *)
Definition fetch (ks : Keyspace) (w : W) (o : RangeAssignmentOracle)
    : RangeAssignmentOracle * bool :=
  match us_info ks w with
  | None => (o, false)
  | Some info =>
      (mkOracle (key_to_full_range_id o) (<[info_key ks := info]> (keyspace_to_keyspace_info o)),
       true)
  end.

(** the end of a call, with the information in the cache *)
Definition resolve (ks : Keyspace) (key : Bytes) (o : RangeAssignmentOracle)
    : RangeAssignmentOracle * result unit (option FullRangeId) :=
  match keyspace_to_keyspace_info o !! info_key ks with
  | None => (o, Panic)
  | Some info =>
      match range_of_key info key with
      | Ok (Some r) =>
          (mkOracle (<[hex_encode key := r]> (key_to_full_range_id o))
             (keyspace_to_keyspace_info o), Ok (Some r))
      | res => (o, res)
      end
  end.

Definition full_range_id_of_key (ks : Keyspace) (key : Bytes) (w : W) (o : RangeAssignmentOracle)
    : RangeAssignmentOracle * result unit (option FullRangeId) :=
  match key_to_full_range_id o !! range_key ks key with
  | Some r => (o, Ok (Some r))
  | None =>
      match keyspace_to_keyspace_info o !! info_key ks with
      | Some _ => resolve ks key o
      | None =>
          match fetch ks w o with
          | (o', true) => resolve ks key o'
          | (o', false) => (o', Panic)
          end
      end
  end.

(** [host_of_range]: the one server of the tests *)
Definition host_of_range (range : FullRangeId) : option Warden.HostInfo :=
  Some (Warden.mkHostInfo
          (Warden.mkHostIdentity "test_server" (Region.mkZone (Region.mkRegion None "test-region") "a"))
          "127.0.0.1:50055" 0).

(** [maybe_refresh_host_of_range] is not implemented *)
Definition maybe_refresh_host_of_range (range : FullRangeId) : result unit unit := Panic.

(** the calls of the key spaces in [used], interleaved, while the universe runs *)
Inductive step (used : Keyspace -> Prop) : RangeAssignmentOracle * W -> RangeAssignmentOracle * W -> Prop :=
| step_fetch ks w o : used ks -> step used (o, w) ((fetch ks w o).1, w)
| step_resolve ks key w o : used ks -> step used (o, w) ((resolve ks key o).1, w)
| step_universe w w' o : us_step w w' -> step used (o, w) (o, w').

(** ** The reference: no caches *)

Definition uncached (ks : Keyspace) (key : Bytes) (w : W) : result unit (option FullRangeId) :=
  match us_info ks w with
  | None => Panic
  | Some info => range_of_key info key
  end.

(** the names of the key spaces cannot be mistaken for one another or for the
    text of a key *)
Definition distinguishable (used : Keyspace -> Prop) : Prop :=
  (forall a b, used a -> used b -> info_key a = info_key b -> a = b) /\
  (forall a, used a -> hex_string (info_key a) = false).

Lemma hex_string_app s t : hex_string (s +:+ t) = hex_string s && hex_string t.
Proof.
  induction s as [|a s IH]; [done|]. change (String a s +:+ t) with (String a (s +:+ t)).
  cbn [hex_string]. by rewrite IH, andb_assoc.
Qed.

(** what the caches hold *)
Record inv (used : Keyspace -> Prop) (o : RangeAssignmentOracle) (w : W) : Prop := {
  inv_keys s r : key_to_full_range_id o !! s = Some r -> hex_string s = true;
  inv_infos s i : keyspace_to_keyspace_info o !! s = Some i ->
    exists ks w0, used ks /\ s = info_key ks /\ us_info ks w0 = Some i /\ rtc us_step w0 w
}.

Lemma inv_fetch used ks w o : used ks -> inv used o w -> inv used (fetch ks w o).1 w.
Proof.
  intros Hu [Hk Hi]. unfold fetch. destruct (us_info ks w) as [info|] eqn:E; [|done].
  split; [done|]. cbn. intros s i [[<- <-]|[_ Hs]]%lookup_insert_Some; [|by apply Hi].
  exists ks, w. by split_and!; [| | |apply rtc_refl].
Qed.

Lemma inv_resolve used ks key w o : inv used o w -> inv used (resolve ks key o).1 w.
Proof.
  intros [Hk Hi]. unfold resolve. destruct (keyspace_to_keyspace_info o !! info_key ks) as [i|]; [|done].
  destruct (range_of_key i key) as [[r|]|e|]; try done. split; [|done]. cbn.
  intros s r' [[<- _]|[_ Hs]]%lookup_insert_Some; [apply hex_encode_hex|by eapply Hk].
Qed.

Lemma oracle_inv_reachable used o w o' w' :
  rtc (step used) (o, w) (o', w') -> inv used o w -> inv used o' w'.
Proof.
  remember (o, w) as s eqn:Es. remember (o', w') as s' eqn:Es'. intros Hsteps.
  revert o w Es. induction Hsteps as [s|s1 [o1 w1] s3 Hs _ IH]; intros o w Es Hinv; simplify_eq.
  - done.
  - eapply IH; [done..|]. inversion Hs; subst.
    + by apply inv_fetch.
    + by apply inv_resolve.
    + destruct Hinv as [Hk Hi]. split; [done|]. intros s i Hs'.
      destruct (Hi s i Hs') as (ks & w0 & Hu & He & Hw & Hr). exists ks, w0.
      split_and!; [done..|]. eapply rtc_r; [exact Hr|done].
Qed.

Lemma oracle_inv_new used w : inv used new w.
Proof. split; intros s x; cbn; by rewrite lookup_empty. Qed.

Lemma oracle_answer used o w0 w ks key :
  distinguishable used -> rtc (step used) (new, w0) (o, w) -> used ks -> us_info ks w <> None ->
  (full_range_id_of_key ks key w o).2 = uncached ks key w.
Proof.
  intros [Hinj Hhex] Hsteps Hu Hup.
  destruct (oracle_inv_reachable _ _ _ _ _ Hsteps (oracle_inv_new used w0)) as [Hk Hi].
  unfold full_range_id_of_key, uncached.
  destruct (key_to_full_range_id o !! range_key ks key) as [r|] eqn:Er.
  { apply Hk in Er. unfold range_key in Er. by rewrite hex_string_app, Hhex in Er. }
  destruct (us_info ks w) as [info|] eqn:Ei; [|done].
  assert (Hres : forall o', keyspace_to_keyspace_info o' !! info_key ks = Some info ->
    (resolve ks key o').2 = range_of_key info key).
  { intros o' Ho'. unfold resolve. rewrite Ho'. by destruct (range_of_key info key) as [[]| |]. }
  destruct (keyspace_to_keyspace_info o !! info_key ks) as [i|] eqn:Ec.
  - apply Hres. rewrite Ec. destruct (Hi _ _ Ec) as (ks' & w1 & Hu' & Hs & Hw1 & Hr).
    apply Hinj in Hs; [|done..]. subst ks'. by rewrite (us_stable _ _ _ _ _ Hw1 Hr Ei).
  - unfold fetch. rewrite Ei. apply Hres. apply lookup_insert_eq.
Qed.

(** ** Properties *)

(** C17: the caches do not change the answers. If the names of the key spaces in
    use cannot be mistaken for one another, nor for the hexadecimal text of a
    key, a lookup of the oracle gives what the universe itself would give, after
    any interleaving of calls and while the universe goes on. *)
Theorem oracle_equals_uncached used o w0 w ks key :
  distinguishable used -> rtc (step used) (new, w0) (o, w) -> used ks -> us_info ks w <> None ->
  (full_range_id_of_key ks key w o).2 = uncached ks key w.
Proof. apply oracle_answer. Qed.

(** The range cache mixes up key spaces. The range of a key is stored under
    the text of the key alone and looked up under the names of the key space
    followed by the text of the key: once the range of a key was found in one
    key space, a key of another whose names and text make the same string is
    sent to that range. *)
Theorem range_cache_mixes_keyspaces o w w' ks ks' key key' o' r :
  key_to_full_range_id o !! range_key ks key = None ->
  full_range_id_of_key ks key w o = (o', Ok (Some r)) ->
  range_key ks' key' = hex_encode key ->
  full_range_id_of_key ks' key' w' o' = (o', Ok (Some r)).
Proof.
  intros Hmiss Hcall Heq.
  assert (Hres : forall o1, resolve ks key o1 = (o', Ok (Some r)) ->
    key_to_full_range_id o' !! hex_encode key = Some r).
  { intros o1. unfold resolve. destruct (keyspace_to_keyspace_info o1 !! info_key ks); [|done].
    destruct (range_of_key _ key) as [[r'|]| |]; intros [= <- <-]. apply lookup_insert_eq. }
  assert (Hin : key_to_full_range_id o' !! hex_encode key = Some r).
  { revert Hcall. unfold full_range_id_of_key. rewrite Hmiss.
    destruct (keyspace_to_keyspace_info o !! info_key ks); [apply Hres|].
    destruct (fetch ks w o) as [o1 []]; [apply Hres|done]. }
  unfold full_range_id_of_key. by rewrite Heq, Hin.
Qed.
End Operations.

(** ** The universe of [Universe.v] as the service *)

Section Universe.
Context `{HexCrate}.
Context `{Universe.UniverseSession DB}.
Context (parse_uuid : string -> option Uuid) (print_uuid : Uuid -> string).

Definition ask_universe (ks : Keyspace) (db : DB) : option Universe.KeyspaceInfo :=
  match Universe.server_get_keyspace_info parse_uuid print_uuid
          (Some (Universe.ByKeyspace (namespace ks) (ks_name ks))) db with
  | Ok info => Some info
  | _ => None
  end.

Lemma ask_universe_row ks db i :
  ask_universe ks db = Some i ->
  exists row, Universe.rows db !! (namespace ks, ks_name ks) = Some row /\
    Universe.row_to_info print_uuid (namespace ks, ks_name ks, row) = Ok i.
Proof.
  unfold ask_universe, Universe.server_get_keyspace_info, Universe.get_keyspace_info.
  destruct (Universe.select_by_name _ db) as [l|e|] eqn:E; cbn; try done.
  apply Universe.select_by_name_ok in E.
  destruct (Universe.rows db !! _) as [row|]; subst l; [|done].
  intros Hi. exists row. split; [done|].
  destruct (Universe.row_to_info _ _); [|done..]. congruence.
Qed.

(** an empty upper bound excludes every key *)
Lemma includes_no_upper u l key : includes (from_proto (mkProtoKeyRange u l [])) key = false.
Proof. unfold includes. cbn. by rewrite bytes_ltb_nil_r, andb_false_r. Qed.

#[refine] Instance universe_service : UniverseService DB := {|
  us_info := ask_universe;
  us_step := Universe.step parse_uuid print_uuid
|}.
Proof.
  intros ks db db' i i' (row & Hrow & Hi)%ask_universe_row Hsteps (row' & Hrow' & Hi')%ask_universe_row.
  pose proof (Universe.steps_keep_rows _ _ _ _ _ _ Hsteps Hrow). congruence.
Defined.

Context (parse_print_uuid : forall u, parse_uuid (print_uuid u) = Some u).

(** C37: A key space created without base ranges has no range for any key. The
    universe stores one range with empty bounds, which stand for the whole key
    space, and the oracle reads the empty upper bound as a bound: whatever the
    universe and the oracle have served since, a lookup in that key space that the
    universe answers finds no range. (The zone of the key space is in a cloud that
    is read back as it was stored, and the names of the key spaces that the oracle
    is asked for cannot be mistaken for one another or for the text of a key: else
    a lookup may find the cached range of another key space, see
    [range_cache_mixes_keyspaces].) *)
Theorem default_keyspace_is_unreachable used new_uuid req z db db1 id o w0 db2 key :
  Universe.create_primary_zone req = Some z -> Universe.known_zone z ->
  Universe.create_base_key_ranges req = [] ->
  Universe.server_create_keyspace parse_uuid print_uuid new_uuid req db = (db1, Ok id) ->
  rtc (Universe.step parse_uuid print_uuid) db1 db2 ->
  let ks := mkKeyspace (Universe.create_namespace req) (Universe.create_name req) in
  distinguishable used -> rtc (step parse_uuid used) (new, w0) (o, db2) -> used ks ->
  ask_universe ks db2 <> None ->
  (full_range_id_of_key parse_uuid ks key db2 o).2 = Ok None.
Proof.
  intros Hz Hk Hnil Hc Hsteps ks Hd Ho Hu Hup. rewrite (oracle_answer _ used o w0) by done.
  unfold uncached. destruct (us_info ks db2) as [i|] eqn:Ei; [|done].
  destruct (ask_universe_row _ _ _ Ei) as (row & Hrow & Hi).
  destruct (Universe.created_row _ _ parse_print_uuid _ _ _ _ _ _ Hz Hk Hc) as (row' & Hrow' & Hi').
  pose proof (Universe.steps_keep_rows _ _ _ _ _ _ Hsteps Hrow') as Hrow2. cbn in Hrow, Hi.
  rewrite Hrow2 in Hrow. injection Hrow as <-. rewrite Hi' in Hi. injection Hi as <-.
  unfold range_of_key. rewrite Hnil. cbn.
  assert (exists u, parse_uuid id = Some u) as [u ->]; [|by rewrite includes_no_upper].
  revert Hc. unfold Universe.server_create_keyspace, Universe.create_keyspace. rewrite Hz.
  destruct (_ ≫= _); [|done]. destruct (Universe.insert_if_not_exists _ db) as [db' [[]| |]];
    intros [= _ <-]; eauto.
Qed.
End Universe.

(** ** Witnesses *)

(** two digits for each byte *)
Definition hex_digit (n : N) : Ascii.ascii :=
  Ascii.ascii_of_N (if (n <? 10)%N then 48 + n else 87 + n).
Fixpoint two_digits (b : Bytes) : string :=
  match b with
  | [] => ""
  | x :: b' => String (hex_digit (N.div x 16 `mod` 16)) (String (hex_digit (x `mod` 16)) (two_digits b'))
  end.

Lemma hex_digit_hex n : (n < 16)%N -> is_hex (hex_digit n) = true.
Proof.
  intros Hn. unfold is_hex, hex_digit. destruct (N.ltb_spec n 10).
  - rewrite Ascii.N_ascii_embedding by lia.
    rewrite (proj2 (N.leb_le _ _)), (proj2 (N.ltb_lt _ _)) by lia. done.
  - rewrite Ascii.N_ascii_embedding by lia.
    rewrite (proj2 (N.leb_le 97 _)), (proj2 (N.ltb_lt _ 103)) by lia. apply orb_true_r.
Qed.

Lemma two_digits_hex b : hex_string (two_digits b) = true.
Proof.
  induction b as [|x b IH]; [done|]. cbn [two_digits hex_string].
  rewrite !hex_digit_hex, IH; [done|..]; apply N.mod_lt; lia.
Qed.

#[local] Instance sample_hex : HexCrate :=
  {| hex_encode := two_digits; hex_encode_hex := two_digits_hex |}.

Abbreviation Table := (gmap (string * string) Universe.Row) (only parsing).
#[local] Existing Instance Universe.table_universe.
Definition sample_service : UniverseService Table :=
  universe_service Universe.unary_parse Universe.unary_print.
Definition sample_ks : Keyspace := mkKeyspace "ns" "ks".
Definition sample_used (ks : Keyspace) : Prop := ks = sample_ks.

(** a key space with one range, of the keys from 1 to 200 *)
Definition sample_db : Table :=
  (Universe.server_create_keyspace Universe.unary_parse Universe.unary_print N.of_nat
     (Universe.mkCreateKeyspaceRequest "ns" "ks" (Some Universe.sample_zone)
        [Universe.mkKeyRangeRequest [1%N] [200%N]]) ∅).1.

Lemma sample_distinguishable : distinguishable sample_used.
Proof. split; [by intros a b -> ->|by intros a ->]. Qed.

Lemma oracle_equals_uncached_witness :
  (full_range_id_of_key (H0 := sample_service) Universe.unary_parse sample_ks [171%N] sample_db new).2 =
    Ok (Some (mkFullRangeId (mkKeyspaceId 1) 0)).
Proof.
  rewrite (oracle_equals_uncached (H0 := sample_service) Universe.unary_parse sample_used new sample_db
    sample_db sample_ks [171%N]);
    [vm_compute; reflexivity|exact sample_distinguishable|apply rtc_refl|reflexivity|].
  vm_compute. discriminate.
Defined.

(** the key [171] of the key space ns/ks, then the empty key of the key space a/b *)
Lemma range_cache_mixes_keyspaces_witness :
  (full_range_id_of_key (H0 := sample_service) Universe.unary_parse (mkKeyspace "a" "b") [] sample_db
     (full_range_id_of_key (H0 := sample_service) Universe.unary_parse sample_ks [171%N] sample_db new).1).2 =
    Ok (Some (mkFullRangeId (mkKeyspaceId 1) 0)).
Proof.
  rewrite (range_cache_mixes_keyspaces (H0 := sample_service) Universe.unary_parse new sample_db sample_db
    sample_ks (mkKeyspace "a" "b") [171%N] []
    (full_range_id_of_key (H0 := sample_service) Universe.unary_parse sample_ks [171%N] sample_db new).1
    (mkFullRangeId (mkKeyspaceId 1) 0));
    [reflexivity|reflexivity|vm_compute; reflexivity|reflexivity].
Defined.

Lemma default_keyspace_is_unreachable_witness :
  (full_range_id_of_key (H0 := sample_service) Universe.unary_parse sample_ks [5%N]
     Universe.sample_created new).2 = Ok None.
Proof.
  apply (default_keyspace_is_unreachable Universe.unary_parse Universe.unary_print
    Universe.unary_roundtrip sample_used N.of_nat Universe.sample_request Universe.sample_zone ∅
    Universe.sample_created "u" new Universe.sample_created Universe.sample_created [5%N]);
    [reflexivity|split; discriminate|reflexivity|vm_compute; reflexivity|apply rtc_refl
    |exact sample_distinguishable|apply rtc_refl|reflexivity|vm_compute; discriminate].
Defined.

End Oracle.
