(* ===== verification/ClientPool.v ===== *)
(** * The clients of the range servers:
      [src/coordinator-rangeclient/src/rangeclient.rs], with the life of a
      client of [src/rangeclient/src/client.rs]

    The coordinator and the resolver reach a range through a pool of clients,
    one per host, which are shared objects named by numbers. A call reads the
    table of clients, connects, and takes the table again to store the new
    client: it is a task of [Tasks.v], and the calls interrupt each other between
    these steps. [get_range_client] is the call that nobody interrupts. *)

From Stdlib Require Import Floats.SpecFloat.
From stdpp Require Import base tactics list numbers option gmap sets relations strings.
From S2P Require Import Prelude Common Tasks RsError RangeManager Region Warden RangeServer RangeClient Oracle.

Module ClientPool.
Import Common RsError.

(** ** Clients *)

(** [outstanding_requests] of a started client is not used *)
Inductive ClientState := NotStarted | Started | Stopped.
#[global] Instance ClientState_eq_dec : EqDecision ClientState.
Proof. solve_decision. Defined.

Record Client := mkClient { range_server_info : Warden.HostInfo; client_state : ClientState }.

Definition new_client (host_info : Warden.HostInfo) : Client := mkClient host_info NotStarted.
Definition start (c : Client) : Client :=
  match client_state c with
  | Started | Stopped => c
  | NotStarted => mkClient (range_server_info c) Started
  end.
Definition is_stopped (c : Client) : bool :=
  match client_state c with Stopped => true | _ => false end.

(** ** The pool *)

Record RangeClient := mkRangeClient {
  range_clients : gmap Warden.HostIdentity positive;
  clients : gmap positive Client       (** every client that was created *)
}.

Definition new : RangeClient := mkRangeClient ∅ ∅.

#[global] Instance HostInfo_eq_dec : EqDecision Warden.HostInfo.
Proof. solve_decision. Defined.

(** a client that can be used, under the read lock *)
Definition existing_client (host : Warden.HostInfo) (p : RangeClient) : option positive :=
  match range_clients p !! Warden.identity host with
  | None => None
  | Some c =>
      match clients p !! c with
      | Some client =>
          if bool_decide (range_server_info client = host) && negb (is_stopped client)
          then Some c else None
      | None => None
      end
  end.

(** the part under the write lock: another call may have stored a client in the
    meantime; the boolean is whether the new client was stored *)
Definition store_client (host : Warden.HostInfo) (p : RangeClient) : RangeClient * positive * bool :=
  let c := fresh (dom (clients p) : gset positive) in
  let p1 := mkRangeClient (range_clients p) (<[c := new_client host]> (clients p)) in
  match range_clients p !! Warden.identity host with
  | Some c' =>
      match clients p !! c' with
      | Some client =>
          if bool_decide (range_server_info client = host) then (p1, c', false)
          else (mkRangeClient (<[Warden.identity host := c]> (range_clients p)) (clients p1), c, true)
      | None => (mkRangeClient (<[Warden.identity host := c]> (range_clients p)) (clients p1), c, true)
      end
  | None => (mkRangeClient (<[Warden.identity host := c]> (range_clients p)) (clients p1), c, true)
  end.

Definition start_client (c : positive) (p : RangeClient) : RangeClient :=
  mkRangeClient (range_clients p) (alter start c (clients p)).

(** ** Calls *)

(** what a call needs of the world: where a range is, a refresh of that, and
    the servers *)
Class RangeServers (W : Type) : Type := {
  host_of_range : FullRangeId -> W -> option Warden.HostInfo;
  maybe_refresh_host_of_range : FullRangeId -> W -> W * result unit unit;
  rs_get : Warden.HostInfo -> TransactionInfo -> FullRangeId -> list Bytes -> W ->
    W * result RangeServer.Outcome RangeClient.GetResult;
  rs_prepare : Warden.HostInfo -> TransactionInfo -> FullRangeId -> bool -> list KvRecord ->
    list Bytes -> spec_float -> Z -> W -> W * result RangeServer.Outcome RangeClient.PrepareOk;
  rs_abort : Warden.HostInfo -> TransactionInfo -> FullRangeId -> W ->
    W * result RangeServer.Outcome unit;
  rs_commit : Warden.HostInfo -> list Uuid -> FullRangeId -> Z -> W ->
    W * result RangeServer.Outcome unit
}.

Section Operations.
Context `{RangeServers W}.

(** [get_range_client], with no other call in between *)
Definition get_range_client (range : FullRangeId) (s : RangeClient * W)
    : RangeClient * result Error positive :=
  let (p, w) := s in
  match host_of_range range w with
  | None => (p, Err RangeIsNotLoaded)
  | Some host =>
      match existing_client host p with
      | Some c => (start_client c p, Ok c)
      | None =>
          match store_client host p with
          | (p', c, true) => (start_client c p', Ok c)
          | (p', c, false) => (p', Ok c)
          end
      end
  end.

(** the error is passed on, once the assignment was refreshed *)
Definition handle_rangeserver_err {A} (range : FullRangeId) (e : Error) (w : W)
    : W * result RangeServer.Outcome A :=
  match e with
  | RangeIsNotLoaded | RangeOwnershipLost =>
      match maybe_refresh_host_of_range range w with
      | (w', Panic) => (w', Panic)
      | (w', _) => (w', Err (RangeServer.Failed e))
      end
  | _ => (w, Err (RangeServer.Failed e))
  end.

(** a call through the client of the range *)
Definition forward {A} (range : FullRangeId)
    (op : Warden.HostInfo -> W -> W * result RangeServer.Outcome A) (s : RangeClient * W)
    : (RangeClient * W) * result RangeServer.Outcome A :=
  match get_range_client range s with
  | (p, Ok c) =>
      match clients p !! c with
      | None => ((p, s.2), Panic)
      | Some client =>
          match op (range_server_info client) s.2 with
          | (w', Err (RangeServer.Failed e)) =>
              let (w'', r) := handle_rangeserver_err range e w' in ((p, w''), r)
          | (w', r) => ((p, w'), r)
          end
      end
  | (p, Err e) => ((p, s.2), Err (RangeServer.Failed e))
  | (p, Panic) => ((p, s.2), Panic)
  end.

Definition get (tx : TransactionInfo) (range : FullRangeId) (keys : list Bytes) :=
  forward range (fun host => rs_get host tx range keys).
Definition prepare_transaction (tx : TransactionInfo) (range : FullRangeId) (has_reads : bool)
    (writes : list KvRecord) (deletes : list Bytes) (resolver_average_load : spec_float)
    (num_open_clients : Z) :=
  forward range (fun host =>
    rs_prepare host tx range has_reads writes deletes resolver_average_load num_open_clients).
Definition abort_transaction (tx : TransactionInfo) (range : FullRangeId) :=
  forward range (fun host => rs_abort host tx range).
Definition commit_transactions (txs : list Uuid) (range : FullRangeId) (epoch : Z) :=
  forward range (fun host => rs_commit host txs range epoch).
End Operations.

(** *** Calls that interrupt each other *)

Definition start_job (c : positive) : Tasks.Task RangeClient positive :=
  Tasks.atomically (fun p => (start_client c p, c)).

(** the call that has found no client: another call may have stored one since,
    which is returned as it is *)
Definition store_job (host : Warden.HostInfo) : Tasks.Task RangeClient positive :=
  Tasks.t_bind (Tasks.atomically (fun p => let '(p', c, stored) := store_client host p in (p', (c, stored))))
    (fun '(c, stored) => if stored : bool then start_job c else Tasks.Done c).

(** [get_range_client] once the oracle has named the host *)
Definition client_job (host : Warden.HostInfo) : Tasks.Task RangeClient positive :=
  Tasks.t_bind (Tasks.atomically (fun p => (p, existing_client host p))) (fun existing =>
    match existing with
    | Some c => start_job c
    | None => store_job host
    end).

Record Calls := mkCalls {
  pool : RangeClient;
  calls : list (Warden.HostInfo * Tasks.Task RangeClient positive)   (** in the order they began *)
}.

Inductive call_step (allowed : Warden.HostInfo -> Prop) : Calls -> Calls -> Prop :=
| step_begin host s :
    allowed host -> call_step allowed s (mkCalls (pool s) (calls s ++ [(host, client_job host)]))
| step_act l1 host f l2 p' t s :
    calls s = l1 ++ (host, Tasks.Act f) :: l2 -> f (pool s) = Some (p', t) ->
    call_step allowed s (mkCalls p' (l1 ++ (host, t) :: l2)).

(** the steps of the calls, interleaved; [allowed] are the hosts that the calls
    are for *)
Inductive step (allowed : Warden.HostInfo -> Prop) : RangeClient -> RangeClient -> Prop :=
| step_store host p : allowed host -> step allowed p (store_client host p).1.1
| step_start c p : step allowed p (start_client c p).

(** ** The servers of the oracle *)

Section Servers.
Context `{RangeServer.RangeOps R, HashOrder}.
(** [Uuid::to_u128_le] and [Uuid::from_u128_le] of the crate [uuid] *)
Context (to_u128_le from_u128_le : Uuid -> N).
(** the clock, the random id of the request and the encoded message *)
Context (now : Z) (req_id : Uuid) (buf : Bytes).

(** a message to an address where nothing listens is not answered *)
Definition at_server {A} (host : Warden.HostInfo)
    (call : M (RangeServer.Server R) RangeServer.Outcome A)
    (w : gmap string (RangeServer.Server R))
    : gmap string (RangeServer.Server R) * result RangeServer.Outcome A :=
  match w !! Warden.address host with
  | None => (w, Panic)
  | Some sv => let (sv', r) := call sv in (<[Warden.address host := sv']> w, r)
  end.

#[export] Instance oracle_servers : RangeServers (gmap string (RangeServer.Server R)) := {|
  host_of_range range _ := Oracle.host_of_range range;
  maybe_refresh_host_of_range range w := (w, Oracle.maybe_refresh_host_of_range range);
  rs_get host tx range keys :=
    at_server host (RangeClient.client_get to_u128_le from_u128_le now req_id tx range keys);
  rs_prepare host tx range has_reads writes deletes load n :=
    at_server host (RangeClient.prepare_transaction to_u128_le from_u128_le now req_id tx range
                      has_reads writes deletes load n buf);
  rs_abort host tx range :=
    at_server host (RangeClient.abort_transaction to_u128_le from_u128_le now req_id tx range buf);
  rs_commit host txs range epoch :=
    at_server host (RangeClient.commit_transactions to_u128_le from_u128_le now req_id txs range
                      epoch buf)
|}.
End Servers.

(** ** Lemmas *)

Record pool_inv (p : RangeClient) : Prop := {
  pool_tables id c : range_clients p !! id = Some c ->
    exists client, clients p !! c = Some client /\ Warden.identity (range_server_info client) = id;
  pool_running c client : clients p !! c = Some client -> client_state client <> Stopped
}.

Lemma start_info client : range_server_info (start client) = range_server_info client.
Proof. by destruct client as [h []]. Qed.

Lemma start_running client : client_state client <> Stopped -> client_state (start client) = Started.
Proof. by destruct client as [h []]. Qed.

Lemma lookup_start_client c c' client p :
  clients p !! c' = Some client ->
  exists client', clients (start_client c p) !! c' = Some client' /\
    range_server_info client' = range_server_info client.
Proof.
  intros Hc. cbn. destruct (decide (c' = c)) as [->|Hne].
  - exists (start client). by rewrite lookup_alter_eq, Hc, start_info.
  - exists client. by rewrite lookup_alter_ne.
Qed.

Lemma fresh_client (p : RangeClient) c client :
  clients p !! c = Some client -> fresh (dom (clients p) : gset positive) <> c.
Proof. intros Hc <-. eapply (is_fresh (dom (clients p) : gset positive)), elem_of_dom_2, Hc. Qed.

(** a new client does not disturb the others *)
Lemma lookup_new_client p host c client :
  clients p !! c = Some client ->
  <[fresh (dom (clients p) : gset positive) := new_client host]> (clients p) !! c = Some client.
Proof. intros Hc. by rewrite lookup_insert_ne by (by eapply fresh_client). Qed.

(** what is stored for a host, and what is kept *)
Lemma store_client_spec host p p' c b :
  pool_inv p -> store_client host p = (p', c, b) ->
  range_clients p' = <[Warden.identity host := c]> (range_clients p) /\
  (exists client, clients p' !! c = Some client /\ range_server_info client = host) /\
  (forall c' client, clients p !! c' = Some client -> clients p' !! c' = Some client) /\
  (forall c' client, clients p' !! c' = Some client ->
     clients p !! c' = Some client \/ client = new_client host) /\
  (b = true -> clients p' !! c = Some (new_client host)) /\
  (b = false -> range_clients p !! Warden.identity host = Some c /\
     exists client, clients p !! c = Some client /\ range_server_info client = host).
Proof.
  intros [Ht _] Hs. unfold store_client in Hs.
  assert (forall c' client,
    <[fresh (dom (clients p) : gset positive) := new_client host]> (clients p) !! c' = Some client ->
    clients p !! c' = Some client \/ client = new_client host) as Hback.
  { intros c' client [[_ <-]|[_ ?]]%lookup_insert_Some; auto. }
  pose proof (fun c' client => lookup_new_client p host c' client) as Hkeep.
  destruct (range_clients p !! Warden.identity host) as [c0|] eqn:E.
  - destruct (Ht _ _ E) as (client & Hc0 & Hid). rewrite Hc0 in Hs.
    case_bool_decide as Hh; injection Hs as <- <- <-; cbn [range_clients clients].
    + split_and!; [by rewrite insert_id|by eauto|by eauto|by eauto|done|by eauto].
    + split_and!; [done| |by eauto|by eauto|by rewrite lookup_insert_eq|done].
      exists (new_client host). by rewrite lookup_insert_eq.
  - injection Hs as <- <- <-; cbn [range_clients clients].
    split_and!; [done| |by eauto|by eauto|by rewrite lookup_insert_eq|done].
    exists (new_client host). by rewrite lookup_insert_eq.
Qed.

Lemma pool_inv_new : pool_inv new.
Proof. split; intros *; cbn; by rewrite lookup_empty. Qed.

Lemma pool_inv_start c p : pool_inv p -> pool_inv (start_client c p).
Proof.
  intros [Ht Hr]. split.
  - intros id c' Hid. destruct (Ht id c' Hid) as (client & Hc & <-).
    destruct (lookup_start_client c c' client p Hc) as (client' & Hc' & He).
    exists client'. by rewrite He.
  - intros c' client. cbn. rewrite lookup_alter_Some. intros [(-> & client' & Hc & ->)|[_ Hc]].
    + by rewrite (start_running _ (Hr _ _ Hc)).
    + by eapply Hr.
Qed.

Lemma pool_inv_store host p p' c b : pool_inv p -> store_client host p = (p', c, b) -> pool_inv p'.
Proof.
  intros Hinv Hs. destruct (store_client_spec _ _ _ _ _ Hinv Hs) as (Ht & Hc & Hkeep & Hback & _).
  destruct Hinv as [Htab Hrun]. split.
  - intros id c'. rewrite Ht. intros [[<- <-]|[_ Hid]]%lookup_insert_Some.
    + destruct Hc as (client & Hc & <-). by exists client.
    + destruct (Htab _ _ Hid) as (client & Hc' & He). exists client. auto.
  - intros c' client [Hc' | ->]%Hback; [by eapply Hrun|done].
Qed.

Lemma pool_inv_reachable allowed p p' : rtc (step allowed) p p' -> pool_inv p -> pool_inv p'.
Proof.
  induction 1 as [p|p1 p2 p3 Hs _ IH]; intros Hinv; [done|]. apply IH. destruct Hs as [host p _|c p].
  - destruct (store_client host p) as [[p' c] b] eqn:E. by eapply pool_inv_store.
  - by apply pool_inv_start.
Qed.

(** the client of a host is in the table *)
Definition holds (host : Warden.HostInfo) (c : positive) (p : RangeClient) : Prop :=
  range_clients p !! Warden.identity host = Some c /\
  exists client, clients p !! c = Some client /\ range_server_info client = host.

Lemma holds_start host c c' p : holds host c p -> holds host c (start_client c' p).
Proof.
  intros (Ht & client & Hc & <-). split; [done|].
  by destruct (lookup_start_client c' c client p Hc) as (client' & ? & ?); exists client'.
Qed.

Lemma holds_step host c p p' :
  pool_inv p -> holds host c p ->
  step (fun h => Warden.identity h = Warden.identity host -> h = host) p p' -> holds host c p'.
Proof.
  intros Hinv Hh Hs. destruct Hs as [h p Hallowed|c' p]; [|by apply holds_start].
  destruct (store_client h p) as [[p' c'] b] eqn:E. cbn.
  destruct (store_client_spec _ _ _ _ _ Hinv E) as (Ht & _ & Hkeep & _).
  destruct Hh as (Hid & client & Hc & Hi).
  split; [|exists client; auto]. rewrite Ht.
  destruct (decide (Warden.identity h = Warden.identity host)) as [He|He].
  - pose proof (Hallowed He) as ->. unfold store_client in E. rewrite Hid, Hc in E.
    rewrite bool_decide_true in E by done. injection E as _ <- _. by rewrite lookup_insert_eq.
  - by rewrite lookup_insert_ne.
Qed.

Lemma holds_existing host c p : pool_inv p -> holds host c p -> existing_client host p = Some c.
Proof.
  intros [_ Hr] (Ht & client & Hc & Hi). unfold existing_client. rewrite Ht, Hc.
  rewrite bool_decide_true by done. unfold is_stopped. pose proof (Hr c client Hc).
  by destruct (client_state client).
Qed.

Lemma existing_holds host c p : existing_client host p = Some c -> holds host c p.
Proof.
  unfold existing_client. destruct (range_clients p !! _) as [c'|] eqn:Ht; [|done].
  destruct (clients p !! c') as [client|] eqn:Hc; [|done].
  case_bool_decide as Hi; [|done]. destruct (is_stopped client); [done|].
  intros [= ->]. split; [done|by exists client].
Qed.

Lemma started_lookup host c p :
  pool_inv p -> holds host c p -> clients (start_client c p) !! c = Some (mkClient host Started).
Proof.
  intros [_ Hr] (_ & client & Hc & <-). cbn. rewrite lookup_alter_eq, Hc. cbn.
  pose proof (start_running _ (Hr _ _ Hc)). pose proof (start_info client).
  destruct (start client) as [h st]; cbn in *. by subst.
Qed.

(** a call finds or makes the client of the host, and starts it *)
Lemma get_range_client_spec `{RangeServers W} range host p w :
  pool_inv p -> host_of_range range w = Some host ->
  exists c p', get_range_client range (p, w) = (p', Ok c) /\ pool_inv p' /\ holds host c p' /\
    clients p' !! c = Some (mkClient host Started).
Proof.
  intros Hinv Hh. unfold get_range_client. rewrite Hh.
  destruct (existing_client host p) as [c|] eqn:E.
  - apply existing_holds in E. exists c, (start_client c p).
    by split_and!; [|apply pool_inv_start|apply holds_start|apply started_lookup].
  - destruct (store_client host p) as [[p' c] b] eqn:Es.
    destruct (store_client_spec _ _ _ _ _ Hinv Es) as (Ht & Hc & _ & _ & _ & Hb).
    destruct b.
    + assert (holds host c p') as Hholds by (split; [by rewrite Ht, lookup_insert_eq|done]).
      pose proof (pool_inv_store _ _ _ _ _ Hinv Es) as Hinv'.
      exists c, (start_client c p').
      by split_and!; [|apply pool_inv_start|apply holds_start|apply started_lookup].
    + pose proof (holds_existing host c p Hinv (Hb eq_refl)) as Hex. by rewrite Hex in E.
Qed.

Lemma forward_error `{RangeServers W} {A} range host p w w'
    (op : Warden.HostInfo -> W -> W * result RangeServer.Outcome A) e :
  pool_inv p -> host_of_range range w = Some host ->
  op host w = (w', Err (RangeServer.Failed e)) ->
  (forward range op (p, w)).2 = (handle_rangeserver_err range e w').2.
Proof.
  intros Hinv Hh Hop. destruct (get_range_client_spec range host p w Hinv Hh)
    as (c & p' & Hg & _ & _ & Hc).
  unfold forward. rewrite Hg, Hc. cbn [range_server_info snd]. rewrite Hop.
  by destruct (handle_rangeserver_err range e w').
Qed.

(** ** Lemmas: interrupted calls *)

(** a call that nobody interrupts *)
Lemma client_job_uninterrupted `{RangeServers W} range host p w :
  host_of_range range w = Some host ->
  get_range_client range (p, w) =
  ((Tasks.run (client_job host) p).1,
   match (Tasks.run (client_job host) p).2 with Some c => Ok c | None => Panic end).
Proof.
  intros Hh. unfold get_range_client. rewrite Hh. cbn.
  destruct (existing_client host p) as [c|]; [done|]. cbn.
  by destruct (store_client host p) as [[p' c] []].
Qed.

(** the client [c] is for [host]; this is never taken back *)
Definition client_for (host : Warden.HostInfo) (c : positive) (p : RangeClient) : Prop :=
  exists client, clients p !! c = Some client /\ range_server_info client = host.
Definition started (c : positive) (p : RangeClient) : Prop :=
  exists client, clients p !! c = Some client /\ client_state client = Started.

(** the client is started, or a call is about to start it *)
Definition starting (c : positive) (s : Calls) : Prop :=
  started c (pool s) \/ exists host, (host, start_job c) ∈ calls s.

(** where a call can be *)
Inductive call_at (s : Calls) (host : Warden.HostInfo) : Tasks.Task RangeClient positive -> Prop :=
| at_lookup : call_at s host (client_job host)
| at_store : call_at s host (store_job host)
| at_start c : client_for host c (pool s) -> call_at s host (start_job c)
| at_end c : client_for host c (pool s) -> starting c s -> call_at s host (Tasks.Done c).

Record calls_inv (s : Calls) : Prop := {
  calls_pool : pool_inv (pool s);
  calls_at host t : (host, t) ∈ calls s -> call_at s host t;
  calls_table id c : range_clients (pool s) !! id = Some c -> starting c s
}.

(** what an action leaves of the clients *)
Definition grows (p p' : RangeClient) : Prop :=
  (forall host c, client_for host c p -> client_for host c p') /\
  (forall c, started c p -> started c p').

Lemma grows_start c p : grows p (start_client c p).
Proof.
  split.
  - intros host c' (client & Hc & <-). by apply lookup_start_client.
  - intros c' (client & Hc & Hs). exists client. split; [|done]. cbn.
    destruct (decide (c' = c)) as [->|]; [|by rewrite lookup_alter_ne].
    rewrite lookup_alter_eq, Hc. cbn. unfold start. by rewrite Hs.
Qed.

Lemma grows_store host p p' c b : pool_inv p -> store_client host p = (p', c, b) -> grows p p'.
Proof.
  intros Hi Hs. destruct (store_client_spec _ _ _ _ _ Hi Hs) as (_ & _ & Hk & _).
  split; [intros h c' (client & ? & ?)|intros c' (client & ? & ?)]; exists client; auto.
Qed.

Lemma start_started c p : pool_inv p -> is_Some (clients p !! c) -> started c (start_client c p).
Proof.
  intros [_ Hr] [client Hc]. exists (start client). cbn. rewrite lookup_alter_eq, Hc. split; [done|].
  by eapply start_running, Hr.
Qed.

(** the other calls after an action that turns [t] into [t'] *)
Lemma starting_step s p' l1 host t t' l2 c :
  calls s = l1 ++ (host, t) :: l2 -> grows (pool s) p' ->
  (t = start_job c -> started c p') ->
  starting c s -> starting c (mkCalls p' (l1 ++ (host, t') :: l2)).
Proof.
  intros Ec [_ Hg] Ht [?|[h Hin]]; [left; by apply Hg|].
  rewrite Ec, elem_of_app, elem_of_cons in Hin. destruct Hin as [?|[[= _ E]|?]].
  - right. exists h. cbn. set_solver.
  - left. by apply Ht.
  - right. exists h. cbn. set_solver.
Qed.

Lemma call_at_step s p' l1 host t t' l2 h t0 :
  calls s = l1 ++ (host, t) :: l2 -> grows (pool s) p' ->
  (forall c, t = start_job c -> started c p') ->
  call_at s h t0 -> call_at (mkCalls p' (l1 ++ (host, t') :: l2)) h t0.
Proof.
  intros Ec Hg Ht [| |c Hc|c Hc Hs]; constructor; try by apply Hg. by eapply starting_step; eauto.
Qed.

(** an action: what has to be shown of it *)
Lemma calls_act s p' l1 host t t' l2 :
  calls_inv s -> calls s = l1 ++ (host, t) :: l2 -> pool_inv p' -> grows (pool s) p' ->
  (forall c, t = start_job c -> started c p') ->
  call_at (mkCalls p' (l1 ++ (host, t') :: l2)) host t' ->
  (forall id c, range_clients p' !! id = Some c -> range_clients (pool s) !! id = Some c \/
     starting c (mkCalls p' (l1 ++ (host, t') :: l2))) ->
  calls_inv (mkCalls p' (l1 ++ (host, t') :: l2)).
Proof.
  intros [_ Hat Htab] Ec Hp' Hg Ht Ht' Htab'. split; [done|..]; cbn.
  - intros h t0. rewrite elem_of_app, elem_of_cons. intros [?|[[= -> ->]|?]]; [|done|];
      (eapply call_at_step; [done..|]); apply Hat; rewrite Ec; set_solver.
  - intros id c [Hid|?]%Htab'; [|done]. eapply starting_step; eauto.
Qed.

Lemma start_job_inj c c' : start_job c = start_job c' -> c = c'.
Proof.
  unfold start_job, Tasks.atomically. intros E. injection E as E.
  apply (f_equal (fun f => f new)) in E. cbn in E. by injection E.
Qed.

Lemma lookup_not_start host c : client_job host = start_job c -> False.
Proof.
  unfold client_job, start_job, Tasks.atomically. cbn. intros E. injection E as E.
  apply (f_equal (fun f => f new)) in E. by cbn in E.
Qed.

Lemma store_not_start host c : store_job host = start_job c -> False.
Proof.
  unfold store_job, start_job, Tasks.atomically. cbn. intros E. injection E as E.
  apply (f_equal (fun f => f new)) in E. by cbn in E.
Qed.

Lemma calls_step allowed s s' : call_step allowed s s' -> calls_inv s -> calls_inv s'.
Proof.
  intros Hs Hi. pose proof Hi as [Hp Hat Htab]. destruct Hs as [host s _|l1 host f l2 p' t s Ec Ef].
  - assert (Hst : forall c, starting c s -> starting c (mkCalls (pool s) (calls s ++ [(host, client_job host)]))).
    { intros c [?|[h ?]]; [by left|right]. exists h. cbn. set_solver. }
    split; cbn; [done| |by eauto].
    intros h t. rewrite elem_of_app, list_elem_of_singleton. intros [Hin%Hat|[= -> ->]]; [|constructor].
    destruct Hin; constructor; auto.
  - assert (Hin : call_at s host (Tasks.Act f)) by (apply Hat; rewrite Ec; apply elem_of_middle_eq).
    remember (Tasks.Act f) as t0 eqn:E. destruct Hin as [| |c Hc|c Hc Hst]; [..|done].
    + injection E as <-. injection Ef as <- <-. eapply calls_act; [done|exact Ec|done|by split|..].
      * by intros c ?%lookup_not_start.
      * cbn. destruct (existing_client host (pool s)) as [c|] eqn:Ex; cbn; [|constructor].
        constructor. by apply existing_holds in Ex as [_ ?].
      * auto.
    + injection E as <-. destruct (store_client host (pool s)) as [[p1 c] b] eqn:Es.
      cbn in Ef. injection Ef as <- <-.
      destruct (store_client_spec _ _ _ _ _ Hp Es) as (Ht & Hc & Hk & _ & Hb1 & Hb2).
      eapply calls_act; [done|exact Ec|by eapply pool_inv_store|by eapply grows_store|..].
      * by intros c' ?%store_not_start.
      * destruct b; constructor; [done..|]. destruct (Hb2 eq_refl) as [Hid _].
        eapply starting_step; [exact Ec|by eapply grows_store| |by eapply Htab].
        by intros ?%store_not_start.
      * intros id c'. rewrite Ht. intros [[<- <-]|[_ ?]]%lookup_insert_Some; [|by left].
        destruct b; [right; right; exists host; cbn; set_solver|left]. by apply Hb2.
    + injection E as <-. injection Ef as <- <-. eapply calls_act; [done|exact Ec|by apply pool_inv_start|apply grows_start|..].
      * intros c' <-%start_job_inj. destruct Hc as (client & Hc & _). apply start_started; [done|by eexists].
      * constructor; [by apply grows_start|left]. destruct Hc as (client & Hc & _). apply start_started; [done|by eexists].
      * auto.
Qed.

Lemma calls_reachable allowed s : rtc (call_step allowed) (mkCalls new []) s -> calls_inv s.
Proof.
  revert s. apply rtc_ind_r; [|intros s s' _; apply calls_step].
  split; cbn; [apply pool_inv_new|by intros ? ? ?%elem_of_nil|done].
Qed.

(** the calls for [host] that began after [c] was in the table for it *)
Record settled_on (host : Warden.HostInfo) (c : positive) (k : nat) (s : Calls) : Prop := {
  settled_holds : holds host c (pool s);
  settled_names h t : (h, t) ∈ calls s ->
    (exists d, t = Tasks.Done d) \/ (Warden.identity h = Warden.identity host -> h = host);
  settled_calls i t : k <= i -> calls s !! i = Some (host, t) ->
    t = client_job host \/ t = start_job c \/ t = Tasks.Done c
}.

Lemma lookup_middle_ne {A} (l1 l2 : list A) x y i z :
  (l1 ++ y :: l2) !! i = Some z ->
  (l1 ++ x :: l2) !! i = Some z \/ (z = y /\ (l1 ++ x :: l2) !! i = Some x).
Proof.
  destruct (decide (i = length l1)) as [->|Hne].
  - rewrite !list_lookup_middle by done. intros [= <-]. by right.
  - intros H. left. destruct (decide (i < length l1)) as [|Hge].
    + by rewrite lookup_app_l in * by done.
    + rewrite lookup_app_r in * by lia. destruct (i - length l1) eqn:E; [lia|done].
Qed.

Lemma settled_step host c k s s' :
  calls_inv s -> settled_on host c k s -> k <= length (calls s) ->
  call_step (fun h => Warden.identity h = Warden.identity host -> h = host) s s' ->
  settled_on host c k s' /\ k <= length (calls s').
Proof.
  intros Hi [Hh Hn Hk] Hlen Hs. pose proof Hi as [Hp Hat _].
  destruct Hs as [h s Ha|l1 h f l2 p' t s Ec Ef].
  - split; [|cbn; rewrite length_app; lia]. split; cbn; [done|..].
    + intros h' t. rewrite elem_of_app, list_elem_of_singleton. intros [?|[= -> ->]]; [by eapply Hn|by right].
    + intros i t Hki [?|[_ Hl]]%lookup_app_Some; [by eapply Hk|].
      destruct (i - length (calls s)); cbn in Hl; [|done]. injection Hl as <- <-. by left.
  - assert (Hin : (h, Tasks.Act f) ∈ calls s) by (rewrite Ec; apply elem_of_middle_eq).
    assert (Hname : Warden.identity h = Warden.identity host -> h = host).
    { destruct (Hn _ _ Hin) as [[d [=]]|?]; done. }
    split; [|cbn; rewrite Ec, length_app in Hlen; rewrite length_app; done].
    assert (Hh' : holds host c p').
    { pose proof (Hat _ _ Hin) as Ht. remember (Tasks.Act f) as t0 eqn:E. destruct Ht as [| |c' Hc|]; [..|done];
        injection E as <-; injection Ef as <- _; [done| |by apply holds_start].
      pose proof (holds_step host c _ _ Hp Hh (step_store _ h (pool s) Hname)) as H.
      by destruct (store_client h (pool s)) as [[p1 c1] b]. }
    split; cbn; [done|..].
    + intros h' t'. rewrite elem_of_app, elem_of_cons. intros [?|[[= -> ->]|?]]; [|by right|];
        apply Hn; rewrite Ec; set_solver.
    + intros i t' Hki Hl. apply (lookup_middle_ne _ _ (h, Tasks.Act f)) in Hl. rewrite <- Ec in Hl.
      destruct Hl as [Hl|[[= -> ->] Hl]]; [by eapply Hk|].
      destruct (Hk _ _ Hki Hl) as [E|[E|E]]; [..|done]; injection E as ->; injection Ef as _ <-.
      * right; left. cbn. by rewrite (holds_existing _ _ _ Hp Hh).
      * by right; right.
Qed.

Lemma settled_steps host c s s' :
  calls_inv s -> settled_on host c (length (calls s)) s ->
  rtc (call_step (fun h => Warden.identity h = Warden.identity host -> h = host)) s s' ->
  settled_on host c (length (calls s)) s'.
Proof.
  intros Hi Hs Hr. assert (Hk : length (calls s) <= length (calls s)) by done. revert Hi Hs Hk.
  generalize (length (calls s)) at 1 2 4. intros k. induction Hr as [|s1 s2 s3 H12 _ IH]; intros Hi Hs Hk; [done|].
  destruct (settled_step _ _ _ _ _ Hi Hs Hk H12). apply IH; [by eapply calls_step|done..].
Qed.

(** the calls that run, with no new ones *)
Notation finishing := (call_step (fun _ => False)).

Lemma finishing_ends s : sn finishing s.
Proof.
  apply (Tasks.sn_lexicographic _ (fun _ => True) (fun _ => 0) Tasks.pool_sub (fun s => (calls s).*2));
    [apply Tasks.pool_wf| |done].
  intros s1 s2 _ [|l1 host f l2 p' t s0 Ec Ef]; [done|]. split; [done|right]. split; [done|].
  rewrite Ec. cbn. rewrite !fmap_app. eexists _, _, _, _. split_and!; [done..|]. by exists f, (pool s0), p'.
Qed.

(** ** Properties *)

(** C24: A call reaches the host that has the range. The calls look for a client,
    store a new one and start it, and interrupt each other between these steps.
    No call waits for another one, so they all end. A call for a host ends with a
    client of exactly this host, its address and its connection epoch included;
    the client is started, or, when another call has stored it in the meantime,
    that call is still to start it. While the client is in the table and no other
    host takes over its name, every later call for the host ends with the same
    client. *)
Theorem client_is_for_host allowed s :
  rtc (call_step allowed) (mkCalls new []) s ->
  sn finishing s /\
  (nf finishing s -> forall host t, (host, t) ∈ calls s -> exists c, t = Tasks.Done c) /\
  forall host c, (host, Tasks.Done c) ∈ calls s ->
    client_for host c (pool s) /\ starting c s /\
    let keeps h := Warden.identity h = Warden.identity host -> h = host in
    (range_clients (pool s) !! Warden.identity host = Some c ->
     (forall h t, (h, t) ∈ calls s -> (exists d, t = Tasks.Done d) \/ keeps h) ->
     forall s' i c', rtc (call_step keeps) s s' -> length (calls s) <= i ->
       calls s' !! i = Some (host, Tasks.Done c') -> c' = c).
Proof.
  intros Hi%calls_reachable. split_and!; [apply finishing_ends|..].
  - intros Hnf host t Hin. pose proof (calls_at _ Hi _ _ Hin) as Ht. apply list_elem_of_split in Hin as (l1 & l2 & Ec).
    destruct Ht as [| |c Hc|c Hc Hs]; [destruct Hnf; eexists; eapply step_act; [exact Ec|reflexivity]..|by exists c].
  - intros host c Hin. pose proof (calls_at _ Hi _ _ Hin) as Ht.
    remember (Tasks.Done c) as t0 eqn:E. destruct Ht as [| |c' Hc|c' Hc Hs]; try done. injection E as ->.
    split_and!; [done..|]. intros keeps Htab Hn s' i c' Hr Hle Hl.
    assert (Hset : settled_on host c (length (calls s)) s).
    { split; [by split|done|]. intros j t Hj Hl'. apply lookup_lt_Some in Hl'. lia. }
    by destruct (settled_calls _ _ _ _ (settled_steps _ _ _ _ Hi Hset Hr) _ _ Hle Hl) as [?|[?|[= ->]]].
Qed.

(** A range that is not loaded takes its caller down. The pool means to
    refresh the assignment of the range and to hand the error on; but the
    oracle's refresh is not implemented, so when the server refuses a get or a
    commit because the range is not loaded or its ownership was lost, the call
    panics instead of returning the error. *)
Theorem refused_range_panics `{RangeServer.RangeOps R, HashOrder} to_u128_le from_u128_le now
    req_id buf allowed p w sv sv' tx txs keys epoch range e host :
  (forall u, RangeClient.is_uuid u -> (to_u128_le u < 2 ^ 128)%N) ->
  (forall u, RangeClient.is_uuid u -> from_u128_le (to_u128_le u) = u) ->
  rtc (step allowed) new p -> e = RangeIsNotLoaded \/ e = RangeOwnershipLost ->
  RangeClient.is_uuid (tx_id tx) -> Forall RangeClient.is_uuid txs -> RangeClient.is_range range ->
  Oracle.host_of_range range = Some host -> w !! Warden.address host = Some sv ->
  let I := oracle_servers to_u128_le from_u128_le now req_id buf in
  (RangeClient.local_get now (tx_id tx) (RangeClient.timeout_us tx) range keys sv =
     (sv', Err (RangeServer.Failed e)) ->
   (get (H := I) tx range keys (p, w)).2 = Panic) /\
  (RangeClient.local_commit txs range epoch buf sv = (sv', Err (RangeServer.Failed e)) ->
   (commit_transactions (H := I) txs range epoch (p, w)).2 = Panic).
Proof.
  intros Hb Hi Hp He Ht Htxs Hr Hh Hw I.
  assert (pool_inv p) as Hinv by (by eapply pool_inv_reachable, pool_inv_new).
  assert (RangeClient.seen (A := RangeClient.GetResult) (Err (RangeServer.Failed e)) =
            Err (RangeServer.Failed e) /\
          RangeClient.seen (A := unit) (Err (RangeServer.Failed e)) =
            Err (RangeServer.Failed e)) as [Hs Hs'] by (by destruct He as [-> | ->]).
  assert (forall A w', (@handle_rangeserver_err _ I A range e w').2 = Panic) as Hpanic
    by (by destruct He as [-> | ->]).
  split; intros Hl.
  - eapply RangeClient.get_call in Hl; [|done..]. rewrite Hs in Hl.
    unfold get. erewrite (forward_error (H := I)); [apply Hpanic|done|done|].
    cbn. unfold at_server. by rewrite Hw, Hl.
  - eapply RangeClient.commit_call in Hl; [|done..]. rewrite Hs' in Hl.
    unfold commit_transactions. erewrite (forward_error (H := I)); [apply Hpanic|done|done|].
    cbn. unfold at_server. by rewrite Hw, Hl.
Qed.

(** ** Witnesses *)

(** a server to which the warden has assigned nothing *)
Definition idle_server : RangeServer.Server RangeManager.Sample :=
  RangeServer.new (R := RangeManager.Sample).
Definition sample_world : gmap string (RangeServer.Server RangeManager.Sample) :=
  {[ "127.0.0.1:50055"%string := idle_server ]}.
Definition sample_servers : RangeServers (gmap string (RangeServer.Server RangeManager.Sample)) :=
  oracle_servers (H := RangeServer.sample_ops) (H0 := element_order)
    byte_swap byte_swap 0 5 [].
Definition sample_host : Warden.HostInfo :=
  Warden.mkHostInfo
    (Warden.mkHostIdentity "test_server" (Region.mkZone (Region.mkRegion None "test-region") "a"))
    "127.0.0.1:50055" 0.
Definition old_host : Warden.HostInfo :=
  Warden.mkHostInfo (Warden.identity sample_host) "127.0.0.1:50054" 0.

(** two calls for a server that has moved: both look before one of them has stored
    a client, and the second one gets the client of the first before it is
    started *)
Definition raced : Calls :=
  let p1 := (store_client sample_host (start_client 1 (store_client old_host new).1.1)).1.1 in
  let p2 := (store_client sample_host p1).1.1 in
  mkCalls p2 [(old_host, Tasks.Done 1%positive); (sample_host, start_job 2); (sample_host, Tasks.Done 2%positive)].

Lemma raced_reached : rtc (call_step (fun _ => True)) (mkCalls new []) raced.
Proof.
  eapply rtc_l; [by apply (step_begin _ old_host)|].
  do 3 (eapply rtc_l; [eapply (step_act _ [] old_host _ []); reflexivity|]).
  do 2 (eapply rtc_l; [by apply (step_begin _ sample_host)|]).
  eapply rtc_l; [eapply (step_act _ [_] sample_host _ [_]); reflexivity|].
  eapply rtc_l; [eapply (step_act _ [_; _] sample_host _ []); reflexivity|].
  eapply rtc_l; [eapply (step_act _ [_] sample_host _ [_]); reflexivity|].
  eapply rtc_l; [eapply (step_act _ [_; _] sample_host _ []); reflexivity|].
  apply (rtc_refl (call_step (fun _ => True)) raced).
Qed.

Lemma client_is_for_host_witness :
  client_for sample_host 2 (pool raced) /\ starting 2 raced /\ ~ started 2 (pool raced).
Proof.
  destruct (client_is_for_host (fun _ => True) raced raced_reached) as (_ & _ & Hc).
  destruct (Hc sample_host 2%positive) as (Hf & Hs & _); [by apply list_elem_of_further, list_elem_of_further, list_elem_of_here|].
  split; [exact Hf|]. split; [exact Hs|]. intros (client & E & Hst). vm_compute in E. injection E as <-. discriminate Hst.
Defined.

Lemma refused_range_panics_witness :
  (get (H := sample_servers) RangeClient.sample_tx RangeServer.sample_range [[1%N]]
     (new, sample_world)).2 = Panic.
Proof.
  apply (refused_range_panics (H := RangeServer.sample_ops) (H0 := element_order)
    byte_swap byte_swap 0 5 [] (fun _ => True) new sample_world idle_server
    (RangeClient.local_get (H := RangeServer.sample_ops) (H0 := element_order) 0 9 1
       RangeServer.sample_range [[1%N]] idle_server).1
    RangeClient.sample_tx [] [[1%N]] 0 RangeServer.sample_range RangeIsNotLoaded sample_host
    (fun u _ => byte_swap_bound u) byte_swap_inv);
    [apply rtc_refl|by left|done|done|done|reflexivity|reflexivity|vm_compute; reflexivity].
Defined.

End ClientPool.
