(* ===== verification/Frontend.v ===== *)
(** * The frontend: [src/frontend/src/frontend.rs]

    The frontend keeps the open transactions of its clients in a table and runs
    their requests on them. A transaction is shared by the table and by the
    requests that run, so the table holds handles into a store of transactions.
    The requests release their locks several times; the pieces between are the
    definitions of this file, of which the handlers are made, and the steps of
    all requests interleave. A request whose client goes away stops where it
    waits: inside an operation of a transaction this is an answer of the
    services after which the operation does not go on. *)

From Stdlib Require Import Floats.SpecFloat.
From stdpp Require Import base tactics list numbers option gmap sets relations strings.
From S2P Require Import Prelude Float64 Common Universe Coordinator.

Module Frontend.
Import Common.
Local Open Scope sangria_scope.

(** ** Data *)

(** [tonic::Status]; the texts are left out *)
Inductive TStatus := InvalidArgument | NotFound | Internal.

Record StatsPerKeyspace := mkStatsPerKeyspace {
  num_open_clients : Z;                (** [u32] *)
  history : list Z
}.

Definition MAX_SAMPLES : nat := 100.

Record Server (W : Type) := mkServer {
  stats_per_keyspace : gmap Keyspace StatsPerKeyspace;
  transaction_table : gmap Uuid positive;
  transactions : gmap positive Coordinator.Transaction;   (** every one that was started *)
  resolver_stats : gmap string spec_float;
  services : W
}.
Arguments mkServer {W} _ _ _ _ _.
Arguments stats_per_keyspace {W} _.
Arguments transaction_table {W} _.
Arguments transactions {W} _.
Arguments resolver_stats {W} _.
Arguments services {W} _.

(** ** Messages *)

Record StartTransactionRequest := mkStartTransactionRequest { st_keyspace : option Keyspace }.
Record GetRequest := mkGetRequest {
  get_transaction_id : string; get_keyspace : option Keyspace; get_key : Bytes }.
Record PutRequest := mkPutRequest {
  put_transaction_id : string; put_keyspace : option Keyspace; put_key : Bytes; put_value : Bytes }.
Record DeleteRequest := mkDeleteRequest {
  del_transaction_id : string; del_keyspace : option Keyspace; del_key : Bytes }.
Record ReadModifyWriteRequest := mkReadModifyWriteRequest {
  rmw_keyspace : option Keyspace; rmw_keys : list Bytes; rmw_value : Bytes }.

Section Operations.
Context `{Coordinator.Services W}.
(** the order in which the tasks of a transaction complete *)
Context (join : HashOrder).
Context `{HashOrder}.
(** the configuration: [transaction_overall_timeout] and [commit_strategy] *)
Context (overall_timeout : Z) (strategy : CommitStrategy).

Notation Handler := (M (Server W) TStatus).

Definition new (w : W) : Server W := mkServer ∅ ∅ ∅ ∅ w.

Definition set_stats (st : gmap Keyspace StatsPerKeyspace) (sv : Server W) : Server W :=
  mkServer st (transaction_table sv) (transactions sv) (resolver_stats sv) (services sv).
Definition set_table (t : gmap Uuid positive) (sv : Server W) : Server W :=
  mkServer (stats_per_keyspace sv) t (transactions sv) (resolver_stats sv) (services sv).

(** ** The pieces of the requests *)

(** [ok_or_else(..)?] *)
Definition required {A} (o : option A) (st : TStatus) : Handler A :=
  match o with Some a => m_ret a | None => m_fail st end.

(** a new transaction, and its place in the table *)
Definition start (id : Uuid) (now : Z) (ks : Keyspace) : Handler positive := fun sv =>
  let info := mkTransactionInfo id now overall_timeout in
  match Coordinator.start_transaction strategy info ks (services sv) with
  | (w, None) =>
      (mkServer (stats_per_keyspace sv) (transaction_table sv) (transactions sv)
         (resolver_stats sv) w, Panic)
  | (w, Some t) =>
      let h := fresh (dom (transactions sv) : gset positive) in
      (mkServer (stats_per_keyspace sv) (<[id := h]> (transaction_table sv))
         (<[h := t]> (transactions sv)) (resolver_stats sv) w, Ok h)
  end.

Definition count_opened (ks : Keyspace) (sv : Server W) : Server W :=
  let st := default (mkStatsPerKeyspace 0 []) (stats_per_keyspace sv !! ks) in
  set_stats (<[ks := mkStatsPerKeyspace (wrap_u32 (num_open_clients st + 1)) (history st)]>
               (stats_per_keyspace sv)) sv.

Definition find_transaction (id : Uuid) : Handler positive :=
  let! sv := m_get in required (transaction_table sv !! id) NotFound.

(** an operation under the lock of the transaction *)
Definition on_transaction {A} (h : positive)
    (op : M (Coordinator.Run W) Coordinator.Error A) : Handler A := fun sv =>
  match transactions sv !! h with
  | None => (sv, Panic)
  | Some t =>
      let (run, r) := op (Coordinator.mkRun t (services sv) []) in
      (mkServer (stats_per_keyspace sv) (transaction_table sv)
         (<[h := Coordinator.tx run]> (transactions sv)) (resolver_stats sv)
         (Coordinator.world run),
       match r with Ok a => Ok a | Err _ => Err Internal | Panic => Panic end)
  end.

Definition keyspace_of (h : positive) : Handler Keyspace :=
  let! sv := m_get in
  let! t := m_unwrap (transactions sv !! h) in
  m_ret (Coordinator.keyspace t).

Definition remove_transaction (id : Uuid) (sv : Server W) : Server W :=
  set_table (delete id (transaction_table sv)) sv.

(** the number of open clients is recorded; the largest recent one is reported *)
Definition push_sample (st : StatsPerKeyspace) : StatsPerKeyspace :=
  let h := history st ++ [num_open_clients st] in
  mkStatsPerKeyspace (num_open_clients st)
    (if (MAX_SAMPLES <? length h)%nat then drop 1 h else h).

Definition sample_open_clients (ks : Keyspace) : Handler Z :=
  let! sv := m_get in
  let! st := m_unwrap (stats_per_keyspace sv !! ks) in
  let st' := push_sample st in
  m_modify (set_stats (<[ks := st']> (stats_per_keyspace sv))) ;;;
  m_ret (foldr Z.max 0%Z (history st')).

Definition resolver_average_load (sv : Server W) : spec_float :=
  default (Float64.of_Z 0) (resolver_stats sv !! "avg_waiting_txs"%string).

Definition count_closed (ks : Keyspace) : Handler unit :=
  let! sv := m_get in
  let! st := m_unwrap (stats_per_keyspace sv !! ks) in
  m_modify (set_stats (<[ks := mkStatsPerKeyspace (wrap_u32 (num_open_clients st - 1)) (history st)]>
                         (stats_per_keyspace sv))).

(** the background task of [start] *)
Definition store_load (load : spec_float) (sv : Server W) : Server W :=
  mkServer (stats_per_keyspace sv) (transaction_table sv) (transactions sv)
    (<["avg_waiting_txs"%string := load]> (resolver_stats sv)) (services sv).

(** ** The handlers *)

Section Handlers.
(** [Uuid::parse_str] and [Uuid::to_string] of the crate [uuid] *)
Context (parse_uuid : string -> option Uuid) (print_uuid : Uuid -> string).

(** [start_transaction]; [id] is the new uuid and [now] the time *)
Definition start_transaction (id : Uuid) (now : Z) (req : StartTransactionRequest) : Handler string :=
  let! ks := required (st_keyspace req) InvalidArgument in
  start id now ks ;;;
  m_modify (count_opened ks) ;;;
  m_ret (print_uuid id).

Definition get (req : GetRequest) : Handler (option Bytes) :=
  let! id := required (parse_uuid (get_transaction_id req)) InvalidArgument in
  let! ks := required (get_keyspace req) InvalidArgument in
  let! h := find_transaction id in
  on_transaction h (Coordinator.get ks (get_key req)).

Definition put (req : PutRequest) : Handler unit :=
  let! id := required (parse_uuid (put_transaction_id req)) InvalidArgument in
  let! ks := required (put_keyspace req) InvalidArgument in
  let! h := find_transaction id in
  on_transaction h (Coordinator.put ks (put_key req) (put_value req)).

Definition delete_key (req : DeleteRequest) : Handler unit :=
  let! id := required (parse_uuid (del_transaction_id req)) InvalidArgument in
  let! ks := required (del_keyspace req) InvalidArgument in
  let! h := find_transaction id in
  on_transaction h (Coordinator.del ks (del_key req)).

Definition abort (transaction_id : string) : Handler unit :=
  let! id := required (parse_uuid transaction_id) InvalidArgument in
  let! h := find_transaction id in
  on_transaction h Coordinator.abort ;;;
  m_modify (remove_transaction id).

Definition commit (transaction_id : string) : Handler unit :=
  let! id := required (parse_uuid transaction_id) InvalidArgument in
  let! h := find_transaction id in
  let! ks := keyspace_of h in
  let! n := sample_open_clients ks in
  let! sv := m_get in
  on_transaction h (Coordinator.commit join (resolver_average_load sv) n) ;;;
  m_modify (remove_transaction id) ;;;
  count_closed ks.

Definition read_modify_write (id : Uuid) (now : Z) (req : ReadModifyWriteRequest) : Handler unit :=
  let! ks := required (rmw_keyspace req) InvalidArgument in
  let! tid := start_transaction id now (mkStartTransactionRequest (Some ks)) in
  m_for (rmw_keys req) (fun key => get (mkGetRequest tid (Some ks) key) ;;; m_ret tt) ;;;
  m_for (rmw_keys req) (fun key => put (mkPutRequest tid (Some ks) key (rmw_value req))) ;;;
  commit tid.

(** [create_keyspace]: [connect] says whether the universe can be reached,
    [create] is its answer *)
Definition create_keyspace (connect : W -> bool)
    (create : Universe.CreateKeyspaceRequest -> W -> W * result unit string)
    (req : Universe.CreateKeyspaceRequest) : Handler string := fun sv =>
  if connect (services sv) then
    let (w, r) := create req (services sv) in
    (mkServer (stats_per_keyspace sv) (transaction_table sv) (transactions sv)
       (resolver_stats sv) w,
     match r with Ok id => Ok id | _ => Panic end)
  else (sv, Err Internal).

End Handlers.

(** ** All requests, interleaved *)

Inductive Request :=
| RGet (ks : Keyspace) (key : Bytes)
| RPut (ks : Keyspace) (key val : Bytes)
| RDelete (ks : Keyspace) (key : Bytes)
| RAbort
| RCommit.
#[local] Instance Request_eq_dec : EqDecision Request.
Proof. solve_decision. Defined.

(** where a request is, between two of its pieces *)
Inductive Task :=
| Starting (h : positive) (ks : Keyspace)
| Found (id : Uuid) (h : positive) (r : Request)
| Keyed (id : Uuid) (h : positive) (ks : Keyspace)
| Sampled (id : Uuid) (h : positive) (ks : Keyspace) (n : Z)
| Loaded (id : Uuid) (h : positive) (ks : Keyspace) (n : Z) (load : spec_float)
| Aborting (id : Uuid)
| Decided (id : Uuid) (h : positive) (ks : Keyspace)
| Removed (h : positive) (ks : Keyspace).

(** the next piece of a request, and where it is then *)
Definition advance (t : Task) : Handler (option Task) :=
  match t with
  | Starting h ks => m_modify (count_opened ks) ;;; m_ret None
  | Found id h (RGet ks key) => on_transaction h (Coordinator.get ks key) ;;; m_ret None
  | Found id h (RPut ks key val) => on_transaction h (Coordinator.put ks key val) ;;; m_ret None
  | Found id h (RDelete ks key) => on_transaction h (Coordinator.del ks key) ;;; m_ret None
  | Found id h RAbort => on_transaction h Coordinator.abort ;;; m_ret (Some (Aborting id))
  | Found id h RCommit => let! ks := keyspace_of h in m_ret (Some (Keyed id h ks))
  | Keyed id h ks => let! n := sample_open_clients ks in m_ret (Some (Sampled id h ks n))
  | Sampled id h ks n =>
      let! sv := m_get in m_ret (Some (Loaded id h ks n (resolver_average_load sv)))
  | Loaded id h ks n load =>
      on_transaction h (Coordinator.commit join load n) ;;; m_ret (Some (Decided id h ks))
  | Aborting id => m_modify (remove_transaction id) ;;; m_ret None
  | Decided id h ks => m_modify (remove_transaction id) ;;; m_ret (Some (Removed h ks))
  | Removed h ks => count_closed ks ;;; m_ret None
  end.

Definition next (r : result TStatus (option Task)) : list Task :=
  match r with Ok (Some t) => [t] | _ => [] end.

(** the server, the requests that run, and the transactions that were counted as
    opened and as closed *)
Record System := mkSystem {
  server : Server W;
  tasks : list Task;
  opened : gset positive;
  closed : gset positive
}.

Definition opens (t : Task) : gset positive := match t with Starting h _ => {[h]} | _ => ∅ end.
Definition closes (t : Task) : gset positive := match t with Removed h _ => {[h]} | _ => ∅ end.

(** a client knows a transaction once its start was answered *)
Inductive step : System -> System -> Prop :=
| step_start id now ks sv sv' h ts o c :
    start id now ks sv = (sv', Ok h) ->
    step (mkSystem sv ts o c) (mkSystem sv' (Starting h ks :: ts) o c)
| step_find id h r sv ts o c :
    transaction_table sv !! id = Some h -> h ∈ o ->
    step (mkSystem sv ts o c) (mkSystem sv (Found id h r :: ts) o c)
| step_advance t ts ts' sv sv' r o c :
    ts ≡ₚ t :: ts' -> advance t sv = (sv', r) ->
    step (mkSystem sv ts o c) (mkSystem sv' (next r ++ ts') (o ∪ opens t) (c ∪ closes t))
| step_dropped t ts ts' sv o c :
    ts ≡ₚ t :: ts' -> step (mkSystem sv ts o c) (mkSystem sv ts' o c)
| step_load load sv ts o c :
    step (mkSystem sv ts o c) (mkSystem (store_load load sv) ts o c)
| step_services w sv ts o c :
    step (mkSystem sv ts o c)
      (mkSystem (mkServer (stats_per_keyspace sv) (transaction_table sv) (transactions sv)
                   (resolver_stats sv) w) ts o c).

Definition initial (w : W) : System := mkSystem (new w) [] ∅ ∅.

(** the transactions of a key space that were opened and not closed *)
Definition open_clients (ks : Keyspace) (s : System) : gset positive :=
  filter (fun h => Coordinator.keyspace <$> transactions (server s) !! h = Some ks)
    (opened s ∖ closed s).

(** ** What an operation does to its transaction *)

Notation Op := (M (Coordinator.Run W) Coordinator.Error).

(** the transaction changes only along [R] *)
Definition preserves (R : relation Coordinator.Transaction) {A} (m : Op A) : Prop :=
  forall s, R (Coordinator.tx s) (Coordinator.tx (m s).1).

(** it keeps the key space, and a transaction that has stopped running does not
    run again *)
Definition goes_on (t t' : Coordinator.Transaction) : Prop :=
  Coordinator.keyspace t' = Coordinator.keyspace t /\
  (Coordinator.state t <> Coordinator.Running -> Coordinator.state t' <> Coordinator.Running).

(** what is to be written stays *)
Definition same_writes (t t' : Coordinator.Transaction) : Prop :=
  Coordinator.participant_ranges t' = Coordinator.participant_ranges t /\
  Coordinator.id t' = Coordinator.id t.

#[local] Instance goes_on_preorder : PreOrder goes_on.
Proof.
  split; [done|]. intros t1 t2 t3 [E1 S1] [E2 S2]. split; [by rewrite E2|auto].
Qed.
#[local] Instance same_writes_preorder : PreOrder same_writes.
Proof. split; [done|]. intros t1 t2 t3 [E1 F1] [E2 F2]. split; congruence. Qed.

Section Preserves.
Context (R : relation Coordinator.Transaction) `{!PreOrder R}.

Lemma preserves_same {A} (m : Op A) :
  (forall s, Coordinator.tx (m s).1 = Coordinator.tx s) -> preserves R m.
Proof. intros Hm s. by rewrite Hm. Qed.

Lemma preserves_then {A B} (m : Op A) (k : A -> Op B) :
  preserves R m -> (forall a, preserves R (k a)) -> preserves R (m_then m k).
Proof.
  intros Hm Hk s. unfold m_then. pose proof (Hm s) as E.
  destruct (m s) as [s1 [a|e|]]; cbn in *; [|done|done]. by etrans; [|apply Hk].
Qed.

Lemma preserves_update f : (forall t, R t (f t)) -> preserves R (Coordinator.update_tx f).
Proof. intros Hf s. apply Hf. Qed.

Lemma preserves_for {A} (l : list A) (body : A -> Op unit) :
  (forall x, preserves R (body x)) -> preserves R (m_for l body).
Proof.
  intros Hb. induction l as [|x l IH]; [by apply preserves_same|]. cbn. by apply preserves_then.
Qed.

Lemma preserves_ignore {A} (m : Op A) : preserves R m -> preserves R (Coordinator.ignore_error m).
Proof.
  intros Hm s. pose proof (Hm s) as E. unfold Coordinator.ignore_error.
  by destruct (m s) as [s1 []].
Qed.

Lemma preserves_ask {A} (f : W -> W * A) : preserves R (Coordinator.ask f).
Proof. apply preserves_same. intros s. unfold Coordinator.ask. by destruct (f _). Qed.
End Preserves.

Ltac solve_preserves :=
  repeat match goal with
    | |- forall _, _ => intro
    | |- PreOrder _ => apply _
    | |- preserves _ (m_then _ _) => apply preserves_then
    | |- preserves _ (m_for _ _) => apply preserves_for
    | |- preserves _ (Coordinator.ask _) => apply preserves_ask
    | |- preserves _ (Coordinator.ignore_error _) => apply preserves_ignore
    | |- preserves _ (Coordinator.update_tx _) => apply preserves_update; intros []; by first [split|done]
    | |- preserves _ (m_ret _) => apply preserves_same; [apply _|done]
    | |- preserves _ (m_fail _) => apply preserves_same; [apply _|done]
    | |- preserves _ m_panic => apply preserves_same; [apply _|done]
    | |- preserves _ m_get => apply preserves_same; [apply _|done]
    | |- preserves _ (Coordinator.emit _) => apply preserves_same; [apply _|done]
    | |- preserves _ (Coordinator.act _) => apply preserves_same; [apply _|done]
    | |- preserves _ (Coordinator.unwrap_result ?r) => destruct r; cbn
    | |- preserves _ (m_unwrap ?o) => destruct o; cbn
    | |- preserves _ (m_assert ?b) => destruct b; cbn
    | |- preserves _ (match ?x with _ => _ end) => destruct x
    | |- preserves _ _ => progress unfold Coordinator.get, Coordinator.put, Coordinator.del,
        Coordinator.abort, Coordinator.record_abort, Coordinator.check_still_running,
        Coordinator.resolve_full_record_key, Coordinator.get_participant_range,
        Coordinator.put_range, Coordinator.notify_participants, Coordinator.commit_traditional,
        Coordinator.commit_resolved
    end.

Lemma keeps_get ks key : preserves goes_on (Coordinator.get ks key).
Proof. solve_preserves. Qed.
Lemma keeps_put ks key v : preserves goes_on (Coordinator.put ks key v).
Proof. solve_preserves. Qed.
Lemma keeps_del ks key : preserves goes_on (Coordinator.del ks key).
Proof. solve_preserves. Qed.
Lemma keeps_abort : preserves goes_on Coordinator.abort.
Proof. solve_preserves. Qed.

Lemma keeps_prepare_loop info l early : preserves goes_on (Coordinator.prepare_loop info l early).
Proof. revert early. induction l as [|[r args] l IH]; intros early; cbn; solve_preserves. apply IH. Qed.

(** an operation that begins with the check and the change of state of [commit] *)
Definition stops {A} (m : Op A) : Prop :=
  forall s,
    Coordinator.keyspace (Coordinator.tx (m s).1) = Coordinator.keyspace (Coordinator.tx s) /\
    (Coordinator.state (Coordinator.tx s) <> Coordinator.Running -> exists e, (m s).2 = Err e) /\
    Coordinator.state (Coordinator.tx (m s).1) <> Coordinator.Running.

Lemma stops_then {A} (m : Op A) :
  preserves goes_on m ->
  stops (Coordinator.check_still_running ;;;
         Coordinator.update_tx (Coordinator.set_state Coordinator.Preparing) ;;; m).
Proof.
  intros Hm s.
  destruct (Coordinator.check_still_running s) as [s1 r] eqn:E.
  unfold m_then. rewrite E. unfold Coordinator.check_still_running, m_then, m_get in E.
  destruct (Coordinator.state (Coordinator.tx s)) eqn:Es; injection E as <- <-;
    [|by split_and!; [done|by eexists|cbn; rewrite Es]..].
  cbn [Coordinator.update_tx m_modify].
  match goal with |- context [m ?s1] => destruct (Hm s1) as [E1 E2] end. cbn in E1, E2.
  split_and!; [done|done|auto].
Qed.

(** a commit leaves the transaction stopped, and only the first one can succeed *)
Lemma commit_stops load n : stops (Coordinator.commit join load n).
Proof. apply stops_then. solve_preserves; apply keeps_prepare_loop. Qed.

(** ** The invariant *)

Definition ks_of (sv : Server W) (h : positive) : option Keyspace :=
  Coordinator.keyspace <$> transactions sv !! h.

Definition stopped (sv : Server W) (h : positive) : Prop :=
  exists t, transactions sv !! h = Some t /\ Coordinator.state t <> Coordinator.Running.

Definition task_ok (sv : Server W) (o c : gset positive) (t : Task) : Prop :=
  match t with
  | Starting h ks => ks_of sv h = Some ks /\ h ∉ o
  | Found _ h _ => h ∈ o
  | Keyed _ h ks | Sampled _ h ks _ | Loaded _ h ks _ _ => h ∈ o /\ ks_of sv h = Some ks
  | Aborting _ => True
  | Decided _ h ks | Removed h ks => h ∈ o /\ h ∉ c /\ ks_of sv h = Some ks /\ stopped sv h
  end.

Definition starting (t : Task) : option positive :=
  match t with Starting h _ => Some h | _ => None end.
Definition closing (t : Task) : option positive :=
  match t with Decided _ h _ | Removed h _ => Some h | _ => None end.

Definition open_number (ks : Keyspace) (sv : Server W) : Z :=
  num_open_clients (default (mkStatsPerKeyspace 0 []) (stats_per_keyspace sv !! ks)).

Record frontend_inv (s : System) : Prop := {
  fi_tasks : Forall (task_ok (server s) (opened s) (closed s)) (tasks s);
  fi_starting : NoDup (omap starting (tasks s));
  fi_closing : NoDup (omap closing (tasks s));
  fi_opened h : h ∈ opened s -> is_Some (transactions (server s) !! h);
  fi_closed h : h ∈ closed s -> h ∈ opened s /\ stopped (server s) h;
  fi_count ks : open_number ks (server s) = wrap_u32 (Z.of_nat (size (open_clients ks s)));
  fi_known h ks : h ∈ opened s -> ks_of (server s) h = Some ks ->
    is_Some (stats_per_keyspace (server s) !! ks);
  fi_history ks st : stats_per_keyspace (server s) !! ks = Some st ->
    (length (history st) <= MAX_SAMPLES)%nat
}.

Lemma frontend_inv_initial w : frontend_inv (initial w).
Proof.
  split; cbn; try done; try constructor; intros *; set_solver.
Qed.

(** what changes about the transactions when the server goes on *)
Definition evolves (sv sv' : Server W) : Prop :=
  forall h t, transactions sv !! h = Some t ->
    exists t', transactions sv' !! h = Some t' /\ Coordinator.keyspace t' = Coordinator.keyspace t /\
      (Coordinator.state t <> Coordinator.Running -> Coordinator.state t' <> Coordinator.Running).

Lemma evolves_same sv sv' : transactions sv' = transactions sv -> evolves sv sv'.
Proof. intros Ht h t Hh. exists t. by rewrite Ht. Qed.

Lemma evolves_ks sv sv' h ks : evolves sv sv' -> ks_of sv h = Some ks -> ks_of sv' h = Some ks.
Proof.
  unfold ks_of. intros He (t & Hh & ->)%fmap_Some. destruct (He h t Hh) as (t' & -> & Hk & _).
  cbn. by rewrite Hk.
Qed.

Lemma evolves_stopped sv sv' h : evolves sv sv' -> stopped sv h -> stopped sv' h.
Proof.
  intros He (t & Hh & Hs). destruct (He h t Hh) as (t' & Hh' & _ & Hs'). exists t'. auto.
Qed.

Lemma evolves_task sv sv' o c t : evolves sv sv' -> task_ok sv o c t -> task_ok sv' o c t.
Proof.
  intros He. pose proof (evolves_ks sv sv') as Hk. pose proof (evolves_stopped sv sv') as Hs.
  destruct t; cbn; naive_solver.
Qed.

Lemma evolves_known sv sv' h :
  evolves sv sv' -> is_Some (transactions sv !! h) -> ks_of sv' h = ks_of sv h.
Proof.
  intros He [t Hh]. unfold ks_of. destruct (He h t Hh) as (t' & -> & Hk & _). rewrite Hh.
  cbn. by rewrite Hk.
Qed.

Lemma open_clients_evolves ks sv sv' ts ts' o c :
  evolves sv sv' -> (forall h, h ∈ o -> is_Some (transactions sv !! h)) ->
  open_clients ks (mkSystem sv' ts' o c) = open_clients ks (mkSystem sv ts o c).
Proof.
  intros He Ho. apply set_eq. intros h. unfold open_clients. rewrite !elem_of_filter, !elem_of_difference.
  cbn. split; intros (Hk & Hin & Hc); (split; [|done]).
  - pose proof (evolves_known sv sv' h He (Ho h Hin)) as E. unfold ks_of in E. by rewrite <- E.
  - pose proof (evolves_known sv sv' h He (Ho h Hin)) as E. unfold ks_of in E. by rewrite E.
Qed.

(** the server goes on and the statistics keep their counts *)
Lemma inv_evolves sv sv' ts o c :
  evolves sv sv' ->
  (forall ks, open_number ks sv' = open_number ks sv) ->
  (forall ks, is_Some (stats_per_keyspace sv !! ks) -> is_Some (stats_per_keyspace sv' !! ks)) ->
  (forall ks st, stats_per_keyspace sv' !! ks = Some st -> (length (history st) <= MAX_SAMPLES)%nat) ->
  frontend_inv (mkSystem sv ts o c) -> frontend_inv (mkSystem sv' ts o c).
Proof.
  intros He Hn Hs Hh [Ht Hst Hcl Ho Hc Hcount Hk Hhist]. cbn in *. split; cbn; try done.
  - eapply Forall_impl; [exact Ht|]. intros t. by apply evolves_task.
  - intros h Hin. destruct (Ho h Hin) as [t Hh']. destruct (He h t Hh') as (t' & ? & _). by exists t'.
  - intros h Hin. destruct (Hc h Hin). split; [done|by eapply evolves_stopped].
  - intros ks. by rewrite Hn, Hcount, (open_clients_evolves ks sv sv' ts ts o c).
  - intros h ks Hin Hks. apply Hs. apply (Hk h ks Hin). by rewrite <- (evolves_known sv sv' h He (Ho h Hin)).
Qed.

Lemma inv_pop t ts ts' sv o c :
  ts ≡ₚ t :: ts' -> frontend_inv (mkSystem sv ts o c) ->
  frontend_inv (mkSystem sv ts' o c) /\ task_ok sv o c t /\
  (forall h, starting t = Some h -> h ∉ omap starting ts') /\
  (forall h, closing t = Some h -> h ∉ omap closing ts').
Proof.
  intros Hp [Ht Hst Hcl Ho Hc Hcount Hk Hhist]. cbn in *.
  rewrite Hp in Ht, Hst, Hcl. apply Forall_cons in Ht as [Hok Ht]. cbn in Hst, Hcl.
  split_and!; [|done| |].
  - split; cbn; try done.
    + destruct (starting t); [by apply NoDup_cons in Hst as [_ ?]|done].
    + destruct (closing t); [by apply NoDup_cons in Hcl as [_ ?]|done].
  - intros h E. rewrite E in Hst. by apply NoDup_cons in Hst as [? _].
  - intros h E. rewrite E in Hcl. by apply NoDup_cons in Hcl as [? _].
Qed.

Lemma inv_push t ts sv o c :
  frontend_inv (mkSystem sv ts o c) -> task_ok sv o c t ->
  (forall h, starting t = Some h -> h ∉ omap starting ts) ->
  (forall h, closing t = Some h -> h ∉ omap closing ts) ->
  frontend_inv (mkSystem sv (t :: ts) o c).
Proof.
  intros [Ht Hst Hcl Ho Hc Hcount Hk Hhist] Hok Hs Hc'. cbn in *. split; cbn; try done.
  - by constructor.
  - destruct (starting t); [|done]. apply NoDup_cons. auto.
  - destruct (closing t); [|done]. apply NoDup_cons. auto.
Qed.

Lemma inv_quiet sv sv' ts o c :
  evolves sv sv' -> stats_per_keyspace sv' = stats_per_keyspace sv ->
  frontend_inv (mkSystem sv ts o c) -> frontend_inv (mkSystem sv' ts o c).
Proof.
  intros He Hs Hinv. eapply inv_evolves; try done; unfold open_number; rewrite ?Hs; try done.
  apply (fi_history _ Hinv).
Qed.

Lemma on_transaction_quiet {A} h (op : Op A) sv :
  (forall s, Coordinator.keyspace (Coordinator.tx (op s).1) = Coordinator.keyspace (Coordinator.tx s) /\
     (Coordinator.state (Coordinator.tx s) <> Coordinator.Running ->
      Coordinator.state (Coordinator.tx (op s).1) <> Coordinator.Running)) ->
  evolves sv (on_transaction h op sv).1 /\
  stats_per_keyspace (on_transaction h op sv).1 = stats_per_keyspace sv /\
  transaction_table (on_transaction h op sv).1 = transaction_table sv.
Proof.
  intros Hop. unfold on_transaction. destruct (transactions sv !! h) as [t|] eqn:Eh;
    [|by split; [apply evolves_same|]].
  specialize (Hop (Coordinator.mkRun t (services sv) [])).
  destruct (op _) as [run r]. cbn in Hop. destruct Hop as [Hk Hs].
  split; [|done]. intros h' t' Hh'. cbn. destruct (decide (h' = h)) as [->|Hne].
  - exists (Coordinator.tx run). rewrite lookup_insert_eq. by simplify_eq.
  - exists t'. by rewrite lookup_insert_ne.
Qed.

Lemma stops_keeps {A} (m : Op A) : stops m -> preserves goes_on m.
Proof. intros Hm s. by destruct (Hm s) as (? & _ & ?). Qed.

(** the commit of a transaction succeeds once *)
Lemma on_transaction_stops {A} h (op : Op A) sv sv' a :
  stops op -> on_transaction h op sv = (sv', Ok a) -> ~ stopped sv h /\ stopped sv' h.
Proof.
  intros Hop. unfold on_transaction. destruct (transactions sv !! h) as [t|] eqn:Eh; [|done].
  destruct (Hop (Coordinator.mkRun t (services sv) [])) as (_ & Hr & Hs).
  destruct (op _) as [run r]. cbn in Hr, Hs. intros [= <- Er]. split.
  - intros (t' & Ht' & Hs'). simplify_eq. destruct (Hr Hs') as [e ->]. done.
  - exists (Coordinator.tx run). cbn. by rewrite lookup_insert_eq.
Qed.

Lemma keeps_unit {A} h (op : Op A) (o : option Task) sv :
  preserves goes_on op ->
  evolves sv ((on_transaction h op ;;; m_ret o) sv).1 /\
  stats_per_keyspace ((on_transaction h op ;;; m_ret o) sv).1 = stats_per_keyspace sv /\
  (((on_transaction h op ;;; m_ret o) sv).2 = Ok o \/
   next ((on_transaction h op ;;; m_ret o) sv).2 = []).
Proof.
  intros Hop. destruct (on_transaction_quiet h op sv Hop) as (He & Hs & _). unfold m_then.
  destruct (on_transaction h op sv) as [sv' [a|e|]]; cbn in *; auto.
Qed.

(** a request on a transaction, other than a commit *)
Lemma inv_request id h r sv sv' res ts o c :
  r <> RCommit -> advance (Found id h r) sv = (sv', res) ->
  frontend_inv (mkSystem sv ts o c) -> frontend_inv (mkSystem sv' (next res ++ ts) o c).
Proof.
  intros Hr Ha Hinv.
  assert (evolves sv sv' /\ stats_per_keyspace sv' = stats_per_keyspace sv /\
    (next res = [] \/ next res = [Aborting id])) as (He & Hs & Hn).
  { destruct r; cbn in Ha; try done.
    - destruct (keeps_unit h (Coordinator.get ks key) None sv (keeps_get ks key)) as (?&?&[E|E]);
        rewrite Ha in *; cbn in *; subst; auto.
    - destruct (keeps_unit h (Coordinator.put ks key val) None sv (keeps_put ks key val)) as (?&?&[E|E]);
        rewrite Ha in *; cbn in *; subst; auto.
    - destruct (keeps_unit h (Coordinator.del ks key) None sv (keeps_del ks key)) as (?&?&[E|E]);
        rewrite Ha in *; cbn in *; subst; auto.
    - destruct (keeps_unit h Coordinator.abort (Some (Aborting id)) sv keeps_abort) as (?&?&[E|E]);
        rewrite Ha in *; cbn in *; subst; auto. }
  pose proof (inv_quiet sv sv' ts o c He Hs Hinv) as Hinv'.
  destruct Hn as [-> | ->]; [done|]. by apply inv_push.
Qed.

(** the two counts *)
Lemma task_ok_change sv sv' o o' c c' t :
  transactions sv' = transactions sv -> task_ok sv o c t -> o ⊆ o' ->
  (forall h, starting t = Some h -> h ∉ o') -> (forall h, closing t = Some h -> h ∉ c') ->
  task_ok sv' o' c' t.
Proof.
  intros Ht Hok Ho Hs Hc. destruct t; cbn in *; unfold ks_of, stopped in *; rewrite ?Ht;
    destruct_and?; split_and?; auto.
Qed.

Lemma tasks_ok_change sv sv' o o' c c' ts :
  transactions sv' = transactions sv -> Forall (task_ok sv o c) ts -> o ⊆ o' ->
  (forall h, h ∈ omap starting ts -> h ∉ o') -> (forall h, h ∈ omap closing ts -> h ∉ c') ->
  Forall (task_ok sv' o' c') ts.
Proof.
  intros Ht Hok Ho Hs Hc. apply Forall_forall. intros t Hin.
  pose proof (proj1 (Forall_forall _ _) Hok t Hin).
  eapply task_ok_change; [done..| |]; intros h E; [apply Hs|apply Hc]; apply list_elem_of_omap; eauto.
Qed.

Lemma starting_unopened sv o c ts h :
  Forall (task_ok sv o c) ts -> h ∈ omap starting ts -> h ∉ o.
Proof.
  intros Hok (t & Hin & E)%list_elem_of_omap. pose proof (proj1 (Forall_forall _ _) Hok t Hin) as Ht.
  destruct t; cbn in *; simplify_eq. by destruct Ht.
Qed.

Lemma closing_unclosed sv o c ts h :
  Forall (task_ok sv o c) ts -> h ∈ omap closing ts -> h ∉ c /\ stopped sv h.
Proof.
  intros Hok (t & Hin & E)%list_elem_of_omap. pose proof (proj1 (Forall_forall _ _) Hok t Hin) as Ht.
  destruct t; cbn in *; simplify_eq; by destruct_and!.
Qed.

Lemma elem_of_open_clients h ks sv ts o c :
  h ∈ open_clients ks (mkSystem sv ts o c) <-> ks_of sv h = Some ks /\ h ∈ o /\ h ∉ c.
Proof. unfold open_clients. by rewrite elem_of_filter, elem_of_difference. Qed.

Lemma open_number_update ks ks' n hist sv :
  open_number ks' (set_stats (<[ks := mkStatsPerKeyspace n hist]> (stats_per_keyspace sv)) sv) =
  if decide (ks' = ks) then n else open_number ks' sv.
Proof.
  unfold open_number. cbn. destruct (decide (ks' = ks)) as [->|Hne].
  - by rewrite lookup_insert_eq.
  - by rewrite lookup_insert_ne.
Qed.

(** the count of one key space changes by [d], as the set of its open
    transactions does *)
Lemma inv_count h ks n hist sv ts o o' c c' :
  frontend_inv (mkSystem sv ts o c) -> ks_of sv h = Some ks -> o ⊆ o' ->
  (forall h', h' ∈ o' -> h' ∈ o \/ h' = h) -> (forall h', h' ∈ c' -> h' ∈ c \/ (h' = h /\ stopped sv h)) ->
  c' ⊆ o' -> h ∈ o' ->
  (forall h', h' ∈ omap starting ts -> h' ∉ o') -> (forall h', h' ∈ omap closing ts -> h' ∉ c') ->
  (forall ks', ks' <> ks -> forall h', ks_of sv h' = Some ks' -> h' ∈ c' -> h' ∈ c) ->
  c ⊆ c' ->
  n = wrap_u32 (Z.of_nat (size (open_clients ks (mkSystem sv ts o' c')))) ->
  (length hist <= MAX_SAMPLES)%nat ->
  frontend_inv (mkSystem (set_stats (<[ks := mkStatsPerKeyspace n hist]> (stats_per_keyspace sv)) sv)
                  ts o' c').
Proof.
  intros [Ht Hst Hcl Ho Hc Hcount Hk Hhist] Hks Hoo Ho' Hc' Hco Hho Hs Hcs Hothers Hcc Hn Hh.
  cbn in *. split; cbn; try done.
  - by eapply tasks_ok_change.
  - intros h' [Hin | ->]%Ho'; [by apply Ho|]. unfold ks_of in Hks.
    apply fmap_Some in Hks as (t & Ht' & _). by exists t.
  - intros h' Hin. split; [by apply Hco|]. destruct (Hc' h' Hin) as [?|[-> ?]]; [by apply Hc|done].
  - intros ks'. rewrite open_number_update. destruct (decide (ks' = ks)) as [->|Hne]; [done|].
    rewrite Hcount. do 3 f_equal. apply set_eq. intros h'. rewrite !elem_of_open_clients.
    change (ks_of (set_stats _ sv) h') with (ks_of sv h'). split; intros (E & Hin & Hnc).
    + split_and!; [done|by apply Hoo|]. intros Hin'. by apply Hnc, (Hothers ks').
    + split_and!; [done| |by intros ?%Hcc]. destruct (Ho' h' Hin) as [? | ->]; [done|congruence].
  - intros h' ks' Hin Hks'. destruct (decide (ks' = ks)) as [->|Hne];
      [by rewrite lookup_insert_eq|]. rewrite lookup_insert_ne by done.
    change (ks_of sv h' = Some ks') in Hks'. apply (Hk h'); [|done].
    destruct (Ho' h' Hin) as [? | ->]; [done|congruence].
  - intros ks' st. rewrite lookup_insert_Some. intros [[<- <-]|[_ E]]; [done|by eapply Hhist].
Qed.

Lemma wrap_u32_add a b : wrap_u32 (wrap_u32 a + b) = wrap_u32 (a + b).
Proof. unfold wrap_u32. apply Zplus_mod_idemp_l. Qed.

Lemma inv_opened h ks sv ts o c :
  frontend_inv (mkSystem sv ts o c) -> ks_of sv h = Some ks -> h ∉ o -> h ∉ omap starting ts ->
  frontend_inv (mkSystem (count_opened ks sv) ts (o ∪ {[h]}) c).
Proof.
  intros Hinv Hks Hno Hns. unfold count_opened. apply (inv_count h ks _ _ sv ts o _ c); try done.
  - set_solver.
  - set_solver.
  - set_solver.
  - intros h' Hin. destruct (fi_closed _ Hinv h' Hin). set_solver.
  - set_solver.
  - intros h' Hin. pose proof (starting_unopened _ _ _ _ _ (fi_tasks _ Hinv) Hin). cbn in *. set_solver.
  - intros h' Hin. by apply (closing_unclosed _ _ _ _ _ (fi_tasks _ Hinv) Hin).
  - pose proof (fi_count _ Hinv ks) as Hcount. cbn in Hcount.
    fold (open_number ks sv). rewrite Hcount, wrap_u32_add.
    assert (open_clients ks (mkSystem sv ts (o ∪ {[h]}) c) =
      {[h]} ∪ open_clients ks (mkSystem sv ts o c)) as ->.
    { assert (h ∉ c) by (intros Hin; by destruct (fi_closed _ Hinv h Hin)).
      apply set_eq. intros h'. rewrite elem_of_union, !elem_of_open_clients, elem_of_union,
        elem_of_singleton. naive_solver. }
    rewrite size_union by (intros h'; rewrite elem_of_open_clients, elem_of_singleton; by intros -> (?&?&?)).
    rewrite size_singleton. f_equal. lia.
  - destruct (stats_per_keyspace sv !! ks) eqn:E; cbn; [by eapply (fi_history _ Hinv)|lia].
Qed.

Lemma inv_closed h ks sv ts o c :
  frontend_inv (mkSystem sv ts o c) -> ks_of sv h = Some ks -> h ∈ o -> h ∉ c -> stopped sv h ->
  h ∉ omap closing ts ->
  exists sv', count_closed ks sv = (sv', Ok tt) /\ frontend_inv (mkSystem sv' ts o (c ∪ {[h]})).
Proof.
  intros Hinv Hks Hin Hnc Hstop Hncl.
  destruct (fi_known _ Hinv h ks Hin Hks) as [st Hst]. cbn in Hst.
  eexists. split; [unfold count_closed, m_then, m_get, m_unwrap; by rewrite Hst|].
  apply (inv_count h ks _ _ sv ts o _ c); try done.
  - set_solver.
  - set_solver.
  - intros h' [Hin'|Hin']%elem_of_union; [by destruct (fi_closed _ Hinv h' Hin')|set_solver].
  - intros h' Hin'. by apply (starting_unopened _ _ _ _ _ (fi_tasks _ Hinv) Hin').
  - intros h' Hin'. pose proof (closing_unclosed _ _ _ _ _ (fi_tasks _ Hinv) Hin'). cbn in *. set_solver.
  - intros ks' Hne h' Hks' [?| ->%elem_of_singleton]%elem_of_union; [done|congruence].
  - set_solver.
  - pose proof (fi_count _ Hinv ks) as Hcount. unfold open_number in Hcount. cbn in Hcount.
    rewrite Hst in Hcount. cbn in Hcount. unfold Z.sub. rewrite Hcount, wrap_u32_add.
    assert (open_clients ks (mkSystem sv ts o c) =
      {[h]} ∪ open_clients ks (mkSystem sv ts o (c ∪ {[h]}))) as ->.
    { apply set_eq. intros h'. rewrite elem_of_union, !elem_of_open_clients, elem_of_union,
        elem_of_singleton. destruct (decide (h' = h)); naive_solver. }
    rewrite size_union by (intros h'; rewrite elem_of_open_clients, elem_of_singleton; set_solver).
    rewrite size_singleton. f_equal. lia.
  - by eapply (fi_history _ Hinv).
Qed.

Lemma start_spec id now ks sv sv' h :
  start id now ks sv = (sv', Ok h) ->
  exists t, transactions sv !! h = None /\ transactions sv' = <[h := t]> (transactions sv) /\
    transaction_table sv' = <[id := h]> (transaction_table sv) /\
    stats_per_keyspace sv' = stats_per_keyspace sv /\
    t = Coordinator.new (mkTransactionInfo id now overall_timeout) strategy ks.
Proof.
  unfold start, Coordinator.start_transaction.
  destruct (Coordinator.ts_start_transaction _ _) as [w [[]|e|]]; intros [= <- <-].
  eexists. split_and!; [|done..]. apply not_elem_of_dom, is_fresh.
Qed.

Lemma inv_start id now ks sv sv' h ts o c :
  start id now ks sv = (sv', Ok h) -> frontend_inv (mkSystem sv ts o c) ->
  frontend_inv (mkSystem sv' (Starting h ks :: ts) o c).
Proof.
  intros (t & Hh & Htr & _ & Hst & Ht)%start_spec Hinv.
  assert (evolves sv sv') as He.
  { intros h' t' Hh'. exists t'. rewrite Htr, lookup_insert_ne by congruence. done. }
  apply inv_push; [by eapply inv_quiet| | |done].
  - split; [unfold ks_of; rewrite Htr, lookup_insert_eq; by subst|].
    intros [t' Hin]%(fi_opened _ Hinv). cbn in Hin. congruence.
  - intros h' [= <-] (t' & Hin & E)%list_elem_of_omap.
    pose proof (proj1 (Forall_forall _ _) (fi_tasks _ Hinv) t' Hin) as Hok.
    destruct t'; cbn in *; simplify_eq. destruct Hok as [Hks _]. unfold ks_of in Hks.
    by rewrite Hh in Hks.
Qed.

Lemma inv_sample ks st sv ts o c :
  stats_per_keyspace sv !! ks = Some st -> frontend_inv (mkSystem sv ts o c) ->
  frontend_inv (mkSystem (set_stats (<[ks := push_sample st]> (stats_per_keyspace sv)) sv) ts o c).
Proof.
  intros Hst Hinv. apply (inv_evolves sv); [by apply evolves_same| | | |done].
  - intros ks'. unfold push_sample. rewrite open_number_update.
    destruct (decide (ks' = ks)) as [->|]; [|done]. unfold open_number. by rewrite Hst.
  - intros ks' [st' Hks']. cbn. destruct (decide (ks' = ks)) as [->|];
      [by rewrite lookup_insert_eq|]. by rewrite lookup_insert_ne, Hks'.
  - intros ks' st'. cbn. intros [[<- <-]|[_ E]]%lookup_insert_Some; [|by eapply (fi_history _ Hinv)].
    pose proof (fi_history _ Hinv _ _ Hst) as Hl. unfold push_sample. cbn [history].
    destruct (Nat.ltb_spec MAX_SAMPLES (length (history st ++ [num_open_clients st])));
      [|lia]. rewrite length_drop, length_app in *. cbn in *. lia.
Qed.

(** a commit goes on through its pieces *)
Lemma inv_commit t sv sv' r ts o c :
  advance t sv = (sv', r) ->
  match t with Keyed _ _ _ | Sampled _ _ _ _ | Loaded _ _ _ _ _ | Aborting _ | Decided _ _ _ => True
  | Found _ _ RCommit => True | _ => False end ->
  frontend_inv (mkSystem sv ts o c) -> task_ok sv o c t ->
  (forall h, closing t = Some h -> h ∉ omap closing ts) ->
  frontend_inv (mkSystem sv' (next r ++ ts) o c).
Proof.
  intros Ha Hcase Hinv Hok Hcl. destruct t as [|id h []|id h ks|id h ks n|id h ks n load|id|id h ks|];
    try done; cbn in Hok.
  - cbn in Ha. unfold keyspace_of, m_then, m_get in Ha.
    destruct (transactions sv !! h) as [t|] eqn:E; injection Ha as <- <-; [|done].
    apply inv_push; try done. split; [done|]. unfold ks_of. by rewrite E.
  - destruct Hok as [Hin Hks]. destruct (fi_known _ Hinv h ks Hin Hks) as [st Hst]. cbn in Hst.
    cbn in Ha. unfold sample_open_clients, m_then, m_get, m_unwrap in Ha. rewrite Hst in Ha.
    injection Ha as <- <-. apply inv_push; [by apply inv_sample|done..].
  - injection Ha as <- <-. by apply inv_push.
  - cbn in Ha. destruct (on_transaction_quiet h _ sv (stops_keeps _ (commit_stops load n)))
      as (He & Hs & _).
    unfold m_then in Ha. destruct (on_transaction h _ sv) as [sv1 r1] eqn:E. cbn in He, Hs.
    destruct r1 as [[]|e|]; injection Ha as <- <-; [|by apply (inv_quiet sv)..].
    destruct (on_transaction_stops _ _ _ _ _ (commit_stops load n) E) as [Hrun Hstop].
    apply inv_push; [by apply (inv_quiet sv)| |done|].
    + destruct Hok as [Hin Hks]. split_and!; [done| |by eapply evolves_ks|done].
      intros Hc. by destruct (fi_closed _ Hinv h Hc).
    + intros h' [= <-] Hin. by destruct (closing_unclosed _ _ _ _ _ (fi_tasks _ Hinv) Hin).
  - injection Ha as <- <-. by apply (inv_quiet sv); [apply evolves_same| |].
  - injection Ha as <- <-. apply inv_push; [|done|done|done].
    by apply (inv_quiet sv); [apply evolves_same| |].
Qed.

Lemma frontend_inv_step s s' : step s s' -> frontend_inv s -> frontend_inv s'.
Proof.
  intros Hs Hinv. destruct Hs as [id now ks sv sv' h ts o c Hst|id h r sv ts o c Ht Ho|
    t ts ts' sv sv' r o c Hp Ha|t ts ts' sv o c Hp|load sv ts o c|w sv ts o c].
  - by eapply inv_start.
  - by apply inv_push.
  - destruct (inv_pop t ts ts' sv o c Hp Hinv) as (Hinv' & Hok & Hs & Hc).
    destruct t as [h ks|id h r'| | | | | |h ks]; cbn [opens closes];
      rewrite ?(right_id_L ∅ (∪)); try (by apply (inv_commit _ sv _ _ _ _ _ Ha I)).
    + injection Ha as <- <-. cbn. destruct Hok. apply inv_opened; auto.
    + destruct (decide (r' = RCommit)) as [->|Hr]; [by apply (inv_commit _ sv _ _ _ _ _ Ha I)|by eapply inv_request].
    + destruct Hok as (Hin & Hnc & Hks & Hstop).
      destruct (inv_closed h ks sv ts' o c Hinv' Hks Hin Hnc Hstop (Hc h eq_refl)) as (sv1 & E & Hinv1).
      cbn in Ha. unfold m_then in Ha. rewrite E in Ha. by injection Ha as <- <-.
  - by apply (inv_pop t ts ts').
  - by apply (inv_quiet sv); [apply evolves_same| |].
  - by apply (inv_quiet sv); [apply evolves_same| |].
Qed.

Lemma frontend_inv_reachable s s' : rtc step s s' -> frontend_inv s -> frontend_inv s'.
Proof. induction 1; eauto using frontend_inv_step. Qed.

(** ** The writes of a transaction *)

Definition holds_write (t : Coordinator.Transaction) (k v : Bytes) : Prop :=
  exists r p, Coordinator.participant_ranges t !! r = Some p /\
    Coordinator.writeset p !! k = Some v.

Lemma same_writes_holds t t' k v : same_writes t t' -> holds_write t k v -> holds_write t' k v.
Proof. intros [E _] (r & p & Hr & Hk). exists r, p. by rewrite E. Qed.

Lemma commit_same_writes load n : preserves same_writes (Coordinator.commit join load n).
Proof.
  assert (forall info l early, preserves same_writes (Coordinator.prepare_loop info l early)).
  { intros info l. induction l as [|[r args] l IH]; intros early; cbn; solve_preserves. apply IH. }
  unfold Coordinator.commit. solve_preserves; auto.
Qed.

(** a put that succeeds *)
Lemma put_writes ks k v s s' :
  Coordinator.put ks k v s = (s', Ok tt) ->
  holds_write (Coordinator.tx s') k v /\
  Coordinator.id (Coordinator.tx s') = Coordinator.id (Coordinator.tx s) /\
  (forall k' v', (k' = k -> v' = v) -> holds_write (Coordinator.tx s) k' v' ->
     holds_write (Coordinator.tx s') k' v').
Proof.
  unfold Coordinator.put, m_then. destruct (Coordinator.check_still_running s) as [s0 [[]|e|]] eqn:E0;
    try done.
  assert (s0 = s) as ->.
  { unfold Coordinator.check_still_running, m_then, m_get in E0.
    destruct (Coordinator.state _); by injection E0 as <-. }
  unfold Coordinator.resolve_full_record_key, m_then, Coordinator.ask.
  destruct (Coordinator.full_range_id_of_key ks k (Coordinator.world s)) as [w [[r|]|e|]]; [|done..].
  intros [= <-]. cbn. split_and!; [|done|].
  - exists r. eexists. cbn. rewrite lookup_insert_eq. split; [done|]. cbn. by rewrite lookup_insert_eq.
  - intros k' v' Hv (r' & p & Hr' & Hk'). exists r'.
    cbn. rewrite insert_insert_eq. destruct (decide (r' = r)) as [->|Hne].
    + eexists. rewrite lookup_insert_eq. split; [done|]. cbn. rewrite Hr'. cbn.
      destruct (decide (k' = k)) as [->|Hk]; [rewrite lookup_insert_eq; by rewrite Hv|].
      by rewrite lookup_insert_ne.
    + exists p. by rewrite lookup_insert_ne.
Qed.

(** the transaction [h] of the id [id] goes from one state to another *)
Definition moves (id : Uuid) (h : positive) (R : relation Coordinator.Transaction)
    (sv sv' : Server W) : Prop :=
  transaction_table sv' = transaction_table sv /\ stats_per_keyspace sv' = stats_per_keyspace sv /\
  forall t, transaction_table sv !! id = Some h -> transactions sv !! h = Some t ->
    exists t', transactions sv' !! h = Some t' /\ R t t'.

Lemma on_transaction_moves {A} id h (op : Op A) (R : relation Coordinator.Transaction) sv sv' a :
  (forall s s', op s = (s', Ok a) -> R (Coordinator.tx s) (Coordinator.tx s')) ->
  on_transaction h op sv = (sv', Ok a) -> moves id h R sv sv'.
Proof.
  intros Hop. unfold on_transaction. destruct (transactions sv !! h) as [t|] eqn:Eh; [|done].
  destruct (op _) as [run r] eqn:E. intros [= <- Er]. split_and!; [done|done|].
  intros t0 _ Ht0. exists (Coordinator.tx run). cbn. rewrite lookup_insert_eq. split; [done|].
  destruct r; simplify_eq. by apply (Hop _ _ E).
Qed.

(** a loop of requests on one transaction: what each request establishes of its
    item holds of all of them at the end *)
Lemma for_moves {A} id h (body : A -> Handler unit) (P : A -> Coordinator.Transaction -> Prop)
    (Q : Coordinator.Transaction -> Prop) l sv sv' t :
  m_for l body sv = (sv', Ok tt) ->
  (forall x sv sv', x ∈ l -> transaction_table sv !! id = Some h -> body x sv = (sv', Ok tt) ->
     moves id h (fun t t' => P x t' /\ (Q t -> Q t') /\ forall y, y ∈ l -> P y t -> P y t') sv sv') ->
  transaction_table sv !! id = Some h -> transactions sv !! h = Some t -> Q t ->
  transaction_table sv' = transaction_table sv /\ stats_per_keyspace sv' = stats_per_keyspace sv /\
  exists t', transactions sv' !! h = Some t' /\ Q t' /\
    (forall y, y ∈ l -> P y t') /\ (forall y, P y t -> y ∈ l -> P y t').
Proof.
  intros Hf Hbody. revert Hf.
  assert (forall m, m ⊆ l -> forall sv t, m_for m body sv = (sv', Ok tt) ->
    transaction_table sv !! id = Some h -> transactions sv !! h = Some t -> Q t ->
    transaction_table sv' = transaction_table sv /\ stats_per_keyspace sv' = stats_per_keyspace sv /\
    exists t', transactions sv' !! h = Some t' /\ Q t' /\
      (forall y, y ∈ m -> P y t') /\ (forall y, P y t -> y ∈ l -> P y t')) as Hm.
  { clear sv t. induction m as [|x m IH]; intros Hsub sv t Hf Ht Htr HQ.
    - injection Hf as <-. split_and!; [done|done|]. exists t. set_solver.
    - cbn in Hf. unfold m_then in Hf. destruct (body x sv) as [sv1 [[]|e|]] eqn:Eb; try done.
      destruct (Hbody x sv sv1 ltac:(set_solver) Ht Eb) as (Et & Es & Hmv).
      destruct (Hmv t Ht Htr) as (t1 & Ht1 & HP1 & HQ1 & Hk1).
      destruct (IH ltac:(set_solver) sv1 t1 Hf ltac:(by rewrite Et) Ht1 (HQ1 HQ))
        as (Et' & Es' & t' & Ht' & HQ' & HP' & Hk').
      split_and!; [congruence|congruence|]. exists t'. split_and!; [done|done| |auto].
      intros y [-> | Hy]%elem_of_cons; [|auto]. apply Hk'; [done|set_solver]. }
  intros Hf Ht Htr HQ. by apply (Hm l).
Qed.

(** once its commit can no longer succeed, an open transaction is not closed *)
Definition never_closed (h : positive) (s : System) : Prop :=
  h ∈ opened s /\ h ∉ closed s /\ stopped (server s) h /\ h ∉ omap closing (tasks s).

Lemma advance_evolves t sv sv' r : advance t sv = (sv', r) -> evolves sv sv'.
Proof.
  intros Ha. destruct t as [h ks|id h []|id h ks|id h ks n|id h ks n load|id|id h ks|h ks]; cbn in Ha.
  - injection Ha as <- _. by apply evolves_same.
  - destruct (keeps_unit h _ None sv (keeps_get ks key)) as (He & _). by rewrite Ha in He.
  - destruct (keeps_unit h _ None sv (keeps_put ks key val)) as (He & _). by rewrite Ha in He.
  - destruct (keeps_unit h _ None sv (keeps_del ks key)) as (He & _). by rewrite Ha in He.
  - destruct (keeps_unit h _ (Some (Aborting id)) sv keeps_abort) as (He & _). by rewrite Ha in He.
  - unfold keyspace_of, m_then, m_get in Ha.
    destruct (transactions sv !! h); injection Ha as <- _; by apply evolves_same.
  - unfold sample_open_clients, m_then, m_get in Ha.
    destruct (stats_per_keyspace sv !! ks); injection Ha as <- _; by apply evolves_same.
  - injection Ha as <- _. by apply evolves_same.
  - destruct (keeps_unit h _ (Some (Decided id h ks)) sv (stops_keeps _ (commit_stops load n)))
      as (He & _). by rewrite Ha in He.
  - injection Ha as <- _. by apply evolves_same.
  - injection Ha as <- _. by apply evolves_same.
  - unfold count_closed, m_then, m_get in Ha.
    destruct (stats_per_keyspace sv !! ks); injection Ha as <- _; by apply evolves_same.
Qed.

Lemma next_then {A} (m : Handler A) (f : A -> option Task) sv sv' r :
  (let! a := m in m_ret (f a)) sv = (sv', r) ->
  next r = [] \/ exists a, m sv = (sv', Ok a) /\ next r = option_list (f a).
Proof.
  unfold m_then. destruct (m sv) as [sv1 [a|e|]]; intros [= <- <-]; [|by left..].
  right. exists a. cbn. by destruct (f a).
Qed.

(** the next place of a request closes a transaction only if the request does, or
    if it has just committed it *)
Lemma next_closing t sv sv' r h :
  advance t sv = (sv', r) -> h ∈ omap closing (next r) -> closing t = Some h \/ ~ stopped sv h.
Proof.
  intros Ha Hin.
  destruct t as [h' ks|id h' []|id h' ks|id h' ks n|id h' ks n load|id|id h' ks|h' ks];
    cbn [advance] in Ha; apply next_then in Ha as [E|(a & Hm & E)]; rewrite E in Hin; cbn in Hin;
    try set_solver.
  apply list_elem_of_singleton in Hin as ->. right. destruct a.
  by apply (on_transaction_stops _ _ _ _ _ (commit_stops load n) Hm).
Qed.

Lemma never_closed_step h s s' : step s s' -> frontend_inv s -> never_closed h s -> never_closed h s'.
Proof.
  intros Hs Hinv (Ho & Hc & Hst & Hcl). unfold never_closed.
  destruct Hs as [id now ks sv sv' h' ts o c Hst'|id h' r sv ts o c Ht Ho'|
    t ts ts' sv sv' r o c Hp Ha|t ts ts' sv o c Hp|load sv ts o c|w sv ts o c]; cbn in *; try done.
  - destruct (start_spec _ _ _ _ _ _ Hst') as (t & Hh & Htr & _). split_and!; try done.
    destruct Hst as (t' & Ht' & Hr). exists t'. rewrite Htr, lookup_insert_ne by congruence. done.
  - rewrite Hp in Hcl. cbn in Hcl. split_and!; [set_solver| | |].
    + destruct t; cbn in *; set_solver.
    + by eapply evolves_stopped; [eapply advance_evolves|].
    + rewrite omap_app, elem_of_app. intros [Hin|Hin].
      * destruct (next_closing _ _ _ _ _ Ha Hin) as [E|E]; [|done]. rewrite E in Hcl. set_solver.
      * destruct (closing t); set_solver.
  - rewrite Hp in Hcl. cbn in Hcl. split_and!; try done. destruct (closing t); set_solver.
Qed.

(** ** Properties *)

(** C12: The frontend counts its open clients exactly. However the requests
    interleave, stop or fail, the number of open clients of a key space is the
    number of its transactions that were counted as opened and not as closed
    (modulo the width of the counter); no transaction is closed twice, so a
    decrement always finds a positive count; the entries that a commit unwraps
    are there; and the samples are at most a hundred. *)
Theorem open_clients_counted w s :
  rtc step (initial w) s ->
  (forall ks, open_number ks (server s) = wrap_u32 (Z.of_nat (size (open_clients ks s)))) /\
  (forall h ks, Removed h ks ∈ tasks s ->
     h ∈ open_clients ks s /\ is_Some (stats_per_keyspace (server s) !! ks)) /\
  (forall id h ks, Keyed id h ks ∈ tasks s -> is_Some (stats_per_keyspace (server s) !! ks)) /\
  (forall ks st, stats_per_keyspace (server s) !! ks = Some st ->
     (length (history st) <= MAX_SAMPLES)%nat).
Proof.
  intros Hr. pose proof (frontend_inv_reachable _ _ Hr (frontend_inv_initial w)) as Hinv.
  pose proof (proj1 (Forall_forall _ _) (fi_tasks _ Hinv)) as Hok.
  split_and!; [apply (fi_count _ Hinv)| | |apply (fi_history _ Hinv)].
  - intros h ks Hin. destruct (Hok _ Hin) as (Ho & Hc & Hks & _). destruct s as [sv ts o c].
    split; [by apply elem_of_open_clients|by apply (fi_known _ Hinv h)].
  - intros id h ks Hin. destruct (Hok _ Hin) as [Ho Hks]. by apply (fi_known _ Hinv h).
Qed.

(** A transaction that ends without a successful commit is counted for ever.
    Only a commit that succeeds decrements the count: the client of a
    transaction that was aborted, or whose commit failed, is never closed, so
    the count from which the ranges are told how many clients are open, and by
    which they decide whether to release locks early, includes it ever after. *)
Theorem stopped_client_stays_open w s s' h ks :
  rtc step (initial w) s -> h ∈ open_clients ks s -> stopped (server s) h ->
  (forall id ks', Decided id h ks' ∉ tasks s /\ Removed h ks' ∉ tasks s) ->
  rtc step s s' ->
  h ∈ open_clients ks s' /\ (1 <= size (open_clients ks s'))%nat.
Proof.
  intros Hr Hopen Hst Hno Hr'.
  pose proof (frontend_inv_reachable _ _ Hr (frontend_inv_initial w)) as Hinv.
  assert (ks_of (server s) h = Some ks /\ never_closed h s) as [Hks Hnever].
  { destruct s as [sv ts o c]. apply elem_of_open_clients in Hopen as (Hks & Ho & Hc).
    split; [done|]. split_and!; [done..|]. intros (t & Hin & E)%list_elem_of_omap.
    destruct t as [| | | | | |id h' ks'|h' ks']; cbn in E; simplify_eq.
    - by destruct (Hno id ks') as [? _].
    - by destruct (Hno 0%N ks') as [_ ?]. }
  assert (ks_of (server s') h = Some ks /\ never_closed h s') as [Hks' (Ho & Hc & _)].
  { clear Hopen Hst Hno Hr. induction Hr' as [|s1 s2 s3 Hs _ IH]; [done|].
    apply IH; [by eapply frontend_inv_step| |by eapply never_closed_step].
    destruct Hs as [id now ks0 sv sv' h' ts o c Hst'|?|t ts ts' sv sv' r o c Hp Ha|?|?|?]; try done.
    - cbn in *. destruct (start_spec _ _ _ _ _ _ Hst') as (t & Hh & Htr & _). unfold ks_of in *.
      rewrite Htr, lookup_insert_ne; [done|]. intros ->. by rewrite Hh in Hks.
    - cbn in *. by eapply evolves_ks; [eapply advance_evolves|]. }
  assert (h ∈ open_clients ks s') as Hin by (destruct s'; by apply elem_of_open_clients).
  split; [done|]. assert (size (open_clients ks s') <> 0)%nat; [|lia].
  intros E%size_empty_iff. set_solver.
Qed.

Section Requests.
Context (parse_uuid : string -> option Uuid) (print_uuid : Uuid -> string).

(** the beginning of every request on a transaction *)
Lemma find_ok {A} tid id h sv (k : Uuid -> positive -> Handler A) :
  parse_uuid tid = Some id -> transaction_table sv !! id = Some h ->
  (let! id := required (parse_uuid tid) InvalidArgument in
   let! h := find_transaction id in k id h) sv = k id h sv.
Proof.
  intros Hp Ht. rewrite Hp. erewrite then_ok by done. apply then_ok.
  unfold find_transaction. erewrite then_ok by done. by rewrite Ht.
Qed.

Definition same_id (t t' : Coordinator.Transaction) : Prop := Coordinator.id t' = Coordinator.id t.
#[local] Instance same_id_preorder : PreOrder same_id.
Proof. split; [done|]. unfold same_id. intros t1 t2 t3 ? ?. congruence. Qed.

Lemma get_keeps_id ks key : preserves same_id (Coordinator.get ks key).
Proof. solve_preserves. Qed.

Lemma get_moves tid id h ks k sv sv' a R :
  parse_uuid tid = Some id -> transaction_table sv !! id = Some h ->
  (forall s, R (Coordinator.tx s) (Coordinator.tx (Coordinator.get ks k s).1)) ->
  get parse_uuid (mkGetRequest tid (Some ks) k) sv = (sv', Ok a) -> moves id h R sv sv'.
Proof.
  intros Hp Ht HR. unfold get. cbn [get_transaction_id get_keyspace get_key]. rewrite Hp.
  erewrite then_ok by done. erewrite then_ok by done. erewrite then_ok by (
    unfold find_transaction; erewrite then_ok by done; by rewrite Ht).
  apply on_transaction_moves. intros s s' E. pose proof (HR s) as HR'. by rewrite E in HR'.
Qed.

Lemma put_moves tid id h ks k v sv sv' :
  parse_uuid tid = Some id -> transaction_table sv !! id = Some h ->
  put parse_uuid (mkPutRequest tid (Some ks) k v) sv = (sv', Ok tt) ->
  moves id h (fun t t' => holds_write t' k v /\
    (Coordinator.id t' = Coordinator.id t /\ Coordinator.keyspace t' = Coordinator.keyspace t) /\
    forall k' v', (k' = k -> v' = v) -> holds_write t k' v' -> holds_write t' k' v') sv sv'.
Proof.
  intros Hp Ht. unfold put. cbn [put_transaction_id put_keyspace put_key put_value]. rewrite Hp.
  erewrite then_ok by done. erewrite then_ok by done. erewrite then_ok by (
    unfold find_transaction; erewrite then_ok by done; by rewrite Ht).
  apply on_transaction_moves. intros s s' E.
  destruct (put_writes _ _ _ _ _ E) as (? & ? & ?). pose proof (keeps_put ks k v s) as [Hk _].
  rewrite E in Hk. by split_and!.
Qed.

Lemma commit_handler tid id h t sv sv' :
  parse_uuid tid = Some id -> transaction_table sv !! id = Some h -> transactions sv !! h = Some t ->
  commit parse_uuid tid sv = (sv', Ok tt) ->
  exists t', transactions sv' !! h = Some t' /\ same_writes t t' /\
    Coordinator.keyspace t' = Coordinator.keyspace t /\
    Coordinator.state t' <> Coordinator.Running /\
    transaction_table sv' = delete id (transaction_table sv) /\
    open_number (Coordinator.keyspace t) sv' =
      wrap_u32 (open_number (Coordinator.keyspace t) sv - 1).
Proof.
  intros Hp Ht Htr. unfold commit. rewrite (find_ok tid id h) by done.
  erewrite then_ok by (unfold keyspace_of; erewrite then_ok by done; by rewrite Htr).
  destruct (stats_per_keyspace sv !! Coordinator.keyspace t) as [st|] eqn:Es;
    [|unfold m_then at 1, sample_open_clients at 1, m_then, m_get at 1; by rewrite Es].
  erewrite then_ok by (unfold sample_open_clients; erewrite then_ok by done; by rewrite Es).
  erewrite then_ok by done. unfold m_then at 1, on_transaction. cbn [transactions set_stats].
  rewrite Htr.
  match goal with |- context [Coordinator.commit ?j ?l ?n ?s] =>
    pose proof (commit_stops l n s) as (Hk & _ & Hstop); pose proof (commit_same_writes l n s) as Hw;
    destruct (Coordinator.commit j l n s) as [run [[]|e|]] end; [|done|done].
  cbn [fst Coordinator.tx] in Hk, Hstop, Hw.
  erewrite then_ok by done. unfold count_closed. erewrite then_ok by done. cbn.
  rewrite lookup_insert_eq. erewrite then_ok by done. intros [= <-]. cbn.
  exists (Coordinator.tx run). rewrite lookup_insert_eq. split_and!; try done.
  unfold open_number. cbn. by rewrite lookup_insert_eq, Es.
Qed.

Lemma start_transaction_spec id now ks sv sv' tid :
  start_transaction print_uuid id now (mkStartTransactionRequest (Some ks)) sv = (sv', Ok tid) ->
  tid = print_uuid id /\ exists h, transactions sv !! h = None /\
    transactions sv' !! h =
      Some (Coordinator.new (mkTransactionInfo id now overall_timeout) strategy ks) /\
    transaction_table sv' !! id = Some h /\
    open_number ks sv' = wrap_u32 (open_number ks sv + 1).
Proof.
  unfold start_transaction. erewrite then_ok by done. unfold m_then at 1.
  destruct (start id now ks sv) as [sv1 [h|e|]] eqn:E; try done. intros [= <- <-]. split; [done|].
  destruct (start_spec _ _ _ _ _ _ E) as (t & Hh & Htr & Htb & Hst & ->).
  exists h. cbn. rewrite Htr, Htb, !lookup_insert_eq. split_and!; try done.
  unfold open_number. cbn. by rewrite lookup_insert_eq, Hst.
Qed.

Lemma gets_keep tid id h ks keys sv sv' t :
  parse_uuid tid = Some id -> transaction_table sv !! id = Some h -> transactions sv !! h = Some t ->
  m_for keys (fun key => get parse_uuid (mkGetRequest tid (Some ks) key) ;;; m_ret tt) sv = (sv', Ok tt) ->
  transaction_table sv' = transaction_table sv /\ stats_per_keyspace sv' = stats_per_keyspace sv /\
  exists t', transactions sv' !! h = Some t' /\ Coordinator.id t' = Coordinator.id t /\
    Coordinator.keyspace t' = Coordinator.keyspace t.
Proof.
  intros Hp Ht Htr Hf.
  destruct (for_moves id h _ (fun _ _ => True)
    (fun t' => Coordinator.id t' = Coordinator.id t /\ Coordinator.keyspace t' = Coordinator.keyspace t)
    keys sv sv' t Hf) as (Etb & Est & t' & Ht' & HQ & _); try done.
  - intros k sv1 sv2 _ Ht1. unfold m_then.
    destruct (get _ _ sv1) as [sv3 [a|e|]] eqn:E; intros [= <-].
    apply (get_moves tid id h ks k sv1 sv3 a); [done..| |done].
    intros s. split_and!; [done| |done]. intros [<- <-]. split; [apply get_keeps_id|].
    apply (keeps_get ks k s).
  - split_and!; [done|done|]. by exists t'.
Qed.

Lemma puts_write tid id h ks keys v sv sv' t :
  parse_uuid tid = Some id -> transaction_table sv !! id = Some h -> transactions sv !! h = Some t ->
  m_for keys (fun key => put parse_uuid (mkPutRequest tid (Some ks) key v)) sv = (sv', Ok tt) ->
  transaction_table sv' = transaction_table sv /\ stats_per_keyspace sv' = stats_per_keyspace sv /\
  exists t', transactions sv' !! h = Some t' /\ Coordinator.id t' = Coordinator.id t /\
    Coordinator.keyspace t' = Coordinator.keyspace t /\
    forall k, k ∈ keys -> holds_write t' k v.
Proof.
  intros Hp Ht Htr Hf.
  destruct (for_moves id h _ (fun k t' => holds_write t' k v)
    (fun t' => Coordinator.id t' = Coordinator.id t /\ Coordinator.keyspace t' = Coordinator.keyspace t)
    keys sv sv' t Hf) as (Etb & Est & t' & Ht' & [HQ1 HQ2] & HP & _); try done.
  - intros k sv1 sv2 _ Ht1 E. destruct (put_moves tid id h ks k v sv1 sv2 Hp Ht1 E) as (? & ? & Hm).
    split_and!; [done|done|]. intros t1 Ht1' Htr1.
    destruct (Hm t1 Ht1' Htr1) as (t2 & Ht2 & Hw & [Hi Hk] & Hkeep). exists t2.
    split_and!; [done|done| |]; [intros [? ?]; split; congruence|]. intros k' _. by apply Hkeep.
  - split_and!; [done|done|]. exists t'. by split_and!.
Qed.

(** C25: A read-modify-write commits one new transaction with all its writes.
    When the request succeeds, the transaction it started has every key of the
    request with the value of the request in the writes it committed, it has
    stopped running and has left the table, and the count of open clients is
    what it was. *)
Theorem read_modify_write_writes_all id now req ks sv sv' :
  parse_uuid (print_uuid id) = Some id -> rmw_keyspace req = Some ks ->
  (0 <= open_number ks sv < 2 ^ 32)%Z ->
  read_modify_write parse_uuid print_uuid id now req sv = (sv', Ok tt) ->
  exists h t, transactions sv !! h = None /\ transactions sv' !! h = Some t /\
    Coordinator.id t = id /\ Coordinator.keyspace t = ks /\
    Coordinator.state t <> Coordinator.Running /\
    (forall k, k ∈ rmw_keys req -> holds_write t k (rmw_value req)) /\
    transaction_table sv' !! id = None /\ open_number ks sv' = open_number ks sv.
Proof.
  intros Hp Hks Hn. unfold read_modify_write. rewrite Hks. erewrite then_ok by done.
  unfold m_then at 1. destruct (start_transaction _ _ _ _ sv) as [sv1 [tid|e|]] eqn:E1; try done.
  destruct (start_transaction_spec _ _ _ _ _ _ E1) as (-> & h & Hh & Ht1 & Htb1 & Hn1).
  unfold m_then at 1. destruct (m_for _ _ sv1) as [sv2 [[]|e|]] eqn:E2; try done.
  destruct (gets_keep _ _ _ _ _ _ _ _ Hp Htb1 Ht1 E2) as (Htb2 & Hst2 & t2 & Ht2 & Hid2 & Hks2).
  unfold m_then at 1. destruct (m_for _ _ sv2) as [sv3 [[]|e|]] eqn:E3; try done.
  destruct (puts_write _ _ _ _ _ _ _ _ _ Hp (eq_trans (f_equal (.!! id) Htb2) Htb1) Ht2 E3)
    as (Htb3 & Hst3 & t3 & Ht3 & Hid3 & Hks3 & Hw3).
  intros E4.
  destruct (commit_handler _ id h t3 sv3 sv' Hp) as (t4 & Ht4 & Hw4 & Hks4 & Hstop & Htb4 & Hn4);
    [by rewrite Htb3, Htb2|done|done|].
  exists h, t4. cbn in Hid2, Hks2. rewrite Hks3, Hks2 in Hks4, Hn4.
  split_and!; [done|done| |done|done| | |].
  - destruct Hw4 as [_ ->]. by rewrite Hid3, Hid2.
  - intros k Hk. by eapply same_writes_holds, Hw3.
  - rewrite Htb4. apply lookup_delete_eq.
  - rewrite Hn4. unfold open_number at 1. rewrite Hst3, Hst2. fold (open_number ks sv1). rewrite Hn1.
    unfold Z.sub. rewrite wrap_u32_add. unfold wrap_u32. rewrite Z.mod_small; lia.
Qed.
End Requests.
End Operations.

(** ** Witnesses *)

Definition sample_services : Coordinator.Services unit := Coordinator.sample_services [].
Definition sample_keyspace : Keyspace := Coordinator.sample_keyspace.

Definition sample_started : Server unit * result TStatus positive :=
  start (H := sample_services) 1000 Adaptive 9 0 sample_keyspace (new tt).

(** a transaction is started and aborted *)
Definition sample_opened : System (W := unit) :=
  mkSystem (count_opened sample_keyspace sample_started.1) [] (∅ ∪ {[1%positive]}) ∅.
Definition sample_abort : Server unit * result TStatus (option Task) :=
  advance (H := sample_services) (H0 := element_order) element_order (Found 9 1 RAbort)
    (server sample_opened).
Definition sample_aborted : System (W := unit) :=
  mkSystem sample_abort.1 [Aborting 9] (∅ ∪ {[1%positive]}) ∅.

Notation sample_step := (step (H := sample_services) (H0 := element_order) element_order 1000 Adaptive).

Lemma sample_reaches_opened : rtc sample_step (initial tt) sample_opened.
Proof.
  eapply rtc_l.
  { apply (step_start (H := sample_services) (H0 := element_order) element_order 1000 Adaptive 9 0
      sample_keyspace (new tt) sample_started.1 1). vm_compute. reflexivity. }
  assert (sample_opened = mkSystem (count_opened sample_keyspace sample_started.1)
    (next (Ok None) ++ []) (∅ ∪ {[1%positive]}) (∅ ∪ ∅)) as ->.
  { unfold sample_opened. by rewrite !(right_id_L ∅ (∪)). }
  apply rtc_once.
  by apply (step_advance (H := sample_services) (H0 := element_order) element_order 1000 Adaptive
    (Starting 1 sample_keyspace) [Starting 1 sample_keyspace] [] sample_started.1
    (count_opened sample_keyspace sample_started.1) (Ok None) ∅ ∅).
Qed.

Lemma sample_aborts : rtc sample_step sample_opened sample_aborted.
Proof.
  eapply rtc_l.
  { apply (step_find (H := sample_services) (H0 := element_order) element_order 1000 Adaptive
      9 1 RAbort (server sample_opened) [] (∅ ∪ {[1%positive]}) ∅);
      [vm_compute; reflexivity|by_decision]. }
  assert (sample_aborted = mkSystem sample_abort.1 (next (Ok (Some (Aborting 9))) ++ [])
    ((∅ ∪ {[1%positive]}) ∪ ∅) (∅ ∪ ∅)) as ->.
  { unfold sample_aborted. by rewrite !(right_id_L ∅ (∪)). }
  apply rtc_once.
  apply (step_advance (H := sample_services) (H0 := element_order) element_order 1000 Adaptive
    (Found 9 1 RAbort) [Found 9 1 RAbort] []); [done|]. vm_compute. reflexivity.
Qed.

Lemma open_clients_counted_witness :
  open_number sample_keyspace (server sample_opened) =
    wrap_u32 (Z.of_nat (size (open_clients sample_keyspace sample_opened))) /\
  open_number sample_keyspace (server sample_opened) = 1%Z.
Proof.
  split; [|vm_compute; reflexivity].
  apply (open_clients_counted (H := sample_services) (H0 := element_order) element_order 1000 Adaptive
    tt sample_opened sample_reaches_opened).
Defined.

Lemma stopped_client_stays_open_witness :
  1%positive ∈ open_clients sample_keyspace sample_aborted.
Proof.
  apply (stopped_client_stays_open (H := sample_services) (H0 := element_order) element_order 1000
    Adaptive tt sample_aborted sample_aborted 1 sample_keyspace
    (transitivity sample_reaches_opened sample_aborts));
    [by_decision| | |apply rtc_refl].
  - eexists. split; [vm_compute; reflexivity|done].
  - intros id ks'. cbn. split; intros [E|E%not_elem_of_nil]%elem_of_cons; done.
Defined.

Definition sample_rmw : ReadModifyWriteRequest :=
  mkReadModifyWriteRequest (Some sample_keyspace) [[1%N; 1%N]; [1%N; 2%N]; [2%N]] [65%N].
Definition sample_done : Server unit * result TStatus unit :=
  read_modify_write (H := sample_services) (H0 := element_order) element_order
    1000 Adaptive Universe.unary_parse Universe.unary_print 9 0 sample_rmw (new tt).

Lemma read_modify_write_writes_all_witness :
  exists h t, transactions sample_done.1 !! h = Some t /\ holds_write t [2%N] [65%N].
Proof.
  destruct (read_modify_write_writes_all (H := sample_services) (H0 := element_order) element_order
    1000 Adaptive Universe.unary_parse Universe.unary_print 9 0 sample_rmw sample_keyspace (new tt)
    sample_done.1) as (h & t & _ & Ht & _ & _ & _ & Hw & _);
    [apply Universe.unary_roundtrip|done|done|vm_compute; reflexivity|].
  exists h, t. split; [done|]. apply (Hw [2%N]). by_decision.
Defined.

End Frontend.
