(* ===== verification/Statistics.v ===== *)
(** * The statistics of the resolver: [src/resolver/src/core/statistics.rs],
      with the functions of [resolver.rs] and [group_commit.rs] that use them

    The resolver samples how many transactions wait; a frontend reads the result
    and passes it to the ranges, which decide by it whether to release locks
    early. Times are in nanoseconds. *)

From Stdlib Require Import ZArith Floats.SpecFloat.
From stdpp Require Import base tactics list numbers option gmap sets relations strings pretty.
From S2P Require Import Prelude Float64 Common.

Module Statistics.
Import Common.

Record StatisticsTracker := mkTracker {
  request_count : Z;                   (** [u64] *)
  last_reset_time : Z;
  waiting_transactions_samples : list nat
}.

Definition MAX_SAMPLES : nat := 200.

Definition new (now : Z) : StatisticsTracker := mkTracker 0 now [].

Definition record_request (t : StatisticsTracker) : StatisticsTracker :=
  mkTracker (wrap_u64 (request_count t + 1)) (last_reset_time t) (waiting_transactions_samples t).

Definition record_waiting_transactions_sample (count : nat) (t : StatisticsTracker)
    : StatisticsTracker :=
  let samples := waiting_transactions_samples t ++ [count] in
  mkTracker (request_count t) (last_reset_time t)
    (if decide (MAX_SAMPLES < length samples)%nat then drop 1 samples else samples).

(** [iter().max()] and [iter().min()] with [unwrap_or(0)] *)
Definition max_or_zero (l : list nat) : nat := foldr Nat.max 0 l.
Definition min_or_zero (l : list nat) : nat :=
  match l with [] => 0 | x :: l' => foldr Nat.min x l' end.

Definition of_nat (n : nat) : spec_float := Float64.of_Z (Z.of_nat n).

Definition get_average_waiting_transactions (t : StatisticsTracker) : spec_float :=
  match waiting_transactions_samples t with
  | [] => Float64.zero
  | l => of_nat (max_or_zero l)
  end.

(** [as_secs] and [as_secs_f64] of a duration *)
Definition as_secs (d : Z) : Z := (d / 10 ^ 9)%Z.
Definition as_secs_f64 (d : Z) : spec_float :=
  Float64.add (Float64.of_Z (as_secs d))
    (Float64.div (Float64.of_Z (d mod 10 ^ 9)) (Float64.of_Z (10 ^ 9))).

Definition requests_per_second (now : Z) (t : StatisticsTracker) : spec_float :=
  let elapsed := (now - last_reset_time t)%Z in
  if decide (0 < as_secs elapsed)%Z
  then Float64.div (Float64.of_Z (request_count t)) (as_secs_f64 elapsed)
  else Float64.zero.

Definition waiting_transactions_avg (l : list nat) : spec_float :=
  match l with
  | [] => Float64.zero
  | _ => Float64.div (of_nat (sum_list l)) (of_nat (length l))
  end.

Definition sub (a b : spec_float) : spec_float := SFsub Float64.prec Float64.emax a b.
Definition mul (a b : spec_float) : spec_float := SFmul Float64.prec Float64.emax a b.
Definition sqrt (a : spec_float) : spec_float := SFsqrt Float64.prec Float64.emax a.

Definition waiting_transactions_std (l : list nat) : spec_float :=
  if decide (1 < length l)%nat then
    let avg := waiting_transactions_avg l in
    let squares := (fun x => let diff := sub (of_nat x) avg in mul diff diff) <$> l in
    sqrt (Float64.div (foldl Float64.add Float64.zero squares) (of_nat (length l - 1)))
  else Float64.zero.

Definition get_stats (now : Z) (t : StatisticsTracker) : gmap string spec_float :=
  let l := waiting_transactions_samples t in
  <["num_requests"%string := Float64.of_Z (request_count t)]>
  (<["waiting_transactions_std"%string := waiting_transactions_std l]>
  (<["waiting_transactions_max"%string := of_nat (max_or_zero l)]>
  (<["waiting_transactions_min"%string := of_nat (min_or_zero l)]>
  (<["waiting_transactions_avg"%string := waiting_transactions_avg l]>
  (<["requests_per_second"%string := requests_per_second now t]> ∅))))).

Definition reset (now : Z) (t : StatisticsTracker) : StatisticsTracker := mkTracker 0 now [].

(** ** In the resolver *)

(** [sample_waiting_transactions] *)
Definition sample_waiting_transactions (waiting : gmap Uuid positive) (t : StatisticsTracker)
    : StatisticsTracker :=
  record_waiting_transactions_sample (size waiting) t.

(** [GroupCommitStats]: how many groups of each size were sent *)
Definition GroupCommitStats : Type := gmap string spec_float.

Definition group_size_name (n : nat) : string := "Group size: "%string +:+ pretty (N.of_nat n).

Definition record_group (n : nat) (g : GroupCommitStats) : GroupCommitStats :=
  <[group_size_name n := match g !! group_size_name n with
                         | Some count => Float64.add count (Float64.of_Z 1)
                         | None => Float64.of_Z 1
                         end]> g.

(** [Resolver::get_stats]: the two trackers are emptied; the maps are joined, the
    tracker's entries replacing others of the same name *)
Definition resolver_get_stats (now : Z) (g : GroupCommitStats) (t : StatisticsTracker)
    : GroupCommitStats * StatisticsTracker * gmap string spec_float :=
  (∅, reset now t, get_stats now t ∪ g).

(** ** Lemmas *)

Definition record_samples (l : list nat) (t : StatisticsTracker) : StatisticsTracker :=
  foldl (fun t n => record_waiting_transactions_sample n t) t l.

(** the samples are a window on the end of what was recorded *)
Lemma samples_window l t :
  (length (waiting_transactions_samples t) <= MAX_SAMPLES)%nat ->
  waiting_transactions_samples (record_samples l t) =
    drop (length (waiting_transactions_samples t ++ l) - MAX_SAMPLES)
      (waiting_transactions_samples t ++ l).
Proof.
  revert t. induction l as [|n l IH]; intros t Ht.
  - rewrite app_nil_r. replace (_ - _) with 0 by lia. done.
  - cbn [record_samples foldl]. change (foldl _ ?t l) with (record_samples l t).
    set (t1 := record_waiting_transactions_sample n t).
    assert (waiting_transactions_samples t1 =
      drop (length (waiting_transactions_samples t ++ [n]) - MAX_SAMPLES)
        (waiting_transactions_samples t ++ [n])) as E1.
    { cbn. rewrite length_app. cbn [length]. case_decide.
      - by replace (_ - MAX_SAMPLES) with 1 by lia.
      - by replace (_ - MAX_SAMPLES) with 0 by lia. }
    rewrite IH by (rewrite E1, length_drop; lia).
    change (n :: l) with ([n] ++ l). rewrite (app_assoc _ [n] l), E1.
    set (m := waiting_transactions_samples t ++ [n]).
    rewrite <- (drop_app_le m l) by lia. rewrite drop_drop, length_drop, !length_app.
    f_equal. lia.
Qed.

Lemma max_or_zero_spec l n : n ∈ l -> (n <= max_or_zero l)%nat.
Proof. unfold max_or_zero. induction 1; cbn; lia. Qed.

Lemma max_or_zero_elem l : l <> [] -> max_or_zero l ∈ l.
Proof.
  induction l as [|n l IH]; [done|]. intros _. destruct l as [|m l].
  - cbn. rewrite Nat.max_0_r. left.
  - change (max_or_zero (n :: m :: l)) with (n `max` max_or_zero (m :: l)).
    destruct (Nat.max_spec n (max_or_zero (m :: l))) as [[_ ->]|[_ ->]]; [right; by apply IH|left].
Qed.

(** ** Properties *)

(** The load that is reported is the largest of the last two hundred
    samples. Whatever was sampled since the last reset, the value called the
    average number of waiting transactions is the conversion of the maximum of
    the last [MAX_SAMPLES] samples, and zero when there is none; the memory used
    is bounded by that number. *)
Theorem load_is_recent_maximum now l :
  let recent := drop (length l - MAX_SAMPLES) l in
  waiting_transactions_samples (record_samples l (new now)) = recent /\
  (length recent <= MAX_SAMPLES)%nat /\
  exists m, get_average_waiting_transactions (record_samples l (new now)) = of_nat m /\
    (forall n, n ∈ recent -> (n <= m)%nat) /\ (l <> [] -> m ∈ recent) /\ (l = [] -> m = 0).
Proof.
  intros recent. assert (waiting_transactions_samples (record_samples l (new now)) = recent) as E
    by (rewrite samples_window; cbn; [done|lia]).
  split_and!; [done|unfold recent; rewrite length_drop; lia|].
  exists (max_or_zero recent). unfold get_average_waiting_transactions. rewrite E. split_and!.
  - by destruct recent.
  - intros n. apply max_or_zero_spec.
  - intros Hl. apply max_or_zero_elem. intros Hr%(f_equal length). unfold recent in Hr.
    rewrite length_drop in Hr. cbn in Hr. destruct l; cbn in *; unfold MAX_SAMPLES in *; lia || done.
  - intros ->. done.
Qed.

End Statistics.
