(* ===== verification/ResolverClient.v ===== *)
(** * The clients of the resolver: [src/resolver/src/resolver_client.rs],
      [local/client.rs], [remote/client.rs], [remote/server.rs] and
      [participant_range_info.rs]

    A coordinator uses a resolver in its own process or one behind gRPC. Both
    clients offer the calls of the trait [ResolverClient]; what they need of the
    resolver itself is the class [ResolverCore]. *)

From Stdlib Require Import Floats.SpecFloat.
From stdpp Require Import base tactics list numbers option gmap sets relations strings.
From S2P Require Import Prelude Float64 Common GroupCommit Coordinator Statistics Universe.

Module ResolverClient.
Import Common.
Local Open Scope sangria_scope.

(** ** The resolver, as its clients use it *)

Class ResolverCore (C : Type) : Type := {
  core_commit : Uuid -> gset Uuid -> list GroupCommit.ParticipantRangeInfo -> bool -> C ->
    C * result Coordinator.Error unit;
  core_spawn_register : list Uuid -> C -> C;
  core_get_stats : C -> C * gmap string spec_float;
  core_num_waiting : C -> nat;
  core_average_waiting : C -> spec_float;
  core_sample : C -> C;
  core_transaction_info_status : C -> string;
  core_resolved_transactions_status : C -> string;
  core_waiting_transactions_status : C -> string;
  core_group_commit_status : C -> string
}.

(** ** Messages *)

Record ProtoRangeId := mkProtoRangeId { proto_keyspace_id : string; proto_range_id : string }.
Record ProtoParticipantRangeInfo := mkProtoParticipantRangeInfo {
  proto_range : option ProtoRangeId;
  proto_has_writes : bool
}.
Record CommitRequest := mkCommitRequest {
  req_transaction_id : string;
  req_dependencies : list string;
  req_participant_ranges : list ProtoParticipantRangeInfo;
  req_fake : bool
}.

Section Operations.
Context `{ResolverCore C, HashOrder}.
(** [Uuid::from_str] and [Uuid::to_string] of the crate [uuid] *)
Context (parse_uuid : string -> option Uuid) (print_uuid : Uuid -> string).

Notation Call := (M C Coordinator.Error).

(** ** The local client *)

Definition local_commit (id : Uuid) (deps : gset Uuid)
    (ranges : list GroupCommit.ParticipantRangeInfo) : Call unit :=
  core_commit id deps ranges false.
Definition local_register_committed_transactions (ids : list Uuid) : Call unit :=
  fun c => (core_spawn_register ids c, Ok tt).
Definition local_get_stats : Call (gmap string spec_float) :=
  fun c => let (c', stats) := core_get_stats c in (c', Ok stats).
Definition local_get_num_waiting_transactions : Call nat := fun c => (c, Ok (core_num_waiting c)).
Definition local_get_average_waiting_transactions : Call spec_float :=
  fun c => (c, Ok (core_average_waiting c)).
Definition local_get_transaction_info_status : Call string :=
  fun c => (c, Ok (core_transaction_info_status c)).
Definition local_get_resolved_transactions_status : Call string :=
  fun c => (c, Ok (core_resolved_transactions_status c)).
Definition local_get_waiting_transactions_status : Call string :=
  fun c => (c, Ok (core_waiting_transactions_status c)).
Definition local_get_group_commit_status : Call string :=
  fun c => (c, Ok (core_group_commit_status c)).

(** ** The server of the remote resolver *)

(** the handlers return no error; a handler that panics is not answered *)
Notation Handler := (M C unit).

Definition to_proto (info : GroupCommit.ParticipantRangeInfo) : ProtoParticipantRangeInfo :=
  let r := GroupCommit.participant_range info in
  mkProtoParticipantRangeInfo
    (Some (mkProtoRangeId (print_uuid (keyspace_uuid (keyspace_id r))) (print_uuid (range_id r))))
    (GroupCommit.has_writes info).

Definition of_proto (info : ProtoParticipantRangeInfo) : Handler GroupCommit.ParticipantRangeInfo :=
  let! r := m_unwrap (proto_range info) in
  let! k := m_unwrap (parse_uuid (proto_keyspace_id r)) in
  let! u := m_unwrap (parse_uuid (proto_range_id r)) in
  m_ret (GroupCommit.mkParticipantRangeInfo (mkFullRangeId (mkKeyspaceId k) u)
           (proto_has_writes info)).

(** [iter().map(..).collect()] with a conversion that may panic *)
Fixpoint collect {A B} (f : A -> Handler B) (l : list A) : Handler (list B) :=
  match l with
  | [] => m_ret []
  | x :: l' => let! y := f x in let! ys := collect f l' in m_ret (y :: ys)
  end.

Definition parse_ids : list string -> Handler (list Uuid) :=
  collect (fun s => m_unwrap (parse_uuid s)).

Definition server_commit (req : CommitRequest) : Handler string :=
  let! id := m_unwrap (parse_uuid (req_transaction_id req)) in
  let! deps := parse_ids (req_dependencies req) in
  let! ranges := collect of_proto (req_participant_ranges req) in
  fun c =>
    match core_commit id (list_to_set deps) ranges (req_fake req) c with
    | (c', Panic) => (c', Panic)
    | (c', _) => (c', Ok "Commit ok"%string)
    end.

Definition server_register_committed_transactions (ids : list string) : Handler string :=
  let! ids := parse_ids ids in
  m_modify (core_spawn_register ids) ;;; m_ret "Register committed transactions ok"%string.

Definition server_get_stats : Handler (gmap string spec_float) :=
  fun c => let (c', stats) := core_get_stats c in (c', Ok stats).
(** [as u32] *)
Definition server_get_num_waiting_transactions : Handler Z :=
  let! c := m_get in m_ret (wrap_u32 (Z.of_nat (core_num_waiting c))).
Definition server_get_average_waiting_transactions : Handler spec_float :=
  let! c := m_get in m_ret (core_average_waiting c).
Definition server_get_transaction_info_status : Handler string :=
  let! c := m_get in m_ret (core_transaction_info_status c).
Definition server_get_resolved_transactions_status : Handler string :=
  let! c := m_get in m_ret (core_resolved_transactions_status c).
Definition server_get_waiting_transactions_status : Handler string :=
  let! c := m_get in m_ret (core_waiting_transactions_status c).
Definition server_get_group_commit_status : Handler string :=
  let! c := m_get in m_ret (core_group_commit_status c).

(** ** The remote client *)

(** [.await.unwrap()] of a call *)
Definition rpc {A} (m : Handler A) : Call A := fun c =>
  match m c with
  | (c', Ok a) => (c', Ok a)
  | (c', _) => (c', Panic)
  end.

Definition commit_request (id : Uuid) (deps : gset Uuid)
    (ranges : list GroupCommit.ParticipantRangeInfo) : CommitRequest :=
  mkCommitRequest (print_uuid id) (print_uuid <$> hash_iter deps) (to_proto <$> ranges) false.

Definition remote_commit (id : Uuid) (deps : gset Uuid)
    (ranges : list GroupCommit.ParticipantRangeInfo) : Call unit :=
  let! status := rpc (server_commit (commit_request id deps ranges)) in
  m_assert (bool_decide (status = "Commit ok"%string)).

Definition remote_register_committed_transactions (ids : list Uuid) : Call unit :=
  let! status := rpc (server_register_committed_transactions (print_uuid <$> ids)) in
  m_assert (bool_decide (status = "Register committed transactions ok"%string)).

Definition remote_get_stats : Call (gmap string spec_float) := rpc server_get_stats.
(** [as usize] *)
Definition remote_get_num_waiting_transactions : Call nat :=
  let! n := rpc server_get_num_waiting_transactions in m_ret (Z.to_nat n).
Definition remote_get_average_waiting_transactions : Call spec_float :=
  rpc server_get_average_waiting_transactions.
Definition remote_get_transaction_info_status : Call string :=
  rpc server_get_transaction_info_status.
Definition remote_get_resolved_transactions_status : Call string :=
  rpc server_get_resolved_transactions_status.
Definition remote_get_waiting_transactions_status : Call string :=
  rpc server_get_waiting_transactions_status.
Definition remote_get_group_commit_status : Call string := rpc server_get_group_commit_status.

(** what is left of a result when its errors are dropped *)
Definition error_dropped (r : result Coordinator.Error unit) : result Coordinator.Error unit :=
  match r with Panic => Panic | _ => Ok tt end.

(** ** Lemmas *)

Context (parse_print : forall u, parse_uuid (print_uuid u) = Some u).

Lemma collect_inverse {A B} (f : A -> Handler B) (g : B -> A) l c :
  (forall b c, f (g b) c = (c, Ok b)) -> collect f (g <$> l) c = (c, Ok l).
Proof.
  intros Hf. induction l as [|b l IH]; [done|].
  change (g <$> b :: l) with (g b :: (g <$> l)). cbn [collect]. unfold m_then. by rewrite Hf, IH.
Qed.

Lemma parse_ids_print ids c : parse_ids (print_uuid <$> ids) c = (c, Ok ids).
Proof. apply collect_inverse. intros u c'. by rewrite parse_print. Qed.

Lemma of_to_proto info c : of_proto (to_proto info) c = (c, Ok info).
Proof.
  unfold of_proto, to_proto, m_then. cbn. rewrite !parse_print. cbn.
  by destruct info as [[[k] r] b].
Qed.

(** what the server does with the request of a client *)
Lemma server_commit_core id deps ranges fake c :
  server_commit (mkCommitRequest (print_uuid id) (print_uuid <$> hash_iter deps)
                   (to_proto <$> ranges) fake) c =
  match core_commit id deps ranges fake c with
  | (c', Panic) => (c', Panic)
  | (c', _) => (c', Ok "Commit ok"%string)
  end.
Proof.
  unfold server_commit, m_then. cbn [req_transaction_id req_dependencies req_participant_ranges req_fake].
  rewrite parse_print. cbn [m_unwrap m_ret].
  rewrite parse_ids_print, (collect_inverse of_proto to_proto ranges c) by apply of_to_proto.
  by replace (list_to_set (hash_iter deps) : gset Uuid) with deps
    by (apply set_eq; intros u; rewrite elem_of_list_to_set; symmetry; apply hash_iter_elem_of).
Qed.

(** ** Properties *)

(** C18: The remote resolver does what the local one does. For the same resolver,
    the calls of the remote client have the effect and the result of the calls
    of the local client, with two exceptions: an error of a commit is answered
    as a success, and the number of waiting transactions is cut to 32 bits. *)
Theorem remote_equals_local id deps ranges ids c :
  remote_commit id deps ranges c =
    ((local_commit id deps ranges c).1, error_dropped (local_commit id deps ranges c).2) /\
  remote_register_committed_transactions ids c = local_register_committed_transactions ids c /\
  remote_get_stats c = local_get_stats c /\
  remote_get_average_waiting_transactions c = local_get_average_waiting_transactions c /\
  remote_get_num_waiting_transactions c =
    (c, Ok (Z.to_nat (wrap_u32 (Z.of_nat (core_num_waiting c))))) /\
  ((Z.of_nat (core_num_waiting c) < 2 ^ 32)%Z ->
   remote_get_num_waiting_transactions c = local_get_num_waiting_transactions c) /\
  remote_get_transaction_info_status c = local_get_transaction_info_status c /\
  remote_get_resolved_transactions_status c = local_get_resolved_transactions_status c /\
  remote_get_waiting_transactions_status c = local_get_waiting_transactions_status c /\
  remote_get_group_commit_status c = local_get_group_commit_status c.
Proof.
  split_and!; try done.
  - unfold remote_commit, rpc, commit_request, m_then. rewrite server_commit_core. unfold local_commit. by destruct (core_commit id deps ranges false c) as [c' [[]|e|]].
  - unfold remote_register_committed_transactions, rpc, server_register_committed_transactions,
      m_then. by rewrite parse_ids_print.
  - unfold remote_get_stats, local_get_stats, rpc, server_get_stats. by destruct (core_get_stats c).
  - intros Hn. unfold remote_get_num_waiting_transactions, local_get_num_waiting_transactions, rpc,
      server_get_num_waiting_transactions, m_then. cbn. unfold wrap_u32.
    by rewrite Z.mod_small, Nat2Z.id by lia.
Qed.
End Operations.

(** ** The resolver with its statistics *)

Section Tracked.
(** the resolver without its statistics: its calls, and the clients that wait *)
Context {G : Type}.
Context (commit : Uuid -> gset Uuid -> list GroupCommit.ParticipantRangeInfo -> bool -> G ->
  G * result Coordinator.Error unit).
Context (register : list Uuid -> G -> G) (waiting : G -> gmap Uuid positive).
Context (info_status resolved_status waiting_status group_status : G -> string).

Record Tracked := mkTracked {
  tracked_state : G;
  tracked_groups : Statistics.GroupCommitStats;
  tracker : Statistics.StatisticsTracker
}.

(** [now] is the time of a reset *)
#[local] Instance tracked_core (now : Z) : ResolverCore Tracked := {|
  core_commit id deps ranges fake c :=
    let (g, r) := commit id deps ranges fake (tracked_state c) in
    (mkTracked g (tracked_groups c) (tracker c), r);
  core_spawn_register ids c :=
    mkTracked (register ids (tracked_state c)) (tracked_groups c) (tracker c);
  core_get_stats c :=
    let '(groups, t, stats) := Statistics.resolver_get_stats now (tracked_groups c) (tracker c) in
    (mkTracked (tracked_state c) groups t, stats);
  core_num_waiting c := size (waiting (tracked_state c));
  core_average_waiting c := Statistics.get_average_waiting_transactions (tracker c);
  core_sample c :=
    mkTracked (tracked_state c) (tracked_groups c)
      (Statistics.sample_waiting_transactions (waiting (tracked_state c)) (tracker c));
  core_transaction_info_status c := info_status (tracked_state c);
  core_resolved_transactions_status c := resolved_status (tracked_state c);
  core_waiting_transactions_status c := waiting_status (tracked_state c);
  core_group_commit_status c := group_status (tracked_state c)
|}.

(** a resolver in the process of its coordinator: the calls of its clients, and
    the tasks of the resolver, which change its state and record the groups they
    send *)
Inductive local_step : Tracked -> Tracked -> Prop :=
| local_step_commit now id deps ranges c :
    local_step c (local_commit (H := tracked_core now) id deps ranges c).1
| local_step_register now ids c :
    local_step c (local_register_committed_transactions (H := tracked_core now) ids c).1
| local_step_stats now c : local_step c (local_get_stats (H := tracked_core now) c).1
| local_step_task g c : local_step c (mkTracked g (tracked_groups c) (tracker c))
| local_step_group n c :
    local_step c (mkTracked (tracked_state c) (Statistics.record_group n (tracked_groups c)) (tracker c)).

(** a resolver behind gRPC also samples *)
Inductive remote_step : Tracked -> Tracked -> Prop :=
| remote_step_local c c' : local_step c c' -> remote_step c c'
| remote_step_sample now c : remote_step c (core_sample (ResolverCore := tracked_core now) c).

Lemma local_step_samples c c' :
  local_step c c' -> Statistics.waiting_transactions_samples (tracker c) = [] ->
  Statistics.waiting_transactions_samples (tracker c') = [].
Proof.
  intros Hs Hc. destruct Hs as [now id deps ranges c| | | |]; [|done..].
  unfold local_commit. cbn. by destruct (commit id deps ranges false (tracked_state c)).
Qed.

(** A local resolver always reports no load. The number of waiting
    transactions is sampled by a task that only the remote server starts: while
    the resolver runs in the process of its coordinator no sample is ever taken,
    so the load by which ranges decide whether to release locks early is zero
    however many transactions wait. The same calls with one sample in between
    report the number that was sampled. *)
Theorem local_load_is_zero now0 g groups c now :
  rtc local_step (mkTracked g groups (Statistics.new now0)) c ->
  local_get_average_waiting_transactions (H := tracked_core now) c = (c, Ok Float64.zero) /\
  remote_step c (core_sample (ResolverCore := tracked_core now) c) /\
  (local_get_average_waiting_transactions (H := tracked_core now)
     (core_sample (ResolverCore := tracked_core now) c)).2 =
    Ok (Statistics.of_nat (size (waiting (tracked_state c)))).
Proof.
  intros Hr. assert (Statistics.waiting_transactions_samples (tracker c) = []) as Hc.
  { remember (mkTracked g groups (Statistics.new now0)) as c0 eqn:E.
    assert (Statistics.waiting_transactions_samples (tracker c0) = []) as Hc0 by (by subst).
    clear E. induction Hr; eauto using local_step_samples. }
  split_and!; [|apply remote_step_sample|].
  - unfold local_get_average_waiting_transactions. cbn.
    unfold Statistics.get_average_waiting_transactions. by rewrite Hc.
  - cbn. unfold Statistics.get_average_waiting_transactions, Statistics.sample_waiting_transactions,
      Statistics.record_waiting_transactions_sample. cbn. rewrite Hc. cbn.
    do 2 f_equal. apply Nat.max_0_r.
Qed.
End Tracked.

(** ** Witnesses *)

(** a resolver with one client that waits; its commits fail *)
Definition sample_commit (id : Uuid) (deps : gset Uuid)
    (ranges : list GroupCommit.ParticipantRangeInfo) (fake : bool) (g : gmap Uuid positive)
    : gmap Uuid positive * result Coordinator.Error unit :=
  (<[id := 1%positive]> g, Err Coordinator.Timeout).
Definition sample_core : ResolverCore (Tracked (G := gmap Uuid positive)) :=
  tracked_core sample_commit (fun _ g => g) id (fun _ => ""%string) (fun _ => ""%string)
    (fun _ => ""%string) (fun _ => ""%string) 0.
Definition sample_tracked : Tracked (G := gmap Uuid positive) :=
  mkTracked ∅ ∅ (Statistics.new 0).
Definition sample_range_info : GroupCommit.ParticipantRangeInfo :=
  GroupCommit.mkParticipantRangeInfo (mkFullRangeId (mkKeyspaceId 2) 3) true.

Lemma remote_equals_local_witness :
  (local_commit (H := sample_core) 7 {[5%N]} [sample_range_info] sample_tracked).2 =
    Err Coordinator.Timeout /\
  (remote_commit (H := sample_core) (H0 := element_order) Universe.unary_parse Universe.unary_print
     7 {[5%N]} [sample_range_info] sample_tracked).2 = Ok tt.
Proof.
  destruct (remote_equals_local (H := sample_core) (H0 := element_order) Universe.unary_parse
    Universe.unary_print Universe.unary_roundtrip 7 {[5%N]} [sample_range_info] [] sample_tracked)
    as (Hc & _).
  split; [reflexivity|]. rewrite Hc. reflexivity.
Defined.

Definition sample_waiting : Tracked (G := gmap Uuid positive) :=
  (local_commit (H := sample_core) 7 {[5%N]} [sample_range_info] sample_tracked).1.

Lemma local_load_is_zero_witness :
  size (tracked_state sample_waiting) = 1 /\
  (local_get_average_waiting_transactions (H := sample_core) sample_waiting).2 = Ok Float64.zero.
Proof.
  destruct (local_load_is_zero sample_commit (fun _ g => g) id (fun _ => ""%string)
    (fun _ => ""%string) (fun _ => ""%string) (fun _ => ""%string) 0 ∅ ∅ sample_waiting 0)
    as (Hl & _).
  - apply rtc_once. apply (local_step_commit _ _ _ _ _ _ _ 0 7 {[5%N]} [sample_range_info]).
  - split; [vm_compute; reflexivity|]. unfold sample_core. rewrite Hl. reflexivity.
Defined.


End ResolverClient.
