(* ===== verification/WardenPersistence.v ===== *)
(** * The persistence of the warden: [src/warden/src/persistence/cassandra.rs]

    The warden stores the ranges it has learned of as unowned leases, which the
    range servers take, and the assignments it has computed. The database is the
    one of [Storage.v], with the two statements of this file. *)

From stdpp Require Import base tactics list numbers option gmap sets strings.
From S2P Require Import Prelude Common Storage Warden.

Module WardenPersistence.
Import Common Storage.

(** [persistence.rs]; the payload of the error is left out *)
Inductive Error := InternalError.

Record SerializedRangeAssignment := mkSerializedRangeAssignment {
  keyspace_id : Uuid;
  range_id : Uuid;
  key_lower_bound_inclusive : option Bytes;
  key_upper_bound_exclusive : option Bytes;
  assignee : string
}.

(** [INSERT ... IF NOT EXISTS] *)
Definition insert_if_absent (l : CqlRangeLease) (m : gmap Uuid CqlRangeLease)
    : gmap Uuid CqlRangeLease :=
  match m !! lease_range_id l with
  | Some _ => m
  | None => <[lease_range_id l := l]> m
  end.

(** The statements, as the CQL reference has them: an insert replaces the row of
    its primary key, unless it is conditional and there is one. A statement that
    fails may have been executed or not. *)
Class WardenSession (DB : Type) `{!Session DB} : Type := {
  range_map : DB -> gmap (Uuid * Uuid) SerializedRangeAssignment;
  (* INSERT_INTO_RANGE_LEASE_QUERY *)
  insert_lease : CqlRangeLease -> DB -> DB * result QueryError unit;
  (* INSERT_OR_UPDATE_RANGE_ASSIGNMENT_QUERY, and its preparation *)
  prepare : DB -> result QueryError unit;
  execute : SerializedRangeAssignment -> DB -> DB * result QueryError unit;
  insert_lease_ok l db db' :
    insert_lease l db = (db', Ok tt) -> leases db' = insert_if_absent l (leases db);
  insert_lease_err l db db' e :
    insert_lease l db = (db', Err e) ->
    leases db' = insert_if_absent l (leases db) \/ leases db' = leases db;
  execute_ok a db db' :
    execute a db = (db', Ok tt) ->
    leases db' = leases db /\
    range_map db' = <[(keyspace_id a, range_id a) := a]> (range_map db);
  warden_no_panic :
    (forall l db, (insert_lease l db).2 <> Panic) /\ (forall db, prepare db <> Panic) /\
    (forall a db, (execute a db).2 <> Panic)
}.

Section Operations.
Context `{WardenSession DB}.

Definition new_lease (range : Warden.RangeInfo) : CqlRangeLease :=
  mkCqlRangeLease (Warden.range_info_id range) (mkCqlEpochRange 0 0)
    (Common.lower_bound_inclusive (Warden.range_key_range range))
    (upper_bound_exclusive (Warden.range_key_range range)) 0 (mkCqlEpochRange 0 0).

Fixpoint insert_new_ranges (ranges : list Warden.RangeInfo) (db : DB) : DB * result Error unit :=
  match ranges with
  | [] => (db, Ok tt)
  | range :: ranges' =>
      match insert_lease (new_lease range) db with
      | (db', Ok _) => insert_new_ranges ranges' db'
      | (db', Err _) => (db', Err InternalError)
      | (db', Panic) => (db', Panic)
      end
  end.

Definition serialize (a : Warden.RangeAssignment) : SerializedRangeAssignment :=
  let range := Warden.range a in
  mkSerializedRangeAssignment (keyspace_uuid (Warden.range_keyspace_id range))
    (Warden.range_info_id range) (Common.lower_bound_inclusive (Warden.range_key_range range))
    (upper_bound_exclusive (Warden.range_key_range range)) (Warden.assignee a).

Fixpoint write_assignments (assignments : list Warden.RangeAssignment) (db : DB)
    : DB * result Error unit :=
  match assignments with
  | [] => (db, Ok tt)
  | a :: assignments' =>
      match execute (serialize a) db with
      | (db', Ok _) => write_assignments assignments' db'
      | (db', Err _) => (db', Err InternalError)
      | (db', Panic) => (db', Panic)
      end
  end.

Definition update_range_assignments (version : Z) (assignments : list Warden.RangeAssignment)
    (db : DB) : DB * result Error unit :=
  match prepare db with
  | Ok _ => write_assignments assignments db
  | Err _ => (db, Err InternalError)
  | Panic => (db, Panic)
  end.

(** [get_keyspace_range_map] is not implemented *)
Definition get_keyspace_range_map (ks : KeyspaceId) (db : DB)
    : result Error (list Warden.RangeAssignment) := Panic.

(** ** Lemmas *)

Lemma insert_if_absent_keeps l m r l' :
  m !! r = Some l' -> insert_if_absent l m !! r = Some l'.
Proof.
  intros Hr. unfold insert_if_absent. destruct (m !! lease_range_id l) eqn:E; [done|].
  rewrite lookup_insert_ne; [done|]. congruence.
Qed.

Lemma insert_if_absent_other l m r :
  lease_range_id l <> r -> insert_if_absent l m !! r = m !! r.
Proof.
  intros Hr. unfold insert_if_absent. destruct (m !! lease_range_id l); [done|].
  by rewrite lookup_insert_ne.
Qed.

Lemma insert_keeps ranges db db' res r l :
  insert_new_ranges ranges db = (db', res) -> leases db !! r = Some l -> leases db' !! r = Some l.
Proof.
  revert db. induction ranges as [|range ranges IH]; intros db; cbn; [by intros [= <- _]|].
  destruct (insert_lease (new_lease range) db) as [db1 [[]|e|]] eqn:E; intros Hi Hr.
  - eapply IH; [done|]. rewrite (insert_lease_ok _ _ _ E). by apply insert_if_absent_keeps.
  - injection Hi as <- _. destruct (insert_lease_err _ _ _ _ E) as [-> | ->]; [|done].
    by apply insert_if_absent_keeps.
  - pose proof (proj1 warden_no_panic (new_lease range) db) as Hp. by rewrite E in Hp.
Qed.

Lemma insert_stores ranges db db' range :
  insert_new_ranges ranges db = (db', Ok tt) -> range ∈ ranges ->
  NoDup (Warden.range_info_id <$> ranges) -> leases db !! Warden.range_info_id range = None ->
  leases db' !! Warden.range_info_id range = Some (new_lease range).
Proof.
  revert db. induction ranges as [|range' ranges IH]; intros db Hi Hin Hnd Hr; [by apply not_elem_of_nil in Hin|].
  cbn in Hi. apply NoDup_cons in Hnd as [Hnin Hnd].
  destruct (insert_lease (new_lease range') db) as [db1 [[]|e|]] eqn:E; try done.
  apply insert_lease_ok in E. apply elem_of_cons in Hin as [-> | Hin].
  - eapply insert_keeps; [done|]. rewrite E. unfold insert_if_absent. cbn. rewrite Hr.
    by rewrite lookup_insert_eq.
  - eapply IH; [done..|]. rewrite E, insert_if_absent_other; [done|]. cbn. intros Heq.
    apply Hnin. rewrite Heq. by apply list_elem_of_fmap_2.
Qed.

Lemma write_keeps assignments db db' k :
  write_assignments assignments db = (db', Ok tt) ->
  k ∉ ((fun a => (keyspace_id (serialize a), range_id (serialize a))) <$> assignments) ->
  range_map db' !! k = range_map db !! k.
Proof.
  revert db. induction assignments as [|a assignments IH]; intros db; cbn; [by intros [= <-]|].
  destruct (execute (serialize a) db) as [db1 [[]|e|]] eqn:E; try done.
  intros Hw [Hne Hnin]%not_elem_of_cons. rewrite (IH _ Hw Hnin).
  destruct (execute_ok _ _ _ E) as [_ ->]. by rewrite lookup_insert_ne.
Qed.

Lemma write_leases assignments db db' :
  write_assignments assignments db = (db', Ok tt) -> leases db' = leases db.
Proof.
  revert db. induction assignments as [|a assignments IH]; intros db; cbn; [by intros [= <-]|].
  destruct (execute (serialize a) db) as [db1 [[]|e|]] eqn:E; try done.
  intros Hw. rewrite (IH _ Hw). by destruct (execute_ok _ _ _ E).
Qed.

(** ** Properties *)

(** C31: A range server takes a new range as the warden declared it. When the
    warden has inserted its new ranges, an owner of one of them gets exactly
    the key range of the declaration, open ends included, with the first leader
    number and an empty epoch lease; and whatever the outcome of the insertion,
    the lease of a range that existed is not touched, so inserting again does
    not take a range away from its leader. *)
Theorem declared_range_is_taken ranges range db db1 res :
  insert_new_ranges ranges db = (db1, res) ->
  (forall r l, leases db !! r = Some l -> leases db1 !! r = Some l) /\
  (res = Ok tt -> range ∈ ranges -> NoDup (Warden.range_info_id <$> ranges) ->
   leases db !! Warden.range_info_id range = None ->
   forall db2 info,
     take_ownership_and_load_range
       (mkFullRangeId (Warden.range_keyspace_id range) (Warden.range_info_id range)) db1 =
       (db2, Ok info) ->
     info_id info = Warden.range_info_id range /\ key_range info = Warden.range_key_range range /\
     leader_sequence_number info = 1%Z /\ epoch_lease info = (0, 0)%Z).
Proof.
  intros Hi. split; [intros r l; by eapply insert_keeps|].
  intros -> Hin Hnd Hr db2 info Ht.
  pose proof (insert_stores _ _ _ _ Hi Hin Hnd Hr) as Hl.
  assert (info_id info = Warden.range_info_id range) as Hid.
  { clear - Ht. unfold take_ownership_and_load_range, take_check in Ht.
    destruct (take_begin _ db1) as [prev|e|]; try done.
    destruct (take_acquire _ prev db1) as [db3 [[]|e|]]; try done.
    destruct (get_range_lease _ db3) as [l|e|]; try done.
    destruct (lease_leader l =? as_i64 (prev + 1))%Z; [|done]. by injection Ht as _ <-. }
  destruct (take_ownership_effect (mkFullRangeId (Warden.range_keyspace_id range) _) db1 db2 info (new_lease range) Hl) as (_ & Hn & Hk & He);
    [cbn; lia|done|].
  split_and!; [done| |exact Hn|exact He]. rewrite Hk. by destruct range as [? ? []].
Qed.

(** A stored plan is what the table of assignments says. When an update of
    the assignments succeeds, every range of the plan has the row of its
    assignment, with its bounds and its assignee; ranges that are not in the
    plan keep their rows, and no lease changes. *)
Theorem stored_assignments version assignments db db' :
  update_range_assignments version assignments db = (db', Ok tt) ->
  NoDup ((fun a => (keyspace_id (serialize a), range_id (serialize a))) <$> assignments) ->
  (forall a, a ∈ assignments ->
     range_map db' !! (keyspace_id (serialize a), range_id (serialize a)) = Some (serialize a)) /\
  (forall k, k ∉ ((fun a => (keyspace_id (serialize a), range_id (serialize a))) <$> assignments) ->
     range_map db' !! k = range_map db !! k) /\
  leases db' = leases db.
Proof.
  unfold update_range_assignments. destruct (prepare db) as [[]|e|]; try done.
  intros Hw Hnd. split_and!; [|intros k; by eapply write_keeps|by eapply write_leases].
  revert db Hw Hnd. induction assignments as [|a0 assignments IH]; intros db Hw Hnd a Hin;
    [by apply not_elem_of_nil in Hin|].
  cbn in Hw. apply NoDup_cons in Hnd as [Hnin Hnd].
  destruct (execute (serialize a0) db) as [db1 [[]|e|]] eqn:E; try done.
  apply elem_of_cons in Hin as [-> | Hin]; [|by eapply IH].
  rewrite (write_keeps _ _ _ _ Hw Hnin). destruct (execute_ok _ _ _ E) as [_ ->].
  by rewrite lookup_insert_eq.
Qed.
End Operations.

(** ** Witnesses: tables in memory *)

(** a database beside further tables *)
Definition on_first {DB X A} (m : DB -> DB * A) (d : DB * X) : (DB * X) * A :=
  let (db, a) := m d.1 in ((db, d.2), a).

#[refine] Instance with_tables `{Session DB} (X : Type) : Session (DB * X) := {|
  leases d := leases d.1;
  versions d := versions d.1;
  select_lease r d := select_lease r d.1;
  update_leader_if n r p := on_first (update_leader_if n r p);
  update_epochs_if e r p := on_first (update_epochs_if e r p);
  insert_records rows := on_first (insert_records rows);
  select_record r k d := select_record r k d.1
|}.
Proof.
  - intros r [db x]. apply select_lease_ok.
  - intros n r p [db x] d'. unfold on_first. cbn.
    destruct (update_leader_if n r p db) as [db1 res] eqn:E. intros [= <- ->]. by apply update_leader_ok in E.
  - intros e r p [db x] d'. unfold on_first. cbn.
    destruct (update_epochs_if e r p db) as [db1 res] eqn:E. intros [= <- ->]. by apply update_epochs_ok in E.
  - intros rows [db x] Hex. destruct (insert_records_arity rows db Hex) as [e E]. exists e.
    unfold on_first. cbn. by rewrite E.
  - intros rows [db x] d' r k. unfold on_first. cbn.
    destruct (insert_records rows db) as [db1 res] eqn:E. intros [= <- ->]. by apply insert_records_ok.
  - intros r k [db x]. apply select_record_ok.
  - destruct (queries_no_panic (DB := DB)) as (Q1 & Q2 & Q3 & Q4 & Q5). unfold on_first.
    split_and!; intros *; try apply Q1; try apply Q5.
    + pose proof (Q2 n r p db.1). by destruct (update_leader_if n r p db.1).
    + pose proof (Q3 e r p db.1). by destruct (update_epochs_if e r p db.1).
    + pose proof (Q4 rows db.1). by destruct (insert_records rows db.1).
Defined.

Abbreviation Tables := (Storage.Tables * gmap (Uuid * Uuid) SerializedRangeAssignment)%type (only parsing).
#[local] Existing Instance Storage.tables_session.

#[refine] Instance tables_warden : WardenSession Tables := {|
  range_map d := d.2;
  insert_lease l d :=
    ((Storage.mkTables (insert_if_absent l (t_leases d.1)) (t_versions d.1), d.2), Ok tt);
  prepare _ := Ok tt;
  execute a d := ((d.1, <[(keyspace_id a, range_id a) := a]> d.2), Ok tt)
|}.
Proof.
  - by intros l d d' [= <-].
  - done.
  - by intros a d d' [= <-].
  - done.
Defined.

(** a new range beside one that has a leader *)
Definition sample_info (id : Uuid) : Warden.RangeInfo :=
  Warden.mkRangeInfo (mkKeyspaceId 1) id (mkKeyRange None (Some [9%N])).
Definition sample_before : Tables := (Storage.sample_db, ∅).
Definition sample_ranges : list Warden.RangeInfo := [sample_info 2; sample_info 3].
Definition sample_inserted := insert_new_ranges sample_ranges sample_before.
Definition sample_taken :=
  take_ownership_and_load_range (mkFullRangeId (mkKeyspaceId 1) 3) sample_inserted.1.

Lemma declared_range_is_taken_witness :
  leases sample_inserted.1 !! 2%N = Some Storage.sample_lease /\
  exists info, sample_taken.2 = Ok info /\ key_range info = mkKeyRange None (Some [9%N]).
Proof.
  destruct (declared_range_is_taken sample_ranges (sample_info 3) sample_before sample_inserted.1
    sample_inserted.2) as [Hkeep Htake]; [apply surjective_pairing|].
  split; [apply Hkeep; reflexivity|].
  destruct sample_taken as [db2 [info|e|]] eqn:E; [|by vm_compute in E..].
  exists info. split; [reflexivity|].
  apply (Htake eq_refl ltac:(right; left) ltac:(by_decision) eq_refl db2 info E).
Defined.

Definition sample_assignment : Warden.RangeAssignment :=
  Warden.mkRangeAssignment (sample_info 3) "server"%string.

Lemma stored_assignments_witness :
  range_map (update_range_assignments 4 [sample_assignment] sample_before).1 !! (1%N, 3%N) =
  Some (serialize sample_assignment).
Proof.
  destruct (stored_assignments 4 [sample_assignment] sample_before
    (update_range_assignments 4 [sample_assignment] sample_before).1) as [Hs _];
    [reflexivity|by_decision|].
  apply (Hs sample_assignment). by left.
Defined.

End WardenPersistence.
