(* ===== verification/Config.v ===== *)
(** * Host and port of the configuration: [src/common/src/config.rs]

    The addresses of the services are written as [host:port], in the
    configuration file and in the places where an address is printed and read
    again. *)

From Stdlib Require Import Ascii.
From stdpp Require Import base tactics list numbers option strings pretty.
From S2P Require Import Prelude Region.

Module Config.
Local Open Scope string_scope.

Inductive ResolverMode := Local | Remote.

Record HostPort := mkHostPort { host : string; port : N }.

(** [impl Display] *)
Definition to_string (hp : HostPort) : string := host hp +:+ String Region.colon (pretty (port hp)).

Definition digit_value (a : ascii) : option N :=
  let n := N_of_ascii a in
  if decide (48 <= n < 58)%N then Some (n - 48)%N else None.

(** the digits of a number below [bound] *)
Fixpoint parse_digits (bound acc : N) (s : string) : option N :=
  match s with
  | EmptyString => Some acc
  | String a s' =>
      match digit_value a with
      | Some d =>
          let n := (acc * 10 + d)%N in
          if decide (n < bound)%N then parse_digits bound n s' else None
      | None => None
      end
  end.

(** [str::parse] of an unsigned integer type: digits, of which there is at least
    one, with an optional plus sign *)
Definition parse_uint (bound : N) (s : string) : option N :=
  match s with
  | EmptyString => None
  | String "+" EmptyString => None
  | String "+" s' => parse_digits bound 0 s'
  | _ => parse_digits bound 0 s
  end.
Definition parse_u16 : string -> option N := parse_uint (2 ^ 16).
Definition parse_u64 : string -> option N := parse_uint (2 ^ 64).

(** [impl FromStr]; the texts of the errors are left out *)
Definition from_str (s : string) : result unit HostPort :=
  match Region.split Region.colon s with
  | [h; p] =>
      match parse_u16 p with
      | Some n => Ok (mkHostPort h n)
      | None => Err tt
      end
  | _ => Err tt
  end.

(** [impl Serialize] and [impl Deserialize], on the text of the value *)
Definition serialize (hp : HostPort) : string := to_string hp.
Definition deserialize (s : string) : result unit HostPort :=
  match Region.split Region.colon s with
  | [h; p] =>
      match parse_u16 p with
      | Some n => Ok (mkHostPort h n)
      | None => Err tt
      end
  | _ => Err tt
  end.

(** ** Lemmas *)

Lemma digit_value_pretty x : (x < 10)%N -> digit_value (pretty_N_char x) = Some x.
Proof.
  intros Hx. assert (x = 0 \/ x = 1 \/ x = 2 \/ x = 3 \/ x = 4 \/ x = 5 \/ x = 6 \/ x = 7 \/ x = 8 \/ x = 9)%N
    as Hc by lia.
  destruct_or! Hc; by subst.
Qed.

Lemma parse_digits_pretty bound x s :
  (x < bound)%N -> parse_digits bound 0 (pretty_N_go x s) = parse_digits bound x s.
Proof.
  revert s. induction (N.lt_wf_0 x) as [x _ IH]; intros s Hx.
  destruct (decide (x = 0)%N) as [->|Hne]; [by rewrite pretty_N_go_0|].
  rewrite pretty_N_go_step by lia.
  assert (x `div` 10 < x)%N by (apply N.div_lt; lia). rewrite IH by lia.
  cbn [parse_digits]. rewrite digit_value_pretty by (apply N.mod_lt; lia).
  replace (x `div` 10 * 10 + x `mod` 10)%N with x by (rewrite (N.div_mod x 10) at 1; lia).
  by rewrite decide_True.
Qed.

(** the text of a number holds no other characters than digits *)
Lemma pretty_no_char c (x : N) : digit_value c = None -> Region.occurs c (pretty x) = false.
Proof.
  intros Hc. assert (forall x s, Region.occurs c s = false ->
    Region.occurs c (pretty_N_go x s) = false) as Hgo.
  { clear x. intros x. induction (N.lt_wf_0 x) as [x _ IH]; intros s Hs.
    destruct (decide (x = 0)%N) as [->|Hne]; [by rewrite pretty_N_go_0|].
    rewrite pretty_N_go_step by lia. apply IH; [apply N.div_lt; lia|].
    cbn [Region.occurs]. rewrite Hs, orb_false_r. apply bool_decide_eq_false. intros Heq.
    pose proof (digit_value_pretty (x `mod` 10) ltac:(apply N.mod_lt; lia)) as Hd. congruence. }
  unfold pretty, pretty_N. case_decide; [|by apply Hgo].
  cbn [Region.occurs]. rewrite orb_false_r. apply bool_decide_eq_false. by intros <-.
Qed.

Lemma parse_uint_pretty bound (x : N) : (0 < bound)%N -> (x < bound)%N -> parse_uint bound (pretty x) = Some x.
Proof.
  intros Hb Hx. unfold pretty, pretty_N. case_decide as H0.
  { subst. change (parse_digits bound 0 "0" = Some 0%N). cbn [parse_digits].
    change (digit_value "0") with (Some 0%N). cbv iota. by rewrite decide_True. }
  pose proof (parse_digits_pretty bound x "" Hx) as Hp. change (parse_digits bound x "") with (Some x) in Hp.
  destruct (pretty_N_go x "") as [|a s] eqn:E.
  { by injection Hp as <-. }
  assert (a <> "+"%char) as Ha.
  { intros ->. by cbn in Hp. }
  rewrite <- Hp. unfold parse_uint. by destruct a as [[] [] [] [] [] [] [] []].
Qed.

Lemma parse_digits_bound bound acc s n :
  (acc < bound)%N -> parse_digits bound acc s = Some n -> (n < bound)%N.
Proof.
  revert acc. induction s as [|a s IH]; intros acc Ha; cbn; [by intros [= <-]|].
  destruct (digit_value a) as [d|]; [|done]. case_decide; [|done]. by apply IH.
Qed.

Lemma parse_u16_bound s n : parse_u16 s = Some n -> (n < 2 ^ 16)%N.
Proof.
  unfold parse_u16, parse_uint. intros Hp. repeat case_match; try done; by eapply parse_digits_bound in Hp.
Qed.

(** one piece more for every separator *)
Lemma split_pieces c h t :
  length (Region.split c (h +:+ String c t)) =
  (length (Region.split c h) + length (Region.split c t))%nat.
Proof.
  induction h as [|a h IH].
  - change ("" +:+ String c t) with (String c t). by rewrite Region.split_cons, decide_True.
  - rewrite Region.append_cons, !Region.split_cons. case_decide; cbn [length]; [by rewrite IH|].
    destruct (Region.split_join c h) as (p & ps & E & _).
    destruct (Region.split_join c (h +:+ String c t)) as (p' & ps' & E' & _).
    rewrite E, E' in *. done.
Qed.

Lemma split_two c s : Region.occurs c s = true -> (2 <= length (Region.split c s))%nat.
Proof.
  induction s as [|a s IH]; [done|]. cbn [Region.occurs]. rewrite Region.split_cons.
  destruct (Region.split_join c s) as (p & ps & E & _). rewrite E in *. intros Hs.
  case_bool_decide; [rewrite decide_True by done; cbn; lia|]. rewrite decide_False by done. by apply IH.
Qed.

Lemma from_str_many h t :
  Region.occurs Region.colon h = true -> from_str (h +:+ String Region.colon t) = Err tt.
Proof.
  intros Hh. pose proof (split_pieces Region.colon h t) as Hl. pose proof (split_two _ _ Hh) as H2.
  destruct (Region.split_join Region.colon t) as (p & ps & E & _). rewrite E in Hl. cbn in Hl.
  unfold from_str. destruct (Region.split _ (h +:+ _)) as [|x [|y [|z l]]]; cbn in Hl; done || lia.
Qed.

(** ** Properties *)

(** An address is read as it was printed, unless its host has a colon. A
    host without a colon and a port of 16 bits come back from their text, in the
    configuration file and elsewhere; a host with a colon, as the text of an
    IPv6 address has, is refused; and whatever text is accepted, the host it
    gives has no colon and the port fits. *)
Theorem host_port_roundtrip hp :
  (port hp < 2 ^ 16)%N ->
  (Region.occurs Region.colon (host hp) = false ->
   from_str (to_string hp) = Ok hp /\ deserialize (serialize hp) = Ok hp) /\
  (Region.occurs Region.colon (host hp) = true ->
   from_str (to_string hp) = Err tt /\ deserialize (serialize hp) = Err tt) /\
  (forall s hp', from_str s = Ok hp' ->
     Region.occurs Region.colon (host hp') = false /\ (port hp' < 2 ^ 16)%N).
Proof.
  intros Hp. assert (from_str (to_string hp) =
    if Region.occurs Region.colon (host hp) then Err tt else Ok hp) as E.
  { unfold to_string. destruct (Region.occurs Region.colon (host hp)) eqn:Eh.
    - by apply from_str_many.
    - unfold from_str, parse_u16. rewrite Region.split_app, Region.split_none, parse_uint_pretty by (done || by apply pretty_no_char).
      by destruct hp. }
  split_and!; [intros Eh|intros Eh|]; [by rewrite Eh in E..|].
  intros s hp'. unfold from_str.
  destruct (Region.split_join Region.colon s) as (p & ps & -> & _ & Hf).
  destruct ps as [|q [|]]; [done| |done].
  destruct (parse_u16 q) as [n|] eqn:Eq; [|done]. intros [= <-]. split; [|by eapply parse_u16_bound].
  by apply Forall_cons in Hf as [? _].
Qed.

Lemma host_port_roundtrip_witness :
  from_str "localhost:50055" = Ok (mkHostPort "localhost" 50055) /\
  from_str (to_string (mkHostPort "::1" 80)) = Err tt.
Proof.
  split.
  - apply (proj1 (host_port_roundtrip (mkHostPort "localhost" 50055) ltac:(by_decision)));
      vm_compute; reflexivity.
  - apply (proj1 (proj2 (host_port_roundtrip (mkHostPort "::1" 80) ltac:(by_decision))));
      vm_compute; reflexivity.
Defined.

End Config.
