(* ===== verification/Epochs.v ===== *)
(** * Epochs: [src/epoch_reader/src/reader.rs] and
      [src/rangeserver/src/epoch_supplier.rs] with [epoch_supplier/reader.rs]

    A reader increments a counter of its own and returns what it then loads. The
    trait [EpochSupplier] demands the Global Epoch Invariant of the values that
    are returned. A call is two atomic operations, between which other calls
    run. *)

From stdpp Require Import base tactics list numbers option gmap sets relations.
From S2P Require Import Prelude Common.

Module Epochs.
Import Common.

(** [AtomicU64] *)
Record EpochReader := mkEpochReader { epoch : Z }.

Definition new : EpochReader := mkEpochReader 0.

(** [fetch_add(1)] and [load], the two halves of [read_epoch] *)
Definition read_add (r : EpochReader) : EpochReader := mkEpochReader (wrap_u64 (epoch r + 1)).
Definition read_load (r : EpochReader) : Z := epoch r.

(** [read_epoch], with no other call in between *)
Definition read_epoch (r : EpochReader) : EpochReader * Z :=
  let r' := read_add r in (r', read_load r').

(** [wait_until_epoch] of the reader returns at once *)
Definition wait_until_epoch (target timeout : Z) (r : EpochReader) : EpochReader := r.

(** ** Calls, interleaved *)

(** a call of one of the readers, whether it has incremented, and the largest
    value that had been returned when it began *)
Record Call := mkCall { reader : positive; added : bool; floor : Z }.

Record System := mkSystem {
  readers : gmap positive EpochReader;
  calls : list Call;
  returned : Z                         (** the largest value returned *)
}.

Definition reader_of (n : positive) (s : System) : EpochReader := default new (readers s !! n).

(** the label of a step is the call that returned and its value *)
Inductive step (used : positive -> Prop) : System -> option (Call * Z) -> System -> Prop :=
| step_begin n s :
    used n ->
    step used s None (mkSystem (readers s) (mkCall n false (returned s) :: calls s) (returned s))
| step_add n f cs s :
    calls s ≡ₚ mkCall n false f :: cs ->
    step used s None
      (mkSystem (<[n := read_add (reader_of n s)]> (readers s)) (mkCall n true f :: cs) (returned s))
| step_return n f cs s :
    calls s ≡ₚ mkCall n true f :: cs ->
    step used s (Some (mkCall n true f, read_load (reader_of n s)))
      (mkSystem (readers s) cs (Z.max (returned s) (read_load (reader_of n s)))).

Definition steps (used : positive -> Prop) (s s' : System) : Prop :=
  rtc (fun s s' => exists l, step used s l s') s s'.

Definition initial : System := mkSystem ∅ [] 0.

(** the Global Epoch Invariant for a call that returns [e]: at least one less
    than every value returned before it began *)
Definition global_epoch_invariant (c : Call) (e : Z) : Prop := (floor c - 1 <= e)%Z.

(** ** Lemmas *)

(** one reader: its counter is at least what was returned, and above what was
    returned before a call that has incremented it *)
Record epoch_inv (n : positive) (s : System) : Prop := {
  ei_reader c : c ∈ calls s -> reader c = n;
  ei_returned : (0 <= returned s <= epoch (reader_of n s))%Z;
  ei_floor c : c ∈ calls s -> (floor c <= returned s)%Z;
  ei_added c : c ∈ calls s -> added c = true -> (floor c < epoch (reader_of n s))%Z
}.

Lemma read_add_small r : (0 <= epoch r < 2 ^ 64 - 1)%Z -> epoch (read_add r) = (epoch r + 1)%Z.
Proof. intros Hr. cbn. unfold wrap_u64. rewrite Z.mod_small; lia. Qed.

Lemma epoch_inv_step n s l s' :
  step (eq n) s l s' -> (epoch (reader_of n s) < 2 ^ 64 - 1)%Z -> epoch_inv n s -> epoch_inv n s'.
Proof.
  intros Hs Hb [Hr Hret Hf Ha]. destruct Hs as [n' s <-|n' f cs s Hp|n' f cs s Hp].
  - split; cbn; [|done| |].
    + intros c [-> | Hc]%elem_of_cons; [done|by apply Hr].
    + intros c [-> | Hc]%elem_of_cons; [cbn; lia|by apply Hf].
    + intros c [-> | Hc]%elem_of_cons; [done|by apply Ha].
  - assert (n' = n) as -> by (apply (Hr (mkCall n' false f)); rewrite Hp; left).
    assert (epoch (reader_of n (mkSystem (<[n := read_add (reader_of n s)]> (readers s))
      (mkCall n true f :: cs) (returned s))) = epoch (reader_of n s) + 1)%Z as E.
    { unfold reader_of at 1. cbn [readers]. rewrite lookup_insert_eq. cbn [default].
      apply read_add_small. lia. }
    split; rewrite ?E; cbn [calls returned].
    + intros c [-> | Hc]%elem_of_cons; [done|]. apply Hr. rewrite Hp. by right.
    + lia.
    + intros c [-> | Hc]%elem_of_cons; [apply (Hf (mkCall n false f)); rewrite Hp; left|].
      apply Hf. rewrite Hp. by right.
    + intros c [-> | Hc]%elem_of_cons Hc'.
      * assert (f <= returned s)%Z by (apply (Hf (mkCall n false f)); rewrite Hp; left). cbn. lia.
      * assert (floor c <= returned s)%Z by (apply Hf; rewrite Hp; by right). lia.
  - assert (n' = n) as -> by (apply (Hr (mkCall n' true f)); rewrite Hp; left).
    assert (forall c, c ∈ cs -> c ∈ calls s) as Hsub by (intros c Hc; rewrite Hp; by right).
    split; cbn [calls returned]; change (reader_of n (mkSystem (readers s) _ _)) with (reader_of n s).
    + eauto.
    + unfold read_load. lia.
    + intros c Hc. pose proof (Hf c (Hsub c Hc)). lia.
    + eauto.
Qed.

(** a whole call of a reader *)
Lemma read_steps used n m z e :
  used n -> epoch (default new (m !! n)) = e -> (0 <= e < 2 ^ 64 - 1)%Z ->
  steps used (mkSystem m [] z)
    (mkSystem (<[n := mkEpochReader (e + 1)]> m) [] (Z.max z (e + 1))).
Proof.
  intros Hn He Hb. eapply rtc_l; [eexists; by apply (step_begin used n)|]. cbn.
  eapply rtc_l; [eexists; by apply (step_add used n z [])|]. cbn.
  unfold reader_of. cbn [readers].
  assert (read_add (default new (m !! n)) = mkEpochReader (e + 1)) as ->.
  { unfold read_add. rewrite He. f_equal. unfold wrap_u64. rewrite Z.mod_small; lia. }
  apply rtc_once. eexists.
  pose proof (step_return used n z [] (mkSystem (<[n := mkEpochReader (e + 1)]> m) [mkCall n true z] z)
    (Permutation_refl _)) as Hs.
  unfold reader_of in Hs. cbn in Hs. rewrite lookup_insert_eq in Hs. exact Hs.
Qed.

Lemma reads_steps (k : nat) :
  (Z.of_nat k < 2 ^ 64)%Z ->
  exists m, steps (fun _ => True) initial (mkSystem m [] (Z.of_nat k)) /\
    m !! 2%positive = None /\ epoch (default new (m !! 1%positive)) = Z.of_nat k.
Proof.
  induction k as [|k IH]; intros Hk; [exists ∅; by split_and!; [apply rtc_refl| |]|].
  destruct IH as (m & Hs & H2 & H1); [lia|].
  exists (<[1%positive := mkEpochReader (Z.of_nat k + 1)]> m). split_and!.
  - eapply rtc_trans; [exact Hs|]. replace (Z.of_nat (S k)) with (Z.max (Z.of_nat k) (Z.of_nat k + 1)) by lia.
    apply read_steps; [done|done|lia].
  - by rewrite lookup_insert_ne.
  - rewrite lookup_insert_eq. cbn. lia.
Qed.

(** ** Properties *)

(** One reader keeps the Global Epoch Invariant. However its calls
    interleave, a call returns a value above every value that was returned
    before it began, as long as the counter has not reached its end. *)
Theorem one_reader_keeps_invariant n s c e s' :
  rtc (fun s s' => (exists l, step (eq n) s l s') /\ (epoch (reader_of n s) < 2 ^ 64 - 1)%Z)
    initial s ->
  step (eq n) s (Some (c, e)) s' -> (floor c < e)%Z /\ global_epoch_invariant c e.
Proof.
  intros Hr Hs. assert (epoch_inv n s) as Hinv.
  { assert (epoch_inv n initial) as H0.
    { split; cbn; try by intros ? ?%not_elem_of_nil. unfold reader_of. cbn. rewrite lookup_empty. cbn. lia. }
    clear Hs. induction Hr as [|s1 s2 s3 [[l Hl] Hb] _ IH]; [done|]. apply IH. by eapply epoch_inv_step. }
  inversion Hs as [|? ? ? ?|n' f cs ? Hp]; subst.
  assert (mkCall n' true f ∈ calls s) as Hin by (rewrite Hp; left).
  pose proof (ei_reader _ _ Hinv _ Hin) as E. cbn in E. subst n'.
  pose proof (ei_added _ _ Hinv _ Hin eq_refl) as Hlt. unfold global_epoch_invariant, read_load.
  cbn in *. lia.
Qed.

(** Two readers break the Global Epoch Invariant. Every process has a reader
    with a counter of its own, so after [k] reads of one reader the first read of
    another returns one, which is more than one behind when [k] is three or
    more. *)
Theorem two_readers_break_invariant (k : nat) :
  (3 <= Z.of_nat k < 2 ^ 64)%Z ->
  exists s c s', steps (fun _ => True) initial s /\
    step (fun _ => True) s (Some (c, 1%Z)) s' /\ floor c = Z.of_nat k /\
    ~ global_epoch_invariant c 1.
Proof.
  intros Hk. destruct (reads_steps k) as (m & Hs & H2 & _); [lia|].
  set (c := mkCall 2 true (Z.of_nat k)).
  exists (mkSystem (<[2%positive := mkEpochReader 1]> m) [c] (Z.of_nat k)), c.
  exists (mkSystem (<[2%positive := mkEpochReader 1]> m) [] (Z.max (Z.of_nat k) 1)).
  split_and!; [| |done|unfold global_epoch_invariant; cbn; lia].
  - eapply rtc_trans; [exact Hs|]. eapply rtc_l; [eexists; by apply (step_begin _ 2%positive)|].
    apply rtc_once. eexists.
    pose proof (step_add (fun _ => True) 2 (Z.of_nat k) []
      (mkSystem m [mkCall 2 false (Z.of_nat k)] (Z.of_nat k)) (Permutation_refl _)) as Ha.
    unfold reader_of in Ha. cbn in Ha. rewrite H2 in Ha. exact Ha.
  - pose proof (step_return (fun _ => True) 2 (Z.of_nat k) []
      (mkSystem (<[2%positive := mkEpochReader 1]> m) [c] (Z.of_nat k)) (Permutation_refl _)) as Hr.
    unfold reader_of in Hr. cbn in Hr. rewrite lookup_insert_eq in Hr. exact Hr.
Qed.

(** ** Witnesses *)

Definition sample_call : Call := mkCall 1 true 0.
Definition sample_added : System := mkSystem (<[1%positive := read_add new]> ∅) [sample_call] 0.

Lemma one_reader_keeps_invariant_witness :
  exists s', step (eq 1%positive) sample_added (Some (sample_call, 1%Z)) s' /\ (0 < 1)%Z.
Proof.
  assert (step (eq 1%positive) sample_added (Some (sample_call, 1%Z))
    (mkSystem (<[1%positive := read_add new]> ∅) [] 1)) as Hs by (by apply step_return).
  exists (mkSystem (<[1%positive := read_add new]> ∅) [] 1). split; [exact Hs|].
  apply (one_reader_keeps_invariant 1 sample_added sample_call 1 _) in Hs as [Hlt _]; [exact Hlt|].
  eapply rtc_l; [split; [eexists; by apply (step_begin _ 1%positive)|done]|].
  apply rtc_once. split; [|done]. eexists.
  exact (step_add (eq 1%positive) 1 0 [] (mkSystem ∅ [mkCall 1 false 0] 0) (Permutation_refl _)).
Defined.

Lemma two_readers_break_invariant_witness :
  exists s c s', steps (fun _ => True) initial s /\
    step (fun _ => True) s (Some (c, 1%Z)) s' /\ floor c = 3%Z.
Proof.
  destruct (two_readers_break_invariant 3) as (s & c & s' & Hs & Hr & Hf & _); [lia|].
  exists s, c, s'. auto.
Defined.

End Epochs.
