(* ===== verification/RangeGrpc.v ===== *)
(** * The gRPC service of a range server: the service of
      [src/rangeserver/src/server.rs] and [prefetch] of
      [src/rangeclient/src/client.rs]

    Beside the messages of [RangeServer.v] a range server answers two gRPC
    calls, for prefetches and for the statistics of its lock tables. What they
    need of a range manager is the class [RangeGrpcOps]. *)

From Stdlib Require Import Floats.SpecFloat.
From stdpp Require Import base tactics list numbers option gmap sets strings pretty.
From S2P Require Import Prelude Float64 Common Storage RsError Wal Prefetching RangeManager WardenHandler Universe RangeServer RangeClient.

Module RangeGrpc.
Import Common RsError RangeServer.
Local Open Scope sangria_scope.

(** ** Data *)

(** [lock_table.rs]; the fields of the sums are left out, since they are not
    reported *)
Record Statistics := mkStatistics {
  num_waiters : list Z;
  num_pending_commits : list Z;
  request_timestamps : list Z;
  predictions : list Z;
  avg_delta_between_requests : list spec_float;
  avg_entropies : list spec_float
}.

Definition default_statistics : Statistics := mkStatistics [] [] [] [] [] [].

(** [LockTable::get_statistics]: what was recorded, which is then cleared *)
Definition get_lock_statistics (s : Statistics) : Statistics * Statistics := (default_statistics, s).

Class RangeGrpcOps (R : Type) : Type := {
  r_prefetch : Uuid -> Bytes -> R -> R * option (result Error unit);
  r_lock_table_stats : R -> R * Statistics
}.

(** the messages *)
Record RangeId := mkRangeId { id_keyspace_id : string; id_range_id : string }.
Record RangeKey := mkRangeKey { rk_range : option RangeId; rk_key : Bytes }.
Record PrefetchRequest := mkPrefetchRequest {
  pf_range_key : list RangeKey;
  pf_transaction_id : string
}.
Record RangeStatistics := mkRangeStatistics {
  rs_range_id : string;
  rs_num_waiters : list Z;
  rs_num_pending_commits : list Z;
  rs_request_timestamps : list string;
  rs_predictions : list string;
  rs_avg_delta_between_requests : list string;
  rs_avg_entropies : list string
}.

Section Operations.
Context `{RangeOps R, RangeGrpcOps R, HashOrder}.
(** [Uuid::parse_str] and [Uuid::to_string] of the crate [uuid] *)
Context (parse_uuid : string -> option Uuid) (print_uuid : Uuid -> string).
(** [to_string] of a [DateTime] of the crate [chrono] and of an [f64] *)
Context (print_time : Z -> string) (print_f64 : spec_float -> string).

Notation Handler := (M (Server R) Outcome).

(** ** The server *)

(** the errors of the handlers are all [TStatus::internal], for which any error
    stands here *)
Definition internal : Outcome := Failed (InternalError FmtError).

Definition parse_or_internal (s : string) : Handler Uuid :=
  match parse_uuid s with Some u => m_ret u | None => m_fail internal end.

(** an error becomes the status, a wait remains one *)
Definition map_internal {A} (m : Handler A) : Handler A := fun sv =>
  match m sv with
  | (sv', Err (Failed _)) => (sv', Err internal)
  | res => res
  end.

Definition server_prefetch (req : PrefetchRequest) : Handler string :=
  let! transaction_id := parse_or_internal (pf_transaction_id req) in
  let! first := m_unwrap (head (pf_range_key req)) in
  let! range := m_unwrap (rk_range first) in
  let! keyspace_id := parse_or_internal (id_keyspace_id range) in
  let! range_id := parse_or_internal (id_range_id range) in
  let! rm := map_internal (maybe_load_and_get_range
                             (mkFullRangeId (mkKeyspaceId keyspace_id) range_id)) in
  map_internal (call rm (r_prefetch transaction_id (rk_key first))) ;;;
  m_ret "Prefetch request processed successfully"%string.

(** the loop over the table: the ranges are numbered in its order *)
Fixpoint collect_statistics (i : nat) (hs : list positive) : Handler (list RangeStatistics) :=
  match hs with
  | [] => m_ret []
  | h :: hs' =>
      let! s := call h (fun r => let (r', s) := r_lock_table_stats r in (r', Some (Ok s))) in
      let! rest := collect_statistics (S i) hs' in
      m_ret (mkRangeStatistics (pretty (N.of_nat i)) (num_waiters s) (num_pending_commits s)
               (print_time <$> request_timestamps s) (pretty <$> predictions s)
               (print_f64 <$> avg_delta_between_requests s) (print_f64 <$> avg_entropies s) :: rest)
  end.

Definition server_get_statistics : Handler (list RangeStatistics) :=
  let! sv := m_get in
  collect_statistics 0 (hash_iter_map (loaded_ranges sv)).*2.

(** ** The client *)

Definition prefetch_request (tx : TransactionInfo) (range : FullRangeId) (keys : list Bytes)
    : PrefetchRequest :=
  let r := mkRangeId (print_uuid (keyspace_uuid (keyspace_id range))) (print_uuid (range_id range)) in
  mkPrefetchRequest ((fun key => mkRangeKey (Some r) key) <$> keys) (print_uuid (tx_id tx)).

(** [prefetch]; [connected] is whether the client was given an address for gRPC.
    A call whose handler panics fails. *)
Definition client_prefetch (connected : bool) (tx : TransactionInfo) (range : FullRangeId)
    (keys : list Bytes) : Handler unit :=
  if connected then fun sv =>
    match server_prefetch (prefetch_request tx range keys) sv with
    | (sv', Ok _) => (sv', Ok tt)
    | (sv', Err Waiting) => (sv', Err Waiting)
    | (sv', _) => (sv', Err (Failed PrefetchError))
    end
  else m_ret tt.

(** the prefetch of one key in the server *)
Definition local_prefetch (tx : Uuid) (range : FullRangeId) (key : Bytes) : Handler unit :=
  let! rm := maybe_load_and_get_range range in call rm (r_prefetch tx key).

(** what a client sees of the prefetch *)
Definition prefetch_seen (r : result Outcome unit) : result Outcome unit :=
  match r with
  | Ok _ => Ok tt
  | Err Waiting => Err Waiting
  | _ => Err (Failed PrefetchError)
  end.

(** ** Properties *)

Context (parse_print : forall u, parse_uuid (print_uuid u) = Some u).

(** A prefetch over gRPC prefetches the first key. A client that is connected
    has exactly the effect of a prefetch of the first of its keys in the server,
    and sees success when that succeeds and the prefetch error otherwise; the
    other keys are not looked at, a call without keys panics in the server and
    is seen as an error, and a client without an address does nothing. *)
Theorem prefetch_takes_first_key tx range keys sv :
  client_prefetch false tx range keys sv = (sv, Ok tt) /\
  client_prefetch true tx range [] sv = (sv, Err (Failed PrefetchError)) /\
  (forall key, client_prefetch true tx range (key :: keys) sv =
     ((local_prefetch (tx_id tx) range key sv).1,
      prefetch_seen (local_prefetch (tx_id tx) range key sv).2)).
Proof.
  split_and!; [done| |intros key].
  - unfold client_prefetch, server_prefetch, prefetch_request, m_then, parse_or_internal.
    cbn. by rewrite parse_print.
  - unfold client_prefetch, server_prefetch, prefetch_request, local_prefetch, m_then,
      parse_or_internal, map_internal. cbn. rewrite !parse_print. cbn.
    replace (mkFullRangeId (mkKeyspaceId (keyspace_uuid (keyspace_id range))) (range_id range))
      with range by (by destruct range as [[] ?]).
    destruct (maybe_load_and_get_range range sv) as [sv1 [h|[e|]|]]; [|done..].
    by destruct (call h (r_prefetch (tx_id tx) key) sv1) as [sv2 [[]|[e|]|]].
Qed.

Lemma collect_statistics_ids i hs sv sv' l :
  collect_statistics i hs sv = (sv', Ok l) ->
  rs_range_id <$> l = (fun n => pretty (N.of_nat n)) <$> seq i (length hs).
Proof.
  revert i sv sv' l. induction hs as [|h hs IH]; intros i sv sv' l; cbn; [by intros [= _ <-]|].
  unfold m_then. destruct (call h _ sv) as [sv1 [s|e|]]; try done.
  destruct (collect_statistics (S i) hs sv1) as [sv2 [rest|e|]] eqn:E; try done.
  intros [= _ <-]. cbn. f_equal. by eapply IH.
Qed.

(** The statistics do not say which range they are of. The answer has one
    entry for every loaded range, numbered from zero in the order of the table,
    which is any order: the identifier of an entry does not depend on the range. *)
Theorem statistics_are_numbered sv sv' l :
  server_get_statistics sv = (sv', Ok l) ->
  length l = size (loaded_ranges sv) /\
  rs_range_id <$> l = (fun n => pretty (N.of_nat n)) <$> seq 0 (size (loaded_ranges sv)).
Proof.
  unfold server_get_statistics, m_then, m_get. intros Hc%collect_statistics_ids.
  rewrite length_fmap in Hc.
  assert (length (hash_iter_map (loaded_ranges sv)) = size (loaded_ranges sv)) as El.
  { rewrite <- length_map_to_list. apply Permutation_length, hash_iter_map_perm. }
  rewrite El in Hc. split; [|done].
  by rewrite <- (length_fmap rs_range_id l), Hc, length_fmap, length_seq.
Qed.
End Operations.

(** ** Range managers of [RangeManager.v] *)

Section Managers.
Context `{Storage.RangeStorage Sto, Wal.RangeWal Log}.

(** [prefetch], with no other call in between *)
Definition prefetch (tx : Uuid) (key : Bytes) (rm : RangeManager.RangeManager Sto Log)
    : RangeManager.RangeManager Sto Log * option (result Error unit) :=
  match RangeManager.prefetch_begin tx key rm with
  | (rm', Prefetching.Return Prefetching.Fetched) => (rm', Some (Ok tt))
  | (rm', Prefetching.Return (Prefetching.Loading _)) => (rm', Some (Err PrefetchError))
  | (rm', Prefetching.Return (Prefetching.Requested n)) =>
      let (rm'', r) := RangeManager.prefetch_end key n (RangeManager.prefetch_get key rm') rm' in
      (rm'', Some r)
  | (rm', Prefetching.Wait _) => (rm', None)
  | (rm', Prefetching.BeginPanic) => (rm', Some Panic)
  end.

(** nothing is recorded in the statistics of a lock table *)
#[export] Instance manager_grpc : RangeGrpcOps (RangeManager.RangeManager Sto Log) := {|
  r_prefetch := prefetch;
  r_lock_table_stats rm := (rm, (get_lock_statistics default_statistics).2)
|}.
End Managers.

(** ** Witnesses *)

Definition sample_grpc : RangeGrpcOps RangeManager.Sample :=
  manager_grpc (H := RangeManager.sample_storage).

Lemma prefetch_takes_first_key_witness :
  (client_prefetch (H := sample_ops) (H0 := sample_grpc) Universe.unary_parse Universe.unary_print
     true RangeClient.sample_tx sample_range [[1%N]; [2%N]] sample_server).2 = Ok tt.
Proof.
  destruct (prefetch_takes_first_key (H := sample_ops) (H0 := sample_grpc) Universe.unary_parse
    Universe.unary_print Universe.unary_roundtrip RangeClient.sample_tx sample_range [[2%N]]
    sample_server) as (_ & _ & Hp).
  rewrite (Hp [1%N]). vm_compute. reflexivity.
Defined.

Definition sample_loaded : Server RangeManager.Sample :=
  (maybe_load_and_get_range (H := sample_ops) sample_range sample_server).1.
Definition sample_statistics :=
  server_get_statistics (R := RangeManager.Sample) (H0 := sample_grpc) (H1 := element_order)
    (fun _ => ""%string) (fun _ => ""%string) sample_loaded.

Lemma statistics_are_numbered_witness :
  exists l, sample_statistics.2 = Ok l /\ rs_range_id <$> l = ["0"%string].
Proof.
  destruct sample_statistics as [sv' [l|e|]] eqn:E; [|by vm_compute in E..].
  exists l. split; [reflexivity|].
  apply (statistics_are_numbered (R := RangeManager.Sample) (H0 := sample_grpc) (H1 := element_order)
    (fun _ => ""%string) (fun _ => ""%string)) in E as [_ E].
  rewrite E. vm_compute. reflexivity.
Defined.

End RangeGrpc.
