(* ===== verification/System.v ===== *)
(** * The parts together: [Server::new] of [src/frontend/src/frontend.rs]

    The frontend builds its coordinator from the clients of the other parts: the
    range assignment oracle over the universe, the pool of clients of the range
    servers, the client of the transaction state store, and a resolver, local or
    remote. Here the services of [Coordinator.v] are these parts. The resolver
    works on the ranges and on the store while its client waits, so its calls
    act on the whole. *)

From Stdlib Require Import Floats.SpecFloat.
From stdpp Require Import base tactics list numbers option gmap sets relations strings.
From S2P Require Import Prelude Float64 Common Storage RsError Wal RangeManager GroupCommit TxStateStore Coordinator Warden RangeServer RangeClient Universe Oracle ClientPool Frontend ResolverClient Config.

Module System.
Import Common.
Local Open Scope sangria_scope.

Record World (U R DB X : Type) := mkWorld {
  universe : U;
  oracle : Oracle.RangeAssignmentOracle;
  range_client : ClientPool.RangeClient;
  servers : gmap string (RangeServer.Server R);
  tx_state_store : DB;
  resolver : X
}.
Arguments mkWorld {U R DB X} _ _ _ _ _ _.
Arguments universe {U R DB X} _.
Arguments oracle {U R DB X} _.
Arguments range_client {U R DB X} _.
Arguments servers {U R DB X} _.
Arguments tx_state_store {U R DB X} _.
Arguments resolver {U R DB X} _.

Section Parts.
Context {X : Type}.
Context `{Oracle.HexCrate, Oracle.UniverseService U, RangeServer.RangeOps R, TxStateStore.TxSession DB}.
Abbreviation W := (World U R DB X) (only parsing).
(** the order in which the tasks of a transaction complete *)
Context (join : HashOrder).
Context `{ResolverClient.ResolverCore (World U R DB X), HashOrder}.
(** the conversions of the crate [uuid] *)
Context (parse_uuid : string -> option Uuid) (print_uuid : Uuid -> string).
Context (to_u128_le from_u128_le : Uuid -> N).
(** the clock, the random id of a request and an encoded message *)
Context (now : Z) (req_id : Uuid) (buf : Bytes).
Context (mode : Config.ResolverMode).

#[local] Instance pool_servers : ClientPool.RangeServers (gmap string (RangeServer.Server R)) :=
  ClientPool.oracle_servers to_u128_le from_u128_le now req_id buf.

(** ** The calls of the coordinator *)

Definition ask_oracle (ks : Keyspace) (key : Bytes) (w : W) : W * result unit (option FullRangeId) :=
  let (o, r) := Oracle.full_range_id_of_key parse_uuid ks key (universe w) (oracle w) in
  (mkWorld (universe w) o (range_client w) (servers w) (tx_state_store w) (resolver w), r).

(** a call through the pool of clients *)
Definition on_pool {A}
    (f : ClientPool.RangeClient * gmap string (RangeServer.Server R) ->
         (ClientPool.RangeClient * gmap string (RangeServer.Server R)) * A) (w : W) : W * A :=
  let '((p, svs), a) := f (range_client w, servers w) in
  (mkWorld (universe w) (oracle w) p svs (tx_state_store w) (resolver w), a).

Definition on_store {A} (f : DB -> DB * A) (w : W) : W * A :=
  let (db, a) := f (tx_state_store w) in
  (mkWorld (universe w) (oracle w) (range_client w) (servers w) db (resolver w), a).

(** the answer of a call that waits for a lock does not come *)
Definition awaited {A B} (f : A -> B) (r : result RangeServer.Outcome A) : result RsError.Error B :=
  match r with
  | Ok a => Ok (f a)
  | Err (RangeServer.Failed e) => Err e
  | _ => Panic
  end.

(** the same in a task of its own, whose panic is the end of the task *)
Definition joined_task {A B} (f : A -> B) (r : result RangeServer.Outcome A)
    : Coordinator.joined (result RsError.Error B) :=
  match r with
  | Panic => Coordinator.JoinError
  | r => Coordinator.Joined (awaited f r)
  end.

Definition get_result (g : RangeClient.GetResult) : Coordinator.GetResult :=
  Coordinator.mkGetResult (RangeClient.vals g) (RangeClient.leader_sequence_number g)
    (RangeClient.dependencies g).
Definition prepare_ok (p : RangeClient.PrepareOk) : Coordinator.PrepareOk :=
  Coordinator.mkPrepareOk (RangeClient.ok_highest_known_epoch p) (RangeClient.ok_epoch_lease p)
    (RangeClient.ok_dependencies p) (RangeClient.ok_released_lock_early p).

Definition second {A B C} (f : B -> C) (p : A * B) : A * C := (p.1, f p.2).

#[local] Instance services : Coordinator.Services (World U R DB X) := {|
  Coordinator.full_range_id_of_key := ask_oracle;
  Coordinator.rc_get tx range keys w :=
    second (awaited get_result) (on_pool (ClientPool.get tx range keys) w);
  Coordinator.rc_prepare_transaction tx range args w :=
    second (joined_task prepare_ok)
      (on_pool (ClientPool.prepare_transaction tx range (Coordinator.arg_has_reads args)
                  (Coordinator.arg_writes args) (Coordinator.arg_deletes args)
                  (Coordinator.arg_load args) (Coordinator.arg_open_clients args)) w);
  Coordinator.rc_abort_transaction tx range w :=
    (on_pool (ClientPool.abort_transaction tx range) w).1;
  Coordinator.rc_commit_transactions txs range epoch w :=
    (on_pool (ClientPool.commit_transactions txs range epoch) w).1;
  Coordinator.ts_start_transaction id := on_store (TxStateStore.start_transaction id);
  Coordinator.ts_try_commit id epoch := on_store (TxStateStore.try_commit_transaction id epoch);
  Coordinator.ts_try_abort id := on_store (TxStateStore.try_abort_transaction id);
  Coordinator.resolver_commit id deps ranges :=
    match mode with
    | Config.Local => ResolverClient.local_commit id deps ranges
    | Config.Remote => ResolverClient.remote_commit parse_uuid print_uuid id deps ranges
    end;
  Coordinator.resolver_register ids w :=
    match mode with
    | Config.Local => (ResolverClient.local_register_committed_transactions ids w).1
    | Config.Remote =>
        (ResolverClient.remote_register_committed_transactions parse_uuid print_uuid ids w).1
    end
|}.
(** ** The store under the operations of a transaction *)

Abbreviation committed w id := (TxStateStore.committed_epoch (tx_state_store w) id).
Notation Op := (M (Coordinator.Run (World U R DB X)) Coordinator.Error).

(** no transaction is committed in the store, nor any decision changed *)
Definition undecided {A} (m : Op A) : Prop :=
  forall s id, committed (Coordinator.world (m s).1) id = committed (Coordinator.world s) id.

Lemma undecided_same {A} (m : Op A) :
  (forall s, tx_state_store (Coordinator.world (m s).1) = tx_state_store (Coordinator.world s)) ->
  undecided m.
Proof. intros Hm s id. by rewrite Hm. Qed.

Lemma undecided_then {A B} (m : Op A) (k : A -> Op B) :
  undecided m -> (forall a, undecided (k a)) -> undecided (m_then m k).
Proof.
  intros Hm Hk s id. unfold m_then. rewrite <- (Hm s id).
  destruct (m s) as [s1 [a|e|]]; cbn; [apply Hk|done..].
Qed.

Lemma undecided_for {A} (l : list A) (body : A -> Op unit) :
  (forall x, undecided (body x)) -> undecided (m_for l body).
Proof.
  intros Hb. induction l as [|x l IH]; [by apply undecided_same|]. cbn. by apply undecided_then.
Qed.

Lemma undecided_ignore {A} (m : Op A) : undecided m -> undecided (Coordinator.ignore_error m).
Proof.
  intros Hm s id. rewrite <- (Hm s id). unfold Coordinator.ignore_error.
  by destruct (m s) as [s1 []].
Qed.

Lemma on_pool_store {A} (f : _ -> _ * A) (w : W) :
  tx_state_store (on_pool f w).1 = tx_state_store w.
Proof. unfold on_pool. by destruct (f _) as [[] ?]. Qed.

(** an attempt to abort *)
Lemma undecided_try_abort id : undecided (Coordinator.ask (Coordinator.ts_try_abort id)).
Proof.
  intros s id'. unfold Coordinator.ask. cbn. unfold on_store, TxStateStore.try_abort_transaction,
    TxStateStore.abort_transaction, TxStateStore.committed_epoch.
  destruct (TxStateStore.update_aborted_if id _) as [db r] eqn:E. cbn.
  apply TxStateStore.abort_ok in E as [E _].
  destruct r; cbn in E; [rewrite E; apply TxStateStore.abort_row_decided|..];
    destruct E as [-> | ->]; (done || apply TxStateStore.abort_row_decided).
Qed.

Lemma undecided_record_abort : undecided Coordinator.record_abort.
Proof.
  unfold Coordinator.record_abort. repeat (apply undecided_then; [by apply undecided_same|intros ?]).
  apply undecided_then; [apply undecided_try_abort|intros r]. apply undecided_then.
  { apply undecided_same. by destruct r. }
  intros []; [|by apply undecided_same]. apply undecided_for. intros x. apply undecided_same.
  intros s. apply on_pool_store.
Qed.

Lemma undecided_prepare_loop info l early : undecided (Coordinator.prepare_loop info l early).
Proof.
  revert early. induction l as [|[r args] l IH]; intros early; [by apply undecided_same|].
  cbn [Coordinator.prepare_loop]. apply undecided_then.
  { apply undecided_same. intros s. unfold Coordinator.ask. cbn. apply on_pool_store. }
  intros [[p|e|]|]; [|by apply undecided_same..|].
  - repeat (apply undecided_then; [by apply undecided_same|intros ?]). apply IH.
  - apply undecided_then; [apply undecided_ignore, undecided_record_abort|intros ?].
    by apply undecided_same.
Qed.

Lemma undecided_notify e : undecided (Coordinator.notify_participants join e).
Proof.
  unfold Coordinator.notify_participants.
  repeat (apply undecided_then; [by apply undecided_same|intros ?]).
  apply undecided_for. intros r. apply undecided_same. intros s. apply on_pool_store.
Qed.
(** the resolver changes the store as every client of it does *)
Context (register_steps : forall ids w,
  rtc TxStateStore.tx_step (tx_state_store w)
    (tx_state_store (ResolverClient.core_spawn_register ids w))).
Context (parse_print : forall u, parse_uuid (print_uuid u) = Some u).

Lemma register_decided ids w id :
  is_Some (committed w id) -> is_Some (committed (Coordinator.resolver_register ids w) id).
Proof.
  intros Hd. cbn. assert (Hs : is_Some (committed (ResolverClient.core_spawn_register ids w) id))
    by (eapply TxStateStore.steps_decided; [apply register_steps|done]).
  destruct mode; [done|].
  unfold ResolverClient.remote_register_committed_transactions, ResolverClient.rpc,
    ResolverClient.server_register_committed_transactions, m_then.
  by rewrite ResolverClient.parse_ids_print.
Qed.

(** the participants are told after the decision *)
Lemma notify_stored e (s s' : Coordinator.Run W) res :
  Coordinator.notify_participants join e s = (s', res) ->
  res = Ok tt /\ Coordinator.tx s' = Coordinator.tx s /\
  forall id, committed (Coordinator.world s') id = committed (Coordinator.world s) id.
Proof.
  intros E. pose proof (Coordinator.notify_participants_spec join e s) as Hn.
  pose proof (undecided_notify e s) as Hu. unfold wp in Hn. rewrite E in Hn, Hu. cbn in Hn, Hu.
  destruct Hn as (-> & Htx & _). by split_and!.
Qed.

Lemma try_commit_stored id w w' r :
  Coordinator.ts_try_commit id 0 w = (w', Ok r) ->
  r = TxStateStore.TransactionIsCommitted 0 /\ is_Some (committed w' id).
Proof.
  cbn. unfold on_store. destruct (TxStateStore.try_commit_transaction _ _ _) as [db a] eqn:E.
  intros [= <- ->]. apply TxStateStore.commit_answer in E as [-> E]. split; [done|]. by eexists.
Qed.

Lemma traditional_stored (s s' : Coordinator.Run W) :
  Coordinator.commit_traditional join s = (s', Ok tt) ->
  Coordinator.state (Coordinator.tx s') = Coordinator.Committed /\
  is_Some (committed (Coordinator.world s') (Coordinator.id (Coordinator.tx s))).
Proof.
  unfold Coordinator.commit_traditional, m_then, Coordinator.ask, Coordinator.emit, m_modify.
  cbn [m_get Coordinator.tx Coordinator.world Coordinator.log].
  destruct (Coordinator.ts_try_commit _ 0 _) as [w [r|e|]] eqn:E; [|done..].
  apply try_commit_stored in E as [-> Hc].
  cbn [Coordinator.unwrap_result m_ret m_assert Z.eqb Coordinator.update_tx m_modify].
  destruct (Coordinator.notify_participants _ _ _) as [s2 r2] eqn:En.
  intros [= -> ->]. apply notify_stored in En as (_ & -> & Hn). by rewrite Hn.
Qed.

Lemma resolved_stored early (s s' : Coordinator.Run W) :
  Coordinator.commit_resolved join early s = (s', Ok tt) ->
  Coordinator.state (Coordinator.tx s) <> Coordinator.Committed ->
  Coordinator.state (Coordinator.tx s') = Coordinator.Committed ->
  is_Some (committed (Coordinator.world s') (Coordinator.id (Coordinator.tx s))).
Proof.
  unfold Coordinator.commit_resolved, m_then, Coordinator.ask, Coordinator.emit, m_modify.
  cbn [m_get]. case_decide.
  { cbn [Coordinator.tx Coordinator.world Coordinator.log].
    destruct (Coordinator.resolver_commit _ _ _ _) as [w [[]|e|]]; by intros [= <-]. }
  cbn [Coordinator.tx Coordinator.world Coordinator.log].
  destruct (Coordinator.ts_try_commit _ 0 _) as [w [r|e|]] eqn:E; [|done..].
  apply try_commit_stored in E as [-> Hc].
  cbn [Coordinator.unwrap_result m_ret Coordinator.update_tx m_modify].
  destruct (Coordinator.notify_participants _ _ _) as [s2 r2] eqn:En.
  apply notify_stored in En as (-> & _ & Hn). intros E2 _ _.
  destruct early; [|injection E2 as <-; by rewrite Hn].
  injection E2 as <-. apply register_decided. by rewrite Hn.
Qed.

(** the two phases of a commit *)
Lemma commit_phases load n (s s' : Coordinator.Run W) res :
  Coordinator.state (Coordinator.tx s) = Coordinator.Running ->
  Coordinator.commit join load n s = (s', res) ->
  exists s1 r1, Coordinator.id (Coordinator.tx s1) = Coordinator.id (Coordinator.tx s) /\
    (forall id, committed (Coordinator.world s1) id = committed (Coordinator.world s) id) /\
    match r1 with
    | Ok early =>
        Coordinator.state (Coordinator.tx s1) = Coordinator.Preparing /\
        match Coordinator.commit_strategy (Coordinator.tx s) with
        | Traditional => Coordinator.commit_traditional join s1 = (s', res)
        | _ => Coordinator.commit_resolved join early s1 = (s', res)
        end
    | Err e => s' = s1 /\ res = Err e /\ Coordinator.state (Coordinator.tx s1) = Coordinator.Aborted
    | Panic => s' = s1 /\ res = Panic
    end.
Proof.
  intros Hst. unfold Coordinator.commit, Coordinator.check_still_running, m_then.
  cbn [m_get]. rewrite Hst. cbn [m_ret Coordinator.update_tx m_modify Coordinator.emit m_get].
  cbn [Coordinator.tx Coordinator.world Coordinator.log Coordinator.set_tx].
  match goal with |- context [Coordinator.prepare_loop ?i ?l ?b ?st] =>
    pose proof (Coordinator.prepare_loop_spec i l b st) as Hp;
    pose proof (undecided_prepare_loop i l b st) as Hu; unfold wp in Hp;
    destruct (Coordinator.prepare_loop i l b st) as [s1 r1] end.
  cbn in Hp. destruct Hp as (evs & Hc & Hr). intros E. exists s1, r1.
  split_and!; [by destruct Hc|exact Hu|].
  destruct r1 as [early|e|]; [|injection E as <- <-; naive_solver..].
  destruct Hr as (_ & Hs & _). split; [exact Hs|]. cbn in E.
  by destruct (Coordinator.commit_strategy (Coordinator.tx s)).
Qed.

(** the second phase fails only through the resolver *)
Lemma traditional_no_error (s s' : Coordinator.Run W) e :
  Coordinator.commit_traditional join s <> (s', Err e).
Proof.
  unfold Coordinator.commit_traditional, m_then, Coordinator.ask, Coordinator.emit, m_modify.
  cbn [m_get Coordinator.tx Coordinator.world Coordinator.log].
  destruct (Coordinator.ts_try_commit _ 0 _) as [w [r|e'|]] eqn:E; [|done..].
  apply try_commit_stored in E as [-> _].
  cbn [Coordinator.unwrap_result m_ret m_assert Z.eqb Coordinator.update_tx m_modify].
  destruct (Coordinator.notify_participants _ _ _) as [s2 r2] eqn:En.
  by apply notify_stored in En as (-> & _).
Qed.

Lemma resolved_error early (s s' : Coordinator.Run W) e :
  Coordinator.commit_resolved join early s = (s', Err e) -> Coordinator.tx s' = Coordinator.tx s.
Proof.
  unfold Coordinator.commit_resolved, m_then, Coordinator.ask, Coordinator.emit, m_modify.
  cbn [m_get]. case_decide; cbn [Coordinator.tx Coordinator.world Coordinator.log].
  { destruct (Coordinator.resolver_commit _ _ _ _) as [w [[]|e'|]]; by intros [= <-]. }
  destruct (Coordinator.ts_try_commit _ 0 _) as [w [r|e'|]]; [|done..].
  cbn [Coordinator.unwrap_result m_ret Coordinator.update_tx m_modify].
  destruct (Coordinator.notify_participants _ _ _) as [s2 r2] eqn:En.
  apply notify_stored in En as (-> & _). by destruct early.
Qed.

Lemma abort_stored (s s' : Coordinator.Run W) :
  Coordinator.state (Coordinator.tx s) = Coordinator.Running -> Coordinator.abort s = (s', Ok tt) ->
  committed (Coordinator.world s') (Coordinator.id (Coordinator.tx s)) = None.
Proof.
  intros Hst Ha. pose proof (undecided_record_abort s (Coordinator.id (Coordinator.tx s))) as Hu.
  revert Ha. unfold Coordinator.abort, Coordinator.check_still_running, m_then. cbn [m_get].
  rewrite !Hst. cbn [m_ret]. intros Ha. rewrite Ha in Hu. cbn [fst] in Hu. rewrite Hu. revert Ha.
  unfold Coordinator.record_abort, m_then, Coordinator.ask, Coordinator.emit, m_modify.
  cbn [m_get Coordinator.update_tx m_modify Coordinator.tx Coordinator.world Coordinator.log
    Coordinator.set_tx]. cbn [Coordinator.ts_try_abort services]. unfold on_store.
  destruct (TxStateStore.try_abort_transaction _ _) as [db [[]|e|]] eqn:E; [|done..].
  intros _. apply (TxStateStore.abort_answer _ _ _ _ E).
Qed.

(** ** Properties *)

(** C8: What the client is told is what the store says. When the commit of a
    running transaction succeeds and the transaction is committed, the store has
    it as committed, and keeps it so whatever its clients do; under the
    traditional strategy every successful commit is of this kind. When a commit
    fails under the traditional strategy, or fails under another one and leaves
    the transaction aborted, no decision in the store has changed. After an abort
    that succeeds the transaction is not committed in the store. The store is the
    one of the code, which commits a transaction also when somebody else has
    aborted it, and never answers a commit with an abort. *)
Theorem reported_decision_is_stored load n (s : Coordinator.Run W) :
  Coordinator.state (Coordinator.tx s) = Coordinator.Running ->
  let id := Coordinator.id (Coordinator.tx s) in
  let traditional := Coordinator.commit_strategy (Coordinator.tx s) = Traditional in
  (forall s', Coordinator.commit join load n s = (s', Ok tt) ->
    (traditional -> Coordinator.state (Coordinator.tx s') = Coordinator.Committed) /\
    (Coordinator.state (Coordinator.tx s') = Coordinator.Committed ->
     forall db, rtc TxStateStore.tx_step (tx_state_store (Coordinator.world s')) db ->
       is_Some (TxStateStore.committed_epoch db id))) /\
  (forall s' e, Coordinator.commit join load n s = (s', Err e) ->
    (traditional \/ Coordinator.state (Coordinator.tx s') = Coordinator.Aborted ->
     forall id', committed (Coordinator.world s') id' = committed (Coordinator.world s) id')) /\
  (forall s', Coordinator.abort s = (s', Ok tt) -> committed (Coordinator.world s') id = None).
Proof.
  intros Hst id traditional. split_and!; [| |intros s'; by apply abort_stored].
  - intros s' (s1 & [early|e|] & Hid & Hc & Hr)%commit_phases; [|by naive_solver..|done].
    assert (Hs : (traditional -> Coordinator.state (Coordinator.tx s') = Coordinator.Committed) /\
      (Coordinator.state (Coordinator.tx s') = Coordinator.Committed ->
       is_Some (committed (Coordinator.world s') id))).
    { unfold traditional, id. rewrite <- Hid. destruct Hr as [Hst1 Hr].
      destruct (Coordinator.commit_strategy _); [by apply traditional_stored in Hr as [? ?]|..];
        (split; [done|]; eapply resolved_stored; [exact Hr|congruence]). }
    destruct Hs as [Ht Hs]. split; [exact Ht|]. intros Hcom db Hsteps.
    eapply TxStateStore.steps_decided; eauto.
  - intros s' e (s1 & [early|e'|] & _ & Hc & Hr)%commit_phases; [| |by naive_solver|done].
    + unfold traditional. destruct Hr as [Hst1 Hr]. destruct (Coordinator.commit_strategy _);
        [by apply traditional_no_error in Hr|..]; apply resolved_error in Hr; intros []; congruence.
    + by destruct Hr as (-> & _ & Hs).
Qed.

End Parts.

(** ** A run of the whole *)

(** a resolver that has nothing to do *)
#[local] Instance idle_resolver {U R DB} : ResolverClient.ResolverCore (World U R DB unit) := {|
  ResolverClient.core_commit _ _ _ _ w := (w, Ok tt);
  ResolverClient.core_spawn_register _ w := w;
  ResolverClient.core_get_stats w := (w, ∅);
  ResolverClient.core_num_waiting _ := 0%nat;
  ResolverClient.core_average_waiting _ := Float64.zero;
  ResolverClient.core_sample w := w;
  ResolverClient.core_transaction_info_status _ := ""%string;
  ResolverClient.core_resolved_transactions_status _ := ""%string;
  ResolverClient.core_waiting_transactions_status _ := ""%string;
  ResolverClient.core_group_commit_status _ := ""%string
|}.

Definition Sample :=
  World (gmap (string * string) Universe.Row) RangeManager.Sample (gmap Uuid TxStateStore.TxRow) unit.

(** the databases of the other files, in memory *)
Definition sample_services : Coordinator.Services Sample :=
  services (H := Oracle.sample_hex) (H0 := Oracle.sample_service) (H1 := RangeServer.sample_ops)
    (H2 := TxStateStore.table_session) (H4 := element_order) Universe.unary_parse Universe.unary_print
    byte_swap byte_swap 0 5 [] Config.Local.

(** the universe has one key space, whose one range is that of the range server *)
#[local] Existing Instance Universe.table_universe.
Definition sample_universe : gmap (string * string) Universe.Row :=
  (Universe.server_create_keyspace Universe.unary_parse Universe.unary_print
     (fun n => if decide (n = 0)%nat then 2%N else 1%N)
     (Universe.mkCreateKeyspaceRequest "ns" "ks" (Some Universe.sample_zone)
        [Universe.mkKeyRangeRequest [1%N] [200%N]]) ∅).1.

Definition sample_world : Sample :=
  mkWorld sample_universe Oracle.new ClientPool.new
    {[ "127.0.0.1:50055"%string := RangeServer.sample_server ]} ∅ tt.

Definition sample_rmw := Frontend.read_modify_write (H := sample_services) element_order
  (H0 := element_order) 1000000000 Traditional Universe.unary_parse Universe.unary_print.
Definition sample_start := Frontend.start_transaction (H := sample_services)
  1000000000 Traditional Universe.unary_print.
Definition sample_get := Frontend.get (H := sample_services) (H0 := element_order)
  Universe.unary_parse.

(** One client writes and another reads. A read-modify-write of a key through
    the frontend, with the universe, the oracle, the pool of clients, the range
    server with its database and log, and the transaction state store of the
    other files, succeeds; then the transaction is committed in the store, and a
    read of the key in a new transaction gives the value that was written,
    whatever it is. *)
Theorem written_value_is_read (v : Bytes) :
  let write := Frontend.mkReadModifyWriteRequest (Some Oracle.sample_ks) [[5%N]] v in
  let (sv1, written) := sample_rmw 7 0 write (Frontend.new sample_world) in
  let (sv2, started) :=
    sample_start 8 0 (Frontend.mkStartTransactionRequest (Some Oracle.sample_ks)) sv1 in
  written = Ok tt /\
  tx_state_store (Frontend.services sv1) !! 7%N =
    Some (TxStateStore.mkTxRow (Some TxStateStore.Committed) (Some 0%Z)) /\
  let tid := Universe.unary_print 8 in
  started = Ok tid /\
  (sample_get (Frontend.mkGetRequest tid (Some Oracle.sample_ks) [5%N]) sv2).2 = Ok (Some v).
Proof. vm_compute. by split_and!. Qed.

(** ** Witnesses *)

#[local] Existing Instance TxStateStore.table_session.

(** a transaction that has read and written a key *)
Definition sample_begin : Sample * option Coordinator.Transaction :=
  Coordinator.start_transaction (H := sample_services) Traditional (mkTransactionInfo 7 0 1000000000)
    Oracle.sample_ks sample_world.
Definition sample_run : Coordinator.Run Sample :=
  Coordinator.mkRun (Coordinator.new (mkTransactionInfo 7 0 1000000000) Traditional Oracle.sample_ks)
    sample_begin.1 [].
Definition sample_written : Coordinator.Run Sample :=
  (Coordinator.put (H := sample_services) Oracle.sample_ks [5%N] [65%N]
     (Coordinator.get (H := sample_services) (H0 := element_order) Oracle.sample_ks [5%N]
        sample_run).1).1.
Definition sample_commit := Coordinator.commit (H := sample_services) (H0 := element_order)
  element_order Float64.zero 1 sample_written.

Lemma reported_decision_is_stored_witness :
  sample_commit.2 = Ok tt /\
  is_Some (TxStateStore.committed_epoch (tx_state_store (Coordinator.world sample_commit.1)) 7%N).
Proof.
  split; [vm_compute; reflexivity|].
  destruct (reported_decision_is_stored (X := unit) (H := Oracle.sample_hex) (H0 := Oracle.sample_service)
    (H1 := RangeServer.sample_ops) (H2 := TxStateStore.table_session) element_order
    (H3 := idle_resolver) (H4 := element_order) Universe.unary_parse Universe.unary_print byte_swap byte_swap 0 5 []
    Config.Local (fun _ _ => rtc_refl _ _) Universe.unary_roundtrip Float64.zero 1 sample_written)
    as [Hok _]; [vm_compute; reflexivity|].
  destruct (Hok sample_commit.1) as [Ht Hc]; [vm_compute; reflexivity|].
  apply (Hc (Ht eq_refl)), rtc_refl.
Defined.

End System.
