(* ===== verification/AtomicCommit.v ===== *)
(** * A committed transaction is applied at all its ranges

    The coordinator of [Coordinator.v] with the services of [System.v]: its
    prepares and commits go through the pool of clients to the range server, and
    there to the managers of the ranges. When the commit of a transaction
    succeeds, the ranges it has written show its writes, and nothing else has
    changed. *)

From Stdlib Require Import Floats.SpecFloat.
From stdpp Require Import base tactics list numbers option gmap sets relations strings.
From S2P Require Import Prelude Float64 Common Storage RsError Wal RangeManager GroupCommit TxStateStore Coordinator Warden RangeServer RangeClient RangeService Universe Oracle ClientPool Frontend ResolverClient Config System.

Module AtomicCommit.
Import Common System.
Local Open Scope sangria_scope.

Section Atomic.
Context {X : Type}.
Context `{Oracle.HexCrate, Oracle.UniverseService U, TxStateStore.TxSession DB}.
(** the order in which the tasks of a transaction complete *)
Context (join : HashOrder).
Context `{Storage.RangeStorage Sto, Wal.RangeWal Log, HashOrder}.
Notation Manager := (RangeManager.RangeManager Sto Log).
(** the configuration of the range server, the stores of a new manager, the
    clock and the readings of the contention *)
Context (cs : CommitStrategy) (heuristic : Heuristic) (sto : Sto) (wal : Log).
Context (epoch_duration_nanos now : Z) (contention : Bytes -> nat).
#[local] Instance manager_ops : RangeServer.RangeOps Manager :=
  RangeServer.manager_ops cs heuristic sto wal epoch_duration_nanos now contention.

Notation W := (World U Manager DB X).
Context `{ResolverClient.ResolverCore (World U Manager DB X)}.
Context (parse_uuid : string -> option Uuid) (print_uuid : Uuid -> string).
Context (to_u128_le from_u128_le : Uuid -> N).
Context (to_u128_le_bound : forall u, RangeClient.is_uuid u -> (to_u128_le u < 2 ^ 128)%N)
  (from_to_u128_le : forall u, RangeClient.is_uuid u -> from_u128_le (to_u128_le u) = u).
Context (req_id : Uuid) (buf : Bytes) (mode : Config.ResolverMode).
#[local] Instance services : Coordinator.Services (World U Manager DB X) :=
  System.services parse_uuid print_uuid to_u128_le from_u128_le now req_id buf mode.

(** ** The range server of the oracle *)

Definition server_address : string := "127.0.0.1:50055".

Definition world_ok (w : W) : Prop :=
  ClientPool.pool_inv (range_client w) /\
  exists sv, servers w !! server_address = Some sv /\ RangeService.server_ok sv.

(** the manager of a range *)
Definition range_at (r : FullRangeId) (w : W) : option Manager :=
  servers w !! server_address ≫= RangeService.manager_at (range_id r).

(** what the server knows of a transaction *)
Definition known (tx : Uuid) (w : W) : option TransactionInfo :=
  servers w !! server_address ≫= (fun sv => RangeServer.transaction_table sv !! tx).

(** only the range [r] may have changed *)
Definition touched (r : FullRangeId) (w w' : W) : Prop :=
  world_ok w' /\ forall r', range_id r' <> range_id r -> range_at r' w' = range_at r' w.

(** a call through the pool is the call on the server *)
Lemma pool_call {A} r (m : M (RangeServer.Server Manager) RangeServer.Outcome A) (w : W) sv w' res :
  ClientPool.pool_inv (range_client w) -> servers w !! server_address = Some sv ->
  on_pool (ClientPool.forward (H := ClientPool.oracle_servers to_u128_le from_u128_le now req_id buf) r
    (fun host => ClientPool.at_server host m)) w = (w', res) ->
  ClientPool.pool_inv (range_client w') /\ servers w' = <[server_address := (m sv).1]> (servers w) /\
  forall a, res = Ok a -> (m sv).2 = Ok a.
Proof.
  intros Hp Hsv. unfold on_pool, ClientPool.forward.
  edestruct (ClientPool.get_range_client_spec
    (H := ClientPool.oracle_servers to_u128_le from_u128_le now req_id buf) r _ (range_client w)
    (servers w) Hp eq_refl) as (c & p' & Hg & Hp' & _ & Hc).
  rewrite Hg, Hc. unfold ClientPool.at_server. cbn [ClientPool.range_server_info snd Warden.address].
  change "127.0.0.1:50055"%string with server_address. rewrite Hsv.
  destruct (m sv) as [sv' [a|[e|]|]]; [by intros [= <- <-]| |by intros [= <- <-]..].
  cbn. destruct e; by intros [= <- <-].
Qed.


(** the same, for a call that touches one range of the server *)
Lemma pool_touches {A} r (m : M (RangeServer.Server Manager) RangeServer.Outcome A) (w : W) w' res :
  (forall sv, RangeService.touches (range_id r) sv (m sv).1) ->
  on_pool (ClientPool.forward (H := ClientPool.oracle_servers to_u128_le from_u128_le now req_id buf) r
    (fun host => ClientPool.at_server host m)) w = (w', res) ->
  world_ok w ->
  touched r w w' /\
  exists sv, servers w !! server_address = Some sv /\ servers w' !! server_address = Some (m sv).1 /\
    range_at r w = RangeService.manager_at (range_id r) sv /\
    range_at r w' = RangeService.manager_at (range_id r) (m sv).1 /\ forall a, res = Ok a -> (m sv).2 = Ok a.
Proof.
  intros Ht E [Hp (sv & Hsv & Hok)]. destruct (pool_call r m w sv w' res Hp Hsv E) as (Hp' & Hs' & Ha).
  destruct (Ht sv Hok) as [Hok' Hm].
  assert (Hat' : forall r', range_at r' w' = RangeService.manager_at (range_id r') (m sv).1).
  { intros r'. unfold range_at. by rewrite Hs', lookup_insert_eq. }
  assert (Hat0 : forall r', range_at r' w = RangeService.manager_at (range_id r') sv).
  { intros r'. unfold range_at. by rewrite Hsv. }
  split; [split|].
  - split; [done|]. exists (m sv).1. by rewrite Hs', lookup_insert_eq.
  - intros r' Hne. rewrite Hat', Hat0. by apply Hm.
  - exists sv. split; [done|]. split; [by rewrite Hs', lookup_insert_eq|]. by split_and!.
Qed.

(** ** The calls of the coordinator *)

(** the request that a prepare of the coordinator makes of the manager *)
Definition prepare_request (args : Coordinator.PrepareArgs) : RangeManager.PrepareRequest :=
  RangeClient.prepare_body (Coordinator.arg_has_reads args) (Coordinator.arg_writes args)
    (Coordinator.arg_deletes args) (Coordinator.arg_load args) (Coordinator.arg_open_clients args) buf.

Definition commit_request (epoch : Z) : RangeManager.CommitRequest :=
  RangeManager.mkCommitRequest epoch 0 buf.

(** the manager has prepared the transaction *)
Definition prepared_by (info : TransactionInfo) (args : Coordinator.PrepareArgs) (rm rm' : Manager) : Prop :=
  exists q, RangeManager.prepare info now now (prepare_request args) contention rm = (rm', Some (Ok q)).

Lemma prepare_world info r args (w w' : W) a :
  RangeClient.is_uuid (tx_id info) -> RangeClient.is_range r -> world_ok w ->
  Coordinator.rc_prepare_transaction info r args w = (w', a) ->
  touched r w w' /\ (forall tx, known tx w' = known tx w) /\
  forall p rm st, a = Coordinator.Joined (Ok p) -> range_at r w = Some rm ->
    RangeManager.state rm = RangeManager.Loaded st ->
    exists info' rm', known (tx_id info) w = Some info' /\ prepared_by info' args rm rm' /\
      range_at r w' = Some rm'.
Proof.
  intros Hu Hr Hok. cbn. unfold second. destruct (on_pool _ w) as [w1 res] eqn:E. cbn. intros [= <- <-].
  apply pool_touches in E as [Ht (sv & Hsv & Hsv1 & Hat & Hat1 & Ha)]; [|intros sv'|done].
  - split; [done|]. split.
    { intros tx. unfold known. rewrite Hsv, Hsv1, RangeClient.prepare_call_eq by done. cbn.
      pose proof (RangeService.prepare_keeps_transactions (tx_id info) r (prepare_request args) sv) as Hk.
      unfold prepare_request in Hk. by destruct (RangeClient.local_prepare _ _ _ sv); cbn in *; rewrite Hk. }
    intros p rm st Hj Hrm Hst.
    assert (exists q, res = Ok q) as [q ->].
    { unfold joined_task, awaited in Hj. destruct res as [q|[e|]|]; naive_solver. }
    specialize (Ha q eq_refl). rewrite RangeClient.prepare_call_eq in Hat1, Ha by done.
    destruct (RangeClient.local_prepare _ _ _ sv) as [sv1 [q'|[e|]|]] eqn:El; try done.
    rewrite Hat in Hrm. eapply RangeService.prepare_manager in El as (info' & rm' & Hid & Hp & Hm);
      [|exact Hrm|exact Hst].
    exists info', rm'. split; [unfold known; by rewrite Hsv|]. split; [by exists q'|by rewrite Hat1].
  - rewrite RangeClient.prepare_call_eq by done.
    pose proof (RangeService.touches_prepare (tx_id info) r (prepare_request args) sv') as Hp.
    unfold prepare_request in Hp. by destruct (RangeClient.local_prepare _ _ _ sv').
Qed.

Lemma commit_world txs r epoch (w : W) :
  Forall RangeClient.is_uuid txs -> RangeClient.is_range r -> world_ok w ->
  let w' := Coordinator.rc_commit_transactions txs r epoch w in
  touched r w w' /\
  forall rm st, range_at r w = Some rm -> RangeManager.state rm = RangeManager.Loaded st ->
    range_at r w' = Some (RangeManager.commit txs (commit_request epoch) now rm).1.
Proof.
  intros Hu Hr Hok. cbn. destruct (on_pool _ w) as [w1 res] eqn:E. cbn.
  assert (Heq : forall sv, (RangeClient.commit_transactions to_u128_le from_u128_le now req_id txs r epoch buf sv).1
    = (RangeClient.local_commit txs r epoch buf sv).1).
  { intros sv. destruct (RangeClient.local_commit txs r epoch buf sv) as [sv' r'] eqn:El.
    by erewrite RangeClient.commit_call. }
  apply pool_touches in E as [Ht (sv & _ & _ & Hat & Hat1 & Ha)]; [|intros sv'|done].
  - split; [done|]. intros rm st Hrm Hst. rewrite Hat1, Heq.
    rewrite Hat in Hrm. by eapply RangeService.commit_manager.
  - rewrite Heq. apply RangeService.touches_commit.
Qed.

Lemma get_world info r keys (w w' : W) g rm st :
  RangeClient.is_uuid (tx_id info) -> RangeClient.is_range r -> world_ok w ->
  range_at r w = Some rm -> RangeManager.state rm = RangeManager.Loaded st -> RangeManager.wf rm ->
  Coordinator.rc_get info r keys w = (w', Ok g) ->
  Coordinator.vals g = RangeManager.view rm <$> keys.
Proof.
  intros Hu Hr Hok Hrm Hst Hwf. cbn. unfold second. destruct (on_pool _ w) as [w1 res] eqn:E. cbn.
  intros [= _ Hg]. apply pool_touches in E as [_ (sv & _ & _ & Hat & _ & Ha)]; [|intros sv'|done].
  - destruct res as [q|[e|]|]; try done. injection Hg as <-. specialize (Ha q eq_refl).
    rewrite RangeClient.get_call_eq in Ha by done.
    destruct (RangeClient.local_reads _ _ _ _ _ sv) as [sv1 [q'|[e|]|]] eqn:El; try done.
    injection Ha as <-. rewrite Hat in Hrm. by eapply RangeService.reads_view.
  - rewrite RangeClient.get_call_eq by done.
    pose proof (RangeService.touches_reads now (tx_id info) (RangeClient.timeout_us info) r keys sv') as Hp.
    by destruct (RangeClient.local_reads _ _ _ _ _ sv').
Qed.

(** ** The two phases *)

(** only the ranges of [rids] may have changed *)
Definition touched_only (rids : list Uuid) (w w' : W) : Prop :=
  world_ok w' /\ forall r, range_id r ∉ rids -> range_at r w' = range_at r w.

Lemma touched_cons r rids w w1 w2 :
  touched r w w1 -> touched_only rids w1 w2 -> touched_only (range_id r :: rids) w w2.
Proof.
  intros [_ H1'] [Hok H2']. split; [done|]. intros r' [Hne Hni]%not_elem_of_cons.
  by rewrite H2', H1'.
Qed.

Lemma prepare_loop_world info l early (s s' : Coordinator.Run W) b :
  RangeClient.is_uuid (tx_id info) -> Forall RangeClient.is_range l.*1 -> NoDup (range_id <$> l.*1) ->
  world_ok (Coordinator.world s) -> Coordinator.prepare_loop info l early s = (s', Ok b) ->
  touched_only (range_id <$> l.*1) (Coordinator.world s) (Coordinator.world s') /\
  forall r args rm st, (r, args) ∈ l -> range_at r (Coordinator.world s) = Some rm ->
    RangeManager.state rm = RangeManager.Loaded st ->
    exists info' rm', known (tx_id info) (Coordinator.world s) = Some info' /\ prepared_by info' args rm rm' /\
      range_at r (Coordinator.world s') = Some rm'.
Proof.
  intros Hu. revert early s; induction l as [|[r args] l IH]; intros early s.
  { intros _ _ Hok [= <- _]. split; [done|]. by intros ? ? ? ? ?%elem_of_nil. }
  rewrite !fmap_cons. intros [Hr Hl]%Forall_cons [Hn Hnd]%NoDup_cons Hok.
  cbn [fst Coordinator.prepare_loop] in *. unfold m_then at 1, Coordinator.ask.
  destruct (Coordinator.rc_prepare_transaction info r args (Coordinator.world s)) as [w1 a] eqn:Ea.
  destruct (prepare_world info r args _ w1 a Hu Hr Hok Ea) as (Ht & Hkn & Hp).
  destruct a as [[p|e|]|]; [|done..|]; cycle 1.
  { unfold m_then. by destruct (Coordinator.ignore_error _ _) as [? []]. }
  unfold m_then. cbn [Coordinator.emit Coordinator.update_tx m_modify]. intros E.
  apply IH in E as [Ht' Hp']; [|done..|by destruct Ht]. cbn in Ht', Hp'.
  split; [by eapply touched_cons|].
  intros r0 args0 rm st [[= -> ->]|Hin]%elem_of_cons Hrm Hst.
  - destruct (Hp p rm st eq_refl Hrm Hst) as (info' & rm' & Hi & Hpr & Hrm'). exists info', rm'.
    split_and!; [done..|]. by rewrite (proj2 Ht').
  - rewrite <- Hkn. apply (Hp' r0 args0 rm st); [done| |done]. rewrite (proj2 Ht); [done|]. intros Heq. apply Hn.
    rewrite <- Heq. by apply list_elem_of_fmap_2, (list_elem_of_fmap_2 fst _ (r0, args0)).
Qed.

Lemma commits_world txs epoch rs (s : Coordinator.Run W) :
  Forall RangeClient.is_uuid txs -> Forall RangeClient.is_range rs -> NoDup (range_id <$> rs) ->
  world_ok (Coordinator.world s) ->
  let s' := (m_for rs (fun r => Coordinator.act (Coordinator.rc_commit_transactions txs r epoch)) s :
             _ * result Coordinator.Error unit).1 in
  touched_only (range_id <$> rs) (Coordinator.world s) (Coordinator.world s') /\
  forall r rm st, r ∈ rs -> range_at r (Coordinator.world s) = Some rm ->
    RangeManager.state rm = RangeManager.Loaded st ->
    range_at r (Coordinator.world s') = Some (RangeManager.commit txs (commit_request epoch) now rm).1.
Proof.
  intros Hu. revert s; induction rs as [|r rs IH]; intros s.
  { intros _ _ Hok. split; [done|]. by intros ? ? ? ?%elem_of_nil. }
  cbn [m_for]. rewrite fmap_cons.
  intros [Hr Hl]%Forall_cons [Hn Hnd]%NoDup_cons Hok. unfold m_then. cbn [Coordinator.act m_modify].
  destruct (commit_world txs r epoch _ Hu Hr Hok) as [Ht Hc].
  match goal with |- context [m_for rs _ ?s1] => destruct (IH s1) as [Ht' Hc'] end;
    [done|done|apply Ht|]. cbn [Coordinator.world] in Ht', Hc'.
  split; [eapply touched_cons; [exact Ht|exact Ht']|].
  intros r0 rm st [->|Hin]%elem_of_cons Hrm Hst.
  - rewrite (proj2 Ht') by done. by apply (Hc rm st).
  - apply (Hc' r0 rm st); [done| |done]. rewrite (proj2 Ht); [done|]. intros Heq. apply Hn.
    rewrite <- Heq. by apply list_elem_of_fmap_2.
Qed.

(** the part of the world that the calls of the ranges see *)
Definition same_ranges (w w' : W) : Prop :=
  servers w' = servers w /\ range_client w' = range_client w.

Lemma same_ranges_ok w w' :
  same_ranges w w' -> (world_ok w -> world_ok w') /\ forall r, range_at r w' = range_at r w.
Proof. intros [Hs Hp]. unfold world_ok, range_at. by rewrite Hs, Hp. Qed.

(** The registration of a committed transaction is a task that the resolver
    spawns: it has not run when the call returns. *)
Context (register_spawned : forall ids (w : W), same_ranges w (ResolverClient.core_spawn_register ids w)).
Context (parse_print : forall u, parse_uuid (print_uuid u) = Some u).

Lemma register_ranges ids (w : W) : same_ranges w (Coordinator.resolver_register ids w).
Proof.
  cbn. destruct mode; [apply register_spawned|].
  unfold ResolverClient.remote_register_committed_transactions, ResolverClient.rpc,
    ResolverClient.server_register_committed_transactions, m_then.
  rewrite ResolverClient.parse_ids_print by done. apply register_spawned.
Qed.

(** the ranges that are told of the commit *)
Definition written_ranges (s : Coordinator.Run W) : list FullRangeId :=
  hash_iter (HashOrder := join)
    (dom (filter (fun rp => Coordinator.writeset rp.2 <> ∅) (Coordinator.participant_ranges (Coordinator.tx s)))).

(** what the second phase does to the ranges *)
Definition second_phase (s1 s' : Coordinator.Run W) : Prop :=
  exists s2, same_ranges (Coordinator.world s1) (Coordinator.world s2) /\
    let commits : M (Coordinator.Run W) Coordinator.Error unit :=
      m_for (written_ranges s1) (fun r => Coordinator.act (Coordinator.rc_commit_transactions
        [tx_id (Coordinator.transaction_info (Coordinator.tx s1))] r 0)) in
    same_ranges (Coordinator.world (commits s2).1) (Coordinator.world s').

Lemma on_store_ranges {A} (f : DB -> DB * A) (w : W) : same_ranges w (on_store f w).1.
Proof. unfold on_store. by destruct (f _). Qed.

(** the participants are told once the decision is stored *)
Lemma notify_phase (s1 : Coordinator.Run W) w log t s' r :
  same_ranges (Coordinator.world s1) w ->
  Coordinator.participant_ranges t = Coordinator.participant_ranges (Coordinator.tx s1) ->
  Coordinator.transaction_info t = Coordinator.transaction_info (Coordinator.tx s1) ->
  Coordinator.notify_participants join 0 (Coordinator.mkRun t w log) = (s', r) -> second_phase s1 s'.
Proof.
  intros Hw Hp Hi. unfold Coordinator.notify_participants, m_then, Coordinator.emit, m_modify.
  cbn [m_get Coordinator.tx Coordinator.world Coordinator.log]. rewrite Hp, Hi. intros E.
  eexists. split; [|unfold written_ranges; by rewrite E]. done.
Qed.

Lemma traditional_phase (s1 s' : Coordinator.Run W) :
  Coordinator.commit_traditional join s1 = (s', Ok tt) -> second_phase s1 s'.
Proof.
  unfold Coordinator.commit_traditional, m_then, Coordinator.ask, Coordinator.emit, m_modify.
  cbn [m_get Coordinator.tx Coordinator.world Coordinator.log].
  pose proof (on_store_ranges (TxStateStore.try_commit_transaction
    (Coordinator.id (Coordinator.tx s1)) 0) (Coordinator.world s1)) as Hw.
  cbn [Coordinator.ts_try_commit services System.services] in *.
  destruct (on_store _ _) as [w [[|e]|e|]]; [done| |done..].
  cbn [Coordinator.unwrap_result m_ret]. unfold m_assert. destruct (e =? 0)%Z; [|done].
  by apply notify_phase.
Qed.

Lemma resolved_phase early (s1 s' : Coordinator.Run W) :
  Coordinator.commit_resolved join early s1 = (s', Ok tt) ->
  Coordinator.state (Coordinator.tx s1) <> Coordinator.Committed ->
  Coordinator.state (Coordinator.tx s') = Coordinator.Committed -> second_phase s1 s'.
Proof.
  unfold Coordinator.commit_resolved, m_then, Coordinator.ask, Coordinator.emit, m_modify.
  cbn [m_get]. case_decide; cbn [Coordinator.tx Coordinator.world Coordinator.log].
  { destruct (Coordinator.resolver_commit _ _ _ _) as [w [[]|e|]]; by intros [= <-]. }
  pose proof (on_store_ranges (TxStateStore.try_commit_transaction
    (Coordinator.id (Coordinator.tx s1)) 0) (Coordinator.world s1)) as Hw.
  cbn [Coordinator.ts_try_commit services System.services] in *.
  destruct (on_store _ _) as [w [r|e|]]; [|done..].
  cbn [Coordinator.unwrap_result m_ret Coordinator.update_tx m_modify].
  destruct (Coordinator.notify_participants _ _ _) as [s2 [[]|e|]] eqn:En; [|done..].
  apply (notify_phase s1) in En; [|done..]. destruct early; intros [= <-] _ _; [|done].
  destruct En as (s3 & Hw3 & Hc). exists s3. split; [done|]. cbn in Hc |- *.
  destruct Hc as [Hc1 Hc2], (register_ranges [Coordinator.id (Coordinator.tx s1)] (Coordinator.world s2)) as [Hr1 Hr2].
  split; [by rewrite <- Hc1, <- Hr1|by rewrite <- Hc2, <- Hr2].
Qed.

(** a commit that commits, in its two phases *)
Lemma committed_phases load n (s s' : Coordinator.Run W) :
  Coordinator.state (Coordinator.tx s) = Coordinator.Running ->
  Coordinator.commit join load n s = (s', Ok tt) ->
  Coordinator.state (Coordinator.tx s') = Coordinator.Committed ->
  exists s0 s1 b, Coordinator.world s0 = Coordinator.world s /\
    Coordinator.prepare_loop (Coordinator.transaction_info (Coordinator.tx s))
      (hash_iter_map (H := join)
         (Coordinator.prepare_args load n <$> Coordinator.participant_ranges (Coordinator.tx s)))
      false s0 = (s1, Ok b) /\
    Coordinator.participant_ranges (Coordinator.tx s1) = Coordinator.participant_ranges (Coordinator.tx s) /\
    Coordinator.transaction_info (Coordinator.tx s1) = Coordinator.transaction_info (Coordinator.tx s) /\
    second_phase s1 s'.
Proof.
  intros Hst. unfold Coordinator.commit, Coordinator.check_still_running, m_then.
  cbn [m_get]. rewrite Hst. cbn [m_ret Coordinator.update_tx m_modify Coordinator.emit m_get].
  cbn [Coordinator.tx Coordinator.world Coordinator.log Coordinator.set_tx].
  match goal with |- context [Coordinator.prepare_loop ?i ?l ?b ?st] =>
    pose proof (Coordinator.prepare_loop_spec i l b st) as Hp; unfold wp in Hp;
    destruct (Coordinator.prepare_loop i l b st) as [s1 [early|e|]] eqn:E end; [|done..].
  cbn in Hp. destruct Hp as (evs & Hc & _ & Hs & _). intros E2 Hcom.
  eexists _, s1, early. split; [|split; [exact E|]]; [done|].
  split_and!; [apply (Coordinator.cont_ranges _ _ _ Hc)|apply (Coordinator.cont_info _ _ _ Hc)|].
  cbn [Coordinator.commit_strategy Coordinator.set_state] in E2.
  destruct (Coordinator.commit_strategy _); [by apply traditional_phase|..];
    (eapply resolved_phase; [exact E2|by rewrite Hs|done]).
Qed.

(** ** What a range does in a transaction *)

(** the writes of a participant over what the range has shown *)
Definition overlay (p : Coordinator.ParticipantRange) (rm : Manager) (k : Bytes) : option Bytes :=
  match Coordinator.writeset p !! k with Some v => Some v | None => RangeManager.view rm k end.

Definition shows (rm : Manager) (f : Bytes -> option Bytes) : Prop :=
  RangeManager.wf rm /\ (exists st, RangeManager.state rm = RangeManager.Loaded st) /\
  forall k, RangeManager.view rm k = f k.

Lemma args_writes load n p :
  Coordinator.deleteset p = ∅ ->
  let req := prepare_request (Coordinator.prepare_args load n p) in
  RangeManager.has_writes req = bool_decide (Coordinator.writeset p <> ∅) /\
  forall range changes, RangeManager.prepare_record range req = Ok changes ->
    changes = Some <$> Coordinator.writeset p.
Proof.
  intros Hd. unfold prepare_request, RangeClient.prepare_body, Coordinator.prepare_args,
    RangeManager.has_writes, RangeManager.prepare_record. cbn -[hash_iter_map hash_iter].
  rewrite <- list_fmap_compose. cbn -[hash_iter_map hash_iter].
  assert (hash_iter (Coordinator.deleteset p) = []) as ->.
  { rewrite Hd. apply Permutation_nil_r. by rewrite hash_iter_perm, elements_empty. }
  assert ((fun kv : Bytes * Bytes => (kv.1, kv.2)) <$> hash_iter_map (Coordinator.writeset p) =
    hash_iter_map (Coordinator.writeset p)) as Hid.
  { rewrite <- (list_fmap_id (hash_iter_map _)) at 2. apply list_fmap_ext. by intros _ [k v] _. }
  unfold compose. cbn -[hash_iter_map]. rewrite Hid. split.
  - destruct (hash_iter_map (Coordinator.writeset p)) as [|kv l] eqn:E.
    + symmetry. apply bool_decide_eq_false. intros Hne. apply Hne, map_empty. intros k.
      apply eq_None_not_Some. intros [v Hv%hash_iter_map_elem_of]. rewrite E in Hv. by apply elem_of_nil in Hv.
    + symmetry. apply bool_decide_eq_true. intros He. destruct kv as [k v].
      assert (Hin : (k, v) ∈ hash_iter_map (Coordinator.writeset p)) by (rewrite E; by left).
      apply hash_iter_map_elem_of in Hin. by rewrite He in Hin.
  - intros range changes. destruct (RangeManager.record_puts _ _ _) as [ch|e|] eqn:Er; [|done..].
    cbn. intros [= <-]. apply map_eq. intros k.
    rewrite (RangeManager.record_puts_lookup _ _ _ _ k (hash_iter_map_NoDup _) Er), lookup_fmap,
      hash_iter_to_map, lookup_empty. by destruct (Coordinator.writeset p !! k).
Qed.

(** a range that prepares and is told of the commit *)
Lemma range_commits load n p info rm st rm1 rm2 a :
  RangeManager.state rm = RangeManager.Loaded st -> RangeManager.wf rm ->
  RangeManager.record_of rm (tx_id info) = None -> RangeManager.newest_before rm 0 ->
  Coordinator.deleteset p = ∅ -> Coordinator.writeset p <> ∅ ->
  prepared_by info (Coordinator.prepare_args load n p) rm rm1 ->
  RangeManager.commit [tx_id info] (commit_request 0) now rm1 = (rm2, a) ->
  RangeManager.record_of rm1 (tx_id info) = Some (Some <$> Coordinator.writeset p) /\
  (a = Some (Ok tt) -> shows rm2 (overlay p rm)).
Proof.
  intros Hst Hwf Hnew Hn Hd Hne [q Hp] Hc.
  destruct (args_writes load n p Hd) as [Hw Hch]. rewrite bool_decide_true in Hw by done.
  set (req := prepare_request _) in *.
  destruct (RangeManager.prepare_record (Storage.key_range (RangeManager.range_info st)) req)
    as [changes|e|] eqn:Er.
  2, 3: unfold RangeManager.prepare, RangeManager.prepare_begin in Hp; by rewrite Hst, Hw, Er in Hp.
  pose proof (Hch _ _ Er) as ->.
  destruct (RangeManager.prepare_leaves _ _ _ _ _ _ _ _ _ _ Hst Hwf Hnew Hw Er Hp) as (_ & Hrec & _).
  split; [done|]. intros ->.
  edestruct (RangeManager.prepare_then_commit info now now now req (commit_request 0)) as (Hwf2 & _ & Hst2 & Hv);
    [exact Hst|exact Hwf|exact Hnew|exact Hw|exact Er| |exact Hn|exact Hp|exact Hc|].
  { intros k. rewrite lookup_fmap. by destruct (Coordinator.writeset p !! k). }
  split; [done|split; [done|]]. intros k. rewrite Hv, lookup_fmap. unfold overlay.
  by destruct (Coordinator.writeset p !! k).
Qed.

(** a range that has only been read *)
Lemma range_reads load n p info rm st rm1 :
  RangeManager.state rm = RangeManager.Loaded st -> RangeManager.wf rm ->
  Coordinator.deleteset p = ∅ -> Coordinator.writeset p = ∅ ->
  prepared_by info (Coordinator.prepare_args load n p) rm rm1 -> shows rm1 (overlay p rm).
Proof.
  intros Hst Hwf Hd He [q Hp]. destruct (args_writes load n p Hd) as [Hw _].
  rewrite bool_decide_false in Hw by tauto.
  pose proof (RangeManager.prepare_read_only _ _ _ _ _ _ _ _ Hp Hw) as Hv.
  destruct (RangeManager.same_view_reads _ _ Hv) as (Hview & _). destruct Hv as [Hpend _].
  split; [by eapply RangeManager.same_pending_wf|]. split.
  - destruct Hpend as [_ Hpend]. unfold RangeManager.pending in Hpend. rewrite Hst in Hpend.
    destruct (RangeManager.state rm1); try done. by eexists.
  - intros k. rewrite Hview. unfold overlay. by rewrite He.
Qed.

(** ** Property *)

(** the participants are ranges, each with an id of its own *)
Definition participants_ok (ps : gmap FullRangeId Coordinator.ParticipantRange) : Prop :=
  (forall r, r ∈ dom ps -> RangeClient.is_range r) /\
  (forall r r', r ∈ dom ps -> r' ∈ dom ps -> range_id r = range_id r' -> r = r').

Lemma participants_list ps l :
  participants_ok ps -> NoDup l -> (forall r, r ∈ l -> r ∈ dom ps) ->
  Forall RangeClient.is_range l /\ NoDup (range_id <$> l).
Proof.
  intros [Hr Hd] Hnd Hl. split; [apply Forall_forall; auto|]. apply NoDup_fmap_2_strong; [|done]. auto.
Qed.

(** what the manager of a range that is written does in the transaction: it
    prepares, and commits what it has prepared *)
Definition range_run (load : spec_float) (n : Z) (p : Coordinator.ParticipantRange) (info : TransactionInfo)
    (rm : Manager) : Manager * option (result RsError.Error unit) :=
  RangeManager.commit [tx_id info] (commit_request 0) now
    (RangeManager.prepare info now now (prepare_request (Coordinator.prepare_args load n p)) contention rm).1.

Lemma known_id id (w : W) info : world_ok w -> known id w = Some info -> tx_id info = id.
Proof.
  intros [_ (sv & Hsv & Hok)]. unfold known. rewrite Hsv. cbn. apply (RangeService.ok_transactions _ Hok).
Qed.

Lemma written_elem_of (s : Coordinator.Run W) r :
  r ∈ written_ranges s <->
  exists p, Coordinator.participant_ranges (Coordinator.tx s) !! r = Some p /\ Coordinator.writeset p <> ∅.
Proof.
  unfold written_ranges. rewrite hash_iter_elem_of, elem_of_dom. unfold is_Some.
  by setoid_rewrite map_lookup_filter_Some.
Qed.

(** the managers after both phases *)
Lemma commit_world_phases load n (s s' : Coordinator.Run W) :
  let ps := Coordinator.participant_ranges (Coordinator.tx s) in
  let id := tx_id (Coordinator.transaction_info (Coordinator.tx s)) in
  Coordinator.state (Coordinator.tx s) = Coordinator.Running ->
  RangeClient.is_uuid id -> world_ok (Coordinator.world s) -> participants_ok ps ->
  Coordinator.commit join load n s = (s', Ok tt) ->
  Coordinator.state (Coordinator.tx s') = Coordinator.Committed ->
  exists w1,
    touched_only (range_id <$> elements (dom ps)) (Coordinator.world s) w1 /\
    touched_only (range_id <$> written_ranges s) w1 (Coordinator.world s') /\
    forall r p, ps !! r = Some p ->
      (forall rm st, range_at r (Coordinator.world s) = Some rm -> RangeManager.state rm = RangeManager.Loaded st ->
         exists info rm1, known id (Coordinator.world s) = Some info /\
           prepared_by info (Coordinator.prepare_args load n p) rm rm1 /\ range_at r w1 = Some rm1) /\
      (forall rm1 st1, Coordinator.writeset p <> ∅ -> range_at r w1 = Some rm1 ->
         RangeManager.state rm1 = RangeManager.Loaded st1 ->
         range_at r (Coordinator.world s') = Some (RangeManager.commit [id] (commit_request 0) now rm1).1).
Proof.
  intros ps id Hrun Hu Hok Hps Hc Hcom.
  destruct (committed_phases load n s s' Hrun Hc Hcom) as (s0 & s1 & b & Hw0 & Hl & Hp1 & Hi1 & s2 & H12 & Hcs).
  rewrite <- Hw0 in *. assert (written_ranges s1 = written_ranges s) as Hws by (unfold written_ranges; by rewrite Hp1).
  cbv zeta in Hcs. rewrite Hi1, Hws in Hcs. fold id in Hcs. fold ps in Hl.
  set (l := hash_iter_map _) in Hl.
  assert (Hlin : forall r a, (r, a) ∈ l <-> exists p, ps !! r = Some p /\ a = Coordinator.prepare_args load n p).
  { intros r a. unfold l. rewrite hash_iter_map_elem_of, lookup_fmap_Some. naive_solver. }
  assert (Hldom : forall r, r ∈ l.*1 -> r ∈ dom ps).
  { intros r ([r' a] & -> & (p & Hp & _)%Hlin)%list_elem_of_fmap. by apply elem_of_dom_2 in Hp. }
  destruct (participants_list ps l.*1 Hps (hash_iter_map_NoDup _) Hldom) as [Hlr Hlnd].
  destruct (prepare_loop_world _ _ _ _ _ _ Hu Hlr Hlnd Hok Hl) as [[Hok1 Ht1] Hprep].
  destruct (same_ranges_ok _ _ H12) as [Hok2 Hat2].
  destruct (participants_list ps (written_ranges s) Hps) as [Hwr Hwnd]; [apply hash_iter_NoDup|..].
  { intros r (p & Hp & _)%written_elem_of. by apply elem_of_dom_2 in Hp. }
  destruct (commits_world [id] 0 (written_ranges s) s2) as [[Hok3 Ht3] Hcommit];
    [by repeat constructor|done|done|by apply Hok2|].
  destruct (same_ranges_ok _ _ Hcs) as [Hok4 Hat4]. exists (Coordinator.world s2). split_and!.
  - split; [by apply Hok2|]. intros r Hr. rewrite Hat2, Ht1; [done|]. intros Hin. apply Hr.
    apply list_elem_of_fmap in Hin as (r' & -> & Hin). apply list_elem_of_fmap_2, elem_of_elements. auto.
  - split; [by apply Hok4|]. intros r Hr. by rewrite Hat4, Ht3.
  - intros r p Hp. split.
    + intros rm st Hrm Hst. rewrite Hat2. apply (Hprep r _ rm st); [|done..]. apply Hlin. by exists p.
    + intros rm1 st1 Hne Hrm1 Hst1. rewrite Hat4.
      apply (Hcommit r rm1 st1); [|done..]. apply written_elem_of. by exists p.
Qed.

Lemma commit_outcome load n (s s' : Coordinator.Run W) :
  let ps := Coordinator.participant_ranges (Coordinator.tx s) in
  let id := tx_id (Coordinator.transaction_info (Coordinator.tx s)) in
  Coordinator.state (Coordinator.tx s) = Coordinator.Running ->
  RangeClient.is_uuid id -> world_ok (Coordinator.world s) -> participants_ok ps ->
  Coordinator.commit join load n s = (s', Ok tt) ->
  Coordinator.state (Coordinator.tx s') = Coordinator.Committed ->
  world_ok (Coordinator.world s') /\
  (forall r, (forall r', r' ∈ dom ps -> range_id r' <> range_id r) ->
     range_at r (Coordinator.world s') = range_at r (Coordinator.world s)) /\
  (forall r p rm st, ps !! r = Some p -> Coordinator.deleteset p = ∅ ->
     range_at r (Coordinator.world s) = Some rm -> RangeManager.state rm = RangeManager.Loaded st ->
     RangeManager.wf rm -> RangeManager.record_of rm id = None -> RangeManager.newest_before rm 0 ->
     exists info rm', known id (Coordinator.world s) = Some info /\
       range_at r (Coordinator.world s') = Some rm' /\
       (Coordinator.writeset p <> ∅ -> rm' = (range_run load n p info rm).1) /\
       (Coordinator.writeset p = ∅ \/ (range_run load n p info rm).2 = Some (Ok tt) ->
        shows rm' (overlay p rm))).
Proof.
  intros ps id Hrun Hu Hok Hps Hc Hcom.
  destruct (commit_world_phases load n s s' Hrun Hu Hok Hps Hc Hcom) as (w1 & [_ Ht1] & [Hok' Ht2] & Hr).
  split_and!; [done|..].
  - intros r Hne. rewrite Ht2, Ht1; [done|..].
    + intros (r' & Heq & Hin%elem_of_elements)%list_elem_of_fmap. by apply (Hne r').
    + intros (r' & Heq & (p & Hp & _)%written_elem_of)%list_elem_of_fmap. by apply elem_of_dom_2, Hne in Hp.
  - intros r p rm st Hp Hd Hrm Hst Hwf Hrec Hn. destruct (Hr r p Hp) as [Hprep Hcommit].
    destruct (Hprep rm st Hrm Hst) as (info & rm1 & Hkn & Hpr & Hrm1).
    assert (Hid : tx_id info = id) by exact (known_id _ _ _ Hok Hkn).
    destruct (decide (Coordinator.writeset p = ∅)) as [He|Hne].
    + exists info, rm1. split_and!; [done| |done|intros _; by eapply range_reads]. rewrite Ht2; [done|].
      intros (r' & Heq & (p' & Hp' & Hne)%written_elem_of)%list_elem_of_fmap.
      assert (r = r') as <- by (apply Hps; [by apply elem_of_dom_2 in Hp|by apply elem_of_dom_2 in Hp'|done]).
      unfold ps in Hp. congruence.
    + pose proof Hpr as [q Eq]. assert (Hrun' : range_run load n p info rm =
        RangeManager.commit [id] (commit_request 0) now rm1) by (unfold range_run; by rewrite Eq, Hid).
      destruct (RangeManager.commit [id] (commit_request 0) now rm1) as [rm2 a] eqn:Ec.
      rewrite <- Hid in Hrec, Ec.
      destruct (range_commits _ _ _ _ _ _ _ _ _ Hst Hwf Hrec Hn Hd Hne Hpr Ec) as [Hrec1 Hsh].
      assert (exists st1, RangeManager.state rm1 = RangeManager.Loaded st1) as [st1 Hst1].
      { unfold RangeManager.record_of in Hrec1. destruct (RangeManager.state rm1); try done. by eexists. }
      rewrite Hid in Ec.
      exists info, rm2. rewrite Hrun'. split_and!; [done|exact (eq_trans (Hcommit rm1 st1 Hne Hrm1 Hst1) (f_equal (fun x => Some x.1) Ec))|done|].
      cbn. intros [?|?]; [done|auto].
Qed.

(** C2: A committed transaction is visible at all its ranges. When the coordinator
    commits a transaction itself, which it does under the traditional strategy and
    under the others when the transaction has no dependencies, and the commit
    succeeds, then, in whatever order the tasks complete, the ranges that do not
    take part are as they were. (The participants have ids of their own, and the
    registration with the resolver is a task that has not run yet.) For every range
    that takes part, if it was loaded, its pending writes have their prepare
    records, it had not prepared the transaction before,
    stores no version that is newer than the epoch 0 of the commit, and the
    transaction deletes nothing there: the server has known the transaction, and the manager of a range that was written is what its own
    prepare and its own commit have made of it. If this commit has succeeded
    there, or the range was only read, every get of any transaction that succeeds
    right after the commit reads the values that the transaction has put and, at
    all other keys, what the range showed before. The coordinator does not look at
    the answer of the range. *)
Theorem committed_transaction_is_visible load n (s s' : Coordinator.Run W) :
  let ps := Coordinator.participant_ranges (Coordinator.tx s) in
  let id := tx_id (Coordinator.transaction_info (Coordinator.tx s)) in
  Coordinator.state (Coordinator.tx s) = Coordinator.Running ->
  RangeClient.is_uuid id -> world_ok (Coordinator.world s) -> participants_ok ps ->
  Coordinator.commit join load n s = (s', Ok tt) ->
  Coordinator.state (Coordinator.tx s') = Coordinator.Committed ->
  (forall r, (forall r', r' ∈ dom ps -> range_id r' <> range_id r) ->
     range_at r (Coordinator.world s') = range_at r (Coordinator.world s)) /\
  (forall r p rm st, ps !! r = Some p -> Coordinator.deleteset p = ∅ ->
     range_at r (Coordinator.world s) = Some rm -> RangeManager.state rm = RangeManager.Loaded st ->
     RangeManager.wf rm -> RangeManager.record_of rm id = None -> RangeManager.newest_before rm 0 ->
     exists info, known id (Coordinator.world s) = Some info /\
       (Coordinator.writeset p <> ∅ ->
        range_at r (Coordinator.world s') = Some (range_run load n p info rm).1) /\
       (Coordinator.writeset p = ∅ \/ (range_run load n p info rm).2 = Some (Ok tt) ->
        forall reader keys w g, RangeClient.is_uuid (tx_id reader) ->
          Coordinator.rc_get reader r keys (Coordinator.world s') = (w, Ok g) ->
          Coordinator.vals g = overlay p rm <$> keys)).
Proof.
  intros ps id Hrun Hu Hok Hps Hc Hcom.
  destruct (commit_outcome load n s s' Hrun Hu Hok Hps Hc Hcom) as (Hok' & Hother & Hr).
  split; [exact Hother|]. intros r p rm st Hp Hd Hrm Hst Hwf Hrec Hn.
  destruct (Hr r p rm st Hp Hd Hrm Hst Hwf Hrec Hn) as (info & rm' & Hkn & Hrm' & Hw & Hsh).
  exists info. split_and!; [done|intros Hne; by rewrite Hrm', (Hw Hne)|].
  intros Ha reader keys w g Hi Hg. destruct (Hsh Ha) as (Hwf' & [st' Hst'] & Hv).
  rewrite (get_world reader r keys _ w g rm' st' Hi (proj1 Hps r (elem_of_dom_2 _ _ _ Hp)) Hok' Hrm' Hst' Hwf' Hg).
  by apply list_fmap_ext.
Qed.

End Atomic.

(** ** Witness: the run of [System.v] *)

#[local] Existing Instance idle_resolver.
#[local] Existing Instance TxStateStore.table_session.
#[local] Existing Instance RangeManager.sample_storage.
#[local] Existing Instance RangeManager.sample_log.
#[local] Existing Instance element_order.

Definition sample_range : FullRangeId := RangeServer.sample_range.
Definition sample_participant : Coordinator.ParticipantRange :=
  default Coordinator.empty_range
    (Coordinator.participant_ranges (Coordinator.tx sample_written) !! sample_range).
Definition sample_manager : RangeManager.Sample :=
  default (RangeManager.sample_new Traditional LockContention)
    (range_at sample_range (Coordinator.world sample_written)).

Definition sample_server : RangeServer.Server RangeManager.Sample :=
  default RangeServer.sample_server (servers (Coordinator.world sample_written) !! server_address).

(** a server with one range and one transaction *)
Lemma single_server_ok {R} (sv : RangeServer.Server R) rid h info :
  RangeServer.loaded_ranges sv = {[ rid := h ]} -> is_Some (RangeServer.managers sv !! h) ->
  RangeServer.transaction_table sv = {[ tx_id info := info ]} -> RangeService.server_ok sv.
Proof.
  intros Hl Hm Ht. constructor; rewrite ?Hl, ?Ht.
  - by intros ? ? [_ <-]%lookup_singleton_Some.
  - by intros ? ? ? [<- _]%lookup_singleton_Some [<- _]%lookup_singleton_Some.
  - by intros ? ? [<- <-]%lookup_singleton_Some.
Qed.

Lemma sample_world_ok : world_ok (Coordinator.world sample_written).
Proof.
  split.
  - assert (range_client (Coordinator.world sample_written) = ClientPool.mkRangeClient
      {[ Warden.identity ClientPool.sample_host := 1%positive ]}
      {[ 1%positive := ClientPool.mkClient ClientPool.sample_host ClientPool.Started ]}) as E
      by (vm_compute; reflexivity).
    refine (eq_ind_r ClientPool.pool_inv _ E). clear E.
    split; cbn [ClientPool.range_clients ClientPool.clients].
    + intros id c [<- <-]%lookup_singleton_Some.
      exists (ClientPool.mkClient ClientPool.sample_host ClientPool.Started).
      split; [apply lookup_singleton_eq|reflexivity].
    + intros c client [<- <-]%lookup_singleton_Some. discriminate.
  - exists sample_server. split; [vm_compute; reflexivity|].
    apply (single_server_ok _ 2 1 (mkTransactionInfo 7 0 1000000000)); [vm_compute; reflexivity| |vm_compute; reflexivity].
    by_decision.
Qed.

Lemma sample_participants :
  Coordinator.participant_ranges (Coordinator.tx sample_written) = {[ sample_range := sample_participant ]}.
Proof. vm_compute. reflexivity. Qed.

Lemma sample_participants_ok :
  participants_ok (Coordinator.participant_ranges (Coordinator.tx sample_written)).
Proof.
  rewrite sample_participants. split; [intros r|intros r r']; rewrite !dom_singleton_L, !elem_of_singleton.
  - by intros ->.
  - by intros -> ->.
Qed.

Definition sample_reader : TransactionInfo := mkTransactionInfo 8 0 1000000000.
Definition sample_read :=
  Coordinator.rc_get (Services := sample_services) sample_reader sample_range [[5%N]; [6%N]]
    (Coordinator.world sample_commit.1).

(** the transaction commits, and another one reads the value *)
Lemma committed_transaction_is_visible_witness :
  exists g, sample_read.2 = Ok g /\ Coordinator.vals g = [Some [65%N]; None].
Proof.
  assert (Hg : sample_read.2 = Ok (Coordinator.mkGetResult [Some [65%N]; None] 8 []))
    by (vm_compute; reflexivity).
  eexists. split; [exact Hg|].
  destruct (committed_transaction_is_visible (X := unit) (H := Oracle.sample_hex)
    (H0 := Oracle.sample_service) (H1 := TxStateStore.table_session) (H5 := idle_resolver) element_order (H2 := RangeManager.sample_storage) (H3 := RangeManager.sample_log) (H4 := element_order)
    Traditional LockContention Storage.sample_db (Wal.sample_wal Wal.NotSynced []) 1000000000 0 (fun _ => 0)
    Universe.unary_parse Universe.unary_print byte_swap byte_swap
    (fun u _ => byte_swap_bound u) byte_swap_inv 5 [] Config.Local (fun _ _ => conj eq_refl eq_refl)
    Universe.unary_roundtrip Float64.zero 1 sample_written sample_commit.1) as [_ Hr].
  - vm_compute; reflexivity.
  - vm_compute; reflexivity.
  - exact sample_world_ok.
  - exact sample_participants_ok.
  - vm_compute; reflexivity.
  - vm_compute; reflexivity.
  - destruct (Hr sample_range sample_participant sample_manager (RangeManager.loaded_of sample_manager))
      as (info & Hkn & _ & Hv); [vm_compute; reflexivity|vm_compute; reflexivity|vm_compute; reflexivity
      |vm_compute; reflexivity| | | |].
    + intros k t. vm_compute. discriminate.
    + vm_compute; reflexivity.
    + intros k. exact I.
    + vm_compute in Hkn. injection Hkn as <-.
      refine (eq_trans (Hv (or_intror _) sample_reader [[5%N]; [6%N]] sample_read.1
        (Coordinator.mkGetResult [Some [65%N]; None] 8 []) _ _) _); vm_compute; reflexivity.
Defined.
End AtomicCommit.
