(* ===== verification/Network.v ===== *)
(** * The network between the services:
      [src/common/src/network/for_testing/tcp_fast_network.rs], and the loop of the
      range server that takes messages from it: [src/rangeserver/src/server.rs]

    A call opens a connection, writes one message and reads until the other side
    closes. The accepting side reads once, passes what it has read to the
    listener of the peer or to the default handler, and waits for an answer,
    which it writes before it closes. It holds the lock of the table of listeners
    until then. The loop of the server spawns a task for every message, and the
    tasks interrupt each other. The steps of the connections, of the lock and of
    the tasks are a step relation on one network. *)

From stdpp Require Import base tactics list numbers option gmap sets relations strings.
From S2P Require Import Prelude Common Tasks Storage RsError Wal RangeManager RangeServer RangeTasks RangeClient.

Module Network.
Import Common.
Local Open Scope sangria_scope.

Definition SocketAddr := string.

(** the size of the buffer of a read *)
Definition BUFFER_SIZE : nat := N.to_nat 65535.
#[global] Opaque BUFFER_SIZE.

(** the task of an accepted connection *)
Inductive Task :=
| Reading
| Locking                  (** waiting for the lock of the listeners *)
| Waiting (handed : bool)  (** for the answer, with the lock; [handed] is whether the
                               sender of the answer was given away *)
| Closed (written : Bytes).

Inductive IoResult :=
| IoOk (response : Bytes)
| IoErr.

Record Connection := mkConnection {
  peer : SocketAddr;
  payload : Bytes;             (** what the client writes *)
  arrived : nat;               (** how much of it is there to be read *)
  gone : bool;                 (** the client has given up *)
  message : Bytes;             (** what the task has read *)
  task : Task;
  response : option IoResult   (** of the call of the client *)
}.

(** who waits for the lock of the listeners, in the order of arrival *)
Inductive Waiter :=
| Reader (id : positive)
| Writer (from : SocketAddr).

Record Network (S : Type) := mkNetwork {
  connections : gmap SocketAddr (list Bytes);
  default_handler : option positive;                (** its receiver *)
  open_receivers : gset positive;
  queued : list (positive * (positive * Bytes));    (** for each receiver, in order *)
  lock_queue : list Waiter;
  conns : gmap positive Connection;
  (** the messages that the loop of the server has taken, with their tasks *)
  handling : list (positive * (Bytes * Tasks.Task S (option Bytes)));
  server : S;
  (** the actions of the tasks so far: whose, and the states before and after *)
  history : list (positive * (S * S));
  handled : list (positive * Bytes * option Bytes)  (** what was handled, and the answers *)
}.
#[global] Arguments mkNetwork {_} _ _ _ _ _ _ _ _ _ _.
#[global] Arguments connections {_} _.
#[global] Arguments default_handler {_} _.
#[global] Arguments open_receivers {_} _.
#[global] Arguments queued {_} _.
#[global] Arguments lock_queue {_} _.
#[global] Arguments conns {_} _.
#[global] Arguments handling {_} _.
#[global] Arguments server {_} _.
#[global] Arguments history {_} _.
#[global] Arguments handled {_} _.

(** ** Operations *)

(** a connection that is opened by [send] *)
Definition connect (from : SocketAddr) (payload : Bytes) : Connection :=
  mkConnection from payload 0 false [] Reading None.

Definition set_arrived (k : nat) (c : Connection) : Connection :=
  mkConnection (peer c) (payload c) k (gone c) (message c) (task c) (response c).
Definition set_gone (c : Connection) : Connection :=
  mkConnection (peer c) (payload c) (arrived c) true (message c) (task c) (response c).
(** one [read] gives what has arrived, as far as the buffer goes *)
Definition read_message (c : Connection) : Connection :=
  mkConnection (peer c) (payload c) (arrived c) (gone c)
    (take (Nat.min (arrived c) BUFFER_SIZE) (payload c)) Locking (response c).
Definition set_task (t : Task) (c : Connection) : Connection :=
  mkConnection (peer c) (payload c) (arrived c) (gone c) (message c) t (response c).
Definition set_response (r : IoResult) (c : Connection) : Connection :=
  mkConnection (peer c) (payload c) (arrived c) (gone c) (message c) (task c) (Some r).

Section Network.
Context {S : Type}.
(** the task that the server spawns for a message; without an answer it drops the
    sender *)
Context (serve : Bytes -> Tasks.Task S (option Bytes)).
Implicit Types n : Network S.

(** [new] *)
Definition new (s : S) : Network S := mkNetwork ∅ None ∅ [] [] ∅ [] s [] [].

Definition set_conn (id : positive) (c : Connection) (n : Network S) : Network S :=
  mkNetwork (connections n) (default_handler n) (open_receivers n) (queued n) (lock_queue n)
    (<[id := c]> (conns n)) (handling n) (server n) (history n) (handled n).
Definition set_lock_queue (q : list Waiter) (n : Network S) : Network S :=
  mkNetwork (connections n) (default_handler n) (open_receivers n) (queued n) q
    (conns n) (handling n) (server n) (history n) (handled n).
Definition set_connections (cs : gmap SocketAddr (list Bytes)) (n : Network S) : Network S :=
  mkNetwork cs (default_handler n) (open_receivers n) (queued n) (lock_queue n)
    (conns n) (handling n) (server n) (history n) (handled n).
Definition set_queued (q : list (positive * (positive * Bytes))) (n : Network S) : Network S :=
  mkNetwork (connections n) (default_handler n) (open_receivers n) q (lock_queue n)
    (conns n) (handling n) (server n) (history n) (handled n).
Definition set_handling (l : list (positive * (Bytes * Tasks.Task S (option Bytes)))) (n : Network S) : Network S :=
  mkNetwork (connections n) (default_handler n) (open_receivers n) (queued n) (lock_queue n)
    (conns n) l (server n) (history n) (handled n).

(** the rest of [handle_connection] with the lock: the message goes to the
    listener of the peer, or else to the default handler. A sender of the answer
    that was not given away stays alive while the task waits for it; one that a
    closed receiver refuses is dropped, which ends the task. *)
Definition dispatch (id : positive) (c : Connection) (n : Network S) : Network S :=
  match connections n !! peer c with
  | Some l => set_conn id (set_task (Waiting false) c)
                (set_connections (<[peer c := l ++ [message c]]> (connections n)) n)
  | None =>
      match default_handler n with
      | Some r =>
          if decide (r ∈ open_receivers n)
          then set_conn id (set_task (Waiting true) c)
                 (set_queued (queued n ++ [(r, (id, message c))]) n)
          else set_conn id (set_task (Closed []) c) n
      | None => set_conn id (set_task (Waiting false) c) n
      end
  end.

(** [listen_default], whose receiver is [r] *)
Definition listen_default (r : positive) (n : Network S) : Network S :=
  mkNetwork (connections n) (Some r) ({[r]} ∪ open_receivers n) (queued n) (lock_queue n)
    (conns n) (handling n) (server n) (history n) (handled n).

(** the end of the task whose sender of the answer was dropped *)
Definition close_empty (c : Connection) : Connection := set_task (Closed []) c.

(** the loop of the server returns: its receiver goes, with what is queued for it *)
Definition cancel (r : positive) (n : Network S) : Network S :=
  mkNetwork (connections n) (default_handler n) (open_receivers n ∖ {[r]})
    (filter (fun e => e.1 <> r) (queued n)) (lock_queue n)
    (foldr (fun e cs => if decide (e.1 = r) then alter close_empty e.2.1 cs else cs)
       (conns n) (queued n))
    (handling n) (server n) (history n) (handled n).

(** the task of a message takes an action *)
Definition act (id : positive) (s' : S) (n : Network S) : Network S :=
  mkNetwork (connections n) (default_handler n) (open_receivers n) (queued n) (lock_queue n)
    (conns n) (handling n) s' (history n ++ [(id, (server n, s'))]) (handled n).

(** the task of a message has ended: the answer is written and the connection
    closed *)
Definition answer (id : positive) (msg : Bytes) (a : option Bytes) (n : Network S) : Network S :=
  mkNetwork (connections n) (default_handler n) (open_receivers n) (queued n) (lock_queue n)
    (alter (set_task (Closed (default [] a))) id (conns n)) (handling n) (server n) (history n)
    (handled n ++ [(id, msg, a)]).

Definition holds_lock (c : Connection) : Prop := exists b, task c = Waiting b.

(** [register] *)
Definition add_listener (from : SocketAddr) (n : Network S) : Network S :=
  set_connections (<[from := []]> (connections n)) n.

(** ** Steps *)

(** what the tasks do by themselves *)
Inductive internal : Network S -> Network S -> Prop :=
| step_arrive id c k n :
    conns n !! id = Some c -> (arrived c < k <= length (payload c))%nat ->
    internal n (set_conn id (set_arrived k c) n)
| step_read id c n :
    conns n !! id = Some c -> task c = Reading -> (0 < arrived c)%nat \/ gone c = true ->
    internal n (set_lock_queue (lock_queue n ++ [Reader id]) (set_conn id (read_message c) n))
| step_lock_reader id c q n :
    lock_queue n = Reader id :: q -> conns n !! id = Some c ->
    internal n (dispatch id c (set_lock_queue q n))
| step_lock_writer from q n :
    lock_queue n = Writer from :: q -> (forall id c, conns n !! id = Some c -> ~ holds_lock c) ->
    internal n (add_listener from (set_lock_queue q n))
| step_recv r id msg l1 l2 n :
    queued n = l1 ++ (r, (id, msg)) :: l2 -> r ∈ open_receivers n -> r ∉ l1.*1 ->
    internal n (set_handling (handling n ++ [(id, (msg, serve msg))]) (set_queued (l1 ++ l2) n))
| step_act id msg f l1 l2 s' t n :
    handling n = l1 ++ (id, (msg, Tasks.Act f)) :: l2 -> f (server n) = Some (s', t) ->
    internal n (act id s' (set_handling (l1 ++ (id, (msg, t)) :: l2) n))
| step_answer id msg a l1 l2 n :
    handling n = l1 ++ (id, (msg, Tasks.Done a)) :: l2 ->
    internal n (answer id msg a (set_handling (l1 ++ l2) n))
| step_response id c b n :
    conns n !! id = Some c -> task c = Closed b -> response c = None -> gone c = false ->
    internal n (set_conn id (set_response (IoOk b) c) n)
| step_reset id c b n :
    (* the other side closes with data that it has not read *)
    conns n !! id = Some c -> task c = Closed b -> response c = None -> gone c = false ->
    (length (message c) < length (payload c))%nat ->
    internal n (set_conn id (set_response IoErr c) n).

(** the calls of the clients *)
Inductive client : Network S -> Network S -> Prop :=
| step_send id from payload n :
    conns n !! id = None -> client n (set_conn id (connect from payload) n)
| step_gone id c n :
    conns n !! id = Some c -> response c = None -> client n (set_conn id (set_gone c) n).

(** the calls of the services that listen *)
Inductive service : Network S -> Network S -> Prop :=
| step_register from n :
    service n (set_lock_queue (lock_queue n ++ [Writer from]) n)
| step_listen r n :
    r ∉ open_receivers n -> service n (listen_default r n)
| step_cancel r n :
    r ∈ open_receivers n -> service n (cancel r n).

Definition step n n' : Prop := internal n n' \/ client n n' \/ service n n'.

(** ** The specification: the actions of the tasks one after the other *)

Inductive chain : S -> list (positive * (S * S)) -> S -> Prop :=
| chain_nil s : chain s [] s
| chain_snoc s l s1 id s2 : chain s l s1 -> chain s (l ++ [(id, (s1, s2))]) s2.

(** the actions of one task *)
Definition actions (id : positive) (l : list (positive * (S * S))) : list (S * S) :=
  (filter (fun e => e.1 = id) l).*2.

(** ** Lemmas: where the work of a connection is *)

Lemma alter_some {A} (f : A -> A) id (m : gmap positive A) x :
  m !! id = Some x -> alter f id m = <[id := f x]> m.
Proof.
  intros Hm. apply map_eq. intros i. destruct (decide (id = i)) as [<-|Hne].
  - by rewrite lookup_alter_eq, Hm, lookup_insert_eq.
  - by rewrite lookup_alter_ne, lookup_insert_ne.
Qed.

(** the messages that were given away and are not yet handled *)
Definition taken (l : list (positive * (Bytes * Tasks.Task S (option Bytes)))) : list (positive * Bytes) :=
  (fun e => (e.1, e.2.1)) <$> l.
Definition tokens n : list (positive * Bytes) := (queued n).*2 ++ taken (handling n).

Definition reader_of (w : Waiter) : option positive :=
  match w with Reader id => Some id | Writer _ => None end.

Record conn_ok (lq : list Waiter) (tok : list (positive * Bytes))
    (log : list (positive * Bytes * option Bytes)) (id : positive) (c : Connection) : Prop := {
  ok_read : message c `prefix_of` payload c /\ (length (message c) <= BUFFER_SIZE)%nat;
  ok_locking : task c = Locking <-> Reader id ∈ lq;
  ok_token msg : (id, msg) ∈ tok -> task c = Waiting true /\ message c = msg;
  ok_waiting : task c = Waiting true -> exists msg, (id, msg) ∈ tok;
  ok_handled msg a : (id, msg, a) ∈ log -> task c = Closed (default [] a) /\ message c = msg;
  ok_closed b : task c = Closed b -> b <> [] -> exists msg, (id, msg, Some b) ∈ log;
  ok_response b : response c = Some (IoOk b) -> task c = Closed b
}.

Record inv n : Prop := {
  inv_conns id c : conns n !! id = Some c -> conn_ok (lock_queue n) (tokens n) (handled n) id c;
  inv_lock id : Reader id ∈ lock_queue n -> is_Some (conns n !! id);
  inv_tokens id msg : (id, msg) ∈ tokens n -> is_Some (conns n !! id);
  inv_handled id msg a : (id, msg, a) ∈ handled n -> is_Some (conns n !! id);
  inv_nodup_lock : NoDup (omap reader_of (lock_queue n));
  inv_nodup_tokens : NoDup (tokens n).*1;
  inv_nodup_handled : NoDup (handled n).*1.*1;
  inv_open r e : (r, e) ∈ queued n -> r ∈ open_receivers n
}.

Lemma conn_ok_ext lq lq' tok tok' log log' id c :
  (Reader id ∈ lq <-> Reader id ∈ lq') ->
  (forall msg, (id, msg) ∈ tok <-> (id, msg) ∈ tok') ->
  (forall msg a, (id, msg, a) ∈ log <-> (id, msg, a) ∈ log') ->
  conn_ok lq tok log id c -> conn_ok lq' tok' log' id c.
Proof.
  intros Hl Ht Hg [H1 H2 H3 H4 H5 H6 H7]. split; [done| | | | | |done].
  - by rewrite H2.
  - intros msg. rewrite <- Ht. apply H3.
  - intros E. destruct (H4 E) as [msg Hm]. exists msg. by apply Ht.
  - intros msg a. rewrite <- Hg. apply H5.
  - intros b E Hb. destruct (H6 b E Hb) as [msg Hm]. exists msg. by apply Hg.
Qed.

(** a step that concerns one connection *)
Lemma net_one n n' id c' :
  inv n -> conns n' = <[id := c']> (conns n) ->
  conn_ok (lock_queue n') (tokens n') (handled n') id c' ->
  (forall id', id' <> id -> (Reader id' ∈ lock_queue n <-> Reader id' ∈ lock_queue n') /\
     (forall msg, (id', msg) ∈ tokens n <-> (id', msg) ∈ tokens n') /\
     (forall msg a, (id', msg, a) ∈ handled n <-> (id', msg, a) ∈ handled n')) ->
  NoDup (omap reader_of (lock_queue n')) -> NoDup (tokens n').*1 -> NoDup (handled n').*1.*1 ->
  (forall r e, (r, e) ∈ queued n' -> r ∈ open_receivers n') -> inv n'.
Proof.
  intros [Hc Hl Ht Hg _ _ _ _] Ec Hok Hext ? ? ? ?.
  assert (forall id', id' = id \/ is_Some (conns n !! id') -> is_Some (conns n' !! id')) as Hdom.
  { intros id'. rewrite Ec, lookup_insert_is_Some. destruct (decide (id = id')); naive_solver. }
  split; try done.
  - intros id' c. rewrite Ec. destruct (decide (id' = id)) as [->|Hne].
    + rewrite lookup_insert_eq. by intros [= <-].
    + rewrite lookup_insert_ne by done. intros E. destruct (Hext id' Hne) as (?&?&?).
      by eapply conn_ok_ext, Hc.
  - intros id' H'. apply Hdom. destruct (decide (id' = id)) as [|Hne]; [by left|right].
    apply Hl. by apply (Hext id' Hne).
  - intros id' msg H'. apply Hdom. destruct (decide (id' = id)) as [|Hne]; [by left|right].
    apply (Ht id' msg). by apply (Hext id' Hne).
  - intros id' msg a H'. apply Hdom. destruct (decide (id' = id)) as [|Hne]; [by left|right].
    apply (Hg id' msg a). by apply (Hext id' Hne).
Qed.

(** a step of one connection that changes neither the lock nor the messages *)
Lemma net_conn n id c c' :
  inv n -> conns n !! id = Some c ->
  (conn_ok (lock_queue n) (tokens n) (handled n) id c ->
   conn_ok (lock_queue n) (tokens n) (handled n) id c') ->
  inv (set_conn id c' n).
Proof.
  intros Hi Hc Hok. pose proof (inv_conns _ Hi id c Hc) as Hc0.
  destruct Hi; eapply (net_one n _ id c'); try done; by auto.
Qed.

Lemma net_new s : inv (new s).
Proof. split; cbn; try done; try by intros; set_solver. all: try constructor. Qed.

Lemma net_fresh n id : inv n -> conns n !! id = None ->
  Reader id ∉ lock_queue n /\ (forall msg, (id, msg) ∉ tokens n) /\
  (forall msg a, (id, msg, a) ∉ handled n).
Proof.
  intros Hi Hn. split_and!.
  - intros H. apply (inv_lock _ Hi) in H as [? ?]. congruence.
  - intros msg H. apply (inv_tokens _ Hi) in H as [? ?]. congruence.
  - intros msg a H. apply (inv_handled _ Hi) in H as [? ?]. congruence.
Qed.

(** a connection whose task is in neither of the last two states *)
Lemma ok_idle lq tok log id c :
  conn_ok lq tok log id c -> task c = Reading \/ task c = Locking \/ task c = Waiting false ->
  (forall msg, (id, msg) ∉ tok) /\ (forall msg a, (id, msg, a) ∉ log).
Proof.
  intros Hok Ht. split.
  - intros msg [E _]%(ok_token _ _ _ _ _ Hok). rewrite E in Ht. naive_solver.
  - intros msg a [E _]%(ok_handled _ _ _ _ _ Hok). rewrite E in Ht. naive_solver.
Qed.

Lemma net_read id c n :
  inv n -> conns n !! id = Some c -> task c = Reading ->
  inv (set_lock_queue (lock_queue n ++ [Reader id]) (set_conn id (read_message c) n)).
Proof.
  intros Hi Hc Ht. pose proof (inv_conns _ Hi id c Hc) as Hok.
  destruct (ok_idle _ _ _ _ _ Hok (or_introl Ht)) as [Hnt Hnl].
  assert (Hq : Reader id ∉ lock_queue n) by (rewrite <- (ok_locking _ _ _ _ _ Hok), Ht; done).
  eapply (net_one n _ id (read_message c) Hi); cbn; try done; try apply Hi.
  - split; cbn; try done.
    + split; [apply prefix_take|]. rewrite length_take. lia.
    + split; [|done]. intros _. apply elem_of_app. right. by apply list_elem_of_singleton.
    + by intros msg ?%Hnt.
    + by intros msg a ?%Hnl.
    + intros b E. apply (ok_response _ _ _ _ _ Hok) in E. congruence.
  - intros id' Hne. split_and!; [|done..]. rewrite elem_of_app, list_elem_of_singleton. naive_solver.
  - rewrite omap_app. apply NoDup_app. split_and!; [apply Hi| |apply NoDup_singleton].
    intros id' (w & Hw & E)%list_elem_of_omap ->%list_elem_of_singleton. destruct w; [|done].
    injection E as ->. by apply Hq.
Qed.

(** the connection that is first to get the lock leaves the queue *)
Lemma net_dispatch id c q n :
  inv n -> lock_queue n = Reader id :: q -> conns n !! id = Some c ->
  inv (dispatch id c (set_lock_queue q n)).
Proof.
  intros Hi Eq Hc. pose proof (inv_conns _ Hi id c Hc) as Hok.
  assert (Ht : task c = Locking) by (apply Hok; rewrite Eq; apply list_elem_of_here).
  destruct (ok_idle _ _ _ _ _ Hok (or_intror (or_introl Ht))) as [Hnt Hnl].
  pose proof (inv_nodup_lock _ Hi) as Hnd. rewrite Eq in Hnd. cbn in Hnd.
  apply NoDup_cons in Hnd as [Hnq Hnd].
  assert (Hq : Reader id ∉ q) by (intros H; apply Hnq; apply list_elem_of_omap; by exists (Reader id)).
  assert (forall id', id' <> id -> Reader id' ∈ lock_queue n <-> Reader id' ∈ q) as Hext.
  { intros id' Hne. rewrite Eq, elem_of_cons. naive_solver. }
  assert (response c = Some IoErr \/ response c = None) as Hr.
  { destruct (response c) as [[b|]|] eqn:Er; [|by left|by right].
    apply (ok_response _ _ _ _ _ Hok) in Er. congruence. }
  assert (Hwait : forall t cs, t = Waiting false \/ t = Closed [] ->
    inv (set_conn id (set_task t c) (set_connections cs (set_lock_queue q n)))).
  { intros t cs Htt. eapply (net_one n _ id (set_task t c) Hi); cbn; try done; try apply Hi.
    - split; cbn; try apply Hok; try (intros; subst; naive_solver).
    - intros id' Hne. split_and!; [by apply Hext|done..]. }
  unfold dispatch. cbn. destruct (connections n !! peer c) as [l|]; [by apply Hwait; left|].
  destruct (default_handler n) as [r|]; [|by apply (Hwait _ (connections n)); left].
  case_decide as Hr'; [|by apply (Hwait _ (connections n)); right].
  assert (Hperm : (queued n ++ [(r, (id, message c))]).*2 ++ taken (handling n) ≡ₚ (id, message c) :: tokens n).
  { unfold tokens. rewrite fmap_app, <- app_assoc. symmetry. apply Permutation_middle. }
  assert (Hp : forall id' msg, (id', msg) ∈ (queued n ++ [(r, (id, message c))]).*2 ++ taken (handling n) <->
                (id', msg) = (id, message c) \/ (id', msg) ∈ tokens n).
  { intros id' msg. by rewrite Hperm, elem_of_cons. }
  eapply (net_one n _ id (set_task (Waiting true) c) Hi); cbn; try done; try apply Hi.
  - split; cbn; try apply Hok; try (intros; subst; naive_solver).
  - intros id' Hne. split_and!; [by apply Hext| |done]. intros msg. cbn. rewrite Hp. naive_solver.
  - rewrite Hperm. cbn. apply NoDup_cons. split; [|apply Hi].
    intros ([id2 msg] & -> & Hm)%list_elem_of_fmap. by apply (Hnt msg).
  - intros r' e. rewrite elem_of_app, list_elem_of_singleton. intros [H|[= -> _]]; [|done].
    by eapply inv_open.
Qed.

(** a step that moves messages or writers, but no connection *)
Lemma net_same n n' :
  inv n -> conns n' = conns n -> omap reader_of (lock_queue n') = omap reader_of (lock_queue n) ->
  tokens n' ≡ₚ tokens n -> handled n' = handled n ->
  (forall r e, (r, e) ∈ queued n' -> r ∈ open_receivers n') -> inv n'.
Proof.
  intros [Hc Hl Ht Hg ? ? ? ?] Ec El Et Eh Ho.
  assert (forall (q : list Waiter) id, Reader id ∈ q <-> id ∈ omap reader_of q) as Hq.
  { intros q id. rewrite list_elem_of_omap. split; [intros; by exists (Reader id)|].
    intros ([id2|] & Hw & E); [|done]. by injection E as ->. }
  split; try done; rewrite ?Ec, ?El, ?Eh; try done.
  - intros id c E. eapply conn_ok_ext, Hc; [|..|done].
    + by rewrite !Hq, El.
    + intros msg. by rewrite Et.
    + done.
  - intros id. rewrite Hq, El, <- Hq. apply Hl.
  - intros id msg. rewrite Et. apply Ht.
  - by rewrite Et.
Qed.

Lemma net_recv r id msg l1 l2 n :
  inv n -> queued n = l1 ++ (r, (id, msg)) :: l2 ->
  inv (set_handling (handling n ++ [(id, (msg, serve msg))]) (set_queued (l1 ++ l2) n)).
Proof.
  intros Hi Eq. eapply (net_same n); try done.
  - unfold tokens, taken. cbn. rewrite Eq, !fmap_app. cbn.
    rewrite <- !app_assoc. apply Permutation_app_head.
    rewrite (Permutation_app_comm (_ <$> handling n)). cbn. by rewrite Permutation_middle.
  - cbn. intros r' e H. apply (inv_open _ Hi r' e). rewrite Eq. set_solver.
Qed.

Lemma net_act id msg t s' t' l1 l2 n :
  inv n -> handling n = l1 ++ (id, (msg, t)) :: l2 ->
  inv (act id s' (set_handling (l1 ++ (id, (msg, t')) :: l2) n)).
Proof.
  intros Hi Eh. eapply (net_same n); try done; [|apply Hi].
  unfold tokens, taken. cbn. by rewrite Eh, !fmap_app.
Qed.

(** the connection of a message that is handled waits for its answer *)
Lemma token_waits id msg t n :
  inv n -> (id, (msg, t)) ∈ handling n ->
  (id, msg) ∈ tokens n /\ exists c, conns n !! id = Some c /\ task c = Waiting true /\ message c = msg.
Proof.
  intros Hi Hin. assert (Ht : (id, msg) ∈ tokens n).
  { unfold tokens, taken. rewrite elem_of_app, !list_elem_of_fmap. right. by exists (id, (msg, t)). }
  split; [done|]. destruct (inv_tokens _ Hi _ _ Ht) as [c Hc]. exists c. split; [done|].
  by apply (ok_token _ _ _ _ _ (inv_conns _ Hi id c Hc)).
Qed.

Lemma net_answer id msg a l1 l2 n :
  inv n -> handling n = l1 ++ (id, (msg, Tasks.Done a)) :: l2 ->
  inv (answer id msg a (set_handling (l1 ++ l2) n)).
Proof.
  intros Hi Eh.
  assert (Hperm : tokens n ≡ₚ (id, msg) :: ((queued n).*2 ++ taken (l1 ++ l2))).
  { unfold tokens, taken. rewrite Eh, !fmap_app, !app_assoc. cbn. symmetry. apply Permutation_middle. }
  destruct (token_waits id msg (Tasks.Done a) n Hi) as (Hin & c & Hc & Ht & Hm); [rewrite Eh; apply elem_of_middle_eq|].
  pose proof (inv_conns _ Hi id c Hc) as Hok.
  assert (Hnl : forall msg a, (id, msg, a) ∉ handled n).
  { intros m a' [E _]%(ok_handled _ _ _ _ _ Hok). congruence. }
  assert (Hnq : Reader id ∉ lock_queue n) by (rewrite <- (ok_locking _ _ _ _ _ Hok), Ht; done).
  pose proof (inv_nodup_tokens _ Hi) as Hnd. rewrite Hperm in Hnd. cbn in Hnd.
  apply NoDup_cons in Hnd as [Hni Hnd].
  assert (Hnt : forall m, (id, m) ∉ (queued n).*2 ++ taken (l1 ++ l2)).
  { intros m H. apply Hni. apply list_elem_of_fmap. by exists (id, m). }
  eapply (net_one n _ id (set_task (Closed (default [] a)) c) Hi); cbn; try done; try apply Hi.
  - by apply alter_some.
  - split; cbn; try done; try apply Hok.
    + by intros m ?%Hnt.
    + intros m a'. rewrite elem_of_app, list_elem_of_singleton. intros [H|[= -> ->]]; [|done].
      by apply Hnl in H.
    + intros b [= <-] Hb. exists msg. apply elem_of_app. right. apply list_elem_of_singleton.
      by destruct a.
    + intros b Hb. apply (ok_response _ _ _ _ _ Hok) in Hb. congruence.
  - intros id' Hne. split_and!; [done| |].
    + intros m. rewrite Hperm, elem_of_cons. unfold tokens. cbn. naive_solver.
    + intros m a'. rewrite elem_of_app, list_elem_of_singleton. naive_solver.
  - rewrite !fmap_app. apply NoDup_app. split_and!; [apply Hi| |apply NoDup_singleton].
    intros i Hin' Hi'. apply list_elem_of_singleton in Hi'. subst i.
    apply list_elem_of_fmap in Hin' as ([i m] & Ei & Hin'). cbn in Ei. subst i.
    apply list_elem_of_fmap in Hin' as ([[i' m'] a'] & Ei & Hin'). injection Ei as <- <-.
    by apply (Hnl m a').
Qed.

#[local] Opaque taken.

(** whether a receiver has a message of a connection *)
Definition queued_for (r id : positive) (l : list (positive * (positive * Bytes))) : Prop :=
  exists msg, (r, (id, msg)) ∈ l.

Lemma cancel_lookup r id (cs : gmap positive Connection) (l : list (positive * (positive * Bytes))) :
  let cs' := foldr (fun e cs => if decide (e.1 = r) then alter close_empty e.2.1 cs else cs) cs l in
  (queued_for r id l -> cs' !! id = close_empty <$> cs !! id) /\
  (~ queued_for r id l -> cs' !! id = cs !! id).
Proof.
  induction l as [|[r' [id' m]] l [IH1 IH2]]; cbn; [split; [by intros [? ?%elem_of_nil]|done]|].
  assert (forall P : Prop, (queued_for r id l -> P) -> (~ queued_for r id l -> P) -> P) as Hcase.
  { intros P H1 H2. destruct (decide (Exists (fun e => e.1 = r /\ e.2.1 = id) l)) as [He|He].
    - apply H1. apply Exists_exists in He as ([? [? msg]] & ? & ? & ?). simplify_eq/=. by exists msg.
    - apply H2. intros [msg Hm]. apply He, Exists_exists. by exists (r, (id, msg)). }
  assert (queued_for r id ((r', (id', m)) :: l) <-> (r' = r /\ id' = id) \/ queued_for r id l) as Hcons.
  { unfold queued_for. setoid_rewrite elem_of_cons. naive_solver. }
  rewrite Hcons. case_decide as Hr.
  - destruct (decide (id' = id)) as [->|Hne].
    + rewrite lookup_alter_eq. split; [|tauto]. intros _.
      apply Hcase; intros Hl; [rewrite IH1 by done|by rewrite IH2]. by destruct (cs !! id).
    + rewrite lookup_alter_ne by done. split; [intros [[_ ?]|]; [done|auto]|intros Hn; apply IH2; tauto].
  - split; [intros [[? _]|]; [done|auto]|intros Hn; apply IH2; tauto].
Qed.

(** the connection of a message that goes with its receiver *)
Lemma closed_ok r id msg n c :
  inv n -> conns n !! id = Some c -> (r, (id, msg)) ∈ queued n ->
  conn_ok (lock_queue n) (tokens (cancel r n)) (handled n) id (close_empty c).
Proof.
  intros Hi Hc Hin. pose proof (inv_conns _ Hi id c Hc) as Hok.
  assert (Htok : (id, msg) ∈ tokens n).
  { unfold tokens. rewrite elem_of_app, list_elem_of_fmap. left. by exists (r, (id, msg)). }
  destruct (ok_token _ _ _ _ _ Hok _ Htok) as [Ht Hm].
  assert (Hnl : forall msg a, (id, msg, a) ∉ handled n).
  { intros m a [E _]%(ok_handled _ _ _ _ _ Hok). congruence. }
  assert (Hnt : forall m, (id, m) ∉ tokens (cancel r n)).
  { pose proof (inv_nodup_tokens _ Hi) as Hnd. unfold tokens in Hnd. rewrite fmap_app in Hnd.
    apply NoDup_app in Hnd as (Hnd & Hdis & _). intros m. unfold tokens. cbn.
    rewrite elem_of_app, list_elem_of_fmap. intros [([r' e] & Ee & Hm')|Hm'].
    - cbn in Ee. subst e. apply list_elem_of_filter in Hm' as [Hne Hm']. cbn in Hne, Hm'.
      apply list_elem_of_lookup in Hm' as [i Hi']. apply list_elem_of_lookup in Hin as [j Hj].
      assert (i = j) as ->; [|congruence]. apply (NoDup_lookup _ i j id Hnd); rewrite !list_lookup_fmap.
      + by rewrite Hi'.
      + by rewrite Hj.
    - apply (Hdis id); [|apply list_elem_of_fmap; by exists (id, m)].
      rewrite <- list_fmap_compose. apply list_elem_of_fmap. by exists (r, (id, msg)). }
  split; cbn; try done; try apply Hok.
  - split; [done|]. intros H. apply (ok_locking _ _ _ _ _ Hok) in H. congruence.
  - by intros m ?%Hnt.
  - by intros m a ?%Hnl.
  - intros b [= <-]. done.
  - intros b Hb. apply (ok_response _ _ _ _ _ Hok) in Hb. congruence.
Qed.

Lemma net_cancel r n : inv n -> inv (cancel r n).
Proof.
  intros Hi. assert (Hlk : forall id, is_Some (conns n !! id) -> is_Some (conns (cancel r n) !! id)).
  { intros id [c Hc]. destruct (cancel_lookup r id (conns n) (queued n)) as [H1 H2]. cbn.
    destruct (decide (Exists (fun e => e.1 = r /\ e.2.1 = id) (queued n))) as [He|He].
    - rewrite H1, Hc; [done|]. apply Exists_exists in He as ([? [? msg]] & ? & ? & ?). simplify_eq/=.
      by exists msg.
    - rewrite H2, Hc; [done|]. intros [msg Hm]. apply He, Exists_exists. by exists (r, (id, msg)). }
  assert (Hsub : forall e, e ∈ tokens (cancel r n) -> e ∈ tokens n).
  { intros e. unfold tokens. cbn. rewrite !elem_of_app, !list_elem_of_fmap. setoid_rewrite list_elem_of_filter.
    naive_solver. }
  split; try apply Hi.
  - intros id c Hc. destruct (cancel_lookup r id (conns n) (queued n)) as [H1 H2]. cbn in Hc.
    destruct (decide (Exists (fun e => e.1 = r /\ e.2.1 = id) (queued n))) as [He|He].
    + apply Exists_exists in He as ([r0 [id0 msg]] & Hin & ? & ?). simplify_eq/=.
      rewrite H1 in Hc by (by exists msg).
      destruct (conns n !! id) as [c0|] eqn:Ec; [|done]. injection Hc as <-.
      by apply (closed_ok r id msg n c0).
    + assert (~ queued_for r id (queued n)) as Hn.
      { intros [msg Hm]. apply He, Exists_exists. by exists (r, (id, msg)). }
      rewrite H2 in Hc by done. apply (conn_ok_ext (lock_queue n) _ (tokens n) _ (handled n));
        [done| |done|by apply Hi].
      intros msg. split; [|apply Hsub]. unfold tokens. cbn. rewrite !elem_of_app, !list_elem_of_fmap.
      setoid_rewrite list_elem_of_filter. intros [([r' e] & Ee & Hin)|?]; [left|by right].
      cbn in Ee. subst e.
      exists (r', (id, msg)). split_and!; [done| |done]. cbn. intros ->. apply Hn. by exists msg.
  - intros id H. by apply Hlk, Hi.
  - intros id msg H%Hsub. by eapply Hlk, inv_tokens.
  - intros id msg a H. by eapply Hlk, inv_handled.
  - pose proof (inv_nodup_tokens _ Hi) as Hnd. unfold tokens in *. cbn.
    eapply sublist_NoDup; [exact Hnd|]. apply fmap_sublist. apply sublist_app; [|done].
    apply fmap_sublist, sublist_filter.
  - intros r' e [Hne Hin]%list_elem_of_filter. cbn in *. pose proof (inv_open _ Hi r' e Hin). set_solver.
Qed.

#[local] Transparent taken.

Lemma net_internal n n' : inv n -> internal n n' -> inv n'.
Proof.
  intros Hi. destruct 1.
  - eapply net_conn; [done..|]. by intros [].
  - by apply net_read.
  - by apply net_dispatch.
  - eapply (net_same n); try done; [cbn; by rewrite H|apply Hi].
  - by eapply net_recv.
  - by eapply net_act.
  - by apply net_answer.
  - eapply net_conn; [done..|]. intros [H1' H2' H3' H4' H5' H6' H7']. split; cbn; try done.
    intros b' [= <-]. done.
  - eapply net_conn; [done..|]. intros []. by split.
Qed.

Lemma net_client n n' : inv n -> client n n' -> inv n'.
Proof.
  intros Hi. destruct 1.
  - destruct (net_fresh n id Hi H) as (Hl & Ht & Hg).
    eapply (net_one n _ id _ Hi); [done| |done|apply Hi..]. split; cbn; try done.
    + split; [apply prefix_nil|apply Nat.le_0_l].
    + by intros msg ?%Ht.
    + by intros msg a ?%Hg.
  - eapply net_conn; [done..|]. by intros [].
Qed.

Lemma net_service n n' : inv n -> service n n' -> inv n'.
Proof.
  intros Hi. destruct 1.
  - eapply (net_same n); try done; [cbn; rewrite omap_app; apply app_nil_r|apply Hi].
  - eapply (net_same n); try done. cbn. intros r' e He. apply elem_of_union. right. by apply Hi in He.
  - by apply net_cancel.
Qed.

Lemma net_step n n' : inv n -> step n n' -> inv n'.
Proof. intros Hi [|[]]; eauto using net_internal, net_client, net_service. Qed.

Lemma net_steps n n' : inv n -> rtc step n n' -> inv n'.
Proof. intros Hi Hr. revert Hi. induction Hr; eauto using net_step. Qed.

(** ** Lemmas: the calls come to an end *)

Definition task_rank (t : Task) : nat :=
  match t with Reading => 6 | Locking => 4 | Waiting _ => 1 | Closed _ => 0 end.
Definition conn_rank (c : Connection) : nat :=
  (length (payload c) - arrived c) + task_rank (task c) +
  match response c with None => 1 | Some _ => 0 end.
Definition work n : nat :=
  map_sum conn_rank (conns n) + length (lock_queue n) + 2 * length (queued n) + length (handling n).

Lemma rank_insert id c c' n :
  conns n !! id = Some c ->
  map_sum conn_rank (<[id := c']> (conns n)) + conn_rank c = map_sum conn_rank (conns n) + conn_rank c'.
Proof. intros Hc. pose proof (map_sum_insert conn_rank (conns n) id c') as H. by rewrite Hc in H. Qed.

Lemma dispatch_work id c q n :
  lock_queue n = Reader id :: q -> conns n !! id = Some c -> task c = Locking ->
  work (dispatch id c (set_lock_queue q n)) < work n.
Proof.
  intros Eq Hc Ht. unfold work, dispatch. cbn. rewrite Eq.
  assert (forall t, map_sum conn_rank (<[id := set_task t c]> (conns n)) + 4 =
                    map_sum conn_rank (conns n) + task_rank t) as Hs.
  { intros t. pose proof (rank_insert id c (set_task t c) n Hc) as H. revert H.
    unfold conn_rank. cbn. rewrite Ht. cbn. lia. }
  destruct (connections n !! peer c); [|destruct (default_handler n); [case_decide|]]; cbn;
    match goal with |- context [set_task ?t c] => pose proof (Hs t) as Ht' end; cbn in Ht';
    rewrite ?length_app; cbn; lia.
Qed.

(** the tasks of the messages *)
Definition pool n : list (Tasks.Task S (option Bytes)) := (fun e => e.2.2) <$> handling n.

Lemma internal_decreases n n' :
  inv n -> internal n n' ->
  work n' < work n \/ (work n' = work n /\ Tasks.pool_sub (pool n') (pool n)).
Proof.
  intros Hi. destruct 1.
  - left. pose proof (rank_insert id c (set_arrived k c) n H) as Hr. revert Hr.
    unfold work, conn_rank. cbn. lia.
  - left. pose proof (rank_insert id c (read_message c) n H) as Hr. revert Hr.
    unfold work, conn_rank. cbn. rewrite H0, length_app. cbn. lia.
  - left. apply dispatch_work; [done..|]. apply (inv_conns _ Hi id c H0). rewrite H. apply list_elem_of_here.
  - left. unfold work. cbn. rewrite H. cbn. lia.
  - left. unfold work. cbn. rewrite H, !length_app. cbn. lia.
  - right. unfold work, pool. cbn. rewrite H, !length_app, !fmap_app. split; [done|].
    eexists _, _, _, _. split_and!; [done..|]. by exists f, (server n), s'.
  - left. destruct (token_waits id msg (Tasks.Done a) n Hi) as (_ & c & Hc & Ht & _);
      [rewrite H; apply elem_of_middle_eq|].
    unfold work. cbn. rewrite (alter_some _ _ _ c Hc).
    pose proof (rank_insert id c (set_task (Closed (default [] a)) c) n Hc) as Hr. revert Hr.
    unfold conn_rank. cbn. rewrite Ht, H, !length_app. cbn. lia.
  - left. pose proof (rank_insert id c (set_response (IoOk b) c) n H) as Hr. revert Hr.
    unfold work, conn_rank. cbn. rewrite H1. lia.
  - left. pose proof (rank_insert id c (set_response IoErr c) n H) as Hr. revert Hr.
    unfold work, conn_rank. cbn. rewrite H1. lia.
Qed.

(** a network with a handler, and without listeners of single peers *)
Record serving (r : positive) n : Prop := {
  sv_handler : default_handler n = Some r /\ r ∈ open_receivers n;
  sv_listeners : connections n = ∅;
  sv_lock w : w ∈ lock_queue n -> exists id, w = Reader id;
  sv_tasks id c : conns n !! id = Some c -> task c <> Waiting false
}.

Lemma serving_conn r n id c : serving r n -> task c <> Waiting false -> serving r (set_conn id c n).
Proof.
  intros [? ? ? Ht] Hc. split; try done. cbn. intros id' c'.
  destruct (decide (id' = id)) as [->|]; [rewrite lookup_insert_eq; by intros [= <-]|].
  rewrite lookup_insert_ne by done. apply Ht.
Qed.

Lemma serving_internal r n n' : serving r n -> internal n n' -> serving r n'.
Proof.
  intros Hs. pose proof Hs as [[Hd Ho] Hl Hq Ht]. destruct 1.
  - apply serving_conn; [done|]. by apply (Ht id c).
  - destruct (serving_conn r n id (read_message c) Hs) as [? ? ? Ht']; [done|]. split; try done.
    intros w [Hw|Hw]%elem_of_app; [by apply Hq|]. apply list_elem_of_singleton in Hw. by exists id.
  - assert (serving r (set_lock_queue q n)) as Hs'.
    { split; try done. intros w Hw. apply Hq. rewrite H. by apply list_elem_of_further. }
    unfold dispatch. cbn. rewrite Hl, lookup_empty, Hd, decide_True by done.
    apply serving_conn; [|done]. by destruct Hs'.
  - destruct (Hq (Writer from)) as [id E]; [rewrite H; apply list_elem_of_here|done].
  - done.
  - done.
  - split; try done. cbn. intros id' c' E.
    destruct (decide (id' = id)) as [->|].
    + rewrite lookup_alter_eq in E. destruct (conns n !! id); [|done]. by injection E as <-.
    + rewrite lookup_alter_ne in E by done. by apply (Ht id').
  - apply serving_conn; [done|]. by apply (Ht id c).
  - apply serving_conn; [done|]. by apply (Ht id c).
Qed.

Lemma serving_client r n n' : serving r n -> client n n' -> serving r n'.
Proof.
  intros Hs. destruct 1; [by apply serving_conn|]. apply serving_conn; [done|]. by apply (sv_tasks _ _ Hs id c).
Qed.

(** where nothing is left to do a call has its result, or its task waits *)
Lemma serving_stuck r n id c :
  inv n -> serving r n -> nf internal n -> conns n !! id = Some c -> gone c = false ->
  payload c <> [] ->
  is_Some (response c) \/
  exists t, (id, (message c, t)) ∈ handling n /\ Tasks.waits t (server n).
Proof.
  intros Hi Hs Hnf Hc Hg Hp. pose proof (inv_conns _ Hi id c Hc) as Hok.
  destruct (response c) eqn:Hr; [by left|right]. destruct (task c) as [| |[]|b] eqn:Ht;
    [exfalso; apply Hnf..| |exfalso; apply Hnf|exfalso; apply Hnf].
  - destruct (decide (0 < arrived c)%nat) as [Ha|Ha].
    + eexists. apply (step_read id c); [done|done|by left].
    + eexists. apply (step_arrive id c (length (payload c))); [done|].
      destruct (payload c); [done|]. cbn. lia.
  - apply (ok_locking _ _ _ _ _ Hok) in Ht. destruct (lock_queue n) as [|w q] eqn:Eq;
      [by apply elem_of_nil in Ht|].
    destruct (sv_lock _ _ Hs w) as [id' ->]; [rewrite Eq; apply list_elem_of_here|].
    destruct (inv_lock _ Hi id') as [c' Hc']; [rewrite Eq; apply list_elem_of_here|].
    eexists. by apply (step_lock_reader id' c' q).
  - destruct (ok_waiting _ _ _ _ _ Hok Ht) as [msg Hm].
    destruct (ok_token _ _ _ _ _ Hok _ Hm) as [_ ->]. unfold tokens in Hm.
    apply elem_of_app in Hm as [Hm|([id1 [m t]] & E & Hin)%list_elem_of_fmap].
    + destruct Hnf. destruct (queued n) as [|[r' [id' m']] l] eqn:Eq; [by apply elem_of_nil in Hm|].
      eexists. apply (step_recv r' id' m' [] l); [done| |apply not_elem_of_nil].
      apply (inv_open _ Hi r' (id', m')). rewrite Eq. apply list_elem_of_here.
    + cbn in E. injection E as <- <-. exists t. split; [done|].
      apply list_elem_of_split in Hin as (l1 & l2 & Eh). destruct t as [a|f].
      * destruct Hnf. eexists. by eapply step_answer.
      * exists f. split; [done|]. destruct (f (server n)) as [[s' t]|] eqn:Ef; [|done].
        destruct Hnf. eexists. by eapply step_act.
  - by destruct (sv_tasks _ _ Hs id c Hc).
  - eexists. by apply (step_response id c b).
Qed.

(** the network of a server that has started to listen *)
Lemma serving_new r s : serving r (listen_default r (new s)).
Proof. split; cbn; try done; [set_solver|]. by intros w ?%elem_of_nil. Qed.

(** ** Lemmas: a sender that nobody has *)

(** the task of a connection waits for an answer whose sender it still has *)
Definition lost (id : positive) n : Prop :=
  exists c, conns n !! id = Some c /\ task c = Waiting false /\ response c = None.

Lemma lost_other id id' c n : lost id n -> id' <> id -> lost id (set_conn id' c n).
Proof. intros (c0 & Hc0 & ?) Hne. exists c0. cbn. by rewrite lookup_insert_ne. Qed.

Lemma lost_internal id n n' : inv n -> lost id n -> internal n n' -> lost id n'.
Proof.
  intros Hi Hl. pose proof Hl as (c0 & Hc0 & Ht & Hr). pose proof (inv_conns _ Hi id c0 Hc0) as Hok.
  assert (forall id' c, conns n !! id' = Some c -> task c <> Waiting false -> id' <> id) as Hne.
  { intros id' c Hc Htc ->. congruence. }
  destruct 1 as [id' c k n Hc|id' c n Hc E|id' c q n Eq Hc|from q n _ Hw|r id' msg l1 l2 n
    |id' msg f l1 l2 s' t n Eh Ef|id' msg a l1 l2 n Eh|id' c b n Hc E|id' c b n Hc E].
  - destruct (decide (id' = id)) as [->|]; [|by apply lost_other]. exists (set_arrived k c). cbn.
    rewrite lookup_insert_eq. by simplify_eq.
  - apply (lost_other id id' (read_message c) n Hl). apply (Hne id' c Hc). by rewrite E.
  - assert (id' <> id) as Hne'.
    { apply (Hne id' c Hc). enough (task c = Locking) by congruence.
      apply (inv_conns _ Hi id' c Hc). rewrite Eq. apply list_elem_of_here. }
    exists c0. split; [|done]. unfold dispatch. cbn.
    repeat case_match; cbn; by rewrite lookup_insert_ne.
  - destruct (Hw id c0 Hc0). by exists false.
  - done.
  - done.
  - destruct (token_waits id' msg (Tasks.Done a) n Hi) as (_ & c & Hc & Ht' & _);
      [rewrite Eh; apply elem_of_middle_eq|].
    exists c0. split; [|done]. cbn. rewrite lookup_alter_ne; [done|]. apply (Hne id' c Hc). congruence.
  - apply (lost_other id id' _ n Hl). apply (Hne id' c Hc). by rewrite E.
  - apply (lost_other id id' _ n Hl). apply (Hne id' c Hc). by rewrite E.
Qed.

Lemma lost_step id n n' : inv n -> lost id n -> step n n' -> lost id n'.
Proof.
  intros Hi Hl [H|[H|H]]; [by eapply lost_internal|..]; pose proof Hl as (c0 & Hc0 & Ht & Hr).
  - destruct H as [id' from payload n Hn|id' c n Hc].
    + apply lost_other; congruence.
    + destruct (decide (id' = id)) as [->|]; [|by apply lost_other]. exists (set_gone c). cbn.
      rewrite lookup_insert_eq. by simplify_eq.
  - destruct H as [| |r n Ho]; [done|done|]. exists c0. split; [|done]. cbn.
    rewrite (proj2 (cancel_lookup r id (conns n) (queued n))); [done|]. intros [msg Hm].
    pose proof (inv_conns _ Hi id c0 Hc0) as Hok.
    destruct (ok_token _ _ _ _ _ Hok msg) as [Ht' _]; [|congruence].
    unfold tokens. rewrite elem_of_app, list_elem_of_fmap. left. by exists (r, (id, msg)).
Qed.

(** while it waits no listener can be registered *)
Lemma lost_blocks id n n' :
  lost id n -> step n n' ->
  dom (connections n') = dom (connections n) /\
  forall from q, lock_queue n = Writer from :: q -> exists q', lock_queue n' = Writer from :: q ++ q'.
Proof.
  intros (c0 & Hc0 & Ht & Hr) [H|[H|H]].
  - destruct H as [id' c k n Hc|id' c n Hc E|id' c q n Eq Hc|from q n _ Hw|r id' msg l1 l2 n
      |id' msg f l1 l2 s' t n Eh Ef|id' msg a l1 l2 n Eh|id' c b n Hc E|id' c b n Hc E]; try (split; [done|]; intros; exists []; by rewrite app_nil_r).
    + split; [done|]. cbn. intros from q ->. by exists [Reader id'].
    + split; [|by rewrite Eq]. unfold dispatch. cbn.
      destruct (connections n !! peer c) eqn:E; [|by repeat case_match].
      cbn. rewrite dom_insert_L. apply elem_of_dom_2 in E. set_solver.
    + destruct (Hw id c0 Hc0). by exists false.
  - destruct H; (split; [done|]; intros; exists []; by rewrite app_nil_r).
  - destruct H as [from n| |]; (split; [done|]; cbn; intros from' q E);
      [rewrite E; by exists [Writer from]|exists []; by rewrite app_nil_r..].
Qed.

(** ** Lemmas: the actions of the tasks *)

#[local] Arguments actions : simpl never.

Record history_ok (s0 : S) n : Prop := {
  hist_chain : chain s0 (history n) (server n);
  hist_running id msg t : (id, (msg, t)) ∈ handling n -> Tasks.plays (serve msg) (actions id (history n)) t;
  hist_done id msg a : (id, msg, a) ∈ handled n ->
    Tasks.plays (serve msg) (actions id (history n)) (Tasks.Done a);
  hist_fresh id : id ∈ (history n).*1 -> id ∈ (handling n).*1 ++ (handled n).*1.*1
}.

Lemma actions_snoc id id' x (l : list (positive * (S * S))) :
  actions id (l ++ [(id', x)]) = if decide (id' = id) then actions id l ++ [x] else actions id l.
Proof.
  unfold actions. rewrite filter_app, fmap_app. f_equal. rewrite filter_cons. cbn. case_decide; cbn; [done|].
  by rewrite app_nil_r.
Qed.

Lemma actions_fresh id (l : list (positive * (S * S))) : id ∉ l.*1 -> actions id l = [].
Proof.
  intros Hn. unfold actions. induction l as [|[i x] l IH]; [done|]. cbn in Hn.
  rewrite filter_cons, decide_False by (cbn; set_solver). apply IH. set_solver.
Qed.

(** a step that leaves the tasks as they are *)
Lemma history_same s0 n n' :
  history_ok s0 n -> server n' = server n -> handling n' = handling n -> history n' = history n ->
  handled n' = handled n -> history_ok s0 n'.
Proof. intros [] Es Eh Ey Ed. split; by rewrite ?Es, ?Eh, ?Ey, ?Ed. Qed.

(** the connection of a message that is queued has no action yet *)
Lemma queued_fresh s0 n r id msg :
  inv n -> history_ok s0 n -> (r, (id, msg)) ∈ queued n -> id ∉ (history n).*1.
Proof.
  intros Hi Hh Hq Hin. apply (hist_fresh _ _ Hh) in Hin.
  assert (Htok : (id, msg) ∈ tokens n).
  { unfold tokens. rewrite elem_of_app, list_elem_of_fmap. left. by exists (r, (id, msg)). }
  destruct (inv_tokens _ Hi _ _ Htok) as [c Hc].
  destruct (ok_token _ _ _ _ _ (inv_conns _ Hi id c Hc) _ Htok) as [Ht _].
  apply elem_of_app in Hin as [Hin|Hin].
  - pose proof (inv_nodup_tokens _ Hi) as Hnd. unfold tokens, taken in Hnd. rewrite fmap_app in Hnd.
    apply NoDup_app in Hnd as (_ & Hdis & _). apply (Hdis id).
    + rewrite <- list_fmap_compose. apply list_elem_of_fmap. by exists (r, (id, msg)).
    + by rewrite <- list_fmap_compose.
  - apply list_elem_of_fmap in Hin as ([i m] & -> & ([[i' m'] a] & E & Hin)%list_elem_of_fmap). injection E as -> ->.
    apply (ok_handled _ _ _ _ _ (inv_conns _ Hi _ c Hc)) in Hin as [? _]. cbn in *. congruence.
Qed.

Lemma history_recv s0 n r id msg l1 l2 :
  inv n -> history_ok s0 n -> queued n = l1 ++ (r, (id, msg)) :: l2 ->
  history_ok s0 (set_handling (handling n ++ [(id, (msg, serve msg))]) (set_queued (l1 ++ l2) n)).
Proof.
  intros Hi Hh Eq. pose proof (queued_fresh s0 n r id msg Hi Hh) as Hf.
  rewrite Eq in Hf. specialize (Hf (elem_of_middle_eq _ _ _)). destruct Hh. split; cbn; try done.
  - intros id' m t. rewrite elem_of_app, list_elem_of_singleton. intros [?|[= -> -> ->]]; [by apply hist_running0|].
    rewrite actions_fresh by done. constructor.
  - intros id' Hin. apply hist_fresh0 in Hin. rewrite fmap_app. set_solver.
Qed.

Lemma handling_once n id msg t msg' t' l1 l2 :
  inv n -> handling n = l1 ++ (id, (msg, t)) :: l2 -> (id, (msg', t')) ∉ l1 ++ l2.
Proof.
  intros Hi Eh Hin. pose proof (inv_nodup_tokens _ Hi) as Hnd. unfold tokens, taken in Hnd.
  rewrite fmap_app in Hnd. apply NoDup_app in Hnd as (_ & _ & Hnd).
  rewrite <- list_fmap_compose, Eh, fmap_app in Hnd. cbn in Hnd.
  rewrite <- Permutation_middle, <- fmap_app in Hnd. apply NoDup_cons in Hnd as [Hnd _]. apply Hnd, list_elem_of_fmap. by exists (id, (msg', t')).
Qed.

Lemma history_act s0 n id msg f s' t l1 l2 :
  inv n -> history_ok s0 n -> handling n = l1 ++ (id, (msg, Tasks.Act f)) :: l2 ->
  f (server n) = Some (s', t) ->
  history_ok s0 (act id s' (set_handling (l1 ++ (id, (msg, t)) :: l2) n)).
Proof.
  intros Hi [Hch Hrun Hdone Hfresh] Eh Ef.
  destruct (token_waits id msg (Tasks.Act f) n Hi) as (_ & c & Hc & Ht & _); [rewrite Eh; apply elem_of_middle_eq|].
  split; cbn.
  - by constructor.
  - intros id' m t'. rewrite actions_snoc. rewrite elem_of_app, elem_of_cons.
    assert (Ho : (id', (m, t')) ∈ l1 ++ l2 -> Tasks.plays (serve m)
      (if decide (id = id') then actions id' (history n) ++ [(server n, s')] else actions id' (history n)) t').
    { intros Hin. case_decide; [subst id'; by apply (handling_once n id msg (Tasks.Act f) m t' l1 l2) in Hin|].
      apply Hrun. rewrite Eh. rewrite elem_of_app in Hin. set_solver. }
    intros [?|[[= -> -> ->]|?]]; [apply Ho; set_solver| |apply Ho; set_solver].
    rewrite decide_True by done. eapply Tasks.plays_snoc; [|done]. apply Hrun. rewrite Eh. apply elem_of_middle_eq.
  - intros id' m a Hin. rewrite actions_snoc. case_decide; [subst id'|by apply Hdone].
    apply (ok_handled _ _ _ _ _ (inv_conns _ Hi id c Hc)) in Hin as [? _]. congruence.
  - intros id'. rewrite !fmap_app. cbn. rewrite elem_of_app, list_elem_of_singleton.
    intros [Hin%Hfresh| ->]; [rewrite Eh, fmap_app in Hin; cbn in Hin; set_solver|set_solver].
Qed.

Lemma history_answer s0 n id msg a l1 l2 :
  history_ok s0 n -> handling n = l1 ++ (id, (msg, Tasks.Done a)) :: l2 ->
  history_ok s0 (answer id msg a (set_handling (l1 ++ l2) n)).
Proof.
  intros [Hch Hrun Hdone Hfresh] Eh. split; cbn; [done|..].
  - intros id' m t Hin. apply Hrun. rewrite Eh. by apply elem_of_middle.
  - intros id' m a'. rewrite elem_of_app, list_elem_of_singleton. intros [?|[= -> -> ->]]; [by apply Hdone|].
    apply Hrun. rewrite Eh. apply elem_of_middle_eq.
  - intros id' Hin%Hfresh. rewrite Eh in Hin. rewrite !fmap_app in *. cbn in *. set_solver.
Qed.

Lemma history_step s0 n n' : inv n -> history_ok s0 n -> step n n' -> history_ok s0 n'.
Proof.
  intros Hi Hh [H|[H|H]].
  - destruct H; try by eapply history_same.
    + unfold dispatch. cbn. repeat case_match; by eapply history_same.
    + by eapply history_recv.
    + by eapply history_act.
    + by eapply history_answer.
  - destruct H; by eapply history_same.
  - destruct H; by eapply history_same.
Qed.

Lemma history_reachable s n : rtc step (new s) n -> inv n /\ history_ok s n.
Proof.
  revert n. apply rtc_ind_r.
  - split; [apply net_new|]. split; cbn; [constructor|..]; set_solver.
  - intros n n' _ Hs [Hi Hh]. split; [by eapply net_step|by eapply history_step].
Qed.

(** ** Properties *)

(** C21: The server runs the requests as tasks that interrupt each other, and mixes up
    none of them. Whatever connections are opened, given up, read and answered at
    the same time, at most one message of each connection is handled; the state
    of the server comes from the actions of the tasks, one after the other; the
    actions that belong to a connection are those that the task of its own message
    takes from its beginning on; and an answer that reaches a client is what the
    task of its own message has ended with. The message is what the client wrote,
    or the beginning of it up to the size of the buffer. *)
Theorem network_interleaves_requests s n :
  rtc step (new s) n ->
  chain s (history n) (server n) /\ NoDup (handled n).*1.*1 /\
  (forall id, id ∈ (history n).*1 -> exists c t, conns n !! id = Some c /\
     Tasks.plays (serve (message c)) (actions id (history n)) t) /\
  forall id c b, conns n !! id = Some c -> response c = Some (IoOk b) -> b <> [] ->
    Tasks.plays (serve (message c)) (actions id (history n)) (Tasks.Done (Some b)) /\
    message c `prefix_of` payload c /\ (length (message c) <= BUFFER_SIZE)%nat.
Proof.
  intros [Hi Hh]%history_reachable. split_and!; [apply Hh|apply Hi|..].
  - intros id [Hin|Hin]%(hist_fresh _ _ Hh)%elem_of_app.
    + apply list_elem_of_fmap in Hin as ([i [msg t]] & -> & Hin).
      destruct (token_waits _ _ _ _ Hi Hin) as (_ & c & Hc & _ & Hm).
      exists c, t. split; [done|]. rewrite Hm. by apply Hh.
    + apply list_elem_of_fmap in Hin as ([i m] & -> & ([[i' m'] a] & E & Hin)%list_elem_of_fmap). injection E as -> ->.
      destruct (inv_handled _ Hi _ _ _ Hin) as [c Hc].
      destruct (ok_handled _ _ _ _ _ (inv_conns _ Hi _ c Hc) _ _ Hin) as [_ Hm].
      exists c, (Tasks.Done a). split; [done|]. rewrite Hm. by apply (hist_done _ _ Hh).
  - intros id c b Hc Hb Hne. destruct (inv_conns _ Hi id c Hc). split; [|done].
    destruct (ok_closed0 b) as [msg Hm]; [by apply ok_response0|done|].
    destruct (ok_handled0 _ _ Hm) as [_ ->]. by apply (hist_done _ _ Hh).
Qed.

(** C23: Every call comes to an end or waits in the server. Once the server listens,
    and while nobody registers for single peers, the connections and the tasks of
    the messages can only take finitely many steps after the last call, and when
    none is left every client that has written something and has not given up has
    its answer or an error, or the task of its message waits, for a lock or for
    the log of a range. *)
Theorem exchanges_complete r s n :
  rtc (fun n n' => internal n n' \/ client n n') (listen_default r (new s)) n ->
  sn internal n /\
  forall n', rtc internal n n' -> nf internal n' ->
    forall id c, conns n' !! id = Some c -> gone c = false -> payload c <> [] ->
      is_Some (response c) \/
      exists t, (id, (message c, t)) ∈ handling n' /\ Tasks.waits t (server n').
Proof.
  intros Hr. assert (inv n /\ serving r n) as [Hi Hs].
  { assert (inv (listen_default r (new s)) /\ serving r (listen_default r (new s))) as H0.
    { split; [|apply serving_new]. eapply net_service; [apply net_new|]. by apply step_listen. }
    revert H0. induction Hr as [|n1 n2 n3 [H|H] Hr IH]; [done| |]; intros [Hi Hs]; apply IH; split;
      eauto using net_internal, net_client, serving_internal, serving_client. }
  split.
  - apply (Tasks.sn_lexicographic _ inv work Tasks.pool_sub pool); [apply Tasks.pool_wf| |done].
    intros n1 n2 Hi1 H. split; [by eapply net_internal|by eapply internal_decreases].
  - intros n' Hr' Hnf id c. assert (inv n' /\ serving r n') as [Hi' Hs'].
    { clear Hr Hnf. revert Hi Hs. induction Hr'; eauto using net_internal, serving_internal. }
    by eapply serving_stuck.
Qed.

(** A connection that comes before the handler hangs, and so does everybody who
    registers. When the task of a connection waits for an answer whose sender it
    still has, because there was no handler or because its peer has a listener,
    it waits for ever, its client gets no result, nobody who calls [register]
    gets a receiver, and behind a call of [register] no other connection gets
    its turn. *)
Theorem early_connection_blocks s id n n' :
  rtc step (new s) n -> lost id n -> rtc step n n' ->
  lost id n' /\ dom (connections n') = dom (connections n) /\
  forall from q, lock_queue n = Writer from :: q -> exists q', lock_queue n' = Writer from :: q ++ q'.
Proof.
  intros Hr Hl Hr'. destruct (history_reachable _ _ Hr) as [Hi _]. clear Hr.
  revert Hi Hl. induction Hr' as [n|n1 n2 n3 H Hr' IH]; intros Hi Hl.
  { split_and!; [done..|]. intros from q E. exists []. by rewrite app_nil_r. }
  destruct (lost_blocks id n1 n2 Hl H) as [Hd Hq].
  destruct (IH (net_step _ _ Hi H) (lost_step _ _ _ Hi Hl H)) as (Hl3 & Hd3 & Hq3).
  split_and!; [done|congruence|]. intros from q E. destruct (Hq from q E) as [q1 E1].
  destruct (Hq3 _ _ E1) as [q2 E2]. exists (q1 ++ q2). by rewrite E2, app_assoc.
Qed.
(** A task that nobody interrupts: the network goes through its run. *)
Lemma run_steps n id msg (t : Tasks.Task S (option Bytes)) l1 l2 :
  handling n = l1 ++ (id, (msg, t)) :: l2 ->
  exists n' t', rtc internal n n' /\ server n' = (Tasks.run t (server n)).1 /\ conns n' = conns n /\
    handling n' = l1 ++ (id, (msg, t')) :: l2 /\
    match (Tasks.run t (server n)).2 with
    | Some a => t' = Tasks.Done a
    | None => Tasks.waits t' (server n')
    end.
Proof.
  revert n. induction t as [a|f IH] using Tasks.task_ind; intros n Eh; cbn.
  - exists n, (Tasks.Done a). by split_and!.
  - destruct (f (server n)) as [[s1 t1]|] eqn:Ef; cbn.
    + destruct (IH _ _ _ Ef (act id s1 (set_handling (l1 ++ (id, (msg, t1)) :: l2) n)) eq_refl)
        as (n' & t' & Hr & ?). exists n', t'. split; [|done].
      eapply rtc_l; [by eapply step_act|done].
    + exists n, (Tasks.Act f). split_and!; try done. by exists f.
Qed.

(** the end of an exchange whose task has ended *)
Lemma answer_steps n id c msg a l1 l2 :
  handling n = l1 ++ (id, (msg, Tasks.Done a)) :: l2 -> conns n !! id = Some c ->
  response c = None -> gone c = false ->
  exists n' c', rtc internal n n' /\ server n' = server n /\ conns n' !! id = Some c' /\
    response c' = Some (IoOk (default [] a)).
Proof.
  intros Eh Hc Hr Hg. set (n1 := answer id msg a (set_handling (l1 ++ l2) n)).
  set (c1 := set_task (Closed (default [] a)) c).
  assert (Hc1 : conns n1 !! id = Some c1) by (cbn; by rewrite lookup_alter_eq, Hc).
  exists (set_conn id (set_response (IoOk (default [] a)) c1) n1), (set_response (IoOk (default [] a)) c1).
  split_and!; [|done|cbn; apply lookup_insert_eq|done].
  eapply rtc_l; [by eapply step_answer|]. apply rtc_once. by apply (step_response id c1 (default [] a) n1).
Qed.
End Network.

(** ** The range server behind the network *)

Section Server.
Context `{RangeTasks.RangeJobs R, HashOrder}.
(** [Uuid::to_u128_le] and [Uuid::from_u128_le] of the crate [uuid] *)
Context (to_u128_le from_u128_le : Uuid -> N).
(** the clock of the server *)
Context (now : Z).
(** the bytes of the messages, of the crate [flatbuffers] *)
Context (encode_request : RangeServer.RequestEnvelope -> Bytes) (decode_request : Bytes -> option RangeServer.RequestEnvelope).
Context (encode_response : RangeServer.ResponseEnvelope -> Bytes) (decode_response : Bytes -> option RangeServer.ResponseEnvelope).

(** the task of a message of [network_server_loop]; one that cannot be decoded is
    an error, which is dropped with the sender of the answer *)
Definition serve (b : Bytes) : Tasks.Task (RangeServer.Server R) (option Bytes) :=
  match decode_request b with
  | None => Tasks.Done None
  | Some msg =>
      Tasks.t_bind (RangeTasks.message_job to_u128_le from_u128_le now msg) (fun res =>
        Tasks.Done match res with
                   | Ok (Some reply) => Some (encode_response reply)
                   | _ => None
                   end)
  end.

Lemma run_serve b msg sv :
  decode_request b = Some msg ->
  Tasks.run (serve b) sv =
  match RangeServer.handle_message to_u128_le from_u128_le now msg sv with
  | (sv', Ok (Some reply)) => (sv', Some (Some (encode_response reply)))
  | (sv', Err RangeServer.Waiting) => (sv', None)
  | (sv', _) => (sv', Some None)
  end.
Proof.
  intros Hd. unfold serve. rewrite Hd, Tasks.run_bind.
  rewrite <- (RangeTasks.message_job_uninterrupted to_u128_le from_u128_le now msg sv).
  by destruct (Tasks.run _ sv) as [sv' [[[]|e|]|]].
Qed.

(** C22: The network implements the calls of the client. When the loop of the server
    has taken a message that arrived whole, and nobody interrupts its task, the
    server ends in the state in which [send] of the client leaves it, and the
    client gets an answer that it decodes to the one of [send]. Where [send] waits,
    so does the task, with the connection open; where the server does not answer,
    the client reads an empty answer. *)
Theorem network_implements_send n id c msg :
  decode_request (encode_request msg) = Some msg ->
  (forall reply, (RangeClient.send to_u128_le from_u128_le now msg (server n)).2 = Ok reply ->
     decode_response (encode_response reply) = Some reply) ->
  conns n !! id = Some c -> payload c = encode_request msg ->
  message c = payload c -> gone c = false -> response c = None ->
  (id, (message c, serve (message c))) ∈ handling n ->
  exists n', rtc (internal serve) n n' /\
    match RangeClient.send to_u128_le from_u128_le now msg (server n) with
    | (sv', Ok reply) => server n' = sv' /\ exists c' b, conns n' !! id = Some c' /\
        response c' = Some (IoOk b) /\ decode_response b = Some reply
    | (sv', Err RangeServer.Waiting) => server n' = sv' /\ conns n' !! id = Some c /\
        exists t, (id, (message c, t)) ∈ handling n' /\ Tasks.waits t sv'
    | (sv', _) => server n' = sv' /\ exists c', conns n' !! id = Some c' /\ response c' = Some (IoOk [])
    end.
Proof.
  intros Hreq Hresp Hc Hp Hm Hg Hrn (l1 & l2 & Eh)%list_elem_of_split.
  destruct (run_steps serve n id _ _ l1 l2 Eh) as (n1 & t1 & Hr1 & Hs1 & Hc1 & Eh1 & Ht1).
  rewrite (run_serve (message c) msg) in Hs1, Ht1 by (by rewrite Hm, Hp).
  assert (Hend : forall a, t1 = Tasks.Done a -> exists n' c', rtc (internal serve) n n' /\
    server n' = server n1 /\ conns n' !! id = Some c' /\ response c' = Some (IoOk (default [] a))).
  { intros a ->. destruct (answer_steps serve n1 id c _ _ _ _ Eh1) as (n' & c' & Hr' & ?); [by rewrite Hc1|done..|].
    exists n', c'. split; [by etransitivity|done]. }
  unfold RangeClient.send, m_then in *.
  destruct (RangeServer.handle_message _ _ _ msg (server n)) as [sv' [[reply|]|[e|]|]]; cbn in *.
  - destruct (Hend _ Ht1) as (n' & c' & Hr' & Hs' & Hc' & Hb'). exists n'. split; [done|].
    split; [congruence|]. exists c', (encode_response reply). auto.
  - destruct (Hend _ Ht1) as (n' & c' & Hr' & Hs' & Hc' & Hb'). exists n'. split; [done|].
    split; [congruence|]. by exists c'.
  - destruct (Hend _ Ht1) as (n' & c' & Hr' & Hs' & Hc' & Hb'). exists n'. split; [done|].
    split; [congruence|]. by exists c'.
  - exists n1. split; [done|]. split; [done|]. split; [by rewrite Hc1|].
    exists t1. rewrite Eh1, <- Hs1. split; [apply elem_of_middle_eq|done].
  - destruct (Hend _ Ht1) as (n' & c' & Hr' & Hs' & Hc' & Hb'). exists n'. split; [done|].
    split; [congruence|]. by exists c'.
Qed.
End Server.

(** ** Witnesses *)

(** a connection from its beginning to the loop of the server *)
Section Sample.
Context {S : Type} (handle : Bytes -> Tasks.Task S (option Bytes)) (payload : Bytes).

Definition sample_conn : Connection := connect "c" payload.
Definition sample_read : Connection := read_message (set_arrived (length payload) sample_conn).
Definition sample_listening (s : S) : Network S := listen_default 1 (new s).
Definition sample_sent (n : Network S) : Network S := set_conn 1 sample_conn n.
Definition sample_locking (n : Network S) : Network S :=
  set_lock_queue (lock_queue n ++ [Reader 1])
    (set_conn 1 sample_read (set_conn 1 (set_arrived (length payload) sample_conn) n)).
Definition sample_queued (s : S) : Network S :=
  set_conn 1 (set_task (Waiting true) sample_read)
    (set_queued [(1%positive, (1%positive, message sample_read))]
       (set_lock_queue [] (sample_locking (sample_sent (sample_listening s))))).
Definition sample_taken (s : S) : Network S :=
  set_handling [(1%positive, (message sample_read, handle (message sample_read)))]
    (set_queued [] (sample_queued s)).

Lemma sample_connects n :
  payload <> [] -> conns n = ∅ -> lock_queue n = [] ->
  rtc (fun n n' => internal handle n n' \/ client n n') n (sample_locking (sample_sent n)).
Proof.
  intros Hp Hc Hq. assert (0 < length payload)%nat as Hl by (destruct payload; [done|]; cbn; lia).
  eapply rtc_l; [right; apply (step_send 1 "c" payload); by rewrite Hc|].
  eapply rtc_l; [left; apply (step_arrive handle 1 sample_conn (length payload));
    [apply lookup_insert_eq|cbn; lia]|].
  apply rtc_once. left.
  apply (step_read handle 1 (set_arrived (length payload) sample_conn)
    (set_conn 1 (set_arrived (length payload) sample_conn) (sample_sent n)));
    [apply lookup_insert_eq|done|by left].
Qed.

Lemma sample_dispatched s :
  dispatch 1 sample_read (set_lock_queue [] (sample_locking (sample_sent (sample_listening s)))) =
  sample_queued s.
Proof.
  unfold dispatch. cbn [connections set_lock_queue sample_locking set_conn sample_sent sample_listening
    listen_default new default_handler open_receivers].
  by rewrite lookup_empty, decide_True by (apply elem_of_union_l, elem_of_singleton_2; done).
Qed.

Lemma sample_arrives s :
  payload <> [] ->
  rtc (fun n n' => internal handle n n' \/ client n n') (sample_listening s) (sample_taken s).
Proof.
  intros Hp. etrans; [by apply sample_connects|].
  eapply rtc_l; [left; apply (step_lock_reader handle 1 sample_read []); [done|apply lookup_insert_eq]|].
  rewrite sample_dispatched.
  apply rtc_once. left. apply (step_recv handle 1 1 (message sample_read) [] [] (sample_queued s));
    [done|exact (elem_of_union_l _ _ _ (elem_of_singleton_2 _ _ eq_refl))|apply not_elem_of_nil].
Qed.
End Sample.

Lemma client_steps {S} handle (n n' : Network S) :
  rtc (fun n n' => internal handle n n' \/ client n n') n n' -> rtc (step handle) n n'.
Proof. apply rtc_subrel. intros ? ? [?|?]; [by left|by right; left]. Qed.

Lemma sample_net_reachable {S} handle payload (s : S) :
  payload <> [] -> rtc (step handle) (new s) (sample_taken handle payload s).
Proof.
  intros Hp. eapply rtc_l; [right; right; by apply (step_listen 1)|].
  by apply client_steps, sample_arrives.
Qed.

(** a server that counts its messages and answers them *)
Definition sample_handle (msg : Bytes) : Tasks.Task nat (option Bytes) :=
  Tasks.atomically (fun s => (S s, Some (65%N :: msg))).
Definition sample_answered : Network nat :=
  answer 1 [7%N] (Some [65%N; 7%N]) (set_handling [] (act 1 1 (set_handling
    [(1%positive, ([7%N], Tasks.Done (Some [65%N; 7%N])))] (sample_taken sample_handle [7%N] 0)))).
Definition sample_result : Connection :=
  set_response (IoOk [65%N; 7%N]) (mkConnection "c" [7%N] 1 false [7%N] (Closed [65%N; 7%N]) None).
Definition sample_done : Network nat := set_conn 1 sample_result sample_answered.

Lemma sample_completes :
  rtc (fun n n' => internal sample_handle n n' \/ client n n') (sample_listening 0) sample_done.
Proof.
  etrans; [by apply (sample_arrives sample_handle [7%N] 0)|].
  eapply rtc_l; [left; eapply (step_act sample_handle 1 [7%N] _ [] [] 1); reflexivity|].
  eapply rtc_l; [left; by eapply (step_answer sample_handle 1 [7%N] (Some [65%N; 7%N]) [] [])|].
  apply rtc_once. left. by apply (step_response sample_handle 1
    (mkConnection "c" [7%N] 1 false [7%N] (Closed [65%N; 7%N]) None) [65%N; 7%N] sample_answered).
Qed.

Lemma network_interleaves_requests_witness :
  chain 0 [(1%positive, (0, 1))] 1 /\
  Tasks.plays (sample_handle [7%N]) [(0, 1)] (Tasks.Done (Some [65%N; 7%N])).
Proof.
  destruct (network_interleaves_requests sample_handle 0 sample_done) as (Hr & _ & _ & Ha).
  { eapply rtc_l; [right; right; apply (step_listen 1); intros H; apply elem_of_empty in H; exact H|].
    apply client_steps. exact sample_completes. }
  split; [exact Hr|].
  destruct (Ha 1%positive sample_result [65%N; 7%N]) as (Hp & _); [reflexivity|reflexivity|discriminate|].
  exact Hp.
Defined.

Lemma exchanges_complete_witness : sn (internal sample_handle) sample_done.
Proof.
  destruct (exchanges_complete sample_handle 1 0 sample_done) as [Hsn _]; [|exact Hsn].
  exact sample_completes.
Defined.

(** a connection that is read before the server listens *)
Definition sample_early : Network nat :=
  dispatch 1 (sample_read [7%N]) (set_lock_queue [] (sample_locking [7%N] (sample_sent [7%N] (new 0)))).

Lemma sample_early_reachable : rtc (step sample_handle) (new 0) sample_early.
Proof.
  eapply rtc_r; [apply client_steps, (sample_connects sample_handle [7%N]); done|].
  left. apply (step_lock_reader sample_handle 1 (sample_read [7%N]) []); [done|apply lookup_insert_eq].
Qed.

Lemma early_connection_blocks_witness :
  lost 1 (listen_default 1 sample_early) /\ connections (listen_default 1 sample_early) = ∅.
Proof.
  destruct (early_connection_blocks sample_handle 0 1 sample_early (listen_default 1 sample_early))
    as (Hl & _ & _).
  - apply sample_early_reachable.
  - exists (set_task (Waiting false) (sample_read [7%N])). split_and!; reflexivity.
  - apply rtc_once. right. right. apply step_listen. intros H. apply elem_of_empty in H. exact H.
  - split; [exact Hl|reflexivity].
Defined.

(** a request that the server finds to be malformed *)
Definition sample_request : RangeServer.RequestEnvelope :=
  RangeServer.AbortMessage (RangeServer.mkAbortRequest None None None (RangeManager.mkAbortRequest [])).
Definition sample_reply : RangeServer.ResponseEnvelope :=
  RangeServer.AbortReply (RangeServer.mkStatusResponse None RsError.StatusInvalidRequestFormat).
Definition sample_decode_request (b : Bytes) : option RangeServer.RequestEnvelope :=
  match b with [] => None | _ => Some sample_request end.
Definition sample_encode_response (r : RangeServer.ResponseEnvelope) : Bytes :=
  match r with
  | RangeServer.AbortReply (RangeServer.mkStatusResponse None RsError.StatusInvalidRequestFormat) => [1%N]
  | _ => []
  end.
Definition sample_decode_response (b : Bytes) : option RangeServer.ResponseEnvelope :=
  match b with [] => None | _ => Some sample_reply end.
Definition sample_jobs : RangeTasks.RangeJobs RangeManager.Sample (H := RangeServer.sample_ops) :=
  RangeTasks.manager_jobs (H := RangeManager.sample_storage) (H0 := RangeManager.sample_log)
    (H1 := element_order) Traditional LockContention Storage.sample_db
    (Wal.sample_wal Wal.NotSynced []) 1000000000 0 (fun _ => 0).
Definition sample_serve : Bytes -> Tasks.Task (RangeServer.Server RangeManager.Sample) (option Bytes) :=
  serve (H0 := sample_jobs) (H1 := element_order) byte_swap byte_swap 0 sample_decode_request
    sample_encode_response.

Lemma network_implements_send_witness :
  exists n', rtc (internal sample_serve) (sample_taken sample_serve [7%N] RangeServer.sample_server) n' /\
    exists c' b, conns n' !! 1%positive = Some c' /\ response c' = Some (IoOk b) /\
      sample_decode_response b = Some sample_reply.
Proof.
  destruct (network_implements_send (H0 := sample_jobs) (H1 := element_order) byte_swap byte_swap 0
    (fun _ => [7%N]) sample_decode_request sample_encode_response sample_decode_response
    (sample_taken sample_serve [7%N] RangeServer.sample_server) 1
    (set_task (Waiting true) (sample_read [7%N])) sample_request) as (n' & Hr & Hs); try reflexivity.
  - intros reply E. injection E as <-. reflexivity.
  - apply list_elem_of_here.
  - exists n'. split; [exact Hr|]. destruct Hs as [_ Hs]. exact Hs.
Defined.

End Network.
