(* ===== verification/TestSupport.v ===== *)
(** * Stand-ins of other services: [src/rangeserver/src/for_testing]

    The supplier of epochs of [epoch_supplier.rs], which the tests set by hand,
    and the warden of [mock_warden.rs], which assigns ranges as the tests tell it
    and sends the updates that the handler of [WardenHandler.v] reads. The calls
    of a test come one after the other. *)

From stdpp Require Import base tactics list numbers option gmap sets relations strings sorting.
From S2P Require Import Prelude Common Universe WardenHandler.

Module TestSupport.
Import Common.
Local Open Scope sangria_scope.

(** ** Epochs: [epoch_supplier.rs] *)

(** a call that waits, and the sender that wakes it *)
Record EpochWaiter := mkEpochWaiter { waiter_epoch : Z; waiter_id : positive }.

Record EpochSupplier := mkEpochSupplier {
  epoch : Z;
  waiters : list EpochWaiter;     (** the heap, as the list of what is in it *)
  woken : list positive;
  gone : gset positive;           (** calls that were dropped while they waited *)
  poisoned : bool                 (** the lock, by a panic of its holder *)
}.

Definition new_supplier : EpochSupplier := mkEpochSupplier 0 [] [] ∅ false.

(** [BinaryHeap::peek]: a greatest element; which one of equal ones makes no
    difference to the loop below *)
Fixpoint peek (l : list EpochWaiter) : option EpochWaiter :=
  match l with
  | [] => None
  | w :: l' =>
      match peek l' with
      | Some v => if decide (waiter_epoch w < waiter_epoch v)%Z then Some v else Some w
      | None => Some w
      end
  end.

(** [BinaryHeap::pop] takes it out *)
Fixpoint pop (l : list EpochWaiter) : list EpochWaiter :=
  match l with
  | [] => []
  | w :: l' =>
      match peek l' with
      | Some v => if decide (waiter_epoch w < waiter_epoch v)%Z then w :: pop l' else l'
      | None => l'
      end
  end.

(** the loop of [set_epoch]; each round takes one waiter *)
Fixpoint wake_loop (fuel : nat) (e : Z) (s : EpochSupplier) : EpochSupplier * result unit unit :=
  match fuel with
  | O => (s, Ok tt)
  | S fuel' =>
      match peek (waiters s) with
      | None => (s, Ok tt)
      | Some w =>
          if decide (e < waiter_epoch w)%Z then (s, Ok tt)
          else
            let s' := mkEpochSupplier (epoch s) (pop (waiters s)) (woken s) (gone s) (poisoned s) in
            if decide (waiter_id w ∈ gone s)
            then (mkEpochSupplier (epoch s') (waiters s') (woken s') (gone s') true, Panic)
            else wake_loop fuel' e
                   (mkEpochSupplier (epoch s') (waiters s') (woken s' ++ [waiter_id w]) (gone s') false)
      end
  end.

Definition set_epoch (e : Z) (s : EpochSupplier) : EpochSupplier * result unit unit :=
  if poisoned s then (s, Panic)
  else wake_loop (length (waiters s)) e
         (mkEpochSupplier e (waiters s) (woken s) (gone s) false).

Definition read_epoch (s : EpochSupplier) : result unit Z :=
  if poisoned s then Panic else Ok (epoch s).

(** the part of [wait_until_epoch] under the lock: whether it returns at once *)
Definition wait_until_epoch (id : positive) (e : Z) (s : EpochSupplier)
    : EpochSupplier * result unit bool :=
  if poisoned s then (s, Panic)
  else if decide (e <= epoch s)%Z then (s, Ok true)
  else (mkEpochSupplier (epoch s) (waiters s ++ [mkEpochWaiter e id]) (woken s) (gone s) false, Ok false).

(** a call that waits is dropped *)
Definition drop_wait (id : positive) (s : EpochSupplier) : EpochSupplier :=
  mkEpochSupplier (epoch s) (waiters s) (woken s) ({[id]} ∪ gone s) (poisoned s).

(** ** Assignments: [mock_warden.rs] *)

(** the stream of a range server; a send to a stream whose reader is gone
    fails, one to a full stream waits for its reader *)
Record Stream := mkStream { open : bool; sent : list WardenHandler.ProtoUpdate }.

Record MockWarden := mkMockWarden {
  range_to_host : gmap Uuid string;
  host_ranges : gmap string (gset FullRangeId);
  rs_connections : gmap string positive;
  streams : gmap positive Stream
}.

Definition new_warden : MockWarden := mkMockWarden ∅ ∅ ∅ ∅.

Definition set_ranges (rh : gmap Uuid string) (hr : gmap string (gset FullRangeId)) (w : MockWarden)
    : MockWarden :=
  mkMockWarden rh hr (rs_connections w) (streams w).

Section Warden.
Context `{HashOrder}.
(** [Uuid::to_string] *)
Context (print_uuid : Uuid -> string).

Notation Call := (M MockWarden unit).

Definition range_id_proto (r : FullRangeId) : WardenHandler.ProtoRangeId :=
  WardenHandler.mkProtoRangeId (print_uuid (keyspace_uuid (keyspace_id r))) (print_uuid (range_id r)).

(** [sender.send(Ok(update)).await.unwrap()] *)
Definition send_on (id : positive) (u : WardenHandler.ProtoUpdate) : Call unit := fun w =>
  match streams w !! id with
  | Some (mkStream true us) =>
      (mkMockWarden (range_to_host w) (host_ranges w) (rs_connections w)
         (<[id := mkStream true (us ++ [u])]> (streams w)), Ok tt)
  | _ => (w, Panic)
  end.

Definition send_to (host : string) (u : WardenHandler.ProtoUpdate) : Call unit :=
  let! w := m_get in
  match rs_connections w !! host with
  | None => m_ret tt
  | Some id => send_on id u
  end.

Definition unassign (range : FullRangeId) : Call unit :=
  let! w := m_get in
  let range_to_host' := delete (range_id range) (range_to_host w) in
  match range_to_host w !! range_id range with
  | None => m_modify (set_ranges range_to_host' (host_ranges w))
  | Some previous_host =>
      let! ranges := m_unwrap (host_ranges w !! previous_host) in
      m_modify (set_ranges range_to_host' (<[previous_host := ranges ∖ {[range]}]> (host_ranges w))) ;;;
      send_to previous_host (WardenHandler.IncrementalAssignment 2 [] [range_id_proto range])
  end.

Definition assign (range : FullRangeId) (host : string) : Call unit :=
  unassign range ;;;
  m_modify (fun w => set_ranges (<[range_id range := host]> (range_to_host w))
    (<[host := {[range]} ∪ default ∅ (host_ranges w !! host)]> (host_ranges w)) w) ;;;
  send_to host (WardenHandler.IncrementalAssignment 2 [range_id_proto range] []).

Definition is_connected (host : string) (w : MockWarden) : bool :=
  bool_decide (is_Some (rs_connections w !! host)).

Definition disconnect (host : string) (w : MockWarden) : MockWarden :=
  mkMockWarden (range_to_host w) (host_ranges w) (delete host (rs_connections w)) (streams w).

(** [register_range_server], whose stream is [id] *)
Definition register_range_server (host : string) (id : positive) (w : MockWarden) : MockWarden :=
  let assigned_ranges := match host_ranges w !! host with
                         | None => []
                         | Some ranges => range_id_proto <$> hash_iter ranges
                         end in
  mkMockWarden (range_to_host w) (host_ranges w) (<[host := id]> (rs_connections w))
    (<[id := mkStream true [WardenHandler.FullAssignment 1 assigned_ranges]]> (streams w)).

(** the reader of a stream goes away *)
Definition close_stream (id : positive) (w : MockWarden) : MockWarden :=
  mkMockWarden (range_to_host w) (host_ranges w) (rs_connections w)
    (alter (fun s => mkStream false (sent s)) id (streams w)).

Inductive warden_step : MockWarden -> MockWarden -> Prop :=
| warden_assign range host w w' :
    assign range host w = (w', Ok tt) -> warden_step w w'
| warden_unassign range w w' :
    unassign range w = (w', Ok tt) -> warden_step w w'
| warden_disconnect host w : warden_step w (disconnect host w)
| warden_register host id w :
    streams w !! id = None -> warden_step w (register_range_server host id w)
| warden_close id w : warden_step w (close_stream id w).

(** ** Lemmas: what a range server is told *)

Context (parse_uuid : string -> option Uuid).
Hypothesis parse_print : forall u, parse_uuid (print_uuid u) = Some u.

(** the assignment of a range server that has read an update, or all of them *)
Definition receive (A : gset FullRangeId) (u : WardenHandler.ProtoUpdate) : gset FullRangeId :=
  (WardenHandler.process_warden_update parse_uuid (Some u) A).1.2.
Definition received : gset FullRangeId -> list WardenHandler.ProtoUpdate -> gset FullRangeId :=
  foldl receive.

Lemma from_range_id_proto r : WardenHandler.full_range_id_from_proto parse_uuid (range_id_proto r) = Some r.
Proof. unfold WardenHandler.full_range_id_from_proto. cbn. rewrite !parse_print. by destruct r as [[]]. Qed.

Lemma receive_full A v (ranges : gset FullRangeId) :
  receive A (WardenHandler.FullAssignment v (range_id_proto <$> hash_iter ranges)) = ranges.
Proof.
  unfold receive. cbn [WardenHandler.process_warden_update].
  assert (mapM (WardenHandler.full_range_id_from_proto parse_uuid) (range_id_proto <$> hash_iter ranges)
    = Some (hash_iter ranges)) as ->.
  { apply mapM_Some. apply Forall2_fmap_l, Forall_Forall2_diag, Forall_true. apply from_range_id_proto. }
  cbn. apply set_eq. intros r. rewrite elem_of_list_to_set. apply hash_iter_elem_of.
Qed.

Lemma receive_load A v r :
  receive A (WardenHandler.IncrementalAssignment v [range_id_proto r] []) = {[r]} ∪ A.
Proof. unfold receive. cbn. by rewrite from_range_id_proto. Qed.
Lemma receive_unload A v r :
  receive A (WardenHandler.IncrementalAssignment v [] [range_id_proto r]) = A ∖ {[r]}.
Proof. unfold receive. cbn. by rewrite from_range_id_proto. Qed.

(** every connected server has read of the ranges [hr] *)
Definition informed (hr : gmap string (gset FullRangeId)) (w : MockWarden) : Prop :=
  forall host id, rs_connections w !! host = Some id ->
    exists st, streams w !! id = Some st /\ forall A, received A (sent st) = default ∅ (hr !! host).

Record warden_inv (w : MockWarden) : Prop := {
  inv_informed : informed (host_ranges w) w;
  inv_own_stream host host' id :
    rs_connections w !! host = Some id -> rs_connections w !! host' = Some id -> host = host';
  inv_hosts r host : range_to_host w !! r = Some host -> is_Some (host_ranges w !! host)
}.

Lemma send_informs hr w w' host u :
  informed hr w ->
  (forall h h' id, rs_connections w !! h = Some id -> rs_connections w !! h' = Some id -> h = h') ->
  send_to host u w = (w', Ok tt) ->
  informed (<[host := receive (default ∅ (hr !! host)) u]> hr) w' /\
  range_to_host w' = range_to_host w /\ host_ranges w' = host_ranges w /\
  rs_connections w' = rs_connections w.
Proof.
  intros Hi Hinj. unfold send_to, m_then, m_get. destruct (rs_connections w !! host) as [id|] eqn:Eh.
  - unfold send_on. destruct (Hi host id Eh) as (st & Est & Hst). rewrite Est.
    destruct st as [[] us]; [|done]. intros [= <-]. split_and!; [|done..].
    intros h id' Eh'. cbn in *. destruct (decide (id' = id)) as [->|Hne].
    + assert (h = host) as -> by eauto. rewrite lookup_insert_eq. eexists. split; [done|].
      intros A. cbn. unfold received. rewrite foldl_app. cbn. rewrite lookup_insert_eq. cbn. f_equal.
      apply Hst.
    + rewrite lookup_insert_ne by done. rewrite lookup_insert_ne by congruence. by apply Hi.
  - intros [= <-]. split_and!; [|done..]. intros h id' Eh'.
    rewrite lookup_insert_ne by congruence. by apply Hi.
Qed.

(** the ranges of a host are changed and it is told *)
Lemma change_informs w w' rh host B u :
  warden_inv w -> (forall r h, rh !! r = Some h -> h = host \/ range_to_host w !! r = Some h) ->
  receive (default ∅ (host_ranges w !! host)) u = B ->
  send_to host u (set_ranges rh (<[host := B]> (host_ranges w)) w) = (w', Ok tt) ->
  warden_inv w' /\ range_to_host w' = rh /\ host_ranges w' = <[host := B]> (host_ranges w).
Proof.
  intros [Hi Hinj Hh] Hrh HB Es.
  destruct (send_informs (host_ranges w) _ _ _ _ (Hi : informed _ (set_ranges _ _ w)) Hinj Es)
    as (Hi' & Erh & Ehr & Ec). cbn in *. rewrite HB in Hi'. split_and!; [|done..]. split.
  - by rewrite Ehr.
  - by rewrite Ec.
  - rewrite Erh, Ehr. intros r h Hr. destruct (decide (h = host)) as [->|Hne].
    + by rewrite lookup_insert_eq.
    + rewrite lookup_insert_ne by done. destruct (Hrh r h Hr) as [|]; [done|]. by eapply Hh.
Qed.

Lemma unassign_inv range w w' :
  warden_inv w -> unassign range w = (w', Ok tt) ->
  warden_inv w' /\ range_to_host w' = delete (range_id range) (range_to_host w).
Proof.
  intros Hw. pose proof Hw as [Hi Hinj Hh]. unfold unassign. erewrite then_ok by done.
  destruct (range_to_host w !! range_id range) as [host|] eqn:Er.
  - destruct (Hh _ _ Er) as [ranges Eh]. rewrite Eh. erewrite then_ok by done. erewrite then_ok by done.
    intros Es. edestruct (change_informs w w') as (? & ? & _); [exact Hw| | |exact Es|done].
    + intros r h [_ Hr]%lookup_delete_Some. by right.
    + rewrite Eh. apply receive_unload.
  - intros [= <-]. split; [|done]. split; [done..|]. cbn. intros r h [_ Hr]%lookup_delete_Some.
    by eapply Hh.
Qed.

Lemma assign_inv range host w w' :
  warden_inv w -> assign range host w = (w', Ok tt) -> warden_inv w'.
Proof.
  intros Hw. unfold assign, m_then at 1. destruct (unassign range w) as [w1 [[]|e|]] eqn:E1; try done.
  destruct (unassign_inv _ _ _ Hw E1) as [Hw1 _]. erewrite then_ok by done. intros Es.
  edestruct (change_informs w1 w') as (? & _); [exact Hw1| | |exact Es|done].
  - intros r h. destruct (decide (r = range_id range)) as [->|].
    + rewrite lookup_insert_eq. intros [= <-]. by left.
    + rewrite lookup_insert_ne by done. by right.
  - apply receive_load.
Qed.

Lemma warden_step_inv w w' : warden_inv w -> warden_step w w' -> warden_inv w'.
Proof.
  intros Hw. destruct 1 as [range host w w' E|range w w' E|host w|host id w Hn|id w].
  - by eapply assign_inv.
  - by eapply unassign_inv.
  - destruct Hw as [Hi Hinj Hh]. split; [|..|done]; cbn.
    + intros h id Hc. cbn in Hc. apply lookup_delete_Some in Hc as [_ Hc]. by apply Hi.
    + intros h h' id [_ ?]%lookup_delete_Some [_ ?]%lookup_delete_Some. by eapply Hinj.
  - destruct Hw as [Hi Hinj Hh]. assert (forall h, rs_connections w !! h <> Some id) as Hnew.
    { intros h (st & Hst & _)%Hi. congruence. }
    split; [|..|done]; cbn.
    + intros h id'. destruct (decide (h = host)) as [->|Hne].
      * cbn. rewrite lookup_insert_eq. intros [= <-]. rewrite lookup_insert_eq.
        eexists. split; [done|]. intros A. cbn.
        destruct (host_ranges w !! host) as [ranges|]; [apply receive_full|done].
      * cbn. rewrite lookup_insert_ne by done. intros Hc.
        rewrite lookup_insert_ne by (intros <-; by apply (Hnew h)). by apply Hi.
    + intros h h' id' H1 H2. apply lookup_insert_Some in H1 as [[-> <-]|[? H1]];
        apply lookup_insert_Some in H2 as [[-> E]|[? H2]]; subst; try done.
      * by destruct (Hnew h').
      * by destruct (Hnew h).
      * by eapply Hinj.
  - destruct Hw as [Hi Hinj Hh]. split; [|done..]. cbn. intros h id' Hc.
    destruct (Hi h id' Hc) as (st & Hst & HA). cbn. destruct (decide (id' = id)) as [->|].
    + rewrite lookup_alter_eq, Hst. by eexists.
    + rewrite lookup_alter_ne by done. by exists st.
Qed.

(** ** Properties *)

(** The warden of the tests keeps the range servers informed. After any sequence
    of assignments, registrations and lost connections, the handler of a
    connected range server that has read the updates of its stream, whatever it
    had before, has exactly the ranges that the warden holds for its host. *)
Theorem mock_warden_informs w host id :
  rtc warden_step new_warden w -> rs_connections w !! host = Some id ->
  exists st, streams w !! id = Some st /\
    forall A, received A (sent st) = default ∅ (host_ranges w !! host).
Proof.
  intros Hr. assert (warden_inv new_warden) as H0 by done.
  assert (warden_inv w) as Hw by (revert H0; induction Hr; eauto using warden_step_inv).
  apply Hw.
Qed.
End Warden.

(** ** Lemmas: the heap of the waiters *)

Lemma peek_none l : peek l = None -> l = [].
Proof. destruct l as [|w l]; [done|]. cbn. repeat case_match; done. Qed.

Lemma peek_pop l w :
  peek l = Some w -> l ≡ₚ w :: pop l /\ forall v, v ∈ l -> (waiter_epoch v <= waiter_epoch w)%Z.
Proof.
  revert w. induction l as [|x l IH]; intros w; [done|]. cbn.
  destruct (peek l) as [y|] eqn:Ey.
  - destruct (IH y eq_refl) as [Hp Hm]. case_decide as Hlt; intros [= <-].
    + split; [rewrite Hp at 1; apply Permutation_swap|].
      intros v [->|Hv]%elem_of_cons; [lia|by apply Hm].
    + split; [done|]. intros v [->|Hv]%elem_of_cons; [lia|]. apply Hm in Hv. lia.
  - intros [= <-]. apply peek_none in Ey as ->. split; [done|].
    intros v ->%list_elem_of_singleton. lia.
Qed.

Lemma wake_loop_all fuel e s :
  length (waiters s) <= fuel -> poisoned s = false ->
  (forall w, w ∈ waiters s -> waiter_id w ∉ gone s /\ (waiter_epoch w <= e)%Z) ->
  exists s', wake_loop fuel e s = (s', Ok tt) /\ epoch s' = epoch s /\ waiters s' = [] /\
    woken s' ≡ₚ woken s ++ (waiter_id <$> waiters s).
Proof.
  revert s. induction fuel as [|fuel IH]; intros s Hl Hp Hw; cbn.
  { exists s. destruct (waiters s) eqn:E; [|cbn in Hl; lia]. by rewrite app_nil_r. }
  destruct (peek (waiters s)) as [w|] eqn:Ew.
  - destruct (peek_pop _ _ Ew) as [Hperm _]. destruct (Hw w) as [Hg He].
    { rewrite Hperm. apply list_elem_of_here. }
    rewrite decide_False by lia. rewrite decide_False by done.
    edestruct IH as (s' & E & He' & Hn & Hk); [| | |exists s'; split; [exact E|]].
    + cbn. rewrite Hperm in Hl. cbn in Hl. lia.
    + done.
    + cbn. intros v Hv. apply Hw. rewrite Hperm. by apply list_elem_of_further.
    + split_and!; [done..|]. rewrite Hk. cbn. rewrite <- app_assoc. cbn.
      apply Permutation_app_head. symmetry. apply (fmap_Permutation waiter_id _ _ Hperm).
  - apply peek_none in Ew. exists s. rewrite Ew. by rewrite app_nil_r.
Qed.

(** Setting the epoch wakes everybody who waits, or nobody. If the new epoch is
    that of every waiter or a later one, all are woken. If only one of them
    waits for an epoch beyond it, none is, not even those whose epoch has come:
    the loop looks at the latest epoch first, and stops there. *)
Theorem set_epoch_wakes_all_or_none e s :
  poisoned s = false -> (forall w, w ∈ waiters s -> waiter_id w ∉ gone s) ->
  exists s', set_epoch e s = (s', Ok tt) /\ epoch s' = e /\
    ((forall w, w ∈ waiters s -> (waiter_epoch w <= e)%Z) ->
       waiters s' = [] /\ woken s' ≡ₚ woken s ++ (waiter_id <$> waiters s)) /\
    ((exists w, w ∈ waiters s /\ (e < waiter_epoch w)%Z) ->
       waiters s' = waiters s /\ woken s' = woken s).
Proof.
  intros Hp Hg. unfold set_epoch. rewrite Hp.
  destruct (decide (Forall (fun w => waiter_epoch w <= e)%Z (waiters s))) as [Ha|Ha].
  - rewrite Forall_forall in Ha.
    destruct (wake_loop_all (length (waiters s)) e (mkEpochSupplier e (waiters s) (woken s) (gone s) false))
      as (s' & E & He & Hn & Hk); [done..|by auto|].
    exists s'. split_and!; [done..|]. intros (w & Hw & Hlt). apply Ha in Hw. lia.
  - apply not_Forall_Exists, Exists_exists in Ha as (w & Hw & Hlt); [|apply _]. cbn in Hlt.
    exists (mkEpochSupplier e (waiters s) (woken s) (gone s) false).
    split_and!; [|done| |done].
    + destruct (length (waiters s)) as [|fuel] eqn:El; [done|]. cbn.
      destruct (peek (waiters s)) as [x|] eqn:Ex; [|done].
      destruct (peek_pop _ _ Ex) as [_ Hm]. apply Hm in Hw. by rewrite decide_True by lia.
    + intros Ha. apply Ha in Hw. lia.
Qed.

(** ** Witnesses *)

Definition sample_range : FullRangeId := mkFullRangeId (mkKeyspaceId 2) 1.
#[local] Existing Instance element_order.

Definition sample_registered : MockWarden :=
  register_range_server Universe.unary_print "host" 1 new_warden.
Definition sample_assigned : MockWarden :=
  (assign Universe.unary_print sample_range "host" sample_registered).1.

Lemma mock_warden_informs_witness :
  exists st, streams sample_assigned !! 1%positive = Some st /\
    received Universe.unary_parse ∅ (sent st) = {[sample_range]}.
Proof.
  destruct (mock_warden_informs Universe.unary_print Universe.unary_parse Universe.unary_roundtrip
    sample_assigned "host" 1) as (st & Hst & HA).
  - eapply rtc_l; [apply (warden_register Universe.unary_print "host" 1); reflexivity|].
    apply rtc_once. apply (warden_assign Universe.unary_print sample_range "host").
    vm_compute. reflexivity.
  - vm_compute. reflexivity.
  - exists st. split; [exact Hst|]. rewrite HA. vm_compute. reflexivity.
Defined.

(** one call waits for epoch 5 and one for epoch 9 *)
Definition sample_supplier : EpochSupplier :=
  (wait_until_epoch 2 9 (wait_until_epoch 1 5 new_supplier).1).1.

Lemma set_epoch_wakes_all_or_none_witness :
  woken (set_epoch 7 sample_supplier).1 = [] /\ length (waiters (set_epoch 7 sample_supplier).1) = 2.
Proof.
  destruct (set_epoch_wakes_all_or_none 7 sample_supplier) as (s' & E & _ & _ & Hnone);
    [reflexivity|intros w _; apply not_elem_of_empty|].
  rewrite E. destruct Hnone as [Hw Hk].
  - exists (mkEpochWaiter 9 2). split; [apply (list_elem_of_lookup_2 _ 1); reflexivity|reflexivity].
  - split; [exact Hk|cbn; rewrite Hw; reflexivity].
Defined.

End TestSupport.
