(* ===== verification/Histograms.v ===== *)
(** * Histograms of the waiters of a range:
      [src/rangeserver/src/range_manager/labeled_histograms.rs]

    The numbers of clients for which a distribution of waiting and pending
    transactions was measured, and the one of them that is nearest to a
    distribution. The sums run over hash maps, in the order that the maps give. *)

From Stdlib Require Import Floats.SpecFloat.
From stdpp Require Import base tactics list numbers option gmap sets.
From S2P Require Import Prelude Float64.

Module Histograms.

(** the positive number [m * 2 ^ e] *)
Definition pos64 (m : positive) (e : Z) : spec_float := S754_finite false m e.

Definition LABELED_HISTOGRAMS : list (Z * gmap Z spec_float) :=
  [(1, list_to_map [
      (0, (pos64 4503599627370496 (-52)))]);
   (5, list_to_map [
      (0, (pos64 8544707431994661 (-53)));
      (1, (pos64 6908307625594362 (-57)));
      (2, (pos64 7567894060950907 (-61)));
      (3, (pos64 4753448841597137 (-65)))]);
   (10, list_to_map [
      (0, (pos64 8068998674576120 (-53)));
      (1, (pos64 6196937871968234 (-56)));
      (2, (pos64 8930947059139313 (-59)));
      (3, (pos64 5182205667386014 (-61)));
      (4, (pos64 6424264052626368 (-64)));
      (5, (pos64 5385910678455269 (-66)))]);
   (25, list_to_map [
      (0, (pos64 6856852537961066 (-53)));
      (1, (pos64 5706697354977135 (-55)));
      (2, (pos64 8113663505967054 (-57)));
      (3, (pos64 5372425237195014 (-58)));
      (4, (pos64 4982922265506349 (-60)));
      (5, (pos64 8638587342699058 (-63)));
      (6, (pos64 5385910678455269 (-65)))]);
   (50, list_to_map [
      (0, (pos64 5492430513670802 (-53)));
      (1, (pos64 7363825314395995 (-55)));
      (2, (pos64 7973955864673298 (-56)));
      (3, (pos64 6851594338027922 (-57)));
      (4, (pos64 5487397712729406 (-58)));
      (5, (pos64 7473933714372251 (-60)));
      (6, (pos64 7733037550866533 (-62)));
      (7, (pos64 7766135720224315 (-65)));
      (8, (pos64 5385910678455343 (-65)));
      (9, (pos64 5385910678455269 (-66)))]);
   (100, list_to_map [
      (0, (pos64 7642618517900599 (-54)));
      (1, (pos64 7674177226225202 (-55)));
      (2, (pos64 5161146447068147 (-55)));
      (3, (pos64 7181609736614862 (-56)));
      (4, (pos64 8744653507404005 (-57)));
      (5, (pos64 4840323045639855 (-57)));
      (6, (pos64 4532861767128680 (-58)));
      (7, (pos64 7691591193875210 (-60)));
      (8, (pos64 5124963984981144 (-61)));
      (9, (pos64 6201241790326952 (-63)));
      (10, (pos64 5077091631376818 (-64)))]);
   (200, list_to_map [
      (0, (pos64 9007173499297530 (-55)));
      (1, (pos64 6186511448714227 (-55)));
      (2, (pos64 4709190784754021 (-55)));
      (3, (pos64 8277878311990604 (-56)));
      (4, (pos64 7207210443314092 (-56)));
      (5, (pos64 5800664549169701 (-56)));
      (6, (pos64 8663395467885129 (-57)));
      (7, (pos64 5907407305734100 (-57)));
      (8, (pos64 6888116403204229 (-58)));
      (9, (pos64 8153487792307048 (-59)));
      (10, (pos64 8452578478550689 (-60)));
      (11, (pos64 8517973098803999 (-61)));
      (12, (pos64 6617248116745340 (-62)));
      (13, (pos64 4718701953920536 (-63)));
      (14, (pos64 4854406335186685 (-66)))]);
   (500, list_to_map [
      (0, (pos64 8038748197907034 (-55)));
      (1, (pos64 4909552870075660 (-55)));
      (2, (pos64 7508660391237631 (-56)));
      (3, (pos64 6649420444026694 (-56)));
      (4, (pos64 5908537374702351 (-56)));
      (5, (pos64 5126476248083636 (-56)));
      (6, (pos64 8201043624189646 (-57)));
      (7, (pos64 6108095423597576 (-57)));
      (8, (pos64 4565354004133423 (-57)));
      (9, (pos64 6492777869253860 (-58)));
      (10, (pos64 5089956724615095 (-58)));
      (11, (pos64 6612235492438332 (-59)));
      (12, (pos64 5123129988070104 (-59)));
      (13, (pos64 8460493186879220 (-60)));
      (14, (pos64 6795516512656503 (-60)));
      (15, (pos64 5375658318230995 (-60)));
      (16, (pos64 4736992355075700 (-60)));
      (17, (pos64 5174292616925896 (-60)));
      (18, (pos64 8828228284762273 (-61)));
      (19, (pos64 6758784928532549 (-61)));
      (20, (pos64 6120184096224724 (-61)))])]%Z.

Section Operations.
Context `{HashOrder}.

(** [powi(2)] *)
Definition square (a : spec_float) : spec_float := Float64.mul a a.

Definition euclidean_distance (base other : gmap Z spec_float) : spec_float :=
  let all_keys := hash_iter (dom base ∪ dom other) in
  let difference key := Float64.sub (default Float64.zero (base !! key)) (default Float64.zero (other !! key)) in
  Float64.sqrt (foldl (fun d key => Float64.add d (square (difference key))) Float64.zero all_keys).

(** [Iterator::min_by] with [partial_cmp(..).unwrap()]: of equal elements the first *)
Fixpoint min_by (best : Z * spec_float) (l : list (Z * spec_float)) : result unit (Z * spec_float) :=
  match l with
  | [] => Ok best
  | x :: l' =>
      match Float64.partial_cmp best.2 x.2 with
      | None => Panic
      | Some Gt => min_by x l'
      | Some _ => min_by best l'
      end
  end.

Definition normalized (h : gmap Z spec_float) (total : Z) : gmap Z spec_float :=
  (fun v => Float64.div v (Float64.of_Z total)) <$> h.

Definition find_closest_label (waiters_and_pending_histogram : gmap Z spec_float)
    (total_waiters_and_pending : Z) : result unit (option Z) :=
  let normalized_histogram := normalized waiters_and_pending_histogram total_waiters_and_pending in
  match (fun row => (row.1, euclidean_distance normalized_histogram row.2)) <$> LABELED_HISTOGRAMS with
  | [] => Ok None
  | best :: rest =>
      match min_by best rest with
      | Ok nearest => Ok (Some nearest.1)
      | Err e => Err e
      | Panic => Panic
      end
  end.

(** [f64::ln], of the mathematical library of the platform *)
Context (ln : spec_float -> spec_float).

Definition compute_entropy (waiters_and_pending_histogram : gmap Z spec_float)
    (total_waiters_and_pending : Z) : spec_float :=
  foldl (fun entropy (kv : Z * spec_float) =>
    let p := Float64.div kv.2 (Float64.of_Z total_waiters_and_pending) in
    Float64.sub entropy (Float64.mul p (ln p)))
    Float64.zero (hash_iter_map waiters_and_pending_histogram).

(** ** Lemmas *)

Lemma min_by_spec best l x :
  min_by best l = Ok x -> best.2 <> S754_nan ->
  x ∈ best :: l /\ forall y, y ∈ best :: l -> Float64.at_most x.2 y.2.
Proof.
  revert best. induction l as [|z l IH]; intros best; cbn.
  { intros [= <-] Hn. split; [apply list_elem_of_here|]. intros y ->%list_elem_of_singleton.
    by apply Float64.at_most_refl. }
  destruct (Float64.partial_cmp best.2 z.2) as [c|] eqn:Ec; [|done].
  assert (Hz : z.2 <> S754_nan) by (intros Hz; rewrite Hz in Ec; by destruct best as [? [|[]| |[]]]).
  intros Hm Hb. destruct (Float64.at_most_total _ _ _ Ec) as [Hle|[-> Hle]].
  - assert (min_by best l = Ok x) as Hm' by (destruct Hle as (c' & E' & Hc); rewrite Ec in E'; simplify_eq; by destruct c').
    destruct (IH best Hm' Hb) as [Hin Hall]. split; [set_solver|].
    intros y [->|[->|Hy]%elem_of_cons]%elem_of_cons; [apply Hall, list_elem_of_here| |apply Hall; set_solver].
    eapply Float64.at_most_trans; [apply Hall, list_elem_of_here|done].
  - destruct (IH z Hm Hz) as [Hin Hall]. split; [set_solver|].
    intros y [->|Hy]%elem_of_cons; [|by apply Hall].
    eapply Float64.at_most_trans; [apply Hall, list_elem_of_here|done].
Qed.

Lemma min_by_total best l :
  (forall y, y ∈ best :: l -> y.2 <> S754_nan) -> exists x, min_by best l = Ok x.
Proof.
  revert best. induction l as [|z l IH]; intros best Hn; [by exists best|]. cbn.
  pose proof (Float64.partial_cmp_some best.2 z.2 (Hn best ltac:(set_solver)) (Hn z ltac:(set_solver))).
  destruct (Float64.partial_cmp best.2 z.2) as [[]|]; [| | |done]; apply IH; set_solver.
Qed.

Lemma add_nan_l a : Float64.add S754_nan a = S754_nan.
Proof. by destruct a. Qed.
Lemma add_nan_r a : Float64.add a S754_nan = S754_nan.
Proof. by destruct a. Qed.

Lemma fold_nan {A} (f : A -> spec_float) l d :
  d = S754_nan \/ (exists x, x ∈ l /\ f x = S754_nan) ->
  foldl (fun d x => Float64.add d (f x)) d l = S754_nan.
Proof.
  revert d. induction l as [|x l IH]; intros d; cbn; [by intros [->|(? & ?%elem_of_nil & _)]|].
  intros [->|(y & [->|Hy]%elem_of_cons & E)]; apply IH.
  - left. apply add_nan_l.
  - left. rewrite E. apply add_nan_r.
  - right. by exists y.
Qed.

(** a value that is not a number makes every distance one *)
Lemma distance_nan base other k :
  base !! k = Some S754_nan -> euclidean_distance base other = S754_nan.
Proof.
  intros Hk. unfold euclidean_distance. rewrite (fold_nan (fun key => square _)); [done|].
  right. exists k. split.
  - apply hash_iter_elem_of. apply elem_of_union. left. by apply elem_of_dom_2 in Hk.
  - rewrite Hk. cbn. unfold square. by destruct (default Float64.zero (other !! k)).
Qed.

Lemma table_rows : exists r1 r2 rest, LABELED_HISTOGRAMS = r1 :: r2 :: rest.
Proof. do 3 eexists. reflexivity. Qed.

(** ** Properties *)

(** The label that is found is that of a nearest histogram: no row of the table
    has a smaller distance to the distribution. There is a label whenever all the
    distances are numbers. *)
Theorem closest_label_is_nearest h total :
  let d row := euclidean_distance (normalized h total) row in
  (forall row, row ∈ LABELED_HISTOGRAMS -> d row.2 <> S754_nan) ->
  exists row, row ∈ LABELED_HISTOGRAMS /\ find_closest_label h total = Ok (Some row.1) /\
    forall other, other ∈ LABELED_HISTOGRAMS -> Float64.at_most (d row.2) (d other.2).
Proof.
  cbv zeta. unfold find_closest_label. set (d := euclidean_distance (normalized h total)). clearbody d.
  intros Hn.
  destruct table_rows as (first & second & others & El). rewrite El in *. set (rest := second :: others) in *.
  clearbody rest. cbn [fmap list_fmap].
  destruct (min_by_total (first.1, d first.2) ((fun row => (row.1, d row.2)) <$> rest)) as [x Ex].
  { intros y [->|(row & -> & Hr)%list_elem_of_fmap]%elem_of_cons; apply Hn; set_solver. }
  destruct (min_by_spec _ _ _ Ex) as [Hin Hall]; [apply Hn; set_solver|].
  assert (exists row, row ∈ first :: rest /\ x = (row.1, d row.2)) as (row & Hr & ->).
  { apply elem_of_cons in Hin as [->|(row & -> & Hr)%list_elem_of_fmap]; [exists first|exists row]; set_solver. }
  exists row. split_and!; [done|by rewrite Ex|].
  intros other Ho. apply (Hall (other.1, d other.2)).
  apply elem_of_cons in Ho as [->|Ho]; [apply list_elem_of_here|].
  apply list_elem_of_further. apply list_elem_of_fmap. by exists other.
Qed.

(** Without any waiting or pending transaction in the total there is no label: a
    histogram with a count of zero and a total of zero has a value that is not a
    number, and the comparison of the distances panics. *)
Theorem empty_total_panics h k :
  h !! k = Some Float64.zero -> find_closest_label h 0 = Panic.
Proof.
  intros Hk. assert (normalized h 0 !! k = Some S754_nan) as Hn.
  { unfold normalized. by rewrite lookup_fmap, Hk. }
  unfold find_closest_label.
  destruct table_rows as (r1 & r2 & rest & ->).
  cbn [fmap list_fmap min_by snd]. by rewrite !(distance_nan _ _ k).
Qed.
End Operations.

(** ** Witnesses *)

#[local] Existing Instance element_order.

(** the rows of the table have their own labels *)
Definition own_label (row : Z * gmap Z spec_float) : bool :=
  match find_closest_label row.2 1 with
  | Ok (Some label) => bool_decide (label = row.1)
  | _ => false
  end.
Lemma rows_have_their_labels : forallb own_label LABELED_HISTOGRAMS = true.
Proof. vm_compute. reflexivity. Qed.

Definition is_number (a : spec_float) : bool := match a with S754_nan => false | _ => true end.

Lemma closest_label_is_nearest_witness :
  exists row, row ∈ LABELED_HISTOGRAMS /\ find_closest_label ∅ 1 = Ok (Some row.1).
Proof.
  destruct (closest_label_is_nearest ∅ 1) as (row & Hr & E & _).
  - assert (forallb (fun row => is_number (euclidean_distance (normalized ∅ 1) row.2)) LABELED_HISTOGRAMS = true)
      as Hn by (vm_compute; reflexivity).
    intros row Hr E. rewrite forallb_forall in Hn. apply list_elem_of_In, Hn in Hr. rewrite E in Hr.
    discriminate Hr.
  - exists row. split; [exact Hr|exact E].
Defined.

Lemma empty_total_panics_witness : find_closest_label {[0%Z := Float64.zero]} 0 = Panic.
Proof. apply (empty_total_panics _ 0). reflexivity. Defined.

End Histograms.
