(* ===== verification/Workload.v ===== *)
(** * The workload generator: [src/workload-generator/src]

    The generator creates key spaces with one range per key, and runs
    transactions on them with a bounded concurrency, one sequence of phases for
    each of the workloads of its configuration, until every phase has run its
    number of transactions or a signal stops it. What it uses of the crate
    [rand] is the class [RandCrate]. *)

From Stdlib Require Import Ascii Floats.SpecFloat.
From stdpp Require Import base tactics list numbers option gmap sets relations strings sorting pretty.
From S2P Require Import Prelude Float64 Common Region Config Universe Oracle RangeGrpc.

Module Workload.
Import Common.
Local Open Scope string_scope.

(** ** Configuration *)

Record WorkloadConfig := mkWorkloadConfig {
  num_queries : option N;
  num_keys : N;
  zipf_exponent : spec_float;
  wl_namespace : string;
  wl_name : string;
  max_concurrency : string;
  seed : option N;
  background_runtime_core_ids : list N;
  fake_transactions : bool;
  workload_type : string
}.

(** the name of the key space of a workload *)
Definition workload_name (c : WorkloadConfig) (workload_id : nat) : string :=
  match workload_id with
  | O => wl_name c
  | _ => wl_name c +:+ "_" +:+ pretty (N.of_nat workload_id)
  end.
Definition workload_keyspace (c : WorkloadConfig) (workload_id : nat) : Keyspace :=
  mkKeyspace (wl_namespace c) (workload_name c workload_id).

(** one workload for each piece of the text *)
Definition semicolon : ascii := ";".
Definition comma : ascii := ",".
Definition workloads (c : WorkloadConfig) : list string := Region.split semicolon (max_concurrency c).

(** the phases of a workload: concurrency and number of transactions, as lists of
    numbers of any length; [None] is a panic *)
Definition concurrency_configs (c : WorkloadConfig) (s : string) : option (list (list N)) :=
  if Region.occurs Region.colon s then
    mapM (fun s => mapM Config.parse_u64 (Region.split Region.colon s)) (Region.split comma s)
  else
    (fun n => [[n; default (2 ^ 64 - 1)%N (num_queries c)]]) <$> Config.parse_u64 s.

(** [concurrency_config[0]] and [concurrency_config[1]] *)
Definition phase_of (l : list N) : option (N * N) :=
  match l with
  | max_concurrency :: num_queries :: _ => Some (max_concurrency, num_queries)
  | _ => None
  end.

(** ** Key spaces *)

(** [to_be_bytes] of a number of [w] bytes *)
Fixpoint be_bytes (w : nat) (n : N) : Bytes :=
  match w with
  | O => []
  | S w' => ((n / 256 ^ N.of_nat w') `mod` 256)%N :: be_bytes w' n
  end.
Definition to_be_bytes : N -> Bytes := be_bytes 8.

(** the conversion of a zone, and the numbers of the public clouds on the wire *)
Definition public_cloud_number (c : Region.PublicCloud) : Z :=
  match c with Region.ProtoAws => 0 | Region.ProtoAzure => 1 | Region.ProtoGcp => 2 end.
Definition zone_message (z : Region.ProtoZone) : Universe.Zone :=
  Universe.mkZone
    ((fun r => Universe.mkRegion
        ((fun c => match c with
                   | Region.ProtoPublic c => Universe.PublicCloud (public_cloud_number c)
                   | Region.ProtoOther s => Universe.OtherCloud s
                   end) <$> Region.proto_cloud r)
        (Region.proto_region_name r)) <$> Region.proto_region z)
    (Region.proto_zone_name z).

(** one range for every key *)
Definition key_ranges (num_keys : N) : list Universe.KeyRangeRequest :=
  (fun i => Universe.mkKeyRangeRequest (to_be_bytes (N.of_nat i)) (to_be_bytes (N.of_nat i + 1)))
    <$> seq 0 (N.to_nat num_keys).

(** the request of [create_keyspace] *)
Definition create_keyspace_request (c : WorkloadConfig) (namespace name : string)
    : Universe.CreateKeyspaceRequest :=
  Universe.mkCreateKeyspaceRequest namespace name
    (Some (zone_message (Region.zone_into_proto
       (Region.mkZone (Region.mkRegion None "test-region") "a"))))
    (key_ranges (num_keys c)).

(** [run_workload] of [main.rs]: a second key space for a mixed workload *)
Definition created_keyspaces (c : WorkloadConfig) (create_keyspace : bool) : list Keyspace :=
  if create_keyspace then
    mkKeyspace (wl_namespace c) (wl_name c) ::
    (if Region.occurs semicolon (max_concurrency c)
     then [mkKeyspace (wl_namespace c) (wl_name c +:+ "_1")] else [])
  else [].

(** ** Keys *)

(** [rand]: a state and what is drawn from it *)
Class RandCrate (Rng : Type) : Type := {
  (* [StdRng::seed_from_u64] *)
  seed_from_u64 : N -> Rng;
  (* [IteratorRandom::choose_multiple] *)
  choose_multiple : Rng -> list N -> nat -> Rng * list N;
  (* [WeightedIndex::new] and [sample]; [None] is an error *)
  weighted_index : Rng -> list spec_float -> option (Rng * nat);
  (* a choice of positions: no element is taken more often than it is there *)
  choose_multiple_ok r l n : exists rest, l ≡ₚ (choose_multiple r l n).2 ++ rest /\
    length (choose_multiple r l n).2 = Nat.min n (length l);
  weighted_index_ok r ws r' i : weighted_index r ws = Some (r', i) -> (i < length ws)%nat
}.

#[local] Instance N_le_total : Total N.le.
Proof. intros a b. lia. Qed.

(** [Vec<usize>::sort] *)
Definition sort_keys : list N -> list N := merge_sort N.le.

(** [Vec::remove] *)
Definition remove_at {A} (i : nat) (l : list A) : list A := take i l ++ drop (S i) l.

Section Keys.
Context `{RandCrate Rng}.
(** [f64::powf], of the mathematical library of the platform *)
Context (powf : spec_float -> spec_float -> spec_float).

(** [zipf_sample_without_replacement] *)
Definition zipf_weights (c : WorkloadConfig) : list spec_float :=
  (fun i => Float64.div (Float64.of_Z 1)
              (powf (Float64.of_Z (Z.of_nat (S i))) (zipf_exponent c))) <$> seq 0 (N.to_nat (num_keys c)).
Definition normalize (weights : list spec_float) : list spec_float :=
  let total_weight := foldl Float64.add Float64.zero weights in
  (fun w => Float64.div w total_weight) <$> weights.

Fixpoint zipf_loop (sample_count : nat) (rng : Rng) (weights : list spec_float)
    (available_keys chosen_keys : list N) : option (Rng * list N) :=
  match sample_count with
  | O => Some (rng, chosen_keys)
  | S n =>
      match available_keys, weights with
      | [], _ | _, [] => Some (rng, chosen_keys)
      | _, _ =>
          '(rng', idx) ← weighted_index rng weights;
          key ← available_keys !! idx;
          zipf_loop n rng' (remove_at idx weights) (remove_at idx available_keys)
            (chosen_keys ++ [key])
      end
  end.

Definition zipf_sample_without_replacement (c : WorkloadConfig) (sample_count : nat) (rng : Rng)
    : option (Rng * list N) :=
  '(rng', chosen) ← zipf_loop sample_count rng (normalize (zipf_weights c))
     (N.of_nat <$> seq 0 (N.to_nat (num_keys c))) [];
  Some (rng', sort_keys chosen).

(** the keys of a transaction; [txs] are the lines of the file of the workload
    [ycsb], which are taken from the end *)
Definition transaction_keys (c : WorkloadConfig) (rng : Rng) (txs : option (list string))
    : option (Rng * option (list string) * list N) :=
  if decide (workload_type c = "custom") then
    let (rng', keys) := choose_multiple rng (N.of_nat <$> seq 0 (N.to_nat (num_keys c))) 2 in
    Some (rng', txs, sort_keys keys)
  else if decide (workload_type c = "ycsb") then
    lines ← txs;
    line ← last lines;
    key ← Config.parse_u64 line;
    Some (rng, Some (take (pred (length lines)) lines), [key])
  else None.
End Keys.

(** ** Fake transactions: [transaction_impl/fake_transaction.rs] *)

Record FakeTransaction := mkFakeTransaction {
  fake_id : Uuid;
  fake_keyspace : Keyspace;
  writeset : list N;
  dependencies : gset Uuid
}.

(** the loop of [new] over the keys: the last writer of a key is a dependency *)
Fixpoint claim_keys (id : Uuid) (keys : list N) (deps : gset Uuid) (table : gmap N Uuid)
    : gset Uuid * gmap N Uuid :=
  match keys with
  | [] => (deps, table)
  | key :: keys' =>
      let deps' := match table !! key with Some d => {[d]} ∪ deps | None => deps end in
      claim_keys id keys' deps' (<[key := id]> table)
  end.

Definition new_fake (id : Uuid) (ks : Keyspace) (keys : list N) (table : gmap N Uuid)
    : FakeTransaction * gmap N Uuid :=
  let (deps, table') := claim_keys id keys ∅ table in
  (mkFakeTransaction id ks keys deps, table').

(** transactions created one after the other *)
Fixpoint create_fakes (ks : Keyspace) (txs : list (Uuid * list N)) (table : gmap N Uuid)
    : list FakeTransaction * gmap N Uuid :=
  match txs with
  | [] => ([], table)
  | (id, keys) :: txs' =>
      let (t, table1) := new_fake id ks keys table in
      let (ts, table2) := create_fakes ks txs' table1 in
      (t :: ts, table2)
  end.

(** ** The run of a phase *)

Inductive Status :=
| Looping        (** in the loop that starts transactions *)
| Draining       (** waiting for the transactions that run *)
| Finished
| Interrupted    (** by the signal *)
| Panicked.      (** in [generate_transaction] *)

Record Phase := mkPhase {
  permits : N;              (** of the semaphore, all of them *)
  limit : N;                (** [num_queries] *)
  task_counter : N;         (** [u64] *)
  started : nat;
  running : nat;            (** transactions, each with a permit *)
  latencies : list Z;       (** of the transactions that returned, in nanoseconds *)
  panicked : nat;           (** transactions that panicked *)
  status : Status
}.

Definition begin_phase (max_concurrency num_queries : N) : Phase :=
  mkPhase max_concurrency num_queries 0 0 0 [] 0 Looping.

Definition count_task (p : Phase) : N := ((task_counter p + 1) `mod` 2 ^ 64)%N.

(** The branches of the [select], the loop after it, and the transactions. A
    signal ends the loop, but not the transactions that run, which are tasks of
    their own. *)
Inductive phase_step : Phase -> Phase -> Prop :=
| step_spawn p :
    status p = Looping -> (N.of_nat (running p) < permits p)%N -> (count_task p <= limit p)%N ->
    phase_step p (mkPhase (permits p) (limit p) (count_task p) (S (started p)) (S (running p))
                    (latencies p) (panicked p) Looping)
| step_generate_panics p :
    status p = Looping -> (N.of_nat (running p) < permits p)%N -> (count_task p <= limit p)%N ->
    phase_step p (mkPhase (permits p) (limit p) (count_task p) (started p) (running p)
                    (latencies p) (panicked p) Panicked)
| step_enough p :
    status p = Looping -> (N.of_nat (running p) < permits p)%N -> (limit p < count_task p)%N ->
    phase_step p (mkPhase (permits p) (limit p) (count_task p) (started p) (running p)
                    (latencies p) (panicked p) Draining)
| step_signal p :
    status p = Looping ->
    phase_step p (mkPhase (permits p) (limit p) (task_counter p) (started p) (running p)
                    (latencies p) (panicked p) Interrupted)
| step_returns p latency n :
    running p = S n ->
    phase_step p (mkPhase (permits p) (limit p) (task_counter p) (started p) n
                    (latencies p ++ [latency]) (panicked p) (status p))
| step_panics p n :
    running p = S n ->
    phase_step p (mkPhase (permits p) (limit p) (task_counter p) (started p) n
                    (latencies p) (S (panicked p)) (status p))
| step_drained p :
    status p = Draining -> running p = 0%nat ->
    phase_step p (mkPhase (permits p) (limit p) (task_counter p) (started p) 0
                    (latencies p) (panicked p) Finished).

(** ** Metrics *)

Record Metrics := mkMetrics {
  total_duration : Z;
  total_transactions : nat;
  avg_latency : Z;
  p50_latency : Z;
  p95_latency : Z;
  p99_latency : Z;
  throughput : spec_float
}.

(** the literals [0.99], [0.95] and [0.50] *)
Definition f99 : spec_float := S754_finite false 8917127262193582 (-53).
Definition f95 : spec_float := S754_finite false 8556839292003942 (-53).
Definition f50 : spec_float := S754_finite false 4503599627370496 (-53).

Definition percentile_index (len : nat) (q : spec_float) : nat :=
  N.to_nat (Float64.to_usize (Float64.mul (Float64.of_Z (Z.of_nat len)) q)).

(** [Duration::as_secs_f64] of a number of nanoseconds *)
Definition as_secs_f64 (d : Z) : spec_float :=
  Float64.add (Float64.of_Z (d / 10 ^ 9))
    (Float64.div (Float64.of_Z (d `mod` 10 ^ 9)) (Float64.of_Z (10 ^ 9))).

(** the average, whose divisor is cut to 32 bits; [None] is the panic of a
    division by zero or of an index *)
Definition metrics (elapsed : Z) (latencies : list Z) : option Metrics :=
  let divisor := wrap_u32 (Z.of_nat (length latencies)) in
  if decide (divisor = 0)%Z then None
  else
    let sorted_latencies := merge_sort Z.le latencies in
    p99 ← sorted_latencies !! percentile_index (length latencies) f99;
    p95 ← sorted_latencies !! percentile_index (length latencies) f95;
    p50 ← sorted_latencies !! percentile_index (length latencies) f50;
    Some (mkMetrics elapsed (length latencies) (foldr Z.add 0 latencies / divisor)%Z p50 p95 p99
            (Float64.div (Float64.of_Z (Z.of_nat (length latencies))) (as_secs_f64 elapsed))).

(** what is reported of the range servers *)
Definition range_server_stats (stats : list RangeGrpc.RangeStatistics)
    : gmap string (gmap string (list string)) :=
  foldl (fun m st => <[RangeGrpc.rs_range_id st :=
      {[ "num_waiters" := pretty <$> RangeGrpc.rs_num_waiters st;
         "num_pending_commits" := pretty <$> RangeGrpc.rs_num_pending_commits st ]}]> m) ∅ stats.


(** ** Lemmas: keys and ranges *)

Lemma be_bytes_mod w n : be_bytes w (n `mod` 256 ^ N.of_nat w) = be_bytes w n.
Proof.
  revert n. induction w as [|w IH]; intros n; [done|]. cbn [be_bytes].
  assert (Hp : (256 ^ N.of_nat (S w) = 256 ^ N.of_nat w * 256)%N)
    by (rewrite Nat2N.inj_succ, N.pow_succ_r' by lia; lia).
  assert (Hn : (256 ^ N.of_nat w <> 0)%N) by (apply N.pow_nonzero; lia).
  rewrite <- (IH n), <- (IH (n `mod` _)%N). f_equal; [|f_equal].
  - rewrite Hp, N.Div0.mod_mul_r, N.mul_comm, N.div_add, N.div_small by (done || by apply N.mod_lt).
    rewrite N.add_0_l. by rewrite N.Div0.mod_mod.
  - rewrite Hp, N.Div0.mod_mul_r, N.mul_comm, N.Div0.mod_add. by rewrite N.Div0.mod_mod.
Qed.

(** the big-endian bytes are ordered as the numbers are *)
Lemma be_bytes_cmp w a b :
  (a < 256 ^ N.of_nat w)%N -> (b < 256 ^ N.of_nat w)%N ->
  bytes_cmp (be_bytes w a) (be_bytes w b) = N.compare a b.
Proof.
  revert a b. induction w as [|w IH]; intros a b Ha Hb.
  { change (256 ^ N.of_nat 0)%N with 1%N in *. by assert (a = 0 /\ b = 0)%N as [-> ->] by lia. }
  cbn [be_bytes bytes_cmp]. rewrite Nat2N.inj_succ, N.pow_succ_r' in Ha, Hb.
  set (P := (256 ^ N.of_nat w)%N) in *. assert (HP : (P <> 0)%N) by (apply N.pow_nonzero; lia).
  rewrite !(N.mod_small (_ / P)) by (apply N.Div0.div_lt_upper_bound; lia).
  pose proof (N.div_mod a P HP) as Ea. pose proof (N.div_mod b P HP) as Eb.
  pose proof (N.mod_lt a P HP). pose proof (N.mod_lt b P HP).
  set (qa := (a / P)%N) in *. set (qb := (b / P)%N) in *.
  destruct (N.compare_spec qa qb) as [E|E|E].
  - rewrite <- (be_bytes_mod w a), <- (be_bytes_mod w b). fold P. rewrite IH by done.
    rewrite Ea at 2. rewrite Eb at 2. rewrite E.
    destruct (N.compare_spec (a `mod` P) (b `mod` P)) as [E'|E'|E'];
      symmetry; [apply N.compare_eq_iff|apply N.compare_lt_iff|apply N.compare_gt_iff]; lia.
  - symmetry. apply N.compare_lt_iff.
    generalize dependent (a `mod` P)%N. generalize dependent (b `mod` P)%N. clearbody qa qb P.
    intros rb Eb Hrb ra Ea Hra. pose proof (N.mul_le_mono_l (qa + 1) qb P ltac:(lia)). lia.
  - symmetry. apply N.compare_gt_iff.
    generalize dependent (a `mod` P)%N. generalize dependent (b `mod` P)%N. clearbody qa qb P.
    intros rb Eb Hrb ra Ea Hra. pose proof (N.mul_le_mono_l (qb + 1) qa P ltac:(lia)). lia.
Qed.

Lemma to_be_bytes_inj a b :
  (a < 2 ^ 64)%N -> (b < 2 ^ 64)%N -> to_be_bytes a = to_be_bytes b -> a = b.
Proof.
  intros Ha Hb E. apply N.compare_eq_iff. rewrite <- (be_bytes_cmp 8) by done.
  change (be_bytes 8) with to_be_bytes. rewrite E. apply bytes_cmp_refl.
Qed.

(** the range of one key includes that key alone *)
Lemma range_includes i j u :
  (i < 2 ^ 64 - 1)%N -> (j < 2 ^ 64)%N ->
  includes (from_proto (mkProtoKeyRange u (to_be_bytes i) (to_be_bytes (i + 1)))) (to_be_bytes j) =
  bool_decide (j = i).
Proof.
  intros Hi Hj. unfold includes, from_proto, bytes_leb, bytes_ltb. cbn [lower_bound_inclusive
    upper_bound_exclusive proto_lower proto_upper]. unfold to_be_bytes.
  assert (E64 : (256 ^ N.of_nat 8 = 2 ^ 64)%N) by done.
  rewrite !be_bytes_cmp by (rewrite E64; lia).
  destruct (N.compare_spec i j), (N.compare_spec j (i + 1)); cbn;
    symmetry; (apply bool_decide_eq_true || apply bool_decide_eq_false); lia.
Qed.


Section Ranges.
Context `{Universe.UniverseSession DB}.
Context (parse_uuid : string -> option Uuid) (print_uuid : Uuid -> string).
Context (parse_print_uuid : forall u, parse_uuid (print_uuid u) = Some u).

Definition key_range (new_uuid : nat -> Uuid) (i : nat) : Universe.KeyRange :=
  Universe.mkKeyRange (print_uuid (new_uuid i)) (to_be_bytes (N.of_nat i)) (to_be_bytes (N.of_nat i + 1)).

Lemma created_ranges new_uuid n : (0 < n)%N ->
  Universe.server_base_key_ranges print_uuid new_uuid (key_ranges n) =
  key_range new_uuid <$> seq 0 (N.to_nat n).
Proof.
  intros Hn. unfold Universe.server_base_key_ranges.
  destruct (key_ranges n) as [|r l] eqn:E.
  { apply (f_equal length) in E. unfold key_ranges in E. rewrite length_fmap, length_seq in E. cbn in E. lia. }
  rewrite <- E. apply list_eq. intros i. rewrite list_lookup_imap, list_lookup_fmap.
  unfold key_ranges. rewrite list_lookup_fmap.
  destruct (decide (i < N.to_nat n)%nat) as [Hi|Hi].
  - by rewrite lookup_seq_lt.
  - by rewrite lookup_seq_ge by lia.
Qed.

Lemma find_key_range new_uuid kid start count j :
  (N.of_nat (start + count) < 2 ^ 64)%N -> (j < 2 ^ 64)%N ->
  Oracle.find_range parse_uuid kid (key_range new_uuid <$> seq start count) (to_be_bytes j) =
  Ok (if decide (start <= N.to_nat j < start + count)%nat
      then Some (mkFullRangeId kid (new_uuid (N.to_nat j))) else None).
Proof.
  revert start. induction count as [|count IH]; intros start Hs Hj.
  { by rewrite decide_False by lia. }
  cbn [seq fmap list_fmap Oracle.find_range]. unfold key_range at 1 2 3.
  cbn [Universe.lower_bound_inclusive Universe.upper_bound_exclusive Universe.base_range_uuid].
  rewrite range_includes by lia. case_bool_decide as E.
  - subst j. rewrite parse_print_uuid, Nat2N.id, decide_True by lia. done.
  - rewrite IH by lia. f_equal. repeat case_decide; (done || lia).
Qed.

(** ** Properties *)

(** C27: Every key of the workload has a range of its own. In a key space that the
    generator created, once the universe answers for it, the oracle finds for
    the bytes of a number the range that was made for this number, and for a
    number outside of the workload none. *)
Theorem each_key_has_its_range c new_uuid namespace name db db1 id db2 info :
  (0 < num_keys c < 2 ^ 64)%N ->
  Universe.server_create_keyspace parse_uuid print_uuid new_uuid
    (create_keyspace_request c namespace name) db = (db1, Ok id) ->
  rtc (Universe.step parse_uuid print_uuid) db1 db2 ->
  Oracle.ask_universe parse_uuid print_uuid (mkKeyspace namespace name) db2 = Some info ->
  exists u, parse_uuid id = Some u /\ forall j, (j < 2 ^ 64)%N ->
    Oracle.range_of_key parse_uuid info (to_be_bytes j) =
    Ok (if decide (j < num_keys c)%N
        then Some (mkFullRangeId (mkKeyspaceId u) (new_uuid (N.to_nat j))) else None).
Proof.
  intros Hn Hc Hsteps Hask.
  destruct (Oracle.ask_universe_row _ _ _ _ _ Hask) as (row & Hrow & Hi).
  destruct (Universe.created_row _ _ parse_print_uuid new_uuid (create_keyspace_request c namespace name)
    _ db db1 id eq_refl ltac:(split; discriminate) Hc) as (row' & Hrow' & Hi').
  pose proof (Universe.steps_keep_rows _ _ _ _ _ _ Hsteps Hrow') as Hrow2. cbn in Hrow, Hi, Hrow2, Hi'.
  rewrite Hrow2 in Hrow. injection Hrow as <-. rewrite Hi' in Hi. injection Hi as <-.
  assert (exists u, parse_uuid id = Some u) as [u Hu].
  { revert Hc. unfold Universe.server_create_keyspace, Universe.create_keyspace. cbn [Universe.create_primary_zone create_keyspace_request].
    destruct (_ ≫= _); [|done]. destruct (Universe.insert_if_not_exists _ db) as [db' [[]| |]];
      intros [= _ <-]; eauto. }
  exists u. split; [done|]. intros j Hj. unfold Oracle.range_of_key.
  cbn [Universe.info_keyspace_id Universe.info_base_key_ranges]. rewrite Hu, created_ranges by lia.
  rewrite find_key_range by lia. f_equal. repeat case_decide; (done || lia).
Qed.
End Ranges.


(** ** Lemmas: the keys of a transaction *)

Lemma sort_keys_perm l : sort_keys l ≡ₚ l.
Proof. apply merge_sort_Permutation. Qed.

Lemma sort_keys_sorted l : StronglySorted N.le (sort_keys l).
Proof. apply StronglySorted_merge_sort; apply _. Qed.

Lemma remove_at_perm {A} i (l : list A) x : l !! i = Some x -> l ≡ₚ x :: remove_at i l.
Proof.
  intros Hl. rewrite <- (take_drop_middle l i x Hl) at 1. unfold remove_at. by rewrite Permutation_middle.
Qed.

Lemma remove_at_length {A} i (l : list A) : (i < length l)%nat -> length (remove_at i l) = pred (length l).
Proof. intros Hi. unfold remove_at. rewrite length_app, length_take, length_drop. lia. Qed.

Section KeyLemmas.
Context `{RandCrate Rng}.

(** the loop moves keys from the available to the chosen ones *)
Lemma zipf_loop_spec n rng ws available chosen rng' chosen' :
  length ws = length available ->
  zipf_loop n rng ws available chosen = Some (rng', chosen') ->
  exists rest, chosen ++ available ≡ₚ chosen' ++ rest /\
    length chosen' = (length chosen + Nat.min n (length available))%nat.
Proof.
  revert rng ws available chosen. induction n as [|n IH]; intros rng ws available chosen Hlen E.
  { injection E as _ <-. exists available. split; [done|lia]. }
  cbn [zipf_loop] in E. destruct available as [|a available]; [|destruct ws as [|w ws]; [done|]].
  { injection E as _ <-. exists []. split; [done|]. cbn. lia. }
  destruct (weighted_index rng (w :: ws)) as [[rng1 idx]|] eqn:Ew; [|done]. cbn [mbind option_bind] in E.
  apply weighted_index_ok in Ew.
  destruct ((a :: available) !! idx) as [key|] eqn:Ek; [|done]. cbn [mbind option_bind] in E.
  apply IH in E as (rest & Hp & Hl);
    [|rewrite !remove_at_length by (cbn in *; lia); cbn in *; lia].
  exists rest. split.
  - rewrite <- Hp, <- app_assoc. by apply Permutation_app_head, remove_at_perm.
  - rewrite Hl, length_app, remove_at_length by (by eapply lookup_lt_Some). cbn. lia.
Qed.

Lemma all_keys_NoDup n : NoDup (N.of_nat <$> seq 0 n).
Proof. apply (NoDup_fmap_2 _), NoDup_seq. Qed.

Lemma all_keys_bound n k : k ∈ N.of_nat <$> seq 0 (N.to_nat n) -> (k < n)%N.
Proof. intros (i & -> & Hi)%list_elem_of_fmap. apply elem_of_seq in Hi. lia. Qed.

(** what is drawn from all keys *)
Lemma drawn_keys n keys rest :
  (N.of_nat <$> seq 0 (N.to_nat n)) ≡ₚ keys ++ rest ->
  NoDup (sort_keys keys) /\ StronglySorted N.le (sort_keys keys) /\
  (forall k, k ∈ sort_keys keys -> (k < n)%N) /\ length (sort_keys keys) = length keys.
Proof.
  intros Hp. pose proof (all_keys_NoDup (N.to_nat n)) as Hnd. rewrite Hp in Hnd.
  apply NoDup_app in Hnd as (Hk & _ & _). split_and!.
  - by rewrite sort_keys_perm.
  - apply sort_keys_sorted.
  - intros k Hin. rewrite sort_keys_perm in Hin. apply all_keys_bound. rewrite Hp, elem_of_app. by left.
  - by rewrite sort_keys_perm.
Qed.
End KeyLemmas.


(** ** Lemmas: the dependencies of fake transactions *)

(** the last of the transactions that writes a key *)
Definition last_writer (txs : list (Uuid * list N)) (k : N) (table : gmap N Uuid) : option Uuid :=
  foldl (fun acc tx => if decide (k ∈ tx.2) then Some tx.1 else acc) (table !! k) txs.

Lemma claim_keys_spec id keys deps table deps' table' :
  claim_keys id keys deps table = (deps', table') -> NoDup keys ->
  (forall k, table' !! k = if decide (k ∈ keys) then Some id else table !! k) /\
  (forall d, d ∈ deps' <-> d ∈ deps \/ exists k, k ∈ keys /\ table !! k = Some d).
Proof.
  revert deps table. induction keys as [|key keys IH]; intros deps table.
  { intros [= <- <-] _. split; [|set_solver]. intros k. by rewrite decide_False by set_solver. }
  cbn [claim_keys]. intros E [Hnew Hnd]%NoDup_cons. destruct (IH _ _ E Hnd) as [Ht Hd]. split.
  - intros k. rewrite Ht. destruct (decide (k = key)) as [->|Hne].
    + rewrite decide_False, lookup_insert_eq, decide_True by set_solver. done.
    + rewrite lookup_insert_ne by done. apply decide_ext. set_solver.
  - intros d. rewrite Hd. assert (Hins : forall k, k ∈ keys -> <[key := id]> table !! k = table !! k).
    { intros k Hk. rewrite lookup_insert_ne; [done|]. by intros ->. }
    split.
    + intros [Hin|(k & Hk & Hl)]; [|right; exists k; rewrite Hins in Hl by done; set_solver].
      destruct (table !! key) as [d'|] eqn:El; [|by left].
      apply elem_of_union in Hin as [ ->%elem_of_singleton|?]; [|by left].
      right. exists key. set_solver.
    + intros [Hin|(k & [->|Hk]%elem_of_cons & Hl)].
      * left. destruct (table !! key); set_solver.
      * left. rewrite Hl. set_solver.
      * right. exists k. by rewrite Hins.
Qed.

Lemma create_fakes_spec ks txs table ts table' i id keys :
  create_fakes ks txs table = (ts, table') -> Forall (fun tx => NoDup tx.2) txs ->
  txs !! i = Some (id, keys) ->
  exists deps, ts !! i = Some (mkFakeTransaction id ks keys deps) /\
    forall d, d ∈ deps <-> exists k, k ∈ keys /\ last_writer (take i txs) k table = Some d.
Proof.
  revert table ts i. induction txs as [|[id0 keys0] txs IH]; intros table ts i; [done|].
  cbn [create_fakes]. unfold new_fake. destruct (claim_keys id0 keys0 ∅ table) as [deps0 table1] eqn:Ec.
  destruct (create_fakes ks txs table1) as [ts1 table2] eqn:Er. intros [= <- <-] [Hnd Hall]%Forall_cons Hi.
  destruct (claim_keys_spec _ _ _ _ _ _ Ec Hnd) as [Ht Hd].
  destruct i as [|i]; cbn in Hi.
  - injection Hi as <- <-. exists deps0. split; [done|]. intros d. rewrite Hd. set_solver.
  - destruct (IH table1 ts1 i Er Hall Hi) as (deps & Hts & Hdeps). exists deps. split; [done|].
    intros d. rewrite Hdeps. unfold last_writer. cbn [take foldl fst snd].
    by setoid_rewrite Ht.
Qed.

Lemma last_writer_split txs k :
  (last_writer txs k ∅ = None /\ forall tx, tx ∈ txs -> k ∉ tx.2) \/
  exists i id keys, txs !! i = Some (id, keys) /\ k ∈ keys /\ last_writer txs k ∅ = Some id /\
    forall j id' keys', (i < j)%nat -> txs !! j = Some (id', keys') -> k ∉ keys'.
Proof.
  induction txs as [|[id keys] txs IH] using rev_ind.
  { left. split; [apply lookup_empty|]. by intros tx ?%elem_of_nil. }
  unfold last_writer in *. rewrite foldl_app. cbn [foldl fst snd]. destruct (decide (k ∈ keys)) as [Hk|Hk].
  - right. exists (length txs), id, keys. split_and!; [|done|done|].
    + by rewrite lookup_app_r, Nat.sub_diag by lia.
    + intros j id' keys' Hj Hl%lookup_lt_Some. rewrite length_app in Hl. cbn in Hl. lia.
  - destruct IH as [[Hn Hall]|(i & id' & keys' & Hi & Hk' & Hw & Hafter)].
    + left. split; [done|]. intros tx [?| ->%list_elem_of_singleton]%elem_of_app; auto.
    + right. exists i, id', keys'. split_and!; [by apply lookup_app_l_Some|done|done|].
      intros j id1 keys1 Hj [Hl|[_ Hl]]%lookup_app_Some; [by eapply Hafter|].
      apply list_lookup_singleton_Some in Hl as [_ [= <- <-]]. done.
Qed.

Definition depends (ts : list FakeTransaction) (i j : nat) : Prop :=
  exists ti tj, ts !! i = Some ti /\ ts !! j = Some tj /\ fake_id tj ∈ dependencies ti.


Lemma create_fakes_inv ks txs table ts table' i t :
  create_fakes ks txs table = (ts, table') -> ts !! i = Some t ->
  exists id keys, txs !! i = Some (id, keys).
Proof.
  intros E Hi. apply lookup_lt_Some in Hi. assert (length ts = length txs) as Hl.
  { clear Hi i t. revert table ts table' E. induction txs as [|[id keys] txs IH]; intros table ts table'.
    - by intros [= <- <-].
    - cbn. destruct (new_fake _ _ _ _) as [t table1]. destruct (create_fakes _ _ _) as [ts1 table2] eqn:E.
      intros [= <- <-]. cbn. f_equal. by eapply IH. }
  rewrite Hl in Hi. apply lookup_lt_is_Some_2 in Hi as [[id keys] Hi]. eauto.
Qed.

(** The fake transactions that share a key are ordered. Transactions that are
    created one after the other, with different ids and without a repeated key,
    depend exactly on the last earlier writers of their keys. So no transaction
    depends on itself or on a later one, and of two transactions with a common
    key the later one depends on the earlier one, at once or through others:
    the resolver is given no cycle, and no conflict without an order. *)
Theorem conflicting_fakes_are_ordered ks txs ts table :
  create_fakes ks txs ∅ = (ts, table) -> NoDup txs.*1 -> Forall (fun tx => NoDup tx.2) txs ->
  (forall i id keys, txs !! i = Some (id, keys) -> exists t, ts !! i = Some t /\
     forall d, d ∈ dependencies t <-> exists k, k ∈ keys /\ last_writer (take i txs) k ∅ = Some d) /\
  (forall i j, depends ts i j -> (j < i)%nat) /\
  (forall i j id id' keys keys' k, (i < j)%nat ->
     txs !! i = Some (id, keys) -> txs !! j = Some (id', keys') -> k ∈ keys -> k ∈ keys' ->
     tc (depends ts) j i).
Proof.
  intros Hc Hids Hnd.
  assert (Hspec : forall i id keys, txs !! i = Some (id, keys) -> exists t, ts !! i = Some t /\
    fake_id t = id /\ forall d, d ∈ dependencies t <->
      exists k, k ∈ keys /\ last_writer (take i txs) k ∅ = Some d).
  { intros i id keys Hi. destruct (create_fakes_spec _ _ _ _ _ _ _ _ Hc Hnd Hi) as (deps & Ht & Hd).
    eexists. split; [exact Ht|]. done. }
  split_and!.
  - intros i id keys Hi. destruct (Hspec i id keys Hi) as (t & Ht & _ & Hd). eauto.
  - intros i j (ti & tj & Hi & Hj & Hin).
    destruct (create_fakes_inv _ _ _ _ _ _ _ Hc Hi) as (id & keys & Hti).
    destruct (create_fakes_inv _ _ _ _ _ _ _ Hc Hj) as (id' & keys' & Htj).
    destruct (Hspec i id keys Hti) as (ti' & Hi' & _ & Hd). rewrite Hi in Hi'. injection Hi' as <-.
    destruct (Hspec j id' keys' Htj) as (tj' & Hj' & Hid & _). rewrite Hj in Hj'. injection Hj' as <-.
    apply Hd in Hin as (k & _ & Hw). destruct (last_writer_split (take i txs) k)
      as [[Hn _]|(l & idl & keysl & Hl & _ & Hw' & _)]; [congruence|].
    rewrite Hw in Hw'. injection Hw' as Hw'. apply lookup_take_Some in Hl as [Hl Hli].
    enough (l = j) by lia. eapply (NoDup_lookup txs.*1); [done|..]; rewrite list_lookup_fmap.
    + by rewrite Hl.
    + rewrite Htj. cbn. congruence.
  - intros i j. revert i. induction (Nat.lt_wf_0 j) as [j _ IH].
    intros i id id' keys keys' k Hij Hi Hj Hk Hk'.
    destruct (Hspec j id' keys' Hj) as (tj & Htj & _ & Hd).
    destruct (last_writer_split (take j txs) k) as [[_ Hn]|(l & idl & keysl & Hl & Hkl & Hw & Hafter)].
    { destruct (Hn (id, keys)); [|done]. apply list_elem_of_lookup. exists i. by rewrite lookup_take_lt. }
    apply lookup_take_Some in Hl as [Hl Hlj]. destruct (Hspec l idl keysl Hl) as (tl & Htl & Hidl & _).
    assert (depends ts j l) as Hdep.
    { exists tj, tl. split_and!; [done..|]. apply Hd. exists k. by rewrite Hidl. }
    destruct (decide (l = i)) as [->|Hne]; [by apply tc_once|].
    assert (i < l)%nat.
    { destruct (decide (l < i)%nat); [|lia]. destruct (Hafter i id keys); [done| |done].
      by rewrite lookup_take_lt. }
    eapply tc_l; [exact Hdep|]. by eapply (IH l Hlj i).
Qed.


(** ** Lemmas: the run of a phase *)

Record phase_inv (m q : N) (p : Phase) : Prop := {
  pi_permits : permits p = m;
  pi_limit : limit p = q;
  pi_running : (N.of_nat (running p) <= m)%N;
  pi_accounted : (length (latencies p) + panicked p + running p = started p)%nat;
  pi_counter : status p = Looping -> task_counter p = N.of_nat (started p);
  pi_started : (N.of_nat (started p) <= q)%N;
  pi_all : status p = Draining \/ status p = Finished -> N.of_nat (started p) = q;
  pi_drained : status p = Finished -> running p = 0%nat
}.

Lemma phase_inv_begin m q : phase_inv m q (begin_phase m q).
Proof. split; cbn; try done; try lia; intros [|]; done. Qed.

Lemma count_task_small q p : (q < 2 ^ 64 - 1)%N -> (task_counter p <= q)%N ->
  count_task p = (task_counter p + 1)%N.
Proof. intros Hq Hc. unfold count_task. apply N.mod_small. lia. Qed.

Lemma phase_inv_step m q p p' :
  (q < 2 ^ 64 - 1)%N -> phase_step p p' -> phase_inv m q p -> phase_inv m q p'.
Proof.
  intros Hq Hs [Hm Hl Hr Ha Hc Hst Hall Hd].
  destruct Hs as [p E Hrun Hle|p E Hrun Hle|p E Hrun Hlt|p E|p lat n E|p n E|p E Hrun];
    split; cbn -[count_task]; rewrite ?length_app; cbn -[count_task]; try done; try lia.
  all: try (specialize (Hc E); rewrite (count_task_small q) in * by lia; rewrite ?Hl in *; lia).
  all: try (intros [|]; done).
  all: try (intros Hf; specialize (Hd Hf); lia).
  all: try (intros _; apply Hall; by left).
Qed.

Lemma phase_inv_reachable m q p :
  (q < 2 ^ 64 - 1)%N -> rtc phase_step (begin_phase m q) p -> phase_inv m q p.
Proof.
  intros Hq Hr. pose proof (phase_inv_begin m q) as Hinv. revert Hinv.
  induction Hr; eauto using phase_inv_step.
Qed.

Definition rank (s : Status) : nat := match s with Looping => 2 | Draining => 1 | _ => 0 end.
Definition work_left (p : Phase) : nat :=
  (2 * (N.to_nat (limit p) - started p) + running p + rank (status p))%nat.

Lemma phase_step_decreases m q p p' :
  (q < 2 ^ 64 - 1)%N -> phase_inv m q p -> phase_step p p' -> (work_left p' < work_left p)%nat.
Proof.
  intros Hq Hinv Hs. pose proof (phase_inv_step m q p p' Hq Hs Hinv) as Hinv'.
  destruct Hinv as [_ Hl _ _ _ _ _ _], Hinv' as [_ _ _ _ _ Hst' _ _]. unfold work_left.
  destruct Hs as [p E Hrun Hle|p E Hrun Hle|p E Hrun Hlt|p E|p lat n E|p n E|p E Hrun];
    cbn [limit started running status] in *; rewrite ?E; cbn [rank]; lia.
Qed.

(** a state in which nothing can happen *)
Lemma phase_stuck m q p : (0 < m)%N -> phase_inv m q p -> nf phase_step p ->
  running p = 0%nat /\ (status p = Finished \/ status p = Interrupted \/ status p = Panicked).
Proof.
  intros Hm Hinv Hnf. assert (Hr : running p = 0%nat).
  { destruct (running p) as [|n] eqn:E; [done|]. destruct Hnf. eexists. by apply step_panics. }
  split; [done|]. destruct (status p) eqn:E; auto.
  - destruct Hnf. eexists. by apply step_signal.
  - destruct Hnf. eexists. by apply step_drained.
Qed.

(** ** Lemmas: percentiles *)

Lemma percentile_bounds (n : nat) mc :
  (0 < Z.of_nat n < 2 ^ 53)%Z -> (2 ^ 52 <= Z.pos mc < 2 ^ 53)%Z ->
  let i := Z.of_nat (percentile_index n (S754_finite false mc (-53))) in
  (i * 2 ^ 105 <= Z.of_nat n * Z.pos mc * (2 ^ 52 + 1) /\
   Z.of_nat n * Z.pos mc * (2 ^ 52 - 1) < (i + 1) * 2 ^ 105)%Z.
Proof.
  intros Hn Hmc. unfold percentile_index. rewrite N_nat_Z. by apply Float64.mul_fraction.
Qed.

Lemma percentile_order (n : nat) : (0 < Z.of_nat n < 2 ^ 53)%Z ->
  (percentile_index n f50 <= percentile_index n f95 <= percentile_index n f99)%nat /\
  (percentile_index n f99 < n)%nat.
Proof.
  intros Hn. pose proof (percentile_bounds n 8917127262193582 Hn ltac:(lia)) as H99.
  pose proof (percentile_bounds n 8556839292003942 Hn ltac:(lia)) as H95.
  pose proof (percentile_bounds n 4503599627370496 Hn ltac:(lia)) as H50.
  cbv zeta in *. fold f99 in H99. fold f95 in H95. fold f50 in H50.
  generalize dependent (percentile_index n f99). generalize dependent (percentile_index n f95).
  generalize dependent (percentile_index n f50). intros i H50 j H95 k H99. lia.
Qed.

Lemma average_bounds l lo hi :
  (0 < length l)%nat -> Forall (fun x => lo <= x <= hi)%Z l ->
  (lo <= foldr Z.add 0 l / Z.of_nat (length l) <= hi)%Z.
Proof.
  intros Hn Hb. assert (Hs : (lo * Z.of_nat (length l) <= foldr Z.add 0 l <= hi * Z.of_nat (length l))%Z).
  { clear Hn. induction Hb as [|x l Hx _ IH]; [cbn; lia|]. cbn [foldr length]. rewrite Nat2Z.inj_succ. lia. }
  split; [apply Z.div_le_lower_bound|apply Z.div_le_upper_bound]; lia.
Qed.

Lemma sorted_lookup (l : list Z) i j x y :
  StronglySorted Z.le l -> (i <= j)%nat -> l !! i = Some x -> l !! j = Some y -> (x <= y)%Z.
Proof.
  intros Hs. revert i j. induction Hs as [|a l Hs IH Hall]; intros [|i] [|j] Hij; cbn; try done; try lia.
  - intros [= <-] [= <-]. lia.
  - intros [= <-] Hy. rewrite Forall_forall in Hall. by eapply Hall, list_elem_of_lookup_2.
  - intros Hx Hy. by eapply (IH i j); [lia|..].
Qed.


(** ** Lemmas: the text of the phases *)

(** a configuration as it is written: [concurrency:queries], separated by commas *)
Definition print_phase (ph : N * N) : string := pretty ph.1 +:+ String Region.colon (pretty ph.2).
Fixpoint print_phases (ph : N * N) (phs : list (N * N)) : string :=
  match phs with
  | [] => print_phase ph
  | ph' :: phs' => print_phase ph +:+ String comma (print_phases ph' phs')
  end.

Lemma append_longer s a t : s +:+ String a t <> s.
Proof. induction s as [|b s IH]; [done|]. rewrite Region.append_cons. by intros [= ?]. Qed.

Lemma print_phase_no_comma ph : Region.occurs comma (print_phase ph) = false.
Proof.
  unfold print_phase. rewrite Region.occurs_app, Config.pretty_no_char by done. cbn [Region.occurs].
  by rewrite Config.pretty_no_char.
Qed.

Lemma parse_phase ph : (ph.1 < 2 ^ 64)%N -> (ph.2 < 2 ^ 64)%N ->
  mapM Config.parse_u64 (Region.split Region.colon (print_phase ph)) = Some [ph.1; ph.2].
Proof.
  intros H1 H2. unfold print_phase. rewrite Region.split_app, Region.split_none by (by apply Config.pretty_no_char).
  cbn. unfold Config.parse_u64. by rewrite !Config.parse_uint_pretty.
Qed.


(** ** Properties *)

(** The keys of a transaction are different keys of the workload, in ascending
    order, as many as were asked for or as there are: both when they are drawn
    with weights and when they are drawn uniformly. *)
Theorem drawn_keys_are_distinct `{RandCrate Rng} powf c n (rng rng' : Rng) txs txs' keys :
  (zipf_sample_without_replacement powf c n rng = Some (rng', keys) ->
   NoDup keys /\ StronglySorted N.le keys /\ (forall k, k ∈ keys -> (k < num_keys c)%N) /\
   length keys = Nat.min n (N.to_nat (num_keys c))) /\
  (workload_type c = "custom" -> transaction_keys c rng txs = Some (rng', txs', keys) ->
   NoDup keys /\ StronglySorted N.le keys /\ (forall k, k ∈ keys -> (k < num_keys c)%N) /\
   length keys = Nat.min 2 (N.to_nat (num_keys c))).
Proof.
  split.
  - unfold zipf_sample_without_replacement.
    destruct (zipf_loop _ _ _ _ _) as [[rng1 chosen]|] eqn:E; [|done]. intros [= <- <-].
    apply zipf_loop_spec in E as (rest & Hp & Hl);
      [|unfold normalize, zipf_weights; by rewrite !length_fmap, !length_seq].
    rewrite length_fmap, length_seq in Hl. destruct (drawn_keys _ _ _ Hp) as (? & ? & ? & ->). done.
  - intros Hc. unfold transaction_keys. rewrite decide_True by done.
    destruct (choose_multiple_ok rng (N.of_nat <$> seq 0 (N.to_nat (num_keys c))) 2) as (rest & Hp & Hl).
    destruct (choose_multiple _ _ 2) as [rng1 drawn]. intros [= <- <- <-]. cbn [snd] in Hp, Hl.
    rewrite length_fmap, length_seq in Hl. destruct (drawn_keys _ _ _ Hp) as (? & ? & ? & ->). done.
Qed.

(** A phase runs the transactions it was asked for. At every moment at most as
    many transactions run as there are permits, every transaction that was
    started runs, has been measured or has panicked, and no more were started
    than asked for; when the phase has finished, all of them were started and
    none runs any more. *)
Theorem phase_runs_all m q p :
  (q < 2 ^ 64 - 1)%N -> rtc phase_step (begin_phase m q) p ->
  (N.of_nat (running p) <= m)%N /\
  (length (latencies p) + panicked p + running p = started p)%nat /\
  (N.of_nat (started p) <= q)%N /\
  (status p = Finished -> N.of_nat (length (latencies p) + panicked p) = q).
Proof.
  intros Hq Hr. destruct (phase_inv_reachable m q p Hq Hr) as [_ _ Hrun Ha _ Hst Hall Hd].
  split_and!; [done..|]. intros Hf. rewrite <- Hall by auto. specialize (Hd Hf). lia.
Qed.

(** A phase ends. With a limit and at least one permit there is no infinite
    run of a phase, and where nothing can happen any more no transaction runs
    and the phase has finished, unless it was interrupted or could not make a
    transaction. *)
Theorem phase_terminates m q :
  (0 < m)%N -> (q < 2 ^ 64 - 1)%N ->
  sn phase_step (begin_phase m q) /\
  forall p, rtc phase_step (begin_phase m q) p -> nf phase_step p ->
    running p = 0%nat /\ (status p = Finished \/ status p = Interrupted \/ status p = Panicked).
Proof.
  intros Hm Hq. split.
  - apply (sn_measure _ (phase_inv m q) work_left); [|apply phase_inv_begin].
    intros p p' Hinv Hs. split; [by eapply phase_inv_step|by eapply phase_step_decreases].
  - intros p Hr. apply (phase_stuck m q); [done|]. by apply phase_inv_reachable.
Qed.

(** Without a permit a phase waits for ever: it starts no transaction, and only
    the signal ends it, even if it has nothing to do. *)
Theorem no_permit_never_finishes q p :
  rtc phase_step (begin_phase 0 q) p ->
  started p = 0%nat /\ (status p = Looping \/ status p = Interrupted).
Proof.
  intros Hr.
  assert (Hinv : permits p = 0%N /\ running p = 0%nat /\ started p = 0%nat /\
    (status p = Looping \/ status p = Interrupted)); [|naive_solver].
  remember (begin_phase 0 q) as p0 eqn:E. assert (Hp0 : permits p0 = 0%N /\ running p0 = 0%nat /\
    started p0 = 0%nat /\ (status p0 = Looping \/ status p0 = Interrupted)) by (subst; auto).
  clear E. induction Hr as [|p1 p2 p3 Hs _ IH]; [done|]. apply IH.
  destruct Hp0 as (Hm & Hrun & Hst & Hstat).
  destruct Hs; cbn in *; rewrite ?Hm, ?Hrun in *; try lia; try done; auto.
  destruct Hstat; congruence.
Qed.

(** The metrics of a run: with at least one measured transaction they exist, the
    percentiles are latencies that were measured, in their order, and the average
    lies between any bounds on the latencies; without one the generator panics,
    since it divides by their number. *)
Theorem metrics_of_run elapsed l :
  (Z.of_nat (length l) < 2 ^ 32)%Z ->
  (l = [] -> metrics elapsed l = None) /\
  (l <> [] -> exists m, metrics elapsed l = Some m /\ total_transactions m = length l /\
     p50_latency m ∈ l /\ p95_latency m ∈ l /\ p99_latency m ∈ l /\
     (p50_latency m <= p95_latency m <= p99_latency m)%Z /\
     forall lo hi, Forall (fun x => lo <= x <= hi)%Z l -> (lo <= avg_latency m <= hi)%Z).
Proof.
  intros Hlen. split; [by intros ->|]. intros Hne. set (n := length l) in *.
  assert (Hn : (0 < n)%nat) by (unfold n; destruct l; cbn; [done|lia]).
  unfold metrics, wrap_u32. fold n. rewrite Z.mod_small, decide_False by lia.
  set (s := merge_sort Z.le l). assert (Hp : s ≡ₚ l) by apply merge_sort_Permutation.
  assert (Hs : StronglySorted Z.le s) by (apply StronglySorted_merge_sort; apply _).
  destruct (percentile_order n ltac:(lia)) as [[H1 H2] H3].
  assert (Hx : forall i, (i <= percentile_index n f99)%nat -> exists x, s !! i = Some x /\ x ∈ l).
  { intros i Hi. destruct (lookup_lt_is_Some_2 s i) as [x Hxi].
    { rewrite Hp. fold n. lia. }
    exists x. split; [done|]. rewrite <- Hp. by eapply list_elem_of_lookup_2. }
  destruct (Hx (percentile_index n f99)) as (x99 & E99 & I99); [lia|].
  destruct (Hx (percentile_index n f95)) as (x95 & E95 & I95); [lia|].
  destruct (Hx (percentile_index n f50)) as (x50 & E50 & I50); [lia|].
  rewrite E99. cbn [mbind option_bind]. rewrite E95. cbn [mbind option_bind]. rewrite E50.
  cbn [mbind option_bind]. eexists. split; [done|]. cbn. split_and!; try done.
  - by eapply (sorted_lookup s _ _ x50 x95 Hs H1).
  - by eapply (sorted_lookup s _ _ x95 x99 Hs H2).
  - intros lo hi Hb. by apply average_bounds.
Qed.

(** Only two key spaces are created. A configuration with several workloads
    runs each in a key space of its own; the first two of these are created, and
    the others are not. *)
Theorem third_workload_has_no_keyspace c i :
  (i < length (workloads c))%nat ->
  (workload_keyspace c i ∈ created_keyspaces c true <-> (i < 2)%nat).
Proof.
  intros Hi. assert (Hocc : Region.occurs semicolon (max_concurrency c) = true \/ i = 0%nat).
  { destruct (Region.occurs semicolon (max_concurrency c)) eqn:E; [by left|right].
    unfold workloads in Hi. rewrite Region.split_none in Hi by done. cbn in Hi. lia. }
  unfold created_keyspaces, workload_keyspace. destruct i as [|[|i]].
  - split; [lia|]. intros _. by left.
  - destruct Hocc as [->|]; [|done]. split; [lia|]. intros _. by right; left.
  - split; [|lia]. intros Hin. exfalso.
    assert (workload_name c (S (S i)) = wl_name c \/ workload_name c (S (S i)) = wl_name c +:+ "_1") as [E|E].
    { destruct (Region.occurs semicolon (max_concurrency c)); rewrite !elem_of_cons, elem_of_nil in Hin;
        destruct_or! Hin; try done; [left|right|left]; congruence. }
    + unfold workload_name in E. by apply append_longer in E.
    + unfold workload_name in E. apply (inj (String.append (wl_name c))) in E.
      apply (inj (String.append "_") _ "1") in E. change "1" with (pretty 1%N) in E.
      apply (inj pretty) in E. lia.
Qed.

(** The phases are read as they are written. *)
Theorem phases_roundtrip c ph phs :
  Forall (fun ph => (ph.1 < 2 ^ 64)%N /\ (ph.2 < 2 ^ 64)%N) (ph :: phs) ->
  concurrency_configs c (print_phases ph phs) = Some ((fun ph => [ph.1; ph.2]) <$> ph :: phs) /\
  mapM phase_of ((fun ph => [ph.1; ph.2]) <$> ph :: phs) = Some (ph :: phs).
Proof.
  intros Hall. split.
  - unfold concurrency_configs. assert (Region.occurs Region.colon (print_phases ph phs) = true) as ->.
    { destruct phs; cbn [print_phases]; unfold print_phase; rewrite ?Region.occurs_app; cbn [Region.occurs];
        rewrite ?bool_decide_eq_true_2, ?orb_true_r by done; done. }
    revert ph Hall. induction phs as [|ph' phs IH]; intros ph [[H1 H2] Hall]%Forall_cons; cbn [print_phases].
    + rewrite Region.split_none by apply print_phase_no_comma. cbn [mapM]. rewrite parse_phase by done. done.
    + rewrite Region.split_app by apply print_phase_no_comma. cbn [mapM]. rewrite parse_phase by done.
      cbn [mbind option_bind]. by rewrite (IH ph' Hall).
  - clear Hall. induction (ph :: phs) as [|[a b] l IH]; [done|]. cbn. cbn in IH. by rewrite IH.
Qed.


(** ** Witnesses *)

(** a generator that takes the first elements *)
#[refine] Instance first_choice : RandCrate unit := {|
  seed_from_u64 _ := tt;
  choose_multiple r l n := (r, take n l);
  weighted_index r ws := match ws with [] => None | _ => Some (r, 0%nat) end
|}.
Proof.
  - intros r l n. exists (drop n l). cbn. rewrite take_drop, length_take. done.
  - intros r [|w ws] r' i; [done|]. intros [= <- <-]. cbn. lia.
Defined.

Definition sample_config : WorkloadConfig :=
  mkWorkloadConfig (Some 10%N) 3 (Float64.of_Z 1) "ns" "wl" "2;4;8" None [] false "custom".
Definition sample_powf (a b : spec_float) : spec_float := a.

Lemma drawn_keys_are_distinct_witness :
  zipf_sample_without_replacement sample_powf sample_config 2 tt = Some (tt, [0; 1]%N) /\
  NoDup [0; 1]%N /\ length [0; 1]%N = 2%nat.
Proof.
  split; [vm_compute; reflexivity|].
  destruct (drawn_keys_are_distinct sample_powf sample_config 2 tt tt None None [0; 1]%N) as [Hz _].
  destruct Hz as (Hnd & _ & _ & Hl); [vm_compute; reflexivity|]. split; [exact Hnd|exact Hl].
Defined.

#[local] Existing Instance Universe.table_universe.
Definition sample_created : gmap (string * string) Universe.Row * result Universe.Error string :=
  Universe.server_create_keyspace Universe.unary_parse Universe.unary_print N.of_nat
    (create_keyspace_request sample_config "ns" "wl") ∅.
Definition sample_info : Universe.KeyspaceInfo :=
  Universe.mkKeyspaceInfo "uuu" "ns" "wl"
    (Some (Universe.mkZone (Some (Universe.mkRegion None "test-region")) "a"))
    (key_range Universe.unary_print N.of_nat <$> [0; 1; 2]%nat).

Lemma each_key_has_its_range_witness :
  exists u, Oracle.range_of_key Universe.unary_parse sample_info (to_be_bytes 2) =
      Ok (Some (mkFullRangeId (mkKeyspaceId u) 2)) /\
    Oracle.range_of_key Universe.unary_parse sample_info (to_be_bytes 3) = Ok None.
Proof.
  destruct (each_key_has_its_range Universe.unary_parse Universe.unary_print Universe.unary_roundtrip
    sample_config N.of_nat "ns" "wl" ∅ sample_created.1 "uuu" sample_created.1 sample_info)
    as (u & _ & Hr); [by_decision|vm_compute; reflexivity|apply rtc_refl|vm_compute; reflexivity|].
  exists u. split; [apply (Hr 2%N)|apply (Hr 3%N)]; by_decision.
Defined.

Definition sample_fakes : list (Uuid * list N) := [(1%N, [0%N; 1%N]); (2%N, [1%N; 2%N]); (3%N, [2%N])].
Lemma conflicting_fakes_are_ordered_witness :
  exists ts table, create_fakes (mkKeyspace "ns" "wl") sample_fakes ∅ = (ts, table) /\
    tc (depends ts) 1 0 /\ tc (depends ts) 2 1.
Proof.
  destruct (create_fakes (mkKeyspace "ns" "wl") sample_fakes ∅) as [ts table] eqn:E.
  destruct (conflicting_fakes_are_ordered (mkKeyspace "ns" "wl") sample_fakes ts table E) as (_ & _ & Hc);
    [by_decision|repeat constructor; by_decision|].
  exists ts, table. split; [reflexivity|]. split.
  - apply (Hc 0%nat 1%nat 1%N 2%N [0%N; 1%N] [1%N; 2%N] 1%N); [lia|reflexivity|reflexivity|by_decision..].
  - apply (Hc 1%nat 2%nat 2%N 3%N [1%N; 2%N] [2%N] 2%N); [lia|reflexivity|reflexivity|by_decision..].
Defined.

(** one transaction, which is measured *)
Definition sample_finished : Phase := mkPhase 2 1 2 1 0 [7%Z] 0 Finished.
Lemma sample_phase : rtc phase_step (begin_phase 2 1) sample_finished.
Proof.
  eapply rtc_l; [by apply step_spawn|]. eapply rtc_l; [by apply (step_returns _ 7%Z 0)|].
  eapply rtc_l; [by apply step_enough|]. eapply rtc_l; [by apply step_drained|]. apply rtc_refl.
Qed.

Lemma phase_runs_all_witness :
  N.of_nat (length (latencies sample_finished) + panicked sample_finished) = 1%N.
Proof.
  apply (phase_runs_all 2 1 sample_finished); [by_decision|apply sample_phase|reflexivity].
Defined.

Lemma phase_terminates_witness : sn phase_step (begin_phase 2 1).
Proof. apply (phase_terminates 2 1); by_decision. Defined.

Lemma no_permit_never_finishes_witness :
  status (mkPhase 0 0 0 0 0 [] 0 Interrupted) = Looping \/
  status (mkPhase 0 0 0 0 0 [] 0 Interrupted) = Interrupted.
Proof.
  apply (no_permit_never_finishes 0 (mkPhase 0 0 0 0 0 [] 0 Interrupted)).
  apply rtc_once. apply (step_signal (begin_phase 0 0)). reflexivity.
Defined.

Lemma metrics_of_run_witness :
  exists m, metrics 1000 [5; 1; 3]%Z = Some m /\ p50_latency m ∈ [5; 1; 3]%Z.
Proof.
  destruct (metrics_of_run 1000 [5; 1; 3]%Z ltac:(by_decision)) as [_ Hm].
  destruct (Hm ltac:(discriminate)) as (m & E & _ & H50 & _). exists m. split; [exact E|exact H50].
Defined.

Lemma third_workload_has_no_keyspace_witness :
  workload_keyspace sample_config 2 ∉ created_keyspaces sample_config true.
Proof.
  intros Hin. apply (third_workload_has_no_keyspace sample_config 2) in Hin; [lia|by_decision].
Defined.

Lemma phases_roundtrip_witness :
  concurrency_configs sample_config "1:5,2:6" = Some [[1; 5]; [2; 6]]%N.
Proof.
  destruct (phases_roundtrip sample_config (1, 5)%N [(2, 6)%N]) as [Hp _];
    [repeat constructor; by_decision|]. exact Hp.
Defined.


End Workload.
