(* ===== verification/WorkloadTx.v ===== *)
(** * The transactions of the workload generator:
      [src/workload-generator/src/transaction_impl]

    A transaction of the generator reads and increments its keys through the
    frontend of [Frontend.v]; a fake one goes to the resolver of
    [ResolverClient.v] without having read or written anything. *)

From Stdlib Require Import Ascii.
From stdpp Require Import base tactics list numbers option gmap sets relations strings pretty.
From S2P Require Import Prelude Float64 Common Region Config GroupCommit Coordinator Storage TxStateStore RangeServer Universe Oracle ClientPool Frontend ResolverClient RangeGrpc System Workload.

Module WorkloadTx.
Import Common Frontend.
Local Open Scope sangria_scope.

(** ** Values *)

(** [to_string().as_bytes()] *)
Definition value_text (v : N) : Bytes := bytes_of_string (pretty v).

(** [String::from_utf8(bytes).unwrap().parse::<u64>().unwrap()], where [None] is
    the panic of either: a byte that is not an ASCII character makes the text
    invalid or gives a character that is not a digit *)
Definition parse_value (b : Bytes) : option N :=
  if decide (Forall (fun x => x < 128)%N b)
  then Config.parse_u64 (String.string_of_list_ascii (ascii_of_N <$> b)) else None.

(** [value + 1] of 64 bits *)
Definition next_value (v : N) : N := ((v + 1) `mod` 2 ^ 64)%N.

(** ** Transactions that read and write: [rw_transaction.rs] *)

Record RwTransaction := mkRwTransaction {
  rw_keyspace : Keyspace;
  readset : list N;
  rw_writeset : option (list N)
}.

(** ** The generator *)

Inductive GeneratedTransaction :=
| GeneratedFake (t : Workload.FakeTransaction)
| GeneratedRw (t : RwTransaction).

(** what is behind the locks of the generator *)
Record WorkloadGenerator (Rng : Type) := mkGenerator {
  rng : Rng;
  pending_commit_table : gmap N Uuid;
  ycsb_transactions : option (list string)
}.
#[global] Arguments mkGenerator {_} _ _ _.
#[global] Arguments rng {_} _.
#[global] Arguments pending_commit_table {_} _.
#[global] Arguments ycsb_transactions {_} _.

(** [str::trim] of an ASCII text *)
Fixpoint trim_start (s : string) : string :=
  match s with
  | String a s' => if Ascii.is_space a then trim_start s' else s
  | EmptyString => EmptyString
  end.
Fixpoint trim_end (s : string) : string :=
  match s with
  | EmptyString => EmptyString
  | String a s' =>
      match trim_end s' with
      | EmptyString => if Ascii.is_space a then EmptyString else String a EmptyString
      | t => String a t
      end
  end.
Definition trim (s : string) : string := trim_end (trim_start s).

Definition newline : ascii := "010".
(** the lines of a file that are not blank; the end of a line in either form and
    the end of the file leave blank lines only *)
Definition ycsb_lines (contents : string) : list string :=
  filter (fun line => line <> ""%string) (trim <$> Region.split newline contents).

Section Generator.
Context `{Workload.RandCrate Rng}.

(** [new]; [drawn] is the seed that the system gives, [file] the text of the
    file of the workload [ycsb] where it could be read *)
Definition new_generator (c : Workload.WorkloadConfig) (drawn : N) (file : option string)
    : WorkloadGenerator Rng :=
  mkGenerator (Workload.seed_from_u64 (default drawn (Workload.seed c))) ∅
    (if decide (Workload.workload_type c = "ycsb") then ycsb_lines <$> file else None).

(** [generate_transaction]; [id] is the identity a fake transaction gets, and
    [None] is a panic *)
Definition generate_transaction (c : Workload.WorkloadConfig) (workload_id : nat) (id : Uuid)
    (g : WorkloadGenerator Rng) : option (WorkloadGenerator Rng * GeneratedTransaction) :=
  '(rng', txs, keys) ← Workload.transaction_keys c (rng g) (ycsb_transactions g);
  let ks := Workload.workload_keyspace c workload_id in
  if Workload.fake_transactions c then
    let (t, table) := Workload.new_fake id ks keys (pending_commit_table g) in
    Some (mkGenerator rng' table txs, GeneratedFake t)
  else
    Some (mkGenerator rng' (pending_commit_table g) txs,
          GeneratedRw (mkRwTransaction ks keys (Some keys))).

(** transactions generated one after the other *)
Fixpoint generate_all (c : Workload.WorkloadConfig) (workload_id : nat) (ids : list Uuid)
    (g : WorkloadGenerator Rng) : option (WorkloadGenerator Rng * list GeneratedTransaction) :=
  match ids with
  | [] => Some (g, [])
  | id :: ids' =>
      '(g1, t) ← generate_transaction c workload_id id g;
      '(g2, ts) ← generate_all c workload_id ids' g1;
      Some (g2, t :: ts)
  end.
End Generator.

Section Rw.
Context `{Coordinator.Services W}.
Context (join : HashOrder).
Context `{HashOrder}.
Context (overall_timeout : Z) (strategy : CommitStrategy).
Context (parse_uuid : string -> option Uuid) (print_uuid : Uuid -> string).

Notation Handler := (M (Server W) TStatus).

(** [.await.unwrap()] *)
Definition unwrapped {A} (m : Handler A) : Handler A := fun sv =>
  match m sv with
  | (sv', Ok a) => (sv', Ok a)
  | (sv', _) => (sv', Panic)
  end.

Fixpoint read_keys (tid : string) (ks : Keyspace) (keys : list N) (results : gmap N N)
    : Handler (gmap N N) :=
  match keys with
  | [] => m_ret results
  | key :: keys' =>
      let! value := unwrapped (get parse_uuid (mkGetRequest tid (Some ks) (Workload.to_be_bytes key))) in
      let! v := m_unwrap (match value with Some b => parse_value b | None => Some 0%N end) in
      read_keys tid ks keys' (<[key := v]> results)
  end.

Definition write_key (tid : string) (ks : Keyspace) (results : gmap N N) (key : N) : Handler unit :=
  let! v := m_unwrap (results !! key) in
  unwrapped (put parse_uuid (mkPutRequest tid (Some ks) (Workload.to_be_bytes key)
                               (value_text (next_value v)))).

(** [execute]; the check of the values against those expected is switched off *)
Definition rw_execute (id : Uuid) (now : Z) (t : RwTransaction) : Handler unit :=
  let! response := unwrapped (start_transaction overall_timeout strategy print_uuid id now
                                (mkStartTransactionRequest (Some (rw_keyspace t)))) in
  let! transaction_id := m_unwrap (parse_uuid response) in
  let tid := print_uuid transaction_id in
  let! results := read_keys tid (rw_keyspace t) (readset t) ∅ in
  match rw_writeset t with
  | Some writeset => m_for writeset (write_key tid (rw_keyspace t) results)
  | None => m_ret tt
  end ;;;
  unwrapped (commit join parse_uuid tid).
End Rw.

(** ** Fake transactions: [fake_transaction.rs] *)

Section Fake.
Context `{ResolverClient.ResolverCore C, HashOrder}.
Context (parse_uuid : string -> option Uuid) (print_uuid : Uuid -> string).

Definition fake_participants (t : Workload.FakeTransaction) : list GroupCommit.ParticipantRangeInfo :=
  (fun key => GroupCommit.mkParticipantRangeInfo (mkFullRangeId (mkKeyspaceId 0) key) true)
    <$> Workload.writeset t.

Definition fake_request (t : Workload.FakeTransaction) : ResolverClient.CommitRequest :=
  ResolverClient.mkCommitRequest (print_uuid (Workload.fake_id t))
    (print_uuid <$> hash_iter (Workload.dependencies t))
    (ResolverClient.to_proto print_uuid <$> fake_participants t) true.

Definition fake_execute (t : Workload.FakeTransaction) : M C unit unit := fun c =>
  match ResolverClient.server_commit parse_uuid (fake_request t) c with
  | (c', Ok _) => (c', Ok tt)
  | (c', _) => (c', Panic)
  end.
End Fake.

(** ** Lemmas *)

Lemma occurs_in a s : a ∈ String.list_ascii_of_string s -> Region.occurs a s = true.
Proof.
  induction s as [|b s IH]; cbn; [by intros ?%elem_of_nil|].
  intros [->|Hin]%elem_of_cons; [by rewrite bool_decide_eq_true_2|]. by rewrite IH, orb_true_r.
Qed.

Lemma parse_value_text v : (v < 2 ^ 64)%N -> parse_value (value_text v) = Some v.
Proof.
  intros Hv. unfold parse_value, value_text, bytes_of_string. rewrite decide_True.
  - replace (ascii_of_N <$> (N_of_ascii <$> String.list_ascii_of_string (pretty v)))
      with (String.list_ascii_of_string (pretty v)).
    + rewrite String.string_of_list_ascii_of_string. by apply Config.parse_uint_pretty.
    + induction (String.list_ascii_of_string (pretty v)) as [|a l IH]; [done|]. cbn.
      rewrite ascii_N_embedding. f_equal. exact IH.
  - apply Forall_fmap, Forall_forall. intros a Ha%occurs_in. cbn.
    destruct (Config.digit_value a) as [d|] eqn:E; [|by rewrite Config.pretty_no_char in Ha].
    unfold Config.digit_value in E. case_decide; [lia|done].
Qed.


(** *** Numbers as texts *)

(** what the decimal digits of a text mean *)
Definition decimal (ds : Bytes) : N := foldl (fun n d => 10 * n + (d - 48))%N 0%N ds.

(** the text, or its absence, stands for the number *)
Definition stands_for (b : option Bytes) (v : N) : Prop :=
  match b with
  | None => v = 0%N
  | Some text => exists ds, (text = ds \/ text = 43%N :: ds) /\ ds <> [] /\
      Forall (fun d => 48 <= d <= 57)%N ds /\ decimal ds = v /\ (v < 2 ^ 64)%N
  end.

Lemma parse_digits_decimal bound l acc v :
  (acc < bound)%N -> Forall (fun x => x < 128)%N l ->
  Config.parse_digits bound acc (String.string_of_list_ascii (ascii_of_N <$> l)) = Some v ->
  Forall (fun d => 48 <= d <= 57)%N l /\ foldl (fun n d => 10 * n + (d - 48))%N acc l = v /\ (v < bound)%N.
Proof.
  revert acc. induction l as [|x l IH]; intros acc Hacc; cbn; [by intros _ [= <-]|].
  intros [Hx Hl]%Forall_cons. unfold Config.digit_value. rewrite N_ascii_embedding by lia.
  case_decide as Hd; [|done]. case_decide as Hb; [|done]. intros (Hf & Hv & Hlt)%IH; [|done..].
  split_and!; [constructor; [lia|done]| |done]. rewrite <- Hv. f_equal. lia.
Qed.

Lemma parse_value_stands b v : parse_value b = Some v -> stands_for (Some b) v.
Proof.
  unfold parse_value. case_decide as Hf; [|done]. unfold Config.parse_u64, Config.parse_uint.
  destruct b as [|x l]; [done|].
  pose proof (parse_digits_decimal (2 ^ 64) (x :: l) 0 v ltac:(done) Hf) as Hall.
  apply Forall_cons in Hf as [Hx Hl].
  pose proof (parse_digits_decimal (2 ^ 64) l 0 v ltac:(done) Hl) as Htail. cbn in Hall |- *.
  destruct (decide (x = 43)%N) as [->|Hne].
  - destruct l as [|y l]; [done|]. cbn in Htail |- *. intros (Hd & Hv & Hb)%Htail.
    exists (y :: l). split_and!; [by right|done..].
  - intros E. assert (Hd : Config.parse_digits (2 ^ 64) 0
      (String (ascii_of_N x) (String.string_of_list_ascii (ascii_of_N <$> l))) = Some v).
    { assert (Ha : ascii_of_N x <> "+"%char).
      { intros Ha. apply Hne. rewrite <- (N_ascii_embedding x) by lia. by rewrite Ha. }
      revert E Ha. clear. generalize (ascii_of_N x). intros a.
      generalize (String.string_of_list_ascii (ascii_of_N <$> l)). intros s.
      destruct a as [[] [] [] [] [] [] [] []]; done. }
    destruct (Hall Hd) as (? & ? & ?). exists (x :: l). split_and!; [by left|done..].
Qed.

Lemma value_text_stands v : (v < 2 ^ 64)%N -> stands_for (Some (value_text v)) v.
Proof. intros Hv. by apply parse_value_stands, parse_value_text. Qed.

(** a file with a number on every line *)
Definition file_text (keys : list N) : string :=
  foldr (fun k s => pretty k +:+ String newline s) ""%string keys.

Lemma trim_id s : (forall a, Region.occurs a s = true -> Ascii.is_space a = false) -> trim s = s.
Proof.
  intros Hs. unfold trim. assert (trim_end s = s) as He.
  { induction s as [|a s IH]; [done|]. cbn [trim_end]. rewrite IH.
    - destruct s; [|done]. rewrite Hs; [done|]. cbn. by rewrite bool_decide_eq_true_2.
    - intros b Hb. apply Hs. cbn. rewrite Hb. apply orb_true_r. }
  destruct s as [|a s]; [done|]. cbn [trim_start]. rewrite Hs; [done|].
  cbn. by rewrite bool_decide_eq_true_2.
Qed.

Lemma space_not_digit a : Ascii.is_space a = true -> Config.digit_value a = None.
Proof. by destruct a as [[] [] [] [] [] [] [] []]. Qed.

Lemma trim_pretty (k : N) : trim (pretty k) = pretty k.
Proof.
  apply trim_id. intros a Ha. apply not_true_is_false. intros Hs%space_not_digit.
  by rewrite (Config.pretty_no_char a k Hs) in Ha.
Qed.

Lemma pretty_not_empty (k : N) : pretty k <> ""%string.
Proof.
  intros E. assert (forall y s, s <> ""%string -> pretty_N_go y s <> ""%string) as Hgo.
  { intros y. induction (N.lt_wf_0 y) as [y _ IH]; intros s Hs.
    destruct (decide (y = 0)%N) as [->|Hne]; [by rewrite pretty_N_go_0|].
    rewrite pretty_N_go_step by lia. by apply IH; [apply N.div_lt; lia|]. }
  unfold pretty, pretty_N in E. case_decide; [done|].
  rewrite pretty_N_go_step in E by lia. by apply Hgo in E.
Qed.

Lemma ycsb_lines_file keys : ycsb_lines (file_text keys) = pretty <$> keys.
Proof.
  unfold ycsb_lines. induction keys as [|k keys IH]; [done|]. cbn [file_text foldr].
  rewrite Region.split_app by (by apply Config.pretty_no_char).
  rewrite !fmap_cons, trim_pretty, filter_cons_True by apply pretty_not_empty. by rewrite <- IH.
Qed.

(** The workload [ycsb] replays its file from the end. A file with one key on
    every line gives one transaction for each of its lines, the last line first,
    which reads and writes that one key; there is no transaction after the
    first line, where the generator panics. *)
Theorem ycsb_replays_file `{Workload.RandCrate Rng} c w keys ids drawn id :
  Forall (fun k => k < 2 ^ 64)%N keys -> length ids = length keys ->
  Workload.workload_type c = "ycsb"%string -> Workload.fake_transactions c = false ->
  exists g : WorkloadGenerator Rng,
    generate_all c w ids (new_generator c drawn (Some (file_text keys))) =
      Some (g, (fun k => GeneratedRw (mkRwTransaction (Workload.workload_keyspace c w) [k] (Some [k])))
                 <$> reverse keys) /\
    generate_transaction c w id g = None.
Proof.
  intros Hk Hl Ht Hf. unfold new_generator. rewrite decide_True by done. cbn [option_fmap option_map fmap].
  rewrite ycsb_lines_file. generalize (Workload.seed_from_u64 (Rng := Rng) (default drawn (Workload.seed c))).
  intros r. revert keys Hk Hl. induction ids as [|i ids IH]; intros keys Hk Hl.
  { destruct keys; [|done]. eexists. split; [done|].
    unfold generate_transaction, Workload.transaction_keys. by rewrite Ht. }
  destruct keys as [|k keys _] using rev_ind; [done|].
  rewrite length_app in Hl. cbn in Hl. apply Forall_app in Hk as [Hk [Hk1 _]%Forall_cons].
  destruct (IH keys Hk ltac:(lia)) as (g & Eg & Hg). exists g. split; [|done].
  cbn [generate_all]. unfold generate_transaction at 1, Workload.transaction_keys.
  rewrite Ht, Hf. cbn [ycsb_transactions decide]. rewrite decide_False, decide_True by done.
  cbn [mbind option_bind]. rewrite fmap_app. change (pretty <$> [k]) with [pretty k : string].
  rewrite last_snoc. cbn [mbind option_bind].
  unfold Config.parse_u64. rewrite Config.parse_uint_pretty by done. cbn [mbind option_bind].
  rewrite length_app, Nat.add_1_r. cbn [length pred rng pending_commit_table].
  rewrite take_app_length, Eg. cbn [mbind option_bind]. by rewrite reverse_snoc.
Qed.

Section RwLemmas.
Context `{Coordinator.Services W}.
Context (join : HashOrder).
Context `{HashOrder}.
Context (overall_timeout : Z) (strategy : CommitStrategy).
Context (parse_uuid : string -> option Uuid) (print_uuid : Uuid -> string).

Lemma unwrapped_ok {A} (m : M (Server W) TStatus A) sv sv' a :
  unwrapped m sv = (sv', Ok a) -> m sv = (sv', Ok a).
Proof. unfold unwrapped. by destruct (m sv) as [sv1 []]; intros [= <- <-]. Qed.

(** the identity of a transaction *)
Definition same_tx (t t' : Coordinator.Transaction) : Prop :=
  Coordinator.id t' = Coordinator.id t /\ Coordinator.keyspace t' = Coordinator.keyspace t.

Lemma read_keys_spec tid id h ks keys results sv sv' results' t :
  parse_uuid tid = Some id -> transaction_table sv !! id = Some h -> transactions sv !! h = Some t ->
  read_keys parse_uuid tid ks keys results sv = (sv', Ok results') ->
  transaction_table sv' = transaction_table sv /\ stats_per_keyspace sv' = stats_per_keyspace sv /\
  (exists t', transactions sv' !! h = Some t' /\ same_tx t t') /\
  (forall k, k ∈ keys \/ is_Some (results !! k) -> is_Some (results' !! k)).
Proof.
  intros Hp. revert results sv t. induction keys as [|key keys IH]; intros results sv t Ht Htr.
  { intros [= <- <-]. split_and!; [done|done|by exists t|]. by intros k [?%elem_of_nil|]. }
  cbn [read_keys]. unfold m_then at 1.
  destruct (unwrapped _ sv) as [sv1 [value|e|]] eqn:E; try done. apply unwrapped_ok in E.
  unfold m_then at 1. destruct (match value with Some _ => _ | None => _ end) as [v|]; [|done].
  cbn [m_unwrap m_ret].
  destruct (get_moves parse_uuid tid id h ks (Workload.to_be_bytes key) sv sv1 value same_tx Hp Ht)
    as (Etb & Est & Hm); [|done|].
  { intros s. split; [apply get_keeps_id|]. apply (keeps_get ks (Workload.to_be_bytes key) s). }
  destruct (Hm t Ht Htr) as (t1 & Ht1 & Hsame1). intros Er.
  destruct (IH _ sv1 t1 ltac:(by rewrite Etb) Ht1 Er) as (Etb' & Est' & (t' & Ht' & Hsame) & Hres).
  split_and!; [congruence|congruence| |].
  - exists t'. split; [done|]. destruct Hsame, Hsame1. split; congruence.
  - intros k Hk. apply Hres. destruct (decide (k = key)) as [->|Hne].
    + right. by rewrite lookup_insert_eq.
    + rewrite lookup_insert_ne by done. set_solver.
Qed.

(** the frontend answers the gets of [keys] with [answers], one after the other *)
Fixpoint gets (tid : string) (ks : Keyspace) (keys : list N) (answers : list (option Bytes))
    (sv sv' : Server W) : Prop :=
  match keys, answers with
  | [], [] => sv' = sv
  | key :: keys', a :: answers' =>
      exists sv1, get parse_uuid (mkGetRequest tid (Some ks) (Workload.to_be_bytes key)) sv = (sv1, Ok a) /\
        gets tid ks keys' answers' sv1 sv'
  | _, _ => False
  end.

(** [a] is the answer to the last get of [key] *)
Definition last_answer (keys : list N) (answers : list (option Bytes)) (key : N) (a : option Bytes) : Prop :=
  exists i, keys !! i = Some key /\ answers !! i = Some a /\ forall j, i < j -> keys !! j <> Some key.

Lemma read_keys_gets tid ks keys results sv sv' results' :
  read_keys parse_uuid tid ks keys results sv = (sv', Ok results') ->
  exists answers, gets tid ks keys answers sv sv' /\
    forall k v, results' !! k = Some v ->
      (exists a, last_answer keys answers k a /\ stands_for a v) \/
      (results !! k = Some v /\ k ∉ keys).
Proof.
  revert results sv. induction keys as [|key keys IH]; intros results sv.
  { intros [= <- <-]. exists []. split; [done|]. intros k v Hv. right. split; [done|]. apply not_elem_of_nil. }
  cbn [read_keys]. unfold m_then at 1.
  destruct (unwrapped _ sv) as [sv1 [value|e|]] eqn:E; try done. apply unwrapped_ok in E.
  unfold m_then at 1. destruct (match value with Some _ => _ | None => _ end) as [v|] eqn:Ev; [|done].
  cbn [m_unwrap m_ret]. intros Er. destruct (IH _ _ Er) as (answers & Hg & Hres).
  exists (value :: answers). split; [by exists sv1|]. intros k v' [(a & (i & Hi & Ha & Hlast) & Hst)|[Hv Hni]]%Hres.
  - left. exists a. split; [|done]. exists (S i). split_and!; [done..|]. intros [|j] Hj; [lia|]. apply Hlast. lia.
  - destruct (decide (k = key)) as [->|Hne].
    + left. exists value. rewrite lookup_insert_eq in Hv. injection Hv as ->. split.
      * exists 0. split_and!; [done..|]. intros [|j] Hj; [lia|]. cbn. intros Hk. by apply Hni, list_elem_of_lookup_2 with j.
      * destruct value; [by apply parse_value_stands|by injection Ev].
    + right. rewrite lookup_insert_ne in Hv by done. split; [done|]. by apply not_elem_of_cons.
Qed.

Lemma write_keys_spec tid id h ks keys results sv sv' t :
  parse_uuid tid = Some id -> transaction_table sv !! id = Some h -> transactions sv !! h = Some t ->
  Forall (fun k => k < 2 ^ 64)%N keys ->
  m_for keys (write_key parse_uuid tid ks results) sv = (sv', Ok tt) ->
  transaction_table sv' = transaction_table sv /\ stats_per_keyspace sv' = stats_per_keyspace sv /\
  exists t', transactions sv' !! h = Some t' /\ same_tx t t' /\
    forall k, k ∈ keys -> exists v, results !! k = Some v /\
      holds_write t' (Workload.to_be_bytes k) (value_text (next_value v)).
Proof.
  intros Hp Ht Htr Hkeys Hf. rewrite Forall_forall in Hkeys.
  destruct (for_moves id h _ (fun k t' => exists v, results !! k = Some v /\
      holds_write t' (Workload.to_be_bytes k) (value_text (next_value v)))
    (same_tx t) keys sv sv' t Hf) as (Etb & Est & t' & Ht' & HQ & HP & _); try done.
  - intros k sv1 sv2 Hk Ht1. unfold write_key, m_then. destruct (results !! k) as [v|] eqn:Ev; [|done].
    cbn [m_unwrap m_ret]. intros E%unwrapped_ok.
    destruct (put_moves parse_uuid tid id h ks _ _ sv1 sv2 Hp Ht1 E) as (? & ? & Hm).
    split_and!; [done|done|]. intros t1 Ht1' Htr1.
    destruct (Hm t1 Ht1' Htr1) as (t2 & Ht2 & Hw & [Hi Hks] & Hkeep). exists t2. split_and!; [done| | |].
    + by exists v.
    + intros [? ?]. split; congruence.
    + intros k' Hk' (v' & Hv' & Hw'). exists v'. split; [done|]. apply Hkeep; [|done].
      intros Heq%Workload.to_be_bytes_inj; [|by apply Hkeys..]. congruence.
  - split_and!; [done|done|]. by exists t'.
Qed.

(** ** Properties *)

(** C26: A transaction of the generator increments its keys. When it succeeds, it has
    started one new transaction, the frontend has answered a get for every key of
    its read set, one after the other, and the transaction has committed, for
    every key of its write set, a decimal text of one more than the number that
    the answer to the last get of the key stands for, which is 0 when the key had
    no value; the addition is that of 64 bits. The transaction has left the table
    and the count of open clients is what it was. (The identifier of the
    transaction survives its text form, the keys are below 2^64, and the count of
    the keyspace fits into 32 bits.) *)
Theorem rw_transaction_increments id now ks reads writes sv sv' :
  parse_uuid (print_uuid id) = Some id -> Forall (fun k => k < 2 ^ 64)%N writes ->
  (0 <= open_number ks sv < 2 ^ 32)%Z ->
  rw_execute join overall_timeout strategy parse_uuid print_uuid id now
    (mkRwTransaction ks reads (Some writes)) sv = (sv', Ok tt) ->
  exists h t sv1 sv2 answers, transactions sv !! h = None /\ transactions sv' !! h = Some t /\
    Coordinator.id t = id /\ Coordinator.state t <> Coordinator.Running /\
    start_transaction overall_timeout strategy print_uuid id now
      (mkStartTransactionRequest (Some ks)) sv = (sv1, Ok (print_uuid id)) /\
    gets (print_uuid id) ks reads answers sv1 sv2 /\
    (forall k, k ∈ writes -> exists a v text, last_answer reads answers k a /\ stands_for a v /\
       stands_for (Some text) ((v + 1) mod 2 ^ 64) /\ holds_write t (Workload.to_be_bytes k) text) /\
    transaction_table sv' !! id = None /\ open_number ks sv' = open_number ks sv.
Proof.
  intros Hp Hkeys Hn. unfold rw_execute. unfold m_then at 1. cbn [rw_keyspace readset rw_writeset].
  destruct (unwrapped _ sv) as [sv1 [tid|e|]] eqn:E1; try done. apply unwrapped_ok in E1.
  destruct (start_transaction_spec _ _ _ _ _ _ _ _ _ E1) as (-> & h & Hh & Ht1 & Htb1 & Hn1).
  rewrite Hp. erewrite then_ok by done.
  unfold m_then at 1. destruct (read_keys _ _ _ _ _ sv1) as [sv2 [results|e|]] eqn:E2; try done.
  destruct (read_keys_spec _ id h ks reads ∅ sv1 sv2 results _ Hp Htb1 Ht1 E2)
    as (Etb2 & Est2 & (t2 & Ht2 & Hid2 & Hks2) & _).
  unfold m_then at 1. destruct (m_for _ _ sv2) as [sv3 [[]|e|]] eqn:E3; try done.
  destruct (write_keys_spec _ id h ks writes results sv2 sv3 t2 Hp ltac:(by rewrite Etb2) Ht2 Hkeys E3)
    as (Etb3 & Est3 & t3 & Ht3 & [Hid3 Hks3] & Hw3).
  intros E4%unwrapped_ok.
  destruct (commit_handler join parse_uuid _ id h t3 sv3 sv' Hp) as (t4 & Ht4 & Hw4 & Hks4 & Hstop & Htb4 & Hn4);
    [by rewrite Etb3, Etb2|done|done|].
  cbn in Hid2, Hks2. rewrite Hks3, Hks2 in Hn4.
  destruct (read_keys_gets _ _ _ _ _ _ _ E2) as (answers & Hgets & Hans).
  exists h, t4, sv1, sv2, answers. split_and!; try done.
  - destruct Hw4 as [_ ->]. by rewrite Hid3, Hid2.
  - intros k Hk. destruct (Hw3 k Hk) as (v & Hv & Hw).
    destruct (Hans k v Hv) as [(a & Hl & Hs)|[? _]]; [|done].
    exists a, v, (value_text (next_value v)). split_and!; [done..| |by eapply same_writes_holds].
    apply value_text_stands. unfold next_value. by apply N.mod_lt.
  - rewrite Htb4. apply lookup_delete_eq.
  - rewrite Hn4. unfold open_number in *. rewrite Est3, Est2, Hn1. unfold wrap_u32.
    rewrite Zminus_mod_idemp_l. replace (_ + 1 - 1)%Z with (open_number ks sv) by (unfold open_number; lia).
    by apply Z.mod_small.
Qed.
End RwLemmas.


(** A fake transaction is committed without reading or writing: the resolver gets
    the identity, the dependencies and one participant range per key that the
    generator chose, marked as fake, and whatever it answers short of a crash,
    errors included, is a success to the generator. *)
Theorem fake_execute_commits `{ResolverClient.ResolverCore C, HashOrder} parse_uuid print_uuid
    (t : Workload.FakeTransaction) (c : C) :
  (forall u : Uuid, parse_uuid (print_uuid u) = Some u) ->
  fake_execute parse_uuid print_uuid t c =
  match ResolverClient.core_commit (Workload.fake_id t) (Workload.dependencies t)
          (fake_participants t) true c with
  | (c', Panic) => (c', Panic)
  | (c', _) => (c', Ok tt)
  end.
Proof.
  intros Hp. unfold fake_execute, fake_request. rewrite ResolverClient.server_commit_core by done.
  by destruct (ResolverClient.core_commit _ _ _ _ c) as [c' []].
Qed.

(** What the generator writes as text it reads back as the same number. *)
Theorem value_roundtrip v :
  (v < 2 ^ 64)%N -> parse_value (value_text v) = Some v.
Proof. apply parse_value_text. Qed.

(** ** Witnesses *)

Lemma fake_execute_commits_witness :
  (fake_execute (H := ResolverClient.sample_core) (H0 := element_order) Universe.unary_parse
     Universe.unary_print (Workload.mkFakeTransaction 7 Oracle.sample_ks [1; 2]%N {[5%N]}) ResolverClient.sample_tracked).2
  = Ok tt.
Proof.
  rewrite (fake_execute_commits (H := ResolverClient.sample_core) (H0 := element_order)
    Universe.unary_parse Universe.unary_print) by apply Universe.unary_roundtrip.
  vm_compute. reflexivity.
Defined.

#[local] Existing Instance Workload.first_choice.
Lemma ycsb_replays_file_witness :
  exists g : WorkloadGenerator unit,
    generate_transaction (Workload.mkWorkloadConfig None 9 (Float64.of_Z 1) "ns" "wl" "2" None [] false "ycsb")
      0 7 g = None.
Proof.
  destruct (ycsb_replays_file
    (Workload.mkWorkloadConfig None 9 (Float64.of_Z 1) "ns" "wl" "2" None [] false "ycsb")
    0 [5; 8]%N [1; 2]%N 0 7) as (g & _ & Hg); [by repeat constructor|reflexivity..|].
  exists g. exact Hg.
Defined.

Lemma value_roundtrip_witness : parse_value (value_text 1024) = Some 1024%N.
Proof. apply value_roundtrip. reflexivity. Defined.

(** a key of the range of the sample database *)
Definition sample_key : N := 2 ^ 56.
Definition sample_server : Server System.Sample := Frontend.new System.sample_world.
Definition sample_rw (id : Uuid) := rw_execute (H := System.sample_services) (H0 := element_order)
  element_order 1000000000 Traditional Universe.unary_parse Universe.unary_print id 0
  (mkRwTransaction Oracle.sample_ks [sample_key] (Some [sample_key])).
Definition sample_read (id : Uuid) (sv : Server System.Sample) :=
  let (sv1, r) := System.sample_start id 0 (mkStartTransactionRequest (Some Oracle.sample_ks)) sv in
  match r with
  | Ok tid => (System.sample_get (mkGetRequest tid (Some Oracle.sample_ks) (Workload.to_be_bytes sample_key)) sv1).2
  | _ => Panic
  end.

(** three transactions of one key of an empty database leave it at 3 *)
Definition sample_thrice : Server System.Sample * result TStatus unit :=
  (sample_rw 7 ;;; sample_rw 8 ;;; sample_rw 9) sample_server.
Lemma three_increments :
  sample_thrice.2 = Ok tt /\ sample_read 10 sample_thrice.1 = Ok (Some (value_text 3)).
Proof. split; vm_compute; reflexivity. Qed.

Definition sample_once : Server System.Sample * result TStatus unit := sample_rw 7 sample_server.
Lemma rw_transaction_increments_witness :
  exists t text, Coordinator.id t = 7%N /\ holds_write t (Workload.to_be_bytes sample_key) text /\
    exists v, stands_for (Some text) ((v + 1) mod 2 ^ 64).
Proof.
  assert (E : sample_once = (sample_once.1, Ok tt)) by (vm_compute; reflexivity).
  destruct (rw_transaction_increments (H := System.sample_services) (H0 := element_order)
    element_order 1000000000 Traditional Universe.unary_parse Universe.unary_print 7 0 Oracle.sample_ks
    [sample_key] [sample_key] sample_server sample_once.1) as (h & t & _ & _ & answers & _ & _ & Hi & _ & _ & _ & Hw & _).
  - apply Universe.unary_roundtrip.
  - apply Forall_singleton. reflexivity.
  - vm_compute. split; [intros [=]|reflexivity].
  - exact E.
  - destruct (Hw sample_key) as (a & v & text & _ & _ & Hs & Hh); [apply list_elem_of_here|].
    exists t, text. split; [exact Hi|]. split; [exact Hh|]. exists v. exact Hs.
Defined.

End WorkloadTx.
