(* ===== verification/Deployment.v ===== *)
(** * The configuration file:
      [src/common/src/config.rs], [src/configs] and the arguments of the services

    The configuration is read from a JSON file, whose values the crate
    [serde_json] gives as a tree. What the derived deserialisers accept of it is
    modelled, with the files of the repository, the defaults of the command lines
    and the addresses that are written in the code. *)

From Stdlib Require Import Ascii Floats.SpecFloat.
From stdpp Require Import base tactics list numbers option gmap sets strings pretty.
From S2P Require Import Prelude Float64 Common Region Config Warden ClientPool Oracle Workload.

Module Deployment.
Import Common Config.
Local Open Scope string_scope.

(** ** JSON *)

Inductive Json :=
| JNull
| JBool (b : bool)
| JNumber (n : N)                     (** an integer that is not negative *)
| JFloat (f : spec_float)             (** a number with a fraction, as [f64] *)
| JString (s : string)
| JArray (l : list Json)
| JObject (l : list (string * Json)). (** in the order of the file *)

Definition Decoder (A : Type) : Type := Json -> result unit A.

Definition r_then {A B} (m : result unit A) (k : A -> result unit B) : result unit B :=
  match m with Ok a => k a | Err e => Err e | Panic => Panic end.
Notation "'let?' x := m 'in' k" := (r_then m (fun x => k))
  (at level 10, x pattern, m at level 100, k at level 200).

Definition de_bool : Decoder bool := fun j => match j with JBool b => Ok b | _ => Err tt end.
Definition de_string : Decoder string := fun j => match j with JString s => Ok s | _ => Err tt end.
Definition de_uint (bound : N) : Decoder N := fun j =>
  match j with JNumber n => if decide (n < bound)%N then Ok n else Err tt | _ => Err tt end.
Definition de_u32 : Decoder N := de_uint (2 ^ 32).
Definition de_u64 : Decoder N := de_uint (2 ^ 64).
Definition de_f64 : Decoder spec_float := fun j =>
  match j with JNumber n => Ok (Float64.of_Z (Z.of_N n)) | JFloat f => Ok f | _ => Err tt end.

(** [as f32] *)
Definition to_f32 (f : spec_float) : spec_float :=
  match f with
  | S754_finite s m e => binary_normalize 24 128 (cond_Zopp s (Z.pos m)) e s
  | _ => f
  end.
Definition de_f32 : Decoder spec_float := fun j =>
  match j with
  | JNumber n => Ok (binary_normalize 24 128 (Z.of_N n) 0 false)
  | JFloat f => Ok (to_f32 f)
  | _ => Err tt
  end.

Definition de_option {A} (de : Decoder A) : Decoder (option A) := fun j =>
  match j with JNull => Ok None | _ => let? a := de j in Ok (Some a) end.

Fixpoint de_all {A} (de : Decoder A) (l : list Json) : result unit (list A) :=
  match l with
  | [] => Ok []
  | j :: l' => let? a := de j in let? as' := de_all de l' in Ok (a :: as')
  end.
Definition de_vec {A} (de : Decoder A) : Decoder (list A) := fun j =>
  match j with JArray l => de_all de l | _ => Err tt end.

(** a derived structure: the entries are read in the order of the file, those of
    other names are skipped, a name that comes twice is an error *)
Definition checks {A} (de : Decoder A) : Decoder unit := fun j => let? _ := de j in Ok tt.

Fixpoint check_entries (fields : list (string * Decoder unit)) (seen : list string)
    (l : list (string * Json)) : result unit unit :=
  match l with
  | [] => Ok tt
  | (name, j) :: l' =>
      match find (fun f => String.eqb f.1 name) fields with
      | None => check_entries fields seen l'
      | Some f =>
          if decide (name ∈ seen) then Err tt
          else let? _ := f.2 j in check_entries fields (name :: seen) l'
      end
  end.

Definition lookup_entry (name : string) (l : list (string * Json)) : option Json :=
  snd <$> find (fun e => String.eqb e.1 name) l.

Definition field {A} (name : string) (de : Decoder A) (l : list (string * Json)) : result unit A :=
  match lookup_entry name l with Some j => de j | None => Err tt end.
(** a field of an optional type may be missing *)
Definition optional_field {A} (name : string) (de : Decoder A) (l : list (string * Json))
    : result unit (option A) :=
  match lookup_entry name l with Some j => de_option de j | None => Ok None end.

Definition de_struct {A} (fields : list (string * Decoder unit))
    (build : list (string * Json) -> result unit A) : Decoder A := fun j =>
  match j with
  | JObject l => let? _ := check_entries fields [] l in build l
  | _ => Err tt
  end.

(** ** The types of the configuration *)

(** [Duration], in nanoseconds: the seconds must not overflow *)
Definition de_duration : Decoder Z :=
  de_struct [("secs", checks de_u64); ("nanos", checks de_u32)] (fun l =>
    let? secs := field "secs" de_u64 l in
    let? nanos := field "nanos" de_u32 l in
    if decide (secs + nanos / 10 ^ 9 < 2 ^ 64)%N
    then Ok (Z.of_N secs * 10 ^ 9 + Z.of_N nanos)%Z else Err tt).

Definition de_host_port : Decoder HostPort := fun j => let? s := de_string j in deserialize s.
Definition drop_text {A} (r : result string A) : result unit A :=
  match r with Ok a => Ok a | Err _ => Err tt | Panic => Panic end.
Definition de_region : Decoder Region.Region := fun j => let? s := de_string j in drop_text (Region.visit_region s).
Definition de_zone : Decoder Region.Zone := fun j => let? s := de_string j in drop_text (Region.visit_zone s).

Definition de_resolver_mode : Decoder ResolverMode := fun j =>
  let? s := de_string j in
  if decide (s = "Local") then Ok Local else if decide (s = "Remote") then Ok Remote else Err tt.
Definition de_commit_strategy : Decoder CommitStrategy := fun j =>
  let? s := de_string j in
  if decide (s = "Traditional") then Ok Traditional
  else if decide (s = "Pipelined") then Ok Pipelined
  else if decide (s = "Adaptive") then Ok Adaptive else Err tt.
Definition de_heuristic : Decoder Heuristic := fun j =>
  let? s := de_string j in
  if decide (s = "OpenClients") then Ok OpenClients
  else if decide (s = "LockContention") then Ok LockContention else Err tt.

Record EpochConfig := mkEpochConfig { ep_proto_server_addr : HostPort; epoch_duration : Z }.
Definition de_epoch_config : Decoder EpochConfig :=
  de_struct [("proto_server_addr", checks de_host_port); ("epoch_duration", checks de_duration)] (fun l =>
    let? a := field "proto_server_addr" de_host_port l in
    let? d := field "epoch_duration" de_duration l in
    Ok (mkEpochConfig a d)).

Record CassandraConfig := mkCassandraConfig { cql_addr : HostPort }.
Definition de_cassandra_config : Decoder CassandraConfig :=
  de_struct [("cql_addr", checks de_host_port)] (fun l =>
    let? a := field "cql_addr" de_host_port l in Ok (mkCassandraConfig a)).

Record EpochPublisher := mkEpochPublisher {
  publisher_name : string;
  backend_addr : HostPort;
  publisher_fast_network_addr : HostPort;
  publisher_polling_core_id : N
}.
Definition de_epoch_publisher : Decoder EpochPublisher :=
  de_struct [("name", checks de_string); ("backend_addr", checks de_host_port);
             ("fast_network_addr", checks de_host_port);
             ("fast_network_polling_core_id", checks de_u32)] (fun l =>
    let? n := field "name" de_string l in
    let? b := field "backend_addr" de_host_port l in
    let? f := field "fast_network_addr" de_host_port l in
    let? c := field "fast_network_polling_core_id" de_u32 l in
    Ok (mkEpochPublisher n b f c)).

(** the sets as the lists of their elements *)
Record EpochPublisherSet := mkEpochPublisherSet {
  set_name : string;
  set_zone : Region.Zone;
  publishers : list EpochPublisher
}.
#[global] Instance HostPort_eq_dec : EqDecision HostPort.
Proof. solve_decision. Defined.
#[global] Instance EpochPublisher_eq_dec : EqDecision EpochPublisher.
Proof. solve_decision. Defined.
#[global] Instance EpochPublisherSet_eq_dec : EqDecision EpochPublisherSet.
Proof. solve_decision. Defined.

Definition de_set {A} `{EqDecision A} (de : Decoder A) : Decoder (list A) := fun j =>
  let? l := de_vec de j in Ok (remove_dups l).

Definition de_epoch_publisher_set : Decoder EpochPublisherSet :=
  de_struct [("name", checks de_string); ("zone", checks de_zone);
             ("publishers", checks (de_set de_epoch_publisher))] (fun l =>
    let? n := field "name" de_string l in
    let? z := field "zone" de_zone l in
    let? p := field "publishers" (de_set de_epoch_publisher) l in
    Ok (mkEpochPublisherSet n z p)).

Record RangeServerConfig := mkRangeServerConfig {
  wal_buffer_capacity : N;
  wal_buffer_flush_interval : Z;
  range_maintenance_duration : Z;
  rs_proto_server_addr : HostPort;
  rs_fast_network_addr : HostPort;
  rs_polling_core_id : N;
  rs_core_ids : list N
}.
Definition de_range_server_config : Decoder RangeServerConfig :=
  de_struct [("wal_buffer_capacity", checks de_u64); ("wal_buffer_flush_interval", checks de_duration);
             ("range_maintenance_duration", checks de_duration);
             ("proto_server_addr", checks de_host_port); ("fast_network_addr", checks de_host_port);
             ("fast_network_polling_core_id", checks de_u32);
             ("background_runtime_core_ids", checks (de_vec de_u32))] (fun l =>
    let? a := field "wal_buffer_capacity" de_u64 l in
    let? b := field "wal_buffer_flush_interval" de_duration l in
    let? c := field "range_maintenance_duration" de_duration l in
    let? d := field "proto_server_addr" de_host_port l in
    let? e := field "fast_network_addr" de_host_port l in
    let? f := field "fast_network_polling_core_id" de_u32 l in
    let? g := field "background_runtime_core_ids" (de_vec de_u32) l in
    Ok (mkRangeServerConfig a b c d e f g)).

Record RegionConfig := mkRegionConfig {
  warden_address : HostPort;
  epoch_publishers : list EpochPublisherSet
}.
Definition de_region_config : Decoder RegionConfig :=
  de_struct [("warden_address", checks de_host_port);
             ("epoch_publishers", checks (de_set de_epoch_publisher_set))] (fun l =>
    let? a := field "warden_address" de_host_port l in
    let? p := field "epoch_publishers" (de_set de_epoch_publisher_set) l in
    Ok (mkRegionConfig a p)).

Record UniverseConfig := mkUniverseConfig { un_proto_server_addr : HostPort }.
Definition de_universe_config : Decoder UniverseConfig :=
  de_struct [("proto_server_addr", checks de_host_port)] (fun l =>
    let? a := field "proto_server_addr" de_host_port l in Ok (mkUniverseConfig a)).

Record FrontendConfig := mkFrontendConfig {
  fe_proto_server_addr : HostPort;
  fe_fast_network_addr : HostPort;
  fe_polling_core_id : N;
  fe_core_ids : list N;
  transaction_overall_timeout : Z;
  resolver_load_sampling_period : Z
}.
Definition de_frontend_config : Decoder FrontendConfig :=
  de_struct [("proto_server_addr", checks de_host_port); ("fast_network_addr", checks de_host_port);
             ("fast_network_polling_core_id", checks de_u32);
             ("background_runtime_core_ids", checks (de_vec de_u32));
             ("transaction_overall_timeout", checks de_duration);
             ("resolver_load_sampling_period", checks de_duration)] (fun l =>
    let? a := field "proto_server_addr" de_host_port l in
    let? b := field "fast_network_addr" de_host_port l in
    let? c := field "fast_network_polling_core_id" de_u32 l in
    let? d := field "background_runtime_core_ids" (de_vec de_u32) l in
    let? e := field "transaction_overall_timeout" de_duration l in
    let? f := field "resolver_load_sampling_period" de_duration l in
    Ok (mkFrontendConfig a b c d e f)).

Record ResolverConfig := mkResolverConfig {
  mode : ResolverMode;
  re_proto_server_addr : HostPort;
  re_fast_network_addr : HostPort;
  re_polling_core_id : N;
  re_core_ids : list N;
  cpu_percentage : spec_float;
  stats_sampling_period : Z
}.
Definition de_resolver_config : Decoder ResolverConfig :=
  de_struct [("mode", checks de_resolver_mode);
             ("proto_server_addr", checks de_host_port); ("fast_network_addr", checks de_host_port);
             ("fast_network_polling_core_id", checks de_u32);
             ("background_runtime_core_ids", checks (de_vec de_u32));
             ("cpu_percentage", checks de_f32); ("stats_sampling_period", checks de_duration)] (fun l =>
    let? m := field "mode" de_resolver_mode l in
    let? a := field "proto_server_addr" de_host_port l in
    let? b := field "fast_network_addr" de_host_port l in
    let? c := field "fast_network_polling_core_id" de_u32 l in
    let? d := field "background_runtime_core_ids" (de_vec de_u32) l in
    let? e := field "cpu_percentage" de_f32 l in
    let? f := field "stats_sampling_period" de_duration l in
    Ok (mkResolverConfig m a b c d e f)).

(** a map whose keys are regions; of two entries for a region the later one stays *)
Fixpoint de_regions (l : list (string * Json)) (m : list (Region.Region * RegionConfig))
    : result unit (list (Region.Region * RegionConfig)) :=
  match l with
  | [] => Ok m
  | (name, j) :: l' =>
      let? r := de_region (JString name) in
      let? c := de_region_config j in
      de_regions l' ((r, c) :: filter (fun e => e.1 <> r) m)
  end.
Definition de_region_map : Decoder (list (Region.Region * RegionConfig)) := fun j =>
  match j with JObject l => de_regions l [] | _ => Err tt end.

Record Config := mkConfig {
  commit_strategy : CommitStrategy;
  heuristic : Heuristic;
  print_lock_table_state : bool;
  range_server : RangeServerConfig;
  epoch : EpochConfig;
  universe : UniverseConfig;
  frontend : FrontendConfig;
  resolver : ResolverConfig;
  cassandra : CassandraConfig;
  regions : list (Region.Region * RegionConfig)
}.
Definition de_config : Decoder Config :=
  de_struct [("commit_strategy", checks de_commit_strategy); ("heuristic", checks de_heuristic);
             ("print_lock_table_state", checks de_bool); ("range_server", checks de_range_server_config);
             ("epoch", checks de_epoch_config); ("universe", checks de_universe_config);
             ("frontend", checks de_frontend_config); ("resolver", checks de_resolver_config);
             ("cassandra", checks de_cassandra_config); ("regions", checks de_region_map)] (fun l =>
    let? a := field "commit_strategy" de_commit_strategy l in
    let? b := field "heuristic" de_heuristic l in
    let? c := field "print_lock_table_state" de_bool l in
    let? d := field "range_server" de_range_server_config l in
    let? e := field "epoch" de_epoch_config l in
    let? f := field "universe" de_universe_config l in
    let? g := field "frontend" de_frontend_config l in
    let? h := field "resolver" de_resolver_config l in
    let? i := field "cassandra" de_cassandra_config l in
    let? j := field "regions" de_region_map l in
    Ok (mkConfig a b c d e f g h i j)).

(** the configuration of the workload generator *)
Definition de_workload_config : Decoder Workload.WorkloadConfig :=
  de_struct [("num_queries", checks (de_option de_u64)); ("num_keys", checks de_u64);
             ("zipf_exponent", checks de_f64); ("namespace", checks de_string); ("name", checks de_string);
             ("max_concurrency", checks de_string); ("seed", checks (de_option de_u64));
             ("background_runtime_core_ids", checks (de_vec de_u32));
             ("fake_transactions", checks de_bool); ("workload_type", checks de_string)] (fun l =>
    let? a := optional_field "num_queries" de_u64 l in
    let? b := field "num_keys" de_u64 l in
    let? c := field "zipf_exponent" de_f64 l in
    let? d := field "namespace" de_string l in
    let? e := field "name" de_string l in
    let? f := field "max_concurrency" de_string l in
    let? g := optional_field "seed" de_u64 l in
    let? h := field "background_runtime_core_ids" (de_vec de_u32) l in
    let? i := field "fake_transactions" de_bool l in
    let? j := field "workload_type" de_string l in
    Ok (Workload.mkWorkloadConfig a b c d e f g h i j)).

(** ** The files of the repository *)

Definition config_json : Json :=
  JObject [("commit_strategy", JString "Pipelined");
    ("heuristic", JString "OpenClients");
    ("print_lock_table_state", JBool false);
    ("range_server", JObject [("wal_buffer_capacity", JNumber 1000);
      ("wal_buffer_flush_interval", JObject [("secs", JNumber 0);
        ("nanos", JNumber 1)]);
      ("range_maintenance_duration", JObject [("secs", JNumber 1);
        ("nanos", JNumber 0)]);
      ("proto_server_addr", JString "127.0.0.1:50054");
      ("fast_network_addr", JString "127.0.0.1:50055");
      ("fast_network_polling_core_id", JNumber 1000);
      ("background_runtime_core_ids", JArray (JNumber <$> [4; 5; 6; 7; 8; 9; 10; 11; 12; 13; 14; 15; 16; 17; 18; 19; 20; 21; 22; 23; 24; 25; 26; 27; 28; 29; 30; 31]%N))]);
    ("universe", JObject [("proto_server_addr", JString "127.0.0.1:50056")]);
    ("frontend", JObject [("proto_server_addr", JString "127.0.0.1:50057");
      ("fast_network_addr", JString "127.0.0.1:50058");
      ("fast_network_polling_core_id", JNumber 1000);
      ("background_runtime_core_ids", JArray (JNumber <$> [4; 5; 6; 7; 8; 9; 10; 11; 12; 13; 14; 15; 16; 17; 18; 19; 20; 21; 22; 23; 24; 25; 26; 27; 28; 29; 30; 31]%N));
      ("transaction_overall_timeout", JObject [("secs", JNumber 10);
        ("nanos", JNumber 0)]);
      ("resolver_load_sampling_period", JObject [("secs", JNumber 0);
        ("nanos", JNumber 100000)])]);
    ("resolver", JObject [("mode", JString "Remote");
      ("proto_server_addr", JString "127.0.0.1:50059");
      ("fast_network_addr", JString "127.0.0.1:50060");
      ("fast_network_polling_core_id", JNumber 1000);
      ("background_runtime_core_ids", JArray (JNumber <$> [1]%N));
      ("cpu_percentage", JNumber 1);
      ("stats_sampling_period", JObject [("secs", JNumber 0);
        ("nanos", JNumber 100000)])]);
    ("epoch", JObject [("proto_server_addr", JString "127.0.0.1:50050");
      ("epoch_duration", JObject [("secs", JNumber 0);
        ("nanos", JNumber 10000000)])]);
    ("cassandra", JObject [("cql_addr", JString "127.0.0.1:9042")]);
    ("regions", JObject [("test-region", JObject [("warden_address", JString "127.0.0.1:50053");
        ("epoch_publishers", JArray [JObject [("name", JString "ps1");
            ("zone", JString "test-region/a");
            ("publishers", JArray [JObject [("name", JString "ep1");
                ("backend_addr", JString "127.0.0.1:50051");
                ("fast_network_addr", JString "127.0.0.1:50052");
                ("fast_network_polling_core_id", JNumber 1000)]])]])])])].

Definition config_for_jepsen_json : Json :=
  JObject [("range_server", JObject [("range_maintenance_duration", JObject [("secs", JNumber 1);
        ("nanos", JNumber 0)]);
      ("proto_server_addr", JString "0.0.0.0:50054");
      ("fast_network_addr", JString "0.0.0.0:50055");
      ("fast_network_polling_core_id", JNumber 1)]);
    ("universe", JObject [("proto_server_addr", JString "atomix-universe:50056")]);
    ("frontend", JObject [("proto_server_addr", JString "127.0.0.1:50057");
      ("fast_network_addr", JString "127.0.0.1:50058");
      ("fast_network_polling_core_id", JNumber 2);
      ("transaction_overall_timeout", JObject [("secs", JNumber 10);
        ("nanos", JNumber 0)])]);
    ("epoch", JObject [("proto_server_addr", JString "atomix-epoch:50050");
      ("epoch_duration", JObject [("secs", JNumber 0);
        ("nanos", JNumber 10000000)])]);
    ("cassandra", JObject [("cql_addr", JString "cassandra:9042")]);
    ("regions", JObject [("test-region", JObject [("warden_address", JString "atomix-warden:50053");
        ("epoch_publishers", JArray [JObject [("name", JString "ps1");
            ("zone", JString "test-region/a");
            ("publishers", JArray [JObject [("name", JString "ep1");
                ("backend_addr", JString "atomix-epoch-publisher:50051");
                ("fast_network_addr", JString "atomix-epoch-publisher:50052");
                ("fast_network_polling_core_id", JNumber 3)]])]])])])].

Definition workload_config_json : Json :=
  JObject [("num_keys", JNumber 50);
    ("max_concurrency", JString "20");
    ("num_queries", JNumber 2000);
    ("zipf_exponent", JFloat (S754_zero false));
    ("namespace", JString "holy");
    ("name", JString "avocado");
    ("background_runtime_core_ids", JArray (JNumber <$> [3; 4; 5; 6; 7; 8; 9; 10; 11; 12; 13; 14; 15; 16; 17; 18; 19; 20; 21; 22; 23; 24; 25; 26; 27; 28; 29; 30; 31]%N));
    ("seed", JNumber 1234567890);
    ("fake_transactions", JBool false);
    ("workload_type", JString "custom")].

(** ** The arguments and the addresses *)

(** the arguments of the command lines and their defaults *)
Definition default_region : string := "test-region".
Definition default_zone : string := "a".
Definition default_identity : string := "test_server".
Definition default_address : string := "127.0.0.1:50054".

Definition region_of (c : Config) (region : string) : option RegionConfig :=
  snd <$> find (fun e => bool_decide (e.1 = Region.mkRegion None region)) (regions c).

(** the host that the range server announces to the warden *)
Definition range_server_host (region zone identity address : string) : Warden.HostInfo :=
  Warden.mkHostInfo (Warden.mkHostIdentity identity (Region.mkZone (Region.mkRegion None region) zone))
    address 0.

(** the address of the range server, which the oracle knows *)
Definition oracle_address : string := "127.0.0.1:50055".

(** the address of the resolver, which the monitoring tool knows *)
Definition monitoring_address : string := "127.0.0.1:50059".

(** ** Lemmas *)

Lemma let_ok {A B} (m : result unit A) (k : A -> result unit B) b :
  r_then m k = Ok b -> exists a, m = Ok a /\ k a = Ok b.
Proof. destruct m as [a|e|]; [by exists a|done|done]. Qed.

Lemma field_ok {A} name (de : Decoder A) l a : field name de l = Ok a -> is_Some (lookup_entry name l).
Proof. unfold field. by destruct (lookup_entry name l). Qed.

(** ** Properties *)

(** The configuration must be complete. A file that lacks one of the entries of
    the configuration is refused, whatever else is in it. *)
Theorem config_needs_every_entry l name cfg :
  name ∈ ["commit_strategy"; "heuristic"; "print_lock_table_state"; "range_server"; "epoch"; "universe";
          "frontend"; "resolver"; "cassandra"; "regions"] ->
  de_config (JObject l) = Ok cfg -> is_Some (lookup_entry name l).
Proof.
  intros Hn. unfold de_config, de_struct. intros (_ & _ & E)%let_ok.
  repeat (apply let_ok in E as (? & ?%field_ok & E)).
  repeat (apply elem_of_cons in Hn as [-> | Hn]; [done|]). by apply elem_of_nil in Hn.
Qed.

(** the host of the oracle is the range server with the default arguments *)
Lemma oracle_knows_the_default r h :
  Oracle.host_of_range r = Some h ->
  Warden.address h = oracle_address /\
  Warden.identity h =
    Warden.identity (range_server_host default_region default_zone default_identity default_address).
Proof. by intros [= <-]. Qed.

(** ** Witnesses *)

(** the configuration of the repository *)
Definition local (port : N) : HostPort := mkHostPort "127.0.0.1" port.
Definition all_cores : list N := N.of_nat <$> seq 4 28.
Definition repository_config : Config :=
  mkConfig Pipelined OpenClients false
    (mkRangeServerConfig 1000 1 (10 ^ 9) (local 50054) (local 50055) 1000 all_cores)
    (mkEpochConfig (local 50050) (10 ^ 7)) (mkUniverseConfig (local 50056))
    (mkFrontendConfig (local 50057) (local 50058) 1000 all_cores (10 * 10 ^ 9) (10 ^ 5))
    (mkResolverConfig Remote (local 50059) (local 50060) 1000 [1%N] (S754_finite false 8388608 (-23)) (10 ^ 5))
    (mkCassandraConfig (local 9042))
    [(Region.mkRegion None "test-region",
      mkRegionConfig (local 50053)
        [mkEpochPublisherSet "ps1" (Region.mkZone (Region.mkRegion None "test-region") "a")
           [mkEpochPublisher "ep1" (local 50051) (local 50052) 1000]])].

Lemma config_json_is_read : de_config config_json = Ok repository_config.
Proof. vm_compute. reflexivity. Qed.

Definition repository_workload : Workload.WorkloadConfig :=
  Workload.mkWorkloadConfig (Some 2000%N) 50 (S754_zero false) "holy" "avocado" "20" (Some 1234567890%N)
    (N.of_nat <$> seq 3 29) false "custom".
Lemma workload_config_json_is_read : de_workload_config workload_config_json = Ok repository_workload.
Proof. vm_compute. reflexivity. Qed.

(** the configuration for [jepsen] is of an earlier version *)
Lemma jepsen_config_is_refused : de_config config_for_jepsen_json = Err tt.
Proof. vm_compute. reflexivity. Qed.

Lemma config_needs_every_entry_witness :
  match config_json with JObject l => is_Some (lookup_entry "resolver" l) | _ => False end.
Proof.
  refine (config_needs_every_entry _ "resolver" repository_config _ _).
  - by_decision.
  - vm_compute. reflexivity.
Defined.

End Deployment.
