(* ===== verification/Startup.v ===== *)
(** * The start of the services: the [main.rs] of each of them

    Each service binds its listeners, connects to the services that it calls and
    to the database, and most of these steps end with [unwrap]: what is not there
    stops the start. The main functions are modelled up to the point where the
    service serves, as programs on the listeners of the machine, and the orders in
    which the services can be started are determined.

    The operating system is a parameter: what a text resolves to, which addresses
    can be bound and which exclude each other, which listener accepts a connection
    to which address, where the database answers and which cores there are. The
    range server registers at the warden in a loop that tries again, which is no
    part of its start (see [WardenHandler]). In the frontend and in the resolver
    the steps after the fast network run in a task: when it panics the process
    goes on without serving; here the start has failed. *)

From stdpp Require Import base tactics list numbers option sets strings.
From S2P Require Import Prelude Common Region Config Warden Workload Deployment.

Module Startup.
Import Common Config Deployment.
Local Open Scope sangria_scope.

(** ** The programs *)

Section Machine.
Context {A : Type}.
(** [to_socket_addrs], and [parse] of a socket address *)
Context (to_socket_addrs : string -> list A) (parse_socket_addr : string -> option A).
(** an address of this machine; two listeners that exclude each other; the
    listener that accepts the connections to an address *)
Context (bindable : A -> bool) (conflicts accepts : A -> A -> bool).
(** the addresses at which the database answers *)
Context (database : A -> bool).
(** [core_affinity::get_core_ids], and the cores of the machine *)
Context (get_core_ids : option (list N)) (cpus : list N).

(** the state is the list of the listeners, the latest first *)
Definition Start (B : Type) : Type := M (list A) unit B.

Definition unwrap {B} (m : Start B) : Start B := fun ls =>
  match m ls with
  | (ls', Ok b) => (ls', Ok b)
  | (ls', _) => (ls', Panic)
  end.

(** [to_socket_addrs()?.next().ok_or(..)?] *)
Definition socket_addr (text : string) : Start A :=
  match head (to_socket_addrs text) with Some a => m_ret a | None => m_fail tt end.

(** [TcpListener::bind], also the one of [tonic]'s [serve] *)
Definition bind (a : A) : Start unit := fun ls =>
  if bindable a && forallb (fun l => negb (conflicts l a)) ls then (a :: ls, Ok tt) else (ls, Err tt).

(** one of the addresses of the text has a listener *)
Definition reached (ls : list A) (text : string) : bool :=
  existsb (fun a => existsb (fun l => accepts l a) ls) (to_socket_addrs text).

(** the [connect] of a gRPC client *)
Definition connect (text : string) : Start unit := fun ls =>
  (ls, if reached ls text then Ok tt else Err tt).

(** [Cassandra::new] *)
Definition cassandra_new (text : string) : Start unit :=
  m_assert (existsb database (to_socket_addrs text)).

(** the cores of the configuration, or all that there are *)
Definition runtime_cores (core_ids : list N) : Start (list N) :=
  match core_ids with [] => m_unwrap get_core_ids | _ => m_ret core_ids end.

(** the set of cores holds those below 1024; one of them must exist *)
Definition restrict_to_cores (cores : list N) : Start unit :=
  m_assert (forallb (fun core => core <? 1024)%N cores) ;;;
  m_assert (existsb (fun core => bool_decide (core ∈ cpus)) cores).

(** [Builder::worker_threads] refuses to have none *)
Definition worker_threads (cores : list N) : Start unit :=
  m_assert (match cores with [] => false | _ => true end).

(** [TcpFastNetwork::new] *)
Definition fast_network_new (addr : A) : Start unit := unwrap (bind addr).

Section Services.
Context (c : Config) (wc : Workload.WorkloadConfig) (region address : string).

Definition run_universe_server (addr : string) : Start unit :=
  let! addr := socket_addr addr in
  bind addr.

Definition universe_main : Start unit :=
  cassandra_new (to_string (cql_addr (cassandra c))) ;;;
  run_universe_server (to_string (un_proto_server_addr (universe c))).

Definition run_warden_server (addr universe_addr cassandra_addr : string) : Start unit :=
  let! addr := socket_addr addr in
  connect universe_addr ;;;
  cassandra_new cassandra_addr ;;;
  bind addr.

Definition warden_main : Start unit :=
  let! region_config := m_unwrap (region_of c region) in
  run_warden_server (to_string (warden_address region_config)) (to_string (un_proto_server_addr (universe c)))
    (to_string (cql_addr (cassandra c))).

(** the start of the warden handler: it only looks for the region *)
Definition warden_handler_start : Start unit :=
  match region_of c region with Some _ => m_ret tt | None => m_fail tt end.

Definition range_server_main : Start unit :=
  let! cores := runtime_cores (rs_core_ids (range_server c)) in
  restrict_to_cores cores ;;;
  let! fast_network_addr := unwrap (socket_addr (to_string (rs_fast_network_addr (range_server c)))) in
  fast_network_new fast_network_addr ;;;
  let! _ := m_unwrap (parse_socket_addr address) in
  let! proto_server_addr := unwrap (socket_addr (to_string (rs_proto_server_addr (range_server c)))) in
  unwrap (bind proto_server_addr) ;;;
  cassandra_new (to_string (cql_addr (cassandra c))) ;;;
  worker_threads cores ;;;
  unwrap warden_handler_start.

(** [ResolverServer::start] *)
Definition resolver_server_start : Start unit :=
  let! addr := unwrap (socket_addr (to_string (re_proto_server_addr (resolver c)))) in
  unwrap (bind addr).

Definition resolver_main : Start unit :=
  let! cores := runtime_cores (re_core_ids (resolver c)) in
  restrict_to_cores cores ;;;
  let! fast_network_addr := unwrap (socket_addr (to_string (re_fast_network_addr (resolver c)))) in
  fast_network_new fast_network_addr ;;;
  worker_threads cores ;;;
  unwrap (connect (to_string (un_proto_server_addr (universe c)))) ;;;
  cassandra_new (to_string (cql_addr (cassandra c))) ;;;
  resolver_server_start.

(** [ResolverClient::new] of the remote client *)
Definition remote_resolver_client_new : Start unit :=
  unwrap (connect (to_string (re_proto_server_addr (resolver c)))).

(** [Server::new] and [Server::start] of the frontend *)
Definition frontend_server_new : Start unit :=
  cassandra_new (to_string (cql_addr (cassandra c))) ;;;
  match mode (resolver c) with
  | Local => m_ret tt
  | Remote => remote_resolver_client_new
  end.

Definition frontend_server_start : Start unit :=
  let! addr := unwrap (socket_addr (to_string (fe_proto_server_addr (frontend c)))) in
  unwrap (bind addr).

Definition frontend_main : Start unit :=
  let! cores := runtime_cores (rs_core_ids (range_server c)) in
  restrict_to_cores cores ;;;
  let! fast_network_addr := unwrap (socket_addr (to_string (fe_fast_network_addr (frontend c)))) in
  fast_network_new fast_network_addr ;;;
  worker_threads cores ;;;
  unwrap (connect (to_string (un_proto_server_addr (universe c)))) ;;;
  frontend_server_new ;;;
  frontend_server_start.

Definition run_workload : Start unit :=
  unwrap (connect (to_string (fe_proto_server_addr (frontend c)))) ;;;
  unwrap (connect (to_string (re_proto_server_addr (resolver c)))) ;;;
  unwrap (connect (to_string (rs_proto_server_addr (range_server c)))).

Definition workload_main : Start unit :=
  let! cores := runtime_cores (Workload.background_runtime_core_ids wc) in
  restrict_to_cores cores ;;;
  worker_threads cores ;;;
  run_workload.

(** [MonitoringClient::new] *)
Definition monitoring_client_new (addr : string) : Start unit := unwrap (connect addr).

Definition monitoring_main : Start unit := monitoring_client_new monitoring_address.

(** ** Orders of starting *)

Inductive Service := Universe | Warden | RangeServer | Resolver | Frontend | WorkloadGenerator | Monitoring.

Definition main (s : Service) : Start unit :=
  match s with
  | Universe => universe_main
  | Warden => warden_main
  | RangeServer => range_server_main
  | Resolver => resolver_main
  | Frontend => frontend_main
  | WorkloadGenerator => workload_main
  | Monitoring => monitoring_main
  end.

Definition all_services : list Service :=
  [Universe; Warden; RangeServer; Resolver; Frontend; WorkloadGenerator; Monitoring].

(** each service is started when the one before it has come up *)
Definition launch (order : list Service) : Start unit := m_for order main.

(** the listeners of the services *)
Inductive Endpoint := UniverseProto | WardenProto | RangeServerFast | RangeServerProto
  | ResolverFast | ResolverProto | FrontendFast | FrontendProto.

Definition endpoints (s : Service) : list Endpoint :=
  match s with
  | Universe => [UniverseProto]
  | Warden => [WardenProto]
  | RangeServer => [RangeServerFast; RangeServerProto]
  | Resolver => [ResolverFast; ResolverProto]
  | Frontend => [FrontendFast; FrontendProto]
  | WorkloadGenerator | Monitoring => []
  end.

(** the address that the configuration gives an endpoint *)
Definition text (e : Endpoint) : option string :=
  match e with
  | UniverseProto => Some (to_string (un_proto_server_addr (universe c)))
  | WardenProto => (fun rc => to_string (warden_address rc)) <$> region_of c region
  | RangeServerFast => Some (to_string (rs_fast_network_addr (range_server c)))
  | RangeServerProto => Some (to_string (rs_proto_server_addr (range_server c)))
  | ResolverFast => Some (to_string (re_fast_network_addr (resolver c)))
  | ResolverProto => Some (to_string (re_proto_server_addr (resolver c)))
  | FrontendFast => Some (to_string (fe_fast_network_addr (frontend c)))
  | FrontendProto => Some (to_string (fe_proto_server_addr (frontend c)))
  end.
Definition socket (e : Endpoint) : option A := t ← text e; head (to_socket_addrs t).

(** the services that must serve before a service starts *)
Definition needed (s : Service) : list Service :=
  match s with
  | Universe | RangeServer => []
  | Warden | Resolver => [Universe]
  | Frontend => Universe :: match mode (resolver c) with Remote => [Resolver] | Local => [] end
  | WorkloadGenerator => [Frontend; Resolver; RangeServer]
  | Monitoring => [Resolver]
  end.
Definition in_order (order : list Service) : Prop :=
  forall ps s qs, order = ps ++ s :: qs -> forall t, t ∈ needed s -> t ∈ ps.

(** no listener of the list excludes another *)
Fixpoint apart (ls : list A) : Prop :=
  match ls with
  | [] => True
  | a :: ls' => Forall (fun l => conflicts l a = false) ls' /\ apart ls'
  end.

Definition usable (core_ids : list N) : Prop :=
  exists cores, match core_ids with [] => get_core_ids | _ => Some core_ids end = Some cores /\
    Forall (fun core => core < 1024)%N cores /\ exists core, core ∈ cores /\ core ∈ cpus.

(** a configuration that fits the machine: every endpoint has an address of its
    own, and the monitoring tool knows the one of the resolver *)
Record fits : Prop := {
  fit_region : is_Some (region_of c region);
  fit_address : is_Some (parse_socket_addr address);
  fit_range_server : usable (rs_core_ids (range_server c));
  fit_resolver : usable (re_core_ids (resolver c));
  fit_workload : usable (Workload.background_runtime_core_ids wc);
  fit_database : exists a, a ∈ to_socket_addrs (to_string (cql_addr (cassandra c))) /\ database a = true;
  fit_socket : forall e, exists t a, text e = Some t /\ to_socket_addrs t = [a] /\ bindable a = true;
  fit_apart : forall e e' a a', socket e = Some a -> socket e' = Some a' -> e <> e' ->
    conflicts a a' = false /\ accepts a a' = false;
  fit_monitoring : text ResolverProto = Some monitoring_address
}.


(** ** Lemmas *)

Context (accepts_own : forall a, accepts a a = true).
Context (conflicts_sym : forall a b, conflicts a b = conflicts b a).

#[global] Instance Service_eq_dec : EqDecision Service.
Proof. solve_decision. Defined.
#[global] Instance Endpoint_eq_dec : EqDecision Endpoint.
Proof. solve_decision. Defined.

Lemma apart_app ls ls' :
  apart (ls ++ ls') <-> apart ls /\ apart ls' /\ forall a b, a ∈ ls -> b ∈ ls' -> conflicts a b = false.
Proof.
  induction ls as [|a ls IH]; cbn; [set_solver|]. rewrite Forall_app, IH, !Forall_forall.
  setoid_rewrite elem_of_cons. setoid_rewrite (conflicts_sym _ a). naive_solver.
Qed.

Lemma apart_permutation ls ls' : ls ≡ₚ ls' -> apart ls -> apart ls'.
Proof.
  induction 1 as [|a l l' Hp IH|a b l|]; cbn; [done|..|auto].
  - intros [Ha Hl]. split; [by rewrite <- Hp|auto].
  - rewrite !Forall_cons, (conflicts_sym b a). naive_solver.
Qed.

(** *** Starts that succeed *)

Lemma start_then {B C} (m : Start B) (k : B -> Start C) ls ls' r :
  m_then m k ls = (ls', Ok r) -> exists ls1 b, m ls = (ls1, Ok b) /\ k b ls1 = (ls', Ok r).
Proof. unfold m_then. destruct (m ls) as [ls1 [b|e|]]; [by exists ls1, b|done..]. Qed.

Lemma unwrap_ok {B} (m : Start B) ls ls' b : unwrap m ls = (ls', Ok b) <-> m ls = (ls', Ok b).
Proof. unfold unwrap. destruct (m ls) as [ls1 [b1|e|]]; naive_solver. Qed.

Lemma bind_ok a ls ls' :
  bind a ls = (ls', Ok tt) <->
  ls' = a :: ls /\ bindable a = true /\ Forall (fun l => conflicts l a = false) ls.
Proof.
  unfold bind. destruct (bindable a); cbn; [|naive_solver].
  destruct (forallb _ ls) eqn:E.
  - rewrite forallb_forall in E. setoid_rewrite negb_true_iff in E.
    assert (Forall (fun l => conflicts l a = false) ls).
    { apply Forall_forall. intros l Hl%list_elem_of_In. by apply E. }
    naive_solver.
  - split; [done|]. intros (_ & _ & Hf). apply not_true_iff_false in E as []. apply forallb_forall.
    intros l Hl%list_elem_of_In. rewrite Forall_forall in Hf. by rewrite Hf.
Qed.

Lemma socket_addr_ok t ls ls' a :
  socket_addr t ls = (ls', Ok a) <-> ls' = ls /\ head (to_socket_addrs t) = Some a.
Proof. unfold socket_addr. destruct (head _); cbv; naive_solver. Qed.

Lemma connect_ok t ls ls' : connect t ls = (ls', Ok tt) <-> ls' = ls /\ reached ls t = true.
Proof. unfold connect. destruct (reached ls t); naive_solver. Qed.

Lemma start_assert_ok b (ls ls' : list A) : m_assert (E := unit) b ls = (ls', Ok tt) <-> ls' = ls /\ b = true.
Proof. destruct b; cbv; naive_solver. Qed.

Lemma start_unwrap_ok {B} (o : option B) (ls ls' : list A) b :
  m_unwrap (E := unit) o ls = (ls', Ok b) <-> ls' = ls /\ o = Some b.
Proof. destruct o; cbv; naive_solver. Qed.

Lemma runtime_cores_ok core_ids ls ls' cores :
  runtime_cores core_ids ls = (ls', Ok cores) <->
  ls' = ls /\ match core_ids with [] => get_core_ids | _ => Some core_ids end = Some cores.
Proof. destruct core_ids; [apply start_unwrap_ok|]. cbv. naive_solver. Qed.

Lemma restrict_to_cores_same cores ls ls' : restrict_to_cores cores ls = (ls', Ok tt) -> ls' = ls.
Proof.
  intros (ls1 & [] & E1 & E2)%start_then. apply start_assert_ok in E1 as [-> _].
  by apply start_assert_ok in E2 as [-> _].
Qed.

Lemma warden_handler_start_ok ls ls' :
  warden_handler_start ls = (ls', Ok tt) <-> ls' = ls /\ is_Some (region_of c region).
Proof. unfold warden_handler_start, is_Some. destruct (region_of c region); cbv; naive_solver. Qed.

Lemma reached_mono ls ls' t : ls ⊆ ls' -> reached ls t = true -> reached ls' t = true.
Proof.
  unfold reached. rewrite !existsb_exists. intros Hsub (a & Ha & Hl). exists a. split; [done|].
  rewrite existsb_exists in Hl |- *. destruct Hl as (l & Hl & ?). exists l. split; [|done].
  by apply list_elem_of_In, Hsub, list_elem_of_In.
Qed.

(** the addresses that a start connects to *)
Definition dials (s : Service) : list string :=
  match s with
  | Universe | RangeServer => []
  | Warden | Resolver => [to_string (un_proto_server_addr (universe c))]
  | Frontend => to_string (un_proto_server_addr (universe c)) ::
      match mode (resolver c) with Remote => [to_string (re_proto_server_addr (resolver c))] | Local => [] end
  | WorkloadGenerator => [to_string (fe_proto_server_addr (frontend c));
      to_string (re_proto_server_addr (resolver c)); to_string (rs_proto_server_addr (range_server c))]
  | Monitoring => [monitoring_address]
  end.

#[local] Arguments to_string : simpl never.
#[local] Arguments reached : simpl never.
Ltac invert_start :=
  repeat match goal with
  | H : m_then _ _ _ = (_, Ok _) |- _ => apply start_then in H as (? & ? & ? & H)
  | H : unwrap _ _ = (_, Ok _) |- _ => apply (proj1 (unwrap_ok _ _ _ _)) in H
  | H : fast_network_new _ _ = (_, Ok _) |- _ => apply (proj1 (unwrap_ok _ _ _ _)) in H
  | H : bind _ _ = (_, Ok ?u) |- _ => destruct u; apply (proj1 (bind_ok _ _ _)) in H as (-> & ? & ?)
  | H : socket_addr _ _ = (_, Ok _) |- _ => apply (proj1 (socket_addr_ok _ _ _ _)) in H as [-> ?]
  | H : connect _ _ = (_, Ok ?u) |- _ => destruct u; apply (proj1 (connect_ok _ _ _)) in H as [-> ?]
  | H : cassandra_new _ _ = (_, Ok ?u) |- _ => destruct u; apply (proj1 (start_assert_ok _ _ _)) in H as [-> ?]
  | H : worker_threads _ _ = (_, Ok ?u) |- _ => destruct u; apply (proj1 (start_assert_ok _ _ _)) in H as [-> ?]
  | H : m_unwrap _ _ = (_, Ok _) |- _ => apply (proj1 (start_unwrap_ok _ _ _ _)) in H as [-> ?]
  | H : runtime_cores _ _ = (_, Ok _) |- _ => apply (proj1 (runtime_cores_ok _ _ _ _)) in H as [-> ?]
  | H : restrict_to_cores _ _ = (_, Ok ?u) |- _ => destruct u; apply restrict_to_cores_same in H as ->
  | H : warden_handler_start _ = (_, Ok ?u) |- _ => destruct u; apply (proj1 (warden_handler_start_ok _ _)) in H as [-> ?]
  | H : m_ret _ _ = (_, Ok _) |- _ => injection H as <- <-
  end.

Lemma main_ok s ls ls' :
  main s ls = (ls', Ok tt) ->
  exists socks, mapM socket (endpoints s) = Some socks /\ ls' = rev socks ++ ls /\
    (apart ls -> apart ls') /\ Forall (fun t => reached ls' t = true) (dials s).
Proof.
  destruct s; cbn [main endpoints dials]; intros E;
    [unfold universe_main, run_universe_server in E|unfold warden_main, run_warden_server in E|unfold range_server_main in E
    |unfold resolver_main, resolver_server_start in E
    |unfold frontend_main, frontend_server_new, remote_resolver_client_new, frontend_server_start in E; destruct (mode (resolver c))
    |unfold workload_main, run_workload in E|unfold monitoring_main, monitoring_client_new in E]; invert_start;
    (eexists; split;
     [unfold socket; cbn;
      repeat match goal with H : _ = Some _ |- _ => progress (rewrite H; cbn) end; reflexivity|cbn [rev app]]);
    (split; [reflexivity|split; [cbn [apart]; tauto|]]);
    repeat first [apply Forall_nil_2 | apply Forall_cons_2];
    (eapply reached_mono; [|eassumption]; set_solver).
Qed.

(** *** Starts on a machine that the configuration fits *)

Section Fits.
Context (Hfits : fits).

Lemma fit_endpoint e t : text e = Some t ->
  exists a, to_socket_addrs t = [a] /\ socket e = Some a /\ bindable a = true.
Proof.
  intros Ht. destruct (fit_socket Hfits e) as (t' & a & Ht' & Ha & Hb). rewrite Ht in Ht'.
  injection Ht' as <-. exists a. unfold socket. rewrite Ht. cbn. by rewrite Ha.
Qed.

Lemma usable_cores core_ids : usable core_ids ->
  exists cores, forall ls, runtime_cores core_ids ls = (ls, Ok cores) /\
    restrict_to_cores cores ls = (ls, Ok tt) /\ worker_threads cores ls = (ls, Ok tt).
Proof.
  intros (cores & Hc & Hall & core & Hin & Hcpu). exists cores. intros ls. split_and!.
  - by apply runtime_cores_ok.
  - unfold restrict_to_cores. erewrite then_ok.
    + apply start_assert_ok. split; [done|]. apply existsb_exists. exists core.
      split; [by apply list_elem_of_In|by apply bool_decide_eq_true].
    + apply start_assert_ok. split; [done|]. apply forallb_forall. intros x Hx%list_elem_of_In.
      apply N.ltb_lt. by apply (proj1 (Forall_forall _ _) Hall).
  - apply start_assert_ok. split; [done|]. by destruct cores; [apply elem_of_nil in Hin|].
Qed.

Lemma fit_cassandra ls : cassandra_new (to_string (cql_addr (cassandra c))) ls = (ls, Ok tt).
Proof.
  apply start_assert_ok. split; [done|]. destruct (fit_database Hfits) as (a & Ha & Hd).
  apply existsb_exists. exists a. split; [by apply list_elem_of_In|done].
Qed.

(** the listeners do not exclude those of the service *)
Definition free (s : Service) (ls : list A) : Prop :=
  forall e a, e ∈ endpoints s -> socket e = Some a -> Forall (fun l => conflicts l a = false) ls.

Lemma listener_free e e' a a' ls :
  socket e = Some a -> socket e' = Some a' -> e <> e' ->
  Forall (fun l => conflicts l a' = false) ls -> Forall (fun l => conflicts l a' = false) (a :: ls).
Proof. intros Ha Ha' Hne Hf. constructor; [|done]. by destruct (fit_apart Hfits e e' a a' Ha Ha' Hne). Qed.

Lemma start_runs {B C} (m : Start B) (k : B -> Start C) ls ls1 b r :
  m ls = (ls1, Ok b) -> (exists ls', k b ls1 = (ls', Ok r)) -> exists ls', m_then m k ls = (ls', Ok r).
Proof. intros Hm [ls' Hk]. exists ls'. by erewrite then_ok. Qed.

Lemma dial ls0 ls s t : Forall (fun t => reached ls t = true) (dials s) -> t ∈ dials s ->
  connect t (ls0 ++ ls) = (ls0 ++ ls, Ok tt).
Proof.
  intros Hd Ht. apply connect_ok. split; [done|]. apply reached_mono with ls; [set_solver|].
  by apply (proj1 (Forall_forall _ _) Hd).
Qed.

Lemma frontend_server_runs ls0 ls :
  Forall (fun t => reached ls t = true) (dials Frontend) ->
  frontend_server_new (ls0 :: ls) = (ls0 :: ls, Ok tt).
Proof.
  intros Hd. unfold frontend_server_new. erewrite then_ok by apply fit_cassandra. cbn beta.
  destruct (mode (resolver c)) eqn:Em; [done|]. apply unwrap_ok, (dial [ls0] ls Frontend); [done|].
  cbn [dials]. rewrite Em. set_solver.
Qed.

Ltac endpoint e :=
  let a := fresh "a" in let Ha := fresh "Ha" in let Hs := fresh "Hs" in let Hb := fresh "Hb" in
  destruct (fit_endpoint e _ eq_refl) as (a & Ha & Hs & Hb).
Ltac solve_step s :=
  lazymatch goal with
  | |- cassandra_new _ _ = _ => apply fit_cassandra
  | H : forall ls, runtime_cores _ ls = _ /\ _ |- runtime_cores _ _ = _ => apply H
  | H : forall ls, runtime_cores _ ls = _ /\ _ |- restrict_to_cores _ _ = _ => apply H
  | H : forall ls, runtime_cores _ ls = _ /\ _ |- worker_threads _ _ = _ => apply H
  | |- unwrap _ _ = _ => apply unwrap_ok; solve_step s
  | |- fast_network_new _ _ = _ => apply unwrap_ok; solve_step s
  | Ha : to_socket_addrs ?t = _ |- socket_addr ?t _ = _ => apply socket_addr_ok; by rewrite Ha
  | |- bind _ _ = _ => apply bind_ok; split_and!; [reflexivity|assumption|]
  | |- connect _ ?ls = _ =>
      lazymatch ls with
      | ?a :: ?ls' => apply (dial [a] ls' s)
      | _ => apply (dial [] ls s)
      end; [assumption|cbn [dials]; repeat first [apply list_elem_of_here | apply list_elem_of_further]]
  | |- m_unwrap _ _ = _ => apply start_unwrap_ok; split; [reflexivity|eassumption]
  | |- m_ret _ _ = _ => reflexivity
  | |- frontend_server_new _ = _ => by apply frontend_server_runs
  | |- warden_handler_start _ = _ => apply warden_handler_start_ok; split; [reflexivity|apply fit_region, Hfits]
  end.
Ltac run_start s :=
  repeat (lazymatch goal with
  | |- exists _, m_then _ _ _ = _ => eapply start_runs; [solve_step s|]
  | |- exists _, _ _ = _ => eexists; solve_step s
  end).

Lemma main_runs s ls :
  free s ls -> Forall (fun t => reached ls t = true) (dials s) -> exists ls', main s ls = (ls', Ok tt).
Proof.
  intros Hfree Hd.
  destruct (usable_cores _ (fit_range_server Hfits)) as [cores1 Hc1].
  destruct (usable_cores _ (fit_resolver Hfits)) as [cores2 Hc2].
  destruct (usable_cores _ (fit_workload Hfits)) as [cores3 Hc3].
  destruct (fit_address Hfits) as [sa Hsa]. destruct (fit_region Hfits) as [rc Hrc].
  destruct s; cbn [main].
  - unfold universe_main, run_universe_server. endpoint UniverseProto. run_start Universe. by eapply Hfree; [apply list_elem_of_here|].
  - unfold warden_main, run_warden_server. rewrite Hrc. cbn [m_unwrap].
    destruct (fit_endpoint WardenProto (to_string (warden_address rc))) as (a & Ha & Hs & Hb); [by cbn; rewrite Hrc|].
    run_start Warden. by eapply Hfree; [apply list_elem_of_here|].
  - clear Hc2 Hc3. unfold range_server_main. endpoint RangeServerFast. endpoint RangeServerProto.
    run_start RangeServer.
    + by eapply Hfree; [apply list_elem_of_here|].
    + apply (listener_free RangeServerFast RangeServerProto); [done..|]. eapply Hfree; [|done]. by_decision.
  - clear Hc1 Hc3. unfold resolver_main, resolver_server_start. endpoint ResolverFast. endpoint ResolverProto.
    run_start Resolver.
    + by eapply Hfree; [apply list_elem_of_here|].
    + apply (listener_free ResolverFast ResolverProto); [done..|]. eapply Hfree; [|done]. by_decision.
  - clear Hc2 Hc3. unfold frontend_main, frontend_server_start.
    endpoint FrontendFast. endpoint FrontendProto. run_start Frontend.
    + by eapply Hfree; [apply list_elem_of_here|].
    + apply (listener_free FrontendFast FrontendProto); [done..|]. eapply Hfree; [|done]. by_decision.
  - clear Hc1 Hc2. unfold workload_main, run_workload. run_start WorkloadGenerator.
  - unfold monitoring_main, monitoring_client_new. run_start Monitoring.
Qed.
(** the listeners are those of the services *)
Definition up (ls : list A) (ps : list Service) : Prop :=
  forall a, a ∈ ls <-> exists s e, s ∈ ps /\ e ∈ endpoints s /\ socket e = Some a.

Lemma endpoint_service e s s' : e ∈ endpoints s -> e ∈ endpoints s' -> s = s'.
Proof. destruct s, s'; set_solver. Qed.

Lemma up_main s ps ls ls' : up ls ps -> main s ls = (ls', Ok tt) -> up ls' (ps ++ [s]).
Proof.
  intros Hup (socks & Hm & -> & _)%main_ok a. apply mapM_Some in Hm.
  rewrite elem_of_app, list_elem_of_In, <- in_rev, <- list_elem_of_In, (Hup a). setoid_rewrite elem_of_app.
  setoid_rewrite list_elem_of_singleton. split.
  - intros [Ha|(s' & e & ? & ?)]; [|by exists s', e; auto].
    apply list_elem_of_lookup_1 in Ha as [i Hi].
    destruct (Forall2_lookup_r _ _ _ _ _ Hm Hi) as (e & He & Hs). exists s, e.
    split_and!; [by right|by eapply list_elem_of_lookup_2|done].
  - intros (s' & e & [Hs'| ->] & He & Ha); [right; by exists s', e|left].
    apply list_elem_of_lookup_1 in He as [i Hi]. destruct (Forall2_lookup_l _ _ _ _ _ Hm Hi) as (a' & Ha' & Hs).
    rewrite Ha in Hs. injection Hs as <-. by eapply list_elem_of_lookup_2.
Qed.

Lemma up_reached ls ps s e t :
  up ls ps -> e ∈ endpoints s -> text e = Some t -> reached ls t = true <-> s ∈ ps.
Proof.
  intros Hup He Ht. destruct (fit_endpoint e t Ht) as (a & Ha & Hs & _). unfold reached. rewrite Ha. cbn.
  rewrite orb_false_r, existsb_exists. split.
  - intros (l & (s' & e' & Hs' & He' & Hl)%list_elem_of_In%Hup & Hacc).
    destruct (decide (e' = e)) as [->|Hne]; [by rewrite (endpoint_service e s s')|].
    destruct (fit_apart Hfits e' e l a Hl Hs Hne) as [_ Hacc']. congruence.
  - intros Hin. exists a. split; [|by apply accepts_own]. apply list_elem_of_In, Hup. eauto.
Qed.

Lemma up_free ls ps s : up ls ps -> s ∉ ps -> free s ls.
Proof.
  intros Hup Hs e a He Ha. apply Forall_forall. intros l (s' & e' & Hs' & He' & Hl)%Hup.
  apply (fit_apart Hfits e' e l a Hl Ha). intros ->. by rewrite (endpoint_service e s s') in Hs.
Qed.

Lemma up_dials ls ps s :
  up ls ps -> Forall (fun t => reached ls t = true) (dials s) <-> forall t, t ∈ needed s -> t ∈ ps.
Proof.
  intros Hup.
  assert (HU := up_reached ls ps Universe UniverseProto _ Hup ltac:(by_decision) eq_refl).
  assert (HF := up_reached ls ps Frontend FrontendProto _ Hup ltac:(by_decision) eq_refl).
  assert (HR := up_reached ls ps Resolver ResolverProto _ Hup ltac:(by_decision) eq_refl).
  assert (HS := up_reached ls ps RangeServer RangeServerProto _ Hup ltac:(by_decision) eq_refl).
  assert (HM := up_reached ls ps Resolver ResolverProto _ Hup ltac:(by_decision) (fit_monitoring Hfits)).
  rewrite <- Forall_forall.
  destruct s; cbn [dials needed]; try destruct (mode (resolver c)); rewrite ?Forall_cons, ?Forall_nil; tauto.
Qed.

Lemma not_needed s : s ∉ needed s.
Proof. destruct s; cbn; try destruct (mode (resolver c)); by_decision. Qed.

Lemma main_starts ls ps s :
  up ls ps -> s ∉ ps -> (exists ls', main s ls = (ls', Ok tt)) <-> forall t, t ∈ needed s -> t ∈ ps.
Proof.
  intros Hup Hs. split.
  - intros [ls' E]. pose proof (up_main _ _ _ _ Hup E) as Hup'.
    apply main_ok in E as (_ & _ & _ & _ & Hd). rewrite (up_dials _ _ _ Hup') in Hd. intros t Ht.
    destruct (proj1 (elem_of_app _ _ _) (Hd t Ht)) as [?|Hts%list_elem_of_singleton]; [done|].
    subst t. by apply not_needed in Ht.
  - intros Hn. apply main_runs; [by eapply up_free|]. by apply (up_dials _ _ _ Hup).
Qed.

Lemma launch_starts order ps ls :
  up ls ps -> NoDup (ps ++ order) ->
  (exists ls', launch order ls = (ls', Ok tt)) <->
  forall qs s rs, order = qs ++ s :: rs -> forall t, t ∈ needed s -> t ∈ ps ++ qs.
Proof.
  revert ps ls. induction order as [|s order IH]; intros ps ls Hup Hnd.
  { split; [by intros _ []|by exists ls]. }
  assert (Hs : s ∉ ps).
  { apply NoDup_app in Hnd as (_ & Hd & _). intros Hs. destruct (Hd s Hs). apply list_elem_of_here. }
  rewrite cons_middle, app_assoc in Hnd. unfold launch. cbn [m_for]. split.
  - intros [ls' (ls1 & [] & E1 & E2)%start_then].
    assert (Hn := proj1 (main_starts ls ps s Hup Hs) (ex_intro _ _ E1)).
    pose proof (proj1 (IH _ ls1 (up_main _ _ _ _ Hup E1) Hnd) (ex_intro _ _ E2)) as Hrest.
    intros [|s' qs] s1 rs; intros [= -> ->]; [by rewrite app_nil_r|].
    rewrite cons_middle, app_assoc. by eapply Hrest.
  - intros Hn. destruct (proj2 (main_starts ls ps s Hup Hs)) as [ls1 E1].
    { specialize (Hn [] s order eq_refl). by rewrite app_nil_r in Hn. }
    eapply start_runs; [done|]. apply (IH _ ls1 (up_main _ _ _ _ Hup E1) Hnd).
    intros qs s1 rs ->. rewrite <- app_assoc. apply (Hn (s :: qs) s1 rs). done.
Qed.
End Fits.

Lemma launch_listens order ls ls' :
  launch order ls = (ls', Ok tt) ->
  exists socks, mapM socket (order ≫= endpoints) = Some socks /\ ls' = rev socks ++ ls /\
    (apart ls -> apart ls').
Proof.
  revert ls. induction order as [|s order IH]; intros ls; [by intros [= <-]; exists []|].
  unfold launch. cbn [m_for]. intros (ls1 & [] & E1 & E2)%start_then.
  apply main_ok in E1 as (socks & Hm & -> & Hap & _). apply IH in E2 as (socks' & Hm' & -> & Hap').
  exists (socks ++ socks'). rewrite rev_app_distr, app_assoc, bind_cons. split_and!; [|done|rewrite <- app_assoc; auto].
  apply mapM_Some. apply Forall2_app; by apply mapM_Some.
Qed.

Lemma launch_database order ls ls' :
  launch order ls = (ls', Ok tt) -> Universe ∈ order ->
  exists a, a ∈ to_socket_addrs (to_string (cql_addr (cassandra c))) /\ database a = true.
Proof.
  revert ls. induction order as [|s order IH]; intros ls; [by intros _ ?%elem_of_nil|].
  unfold launch. cbn [m_for]. intros (ls1 & [] & E1 & E2)%start_then [<-|Hin]%elem_of_cons; [|by eauto].
  cbn [main] in E1. unfold universe_main in E1. apply start_then in E1 as (ls2 & [] & E1 & _).
  apply start_assert_ok in E1 as [_ (a & Ha%list_elem_of_In & Hd)%existsb_exists]. eauto.
Qed.

(** ** Properties *)


End Services.

(** the cores in the section of the frontend have no effect on it *)
Lemma frontend_ignores_its_cores c ids :
  frontend_main (mkConfig (commit_strategy c) (heuristic c) (print_lock_table_state c) (range_server c) (epoch c)
    (universe c)
    (mkFrontendConfig (fe_proto_server_addr (frontend c)) (fe_fast_network_addr (frontend c))
       (fe_polling_core_id (frontend c)) ids (transaction_overall_timeout (frontend c))
       (resolver_load_sampling_period (frontend c)))
    (resolver c) (cassandra c) (regions c)) = frontend_main c.
Proof. done. Qed.
End Machine.

(** ** Witnesses *)

(** a machine on which each text is an address of its own *)
Definition sample_socket_addrs (t : string) : list string := [t].
Definition sample_database (a : string) : bool := String.eqb a "127.0.0.1:9042".
Definition sample_cpus : list N := N.of_nat <$> seq 0 32.
Definition sample_launch (order : list Service) : list string * result unit unit :=
  launch sample_socket_addrs Some (fun _ => true) String.eqb String.eqb sample_database None sample_cpus
    repository_config repository_workload default_region default_address order [].

Lemma repository_fits :
  fits sample_socket_addrs Some (fun _ => true) String.eqb String.eqb sample_database None sample_cpus
    repository_config repository_workload default_region default_address.
Proof.
  split; try (by eexists).
  - exists all_cores. split; [reflexivity|]. split; [by_decision|]. exists 4%N. split; by_decision.
  - exists [1%N]. split; [reflexivity|]. split; [by_decision|]. exists 1%N. split; by_decision.
  - exists (N.of_nat <$> seq 3 29). split; [reflexivity|]. split; [by_decision|]. exists 4%N. split; by_decision.
  - exists "127.0.0.1:9042". split; [by_decision|reflexivity].
  - intros e. destruct e; vm_compute; eauto.
  - intros e e' a a' Ha Ha' Hne. enough (String.eqb a a' = false) by done.
    destruct e, e'; (done || (vm_compute in Ha, Ha'; injection Ha as <-; injection Ha' as <-; reflexivity)).
Qed.

(** with the configuration of the repository the services start with the range
    server first, and not with the warden before the universe *)
Definition some_order : list Service :=
  [RangeServer; Universe; Resolver; Monitoring; Warden; Frontend; WorkloadGenerator].
Definition wrong_order : list Service :=
  [Warden; Universe; RangeServer; Resolver; Frontend; WorkloadGenerator; Monitoring].



End Startup.
