(* ===== verification/Monitoring.v ===== *)
(** * The state of the resolver for people:
      the reports of [src/resolver/src/core] and the tool of [src/monitoring/src]

    The resolver and its group commit write their state as text. The monitoring
    tool asks the server of the remote resolver for these texts and for its
    numbers, and prints them. *)

From Stdlib Require Import Floats.SpecFloat.
From stdpp Require Import base tactics list numbers option gmap sets relations strings pretty.
From S2P Require Import Prelude Float64 Common Region Config GroupCommit Resolver Coordinator Statistics Universe ResolverClient.

Module Monitoring.
Import Common.
Local Open Scope string_scope.

(** ** Reports *)

Definition newline : string := String (Ascii.ascii_of_nat 10) "".

(** the elements of [{:?}] of a sequence, and of a set *)
Definition joined (l : list string) : string := String.concat ", " l.
Definition debug_list (l : list string) : string := "[" +:+ joined l +:+ "]".
Definition debug_set (l : list string) : string := "{" +:+ joined l +:+ "}".
Definition lines (l : list string) : string := foldr (fun line s => line +:+ newline +:+ s) "" l.
Definition bool_text (b : bool) : string := if b then "true" else "false".

Section Reports.
Context `{HashOrder}.
(** [Uuid::to_string], which is also the form of [{:?}] *)
Context (print_uuid : Uuid -> string).

(** [get_transaction_info_status] *)
Definition transaction_info_status (st : Resolver.State) : string :=
  lines ("Info per transaction:" ::
    ((fun e : Uuid * GroupCommit.TransactionInfo =>
        "  Transaction " +:+ print_uuid e.1 +:+ ": dependencies=" +:+
        pretty (N.of_nat (GroupCommit.num_dependencies e.2)) +:+ ", dependents=" +:+
        debug_set (print_uuid <$> hash_iter (GroupCommit.dependents e.2)) +:+ ", fake=" +:+
        bool_text (GroupCommit.fake e.2)) <$> hash_iter_map (Resolver.info_per_transaction st))).

(** [get_resolved_transactions_status] *)
Definition resolved_transactions_status (st : Resolver.State) : string :=
  lines ["Resolved transactions: " +:+
         debug_set (print_uuid <$> hash_iter (Resolver.resolved_transactions st))].

(** [get_waiting_transactions_status] *)
Definition waiting_transactions_status (waiting : gmap Uuid positive) : string :=
  lines ["Waiting transactions: " +:+ debug_list (print_uuid <$> hash_iter (dom waiting))].

(** [GroupCommit::get_status] *)
Definition group_lines (group : list GroupCommit.TransactionInfo) : list string :=
  imap (fun i tx => "    [" +:+ pretty (N.of_nat i) +:+ "] Transaction " +:+
                    print_uuid (GroupCommit.txn_id tx) +:+ " (fake=" +:+ bool_text (GroupCommit.fake tx) +:+ ")")
    group.

Definition group_commit_status (st : GroupCommit.State) : string :=
  lines (["=== Group Commit Status ===";
          "Non-empty groups: " +:+
          debug_list ((fun r => print_uuid (range_id r)) <$> hash_iter (GroupCommit.non_empty_groups st));
          "Groups per participant:"] ++
    concat ((fun e : FullRangeId * list GroupCommit.TransactionInfo =>
       ("  " +:+ print_uuid (range_id e.1) +:+ ": " +:+ pretty (N.of_nat (length e.2)) +:+ " transactions") ::
       group_lines e.2) <$> hash_iter_map (GroupCommit.group_per_participant st)) ++
    ["Pending participant commits per transaction:"] ++
    ((fun e : Uuid * nat =>
        "  Transaction " +:+ print_uuid e.1 +:+ ": " +:+ pretty (N.of_nat e.2) +:+ " pending commits")
       <$> hash_iter_map (GroupCommit.num_pending_participant_commits_per_transaction st)) ++
    ["Returned transactions: " +:+
     debug_list ((fun tx => print_uuid (GroupCommit.txn_id tx)) <$> GroupCommit.returned_transactions st)]).
End Reports.

(** ** The tool *)

Inductive StatusType :=
| All
| ResolverStatus
| TransactionInfo
| ResolvedTransactions
| WaitingTransactions
| GroupCommitStatus
| NumWaitingTransactions
| AverageWaitingTransactions.

(** what is printed, after a title *)
Inductive Output :=
| Stats (title : string) (stats : gmap string spec_float)
| Text (title text : string)
| Number (title : string) (n : Z)
| Average (title : string) (f : spec_float).

Section Tool.
Context `{ResolverClient.ResolverCore C}.
Notation Call := (M C Coordinator.Error).
Local Open Scope sangria_scope.

(** the calls of [MonitoringClient] *)
Definition get_stats : Call (gmap string spec_float) := ResolverClient.rpc ResolverClient.server_get_stats.
Definition get_transaction_info_status : Call string :=
  ResolverClient.rpc ResolverClient.server_get_transaction_info_status.
Definition get_resolved_transactions_status : Call string :=
  ResolverClient.rpc ResolverClient.server_get_resolved_transactions_status.
Definition get_waiting_transactions_status : Call string :=
  ResolverClient.rpc ResolverClient.server_get_waiting_transactions_status.
Definition get_group_commit_status : Call string :=
  ResolverClient.rpc ResolverClient.server_get_group_commit_status.
Definition get_num_waiting_transactions : Call Z :=
  ResolverClient.rpc ResolverClient.server_get_num_waiting_transactions.
Definition get_average_waiting_transactions : Call spec_float :=
  ResolverClient.rpc ResolverClient.server_get_average_waiting_transactions.

Definition print_stats : Call (list Output) :=
  let! s := get_stats in m_ret [Stats "Resolver Statistics:" s].
Definition print_text (title : string) (m : Call string) : Call (list Output) :=
  let! s := m in m_ret [Text title s].
Definition print_transaction_info : Call (list Output) :=
  print_text "Transaction Info Status:" get_transaction_info_status.
Definition print_resolved_transactions : Call (list Output) :=
  print_text "Resolved Transactions Status:" get_resolved_transactions_status.
Definition print_waiting_transactions : Call (list Output) :=
  print_text "Waiting Transactions Status:" get_waiting_transactions_status.
Definition print_group_commit : Call (list Output) :=
  print_text "Group Commit Status:" get_group_commit_status.

(** [main] *)
Definition monitor (status : StatusType) : Call (list Output) :=
  match status with
  | All =>
      let! a := print_stats in
      let! b := print_transaction_info in
      let! c := print_resolved_transactions in
      let! d := print_waiting_transactions in
      let! e := print_group_commit in
      m_ret (a ++ b ++ c ++ d ++ e)%list
  | ResolverStatus => print_stats
  | TransactionInfo => print_transaction_info
  | ResolvedTransactions => print_resolved_transactions
  | WaitingTransactions => print_waiting_transactions
  | GroupCommitStatus => print_group_commit
  | NumWaitingTransactions =>
      let! n := get_num_waiting_transactions in
      m_ret [Number "Number of waiting transactions:" n]
  | AverageWaitingTransactions =>
      let! f := get_average_waiting_transactions in
      m_ret [Average "Average waiting transactions:" f]
  end.
End Tool.

(** ** The tool and the resolver *)

Section Resolver.
Context `{HashOrder}.
Context (print_uuid : Uuid -> string).
(** the resolver and its calls; what the reports read of its state *)
Context {G : Type}.
Context (commit : Uuid -> gset Uuid -> list GroupCommit.ParticipantRangeInfo -> bool -> G ->
  G * result Coordinator.Error unit).
Context (register : list Uuid -> G -> G) (waiting : G -> gmap Uuid positive).
Context (rstate : G -> Resolver.State) (gstate : G -> GroupCommit.State).

Definition core (now : Z) : ResolverClient.ResolverCore (ResolverClient.Tracked (G := G)) :=
  ResolverClient.tracked_core commit register waiting
    (fun g => transaction_info_status print_uuid (rstate g))
    (fun g => resolved_transactions_status print_uuid (rstate g))
    (fun g => waiting_transactions_status print_uuid (waiting g))
    (fun g => group_commit_status print_uuid (gstate g)) now.

(** Looking at the resolver changes it. Every report of the tool succeeds and
    none touches the transactions. Those without statistics leave the resolver
    as it is; those with statistics set them back to nothing, so that two
    of them in a row do not report the same: the second has no requests. *)
Theorem monitoring_resets_statistics now status (c : ResolverClient.Tracked (G := G)) :
  exists c' out, monitor (H := core now) status c = (c', Ok out) /\
    ResolverClient.tracked_state c' = ResolverClient.tracked_state c /\
    (status <> All -> status <> ResolverStatus -> c' = c) /\
    (status = All \/ status = ResolverStatus ->
     c' = ResolverClient.mkTracked (ResolverClient.tracked_state c) ∅ (Statistics.mkTracker 0 now []) /\
     forall now' c'' out', monitor (H := core now') ResolverStatus c' = (c'', Ok out') ->
       exists stats, out' = [Stats "Resolver Statistics:" stats] /\
         stats !! "num_requests" = Some (Float64.of_Z 0)).
Proof.
  assert (forall now' g c'' out', monitor (H := core now') ResolverStatus
      (ResolverClient.mkTracked g ∅ (Statistics.mkTracker 0 now [])) = (c'', Ok out') ->
    exists stats, out' = [Stats "Resolver Statistics:" stats] /\
      stats !! "num_requests" = Some (Float64.of_Z 0)) as Hnext.
  { intros now' g c'' out' [= <- <-]. eexists. split; [done|].
    apply lookup_union_Some_l. unfold Statistics.get_stats. by rewrite lookup_insert_eq. }
  destruct status; eexists _, _; (split; [reflexivity|]); (split; [done|]);
    (split; [done|]); intros [E|E]; try discriminate E; (split; [done|]);
    intros ? ? ? Hm; exact (Hnext _ _ _ _ Hm).
Qed.
End Resolver.

(** ** Witnesses *)

#[local] Existing Instance element_order.

(** one transaction waits for another *)
Definition sample_state : Resolver.State :=
  Resolver.mkState {[ 7%N := GroupCommit.mkTransactionInfo 7 1 ∅ [] false ]} {[ 5%N ]}.
Lemma sample_reports :
  transaction_info_status Universe.unary_print sample_state =
    lines ["Info per transaction:"; "  Transaction " +:+ Universe.unary_print 7 +:+
           ": dependencies=1, dependents={}, fake=false"] /\
  resolved_transactions_status Universe.unary_print sample_state =
    lines ["Resolved transactions: {" +:+ Universe.unary_print 5 +:+ "}"].
Proof. split; vm_compute; reflexivity. Qed.

Lemma sample_group_report :
  group_commit_status Universe.unary_print
    (GroupCommit.mkState
       {[ mkFullRangeId (mkKeyspaceId 2) 1 := [GroupCommit.mkTransactionInfo 7 0 ∅ [] true] ]}
       {[ 7%N := 1%nat ]} {[ mkFullRangeId (mkKeyspaceId 2) 1 ]} ∅ []) =
  lines ["=== Group Commit Status ==="; "Non-empty groups: [" +:+ Universe.unary_print 1 +:+ "]";
         "Groups per participant:"; "  " +:+ Universe.unary_print 1 +:+ ": 1 transactions";
         "    [0] Transaction " +:+ Universe.unary_print 7 +:+ " (fake=true)";
         "Pending participant commits per transaction:";
         "  Transaction " +:+ Universe.unary_print 7 +:+ ": 1 pending commits";
         "Returned transactions: []"].
Proof. vm_compute. reflexivity. Qed.

End Monitoring.
