(* ===== verification/MemTableTests.v ===== *)
(** * The unit tests of the range cache:
      the tests of [src/rangeserver/src/cache/memtabledb.rs]

    The tests of the source, run on the model of [MemTable.v] with a sorted list
    for the skip list. A failed assertion is a panic. *)

From stdpp Require Import base tactics list numbers option strings pretty.
From S2P Require Import Prelude Common MemTable.

Module MemTableTests.
Import Common MemTable.
Local Open Scope sangria_scope.

Definition KV_SIZE : N := 30.
Definition TEST_MEMTABLE_SIZE : N := 2 * 2 ^ 9.

Definition DB : Type := MemTableDB (list MemTableEntry).
Definition Test : Type := M DB Error unit.

(** [Bytes::from(format!("k{}", i))] *)
Definition test_key (i : N) : Bytes := bytes_of_string ("k" +:+ pretty i).
(** ten bytes, the first of which is [i as u8] *)
Definition test_value (i : N) : Bytes := (i `mod` 256)%N :: repeat 0%N 9.

(** an error fails the test *)
Definition no_error (m : Test) : Test := fun db =>
  match m db with
  | (db', Err _) => (db', Panic)
  | r => r
  end.

(** [get(..).await.unwrap()] *)
Definition read (k : Bytes) (asked : option N) : M DB Error (option Bytes * N) := fun db =>
  (db, match get k asked db with Ok r => Ok r | _ => Panic end).

Definition expect_read (k : Bytes) (asked : option N) (value : Bytes) (ep : N) : Test :=
  let! r := read k asked in
  m_assert (bool_decide (r.1 = Some value)) ;;;
  m_assert (bool_decide (r.2 = ep)).

(** [init], and the smaller tables of the tests *)
Definition init (size : N) : option DB :=
  (fun db => mkMemTableDB (mkCacheOptions (num_write_buffers (cache_options db)) size) (memtables db)
               (mut_memtable_idx db) (latest_epoch db) (gc_callback db) (gc_log db))
    <$> new default_options.

Definition run_test (t : Test) (size : N) : bool :=
  match init size with
  | Some db => match (t db).2 with Ok _ => true | _ => false end
  | None => false
  end.

Definition count_to (n : N) : list N := N.of_nat <$> seq 0 (N.to_nat n).

Definition fill (num_keys : N) (clears : bool) : Test :=
  m_for (count_to num_keys) (fun i =>
    no_error (upsert (test_key i) (test_value i) i) ;;;
    expect_read (test_key i) None (test_value i) i ;;;
    if clears && (i `mod` 10 =? 0)%N then no_error (clear i) else m_ret tt).

Definition keys_of_a_table : N := TEST_MEMTABLE_SIZE / KV_SIZE - 1.

Definition insert_get : Test :=
  fill keys_of_a_table false ;;;
  m_for (count_to keys_of_a_table) (fun i => expect_read (test_key i) (Some i) (test_value i) i).

Definition update_get : Test :=
  let epoch := keys_of_a_table in
  fill keys_of_a_table false ;;;
  no_error (upsert (test_key 1) (test_value 127) epoch) ;;;
  let! older := read (test_key 1) (Some (epoch - 1)%N) in
  m_assert (bool_decide (older.1 <> None /\ older.1 <> Some (test_value 127))) ;;;
  m_assert (bool_decide (older.2 = 1%N)) ;;;
  expect_read (test_key 1) None (test_value 127) epoch ;;;
  expect_read (test_key 1) (Some (epoch + 1)%N) (test_value 127) epoch.

Definition get_immutable_memtable : Test :=
  let num_keys := (2 * keys_of_a_table)%N in
  fill num_keys false ;;;
  expect_read (test_key 1) (Some 1%N) (test_value 1) 1 ;;;
  expect_read (test_key 1) (Some num_keys) (test_value 1) 1.

Definition delete_test : Test :=
  let epoch := keys_of_a_table in
  fill keys_of_a_table false ;;;
  no_error (delete (test_key 1) epoch) ;;;
  expect_read (test_key 1) (Some (epoch - 1)%N) (test_value 1) 1 ;;;
  let! latest := read (test_key 1) None in
  m_assert (bool_decide (latest.1 = None)).

Definition clear_test : Test :=
  fill (100 * keys_of_a_table)%N true ;;;
  let! r := read (test_key 0) None in
  m_assert (bool_decide (r.1 = None)).

(** ** The tests pass *)

Lemma insert_get_passes : run_test insert_get TEST_MEMTABLE_SIZE = true.
Proof. vm_compute. reflexivity. Qed.
Lemma update_get_passes : run_test update_get TEST_MEMTABLE_SIZE = true.
Proof. vm_compute. reflexivity. Qed.
Lemma get_immutable_memtable_passes : run_test get_immutable_memtable TEST_MEMTABLE_SIZE = true.
Proof. vm_compute. reflexivity. Qed.
Lemma delete_passes : run_test delete_test TEST_MEMTABLE_SIZE = true.
Proof. vm_compute. reflexivity. Qed.
Lemma clear_passes : run_test clear_test TEST_MEMTABLE_SIZE = true.
Proof. vm_compute. reflexivity. Qed.

End MemTableTests.
