(* ===== verification/PrefetchingTests.v ===== *)
(** * The unit tests of the prefetching buffer:
      the tests of [src/rangeserver/src/prefetching_buffer.rs]

    The tests of the source, run on the model of [Prefetching.v]. A call that the
    tests poll by hand is a value of [Future]. A failed assertion is a panic. *)

From stdpp Require Import base tactics list numbers option gmap sets strings.
From S2P Require Import Prelude Common Prefetching.

Module PrefetchingTests.
Import Common Prefetching.
Local Open Scope sangria_scope.

Definition Test : Type := M State unit unit.

Definition fake_transaction : Uuid := 0xfae86b6736dd41faa201f18d3051bca5.
Definition other_fake_transaction : Uuid := 0xc68c05e44edd4f96ae2520761a4653c5.
Definition fake_key : Bytes := bytes_of_string "testing!".
Definition fake_value : Bytes := bytes_of_string "testing value".
Definition new_value : Bytes := bytes_of_string "updated testing value".

(** a call of [process_prefetch_request]: not polled yet, waiting, or returned *)
Inductive Future :=
| Created (transaction_id : Uuid) (key : Bytes)
| Pending (key : Bytes) (n : N)
| Completed.

Definition ended (r : begin_result) : M State unit (Future * option KeyState) :=
  match r with
  | Return k => m_ret (Completed, Some k)
  | _ => m_panic
  end.

Definition on_state {A} (f : State -> State * A) : M State unit A := fun st =>
  let (st', a) := f st in (st', Ok a).

(** what a call that waits sees *)
Definition poll_pending (key : Bytes) (n : N) : M State unit (Future * option KeyState) :=
  let! st := m_get in
  match request_observe key n st with
  | None => m_ret (Pending key n, None)
  | Some (ObsReturn k) => m_ret (Completed, Some k)
  | Some ObsRetry => let! r := on_state (request_retry key n) in ended r
  end.

(** [Future::poll]: the value when it is ready; a future that has returned must
    not be polled again *)
Definition poll (f : Future) : M State unit (Future * option KeyState) :=
  match f with
  | Created t k =>
      let! r := on_state (request_begin t k) in
      match r with
      | Wait n => poll_pending k n
      | _ => ended r
      end
  | Pending k n => poll_pending k n
  | Completed => m_panic
  end.

(** a call that is awaited and does not wait *)
Definition process_prefetch_request (t : Uuid) (k : Bytes) : M State unit KeyState :=
  let! r := poll (Created t k) in m_unwrap r.2.

Definition assert_state (P : State -> bool) : Test := let! st := m_get in m_assert (P st).

(** one transaction asks for the key, and a second one waits for it *)
Definition two_requests : M State unit Future :=
  process_prefetch_request fake_transaction fake_key ;;;
  let! f := poll (Created other_fake_transaction fake_key) in
  m_ret f.1.

(** the fetch that is under way returns the value, or fails *)
Definition complete_fetch : Test :=
  let! st := m_get in
  m_modify (fetch_complete fake_key (Some fake_value) (fetch_sequence_number st)).
Definition fail_fetch : M State unit N :=
  let! st := m_get in
  m_modify (fetch_failed fake_key (fetch_sequence_number st)) ;;;
  m_ret (fetch_sequence_number st).

Definition test_add_to_transaction_keys : Test :=
  m_modify (fun st => set_requests
    (add_to_transaction_keys (transaction_keys st) fake_transaction fake_key) (key_transactions st) st) ;;;
  assert_state (fun st =>
    match transaction_keys st !! fake_transaction with
    | Some s => bool_decide (fake_key ∈ s)
    | None => false
    end).

Definition test_add_to_key_transactions : Test :=
  m_modify (fun st => set_requests (transaction_keys st)
    (add_to_key_transactions (key_transactions st) fake_transaction fake_key) st) ;;;
  assert_state (fun st =>
    match key_transactions st !! fake_key with
    | Some s => bool_decide (fake_transaction ∈ s)
    | None => false
    end).

Definition test_process_prefetch_request : Test :=
  let! k := process_prefetch_request fake_transaction fake_key in
  m_assert (bool_decide (k = Requested 1)).

Definition automatic_update_to_loading : Test :=
  process_prefetch_request fake_transaction fake_key ;;;
  assert_state (fun st => bool_decide (key_state st !! fake_key = Some (Loading 1))).

Definition watcher_wait_for_load : Test :=
  process_prefetch_request fake_transaction fake_key ;;;
  let! r := poll (Created other_fake_transaction fake_key) in
  m_assert (bool_decide (r.2 = None)).

Definition watcher_change_to_fetched : Test :=
  let! f := two_requests in
  complete_fetch ;;;
  let! r := poll f in
  m_assert (bool_decide (r.2 = Some Fetched)).

(** the second call is never polled in the next two *)
Definition mark_as_fetch : Test :=
  process_prefetch_request fake_transaction fake_key ;;;
  complete_fetch ;;;
  let! k := process_prefetch_request fake_transaction fake_key in
  m_assert (bool_decide (k = Fetched)).

Definition pull_from_prefetch_store : Test :=
  process_prefetch_request fake_transaction fake_key ;;;
  complete_fetch ;;;
  assert_state (fun st => bool_decide (prefetch_store st !! fake_key = Some fake_value)).

(** both have the value *)
Definition both_fetched : Test :=
  let! f := two_requests in
  complete_fetch ;;;
  poll f ;;;
  m_ret tt.

Definition test_process_buffer_update : Test :=
  both_fetched ;;;
  m_modify (upsert fake_key new_value) ;;;
  assert_state (fun st => bool_decide (prefetch_store st !! fake_key = Some new_value)).

Definition test_process_transaction_delete : Test :=
  both_fetched ;;;
  m_modify (buffer_delete fake_key) ;;;
  assert_state (fun st => bool_decide (prefetch_store st !! fake_key = None)).

Definition test_transaction_complete : Test :=
  both_fetched ;;;
  m_modify (upsert fake_key new_value) ;;;
  m_modify (process_transaction_complete fake_transaction) ;;;
  assert_state (fun st => bool_decide (prefetch_store st !! fake_key = Some new_value)) ;;;
  assert_state (fun st => bool_decide (key_state st !! fake_key = Some Fetched)) ;;;
  assert_state (fun st => bool_decide (transaction_keys st !! fake_transaction = None)) ;;;
  assert_state (fun st =>
    match key_transactions st !! fake_key with
    | Some s => bool_decide (other_fake_transaction ∈ s)
    | None => false
    end).

Definition buffer_value_update : Test :=
  both_fetched ;;;
  m_modify (upsert fake_key new_value) ;;;
  m_modify (process_transaction_complete fake_transaction) ;;;
  assert_state (fun st => bool_decide (prefetch_store st !! fake_key = Some new_value)).

Definition test_buffer_cleanup : Test :=
  both_fetched ;;;
  m_modify (upsert fake_key new_value) ;;;
  m_modify (process_transaction_complete fake_transaction) ;;;
  m_modify (process_transaction_complete other_fake_transaction) ;;;
  assert_state (fun st => bool_decide (prefetch_store st !! fake_key = None)) ;;;
  assert_state (fun st => bool_decide (key_state st !! fake_key = None)) ;;;
  assert_state (fun st => bool_decide (transaction_keys st !! fake_transaction = None)) ;;;
  assert_state (fun st => bool_decide (key_transactions st !! fake_key = None)).

Definition fetch_failure : Test :=
  let! f := two_requests in
  let! n := fail_fetch in
  let! r := poll f in
  m_assert (bool_decide (r.2 = Some (Requested n))).

Definition fetch_failure_loading : Test :=
  let! f := two_requests in
  let! n := fail_fetch in
  poll f ;;;
  assert_state (fun st => bool_decide (key_state st !! fake_key = Some (Loading n))).

(** ** The tests pass *)

Definition passes (t : Test) : Prop := (t new).2 = Ok tt.

Lemma prefetching_tests_pass :
  Forall passes
    [test_add_to_transaction_keys; test_add_to_key_transactions; test_process_prefetch_request;
     automatic_update_to_loading; watcher_wait_for_load; watcher_change_to_fetched; mark_as_fetch;
     pull_from_prefetch_store; test_process_buffer_update; test_process_transaction_delete;
     test_transaction_complete; buffer_value_update; test_buffer_cleanup; fetch_failure;
     fetch_failure_loading].
Proof. repeat constructor; vm_compute; reflexivity. Qed.

End PrefetchingTests.
