(* ===== verification/WardenTests.v ===== *)
(** * The unit tests of the warden:
      the tests of [src/warden/src/assignment_computation.rs]

    The tests of the source, run on the model of [Warden.v] with the database of
    [WardenPersistence.v]. A failed assertion is a panic. *)

From stdpp Require Import base tactics list numbers option gmap sets strings sorting.
From S2P Require Import Prelude Common Region Storage Warden Universe WardenPersistence.

Module WardenTests.
Import Common Warden.
Local Open Scope sangria_scope.
#[local] Existing Instance element_order.
#[local] Existing Instances Storage.tables_session WardenPersistence.with_tables
  WardenPersistence.tables_warden.

Abbreviation Database :=
  (Storage.Tables * gmap (Uuid * Uuid) WardenPersistence.SerializedRangeAssignment)%type (only parsing).

(** the computation and its database *)
Record Context := mkContext { computation : State; database : Database }.
Definition Test : Type := M Context unit unit.

Definition make_zone : Region.Zone := Region.mkZone (Region.mkRegion None "test") "test_zone".
(** the random identifiers are numbered *)
Definition make_range (keyspace id start stop : N) : RangeInfo :=
  mkRangeInfo (mkKeyspaceId keyspace) id (mkKeyRange (Some [start]) (Some [stop])).
Definition make_host (name address : string) (epoch : Z) : HostInfo :=
  mkHostInfo (mkHostIdentity name make_zone) address epoch.

(** [list_keyspaces] of the universe of the tests; [None] is an [unwrap] of a
    missing bound *)
Definition proto_range (r : RangeInfo) : option ProtoRange :=
  lower ← lower_bound_inclusive (range_key_range r);
  upper ← upper_bound_exclusive (range_key_range r);
  Some (mkProtoRange (Universe.unary_print (range_info_id r)) lower upper).
Definition list_keyspaces (base_ranges : list RangeInfo) : option (list ProtoKeyspace) :=
  match base_ranges with
  | [] => Some []
  | first :: _ =>
      rs ← mapM proto_range base_ranges;
      Some [mkProtoKeyspace (Universe.unary_print (keyspace_uuid (range_keyspace_id first))) rs]
  end.

(** [setup] *)
Definition setup : Context := mkContext (Warden.new 0) (Storage.mkTables ∅ ∅, ∅).

Definition on_computation {A} (f : State -> State * A) : M Context unit A := fun c =>
  let (st, a) := f (computation c) in (mkContext st (database c), Ok a).
Definition set_computation (f : State -> State) : Test :=
  m_modify (fun c => mkContext (f (computation c)) (database c)).
Definition on_database {E A} (f : Database -> Database * result E A)
    : M Context unit bool := fun c =>
  let (db, r) := f (database c) in
  (mkContext (computation c) db, Ok (match r with Ok _ => true | _ => false end)).
Definition assert_state (P : State -> bool) : Test := let! c := m_get in m_assert (P (computation c)).

(** one call of [run_assignment_computation], with the storing of the plan *)
Definition run_computation (prev : gmap HostIdentity HostInfo) : Test :=
  let! c := m_get in
  match plan prev (computation c) with
  | Ok (Some p) =>
      let! stored := on_database (WardenPersistence.update_range_assignments (new_version p)
                                    (updated_assignments p)) in
      let! r := on_computation (fun st =>
        let '(st', _, r) := run_assignment_computation prev stored st in (st', r)) in
      match r with Ok _ => m_ret tt | _ => m_panic end
  | Ok None => m_ret tt
  | _ => m_panic
  end.

(** [read_base_ranges], with the storing of the new ranges: all of them, as the
    computation of a test has none *)
Definition read_ranges (base_ranges : list RangeInfo) : Test :=
  let! stored := on_database (WardenPersistence.insert_new_ranges base_ranges) in
  let! ok := on_computation (read_base_ranges Universe.unary_parse (list_keyspaces base_ranges) stored) in
  m_assert ok.

Definition servers_of (l : list HostInfo) : gmap HostIdentity HostInfo :=
  list_to_map ((fun h => (identity h, h)) <$> l).

#[local] Instance KeyRange_eq_dec : EqDecision KeyRange.
Proof. solve_decision. Defined.
#[local] Instance RangeInfo_eq_dec : EqDecision RangeInfo.
Proof. solve_decision. Defined.

(** what the tests compare of the current assignment *)
Definition current (st : State) : list RangeAssignment :=
  default [] (range_assignments st !! current_version st).
Definition lower_leb (a b : RangeInfo) : bool :=
  match lower_bound_inclusive (range_key_range a), lower_bound_inclusive (range_key_range b) with
  | None, _ => true
  | Some _, None => false
  | Some x, Some y => bytes_leb x y
  end.
Definition lower_le (a b : RangeInfo) : Prop := lower_leb a b = true.
#[global] Instance lower_le_dec a b : Decision (lower_le a b).
Proof. unfold lower_le. solve_decision. Defined.
Definition assigned_sorted (st : State) : list RangeInfo := merge_sort lower_le (range <$> current st).
Definition assigned_servers (st : State) : gset string := list_to_set (assignee <$> current st).

Definition test_run_assignment_computation_empty : Test :=
  run_computation ∅ ;;;
  assert_state (fun st => bool_decide (range_assignments st = ∅)).

Definition test_run_assignment_computation_single_server : Test :=
  let range := make_range 1 2 0 127 in
  let host_info := make_host "server1" "1.2.3.4:8080" 1 in
  set_computation (fun st => set_ready (<[identity host_info := host_info]> (ready_range_servers st)) st) ;;;
  read_ranges [range] ;;;
  run_computation ∅ ;;;
  let! c := m_get in
  let! update := m_unwrap (get_assignment_update host_info (current_version (computation c)) (computation c)) in
  m_assert (bool_decide (length update.2 = 1)) ;;;
  m_assert (bool_decide (update.2.*2 = [range_info_id range])) ;;;
  m_assert (bool_decide (is_Some (Storage.leases (database c) !! range_info_id range))) ;;;
  m_assert (bool_decide (is_Some (WardenPersistence.range_map (database c) !!
    (keyspace_uuid (range_keyspace_id range), range_info_id range)))).

Definition test_run_assignment_computation_multiple_servers : Test :=
  let ranges := [make_range 1 2 0 127; make_range 3 4 128 211; make_range 5 6 212 255] in
  let servers := [make_host "server1" "1.2.3.4:8080" 1; make_host "server2" "5.6.7.8:8081" 1] in
  set_computation (fun st => mkState (base_ranges st) (range_assignments st) (current_version st)
    (servers_of servers) ranges) ;;;
  run_computation ∅ ;;;
  assert_state (fun st => bool_decide (length (current st) = 3)) ;;;
  assert_state (fun st => bool_decide (assigned_sorted st = ranges)) ;;;
  assert_state (fun st => bool_decide (assigned_servers st = {["server1"; "server2"]})).

Definition test_run_assignment_computation_reassign_unavailable_server : Test :=
  let range0 := make_range 1 2 0 127 in
  let range1 := make_range 3 4 128 255 in
  let server1 := make_host "server1" "1.2.3.4:8080" 1 in
  let server2 := make_host "server2" "5.6.7.8:8081" 1 in
  set_computation (fun st => mkState (base_ranges st)
    (<[current_version st := [mkRangeAssignment range0 "unavailable_server";
                              mkRangeAssignment range1 "server1"]]> (range_assignments st))
    (current_version st) (servers_of [server2]) (unassigned_base_ranges st)) ;;;
  run_computation (servers_of [make_host "unavailable_server" "0.0.0.0:0" 1; server1]) ;;;
  assert_state (fun st => bool_decide (size (range_assignments st) = 2)) ;;;
  assert_state (fun st => bool_decide (assigned_sorted st = [range0; range1])) ;;;
  assert_state (fun st => bool_decide (assigned_servers st = {["server1"; "server2"]})).

Definition is_ready (h : HostInfo) (st : State) : bool :=
  bool_decide (is_Some (ready_range_servers st !! identity h)).

Definition test_register_new_range_server : Test :=
  let server := make_host "new_server" "127.0.0.1:8080" 1 in
  on_computation (register_range_server server) ;;;
  assert_state (is_ready server) ;;;
  let! r := on_computation (register_range_server server) in
  m_assert (match r with Err _ => true | _ => false end).

Definition test_notify_range_server_unavailability : Test :=
  let server := make_host "server1" "127.0.0.1:8080" 1 in
  on_computation (register_range_server server) ;;;
  assert_state (is_ready server) ;;;
  set_computation (notify_range_server_unavailable server) ;;;
  assert_state (fun st => negb (is_ready server st)).

Definition test_notify_range_server_unavailability_older_epoch : Test :=
  let server := make_host "server1" "127.0.0.1:8080" 2 in
  on_computation (register_range_server server) ;;;
  assert_state (is_ready server) ;;;
  set_computation (notify_range_server_unavailable (make_host "server1" "127.0.0.1:8080" 1)) ;;;
  assert_state (is_ready server).

(** ** The tests pass *)

Definition passes (t : Test) : Prop := (t setup).2 = Ok tt.

Lemma warden_tests_pass :
  Forall passes
    [test_run_assignment_computation_empty; test_run_assignment_computation_single_server;
     test_run_assignment_computation_multiple_servers;
     test_run_assignment_computation_reassign_unavailable_server;
     test_register_new_range_server; test_notify_range_server_unavailability;
     test_notify_range_server_unavailability_older_epoch].
Proof. repeat constructor; vm_compute; reflexivity. Qed.

End WardenTests.
