(* ===== verification/StorageTests.v ===== *)
(** * The unit tests of the storage layers:
      the tests of [src/common/src/key_range.rs],
      [src/rangeserver/src/storage/cassandra.rs], [src/rangeserver/src/wal/cassandra.rs],
      [src/tx_state_store/src/storage/cassandra.rs],
      [src/universe/src/storage/cassandra.rs],
      [src/warden/src/persistence/cassandra.rs] and
      [src/coordinator-rangeclient/src/range_assignment_oracle.rs]

    The tests of the source, run on the models with tables in memory; each starts
    with empty tables. A failed assertion, and the [unwrap] of an error, is a
    panic. Not all of them pass: a test that deletes a record, and two tests of
    commits after an abort, panic. *)

From stdpp Require Import base tactics list numbers option gmap sets strings.
From S2P Require Import Prelude Common Storage RsError Wal TxStateStore Warden Universe Oracle WardenPersistence.

Module StorageTests.
Import Common.
Local Open Scope sangria_scope.

(** [.await.unwrap()] of an operation of a model, and of a read *)
Definition unwrap {S E A} (f : S -> S * result E A) : M S unit A := fun s =>
  let (s', r) := f s in (s', match r with Ok a => Ok a | _ => Panic end).
Definition unwrap_read {S E A} (f : S -> result E A) : M S unit A := unwrap (fun s => (s, f s)).

Definition passes {S} (t : M S unit unit) (s : S) : Prop := (t s).2 = Ok tt.
Definition panics {S} (t : M S unit unit) (s : S) : Prop := (t s).2 = Panic.

(** ** Key ranges *)

Definition basic_test : M unit unit unit :=
  let key := bytes_of_string "A" in
  let real_range := mkKeyRange (Some (bytes_of_string "C")) (Some (bytes_of_string "G")) in
  m_assert (negb (includes Common.empty key)) ;;;
  m_assert (includes all key) ;;;
  m_assert (includes real_range (bytes_of_string "C")) ;;;
  m_assert (includes real_range (bytes_of_string "DD")) ;;;
  m_assert (negb (includes real_range (bytes_of_string "G"))) ;;;
  m_assert (negb (includes real_range (bytes_of_string "Z"))).

Lemma key_range_tests_pass : passes basic_test tt.
Proof. vm_compute. reflexivity. Qed.

(** ** The storage of a range *)

Section RangeStorage.
#[local] Existing Instance Storage.tables_session.

(** the random identifiers are fixed *)
Definition full_range_id : FullRangeId := mkFullRangeId (mkKeyspaceId 1) 2.
Definition test_lease : Storage.CqlRangeLease :=
  Storage.mkCqlRangeLease 2 (Storage.mkCqlEpochRange 0 0) None None 0 (Storage.mkCqlEpochRange 1 0).
(** [for_testing::init] *)
Definition init_storage : Storage.Tables :=
  Storage.mkTables (WardenPersistence.insert_if_absent test_lease ∅) ∅.

Definition basic_take_ownership_and_renew_lease : M Storage.Tables unit unit :=
  let! range_info := unwrap (Storage.take_ownership_and_load_range full_range_id) in
  unwrap (Storage.renew_epoch_lease full_range_id (0, 1)%Z (Storage.leader_sequence_number range_info)).

(** the key is a random identifier *)
Definition test_key : Bytes := repeat 7%N 16.
Definition expect_value (v : option Bytes) : M Storage.Tables unit unit :=
  let! read_val := unwrap_read (Storage.get full_range_id test_key) in
  m_assert (bool_decide (read_val = v)).
Definition upsert_at (v : string) (epoch : Z) : M Storage.Tables unit unit :=
  unwrap (Storage.upsert full_range_id test_key (bytes_of_string v) (Storage.mkKeyVersion epoch 0)).
Definition delete_at (epoch : Z) : M Storage.Tables unit unit :=
  unwrap (Storage.delete full_range_id test_key (Storage.mkKeyVersion epoch 0)).

(** the part of [basic_crud] before its first delete *)
Definition basic_crud_upserts : M Storage.Tables unit unit :=
  expect_value None ;;;
  upsert_at "C" 2 ;;;
  expect_value (Some (bytes_of_string "C")) ;;;
  upsert_at "A" 1 ;;;
  expect_value (Some (bytes_of_string "C")) ;;;
  upsert_at "D" 3 ;;;
  expect_value (Some (bytes_of_string "D")).
Definition basic_crud : M Storage.Tables unit unit :=
  basic_crud_upserts ;;;
  delete_at 2 ;;;
  expect_value (Some (bytes_of_string "D")) ;;;
  delete_at 4 ;;;
  expect_value None.

Lemma storage_tests :
  passes basic_take_ownership_and_renew_lease init_storage /\
  passes basic_crud_upserts init_storage /\ panics basic_crud init_storage.
Proof. split_and!; vm_compute; reflexivity. Qed.
End RangeStorage.

(** ** The log *)

Section Log.
#[local] Existing Instance Wal.table_session.
Abbreviation Log := (Wal.CassandraWal Wal.Table) (only parsing).

(** [create_test], with a capacity and an interval: it passes two of the five
    arguments of [new] *)
Definition create_test_wal : Log :=
  Wal.new (Wal.mkTable {[5%N := Wal.mkMetaRow None 0]} ∅) 1000 10 5 0.

Definition expect_offsets (first : option Z) (next : Z) : M Log unit unit :=
  let! first_offset := unwrap_read Wal.get_first_offset in
  m_assert (bool_decide (first_offset = first)) ;;;
  let! next_offset := unwrap_read Wal.get_next_offset in
  m_assert (bool_decide (next_offset = next)).

(** [append_abort] returns when the background task has flushed the buffer *)
Definition append_and_flush (entry : Bytes) (id : Uuid) (now : Z) : M Log unit unit := fun w =>
  let '(w1, c, _) := Wal.append_abort entry w in
  let w2 := Wal.flush_task_round [id] now w1 in
  (w2, match mjoin (Wal.answers w2 !! c) with Some (Ok _) => Ok tt | _ => Panic end).

Definition initial_sync : M Log unit unit :=
  unwrap Wal.sync ;;;
  expect_offsets None 0.

Definition basic_append_and_trim : M Log unit unit :=
  unwrap Wal.sync ;;;
  append_and_flush [1%N] 11 10 ;;;
  expect_offsets (Some 0%Z) 1 ;;;
  append_and_flush [1%N] 12 20 ;;;
  expect_offsets (Some 0%Z) 2 ;;;
  unwrap (Wal.trim_before_offset 1) ;;;
  expect_offsets (Some 1%Z) 2.

Lemma wal_tests_pass : Forall (fun t => passes t create_test_wal) [initial_sync; basic_append_and_trim].
Proof. repeat constructor; vm_compute; reflexivity. Qed.
End Log.

(** ** The states of the transactions *)

Section Transactions.
#[local] Existing Instance TxStateStore.table_session.
Abbreviation Store := (gmap Uuid TxStateStore.TxRow) (only parsing).

#[local] Instance op_result_eq_dec : EqDecision TxStateStore.OpResult.
Proof. solve_decision. Defined.

Definition tx_id : Uuid := 7.
Definition expect_outcome (m : M Store unit TxStateStore.OpResult) (r : TxStateStore.OpResult)
    : M Store unit unit :=
  let! outcome := m in m_assert (bool_decide (outcome = r)).
Definition start : M Store unit unit := unwrap (TxStateStore.start_transaction tx_id).
Definition commit_at (epoch : Z) : M Store unit TxStateStore.OpResult :=
  unwrap (TxStateStore.commit_transaction tx_id epoch).
Definition abort : M Store unit TxStateStore.OpResult := unwrap (TxStateStore.abort_transaction tx_id).

Definition start_commit : M Store unit unit :=
  start ;;; expect_outcome (commit_at 5) (TxStateStore.TransactionIsCommitted 5).
Definition start_abort : M Store unit unit :=
  start ;;; expect_outcome abort TxStateStore.TransactionIsAborted.
Definition abort_committed : M Store unit unit :=
  start ;;; commit_at 5 ;;; expect_outcome abort (TxStateStore.TransactionIsCommitted 5).
Definition commit_aborted : M Store unit unit :=
  start ;;; abort ;;; expect_outcome (commit_at 6) TxStateStore.TransactionIsAborted.
Definition presumed_abort : M Store unit unit :=
  expect_outcome (commit_at 19) TxStateStore.TransactionIsAborted ;;;
  expect_outcome abort TxStateStore.TransactionIsAborted.

Lemma transaction_store_tests :
  Forall (fun t => passes t ∅) [start_commit; start_abort; abort_committed] /\
  Forall (fun t => panics t ∅) [commit_aborted; presumed_abort].
Proof. split; repeat constructor; vm_compute; reflexivity. Qed.
End Transactions.

(** ** The ranges the warden stores *)

Section WardenRanges.
#[local] Existing Instances Storage.tables_session WardenPersistence.with_tables
  WardenPersistence.tables_warden.
Abbreviation Database :=
  (Storage.Tables * gmap (Uuid * Uuid) WardenPersistence.SerializedRangeAssignment)%type (only parsing).

Definition unbounded_range : Warden.RangeInfo :=
  Warden.mkRangeInfo (mkKeyspaceId 1) 2 (mkKeyRange None None).
Definition test_insert_range_with_none_bounds : M Database unit unit :=
  unwrap (WardenPersistence.insert_new_ranges [unbounded_range]) ;;;
  let! lease := unwrap (Storage.take_ownership_and_load_range full_range_id) in
  m_assert (bool_decide (Storage.info_id lease = Warden.range_info_id unbounded_range)) ;;;
  m_assert (bool_decide (lower_bound_inclusive (Storage.key_range lease) =
    lower_bound_inclusive (Warden.range_key_range unbounded_range))) ;;;
  m_assert (bool_decide (upper_bound_exclusive (Storage.key_range lease) =
    upper_bound_exclusive (Warden.range_key_range unbounded_range))).

Lemma warden_persistence_tests_pass :
  passes test_insert_range_with_none_bounds (Storage.mkTables ∅ ∅, ∅).
Proof. vm_compute. reflexivity. Qed.
End WardenRanges.

(** ** The key spaces *)

Section Keyspaces.
#[local] Existing Instance Universe.table_universe.
Abbreviation Keyspaces := (gmap (string * string) Universe.Row) (only parsing).
Local Open Scope string_scope.

#[local] Instance zone_eq_dec : EqDecision Universe.Zone.
Proof. solve_decision. Defined.
#[local] Instance key_range_eq_dec : EqDecision Universe.KeyRange.
Proof. solve_decision. Defined.
#[local] Instance keyspace_info_eq_dec : EqDecision Universe.KeyspaceInfo.
Proof. solve_decision. Defined.

Definition example_region (region_name : string) : Universe.Region :=
  Universe.mkRegion (Some (Universe.PublicCloud 0)) region_name.

(** [ids]: the random identifiers, of the key space and its two ranges *)
Definition create_example_keyspace_info (ids : Uuid * Uuid * Uuid) (name namespace region_name : string)
    : Universe.KeyspaceInfo :=
  Universe.mkKeyspaceInfo (Universe.unary_print ids.1.1) namespace name
    (Some (Universe.mkZone (Some (example_region region_name)) "example_zone"))
    [Universe.mkKeyRange (Universe.unary_print ids.1.2) [0; 0; 0]%N [128; 0; 0]%N;
     Universe.mkKeyRange (Universe.unary_print ids.2) [128; 0; 0]%N [255; 255; 255]%N].

Definition test_local_roundtrip : M Keyspaces unit unit :=
  let original := create_example_keyspace_info (1, 2, 3)%N "example_keyspace" "example_namespace"
                    "example_region" in
  let! keyspace_id := m_unwrap (Universe.unary_parse (Universe.info_keyspace_id original)) in
  let! primary_zone := m_unwrap (Universe.info_primary_zone original) in
  let! serialized := m_unwrap (Universe.construct_from_parts Universe.unary_parse keyspace_id
    (Universe.info_name original) (Universe.info_namespace original) primary_zone
    (Universe.info_base_key_ranges original)) in
  m_assert (bool_decide (original = Universe.into_keyspace_info Universe.unary_print serialized)).

Definition create (i : Universe.KeyspaceInfo) : Keyspaces -> Keyspaces * result Universe.Error string :=
  fun db =>
    match Universe.info_primary_zone i with
    | None => (db, Panic)
    | Some primary_zone =>
        Universe.create_keyspace Universe.unary_parse (Universe.info_keyspace_id i)
          (Universe.info_name i) (Universe.info_namespace i) primary_zone
          (Universe.info_base_key_ranges i) db
    end.
Definition listed (r : option Universe.Region) : M Keyspaces unit (list Universe.KeyspaceInfo) :=
  unwrap_read (Universe.list_keyspaces Universe.unary_print r).
Definition has_id (keyspace_id : string) (i : Universe.KeyspaceInfo) : bool :=
  bool_decide (Universe.info_keyspace_id i = keyspace_id).

(** one turn of the loop of [test_cassandra_roundtrip] *)
Definition insert_and_find (original : Universe.KeyspaceInfo) : M Keyspaces unit string :=
  let! keyspace_id := unwrap (create original) in
  let! keyspaces := listed None in
  let! roundtrip := m_unwrap (List.find (has_id keyspace_id) keyspaces) in
  m_assert (bool_decide (original = roundtrip)) ;;;
  m_ret keyspace_id.

Definition test_cassandra_roundtrip : M Keyspaces unit unit :=
  let example_1 := create_example_keyspace_info (1, 2, 3)%N "example_keyspace_1_u" "example_namespace"
                     "example_region_1" in
  let example_2 := create_example_keyspace_info (4, 5, 6)%N "example_keyspace_2_u" "example_namespace"
                     "example_region_2" in
  let! this_region_keyspace_id := insert_and_find example_1 in
  let! other_region_keyspace_id := insert_and_find example_2 in
  let! keyspaces := listed (Some (example_region "example_region_1")) in
  m_assert (negb (existsb (has_id other_region_keyspace_id) keyspaces)) ;;;
  m_assert (existsb (has_id this_region_keyspace_id) keyspaces) ;;;
  let! db := m_get in
  m_assert (match (create example_1 db).2 with Err Universe.KeyspaceAlreadyExists => true | _ => false end).

Lemma universe_tests_pass : Forall (fun t => passes t ∅) [test_local_roundtrip; test_cassandra_roundtrip].
Proof. repeat constructor; vm_compute; reflexivity. Qed.
End Keyspaces.

(** ** The oracle *)

Section Ranges.
Local Open Scope string_scope.
#[local] Existing Instance Oracle.sample_hex.

Definition make_zone : Universe.Zone :=
  Universe.mkZone (Some (Universe.mkRegion None "test")) "test_zone".
Definition make_keyspaceinfo (ids : Uuid * Uuid) (name namespace : string) : Universe.KeyspaceInfo :=
  Universe.mkKeyspaceInfo (Universe.unary_print ids.1) namespace name (Some make_zone)
    [Universe.mkKeyRange (Universe.unary_print ids.2) [0%N] [10%N]].

(** [get_keyspace_info] of the universe of the test: the first key space of the
    name *)
Definition mock_get_keyspace_info (ks : Keyspace) (keyspaces_info : list Universe.KeyspaceInfo)
    : option Universe.KeyspaceInfo :=
  List.find (fun i => bool_decide (Universe.info_name i = ks_name ks) &&
                      bool_decide (Universe.info_namespace i = namespace ks)) keyspaces_info.

(** the key spaces of this universe do not change *)
#[refine] Instance mock_universe : Oracle.UniverseService (list Universe.KeyspaceInfo) := {|
  Oracle.us_info := mock_get_keyspace_info;
  Oracle.us_step w w' := w' = w
|}.
Proof. intros ks w w' i i' H1 Hs H2. induction Hs as [w|w w1 w2 -> _ IH]; [congruence|by apply IH]. Defined.

Definition test_full_range_id_of_key : M Oracle.RangeAssignmentOracle unit unit :=
  let keyspace_info := make_keyspaceinfo (1, 2)%N "test_keyspace" "test_namespace" in
  let! full_range_id := unwrap (Oracle.full_range_id_of_key Universe.unary_parse
    (mkKeyspace "test_namespace" "test_keyspace") [5%N] [keyspace_info]) in
  let! full_range_id := m_unwrap full_range_id in
  let! range_id := m_unwrap (Universe.info_base_key_ranges keyspace_info !! 0 ≫=
                             fun r => Universe.unary_parse (Universe.base_range_uuid r)) in
  m_assert (bool_decide (Common.range_id full_range_id = range_id)).

Lemma oracle_tests_pass : passes test_full_range_id_of_key Oracle.new.
Proof. vm_compute. reflexivity. Qed.
End Ranges.

End StorageTests.
